(* ===== verification/_CoqProject ===== *)
-Q . S2P
Prelude.v
Text.v
Posix.v
Streams.v
ByteBuffer.v
UniqueFd.v
Metrics.v
Logger.v
LoggerThreads.v
Config.v
ConfigText.v
Net.v
Backend.v
BackendPool.v
PoolThreads.v
HealthChecker.v
HealthStop.v
ProxySession.v
Traces.v
SessionSteps.v
SessionStream.v
SessionSpec.v
SessionEstate.v
SessionEvents.v
SessionFlush.v
Polls.v
Acceptor.v
Worker.v
WorkerTrace.v
WorkerInvariant.v
WorkerSessions.v
WorkerTurn.v
WorkerRun.v
WorkerPolls.v
WorkerLoop.v
WorkerWake.v
WorkerClaims.v
Main.v
MainInvariant.v
MainSteps.v
MainStart.v
MainAccept.v
MainStop.v
MainRun.v
MainClaims.v
