(* ===== verification/Prelude.v ===== *)
(** * FluxGate: a verification library

    FluxGate is a layer-4 TCP load balancer.  One process holds a main thread
    that accepts clients, [workers] threads that each run an epoll loop over
    their own proxy sessions, a thread that probes the backends, and a thread
    that prints statistics.  This library models that program, file by file,
    and proves what its parts promise and what the process as a whole does.

    ** The parts and where they are

<<
    file of the library        code under src/
    -------------------------  ---------------------------------------------
    Prelude                    (words, the monad of effects, rules, tactics)
    Text                       the C++ library's text functions in use
    Posix                      the system calls in use, as a class
    Streams                    (what passed through a descriptor, and who
                               holds it)
    ByteBuffer                 include/fluxgate/ByteBuffer.h
    UniqueFd                   include/fluxgate/UniqueFd.h
    Metrics                    include/fluxgate/Metrics.h, src/Metrics.cpp
    Logger, LoggerThreads      include/fluxgate/Logger.h, src/Logger.cpp
    Config, ConfigText         include/fluxgate/Config.h, src/Config.cpp
    Net                        include/fluxgate/Net.h, src/Net.cpp
    Backend                    include/fluxgate/Backend.h, src/Backend.cpp
    BackendPool, PoolThreads   include/fluxgate/BackendPool.h, src/BackendPool.cpp
    HealthChecker, HealthStop  include/fluxgate/HealthChecker.h,
                               src/HealthChecker.cpp
    ProxySession, Session*     include/fluxgate/ProxySession.h,
                               src/ProxySession.cpp
    Worker, Worker*            include/fluxgate/Worker.h, src/Worker.cpp
    Acceptor                   src/main.cpp, the turn of the accept loop
    Main, Main*                src/main.cpp
    Traces, Polls              (facts about histories the threads keep; what
                               epoll was asked to watch)
>>

    The definitions of a component carry the names of its methods and are in
    the file named after it; the files with a longer name ([SessionStream],
    [WorkerTurn], [MainStop], ...) hold its proofs; [LoggerThreads],
    [PoolThreads], [HealthStop] and [WorkerWake] model the same operations
    again, access by access.  [WorkerClaims] and [MainClaims] end the two
    chains.

    ** How code becomes definitions

    - Code with effects is a function in [ST S A]: from a state to an
      [outcome] and a state.  [Val] is a return, [Exn] a C++ exception with
      its [what()], [NoFuel] a loop whose bound ran out.  Destructors are
      calls where the scope ends, on both ways out ([Net.scoped],
      [BackendPool.destroy], [Worker.drop], [Main.leave]).
    - The fields of a class are a record with the same names.  A component
      works on an [env]: its object, and what it shares with others (pool,
      metrics, history).  [Lens] states that one state contains another, so
      that [Net], [BackendPool] and [Acceptor] are written and proved once
      for every caller.
    - Integers are [Z] with [u64], [u16] or [i32] around what can wrap;
      events and flags are combined with [Z.land] and [Z.lor].
    - A [shared_ptr<Backend>] is an index into the pool.  A
      [shared_ptr<ProxySession>] is a key of a heap; a session is destroyed
      with its last owner, and following a key that is gone is the outcome
      [Exn "use after free"], which the theorems exclude.
    - An unordered map is a [gmap]; the order of its traversals is the class
      [Worker.MapOrder], of which only that it visits every entry is known.
    - The operating system is the class [Posix.Kernel]: each call is an
      arbitrary function of the calls made before, recorded in a [trace].
      [KernelLaws] states what the manual pages guarantee: [recv] and [send]
      do not exceed the length asked for, new descriptors are not open ones,
      the clock does not go back.  A thread may fail to be created.  [scripted] builds
      kernels to compute with.

    ** What is proved

    - End to end: [MainClaims.process_transparent], for the whole process:
      what goes out on a socket came in, in order, on the one it is paired
      with.  The books of [Streams.estate] say who holds each descriptor and
      which bytes are between the two ends of a session; [SessionEstate] shows
      that the event handler keeps them, [WorkerInvariant] and [MainInvariant]
      carry them through a worker and through the process.
    - Data in transit, in one session: [SessionStream.stream_transparent] (what
      one end sent is what the other got followed by what is buffered, within the buffer's
      capacity, and counted), [end_of_stream_after_data]; below them
      [ByteBuffer.buffer_refines_fifo].  They are invariants of the steps of
      [SessionSteps], to which every run of [handleEvent] belongs.
    - A specification of the session: [SessionSpec] describes a relay as two
      bounded queues with five actions; [session_refines_spec] shows that every
      life of a session is one of its runs, call by call.
    - Reaction to events: [SessionEvents.handleEvent_total] (it ends),
      [SessionFlush.writable_flushes] (what is buffered goes out),
      [connect_completion]; [interest_never_deadlocks] gives the interest sets
      in terms of the buffers.
    - Ownership: [UniqueFd.descriptors_owned_once],
      [BackendPool.lease_accounting], [Backend.concurrent_release_exact], and
      of sockets [Net.connectNonBlocking_owns], [createListenSocket_owns],
      [waitForConnect_probe].
    - Selection: [BackendPool.acquire_selects_least], [weighted_shares_exact],
      [MainClaims.selectWorker_least].
    - Workers: the invariant of [WorkerInvariant] ties maps, heap,
      descriptors, leases and gauges together; on it rest
      [createSession_outcome], [deferred_destruction], [turn_reaps],
      [sweep_enforces_timeouts], [enqueue_bounded] and [worker_lifecycle].
    - Readiness: [WorkerClaims.sessions_stay_polled], over every run of the
      loop: what epoll was last told of a session's sockets ([Polls.polled]) is
      what the session is interested in now.  [WorkerPolls] shows it kept by
      each operation and [WorkerLoop] by the loop, [Polls.spared] being the
      frame: code changes the registrations of its own descriptors only.  On
      it rests [received_is_delivered]: what has come in on one side is sent
      on the other in the turn that finds it writable.
    - Threads against each other, by single accesses:
      [WorkerWake.no_lost_wakeup], [HealthStop.stop_notification],
      [PoolThreads.acquire_under_interference] (what the choice of a backend
      is worth while leases are given back and flags change under it),
      [Metrics.concurrent_counters_exact] and
      [LoggerThreads.log_linearizable], where the specification is [Logger]
      itself, one whole call at a time.
    - Health: [HealthChecker.health_follows_history] (the counters implement
      a reference on the history of probes), [run_stops] (one round per
      interval, until [stop]).
    - The process: [MainClaims.process_lifecycle], from the arguments to the
      exit code.  [MainInvariant] gives each worker the rest of the process
      as surroundings, so that the theorems on workers apply unchanged.
    - Text: [MainClaims.configuration_valid] (what is in force once [load]
      and [parseLevel] have accepted it), [Config.load_strict],
      [empty_name_unreachable], [ConfigText.load_render],
      [Metrics.snapshot_injective].
    - Behaviour the sources do not intend, or describe otherwise:
      [failed_wake_closes_twice], [epoll_failure_strands_clients],
      [poll_failure_terminates], [hangup_on_full_buffer_drops_unread_data],
      [half_closed_client_stutters], and the lost case of
      [stop_notification].

    ** Bounds

    A loop that waits for the environment takes a [fuel].  The theorems say
    how much is enough and that the result is then not [NoFuel]: when at most
    [n] calls in a row are interrupted by signals ([FewInterrupts]), a loop of
    the handler on buffers of [capacity] bytes ends within
    [(n + 1) * (capacity + 1)] turns; an eventfd can be read at most [n] times
    in a row ([WakeLaws]).  [process_lifecycle] needs [MainSteps.enough] for
    the largest buffer the configuration can ask for, at most [most] clients
    ([FewClients]) and an [epoll_wait] that fails only by interruption
    ([SteadyEpoll]).  Without the last, [worker_lifecycle] and
    [no_lost_wakeup] say what still holds of a worker, and
    [epoll_failure_strands_clients] what does not.

    Time is what the kernel's clock says ([Posix.k_now]); a wait of the
    checking thread is in the history with the duration asked for
    ([EvWaitFor]), and the schedule decides whether [stop] cuts it short.

    ** Interleaving

    Sessions are used by one thread only.  In [Worker] and [Main] the other
    threads run while a thread blocks (in [epoll_wait], [poll], [accept4],
    [join]), a whole turn of a loop, round of probes or nap at a time, in any
    order and number: the lists [requests] and [schedule].  Where two threads
    do touch the same memory between such points the files [Backend]
    ([acquire] and [release]), [PoolThreads] (the same with
    [BackendPool::acquire] and the health flags), [Metrics] (any of the updates), [LoggerThreads]
    (any of the calls), [WorkerWake] ([enqueue] and [stop] against [run]) and
    [HealthStop] ([stop] against [run]) go down to single accesses.  Memory
    is sequentially consistent, as the sources' atomics are.  When a worker
    leaves its loop the main thread may have more to do for it; [Worker.run]
    returns that, and it is done after the thread is gone, [WorkerWake]
    having the two side by side.

    ** Not modelled

    - The text of log lines, apart from the prefix [Logger.vlog] prints and
      the lines main writes at level INFO: [vfprintf] and [strftime] are not
      code of the repository, and no line influences what the program does.
    - Failure to allocate memory.
    - [NonCopyable.h] (nothing at run time), the build files, the tests and
      tools, the deployment samples. *)

From Stdlib Require Export ZArith Lia.
From stdpp Require Export base tactics list gmap strings.

#[global] Set Default Goal Selector "!".
Local Open Scope Z_scope.

(** ** Machine words *)

(** Unsigned 64-bit arithmetic ([std::size_t], [std::uint64_t]) on [Z]: every
    operation that may leave the range is written with [u64] around it. *)
Definition u64 (z : Z) : Z := z mod 2 ^ 64.

Definition u64_max : Z := 2 ^ 64 - 1.

Definition is_u64 (z : Z) : Prop := 0 <= z < 2 ^ 64.

(** Conversion to [std::uint16_t]. *)
Definition u16 (z : Z) : Z := z mod 2 ^ 16.

(** Conversion to [int]. *)
Definition i32 (z : Z) : Z := (z + 2 ^ 31) mod 2 ^ 32 - 2 ^ 31.

Lemma i32_small z : - 2 ^ 31 <= z < 2 ^ 31 → i32 z = z.
Proof. intros. unfold i32. rewrite Z.mod_small; lia. Qed.

Lemma u64_small z : is_u64 z → u64 z = z.
Proof. apply Z.mod_small. Qed.

Lemma u64_range z : is_u64 (u64 z).
Proof. apply Z.mod_pos_bound. lia. Qed.

Lemma u64_idemp z : u64 (u64 z) = u64 z.
Proof. apply u64_small, u64_range. Qed.

Lemma u16_small z : 0 <= z < 2 ^ 16 → u16 z = z.
Proof. apply Z.mod_small. Qed.

(** Removing a wrap-around whose argument is in range. *)
Ltac unwrap64 :=
  repeat match goal with
    | |- context [u64 ?z] => rewrite (u64_small z) by (unfold is_u64 in *; lia)
    | H : context [u64 ?z] |- _ =>
        rewrite (u64_small z) in H by (unfold is_u64 in *; lia)
    end.

(** ** A state monad with exceptions and fuel *)

(** What a piece of code ends with: a value, a C++ exception (its [what()]),
    or, in a model of a loop whose bound ran out, no result at all. *)
Inductive outcome (A : Type) : Type :=
| Val (a : A)
| Exn (what : string)
| NoFuel.
Arguments Val {A} a.
Arguments Exn {A} what.
Arguments NoFuel {A}.

Definition ST (S A : Type) : Type := S → outcome A * S.

#[export] Instance ST_ret S : MRet (ST S) := λ A a s, (Val a, s).

#[export] Instance ST_bind S : MBind (ST S) := λ A B f m s,
  match m s with
  | (Val a, s') => f a s'
  | (Exn e, s') => (Exn e, s')
  | (NoFuel, s') => (NoFuel, s')
  end.

Definition throw {S A} (what : string) : ST S A := λ s, (Exn what, s).
Definition diverge {S A} : ST S A := λ s, (NoFuel, s).

Definition gets {S A} (f : S → A) : ST S A := λ s, (Val (f s), s).
Definition modify {S} (f : S → S) : ST S unit := λ s, (Val tt, f s).

(** [try m catch h]: the effects before the [throw] stay. *)
Definition try_catch {S A} (m : ST S A) (h : string → ST S A) : ST S A := λ s,
  match m s with
  | (Exn e, s') => h e s'
  | r => r
  end.

Fixpoint for_each {S A} (body : A → ST S unit) (l : list A) : ST S unit :=
  match l with
  | [] => mret tt
  | x :: l' => body x ;; for_each body l'
  end.

(** ** State components *)

(** [Lens S T]: the state [S] has a component [T].  Code that touches only a
    component is written once against the lens and runs in every larger
    state (the kernel's history inside a session's state, and so on). *)
Class Lens (S T : Type) := {
  view : S → T;
  upd : T → S → S
}.

Class LensLaws S T `{Lens S T} : Prop := {
  view_upd : ∀ t s, view (upd t s) = t;
  upd_view : ∀ s : S, upd (view s) s = s;
  upd_upd : ∀ t t' s, upd t (upd t' s) = upd t s
}.

#[export] Instance Lens_refl S : Lens S S := {| view s := s; upd t _ := t |}.
#[export] Instance Lens_refl_laws S : LensLaws S S.
Proof. split; done. Qed.

Definition zoom {S T A} `{Lens S T} (m : ST T A) : ST S A := λ s,
  let '(o, t) := m (view s) in (o, upd t s).

(** [lifts m m0]: the code [m], written against the lens, is the code [m0] of
    the component and touches nothing else. *)
Definition lifts {S T A} `{Lens S T} (m : ST S A) (m0 : ST T A) : Prop :=
  ∀ s, m s = zoom m0 s.

Section lifting.
Context {S T : Type} `{LensLaws S T} {A : Type}.

Lemma lifts_ret (a : A) : lifts (mret a) (mret a).
Proof using All. intros s. unfold zoom; cbn. by rewrite upd_view. Qed.

Lemma lifts_throw e : lifts (throw (A := A) e) (throw e).
Proof using All. intros s. unfold zoom; cbn. by rewrite upd_view. Qed.

Lemma lifts_diverge : lifts (diverge (A := A)) diverge.
Proof using All. intros s. unfold zoom; cbn. by rewrite upd_view. Qed.

Lemma lifts_bind {B} (m : ST S A) m0 (k : A → ST S B) k0 :
  lifts m m0 → (∀ a, lifts (k a) (k0 a)) → lifts (m ≫= k) (m0 ≫= k0).
Proof using All.
  intros Hm Hk s. unfold zoom, mbind, ST_bind. rewrite Hm. unfold zoom.
  destruct (m0 (view s)) as [[a|e|] t]; [|done..].
  rewrite Hk. unfold zoom. rewrite view_upd. destruct (k0 a t). by rewrite upd_upd.
Qed.

Lemma lifts_try_catch (m : ST S A) m0 h h0 :
  lifts m m0 → (∀ e, lifts (h e) (h0 e)) → lifts (try_catch m h) (try_catch m0 h0).
Proof using All.
  intros Hm Hk s. unfold zoom, try_catch. rewrite Hm. unfold zoom.
  destruct (m0 (view s)) as [[a|e|] t]; [done| |done].
  rewrite Hk. unfold zoom. rewrite view_upd. destruct (h0 e t). by rewrite upd_upd.
Qed.
End lifting.

(** ** Weakest preconditions *)

(** [wp m Q s]: running [m] from [s] ends in an outcome and a state related
    by [Q]; exceptions and exhausted fuel are outcomes [Q] speaks about. *)
Definition wp {S A} (m : ST S A) (Q : outcome A → S → Prop) (s : S) : Prop :=
  Q (m s).1 (m s).2.

(** The postcondition of a bind: [k] for a value, [Q] for what ends early. *)
Definition bind_post {S A B} (k : A → ST S B) (Q : outcome B → S → Prop)
    (o : outcome A) (s : S) : Prop :=
  match o with
  | Val a => wp (k a) Q s
  | Exn e => Q (Exn e) s
  | NoFuel => Q NoFuel s
  end.

Section wp_rules.
Context {S A B : Type}.
Implicit Types (Q : outcome A → S → Prop) (s : S).

Lemma wp_mono (m : ST S A) Q Q' s :
  wp m Q s → (∀ o s', Q o s' → Q' o s') → wp m Q' s.
Proof. unfold wp. auto. Qed.

Lemma wp_ret (a : A) Q s : Q (Val a) s → wp (mret a) Q s.
Proof. done. Qed.

Lemma wp_bind (m : ST S A) (k : A → ST S B) (Q : outcome B → S → Prop) s :
  wp m (bind_post k Q) s → wp (m ≫= k) Q s.
Proof.
  unfold wp, bind_post, mbind, ST_bind.
  destruct (m s) as [[a|e|] s']; done.
Qed.

Lemma wp_throw e Q s : Q (Exn e) s → wp (throw e) Q s.
Proof. done. Qed.

Lemma wp_diverge Q s : Q NoFuel s → wp diverge Q s.
Proof. done. Qed.

Lemma wp_gets (f : S → A) Q s : Q (Val (f s)) s → wp (gets f) Q s.
Proof. done. Qed.

Lemma wp_modify (f : S → S) (Q : outcome unit → S → Prop) s :
  Q (Val tt) (f s) → wp (modify f) Q s.
Proof. done. Qed.

Lemma wp_try_catch (m : ST S A) h Q s :
  wp m (λ o s', match o with Exn e => wp (h e) Q s' | _ => Q o s' end) s →
  wp (try_catch m h) Q s.
Proof.
  unfold wp, try_catch. destruct (m s) as [[a|e|] s']; done.
Qed.

Lemma wp_zoom {T} `{Lens T S} (m : ST S A) (Q : outcome A → T → Prop) (t : T) :
  wp m (λ o s, Q o (upd s t)) (view t) → wp (zoom m) Q t.
Proof. unfold wp, zoom. destruct (m (view t)); done. Qed.
End wp_rules.

(** Inversion of a normal return. *)
Lemma bind_val {S A B} (m : ST S A) (k : A → ST S B) s b s' :
  (m ≫= k) s = (Val b, s') → ∃ a s1, m s = (Val a, s1) ∧ k a s1 = (Val b, s').
Proof.
  unfold mbind, ST_bind. destruct (m s) as [[a|e|] s1]; intros; simplify_eq. eauto.
Qed.

Ltac bind_inv H :=
  let a := fresh "a" in let s1 := fresh "s" in let H1 := fresh "Hb" in
  apply bind_val in H as (a & s1 & H1 & H).

(** [runs m R s]: total correctness.  [m] returns (no exception, no exhausted
    fuel) and its value and final state satisfy [R]. *)
Definition runs {S A} (m : ST S A) (R : A → S → Prop) (s : S) : Prop :=
  ∃ a s', m s = (Val a, s') ∧ R a s'.

Section runs_rules.
Context {S A B : Type}.
Implicit Types (R : A → S → Prop) (s : S).

Lemma runs_ret (a : A) R s : R a s → runs (mret a) R s.
Proof. intros H. by exists a, s. Qed.

Lemma runs_mono (m : ST S A) R R' s :
  runs m R s → (∀ a s', R a s' → R' a s') → runs m R' s.
Proof. intros (a & s' & Hm & HR) H. exists a, s'. auto. Qed.

Lemma runs_bind (m : ST S A) (k : A → ST S B) (R : B → S → Prop) s :
  runs m (λ a s', runs (k a) R s') s → runs (m ≫= k) R s.
Proof.
  intros (a & s1 & Hm & b & s2 & Hk & HR). exists b, s2. split; [|done].
  unfold mbind, ST_bind. by rewrite Hm.
Qed.

(** The first two of three. *)
Lemma runs_assoc {C} (m : ST S A) (k1 : A → ST S B) (k2 : B → ST S C) (R : C → S → Prop) s :
  runs ((m ≫= k1) ≫= k2) R s → runs (m ≫= λ a, k1 a ≫= k2) R s.
Proof. unfold runs, mbind, ST_bind. by destruct (m s) as [[a|e|] s1]. Qed.

Lemma runs_gets (f : S → A) R s : R (f s) s → runs (gets f) R s.
Proof. intros H. by exists (f s), s. Qed.

Lemma runs_modify (f : S → S) (R : unit → S → Prop) s : R tt (f s) → runs (modify f) R s.
Proof. intros H. by exists tt, (f s). Qed.

Lemma runs_try (m : ST S A) h R s : runs m R s → runs (try_catch m h) R s.
Proof.
  intros (a & s' & Hm & HR). exists a, s'. split; [|done]. unfold try_catch. by rewrite Hm.
Qed.

(** A block that may throw: [E] holds where it does. *)
Lemma runs_catch (m : ST S A) h R (E : S → Prop) s :
  match m s with
  | (Val a, s') => R a s'
  | (Exn e, s') => E s'
  | (NoFuel, _) => False
  end → (∀ e s', E s' → runs (h e) R s') → runs (try_catch m h) R s.
Proof.
  unfold runs at 2, try_catch. destruct (m s) as [[a|e|] s']; intros H Hh; [|by apply Hh|done].
  by exists a, s'.
Qed.
End runs_rules.

(** Code has one end only. *)
Lemma runs_and {S A} (m : ST S A) (R R' : A → S → Prop) s :
  runs m R s → runs m R' s → runs m (λ a s', R a s' ∧ R' a s') s.
Proof.
  intros (a & s1 & E & HR) (a' & s2 & E' & HR'). rewrite E in E'. injection E' as <- <-.
  by exists a, s1.
Qed.

Lemma runs_eq {S A} (m : ST S A) (R : A → S → Prop) s :
  runs m R s → runs m (λ a s', R a s' ∧ m s = (Val a, s')) s.
Proof. intros (a & s' & E & HR). by exists a, s'. Qed.

Lemma runs_for_each {S A} (body : A → ST S unit) (I : list A → S → Prop) l s :
  I l s →
  (∀ x l' s', I (x :: l') s' → runs (body x) (λ _ s'', I l' s'') s') →
  runs (for_each body l) (λ _ s', I [] s') s.
Proof.
  intros Hl Hb. revert s Hl. induction l as [|x l IH]; intros s Hl; cbn.
  - by apply runs_ret.
  - apply runs_bind. eapply runs_mono; [by apply Hb|]. intros [] s' Hl'. by apply IH.
Qed.

(** [ends m R E s]: started in [s], [m] ends with a result for which [R]
    holds or with an exception for which [E] does. *)
Definition ends {S A} (m : ST S A) (R : A → S → Prop) (E : string → S → Prop) (s : S) : Prop :=
  match m s with
  | (Val a, s') => R a s'
  | (Exn e, s') => E e s'
  | (NoFuel, _) => False
  end.

Section ends_rules.
Context {S A B : Type}.
Implicit Types (R : A → S → Prop) (E : string → S → Prop) (s : S).

Lemma ends_runs (m : ST S A) R E s : runs m R s → ends m R E s.
Proof. intros (a & s' & Hm & HR). unfold ends. by rewrite Hm. Qed.

Lemma ends_mono (m : ST S A) R R' E E' s :
  ends m R E s → (∀ a s', R a s' → R' a s') → (∀ e s', E e s' → E' e s') → ends m R' E' s.
Proof. unfold ends. intros H HR HE. destruct (m s) as [[a|e|] s']; auto. Qed.

Lemma ends_bind (m : ST S A) (k : A → ST S B) (R : B → S → Prop) E s :
  ends m (λ a s', ends (k a) R E s') E s → ends (m ≫= k) R E s.
Proof. unfold ends, mbind, ST_bind. by destruct (m s) as [[a|e|] s']. Qed.

(** A first part that cannot throw. *)
Lemma ends_after (m : ST S A) (k : A → ST S B) (R : B → S → Prop) E s :
  runs m (λ a s', ends (k a) R E s') s → ends (m ≫= k) R E s.
Proof. intros H. by apply ends_bind, ends_runs. Qed.

Lemma ends_throw R E e s : E e s → ends (throw e) R E s.
Proof. done. Qed.

(** The block of a [try] whose handler takes every exception. *)
Lemma ends_caught (m : ST S A) (h : string → ST S A) R s :
  ends m R (λ e, runs (h e) R) s → runs (try_catch m h) R s.
Proof.
  unfold ends, runs at 2, try_catch. destruct (m s) as [[a|e|] s'] eqn:Hm; [|done..].
  intros HR. by exists a, s'.
Qed.
End ends_rules.

Lemma ends_lifts {S T A} `{LensLaws S T} (m : ST S A) (m0 : ST T A) R E s :
  lifts m m0 → ends m0 R E (view s) →
  ends m (λ a s', ∃ t, s' = upd t s ∧ R a t) (λ e s', ∃ t, s' = upd t s ∧ E e t) s.
Proof.
  unfold ends. intros Hl Hm. rewrite Hl. unfold zoom.
  destruct (m0 (view s)) as [[a|e|] t]; [by exists t..|done].
Qed.

Lemma ends_preserves {S A} (I : S → Prop) (m : ST S A) R E s :
  (∀ s, I s → I (m s).2) → I s → ends m R E s →
  ends m (λ a s', R a s' ∧ I s') (λ e s', E e s' ∧ I s') s.
Proof.
  unfold ends. intros Hm Hs. specialize (Hm s Hs). by destruct (m s) as [[a|e|] s'].
Qed.

(** One step of a [runs] goal; calls of specified functions are left to the
    caller. *)
Ltac runs_step :=
  lazymatch goal with
  | |- runs (mret _) _ _ => apply runs_ret
  | |- runs (_ ≫= _) _ _ => apply runs_bind
  | |- runs (gets _) _ _ => apply runs_gets
  | |- runs (modify _) _ _ => apply runs_modify
  end.
Ltac runs_steps := repeat (runs_step; cbn beta).

(** [preserves I m]: whatever [m] ends with, it keeps [I]. *)
Definition preserves {S A} (I : S → Prop) (m : ST S A) : Prop :=
  ∀ s, I s → I (m s).2.

Lemma runs_preserves {S A} (I : S → Prop) (m : ST S A) R s :
  preserves I m → I s → runs m R s → runs m (λ a s', R a s' ∧ I s') s.
Proof.
  intros Hm Hs (a & s' & Ha & HR). exists a, s'. split; [done|]. split; [done|].
  specialize (Hm s Hs). by rewrite Ha in Hm.
Qed.

Section preserves_rules.
Context {S A B : Type} (I : S → Prop).

Lemma preserves_wp (m : ST S A) :
  preserves I m ↔ ∀ s, I s → wp m (λ _, I) s.
Proof. by split. Qed.

Lemma preserves_ret (a : A) : preserves I (mret a).
Proof. by intros s. Qed.

Lemma preserves_throw e : preserves I (throw (A := A) e).
Proof. by intros s. Qed.

Lemma preserves_diverge : preserves I (diverge (A := A)).
Proof. by intros s. Qed.

Lemma preserves_gets (f : S → A) : preserves I (gets f).
Proof. by intros s. Qed.

Lemma preserves_bind (m : ST S A) (k : A → ST S B) :
  preserves I m → (∀ a, preserves I (k a)) → preserves I (m ≫= k).
Proof.
  intros Hm Hk s Hs. apply Hm in Hs. unfold mbind, ST_bind.
  destruct (m s) as [[a|e|] s']; cbn in *; [by apply Hk|done..].
Qed.

Lemma preserves_try_catch (m : ST S A) h :
  preserves I m → (∀ e, preserves I (h e)) → preserves I (try_catch m h).
Proof.
  intros Hm Hh s Hs. apply Hm in Hs. unfold try_catch.
  destruct (m s) as [[a|e|] s']; cbn in *; [done|by apply Hh|done].
Qed.

Lemma preserves_if (b : bool) (m1 m2 : ST S A) :
  (b = true → preserves I m1) → (b = false → preserves I m2) →
  preserves I (if b then m1 else m2).
Proof. destruct b; auto. Qed.
End preserves_rules.

Lemma preserves_for_each {S A} (I : S → Prop) (body : A → ST S unit) l :
  (∀ x, x ∈ l → preserves I (body x)) → preserves I (for_each body l).
Proof.
  induction l as [|x l IH]; intros Hb; cbn.
  - apply preserves_ret.
  - apply preserves_bind; [apply Hb; set_solver|].
    intros _. apply IH. set_solver.
Qed.

(** [finishes m]: [m] never runs out of fuel. *)
Definition finishes {S A} (m : ST S A) : Prop := ∀ s, (m s).1 ≠ NoFuel.

Section finishes_rules.
Context {S A B : Type}.

Lemma finishes_ret (a : A) : finishes (S := S) (mret a).
Proof. done. Qed.

Lemma finishes_throw e : finishes (S := S) (throw (A := A) e).
Proof. done. Qed.

Lemma finishes_gets (f : S → A) : finishes (gets f).
Proof. done. Qed.

Lemma finishes_modify (f : S → S) : finishes (modify f).
Proof. done. Qed.

Lemma finishes_bind (m : ST S A) (k : A → ST S B) :
  finishes m → (∀ a, finishes (k a)) → finishes (m ≫= k).
Proof.
  intros Hm Hk s. specialize (Hm s). unfold mbind, ST_bind.
  destruct (m s) as [[a|e|] s']; [apply Hk|done..].
Qed.

Lemma finishes_zoom {T} `{Lens T S} (m : ST S A) : finishes m → finishes (zoom (S := T) m).
Proof. intros Hm t. specialize (Hm (view t)). unfold zoom. by destruct (m (view t)). Qed.

Lemma finishes_for_each (body : A → ST S unit) l :
  (∀ x, finishes (body x)) → finishes (for_each body l).
Proof.
  intros Hb. induction l as [|x l IH]; [done|]. intros s. cbn. unfold mbind, ST_bind.
  specialize (Hb x s). destruct (body x s) as [[[]|e|] s']; [apply IH|done..].
Qed.
End finishes_rules.

Ltac finishes :=
  repeat first
    [ apply finishes_bind; [|intros ?]
    | apply finishes_ret | apply finishes_throw | apply finishes_gets | apply finishes_modify
    | apply finishes_zoom | apply finishes_for_each; intros ?
    | assumption
    | case_match ].

Lemma for_each_app_val {S A} (body : A → ST S unit) l1 l2 s s' :
  for_each body (l1 ++ l2) s = (Val tt, s') →
  ∃ s1, for_each body l1 s = (Val tt, s1) ∧ for_each body l2 s1 = (Val tt, s').
Proof.
  revert s. induction l1 as [|x l1 IH]; intros s H; cbn in *; [by exists s|].
  bind_inv H. destruct (IH _ H) as (s1 & H1 & H2). exists s1. split; [|done].
  unfold mbind, ST_bind. by rewrite Hb.
Qed.

Create HintDb flux.
Create Rewrite HintDb flux.
#[export] Hint Resolve preserves_ret preserves_throw preserves_diverge
  preserves_gets preserves_bind preserves_try_catch preserves_if : flux.

(** One step of symbolic execution of a [wp] goal. *)
Ltac wp_step :=
  lazymatch goal with
  | |- wp (mret _) _ _ => apply wp_ret
  | |- wp (_ ≫= _) _ _ => apply wp_bind
  | |- wp (throw _) _ _ => apply wp_throw
  | |- wp diverge _ _ => apply wp_diverge
  | |- wp (gets _) _ _ => apply wp_gets
  | |- wp (modify _) _ _ => apply wp_modify
  | |- wp (try_catch _ _) _ _ => apply wp_try_catch
  | |- wp (zoom _) _ _ => apply wp_zoom
  | |- wp (if ?b then _ else _) _ _ => destruct b eqn:?
  | |- wp (match ?o with _ => _ end) _ _ => destruct o eqn:?
  | |- bind_post _ _ (Val _) _ => unfold bind_post at 1
  | |- bind_post _ _ (Exn _) _ => unfold bind_post at 1
  | |- bind_post _ _ NoFuel _ => unfold bind_post at 1
  end.
Ltac wp_steps := repeat wp_step.

(** ** Lists *)

(** Writing [bs] over [l] from position [i] on, as a run of stores does. *)
Definition splice {A} (i : nat) (bs l : list A) : list A := list_inserts i bs l.

Lemma splice_length {A} i (bs l : list A) : length (splice i bs l) = length l.
Proof. apply length_inserts. Qed.

Lemma splice_in_bounds {A} i (bs l : list A) :
  (i + length bs ≤ length l)%nat →
  splice i bs l = take i l ++ bs ++ drop (i + length bs) l.
Proof.
  intros Hle. apply list_eq. intros j. unfold splice.
  destruct (decide (i ≤ j < i + length bs)%nat) as [Hj|Hj].
  - rewrite list_lookup_inserts by lia.
    rewrite lookup_app_r by (rewrite length_take; lia).
    rewrite length_take, Nat.min_l by lia.
    by rewrite lookup_app_l by lia.
  - destruct (decide (j < i)%nat).
    + rewrite list_lookup_inserts_lt by lia.
      rewrite lookup_app_l by (rewrite length_take; lia).
      by rewrite lookup_take_lt by lia.
    + rewrite list_lookup_inserts_ge by lia.
      rewrite lookup_app_r by (rewrite length_take; lia).
      rewrite length_take, Nat.min_l by lia.
      rewrite lookup_app_r by lia. rewrite lookup_drop. f_equal. lia.
Qed.

(** ** Sums *)

(** Sum of [f] over [l]. *)
Definition total {A} (f : A → Z) (l : list A) : Z := foldr (λ x n, f x + n) 0 l.

Section total.
Context {A : Type}.
Implicit Types (f g : A → Z) (l : list A).

Lemma total_cons f x l : total f (x :: l) = f x + total f l.
Proof. done. Qed.

Lemma total_app f l l' : total f (l ++ l') = total f l + total f l'.
Proof. induction l as [|x l IH]; [done|]. cbn [app]. rewrite !total_cons. lia. Qed.

Lemma total_snoc f l x : total f (l ++ [x]) = total f l + f x.
Proof. rewrite total_app. cbn. lia. Qed.

Lemma total_alter f (g : A → A) i l x :
  l !! i = Some x → total f (alter g i l) = total f l - f x + f (g x).
Proof.
  revert i. induction l as [|y l IH]; intros [|i] Hi; simplify_list_eq; cbn; [lia|].
  rewrite IH by done. lia.
Qed.

Lemma total_insert f i l x y :
  l !! i = Some x → total f (<[i := y]> l) = total f l - f x + f y.
Proof.
  revert i. induction l as [|z l IH]; intros [|i] Hi; simplify_list_eq; cbn; [lia|].
  rewrite (IH i) by done. lia.
Qed.

Lemma total_delete f i l x : l !! i = Some x → total f l = f x + total f (delete i l).
Proof.
  revert i. induction l as [|y l IH]; intros [|i] Hi; simplify_list_eq; cbn; [done|].
  fold (total f l). rewrite (IH i) by done. unfold total. lia.
Qed.

Lemma total_nonneg f l : Forall (λ x, 0 <= f x) l → 0 <= total f l.
Proof. induction 1 as [|x l Hx _ IH]; cbn; [lia|]. unfold total in *. lia. Qed.

Lemma total_lookup_le f l i x :
  Forall (λ x, 0 <= f x) l → l !! i = Some x → f x <= total f l.
Proof.
  intros Hf. revert i. induction Hf as [|y l Hy Hf IH]; intros [|i] Hi; simplify_list_eq.
  - pose proof (total_nonneg f l Hf). unfold total in *. lia.
  - specialize (IH i Hi). unfold total in *. lia.
Qed.

Lemma total_le f g l : (∀ x, x ∈ l → f x <= g x) → total f l <= total g l.
Proof.
  induction l as [|x l IH]; intros Hl; cbn; [lia|].
  pose proof (Hl x (list_elem_of_here _ _)).
  assert (total f l <= total g l) by (apply IH; intros y Hy; by apply Hl, list_elem_of_further).
  unfold total in *. lia.
Qed.

Lemma total_ext f g l : (∀ x, f x = g x) → total f l = total g l.
Proof. intros Hf. unfold total. induction l as [|x l IH]; cbn; [done|]. by rewrite IH, Hf. Qed.

Lemma total_sub f g l : total (λ x, f x - g x) l = total f l - total g l.
Proof. unfold total. induction l as [|x l IH]; cbn; lia. Qed.

Lemma total_scale k f l : total (λ x, k * f x) l = k * total f l.
Proof. unfold total. induction l as [|x l IH]; cbn; lia. Qed.
End total.

#[global] Arguments total : simpl never.

(** ** Taking an element out of a list *)

Lemma delete_insert_same {A} (l : list A) i x : delete i (<[i := x]> l) = delete i l.
Proof. revert i. induction l as [|y l IH]; intros [|i]; cbn; [done..|by f_equal]. Qed.

Lemma alter_last {A} (f : A → A) (l : list A) x : alter f (length l) (l ++ [x]) = l ++ [f x].
Proof. induction l as [|z l IH]; cbn; [done|]. by rewrite IH. Qed.

Lemma insert_last {A} (l : list A) x y : <[length l := y]> (l ++ [x]) = l ++ [y].
Proof. induction l as [|z l IH]; cbn; [done|by f_equal]. Qed.
