(* ===== verification/Text.v ===== *)
(** * C++ text functions used by the sources

    The parts of [<cctype>], [<string>] and [<iostream>] that Config.cpp,
    Logger.cpp, Metrics.cpp and Net.cpp call, with the "C" locale the program
    runs in: character classes, [std::stol], [std::to_string],
    [std::getline], [find], [substr].  A position not found ([npos]) is
    [None]. *)

From S2P Require Import Prelude.
From Stdlib Require Export Strings.Ascii.
From Stdlib Require Strings.String.
Export Strings.String(string, String, EmptyString).
From stdpp Require Import strings.
Local Open Scope Z_scope.

(** ** Characters *)

Definition code (c : ascii) : Z := Z.of_nat (nat_of_ascii c).

Definition isspace (c : ascii) : bool :=
  (code c =? 32) || ((9 <=? code c) && (code c <=? 13)).

Definition isdigit (c : ascii) : bool := (48 <=? code c) && (code c <=? 57).

Definition isupper (c : ascii) : bool := (65 <=? code c) && (code c <=? 90).

Definition tolower (c : ascii) : ascii :=
  if isupper c then ascii_of_nat (nat_of_ascii c + 32) else c.

Definition newline : ascii := ascii_of_nat 10.

(** ** Strings *)

Fixpoint string_map (f : ascii → ascii) (s : string) : string :=
  match s with
  | EmptyString => EmptyString
  | String c s' => String (f c) (string_map f s')
  end.

Fixpoint string_forall (p : ascii → bool) (s : string) : bool :=
  match s with
  | EmptyString => true
  | String c s' => p c && string_forall p s'
  end.

(** [find_first_of] / [find]: position of the first character satisfying [p]. *)
Fixpoint find_first (p : ascii → bool) (s : string) : option nat :=
  match s with
  | EmptyString => None
  | String c s' => if p c then Some O else S <$> find_first p s'
  end.

(** [s.substr(pos)]. *)
Fixpoint substr_from (pos : nat) (s : string) : string :=
  match pos, s with
  | O, _ => s
  | S pos', String _ s' => substr_from pos' s'
  | S _, EmptyString => EmptyString
  end.

(** [s.substr(0, n)], also [s.erase(n)]. *)
Fixpoint substr_to (n : nat) (s : string) : string :=
  match n, s with
  | S n', String c s' => String c (substr_to n' s')
  | _, _ => EmptyString
  end.

Definition is_empty (s : string) : bool :=
  match s with EmptyString => true | _ => false end.

Fixpoint back (s : string) : option ascii :=
  match s with
  | EmptyString => None
  | String c EmptyString => Some c
  | String _ s' => back s'
  end.

Definition front (s : string) : option ascii :=
  match s with EmptyString => None | String c _ => Some c end.

(** ** [std::to_string] of an unsigned value *)

Definition digit (d : Z) : ascii := ascii_of_nat (48 + Z.to_nat d).

Fixpoint digits (fuel : nat) (n : Z) (acc : string) : string :=
  match fuel with
  | O => acc
  | S fuel' =>
      let acc' := String (digit (n mod 10)) acc in
      if n / 10 =? 0 then acc' else digits fuel' (n / 10) acc'
  end.

(** Twenty digits cover every 64-bit value. *)
Definition to_string (n : Z) : string := digits 20 n EmptyString.

(** ** [std::stol(value, &consumed, 10)] *)

Definition long_min : Z := - 2 ^ 63.
Definition long_max : Z := 2 ^ 63 - 1.

(** The longest run of digits: value and length, continuing from [acc], [n]. *)
Fixpoint scan_digits (s : string) (acc : Z) (n : nat) : Z * nat :=
  match s with
  | String c s' =>
      if isdigit c then scan_digits s' (acc * 10 + (code c - 48)) (S n) else (acc, n)
  | EmptyString => (acc, n)
  end.

Fixpoint skip_space (s : string) : string :=
  match s with
  | String c s' => if isspace c then skip_space s' else s
  | EmptyString => EmptyString
  end.

(** [None] is [std::invalid_argument] (no digits) or [std::out_of_range]. *)
Definition stol (value : string) : option (Z * nat) :=
  let s := skip_space value in
  let spaces := (String.length value - String.length s)%nat in
  let '(negative, rest, sign) :=
    match s with
    | String c s' =>
        if Ascii.eqb c "-" then (true, s', 1%nat)
        else if Ascii.eqb c "+" then (false, s', 1%nat) else (false, s, 0%nat)
    | EmptyString => (false, s, 0%nat)
    end in
  let '(magnitude, n) := scan_digits rest 0 0 in
  let result := if negative : bool then - magnitude else magnitude in
  if (n =? 0)%nat then None
  else if (long_min <=? result) && (result <=? long_max)
  then Some (result, (spaces + sign + n)%nat)
  else None.

(** ** [std::getline] over a whole stream *)

(** The lines a [while (std::getline(input, line))] loop sees: a final piece
    without newline counts, an empty one does not. *)
Fixpoint getlines_from (s : string) (line : string) : list string :=
  match s with
  | EmptyString => if is_empty line then [] else [line]
  | String c s' =>
      if Ascii.eqb c newline then line :: getlines_from s' EmptyString
      else getlines_from s' (line +:+ String c EmptyString)
  end.

Definition getlines (s : string) : list string := getlines_from s EmptyString.

(** ** Lemmas *)

#[global] Arguments String.append : simpl nomatch.
#[global] Arguments to_string : simpl never.

Lemma code_range c : 0 <= code c < 256.
Proof. unfold code. pose proof (nat_ascii_bounded c). lia. Qed.

Lemma code_of_nat n : (n < 256)%nat → code (ascii_of_nat n) = Z.of_nat n.
Proof. intros. unfold code. by rewrite nat_ascii_embedding. Qed.

Lemma code_inj c d : code c = code d → c = d.
Proof.
  unfold code. intros H%Nat2Z.inj.
  by rewrite <- (ascii_nat_embedding c), H, ascii_nat_embedding.
Qed.

Lemma code_digit d : 0 <= d < 10 → code (digit d) = 48 + d.
Proof. intros. unfold digit. rewrite code_of_nat; lia. Qed.

Lemma isdigit_digit d : 0 <= d < 10 → isdigit (digit d) = true.
Proof. intros. unfold isdigit. rewrite code_digit; lia. Qed.

Lemma isdigit_not_space c : isdigit c = true → isspace c = false.
Proof. unfold isdigit, isspace. lia. Qed.

Lemma code_tolower c :
  code (tolower c) = if isupper c then code c + 32 else code c.
Proof.
  unfold tolower. destruct (isupper c) eqn:Hu; [|done]. unfold isupper in Hu.
  unfold code in *. rewrite nat_ascii_embedding by lia. lia.
Qed.

Lemma tolower_not_upper c : isupper (tolower c) = false.
Proof.
  unfold isupper at 1. rewrite code_tolower.
  destruct (isupper c) eqn:Hu; unfold isupper in Hu; lia.
Qed.

Lemma tolower_idemp c : tolower (tolower c) = tolower c.
Proof. unfold tolower at 1. by rewrite tolower_not_upper. Qed.

Lemma string_map_map f g s :
  string_map f (string_map g s) = string_map (λ c, f (g c)) s.
Proof. induction s; cbn; congruence. Qed.

Lemma string_map_ext f g s : (∀ c, f c = g c) → string_map f s = string_map g s.
Proof. intros H. induction s; cbn; congruence. Qed.

Lemma string_map_length f s : String.length (string_map f s) = String.length s.
Proof. induction s; cbn; congruence. Qed.

Lemma string_app_assoc (s1 s2 s3 : string) :
  s1 +:+ (s2 +:+ s3) = (s1 +:+ s2) +:+ s3.
Proof. induction s1; cbn; congruence. Qed.

Lemma string_app_empty (s : string) : s +:+ EmptyString = s.
Proof. induction s; cbn; congruence. Qed.

Lemma string_length_app (s1 s2 : string) :
  String.length (s1 +:+ s2) = (String.length s1 + String.length s2)%nat.
Proof. induction s1; cbn; congruence. Qed.

Lemma string_forall_app p s1 s2 :
  string_forall p (s1 +:+ s2) = string_forall p s1 && string_forall p s2.
Proof. induction s1 as [|c s1 IH]; cbn; [done|]. by rewrite IH, andb_assoc. Qed.

Lemma string_forall_impl (p q : ascii → bool) s :
  (∀ c, p c = true → q c = true) → string_forall p s = true → string_forall q s = true.
Proof.
  intros Hpq. induction s as [|c s IH]; cbn; [done|].
  rewrite !andb_true_iff. intros [Hc Hs]. auto.
Qed.

(** *** Positions *)

Lemma find_first_app p s c t :
  string_forall (λ c, negb (p c)) s = true → p c = true →
  find_first p (s +:+ String c t) = Some (String.length s).
Proof.
  intros Hs Hc. induction s as [|d s IH]; cbn in *; [by rewrite Hc|].
  apply andb_true_iff in Hs as [Hd Hs]. apply negb_true_iff in Hd.
  rewrite Hd. change (Init.Nat.add) with Nat.add. by rewrite IH.
Qed.

Lemma find_first_none p s :
  find_first p s = None ↔ string_forall (λ c, negb (p c)) s = true.
Proof.
  induction s as [|c s IH]; cbn; [done|].
  destruct (p c); cbn; [done|]. rewrite <- IH.
  by destruct (find_first p s).
Qed.

Lemma substr_to_app s t : substr_to (String.length s) (s +:+ t) = s.
Proof. induction s as [|c s IH]; cbn; [by destruct t|by f_equal]. Qed.

Lemma substr_from_app s t : substr_from (String.length s) (s +:+ t) = t.
Proof. induction s as [|c s IH]; cbn; [by destruct t|done]. Qed.

Lemma substr_to_from n s : (n ≤ String.length s)%nat →
  substr_to n s +:+ substr_from n s = s.
Proof.
  revert s. induction n as [|n IH]; intros [|c s] Hn; cbn in *; [done..|lia|].
  f_equal. apply IH. lia.
Qed.

Lemma back_app s c : back (s +:+ String c EmptyString) = Some c.
Proof.
  induction s as [|d s IH]; cbn; [done|].
  destruct s; [done|]. exact IH.
Qed.

(** *** Decimal text *)

Lemma digits_scan fuel n acc a k :
  0 <= n < 10 ^ Z.of_nat fuel → (0 < fuel)%nat →
  ∃ m, (0 < m)%nat ∧
    String.length (digits fuel n acc) = (m + String.length acc)%nat ∧
    scan_digits (digits fuel n acc) a k
      = scan_digits acc (a * 10 ^ Z.of_nat m + n) (k + m).
Proof.
  revert n acc. induction fuel as [|fuel IH]; intros n acc Hn Hf; [lia|].
  cbn [digits]. pose proof (Z.mod_pos_bound n 10 ltac:(lia)) as Hm.
  pose proof (Z.div_mod n 10 ltac:(lia)) as Hdm.
  destruct (Z.eqb_spec (n / 10) 0) as [H0|H0].
  - exists 1%nat. split; [lia|]. split; [done|]. cbn [scan_digits].
    rewrite isdigit_digit, code_digit by lia.
    f_equal; lia.
  - assert (10 ^ Z.of_nat (S fuel) = 10 * 10 ^ Z.of_nat fuel) as Hp.
    { rewrite Nat2Z.inj_succ, Z.pow_succ_r by lia. done. }
    assert (0 <= n / 10 < 10 ^ Z.of_nat fuel) as Hb.
    { split; [apply Z.div_pos; lia|]. apply Z.div_lt_upper_bound; lia. }
    assert (0 < fuel)%nat as Hf'.
    { destruct fuel; [|lia]. cbn in Hb. lia. }
    destruct (IH _ (String (digit (n mod 10)) acc) Hb Hf') as (m & Hm0 & Hl & Hs).
    exists (S m). split; [lia|]. split; [rewrite Hl; cbn; lia|]. rewrite Hs.
    cbn [scan_digits]. rewrite isdigit_digit, code_digit by lia.
    rewrite Nat2Z.inj_succ, Z.pow_succ_r by lia. f_equal; lia.
Qed.

Lemma digits_all fuel n acc :
  0 <= n → string_forall isdigit acc = true →
  string_forall isdigit (digits fuel n acc) = true.
Proof.
  revert n acc. induction fuel as [|fuel IH]; intros n acc Hn Ha; cbn; [done|].
  pose proof (Z.mod_pos_bound n 10 ltac:(lia)) as Hm.
  assert (string_forall isdigit (String (digit (n mod 10)) acc) = true) as Hd.
  { cbn. by rewrite isdigit_digit. }
  case_match; [done|]. apply IH; [apply Z.div_pos; lia|done].
Qed.

Lemma to_string_digits n : 0 <= n → string_forall isdigit (to_string n) = true.
Proof. intros. by apply digits_all. Qed.

Lemma to_string_scan n : 0 <= n < 2 ^ 64 →
  scan_digits (to_string n) 0 0 = (n, String.length (to_string n)).
Proof.
  intros Hn. unfold to_string.
  destruct (digits_scan 20 n EmptyString 0 0) as (m & _ & Hl & Hs); [lia..|].
  rewrite Hs, Hl. cbn. f_equal. lia.
Qed.

Lemma to_string_cons n : 0 <= n < 2 ^ 64 →
  ∃ c s, to_string n = String c s ∧ isdigit c = true.
Proof.
  intros Hn. pose proof (to_string_digits n ltac:(lia)) as Hd.
  destruct (digits_scan 20 n EmptyString 0 0) as (m & Hm & Hl & _); [lia..|].
  unfold to_string in *. destruct (digits 20 n EmptyString); cbn in *; [lia|].
  apply andb_true_iff in Hd as [Hc _]. eauto.
Qed.

Lemma to_string_inj n m :
  0 <= n < 2 ^ 64 → 0 <= m < 2 ^ 64 → to_string n = to_string m → n = m.
Proof.
  intros Hn Hm He. pose proof (to_string_scan n Hn) as H1.
  rewrite He, (to_string_scan m Hm) in H1. congruence.
Qed.

Lemma scan_digits_bound s a k : 0 <= a → a <= (scan_digits s a k).1.
Proof.
  revert a k. induction s as [|c s IH]; intros a k Ha; cbn; [lia|].
  destruct (isdigit c) eqn:Hc; cbn; [|lia]. unfold isdigit in Hc.
  specialize (IH (a * 10 + (code c - 48)) (S k) ltac:(lia)). lia.
Qed.

Lemma scan_digits_all s a k :
  (scan_digits s a k).2 = (k + String.length s)%nat → string_forall isdigit s = true.
Proof.
  revert a k. induction s as [|c s IH]; intros a k H; cbn in *; [done|].
  destruct (isdigit c); cbn in *; [|lia]. eapply IH. rewrite H. lia.
Qed.

Lemma stol_to_string n :
  0 <= n <= long_max → stol (to_string n) = Some (n, String.length (to_string n)).
Proof.
  unfold long_max. intros Hn.
  destruct (to_string_cons n) as (c & s & He & Hc); [lia|].
  pose proof (to_string_scan n ltac:(lia)) as Hs. rewrite He in *.
  unfold stol. cbn [skip_space]. rewrite isdigit_not_space by done.
  assert (Ascii.eqb c "-" = false ∧ Ascii.eqb c "+" = false) as [-> ->].
  { split; apply Ascii.eqb_neq; intros ->; discriminate Hc. }
  rewrite Nat.sub_diag, Hs. unfold long_min, long_max. cbn [Nat.eqb String.length].
  assert (((- 2 ^ 63 <=? n) && (n <=? 2 ^ 63 - 1)) = true) as -> by lia.
  done.
Qed.
