(* ===== verification/Posix.v ===== *)
(** * The operating-system interface

    System calls are not code of the repository: they enter the development
    as the class [Kernel], one operation per call the program makes, each an
    arbitrary function of the calls made so far (the [trace]).  Quantifying
    over [Kernel] is quantifying over every behaviour of peers, network and
    scheduler; [KernelLaws] collects the documented guarantees a theorem may
    rely on.  The trace doubles as the observable behaviour: what the program
    received, sent, closed is read off it. *)

From Stdlib Require Export Strings.Byte.
From S2P Require Import Prelude.
Local Open Scope Z_scope.

(** ** Constants of the Linux ABI used by the sources *)

Definition EINTR : Z := 4.
Definition EAGAIN : Z := 11.
Definition EWOULDBLOCK : Z := 11.
Definition EPIPE : Z := 32.
Definition ECONNRESET : Z := 104.
Definition EINPROGRESS : Z := 115.

Definition EPOLLIN : Z := 0x1.
Definition EPOLLOUT : Z := 0x4.
Definition EPOLLERR : Z := 0x8.
Definition EPOLLHUP : Z := 0x10.
Definition EPOLLRDHUP : Z := 0x2000.

Definition POLLIN : Z := 0x1.
Definition POLLOUT : Z := 0x4.

Definition AF_INET : Z := 2.
Definition AF_INET6 : Z := 10.
Definition SOL_SOCKET : Z := 1.
Definition SO_REUSEADDR : Z := 2.
Definition IPPROTO_TCP : Z := 6.
Definition TCP_NODELAY : Z := 1.
Definition F_GETFD : Z := 1.
Definition F_SETFD : Z := 2.
Definition F_GETFL : Z := 3.
Definition F_SETFL : Z := 4.
Definition O_NONBLOCK : Z := 0x800.
Definition FD_CLOEXEC : Z := 1.

(** [(events & mask) != 0]. *)
Definition has (events mask : Z) : bool := negb (Z.land events mask =? 0).

Lemma has_lor events a b : has events (Z.lor a b) = has events a || has events b.
Proof.
  unfold has. rewrite Z.land_lor_distr_r, <- negb_andb. f_equal.
  apply eq_true_iff_eq. by rewrite andb_true_iff, !Z.eqb_eq, Z.lor_eq_0_iff.
Qed.

(** ** Results and calls *)

(** A return value, or a failure with its [errno]. *)
Inductive sysret (A : Type) : Type :=
| Ret (a : A)
| Fail (errno : Z).
Arguments Ret {A} a.
Arguments Fail {A} errno.

(** The part of [sockaddr_storage] the sources look at; [sin_port] in network
    byte order. *)
Record sockaddr := mkSockaddr {
  ss_family : Z;
  sin_port : Z;
  sin_addr : list byte
}.

Inductive epoll_op := EPOLL_CTL_ADD | EPOLL_CTL_MOD | EPOLL_CTL_DEL.

(** One system call with its answer. *)
Inductive event :=
| EvNow (t : Z)
| EvRecv (fd len : Z) (r : sysret (list byte))
| EvSend (fd : Z) (data : list byte) (r : sysret Z)
| EvSoError (fd : Z) (r : sysret Z)
| EvShutdownWr (fd : Z)
| EvClose (fd : Z)
| EvSocket (family : Z) (r : sysret Z)
| EvConnect (fd : Z) (address : sockaddr) (r : sysret unit)
| EvFcntl (fd cmd arg : Z) (r : sysret Z)
| EvSetsockopt (fd level name : Z) (r : sysret unit)
| EvBind (fd : Z) (address : sockaddr) (r : sysret unit)
| EvListen (fd backlog : Z) (r : sysret unit)
| EvPoll (fd events timeout : Z) (r : sysret (Z * Z))
| EvGetaddrinfo (host service : string) (r : sysret (list (Z * sockaddr)))
| EvAccept (fd : Z) (r : sysret (Z * sockaddr))
| EvEpollCreate (r : sysret Z)
| EvEventfd (r : sysret Z)
| EvEpollCtl (op : epoll_op) (fd events : Z) (r : sysret unit)
| EvEpollWait (maxevents : Z) (r : sysret (list (Z * Z)))
| EvWakeRead (fd : Z) (r : sysret Z)
| EvWakeWrite (fd : Z) (r : sysret unit)
| EvWaitFor (ms : Z).

(** The calls made so far, most recent first. *)
Definition trace : Type := list event.

Class Kernel := {
  k_now : trace → Z;
  k_recv : trace → Z → Z → sysret (list byte);
  k_send : trace → Z → list byte → sysret Z;
  k_so_error : trace → Z → sysret Z;
  k_socket : trace → Z → sysret Z;
  k_connect : trace → Z → sockaddr → sysret unit;
  k_fcntl : trace → Z → Z → Z → sysret Z;
  k_setsockopt : trace → Z → Z → Z → sysret unit;
  k_bind : trace → Z → sockaddr → sysret unit;
  k_listen : trace → Z → Z → sysret unit;
  k_poll : trace → Z → Z → Z → sysret (Z * Z);
  k_getaddrinfo : trace → string → string → sysret (list (Z * sockaddr));
  k_accept : trace → Z → sysret (Z * sockaddr);
  k_epoll_create : trace → sysret Z;
  k_eventfd : trace → sysret Z;
  k_epoll_ctl : trace → epoll_op → Z → Z → sysret unit;
  k_epoll_wait : trace → Z → sysret (list (Z * Z));
  k_wake_read : trace → Z → sysret Z;
  k_wake_write : trace → Z → sysret unit;
  k_thread : trace → sysret unit;
  (* libc text functions *)
  k_strerror : Z → string;
  k_gai_strerror : Z → string;
  k_inet_ntop : Z → list byte → string
}.

(** ** Calls in the state monad

    [sys_wait_for] is [std::condition_variable::wait_for] with a predicate:
    it lasts [ms] milliseconds unless the predicate comes to hold. *)

Section syscalls.
Context `{K : Kernel} {S : Type} `{Lens S trace}.

Definition syscall {R} (ask : trace → R) (log : R → event) : ST S R := λ s,
  let r := ask (view s) in (Val r, upd (log r :: view s) s).

Definition sys_now : ST S Z := syscall k_now EvNow.
Definition sys_recv fd len := syscall (λ tr, k_recv tr fd len) (EvRecv fd len).
Definition sys_send fd data := syscall (λ tr, k_send tr fd data) (EvSend fd data).
Definition sys_so_error fd := syscall (λ tr, k_so_error tr fd) (EvSoError fd).
Definition sys_shutdown_wr fd : ST S unit :=
  syscall (λ _, tt) (λ _, EvShutdownWr fd).
Definition sys_close fd : ST S unit := syscall (λ _, tt) (λ _, EvClose fd).
Definition sys_socket fam := syscall (λ tr, k_socket tr fam) (EvSocket fam).
Definition sys_connect fd a := syscall (λ tr, k_connect tr fd a) (EvConnect fd a).
Definition sys_fcntl fd cmd arg :=
  syscall (λ tr, k_fcntl tr fd cmd arg) (EvFcntl fd cmd arg).
Definition sys_setsockopt fd level name :=
  syscall (λ tr, k_setsockopt tr fd level name) (EvSetsockopt fd level name).
Definition sys_bind fd a := syscall (λ tr, k_bind tr fd a) (EvBind fd a).
Definition sys_listen fd n := syscall (λ tr, k_listen tr fd n) (EvListen fd n).
Definition sys_poll fd events timeout :=
  syscall (λ tr, k_poll tr fd events timeout) (EvPoll fd events timeout).
Definition sys_getaddrinfo host service :=
  syscall (λ tr, k_getaddrinfo tr host service) (EvGetaddrinfo host service).
Definition sys_accept fd := syscall (λ tr, k_accept tr fd) (EvAccept fd).
Definition sys_epoll_create := syscall k_epoll_create EvEpollCreate.
Definition sys_eventfd := syscall k_eventfd EvEventfd.
Definition sys_epoll_ctl op fd events :=
  syscall (λ tr, k_epoll_ctl tr op fd events) (EvEpollCtl op fd events).
Definition sys_epoll_wait n := syscall (λ tr, k_epoll_wait tr n) (EvEpollWait n).
Definition sys_wake_read fd := syscall (λ tr, k_wake_read tr fd) (EvWakeRead fd).
Definition sys_wake_write fd := syscall (λ tr, k_wake_write tr fd) (EvWakeWrite fd).
Definition sys_wait_for ms : ST S unit := syscall (λ _, tt) (λ _, EvWaitFor ms).

(** The constructor of [std::thread] that starts one: [std::system_error]
    when there can be no more. *)
Definition std_thread : ST S unit :=
  tr ← gets view;
  match k_thread tr with
  | Ret _ => mret tt
  | Fail e => throw (k_strerror e)
  end.

Lemma wp_syscall {R} (ask : trace → R) log (Q : outcome R → S → Prop) s :
  Q (Val (ask (view s))) (upd (log (ask (view s)) :: view s) s) →
  wp (syscall ask log) Q s.
Proof. done. Qed.

Lemma lifts_syscall `{!LensLaws S trace} {R} (ask : trace → R) log :
  lifts (syscall ask log) (λ tr, (Val (ask tr), log (ask tr) :: tr)).
Proof using All. done. Qed.
End syscalls.

(** Lifting of code made of calls. *)
Ltac lift_calls :=
  repeat first
    [ apply lifts_bind; [|intros ?]
    | apply lifts_try_catch; [|intros ?]
    | apply lifts_ret | apply lifts_throw | apply lifts_diverge
    | apply lifts_syscall
    | case_match ].

(** ** Reading the trace *)

(** Bytes received on [fd], in order. *)
Fixpoint received (fd : Z) (tr : trace) : list byte :=
  match tr with
  | [] => []
  | EvRecv fd' _ (Ret bs) :: tr' =>
      received fd tr' ++ (if fd =? fd' then bs else [])
  | _ :: tr' => received fd tr'
  end.

(** Bytes the kernel accepted for sending on [fd], in order. *)
Fixpoint delivered (fd : Z) (tr : trace) : list byte :=
  match tr with
  | [] => []
  | EvSend fd' data (Ret n) :: tr' =>
      delivered fd tr' ++ (if fd =? fd' then take (Z.to_nat n) data else [])
  | _ :: tr' => delivered fd tr'
  end.

(** The descriptor a call created. *)
Definition opens (e : event) : option Z :=
  match e with
  | EvSocket _ (Ret fd) | EvAccept _ (Ret (fd, _))
  | EvEpollCreate (Ret fd) | EvEventfd (Ret fd) => Some fd
  | _ => None
  end.

(** Descriptors created and not closed since. *)
Fixpoint open_fds (tr : trace) : gset Z :=
  match tr with
  | [] => ∅
  | EvClose fd :: tr' => open_fds tr' ∖ {[fd]}
  | e :: tr' =>
      match opens e with
      | Some fd => {[fd]} ∪ open_fds tr'
      | None => open_fds tr'
      end
  end.

(** Every [close] in the trace was of a descriptor open at that moment: no
    double close, no close of somebody else's descriptor. *)
Fixpoint closes_ok (tr : trace) : Prop :=
  match tr with
  | [] => True
  | EvClose fd :: tr' => fd ∈ open_fds tr' ∧ closes_ok tr'
  | _ :: tr' => closes_ok tr'
  end.

(** [L] lists the open descriptors, each once, and every close so far was of
    an open one: the books of whoever owns them. *)
Definition ledger (L : list Z) (tr : trace) : Prop :=
  NoDup L ∧ open_fds tr = list_to_set L ∧ closes_ok tr.

#[export] Instance ledger_proper : Proper ((≡ₚ) ==> eq ==> iff) ledger.
Proof.
  assert (∀ L L' tr, L ≡ₚ L' → ledger L tr → ledger L' tr) as H.
  { intros L L' tr HL (Hn & Ho & Hc). split; [by rewrite <- HL|]. split; [|done].
    rewrite Ho. apply set_eq. intros x. by rewrite !elem_of_list_to_set, HL. }
  intros L L' HL tr ? <-. split; by apply H.
Qed.

Lemma ledger_close fd L tr : ledger (fd :: L) tr → ledger L (EvClose fd :: tr).
Proof.
  intros (Hn & Ho & Hc). apply NoDup_cons in Hn as [Hfd Hn].
  split; [done|]. cbn. rewrite Ho. split; [set_solver|]. split; [set_solver|done].
Qed.

Lemma ledger_opened fd L tr tr' :
  ledger L tr → fd ∉ open_fds tr → open_fds tr' = {[fd]} ∪ open_fds tr → closes_ok tr' →
  ledger (fd :: L) tr'.
Proof.
  intros (Hn & Ho & Hc) Hfd Ho' Hc'. split; [|split; [by rewrite Ho', Ho|done]].
  apply NoDup_cons. split; [|done]. rewrite Ho in Hfd. set_solver.
Qed.

Lemma ledger_same L tr tr' :
  ledger L tr → open_fds tr' = open_fds tr → closes_ok tr' → ledger L tr'.
Proof. intros (Hn & Ho & Hc) Ho' Hc'. split; [done|]. by rewrite Ho', Ho. Qed.

Lemma ledger_not_open fd L tr : ledger L tr → fd ∉ L → fd ∉ open_fds tr.
Proof. intros (_ & -> & _). set_solver. Qed.

(** ** Documented guarantees *)

Class KernelLaws (K : Kernel) : Prop := {
  (* recv(2): at most [len] bytes *)
  recv_at_most : ∀ tr fd len bs,
    k_recv tr fd len = Ret bs → Z.of_nat (length bs) <= Z.max 0 len;
  (* send(2): the number of bytes sent *)
  send_at_most : ∀ tr fd data n,
    k_send tr fd data = Ret n → 0 <= n <= Z.of_nat (length data);
  (* descriptor allocation returns one that is not open *)
  socket_fresh : ∀ tr fam fd,
    k_socket tr fam = Ret fd → 0 <= fd ∧ fd ∉ open_fds tr;
  accept_fresh : ∀ tr lfd fd a,
    k_accept tr lfd = Ret (fd, a) → 0 <= fd ∧ fd ∉ open_fds tr;
  epoll_create_fresh : ∀ tr fd,
    k_epoll_create tr = Ret fd → 0 <= fd ∧ fd ∉ open_fds tr;
  eventfd_fresh : ∀ tr fd,
    k_eventfd tr = Ret fd → 0 <= fd ∧ fd ∉ open_fds tr;
  (* CLOCK_MONOTONIC never goes back *)
  now_monotone : ∀ tr t, EvNow t ∈ tr → t <= k_now tr
}.

(** A call interrupted by a signal. *)
Definition interrupted (e : event) : bool :=
  match e with
  | EvRecv _ _ (Fail e) | EvSend _ _ (Fail e) | EvPoll _ _ _ (Fail e)
  | EvAccept _ (Fail e) | EvEpollWait _ (Fail e) => e =? EINTR
  | _ => false
  end.

(** How many of the most recent calls in a row were interrupted. *)
Fixpoint interrupted_run (tr : trace) : nat :=
  match tr with
  | e :: tr' => if interrupted e then Datatypes.S (interrupted_run tr') else O
  | [] => O
  end.

(** Signals do not interrupt more than [n] calls in a row. *)
Class FewInterrupts (K : Kernel) (n : nat) : Prop := {
  recv_few : ∀ tr fd len, (n ≤ interrupted_run tr)%nat → k_recv tr fd len ≠ Fail EINTR;
  send_few : ∀ tr fd data, (n ≤ interrupted_run tr)%nat → k_send tr fd data ≠ Fail EINTR;
  poll_few : ∀ tr fd ev t, (n ≤ interrupted_run tr)%nat → k_poll tr fd ev t ≠ Fail EINTR
}.

Lemma few_interrupts_le K n m : (n ≤ m)%nat → FewInterrupts K n → FewInterrupts K m.
Proof.
  intros Hle []. split; [intros tr fd len|intros tr fd data|intros tr fd ev t]; intros Hm;
    [apply recv_few0|apply send_few0|apply poll_few0]; lia.
Qed.

(** eventfd(2): a read takes the whole counter, so that reads do not succeed
    more than [n] times in a row; a non-blocking write of one fails only when
    the counter is full. *)
Fixpoint wake_run (tr : trace) : nat :=
  match tr with
  | EvWakeRead _ (Ret _) :: tr' => Datatypes.S (wake_run tr')
  | _ => O
  end.

Class WakeLaws (K : Kernel) (n : nat) : Prop := {
  wake_read_drains : ∀ tr fd v, (n ≤ wake_run tr)%nat → k_wake_read tr fd ≠ Ret v;
  wake_write_full : ∀ tr fd e, k_wake_write tr fd = Fail e → e = EAGAIN
}.

(** ** A scripted kernel *)

(** What a concrete environment answers; [scripted] turns any script into a
    kernel that satisfies the laws by clamping lengths, allocating fresh
    descriptors and never setting the clock back. *)
Record script := mkScript {
  sc_now : trace → Z;
  sc_recv : trace → Z → sysret (list byte);
  sc_send : trace → Z → sysret Z;
  sc_so_error : trace → Z → sysret Z;
  sc_socket_errno : trace → option Z;
  sc_connect : trace → sysret unit;
  sc_epoll_ctl : trace → epoll_op → Z → sysret unit;
  sc_epoll_wait : trace → sysret (list (Z * Z));
  sc_wake_write : trace → sysret unit;
  sc_poll : trace → sysret (Z * Z);
  sc_addresses : string → sysret (list (Z * sockaddr));
  sc_accept : trace → sysret sockaddr
}.

Definition fresh_fd (tr : trace) : Z := set_fold Z.max 2 (open_fds tr) + 1.

Definition latest (tr : trace) : Z :=
  foldr (λ e t, match e with EvNow t' => Z.max t' t | _ => t end) 0 tr.

Definition scripted (sc : script) : Kernel := {|
  k_now tr := Z.max (latest tr) (sc_now sc tr);
  k_recv tr fd len :=
    match sc_recv sc tr fd with
    | Ret bs => Ret (take (Z.to_nat len) bs)
    | Fail e => Fail e
    end;
  k_send tr fd data :=
    match sc_send sc tr fd with
    | Ret n => Ret (Z.max 0 (Z.min n (Z.of_nat (length data))))
    | Fail e => Fail e
    end;
  k_so_error := sc_so_error sc;
  k_socket tr fam :=
    match sc_socket_errno sc tr with
    | Some e => Fail e
    | None => Ret (fresh_fd tr)
    end;
  k_connect tr fd a := sc_connect sc tr;
  k_fcntl tr fd cmd arg := Ret 0;
  k_setsockopt tr fd level name := Ret tt;
  k_bind tr fd a := Ret tt;
  k_listen tr fd n := Ret tt;
  k_poll tr fd events timeout := sc_poll sc tr;
  k_getaddrinfo tr host service := sc_addresses sc host;
  k_accept tr lfd :=
    match sc_accept sc tr with
    | Ret a => Ret (fresh_fd tr, a)
    | Fail e => Fail e
    end;
  k_epoll_create tr := Ret (fresh_fd tr);
  k_eventfd tr := Ret (fresh_fd tr);
  k_epoll_ctl tr op fd events := sc_epoll_ctl sc tr op fd;
  k_epoll_wait tr n := sc_epoll_wait sc tr;
  k_wake_read tr fd := Fail EAGAIN;
  k_wake_write tr fd := sc_wake_write sc tr;
  k_thread tr := Ret tt;
  k_strerror e := "errno";
  k_gai_strerror e := "gai";
  k_inet_ntop fam a := "127.0.0.1"
|}.

(** A quiet environment: nothing to read, everything sent, calls succeed. *)
Definition quiet : script := {|
  sc_now tr := 0;
  sc_recv tr fd := Fail EAGAIN;
  sc_send tr fd := Ret (2 ^ 40);
  sc_so_error tr fd := Ret 0;
  sc_socket_errno tr := None;
  sc_connect tr := Fail EINPROGRESS;
  sc_epoll_ctl tr op fd := Ret tt;
  sc_epoll_wait tr := Ret [];
  sc_wake_write tr := Ret tt;
  sc_poll tr := Ret (1, POLLOUT);
  sc_addresses host := Ret [(16, mkSockaddr AF_INET 0 [x7f; x00; x00; x01])];
  sc_accept tr := Fail EAGAIN
|}.

(** [quiet] except that the [k]-th [recv], [send] and [SO_ERROR] of the run
    get the [k]-th of the given answers. *)
Definition occurrences (f : event → bool) (tr : trace) : nat := length (List.filter f tr).

Definition is_recv (e : event) : bool := match e with EvRecv _ _ _ => true | _ => false end.
Definition is_send (e : event) : bool := match e with EvSend _ _ _ => true | _ => false end.
Definition is_so_error (e : event) : bool := match e with EvSoError _ _ => true | _ => false end.

Definition replay (recvs : list (sysret (list byte))) (sends : list (sysret Z))
    (errors : list (sysret Z)) : script :=
  mkScript (sc_now quiet)
    (λ tr fd, nth (occurrences is_recv tr) recvs (Fail EAGAIN))
    (λ tr fd, nth (occurrences is_send tr) sends (Ret (2 ^ 40)))
    (λ tr fd, nth (occurrences is_so_error tr) errors (Ret 0))
    (sc_socket_errno quiet) (sc_connect quiet) (sc_epoll_ctl quiet) (sc_epoll_wait quiet)
    (sc_wake_write quiet) (sc_poll quiet) (sc_addresses quiet) (sc_accept quiet).

Lemma fresh_fd_spec tr : 0 <= fresh_fd tr ∧ fresh_fd tr ∉ open_fds tr.
Proof.
  unfold fresh_fd.
  assert (∀ X : gset Z, 2 <= set_fold Z.max 2 X ∧
    ∀ x, x ∈ X → x <= set_fold Z.max 2 X) as Hmax.
  { apply (set_fold_ind_L (λ r X, 2 <= r ∧ ∀ x, x ∈ X → x <= r)).
    - split; [lia|set_solver].
    - intros x X r Hx [H2 HX]. split; [lia|]. intros y [->%elem_of_singleton|Hy]%elem_of_union.
      + lia.
      + specialize (HX _ Hy). lia. }
  destruct (Hmax (open_fds tr)) as [H2 HX]. split; [lia|].
  intros Hin%HX. lia.
Qed.

Lemma latest_spec tr t : EvNow t ∈ tr → t <= latest tr.
Proof.
  induction tr as [|e tr IH]; [set_solver|].
  intros [<-|Hin]%elem_of_cons; cbn; [lia|].
  specialize (IH Hin). destruct e; unfold latest in *; lia.
Qed.

#[export] Instance scripted_laws sc : KernelLaws (scripted sc).
Proof.
  split; cbn.
  - intros tr fd len bs H. destruct (sc_recv sc tr fd); simplify_eq.
    rewrite length_take. lia.
  - intros tr fd data n H. destruct (sc_send sc tr fd); simplify_eq. lia.
  - intros tr fam fd H. destruct (sc_socket_errno sc tr); simplify_eq.
    apply fresh_fd_spec.
  - intros tr lfd fd a H. destruct (sc_accept sc tr); simplify_eq.
    apply fresh_fd_spec.
  - intros tr fd H. simplify_eq. apply fresh_fd_spec.
  - intros tr fd H. simplify_eq. apply fresh_fd_spec.
  - intros tr t Ht%latest_spec. lia.
Qed.

(** ** Traces grow *)

Lemma received_app fd t1 t2 :
  received fd (t1 ++ t2) = received fd t2 ++ received fd t1.
Proof.
  induction t1 as [|e t1 IH]; cbn; [by rewrite app_nil_r|].
  destruct e as [| ? ? []| | | | | | | | | | | | | | | | | | | |]; try done.
  by rewrite IH, app_assoc.
Qed.

Lemma delivered_app fd t1 t2 :
  delivered fd (t1 ++ t2) = delivered fd t2 ++ delivered fd t1.
Proof.
  induction t1 as [|e t1 IH]; cbn; [by rewrite app_nil_r|].
  destruct e as [| |? ? []| | | | | | | | | | | | | | | | | | |]; try done.
  by rewrite IH, app_assoc.
Qed.

#[export] Instance quiet_few : FewInterrupts (scripted quiet) 0.
Proof. by split. Qed.

#[export] Instance quiet_wake : WakeLaws (scripted quiet) 0.
Proof. by split. Qed.
