(* ===== verification/Streams.v ===== *)
(** * What passed through a descriptor

    A descriptor number is used again once it is closed, so that what was
    received and sent on it counts from the call that last created it.  The
    file defines those two streams, what it means that every byte the process
    sent came from elsewhere ([honest]), and the books of the process's
    descriptors ([estate]): who holds each, and what has passed through it. *)

From S2P Require Import Prelude Posix.
Local Open Scope Z_scope.

Module Streams.

(** ** Since it was created *)

(** The calls since the last one that created [fd]. *)
Fixpoint life (fd : Z) (tr : trace) : trace :=
  match tr with
  | [] => []
  | e :: tr' => if decide (opens e = Some fd) then [] else e :: life fd tr'
  end.

Definition got (fd : Z) (tr : trace) : list byte := received fd (life fd tr).
Definition sent (fd : Z) (tr : trace) : list byte := delivered fd (life fd tr).

(** Whenever bytes went out on a descriptor, there was another one open, its
    peer: all that had gone out on either of the two came, in order and from
    the first byte on, from the other one. *)
Fixpoint honest (tr : trace) : Prop :=
  match tr with
  | [] => True
  | e :: tr' =>
      honest tr' ∧
      match e with
      | EvSend fd _ (Ret _) => ∃ peer, peer ≠ fd ∧ peer ∈ open_fds tr' ∧
          sent fd tr `prefix_of` got peer tr ∧ sent peer tr `prefix_of` got fd tr
      | _ => True
      end
  end.

Lemma honest_before post tr : honest (post ++ tr) → honest tr.
Proof. induction post as [|e post IH]; [done|]. intros [H _]. by apply IH. Qed.

(** All but [recv] and [send]. *)
Definition mute (e : event) : bool :=
  match e with EvRecv _ _ _ | EvSend _ _ _ => false | _ => true end.

Lemma streams_opened e fd tr : opens e = Some fd → got fd (e :: tr) = [] ∧ sent fd (e :: tr) = [].
Proof. intros He. unfold got, sent. cbn. by rewrite decide_True. Qed.

Lemma streams_mute e fd tr : mute e = true → opens e ≠ Some fd →
  got fd (e :: tr) = got fd tr ∧ sent fd (e :: tr) = sent fd tr.
Proof. intros Hm He. unfold got, sent. cbn. rewrite decide_False by done. by destruct e. Qed.

Lemma honest_mute e tr : mute e = true → honest (e :: tr) ↔ honest tr.
Proof. intros Hm. cbn. destruct e; try done; tauto. Qed.

Lemma streams_app fd new tr : Forall (λ e, opens e = None) new →
  got fd (new ++ tr) = got fd tr ++ received fd new ∧
  sent fd (new ++ tr) = sent fd tr ++ delivered fd new.
Proof.
  intros Hn. assert (life fd (new ++ tr) = new ++ life fd tr) as Hl.
  { induction Hn as [|e new He _ IH]; cbn; [done|]. rewrite decide_False by congruence. by rewrite IH. }
  unfold got, sent. by rewrite Hl, received_app, delivered_app.
Qed.

(** ** Calls that disturb nothing *)

(** Nothing has passed through [F]. *)
Definition unheard (F : gset Z) (tr tr' : trace) : Prop :=
  (∀ fd, fd ∈ F → got fd tr' = got fd tr ∧ sent fd tr' = sent fd tr) ∧
  (honest tr → honest tr').

#[global] Instance unheard_preorder F : PreOrder (unheard F).
Proof.
  split; [by split|]. intros t1 t2 t3 [H1 Hh1] [H2 Hh2]. split; [|auto].
  intros fd Hfd. destruct (H1 fd Hfd) as [<- <-]. by apply H2.
Qed.

Lemma unheard_event F e tr :
  mute e = true → (∀ fd, fd ∈ F → opens e ≠ Some fd) → unheard F tr (e :: tr).
Proof.
  intros Hm He. split; [|by apply honest_mute]. intros fd Hfd. apply streams_mute; auto.
Qed.

(** The same descriptors are open, and nothing has passed through them. *)
Record hushed (tr tr' : trace) : Prop := {
  hushed_open : open_fds tr' = open_fds tr;
  hushed_closes : closes_ok tr → closes_ok tr';
  hushed_streams fd : fd ∈ open_fds tr → got fd tr' = got fd tr ∧ sent fd tr' = sent fd tr;
  hushed_honest : honest tr → honest tr'
}.

#[global] Instance hushed_preorder : PreOrder hushed.
Proof.
  split; [by intros tr; split|]. intros t1 t2 t3 [Ho Hc Hs Hh] [Ho' Hc' Hs' Hh'].
  split; [congruence|auto| |auto]. intros fd Hfd. destruct (Hs fd Hfd) as [<- <-].
  apply Hs'. by rewrite Ho.
Qed.

Lemma hushed_event e tr :
  mute e = true → opens e = None → (∀ fd, e ≠ EvClose fd) → hushed tr (e :: tr).
Proof.
  intros Hm He Hc. split.
  - destruct e; cbn in *; try rewrite He; naive_solver.
  - destruct e; cbn in *; naive_solver.
  - intros fd _. apply streams_mute; [done|by rewrite He].
  - by apply honest_mute.
Qed.

Lemma hushed_unheard tr tr' :
  unheard (open_fds tr) tr tr' → open_fds tr' = open_fds tr → (closes_ok tr → closes_ok tr') →
  hushed tr tr'.
Proof. intros [Hs Hh] Ho Hc. by split. Qed.

(** One more descriptor is open, through which nothing has passed. *)
Record created (fd : Z) (tr tr' : trace) : Prop := {
  created_fresh : fd ∉ open_fds tr;
  created_open : open_fds tr' = {[fd]} ∪ open_fds tr;
  created_closes : closes_ok tr → closes_ok tr';
  created_streams fd' : fd' ∈ open_fds tr → got fd' tr' = got fd' tr ∧ sent fd' tr' = sent fd' tr;
  created_empty : got fd tr' = [] ∧ sent fd tr' = [];
  created_honest : honest tr → honest tr'
}.

Lemma created_event e fd tr : opens e = Some fd → fd ∉ open_fds tr → created fd tr (e :: tr).
Proof.
  intros He Hf. assert (mute e = true) as Hm by by destruct e. split.
  - done.
  - cbn. destruct e; try done; by rewrite He.
  - cbn. by destruct e.
  - intros fd' Hfd'. apply streams_mute; [done|]. rewrite He. by intros [= <-].
  - by apply streams_opened.
  - by apply honest_mute.
Qed.

Lemma created_hushed fd t1 t2 t3 : created fd t1 t2 → hushed t2 t3 → created fd t1 t3.
Proof.
  intros [Hf Ho Hc Hs He Hh] [Ho' Hc' Hs' Hh']. split; [done|congruence|auto| | |auto].
  - intros fd' Hfd'. destruct (Hs fd' Hfd') as [<- <-]. apply Hs'. set_solver.
  - destruct He as [H1 H2], (Hs' fd) as [-> ->]; [set_solver|done].
Qed.

Lemma hushed_created fd t1 t2 t3 : hushed t1 t2 → created fd t2 t3 → created fd t1 t3.
Proof.
  intros [Ho Hc Hs Hh] [Hf' Ho' Hc' Hs' He' Hh']. rewrite Ho in *. split; [done|congruence|auto| |done|auto].
  intros fd' Hfd'. destruct (Hs fd' Hfd') as [<- <-]. by apply Hs'.
Qed.

(** Opened and closed again. *)
Lemma created_closed fd t1 t2 : created fd t1 t2 → hushed t1 (EvClose fd :: t2).
Proof.
  intros [Hf Ho Hc Hs He Hh]. split.
  - cbn. rewrite Ho. set_solver.
  - intros H. cbn. split; [set_solver|auto].
  - intros fd' Hfd'. destruct (Hs fd' Hfd') as [<- <-]. by apply streams_mute.
  - intros H. apply honest_mute; auto.
Qed.

(** ** Who holds what *)

(** A descriptor somebody holds; one nothing has passed through; the two ends
    of a session with the bytes between them: those on their way from the
    first to the second, and back. *)
Inductive claim := Held (fd : Z) | Unused (fd : Z) | Pipe (a b : Z) (there back : list byte).

Definition fds_in (c : claim) : list Z :=
  match c with Held fd | Unused fd => [fd] | Pipe a b _ _ => [a; b] end.

Definition stands (tr : trace) (c : claim) : Prop :=
  match c with
  | Held _ => True
  | Unused fd => got fd tr = [] ∧ sent fd tr = []
  | Pipe a b there back =>
      got a tr = sent b tr ++ there ∧ got b tr = sent a tr ++ back
  end.

Record estate (L : list claim) (tr : trace) : Prop := {
  estate_fds : ledger (L ≫= fds_in) tr;
  estate_stands : Forall (stands tr) L;
  estate_honest : honest tr
}.

#[global] Instance estate_proper : Proper ((≡ₚ) ==> eq ==> iff) estate.
Proof.
  assert (∀ L L' tr, L ≡ₚ L' → estate L tr → estate L' tr) as H.
  { intros L L' tr HL [Hf Hs Hh]. split; [by rewrite <- HL|by rewrite <- HL|done]. }
  intros L L' HL tr ? <-. split; by apply H.
Qed.

(** Before the first call. *)
Lemma estate_nil : estate [] [].
Proof. split; [split; [constructor|by split]|constructor|done]. Qed.

Lemma stands_same c tr tr' :
  (∀ fd, fd ∈ fds_in c → got fd tr' = got fd tr ∧ sent fd tr' = sent fd tr) →
  stands tr c → stands tr' c.
Proof.
  intros Hs. destruct c as [fd|fd|a b there back]; cbn in *; [done|..].
  - destruct (Hs fd) as [H1 H2]; [set_solver|]. by rewrite H1, H2.
  - destruct (Hs a) as [H1 H2]; [set_solver|]. destruct (Hs b) as [H3 H4]; [set_solver|].
    by rewrite H1, H2, H3, H4.
Qed.

Lemma estate_open L tr c fd : estate L tr → c ∈ L → fd ∈ fds_in c → fd ∈ open_fds tr.
Proof.
  intros [(_ & -> & _) _ _] Hc Hfd. apply elem_of_list_to_set, list_elem_of_bind. eauto.
Qed.

Lemma estate_hushed L tr tr' : hushed tr tr' → estate L tr → estate L tr'.
Proof.
  intros [Ho Hc Hs Hh] HL. pose proof HL as [Hf Hst Hhon]. split; [|clear Hf|auto].
  - destruct Hf as (Hn & Hop & Hcl). split; [done|]. rewrite Ho. auto.
  - apply Forall_forall. intros c Hin. rewrite Forall_forall in Hst.
    eapply stands_same; [|by apply Hst]. intros fd Hfd. apply Hs. by eapply estate_open.
Qed.

Lemma estate_created fd L tr tr' : created fd tr tr' → estate L tr → estate (Unused fd :: L) tr'.
Proof.
  intros [Hf Ho Hc Hs He Hh] HL. pose proof HL as [Hl Hst Hhon]. split; [|constructor; [done|]|auto].
  - cbn. eapply ledger_opened; [done|done|done|]. apply Hc. by destruct Hl as (_ & _ & ?).
  - apply Forall_forall. intros c Hin. rewrite Forall_forall in Hst.
    eapply stands_same; [|by apply Hst]. intros fd' Hfd'. apply Hs. by eapply estate_open.
Qed.

Lemma estate_close fd L tr : estate (Held fd :: L) tr → estate L (EvClose fd :: tr).
Proof.
  intros [Hl Hs Hh]. split; [by apply ledger_close| |by apply honest_mute].
  apply Forall_cons in Hs as [_ Hs]. eapply Forall_impl; [exact Hs|].
  intros c. apply stands_same. intros fd' _. by apply streams_mute.
Qed.

(** Claims may be given up, or put together. *)
Lemma estate_weaken L L' tr :
  L ≫= fds_in = L' ≫= fds_in → (Forall (stands tr) L → Forall (stands tr) L') →
  estate L tr → estate L' tr.
Proof. intros Hf Hs [Hl Hst Hh]. split; [by rewrite <- Hf|auto|done]. Qed.

Lemma estate_used fds L tr : estate ((Unused <$> fds) ++ L) tr → estate ((Held <$> fds) ++ L) tr.
Proof.
  apply estate_weaken.
  - rewrite !bind_app. f_equal. induction fds; cbn; congruence.
  - rewrite !Forall_app. intros [_ H]. split; [|done]. by induction fds; constructor.
Qed.

Lemma estate_broken a b there back L tr :
  estate (Pipe a b there back :: L) tr → estate (Held a :: Held b :: L) tr.
Proof.
  apply estate_weaken; [done|]. rewrite !Forall_cons. by intros [_ ?].
Qed.

Lemma estate_joined a b L tr :
  estate (Unused a :: Unused b :: L) tr → estate (Pipe a b [] [] :: L) tr.
Proof.
  apply estate_weaken; [done|]. rewrite !Forall_cons. intros ([H1 H2] & [H3 H4] & ?).
  split; [|done]. cbn. by rewrite H1, H2, H3, H4.
Qed.

End Streams.
