(* ===== verification/ByteBuffer.v ===== *)
(** * The fixed-capacity forwarding buffer ([include/fluxgate/ByteBuffer.h])

    The class is a byte array with two cursors.  The component's contract is a
    bounded FIFO queue of bytes: [contents] is the abstraction function, and
    the operations of the class implement append, drop and "make room" on it
    without ever growing the array. *)

From Stdlib Require Export Strings.Byte.
From S2P Require Import Prelude.
Local Open Scope Z_scope.

Module ByteBuffer.

(** ** The class *)

Record ByteBuffer := mkByteBuffer {
  storage_ : list byte;
  readIndex_ : Z;
  writeIndex_ : Z
}.

(** [storage_(capacity)] value-initialises every byte. *)
Definition make (capacity : Z) : ByteBuffer :=
  mkByteBuffer (replicate (Z.to_nat capacity) x00) 0 0.

(** [storage_.size()]. *)
Definition size (b : ByteBuffer) : Z := Z.of_nat (length (storage_ b)).

Definition readableBytes (b : ByteBuffer) : Z :=
  u64 (writeIndex_ b - readIndex_ b).

Definition writableBytes (b : ByteBuffer) : Z :=
  u64 (size b - writeIndex_ b).

Definition empty (b : ByteBuffer) : bool := readableBytes b =? 0.

(** The bytes found from [&storage_[readIndex_]] on: what [send] reads when it
    is given that address and [readableBytes()]. *)
Definition readData (b : ByteBuffer) : list byte :=
  drop (Z.to_nat (readIndex_ b)) (storage_ b).

(** The stores [recv] makes from [&storage_[writeIndex_]] on. *)
Definition writeData (bs : list byte) (b : ByteBuffer) : ByteBuffer :=
  mkByteBuffer (splice (Z.to_nat (writeIndex_ b)) bs (storage_ b))
    (readIndex_ b) (writeIndex_ b).

Definition hasWritten (bytes : Z) (b : ByteBuffer) : ByteBuffer :=
  mkByteBuffer (storage_ b) (readIndex_ b) (u64 (writeIndex_ b + bytes)).

Definition consume (bytes : Z) (b : ByteBuffer) : ByteBuffer :=
  let r := u64 (readIndex_ b + bytes) in
  if r =? writeIndex_ b
  then mkByteBuffer (storage_ b) 0 0
  else mkByteBuffer (storage_ b) r (writeIndex_ b).

(** [std::copy(first, last, d_first)] on one array: [n] single-byte moves in
    increasing order, later reads seeing earlier writes. *)
Fixpoint std_copy (n src dst : nat) (l : list byte) : list byte :=
  match n with
  | O => l
  | S n' =>
      match l !! src with
      | Some x => std_copy n' (S src) (S dst) (<[dst := x]> l)
      | None => l
      end
  end.

Definition makeWritable (b : ByteBuffer) : ByteBuffer :=
  if (writableBytes b =? 0) && (0 <? readIndex_ b) then
    let length := readableBytes b in
    mkByteBuffer
      (std_copy (Z.to_nat (writeIndex_ b - readIndex_ b))
         (Z.to_nat (readIndex_ b)) 0 (storage_ b))
      0 length
  else b.

(** ** Abstraction and invariant *)

Definition contents (b : ByteBuffer) : list byte :=
  take (Z.to_nat (writeIndex_ b - readIndex_ b)) (readData b).

(** Cursors ordered and inside the array, an empty buffer rewound to the
    start, and a size a [std::vector<char>] can have. *)
Record wf (b : ByteBuffer) : Prop := {
  wf_order : 0 <= readIndex_ b <= writeIndex_ b;
  wf_inside : writeIndex_ b <= size b;
  wf_rewound : readIndex_ b = writeIndex_ b → writeIndex_ b = 0;
  wf_size : size b < 2 ^ 63
}.

Definition buffered (b : ByteBuffer) : Z := Z.of_nat (length (contents b)).

(** ** Cursor arithmetic never wraps on a well-formed buffer *)

Lemma readableBytes_eq b : wf b → readableBytes b = writeIndex_ b - readIndex_ b.
Proof. intros []. apply u64_small. unfold is_u64. lia. Qed.

Lemma writableBytes_eq b : wf b → writableBytes b = size b - writeIndex_ b.
Proof. intros []. apply u64_small. unfold is_u64. lia. Qed.

Lemma buffered_eq b : wf b → buffered b = writeIndex_ b - readIndex_ b.
Proof.
  intros []. unfold buffered, contents, readData, size in *.
  rewrite length_take, length_drop. lia.
Qed.

Lemma readableBytes_buffered b : wf b → readableBytes b = buffered b.
Proof. intros Hb. by rewrite readableBytes_eq, buffered_eq. Qed.

Lemma empty_spec b : wf b → empty b = true ↔ contents b = [].
Proof.
  intros Hb. unfold empty. rewrite Z.eqb_eq, readableBytes_buffered by done.
  unfold buffered. destruct (contents b); cbn; split; [done..|lia|done].
Qed.

Lemma empty_false b : wf b → empty b = false ↔ contents b ≠ [].
Proof.
  intros Hb. rewrite <- (empty_spec b Hb). destruct (empty b); naive_solver.
Qed.

Lemma send_range b : wf b →
  take (Z.to_nat (readableBytes b)) (readData b) = contents b.
Proof. intros Hb. by rewrite readableBytes_eq. Qed.

(** ** Construction *)

Lemma wf_make n : 0 <= n < 2 ^ 63 → wf (make n).
Proof.
  intros Hn. split; unfold size; cbn; rewrite ?length_replicate; lia.
Qed.

Lemma size_make n : 0 <= n → size (make n) = n.
Proof. intros. unfold size; cbn. rewrite length_replicate. lia. Qed.

Lemma contents_make n : contents (make n) = [].
Proof. done. Qed.

(** ** Appending what [recv] stored *)

Definition append (bs : list byte) (b : ByteBuffer) : ByteBuffer :=
  hasWritten (Z.of_nat (length bs)) (writeData bs b).

Section append.
Context (b : ByteBuffer) (bs : list byte).
Hypothesis Hwf : wf b.
Hypothesis Hroom : Z.of_nat (length bs) <= writableBytes b.

Lemma append_cursor :
  u64 (writeIndex_ b + Z.of_nat (length bs)) = writeIndex_ b + Z.of_nat (length bs).
Proof using Hwf Hroom.
  rewrite writableBytes_eq in Hroom by done. destruct Hwf.
  apply u64_small. unfold is_u64. lia.
Qed.

Lemma append_contents : contents (append bs b) = contents b ++ bs.
Proof using Hwf Hroom.
  pose proof append_cursor as Hc. rewrite writableBytes_eq in Hroom by done.
  destruct Hwf. unfold contents, readData, append, size in *; cbn. rewrite Hc.
  rewrite splice_in_bounds by lia.
  rewrite drop_app_le by (rewrite length_take; lia).
  rewrite skipn_firstn_comm, app_assoc.
  rewrite take_app_le by (rewrite length_app, length_take, length_drop; lia).
  rewrite take_ge by (rewrite length_app, length_take, length_drop; lia).
  f_equal. f_equal. lia.
Qed.

Lemma append_size : size (append bs b) = size b.
Proof using. unfold size, append; cbn. by rewrite splice_length. Qed.

Lemma append_wf : wf (append bs b).
Proof using Hwf Hroom.
  pose proof append_cursor as Hc. pose proof append_size as Hs.
  rewrite writableBytes_eq in Hroom by done.
  destruct Hwf. split; rewrite ?Hs; cbn; rewrite ?Hc; lia.
Qed.
End append.

(** ** Dropping what [send] took *)

Section consume.
Context (b : ByteBuffer) (n : Z).
Hypothesis Hwf : wf b.
Hypothesis Hn : 0 <= n <= readableBytes b.

Lemma consume_cursor : u64 (readIndex_ b + n) = readIndex_ b + n.
Proof using Hwf Hn.
  rewrite readableBytes_eq in Hn by done. destruct Hwf.
  apply u64_small. unfold is_u64. lia.
Qed.

Lemma consume_contents : contents (consume n b) = drop (Z.to_nat n) (contents b).
Proof using Hwf Hn.
  pose proof consume_cursor as Hc. rewrite readableBytes_eq in Hn by done.
  destruct Hwf. unfold consume; cbv zeta. rewrite Hc.
  unfold contents, readData, size in *.
  rewrite skipn_firstn_comm, drop_drop.
  destruct (Z.eqb_spec (readIndex_ b + n) (writeIndex_ b)) as [He|He]; cbn.
  - by replace (Z.to_nat (writeIndex_ b - readIndex_ b) - Z.to_nat n)%nat
      with 0%nat by lia.
  - f_equal; [lia|]. f_equal. lia.
Qed.

Lemma consume_size : size (consume n b) = size b.
Proof using. unfold consume. by case_match. Qed.

Lemma consume_wf : wf (consume n b).
Proof using Hwf Hn.
  pose proof consume_cursor as Hc. pose proof consume_size as Hs.
  rewrite readableBytes_eq in Hn by done. destruct Hwf.
  split; rewrite ?Hs; unfold consume; cbv zeta; rewrite ?Hc;
    destruct (Z.eqb_spec (readIndex_ b + n) (writeIndex_ b)); cbn; lia.
Qed.
End consume.

(** ** Compaction *)

Lemma std_copy_length n src dst l : length (std_copy n src dst l) = length l.
Proof.
  revert src dst l. induction n as [|n IH]; intros src dst l; cbn; [done|].
  destruct (l !! src); [|done]. by rewrite IH, length_insert.
Qed.

(** Moving down ([dst ≤ src]) leaves the destination range equal to what the
    source range held, in spite of the overlap. *)
Lemma std_copy_lookup n src dst l i :
  (dst ≤ src)%nat → (src + n ≤ length l)%nat →
  std_copy n src dst l !! i =
    if decide (dst ≤ i < dst + n)%nat then l !! (src + (i - dst))%nat else l !! i.
Proof.
  revert src dst l. induction n as [|n IH]; intros src dst l Hd Hb; cbn.
  - case_decide; [lia|done].
  - destruct (lookup_lt_is_Some_2 l src) as [x Hx]; [lia|]. rewrite Hx.
    rewrite IH by (rewrite ?length_insert; lia).
    case_decide; case_decide; [|lia| |].
    + rewrite list_lookup_insert_ne by lia. f_equal. lia.
    + assert (i = dst) as -> by lia.
      rewrite list_lookup_insert_eq by lia.
      by replace (src + (dst - dst))%nat with src by lia.
    + by rewrite list_lookup_insert_ne by lia.
Qed.

Lemma std_copy_down n src l :
  (src + n ≤ length l)%nat →
  take n (std_copy n src 0 l) = take n (drop src l).
Proof.
  intros Hb. apply list_eq. intros i. destruct (decide (i < n)%nat).
  - rewrite !lookup_take_lt, lookup_drop, std_copy_lookup by lia.
    rewrite decide_True by lia. f_equal. lia.
  - by rewrite !lookup_take_ge by lia.
Qed.

Lemma makeWritable_size b : size (makeWritable b) = size b.
Proof.
  unfold makeWritable. case_match; [|done]. unfold size; cbn.
  by rewrite std_copy_length.
Qed.

Lemma makeWritable_contents b : wf b → contents (makeWritable b) = contents b.
Proof.
  intros Hb. unfold makeWritable. case_match; [|done].
  unfold contents at 1, readData; cbn. rewrite readableBytes_eq by done.
  destruct Hb. unfold size in *. rewrite Z.sub_0_r, drop_0.
  rewrite std_copy_down by lia. done.
Qed.

Lemma makeWritable_wf b : wf b → wf (makeWritable b).
Proof.
  intros Hb. pose proof (makeWritable_size b) as Hs.
  split; rewrite ?Hs; unfold makeWritable; try case_match; cbn;
    rewrite ?readableBytes_eq by done; destruct Hb; lia.
Qed.

(** After compaction there is room exactly when the queue is not full. *)
Lemma makeWritable_room b : wf b →
  writableBytes (makeWritable b) = 0 ↔ buffered b = size b.
Proof.
  intros Hb. rewrite (buffered_eq b Hb).
  rewrite writableBytes_eq, makeWritable_size by auto using makeWritable_wf.
  unfold makeWritable. rewrite (writableBytes_eq b Hb), (readableBytes_eq b Hb).
  destruct Hb.
  destruct (Z.eqb_spec (size b - writeIndex_ b) 0), (Z.ltb_spec 0 (readIndex_ b));
    cbn; lia.
Qed.

#[export] Hint Resolve append_wf consume_wf makeWritable_wf wf_make : flux.
#[export] Hint Rewrite append_size consume_size makeWritable_size : flux.

(** ** The bounded FIFO queue the class implements *)

(** The calls a client makes: store what [recv] returned, drop what [send]
    took, compact. *)
Inductive op :=
| Append (bs : list byte)
| Consume (n : Z)
| MakeWritable.

(** One call, refused when the caller breaks the documented contract (no more
    bytes than [writableBytes()], respectively [readableBytes()]). *)
Definition step (o : op) (b : ByteBuffer) : option ByteBuffer :=
  match o with
  | Append bs =>
      if Z.of_nat (length bs) <=? writableBytes b then Some (append bs b) else None
  | Consume n =>
      if (0 <=? n) && (n <=? readableBytes b) then Some (consume n b) else None
  | MakeWritable => Some (makeWritable b)
  end.

Fixpoint steps (ops : list op) (b : ByteBuffer) : option ByteBuffer :=
  match ops with
  | [] => Some b
  | o :: ops' => step o b ≫= steps ops'
  end.

(** The same calls on the abstract queue. *)
Definition spec_step (o : op) (q : list byte) : list byte :=
  match o with
  | Append bs => q ++ bs
  | Consume n => drop (Z.to_nat n) q
  | MakeWritable => q
  end.

Definition spec_steps (ops : list op) (q : list byte) : list byte :=
  foldl (λ q o, spec_step o q) q ops.

Lemma step_refines o b b' : wf b → step o b = Some b' →
  wf b' ∧ size b' = size b ∧ contents b' = spec_step o (contents b).
Proof.
  intros Hb. destruct o as [bs|n|]; cbn; repeat case_match; intros; simplify_eq.
  - assert (Z.of_nat (length bs) <= writableBytes b) by lia.
    auto using append_wf, append_size, append_contents.
  - assert (0 <= n <= readableBytes b) by lia.
    auto using consume_wf, consume_size, consume_contents.
  - auto using makeWritable_wf, makeWritable_size, makeWritable_contents.
Qed.

Lemma steps_refine ops b b' : wf b → steps ops b = Some b' →
  wf b' ∧ size b' = size b ∧ contents b' = spec_steps ops (contents b).
Proof.
  revert b. induction ops as [|o ops IH]; cbn; intros b Hb Hs; [by simplify_eq|].
  destruct (step o b) as [b1|] eqn:H1; cbn in Hs; [|done].
  destruct (step_refines _ _ _ Hb H1) as (Hb1 & Hs1 & Hc1).
  destruct (IH _ Hb1 Hs) as (? & ? & ?). rewrite <- Hc1, <- Hs1. auto.
Qed.

Lemma buffered_le_size b : wf b → buffered b <= size b.
Proof. intros Hb. rewrite buffered_eq by done. destruct Hb. lia. Qed.

(** C35: the buffer refines a bounded FIFO queue.  Whatever sequence of
    in-contract appends, drops and compactions is applied to a fresh buffer of
    [capacity] bytes, its contents are those of the abstract byte queue, the
    array keeps its size, the queue never exceeds it and both cursors stay in
    order inside the array (so no access is out of bounds).  Compaction, whose
    copy overlaps itself, is no operation of the queue; after it no byte can be
    written only if the queue is full. *)
Theorem buffer_refines_fifo capacity ops b :
  0 <= capacity < 2 ^ 63 →
  steps ops (make capacity) = Some b →
  contents b = spec_steps ops [] ∧ buffered b <= size b ∧ size b = capacity ∧
  0 <= readIndex_ b <= writeIndex_ b ∧ writeIndex_ b <= size b ∧
  (writableBytes (makeWritable b) = 0 ↔ buffered b = capacity).
Proof.
  intros Hc Hs. destruct (steps_refine _ _ _ (wf_make _ Hc) Hs) as (Hb & Hz & Hq).
  rewrite size_make in Hz by lia. rewrite contents_make in Hq.
  pose proof (buffered_le_size _ Hb). pose proof (makeWritable_room _ Hb) as Hr.
  rewrite Hz in Hr |- *. destruct Hb. split_and!; tauto || lia.
Qed.

Lemma buffer_refines_fifo_witness :
  let ops := [Append [x01; x02; x03; x04]; Consume 3; MakeWritable;
              Append [x05; x06]; Consume 1] in
  let b := mkByteBuffer [x04; x05; x06; x04] 1 3 in
  steps ops (make 4) = Some b ∧
  contents b = spec_steps ops [] ∧ buffered b <= size b ∧ size b = 4 ∧
  0 <= readIndex_ b <= writeIndex_ b ∧ writeIndex_ b <= size b ∧
  (writableBytes (makeWritable b) = 0 ↔ buffered b = 4).
Proof.
  split; [reflexivity|].
  apply (buffer_refines_fifo 4 [Append [x01; x02; x03; x04]; Consume 3;
    MakeWritable; Append [x05; x06]; Consume 1]); [lia|reflexivity].
Defined.

(** Compaction moves the pending bytes down with an overlapping forward
    copy without changing them or their order, and it makes room whenever
    there is any: afterwards no byte can be written only if the queue already
    holds as many bytes as the array. *)
Theorem makeWritable_correct b : wf b →
  contents (makeWritable b) = contents b ∧
  (writableBytes (makeWritable b) = 0 ↔ buffered b = size b).
Proof.
  intros Hb. split; [by apply makeWritable_contents|by apply makeWritable_room].
Qed.

Lemma makeWritable_correct_witness :
  let b := mkByteBuffer [x01; x02; x03; x04] 1 4 in
  wf b ∧ makeWritable b = mkByteBuffer [x02; x03; x04; x04] 0 3 ∧
  contents (makeWritable b) = contents b ∧
  (writableBytes (makeWritable b) = 0 ↔ buffered b = size b).
Proof.
  assert (wf (mkByteBuffer [x01; x02; x03; x04] 1 4)) as Hb by
    (split; unfold size; cbn; lia).
  split; [exact Hb|]. split; [reflexivity|]. apply makeWritable_correct. exact Hb.
Defined.

End ByteBuffer.
