(* ===== verification/UniqueFd.v ===== *)
(** * Owned descriptors ([include/fluxgate/UniqueFd.h])

    The class is one integer; its operations close, hand over or give up the
    descriptor.  A program using it is a sequence of commands on a store of
    such objects: the theorem is that no sequence ever closes a descriptor
    twice and that every open descriptor has exactly one owner.  Copying is
    not a command: [NonCopyable] makes it a compile-time error. *)

From S2P Require Import Prelude Posix.
Local Open Scope Z_scope.

Module UniqueFd.

Record UniqueFd := mkUniqueFd { fd_ : Z }.

Definition get (u : UniqueFd) : Z := fd_ u.
Definition valid (u : UniqueFd) : bool := 0 <=? fd_ u.

(** The value given up and the emptied object. *)
Definition release (u : UniqueFd) : Z * UniqueFd :=
  let value := fd_ u in (value, mkUniqueFd (-1)).

Section ops.
Context {S : Type} `{Lens S trace}.

Definition reset (u : UniqueFd) (fd : Z) : ST S UniqueFd :=
  (if 0 <=? fd_ u then sys_close (fd_ u) else mret tt) ;;
  mret (mkUniqueFd fd).

(** [~UniqueFd()]. *)
Definition destroy (u : UniqueFd) : ST S unit := _ ← reset u (-1); mret tt.
End ops.

(** [UniqueFd(UniqueFd&&)]: the new object and the emptied source. *)
Definition move_construct (other : UniqueFd) : UniqueFd * UniqueFd :=
  let '(value, other') := release other in (mkUniqueFd value, other').

(** [operator=(UniqueFd&&)] for two distinct objects. *)
Definition move_assign {S} `{Lens S trace} (u other : UniqueFd) :
    ST S (UniqueFd * UniqueFd) :=
  let '(value, other') := release other in
  u' ← reset u value; mret (u', other').

(** ** Programs over a store of objects *)

(** Live objects by name, descriptors held as plain integers, and the calls. *)
Record store := mkStore {
  handles : gmap nat UniqueFd;
  loose : gset Z;
  log : trace
}.

#[export] Instance store_log : Lens store trace := {|
  view := log;
  upd t s := mkStore (handles s) (loose s) t
|}.

Inductive command :=
| Open (family : Z)               (* int fd = socket(...) *)
| Construct (h : nat) (fd : Z)    (* UniqueFd h(fd) *)
| MoveConstruct (h from : nat)    (* UniqueFd h(std::move(from)) *)
| MoveAssign (h from : nat)       (* h = std::move(from) *)
| Release (h : nat)               (* h.release() *)
| Reset (h : nat) (fd : Z)        (* h.reset(fd) *)
| Destroy (h : nat).              (* end of h's scope *)

Definition set_handle (h : nat) (u : UniqueFd) : ST store unit :=
  modify (λ s, mkStore (<[h := u]> (handles s)) (loose s) (log s)).
Definition drop_handle (h : nat) : ST store unit :=
  modify (λ s, mkStore (delete h (handles s)) (loose s) (log s)).
Definition take_loose (fd : Z) : ST store unit :=
  modify (λ s, mkStore (handles s) (loose s ∖ {[fd]}) (log s)).
Definition add_loose (fd : Z) : ST store unit :=
  modify (λ s, mkStore (handles s) ({[fd]} ∪ loose s) (log s)).

(** A raw value may be given to an object if it is a descriptor nobody else
    holds, or no descriptor at all. *)
Definition may_adopt (fd : Z) (s : store) : bool :=
  bool_decide (fd < 0) || bool_decide (fd ∈ loose s).

Definition exec `{K : Kernel} (c : command) : ST store unit :=
  s ← gets (λ s, s);
  match c with
  | Open family =>
      r ← sys_socket family;
      match r with Ret fd => add_loose fd | Fail _ => mret tt end
  | Construct h fd =>
      match handles s !! h with
      | None => if may_adopt fd s then take_loose fd ;; set_handle h (mkUniqueFd fd)
                else mret tt
      | Some _ => mret tt
      end
  | MoveConstruct h from =>
      match handles s !! h, handles s !! from with
      | None, Some other =>
          let '(u, other') := move_construct other in
          set_handle from other' ;; set_handle h u
      | _, _ => mret tt
      end
  | MoveAssign h from =>
      match handles s !! h, handles s !! from with
      | Some u, Some other =>
          if (h =? from)%nat then mret tt
          else
            '(u', other') ← move_assign u other;
            set_handle from other' ;; set_handle h u'
      | _, _ => mret tt
      end
  | Release h =>
      match handles s !! h with
      | Some u =>
          let '(value, u') := release u in
          set_handle h u' ;; if 0 <=? value then add_loose value else mret tt
      | None => mret tt
      end
  | Reset h fd =>
      match handles s !! h with
      | Some u =>
          if may_adopt fd s then
            u' ← reset u fd; take_loose fd ;; set_handle h u'
          else mret tt
      | None => mret tt
      end
  | Destroy h =>
      match handles s !! h with
      | Some u => destroy u ;; drop_handle h
      | None => mret tt
      end
  end.

(** ** Ownership *)

Definition owns (s : store) (h : nat) (fd : Z) : Prop :=
  handles s !! h = Some (mkUniqueFd fd) ∧ 0 <= fd.

Record owned_once (s : store) : Prop := {
  oo_open : ∀ h fd, owns s h fd → fd ∈ open_fds (log s);
  oo_unique : ∀ h h' fd, owns s h fd → owns s h' fd → h = h';
  oo_not_loose : ∀ h fd, owns s h fd → fd ∉ loose s;
  oo_loose : ∀ fd, fd ∈ loose s → 0 <= fd ∧ fd ∈ open_fds (log s);
  oo_no_leak : ∀ fd, fd ∈ open_fds (log s) → fd ∈ loose s ∨ ∃ h, owns s h fd;
  oo_closes : closes_ok (log s)
}.

Definition start : store := mkStore ∅ ∅ [].

Lemma start_owned : owned_once start.
Proof.
  split; unfold owns, start; cbn; try set_solver.
Qed.

(** Overwriting one handle, the trace and the loose set at once: what an
    operation on object [h] amounts to. *)
Lemma owns_insert s h u lo tr h' fd :
  owns (mkStore (<[h := u]> (handles s)) lo tr) h' fd ↔
  (h' = h ∧ fd = fd_ u ∧ 0 <= fd) ∨ (h' ≠ h ∧ owns s h' fd).
Proof.
  unfold owns; cbn. destruct (decide (h' = h)) as [->|Hne].
  - rewrite lookup_insert_eq. destruct u as [v]; cbn. split.
    + intros [[= ->] ?]. auto.
    + intros [(_ & -> & ?)|[? _]]; done.
  - rewrite lookup_insert_ne by done. naive_solver.
Qed.

Lemma owns_delete s h lo tr h' fd :
  owns (mkStore (delete h (handles s)) lo tr) h' fd ↔ h' ≠ h ∧ owns s h' fd.
Proof.
  unfold owns; cbn. destruct (decide (h' = h)) as [->|Hne].
  - rewrite lookup_delete_eq. naive_solver.
  - rewrite lookup_delete_ne by done. naive_solver.
Qed.

Lemma owned_insert s h u lo tr :
  (0 <= fd_ u → fd_ u ∈ open_fds tr ∧ fd_ u ∉ lo ∧ ∀ h', h' ≠ h → ¬ owns s h' (fd_ u)) →
  (∀ h' fd, h' ≠ h → owns s h' fd → fd ∈ open_fds tr ∧ fd ∉ lo) →
  (∀ h' h'' fd, owns s h' fd → owns s h'' fd → h' = h'') →
  (∀ fd, fd ∈ lo → 0 <= fd ∧ fd ∈ open_fds tr) →
  (∀ fd, fd ∈ open_fds tr →
     fd ∈ lo ∨ fd = fd_ u ∧ 0 <= fd ∨ ∃ h', h' ≠ h ∧ owns s h' fd) →
  closes_ok tr →
  owned_once (mkStore (<[h := u]> (handles s)) lo tr).
Proof.
  intros Hu Ho Hq Hlo Hleak Hc. split; cbn; [..|done].
  - intros h' fd [(-> & -> & ?)|[? ?]]%owns_insert; [by apply Hu|by eapply Ho].
  - intros h' h'' fd [(-> & -> & ?)|[? ?]]%owns_insert
      [(-> & He & ?)|[? ?]]%owns_insert; subst; [done|..].
    + exfalso. by eapply Hu.
    + exfalso. by eapply Hu.
    + by eapply Hq.
  - intros h' fd [(-> & -> & ?)|[? ?]]%owns_insert; [by apply Hu|by eapply Ho].
  - done.
  - intros fd Hfd. destruct (Hleak fd Hfd) as [?|[[-> ?]|(h' & ? & ?)]].
    + by left.
    + right. exists h. apply owns_insert. auto.
    + right. exists h'. apply owns_insert. auto.
Qed.

(** The primitive transfers every operation is made of. *)
Section transfers.
Context (s : store) (Hs : owned_once s).

Lemma release_owned h u : handles s !! h = Some u →
  owned_once (mkStore (<[h := mkUniqueFd (-1)]> (handles s))
    (if 0 <=? fd_ u then {[fd_ u]} ∪ loose s else loose s) (log s)).
Proof using Hs.
  destruct u as [v]; intros Hh; cbn. destruct Hs as [Ho Hq Hn Hl Hk Hc].
  destruct (Z.leb_spec 0 v) as [Hv|Hv].
  - assert (owns s h v) as Hown by done.
    apply owned_insert; cbn; [lia|..|done].
    + intros h' fd Hne Hw. split; [by eapply Ho|].
      intros [->%elem_of_singleton|Hin]%elem_of_union; [by apply Hne, (Hq _ _ v)|].
      by apply (Hn h' fd).
    + done.
    + intros fd [->%elem_of_singleton|Hin]%elem_of_union; [split; [done|]|by apply Hl].
      by eapply Ho.
    + intros fd Hfd. destruct (Hk fd Hfd) as [?|[h' Hw]]; [set_solver|].
      destruct (decide (h' = h)) as [->|]; [|eauto 6].
      destruct Hw as [Hw _]. rewrite Hh in Hw. simplify_eq. set_solver.
  - apply owned_insert; cbn; [lia|eauto..|done].
    intros fd Hfd. destruct (Hk fd Hfd) as [?|[h' Hw]]; [by left|].
    right; right. exists h'. split; [|done]. intros ->.
    destruct Hw as [Hw Hp]. rewrite Hh in Hw. simplify_eq. lia.
Qed.

Lemma close_owned h u : handles s !! h = Some u →
  owned_once (mkStore (<[h := mkUniqueFd (-1)]> (handles s)) (loose s)
    (if 0 <=? fd_ u then EvClose (fd_ u) :: log s else log s)).
Proof using Hs.
  destruct u as [v]; intros Hh; cbn. destruct Hs as [Ho Hq Hn Hl Hk Hc].
  destruct (Z.leb_spec 0 v) as [Hv|Hv].
  - assert (owns s h v) as Hown by done.
    apply owned_insert; cbn; [lia|..|split; [by eapply Ho|done]].
    + intros h' fd Hne Hw. split; [|by eapply Hn].
      apply elem_of_difference. split; [by eapply Ho|].
      intros ->%elem_of_singleton. by apply Hne, (Hq _ _ v).
    + done.
    + intros fd Hin. split; [by apply Hl|]. apply elem_of_difference.
      split; [by apply Hl|]. intros ->%elem_of_singleton. by apply (Hn h v).
    + intros fd [Hfd Hne]%elem_of_difference.
      destruct (Hk fd Hfd) as [?|[h' Hw]]; [by left|].
      right; right. exists h'. split; [|done]. intros ->.
      destruct Hw as [Hw _]. rewrite Hh in Hw. simplify_eq. set_solver.
  - apply owned_insert; cbn; [lia|eauto..|done].
    intros fd Hfd. destruct (Hk fd Hfd) as [?|[h' Hw]]; [by left|].
    right; right. exists h'. split; [|done]. intros ->.
    destruct Hw as [Hw Hp]. rewrite Hh in Hw. simplify_eq. lia.
Qed.

Lemma adopt_owned h fd :
  fd < 0 ∨ fd ∈ loose s → (∀ u, handles s !! h = Some u → fd_ u < 0) →
  owned_once (mkStore (<[h := mkUniqueFd fd]> (handles s)) (loose s ∖ {[fd]}) (log s)).
Proof using Hs.
  intros Hfd Hh. destruct Hs as [Ho Hq Hn Hl Hk Hc]. apply owned_insert; cbn; [..|done].
  - intros Hp. destruct Hfd as [|Hfd]; [lia|]. split; [by apply Hl|].
    split; [set_solver|]. intros h' _ Hw. by apply (Hn h' fd).
  - intros h' fd' _ Hw. split; [by eapply Ho|].
    intros [Hin _]%elem_of_difference. by apply (Hn h' fd').
  - done.
  - intros fd' [Hin _]%elem_of_difference. by apply Hl.
  - intros fd' Hin. destruct (Hk fd' Hin) as [Hlo|[h' Hw]].
    + destruct (decide (fd' = fd)) as [->|]; [|set_solver].
      right; left. split; [done|]. by apply Hl.
    + right; right. exists h'. split; [|done]. intros ->.
      destruct Hw as [Hw Hp]. apply Hh in Hw. cbn in Hw. lia.
Qed.

Lemma open_owned fd fam : 0 <= fd → fd ∉ open_fds (log s) →
  owned_once (mkStore (handles s) ({[fd]} ∪ loose s) (EvSocket fam (Ret fd) :: log s)).
Proof using Hs.
  intros Hp Hf. destruct Hs as [Ho Hq Hn Hl Hk Hc].
  split; unfold owns in *; cbn; [..|done].
  - intros h fd' Hw. apply elem_of_union. right. by eapply Ho.
  - done.
  - intros h fd' Hw [->%elem_of_singleton|Hin]%elem_of_union; [|by eapply Hn].
    by apply Hf, (Ho h).
  - intros fd' [->%elem_of_singleton|Hin]%elem_of_union; [set_solver|].
    destruct (Hl _ Hin). set_solver.
  - intros fd' [->%elem_of_singleton|Hin]%elem_of_union; [set_solver|].
    destruct (Hk _ Hin); set_solver.
Qed.

Lemma drop_owned h : (∀ u, handles s !! h = Some u → fd_ u < 0) →
  owned_once (mkStore (delete h (handles s)) (loose s) (log s)).
Proof using Hs.
  intros Hh. destruct Hs as [Ho Hq Hn Hl Hk Hc].
  split; cbn; [..|done].
  - intros h' fd [_ Hw]%owns_delete. by eapply Ho.
  - intros h' h'' fd [_ Hw]%owns_delete [_ Hw']%owns_delete. by eapply Hq.
  - intros h' fd [_ Hw]%owns_delete. by eapply Hn.
  - done.
  - intros fd Hin. destruct (Hk fd Hin) as [|[h' Hw]]; [by left|].
    right. exists h'. apply owns_delete. split; [|done]. intros ->.
    destruct Hw as [Hw Hp]. apply Hh in Hw. cbn in Hw. lia.
Qed.
End transfers.

Lemma loose_difference s h u : owned_once s → handles s !! h = Some u →
  (if 0 <=? fd_ u then {[fd_ u]} ∪ loose s else loose s) ∖ {[fd_ u]} = loose s.
Proof.
  destruct u as [v]; intros Hs Hh; cbn. destruct (Z.leb_spec 0 v) as [Hv|Hv].
  - assert (v ∉ loose s) by (by apply (oo_not_loose s Hs h)). set_solver.
  - assert (v ∉ loose s) by (intros Hin%(oo_loose s Hs); lia). set_solver.
Qed.

(** Taking over [from]'s descriptor in an empty or absent [h]. *)
Lemma move_owned s h from v :
  owned_once s → h ≠ from → handles s !! from = Some (mkUniqueFd v) →
  (∀ u, handles s !! h = Some u → fd_ u < 0) →
  owned_once (mkStore (<[h := mkUniqueFd v]> (<[from := mkUniqueFd (-1)]> (handles s)))
                (loose s) (log s)).
Proof.
  intros Hs Hne Hf Hh. pose proof (release_owned s Hs from _ Hf) as H1.
  pose proof (adopt_owned _ H1 h v) as H2.
  pose proof (loose_difference s from _ Hs Hf) as Hl. cbn in *.
  rewrite Hl in H2. apply H2.
  - destruct (Z.leb_spec 0 v); [right; set_solver|by left].
  - intros u. rewrite lookup_insert_ne by done. apply Hh.
Qed.

Lemma exec_owned `{KernelLaws} c : preserves owned_once (exec c).
Proof.
  intros s Hs. unfold exec, gets, mbind at 1, ST_bind at 1.
  destruct c as [fam|h fd|h from|h from|h|h fd|h].
  - unfold sys_socket, syscall, mbind, ST_bind; cbn.
    destruct (k_socket (log s) fam) as [fd|e] eqn:Hk.
    + apply socket_fresh in Hk as [Hp Hf]. exact (open_owned s Hs fd fam Hp Hf).
    + destruct Hs; by split.
  - destruct (handles s !! h) as [u|] eqn:Hh; [done|].
    destruct (may_adopt fd s) eqn:Hm; [|done]. cbn.
    apply (adopt_owned s Hs h fd); [|intros u; by rewrite Hh].
    unfold may_adopt in Hm. rewrite orb_true_iff, !bool_decide_eq_true in Hm. done.
  - destruct (handles s !! h) as [u|] eqn:Hh; [done|].
    destruct (handles s !! from) as [[v]|] eqn:Hf; [|done]. cbn.
    apply (move_owned s h from v Hs); [|done|]; [intros ->|intros u]; congruence.
  - destruct (handles s !! h) as [[w]|] eqn:Hh; [|done].
    destruct (handles s !! from) as [[v]|] eqn:Hf; [|done].
    destruct (Nat.eqb_spec h from) as [|Hne]; [done|].
    pose proof (close_owned s Hs h _ Hh) as H1.
    pose proof (move_owned _ h from v H1 Hne) as H2. cbn in H2.
    rewrite !lookup_insert_ne in H2 by done. specialize (H2 Hf).
    rewrite lookup_insert_eq in H2. clear H1. rename H2 into H1.
    lapply H1; clear H1; [intros H1|].
    + unfold move_assign, reset, mbind, ST_bind; cbn.
      rewrite (insert_insert_ne _ from h), insert_insert_eq in H1 by done.
      by destruct (0 <=? w).
    + by intros u [= <-].
  - destruct (handles s !! h) as [[v]|] eqn:Hh; [|done]. cbn.
    pose proof (release_owned s Hs h _ Hh) as H1. cbn in *.
    by destruct (0 <=? v).
  - destruct (handles s !! h) as [[v]|] eqn:Hh; [|done].
    destruct (may_adopt fd s) eqn:Hm; [|done].
    unfold may_adopt in Hm. rewrite orb_true_iff, !bool_decide_eq_true in Hm.
    pose proof (close_owned s Hs h _ Hh) as H1.
    apply (adopt_owned _ H1 h fd) in Hm.
    + cbn in *. rewrite insert_insert_eq in Hm.
      unfold reset, mbind, ST_bind; cbn. by destruct (0 <=? v).
    + intros u; cbn. rewrite lookup_insert_eq. intros [= <-]. done.
  - destruct (handles s !! h) as [[v]|] eqn:Hh; [|done].
    pose proof (close_owned s Hs h _ Hh) as H1.
    pose proof (drop_owned _ H1 h) as H2. cbn in H2. rewrite delete_insert_eq in H2.
    lapply H2; clear H2; [intros H2|].
    + unfold destroy, reset, mbind, ST_bind; cbn. by destruct (0 <=? v).
    + intros u; cbn. rewrite lookup_insert_eq. intros [= <-]. done.
Qed.

(** C34: whatever sequence of constructions, moves, assignments, releases,
    resets and destructions a program performs, each [close] it makes is of a
    descriptor that is open at that moment (none is closed twice), every open
    descriptor has exactly one owner (an object or the plain integer it was
    released into), and once all objects are gone and nothing was released,
    no descriptor is left open. *)
Theorem descriptors_owned_once `{KernelLaws} cs :
  let s := (for_each exec cs start).2 in
  closes_ok (log s) ∧
  (∀ fd, fd ∈ open_fds (log s) ↔ fd ∈ loose s ∨ ∃ h, owns s h fd) ∧
  (∀ h h' fd, owns s h fd → owns s h' fd → h = h') ∧
  (∀ h fd, owns s h fd → fd ∉ loose s) ∧
  (handles s = ∅ → loose s = ∅ → open_fds (log s) = ∅).
Proof.
  intros s. assert (owned_once s) as Hs.
  { apply (preserves_for_each owned_once exec cs (λ c _, exec_owned c) start start_owned). }
  destruct Hs as [Ho Hq Hn Hl Hk Hc]. split; [done|]. split; [|split; [done|split; [done|]]].
  - intros fd. split; [apply Hk|]. intros [Hin|[h Hw]]; [by apply Hl|by eapply Ho].
  - intros Hh Hlo. apply set_eq. intros fd. split; [|set_solver].
    intros [Hin|[h [Hw _]]]%Hk; [set_solver|]. by rewrite Hh in Hw.
Qed.

Definition sample_program : list command :=
  [Open AF_INET; Open AF_INET; Construct 0 3; Construct 1 4; MoveConstruct 2 1;
   MoveAssign 2 0; Reset 2 (-1); Open AF_INET; Construct 3 3; Release 3; Reset 0 3;
   Destroy 3; Destroy 0; Destroy 1; Destroy 2].

Lemma descriptors_owned_once_witness :
  let s := (for_each (exec (K := scripted quiet)) sample_program start).2 in
  List.filter (λ e, match e with EvClose _ => true | _ => false end) (log s)
    = [EvClose 3; EvClose 3; EvClose 4] ∧
  closes_ok (log s) ∧ open_fds (log s) = ∅.
Proof.
  split; [vm_compute; reflexivity|].
  destruct (descriptors_owned_once (K := scripted quiet) sample_program)
    as (Hc & _ & _ & _ & Ho).
  split; [exact Hc|]. apply Ho; vm_compute; reflexivity.
Defined.

End UniqueFd.
