(* ===== verification/Metrics.v ===== *)
(** * Runtime counters ([include/fluxgate/Metrics.h], [src/Metrics.cpp])

    Six 64-bit atomics.  [fetch_add] is addition modulo 2^64; [onClosed] reads
    the gauge, then subtracts, and never takes it below zero.  [snapshot] is
    the log line built from them. *)

From S2P Require Import Prelude Text.
Local Open Scope Z_scope.

Module Metrics.

Record Metrics := mkMetrics {
  accepted_ : Z;
  active_ : Z;
  rejected_ : Z;
  connectFailures_ : Z;
  clientToBackendBytes_ : Z;
  backendToClientBytes_ : Z
}.

Definition init : Metrics := mkMetrics 0 0 0 0 0 0.

Definition onAccepted (m : Metrics) : Metrics :=
  mkMetrics (u64 (accepted_ m + 1)) (active_ m) (rejected_ m) (connectFailures_ m)
    (clientToBackendBytes_ m) (backendToClientBytes_ m).

Definition onOpened (m : Metrics) : Metrics :=
  mkMetrics (accepted_ m) (u64 (active_ m + 1)) (rejected_ m) (connectFailures_ m)
    (clientToBackendBytes_ m) (backendToClientBytes_ m).

Definition onClosed (m : Metrics) : Metrics :=
  let current := active_ m in
  if 0 <? current then
    mkMetrics (accepted_ m) (u64 (active_ m - 1)) (rejected_ m) (connectFailures_ m)
      (clientToBackendBytes_ m) (backendToClientBytes_ m)
  else m.

Definition onRejected (m : Metrics) : Metrics :=
  mkMetrics (accepted_ m) (active_ m) (u64 (rejected_ m + 1)) (connectFailures_ m)
    (clientToBackendBytes_ m) (backendToClientBytes_ m).

Definition onConnectFailure (m : Metrics) : Metrics :=
  mkMetrics (accepted_ m) (active_ m) (rejected_ m) (u64 (connectFailures_ m + 1))
    (clientToBackendBytes_ m) (backendToClientBytes_ m).

Definition addClientToBackend (bytes : Z) (m : Metrics) : Metrics :=
  mkMetrics (accepted_ m) (active_ m) (rejected_ m) (connectFailures_ m)
    (u64 (clientToBackendBytes_ m + bytes)) (backendToClientBytes_ m).

Definition addBackendToClient (bytes : Z) (m : Metrics) : Metrics :=
  mkMetrics (accepted_ m) (active_ m) (rejected_ m) (connectFailures_ m)
    (clientToBackendBytes_ m) (u64 (backendToClientBytes_ m + bytes)).

Definition snapshot (m : Metrics) : string :=
  "accepted=" +:+ (to_string (accepted_ m)
  +:+ (" active=" +:+ (to_string (active_ m)
  +:+ (" rejected=" +:+ (to_string (rejected_ m)
  +:+ (" connect_failures=" +:+ (to_string (connectFailures_ m)
  +:+ (" c2b_bytes=" +:+ (to_string (clientToBackendBytes_ m)
  +:+ (" b2c_bytes=" +:+ to_string (backendToClientBytes_ m))))))))))).

(** ** Counting a history of updates *)

Inductive update :=
| Accepted | Opened | Closed | Rejected | ConnectFailure
| ClientToBackend (bytes : Z) | BackendToClient (bytes : Z).

Definition apply (u : update) : Metrics → Metrics :=
  match u with
  | Accepted => onAccepted
  | Opened => onOpened
  | Closed => onClosed
  | Rejected => onRejected
  | ConnectFailure => onConnectFailure
  | ClientToBackend n => addClientToBackend n
  | BackendToClient n => addBackendToClient n
  end.

Definition run (us : list update) : Metrics := foldl (λ m u, apply u m) init us.

(** What an update contributes to each counter. *)
Definition is_accepted u := match u with Accepted => 1 | _ => 0 end.
Definition is_rejected u := match u with Rejected => 1 | _ => 0 end.
Definition is_failure u := match u with ConnectFailure => 1 | _ => 0 end.
Definition c2b u := match u with ClientToBackend n => n | _ => 0 end.
Definition b2c u := match u with BackendToClient n => n | _ => 0 end.
Definition gauge u := match u with Opened => 1 | Closed => - 1 | _ => 0 end.

(** Sessions are closed after they were opened, fewer than 2^64 at a time. *)
Definition balanced (us : list update) : Prop :=
  ∀ n, is_u64 (total gauge (take n us)).

Lemma u64_add_l a b : u64 (u64 a + b) = u64 (a + b).
Proof. unfold u64. by rewrite Zplus_mod_idemp_l. Qed.

Lemma balanced_app us vs : balanced (us ++ vs) → balanced us.
Proof.
  intros H n. specialize (H (n `min` length us)%nat).
  rewrite take_app_le in H by lia.
  replace (take n us) with (take (n `min` length us) us); [done|].
  destruct (decide (n ≤ length us)%nat).
  - by rewrite Nat.min_l by lia.
  - by rewrite Nat.min_r, !take_ge by lia.
Qed.

Lemma run_counters us : balanced us →
  run us = mkMetrics (u64 (total is_accepted us)) (total gauge us)
    (u64 (total is_rejected us)) (u64 (total is_failure us))
    (u64 (total c2b us)) (u64 (total b2c us)).
Proof.
  induction us as [|u us IH] using rev_ind; intros Hb; [done|].
  pose proof (Hb (length us)) as Hus.
  rewrite take_app_le, firstn_all in Hus by lia.
  pose proof (Hb (length (us ++ [u]))) as Hall. rewrite firstn_all in Hall.
  unfold run in *. rewrite foldl_app, IH by eauto using balanced_app; cbn.
  rewrite !total_snoc in *; cbn in *.
  destruct u; cbn in *; rewrite ?Z.add_0_r in *.
  3: { unfold onClosed; cbn.
       assert ((0 <? total gauge us) = true) as -> by (unfold is_u64 in *; lia).
       by unwrap64. }
  all: unfold onAccepted, onOpened, onRejected, onConnectFailure,
    addClientToBackend, addBackendToClient; cbn; rewrite ?u64_add_l;
    f_equal; by unwrap64.
Qed.

(** Over any history in which sessions close after they opened, every
    counter is the number (modulo 2^64) of the events it counts, the byte
    counters are the sums of the bytes reported, and the gauge of active
    sessions is exactly opens minus closes: it never wraps below zero. *)
Theorem counters_exact us : balanced us →
  let m := run us in
  accepted_ m = u64 (total is_accepted us) ∧
  active_ m = total gauge us ∧
  rejected_ m = u64 (total is_rejected us) ∧
  connectFailures_ m = u64 (total is_failure us) ∧
  clientToBackendBytes_ m = u64 (total c2b us) ∧
  backendToClientBytes_ m = u64 (total b2c us).
Proof. intros Hb m. subst m. by rewrite run_counters. Qed.

Definition sample : list update :=
  [Accepted; Opened; Accepted; Opened; ClientToBackend 10; Closed;
   ClientToBackend (2 ^ 64 - 1); Rejected; BackendToClient 5; Closed; ConnectFailure].

Lemma counters_exact_witness :
  balanced sample ∧ run sample = mkMetrics 2 0 1 1 9 5 ∧
  active_ (run sample) = total gauge sample.
Proof.
  assert (balanced sample) as Hb.
  { intros n. unfold sample, is_u64, total.
    do 12 (destruct n as [|n]; [cbn; lia|]). cbn. lia. }
  split; [exact Hb|]. split; [reflexivity|].
  exact (proj1 (proj2 (counters_exact sample Hb))).
Defined.

(** ** The same from several threads

    Every update is one atomic access, but for [onClosed], which loads the
    gauge and, in a second access, subtracts. *)

(** A thread: the updates it has made, those still to come, and, between the
    two accesses of [onClosed], the value it has loaded. *)
Record updater := mkUpdater { made : list update; todo : list update; loaded : option Z }.

Definition starting (us : list update) : updater := mkUpdater [] us None.

Inductive access : Metrics * updater → Metrics * updater → Prop :=
| access_add m us u vs : u ≠ Closed →
    access (m, mkUpdater us (u :: vs) None) (apply u m, mkUpdater (us ++ [u]) vs None)
| access_load m us vs :
    access (m, mkUpdater us (Closed :: vs) None) (m, mkUpdater us (Closed :: vs) (Some (active_ m)))
| access_sub m us vs current :
    access (m, mkUpdater us (Closed :: vs) (Some current))
      (if 0 <? current then
         mkMetrics (accepted_ m) (u64 (active_ m - 1)) (rejected_ m) (connectFailures_ m)
           (clientToBackendBytes_ m) (backendToClientBytes_ m)
       else m, mkUpdater (us ++ [Closed]) vs None).

Inductive step : Metrics * list updater → Metrics * list updater → Prop :=
| step_access m m' ts1 t t' ts2 : access (m, t) (m', t') →
    step (m, ts1 ++ t :: ts2) (m', ts1 ++ t' :: ts2).

(** The two accesses in a row are [onClosed]. *)
Lemma load_sub_closed m us vs :
  rtc access (m, mkUpdater us (Closed :: vs) None) (onClosed m, mkUpdater (us ++ [Closed]) vs None).
Proof.
  eapply rtc_l; [apply access_load|]. eapply rtc_l; [apply access_sub|]. apply rtc_refl.
Qed.

(** A thread only closes what it has opened. *)
Definition closes_own (us : list update) : Prop := ∀ n, 0 <= total gauge (take n us).

Definition counted (f : update → Z) (ts : list updater) : Z := total (λ t, total f (made t)) ts.
Definition is_opened u := match u with Opened => 1 | _ => 0 end.

(** The books: what has been made so far, of programs that open fewer than
    2^64 sessions in all. *)
Record tallied (m : Metrics) (ts : list updater) : Prop := {
  tallied_metrics : m = mkMetrics (u64 (counted is_accepted ts)) (counted gauge ts)
    (u64 (counted is_rejected ts)) (u64 (counted is_failure ts))
    (u64 (counted c2b ts)) (u64 (counted b2c ts));
  tallied_own : Forall (λ t, closes_own (made t ++ todo t)) ts;
  tallied_loaded : Forall (λ t, ∀ c, loaded t = Some c → 0 < c) ts;
  tallied_opened : total (λ t, total is_opened (made t ++ todo t)) ts < 2 ^ 64
}.

Lemma opened_nonneg us : 0 <= total is_opened us.
Proof. apply total_nonneg, Forall_forall. by intros []. Qed.

Lemma gauge_opened us : total gauge us <= total is_opened us.
Proof. apply total_le. by intros []. Qed.

Lemma counted_middle f ts1 t ts2 :
  counted f (ts1 ++ t :: ts2) = total f (made t) + counted f (ts1 ++ ts2).
Proof. unfold counted. rewrite !total_app, total_cons. lia. Qed.

(** The gauge is what the threads still hold: none less than nothing. *)
Lemma gauge_range ts : Forall (λ t, closes_own (made t ++ todo t)) ts →
  total (λ t, total is_opened (made t ++ todo t)) ts < 2 ^ 64 →
  Forall (λ t, 0 <= total gauge (made t)) ts ∧ is_u64 (counted gauge ts).
Proof.
  intros Hown Hop.
  assert (Forall (λ t, 0 <= total gauge (made t)) ts) as Hn.
  { eapply Forall_impl; [exact Hown|]. intros t Ht. specialize (Ht (length (made t))).
    by rewrite take_app_length in Ht. }
  split; [done|]. split; [by apply total_nonneg|].
  eapply Z.le_lt_trans; [|exact Hop]. apply total_le. intros t _.
  rewrite total_app. pose proof (gauge_opened (made t)). pose proof (opened_nonneg (todo t)). lia.
Qed.

(** A thread about to close holds something. *)
Lemma closing_holds ts1 us vs o ts2 :
  Forall (λ t, closes_own (made t ++ todo t)) (ts1 ++ mkUpdater us (Closed :: vs) o :: ts2) →
  Forall (λ t, 0 <= total gauge (made t)) (ts1 ++ mkUpdater us (Closed :: vs) o :: ts2) →
  0 < counted gauge (ts1 ++ mkUpdater us (Closed :: vs) o :: ts2).
Proof.
  rewrite !Forall_app, !Forall_cons. intros (_ & Hown & _) (Hn1 & _ & Hn2).
  rewrite counted_middle. assert (0 <= counted gauge (ts1 ++ ts2)) by (by apply total_nonneg, Forall_app).
  specialize (Hown (S (length us))). cbn [made todo] in *.
  rewrite cons_middle, app_assoc, take_app_length' in Hown by (rewrite length_app; cbn; lia).
  rewrite total_snoc in Hown. cbn in Hown. lia.
Qed.

Lemma step_tallied s s' : tallied s.1 s.2 → step s s' → tallied s'.1 s'.2.
Proof.
  intros [Hm Hown Hld Hop] Hs. destruct Hs as [m m' ts1 t t' ts2 Ha]. cbn [fst snd] in *.
  pose proof (gauge_range _ Hown Hop) as [Hn Hr].
  assert (made t' ++ todo t' = made t ++ todo t) as Hprog
    by (inversion Ha; subst; cbn; by rewrite <- ?app_assoc).
  assert (Forall (λ t, closes_own (made t ++ todo t)) (ts1 ++ t' :: ts2)) as Hown'.
  { rewrite Forall_app, Forall_cons in *. by rewrite Hprog. }
  assert (total (λ t, total is_opened (made t ++ todo t)) (ts1 ++ t' :: ts2) < 2 ^ 64) as Hop'.
  { rewrite total_app, total_cons in *. by rewrite Hprog. }
  pose proof (gauge_range _ Hown' Hop') as [_ Hr'].
  assert (∀ u, made t' = made t ++ [u] → ∀ f,
    counted f (ts1 ++ t' :: ts2) = counted f (ts1 ++ t :: ts2) + f u) as Hadd.
  { intros u E f. rewrite !counted_middle, E, total_snoc. lia. }
  inversion Ha as [? us u vs Hu|? us vs|? us vs c]; subst; split; try done.
  - rewrite (Hadd u eq_refl gauge) in Hr'. rewrite !(Hadd u eq_refl).
    destruct u; try done; unfold apply, onAccepted, onOpened, onRejected, onConnectFailure,
      addClientToBackend, addBackendToClient; cbn in *; rewrite ?u64_add_l, ?Z.add_0_r; try done.
    by rewrite (u64_small (_ + 1)).
  - rewrite Forall_app, Forall_cons in *. naive_solver.
  - by rewrite !counted_middle in *.
  - pose proof (closing_holds _ _ _ _ _ Hown Hn). rewrite Forall_app, Forall_cons in *.
    destruct Hld as (? & _ & ?). split; [done|]. split; [|done]. by intros c [= <-].
  - assert ((0 <? c) = true) as ->.
    { rewrite Forall_app, Forall_cons in Hld. destruct Hld as (_ & Hld & _). by apply Z.ltb_lt, Hld. }
    rewrite (Hadd Closed eq_refl gauge) in Hr'. rewrite !(Hadd Closed eq_refl). cbn in *.
    rewrite !Z.add_0_r. f_equal. by rewrite u64_small.
  - rewrite Forall_app, Forall_cons in *. naive_solver.
Qed.

Lemma start_tallied programs :
  Forall closes_own programs → total (total is_opened) programs < 2 ^ 64 →
  tallied init (starting <$> programs).
Proof.
  intros Hown Hop.
  assert (∀ f, counted f (starting <$> programs) = 0) as Hz.
  { intros f. clear. induction programs as [|p ps IH]; [done|]. unfold counted in *.
    cbn. by rewrite total_cons, IH. }
  split.
  - by rewrite !Hz.
  - by apply Forall_fmap.
  - by apply Forall_fmap, Forall_forall.
  - replace (total _ _) with (total (total is_opened) programs); [done|]. clear.
    induction programs as [|p ps IH]; [done|]. cbn. by rewrite !total_cons, IH.
Qed.

(** C27: the counters are exact under concurrency.  Let any number of threads
    update the metrics, each closing only sessions it has opened, their atomic
    accesses interleaved in any way; the two accesses of [onClosed] may have
    any others between them.  At every moment each event counter is the number
    (modulo 2^64) of the events reported so far, the byte counters are the sums
    of the bytes reported, and the gauge is exactly opens minus closes: its
    guard never skips a decrement and it never wraps below zero. *)
Theorem concurrent_counters_exact programs m ts :
  Forall closes_own programs → total (total is_opened) programs < 2 ^ 64 →
  rtc step (init, starting <$> programs) (m, ts) →
  accepted_ m = u64 (counted is_accepted ts) ∧
  (active_ m = counted gauge ts ∧ 0 <= active_ m < 2 ^ 64) ∧
  rejected_ m = u64 (counted is_rejected ts) ∧
  connectFailures_ m = u64 (counted is_failure ts) ∧
  clientToBackendBytes_ m = u64 (counted c2b ts) ∧
  backendToClientBytes_ m = u64 (counted b2c ts) ∧
  Forall2 (λ p t, made t `prefix_of` p) programs ts.
Proof.
  intros Hown Hop Hs.
  assert (tallied m ts) as [-> Hown' _ Hop'].
  { pose proof (start_tallied programs Hown Hop) as H0.
    enough (∀ s s', rtc step s s' → tallied s.1 s.2 → tallied s'.1 s'.2) as H by exact (H _ _ Hs H0).
    induction 1; eauto using step_tallied. }
  pose proof (gauge_range _ Hown' Hop') as [_ Hr]. cbn. split_and!; try done; try apply Hr.
  assert (∀ s s', rtc step s s' → Forall2 (λ p t, made t ++ todo t = p) programs s.2 →
    Forall2 (λ p t, made t ++ todo t = p) programs s'.2) as Hp.
  { induction 1 as [|s s2 s' Hst _ IH]; [done|]. intros H. apply IH. destruct Hst as [? ? ts1 t t' ts2 Ha].
    cbn in *. apply Forall2_app_inv_r in H as (ps1 & ps2 & H1 & H2 & ->).
    apply Forall2_cons_inv_r in H2 as (p & ps2' & H2 & H3 & ->).
    apply Forall2_app; [done|]. constructor; [|done]. rewrite <- H2.
    inversion Ha; subst; cbn; by rewrite <- ?app_assoc. }
  eapply Forall2_impl; [apply (Hp _ _ Hs)|].
  - cbn. clear. induction programs; by constructor.
  - intros p t <-. by apply prefix_app_r.
Qed.

(** Two workers close at the same time: both have loaded the gauge before
    either subtracts. *)
Lemma concurrent_counters_exact_witness : ∃ m,
  rtc step (init, starting <$> [[Opened; Closed]; [Opened; Closed]])
    (m, [mkUpdater [Opened] [Closed] (Some 2); mkUpdater [Opened; Closed] [] None]) ∧
  active_ m = 1.
Proof.
  assert (rtc step (init, starting <$> [[Opened; Closed]; [Opened; Closed]])
    (mkMetrics 0 1 0 0 0 0, [mkUpdater [Opened] [Closed] (Some 2); mkUpdater [Opened; Closed] [] None]))
    as Hr.
  { eapply rtc_l; [eapply (step_access _ _ []); by constructor|].
    eapply rtc_l; [eapply (step_access _ _ [_]); by constructor|].
    eapply rtc_l; [eapply (step_access _ _ []); by constructor|].
    eapply rtc_l; [eapply (step_access _ _ [_]); by constructor|].
    eapply rtc_l; [eapply (step_access _ _ [_]); by constructor|]. apply rtc_refl. }
  eexists. split; [exact Hr|].
  destruct (concurrent_counters_exact _ _ _ (ltac:(repeat constructor; intros [|[|[|n]]]; vm_compute; discriminate)
    : Forall closes_own [[Opened; Closed]; [Opened; Closed]]) eq_refl Hr) as (_ & [Ha _] & _).
  exact Ha.
Defined.

(** ** The log line determines the counters *)

Definition in_range (m : Metrics) : Prop :=
  is_u64 (accepted_ m) ∧ is_u64 (active_ m) ∧ is_u64 (rejected_ m) ∧
  is_u64 (connectFailures_ m) ∧ is_u64 (clientToBackendBytes_ m) ∧
  is_u64 (backendToClientBytes_ m).

Lemma string_app_inj_l (s t1 t2 : string) : s +:+ t1 = s +:+ t2 → t1 = t2.
Proof. induction s; cbn; [done|]. intros H. simplify_eq. auto. Qed.

(** A run of digits ends at the first other character. *)
Lemma digits_field s1 s2 c1 c2 t1 t2 :
  string_forall isdigit s1 = true → string_forall isdigit s2 = true →
  isdigit c1 = false → isdigit c2 = false →
  s1 +:+ String c1 t1 = s2 +:+ String c2 t2 → s1 = s2 ∧ t1 = t2.
Proof.
  revert s2. induction s1 as [|a s1 IH]; intros [|b s2] H1 H2 Hc1 Hc2 He; cbn in *.
  - by simplify_eq.
  - simplify_eq. by rewrite Hc1 in H2.
  - simplify_eq. by rewrite Hc2 in H1.
  - simplify_eq. apply andb_true_iff in H1 as [_ H1], H2 as [_ H2].
    destruct (IH s2) as [-> ->]; auto.
Qed.

Lemma number_field n1 n2 c (label t1 t2 : string) :
  is_u64 n1 → is_u64 n2 → isdigit c = false →
  to_string n1 +:+ (String c label +:+ t1) = to_string n2 +:+ (String c label +:+ t2) →
  n1 = n2 ∧ t1 = t2.
Proof.
  unfold is_u64. intros H1 H2 Hc He. cbn in He.
  apply digits_field in He as [Hd Ht]; [|apply to_string_digits; lia..|done|done].
  apply to_string_inj in Hd; [|done..]. by apply string_app_inj_l in Ht.
Qed.

(** The snapshot text loses nothing: two counter sets with the same line
    are the same counter set. *)
Theorem snapshot_injective m1 m2 :
  in_range m1 → in_range m2 → snapshot m1 = snapshot m2 → m1 = m2.
Proof.
  destruct m1 as [a1 b1 c1 d1 e1 f1], m2 as [a2 b2 c2 d2 e2 f2].
  unfold in_range, snapshot; cbn [accepted_ active_ rejected_ connectFailures_
    clientToBackendBytes_ backendToClientBytes_].
  intros (?&?&?&?&?&?) (?&?&?&?&?&?) He.
  apply string_app_inj_l in He.
  do 5 (apply number_field in He as [-> He]; [|done..]).
  apply to_string_inj in He; [by subst|done..].
Qed.

Lemma snapshot_injective_witness :
  let m := mkMetrics 2 0 1 1 9 5 in
  in_range m ∧
  snapshot m = "accepted=2 active=0 rejected=1 connect_failures=1 c2b_bytes=9 b2c_bytes=5"
  ∧ run sample = m.
Proof.
  assert (in_range (mkMetrics 2 0 1 1 9 5)) as Hr by (repeat split; cbn; lia).
  split; [exact Hr|]. split; [reflexivity|].
  apply snapshot_injective; [|exact Hr|reflexivity].
  vm_compute; repeat split; congruence.
Defined.

End Metrics.
