(* ===== verification/Logger.v ===== *)
(** * Logging ([include/fluxgate/Logger.h], [src/Logger.cpp])

    The level order, the configuration keyword for a level, the filter
    [vlog] applies under the lock, and the text of the prefix it prints; the
    formatting of the message body ([vfprintf]) and the clock are not
    modelled. *)

From S2P Require Import Prelude Text.
Local Open Scope Z_scope.

Module Logger.

Inductive LogLevel := Debug | Info | Warn | Error.

#[export] Instance LogLevel_eq_dec : EqDecision LogLevel.
Proof. solve_decision. Defined.

(** [static_cast<int>(level)]. *)
Definition level_int (l : LogLevel) : Z :=
  match l with Debug => 0 | Info => 1 | Warn => 2 | Error => 3 end.

Definition levelName (l : LogLevel) : string :=
  match l with
  | Debug => "DEBUG"
  | Info => "INFO"
  | Warn => "WARN"
  | Error => "ERROR"
  end.

(** [result] and [current] walk the path; [result] restarts after each '/'. *)
Fixpoint baseName_loop (result current : string) : string :=
  match current with
  | EmptyString => result
  | String c current' =>
      baseName_loop (if Ascii.eqb c "/" then current' else result) current'
  end.

Definition baseName (path : string) : string := baseName_loop path path.

Definition lower (value : string) : string := string_map tolower value.

Definition parseLevel (value : string) : outcome LogLevel :=
  let normalized := lower value in
  if String.eqb normalized "debug" then Val Debug
  else if String.eqb normalized "info" then Val Info
  else if String.eqb normalized "warn" || String.eqb normalized "warning" then Val Warn
  else if String.eqb normalized "error" then Val Error
  else Exn ("unsupported log level: " +:+ value).

(** The singleton: the threshold and the lines written, newest first. *)
Record Logger := mkLogger { level_ : LogLevel; lines : list string }.

Definition instance : Logger := mkLogger Info [].

Definition setLevel (level : LogLevel) (lg : Logger) : Logger :=
  mkLogger level (lines lg).

Definition level (lg : Logger) : LogLevel := level_ lg.

(** [%-5s]: padded on the right to five columns. *)
Fixpoint pad (n : nat) (s : string) : string :=
  match n, s with
  | O, _ => s
  | S n', String c s' => String c (pad n' s')
  | S n', EmptyString => String " " (pad n' EmptyString)
  end.

(** What the first [fprintf] of [vlog] writes; [timestamp] is the text
    [strftime] makes of the clock. *)
Definition prefix (timestamp : string) (level : LogLevel) (file : string) (line : Z) : string :=
  "[" +:+ timestamp +:+ "] [" +:+ pad 5 (levelName level) +:+ "] ["
  +:+ baseName file +:+ ":" +:+ to_string line +:+ "] ".

(** [vlog]: the filter and the written line; [message] is the text [vfprintf]
    makes of the format and its arguments. *)
Definition vlog (timestamp : string) (level : LogLevel) (file : string) (line : Z)
    (message : string) (lg : Logger) : Logger :=
  if level_int level <? level_int (level_ lg) then lg
  else mkLogger (level_ lg) ((prefix timestamp level file line +:+ message) :: lines lg).

(** [log] hands its arguments on. *)
Definition log (timestamp : string) (level : LogLevel) (file : string) (line : Z)
    (message : string) (lg : Logger) : Logger :=
  vlog timestamp level file line message lg.

(** ** [baseName] *)

Definition no_slash (s : string) : Prop :=
  string_forall (λ c, negb (Ascii.eqb c "/")) s = true.

Lemma baseName_loop_no_slash r s : no_slash s → baseName_loop r s = r.
Proof.
  unfold no_slash. revert r. induction s as [|c s IH]; cbn; intros r Hs; [done|].
  apply andb_true_iff in Hs as [Hc Hs]. apply negb_true_iff in Hc. rewrite Hc. auto.
Qed.

Lemma baseName_loop_last r s f :
  no_slash f → baseName_loop r (s +:+ String "/" f) = f.
Proof.
  intros Hf. revert r. induction s as [|c s IH]; intros r; [|apply IH].
  cbn. by apply baseName_loop_no_slash.
Qed.

Lemma no_slash_dec s :
  no_slash s ∨ ∃ dir f, s = dir +:+ String "/" f ∧ no_slash f.
Proof.
  induction s as [|c s [Hs|(dir & f & -> & Hf)]]; [by left| |].
  - destruct (Ascii.eqb_spec c "/") as [->|Hc].
    + right. by exists EmptyString, s.
    + left. unfold no_slash in *. cbn. apply Ascii.eqb_neq in Hc. by rewrite Hc.
  - right. by exists (String c dir), f.
Qed.

(** [baseName] is what follows the last slash: on a path [dir/f] with no
    slash in [f] it is [f], on a path without slash it is the path, and every
    path is one of the two. *)
Theorem baseName_last_component path :
  (no_slash path ∧ baseName path = path) ∨
  ∃ dir f, path = dir +:+ String "/" f ∧ no_slash f ∧ baseName path = f.
Proof.
  destruct (no_slash_dec path) as [Hs|(dir & f & -> & Hf)].
  - left. split; [done|]. by apply baseName_loop_no_slash.
  - right. exists dir, f. split; [done|]. split; [done|]. by apply baseName_loop_last.
Qed.

(** ** Levels *)

Lemma lower_lower s : lower (lower s) = lower s.
Proof.
  unfold lower. rewrite string_map_map. apply string_map_ext, tolower_idemp.
Qed.

(** The keywords of the configuration file. *)
Definition keyword (l : LogLevel) (s : string) : Prop :=
  match l with
  | Debug => s = "debug"
  | Info => s = "info"
  | Warn => s = "warn" ∨ s = "warning"
  | Error => s = "error"
  end.

(** [parseLevel] accepts exactly the five level keywords, in any mixture
    of upper and lower case, and gives the level they name; everything else
    raises the exception carrying the original text. *)
Theorem parseLevel_spec value :
  (∀ l, parseLevel value = Val l ↔ keyword l (lower value)) ∧
  ((∀ l, ¬ keyword l (lower value)) →
   parseLevel value = Exn ("unsupported log level: " +:+ value)).
Proof.
  unfold parseLevel. cbv zeta. split.
  - intros l. generalize (lower value) as v. intros v.
    destruct (String.eqb_spec v "debug") as [->|];
      [by destruct l; split; try (intros [|]; done)|].
    destruct (String.eqb_spec v "info") as [->|];
      [by destruct l; split; try (intros [|]; done)|].
    destruct (String.eqb_spec v "warn") as [->|];
      [destruct l; split; cbn; auto; try (intros [|]; done); done|].
    destruct (String.eqb_spec v "warning") as [->|];
      [destruct l; split; cbn; auto; try (intros [|]; done); done|].
    destruct (String.eqb_spec v "error") as [->|];
      [by destruct l; split; try (intros [|]; done)|].
    destruct l; split; cbn; try done; by intros [|].
  - intros Hn. pose proof (Hn Debug). pose proof (Hn Info). pose proof (Hn Warn).
    pose proof (Hn Error). cbn in *.
    rewrite !(proj2 (String.eqb_neq _ _)) by tauto. done.
Qed.

End Logger.
