(* ===== verification/LoggerThreads.v ===== *)
(** * Logging from several threads ([Logger.cpp] under [mutex_])

    [Logger] treats a call of [vlog] as one step.  Here threads advance by
    single accesses: the mutex, the level, and the three writes to [stderr]
    that make a line.  The logger as a whole still behaves as if every call
    happened at one moment. *)

From S2P Require Import Prelude Text Logger.
Local Open Scope Z_scope.

Module LoggerThreads.
Import Logger.

(** What threads ask of the logger. *)
Inductive request :=
| Log (level : LogLevel) (file : string) (line : Z) (message : string)
| SetLevel (level : LogLevel).

(** Where a thread is: outside; in the critical section, before the level is
    looked at; after the prefix is written; after the message; at the end of
    the scope of the lock.  The text of the clock is kept once it is taken. *)
Inductive place :=
| Outside | Entered | Prefixed (timestamp : string) | Bodied (timestamp : string) | Leaving.

(** A thread: its place and the requests it has yet to finish. *)
Record thread := mkThread { place_of : place; todo : list request }.

(** [mutex_] with its holder, [level_], and what [stderr] received. *)
Record state := mkState {
  mutex_ : option nat;
  threshold : LogLevel;
  stderr : string;
  threads : list thread
}.

Definition newline : string := String "010" EmptyString.

Definition started (programs : list (list request)) : state :=
  mkState None (level_ instance) EmptyString (mkThread Outside <$> programs).

(** Thread [i] goes on with [t'], the rest being as given. *)
Definition become (i : nat) (t' : thread) m l out (s : state) : state :=
  mkState m l out (<[i := t']> (threads s)).

(** The next access of thread [i], the clock reading [now]; [None]: it waits
    for the mutex, or has nothing to do. *)
Definition access (i : nat) (now : string) (s : state) : option state :=
  t ← threads s !! i;
  let l := threshold s in
  match place_of t, todo t with
  | Outside, r :: rs =>
      match mutex_ s with
      | None => Some (become i (mkThread Entered (r :: rs)) (Some i) l (stderr s) s)
      | Some _ => None
      end
  | Entered, SetLevel l' :: rs =>
      Some (become i (mkThread Leaving rs) (mutex_ s) l' (stderr s) s)
  | Entered, Log lv file line message :: rs =>
      Some (if level_int lv <? level_int l then
              become i (mkThread Leaving rs) (mutex_ s) l (stderr s) s
            else become i (mkThread (Prefixed now) (todo t)) (mutex_ s) l
                   (stderr s +:+ prefix now lv file line) s)
  | Prefixed ts, Log _ _ _ message :: rs =>
      Some (become i (mkThread (Bodied ts) (todo t)) (mutex_ s) l (stderr s +:+ message) s)
  | Bodied ts, Log _ _ _ _ :: rs =>
      Some (become i (mkThread Leaving rs) (mutex_ s) l (stderr s +:+ newline) s)
  | Leaving, rs => Some (become i (mkThread Outside rs) None l (stderr s) s)
  | _, _ => None
  end.

Inductive step : state → state → Prop :=
| step_access i now s s' : access i now s = Some s' → step s s'.

(** ** Whole calls *)

(** A call that is over: its thread, the clock it read, what was asked. *)
Record call := mkCall { by_thread : nat; at_time : string; asked : request }.

Definition perform (lg : Logger) (c : call) : Logger :=
  match asked c with
  | Log lv file line message => log (at_time c) lv file line message lg
  | SetLevel lv => setLevel lv lg
  end.

(** The logger after the calls [h], one at a time. *)
Definition after (h : list call) : Logger := foldl perform instance h.

(** What was asked by thread [i], in order. *)
Definition asked_by (i : nat) (h : list call) : list request :=
  asked <$> filter (λ c, by_thread c = i) h.

(** The lines as [stderr] receives them. *)
Definition printed (lg : Logger) : string := foldr (λ l out, out +:+ l +:+ newline) EmptyString (lines lg).

(** The part of its line a thread has written. *)
Definition partial (t : thread) : string :=
  match place_of t, todo t with
  | Prefixed ts, Log lv file line _ :: _ => prefix ts lv file line
  | Bodied ts, Log lv file line message :: _ => prefix ts lv file line +:+ message
  | _, _ => EmptyString
  end.

(** The part of a line that is out without its end: the holder's. *)
Definition pending (s : state) : string :=
  match mutex_ s with
  | Some i => match threads s !! i with Some t => partial t | None => EmptyString end
  | None => EmptyString
  end.

(** A thread in the middle of a line writes one the level lets through. *)
Definition fits (l : LogLevel) (t : thread) : Prop :=
  match place_of t, todo t with
  | Entered, [] => False
  | (Prefixed _ | Bodied _), Log lv _ _ _ :: _ => level_int l <= level_int lv
  | (Prefixed _ | Bodied _), _ => False
  | _, _ => True
  end.

Record explained (programs : list (list request)) (h : list call) (s : state) : Prop := {
  explained_level : threshold s = level_ (after h);
  explained_out : stderr s = printed (after h) +:+ pending s;
  explained_lock : ∀ i t, threads s !! i = Some t → place_of t = Outside ↔ mutex_ s ≠ Some i;
  explained_holder : ∀ i, mutex_ s = Some i → is_Some (threads s !! i);
  explained_fits : ∀ i t, threads s !! i = Some t → fits (threshold s) t;
  explained_calls : ∀ i, (λ t, asked_by i h ++ todo t) <$> threads s !! i = programs !! i
}.

#[local] Arguments prefix : simpl never.

Lemma after_snoc h c : after (h ++ [c]) = perform (after h) c.
Proof. unfold after. by rewrite foldl_app. Qed.

Lemma partial_outside t : place_of t = Outside → partial t = EmptyString.
Proof. unfold partial. by intros ->. Qed.

Lemma asked_by_app i h new : asked_by i (h ++ new) = asked_by i h ++ asked_by i new.
Proof. unfold asked_by. by rewrite filter_app, fmap_app. Qed.

Lemma asked_by_own i new : Forall (λ c, by_thread c = i) new → asked_by i new = asked <$> new.
Proof.
  unfold asked_by. intros H. f_equal. induction H as [|c cs Hb _ IH]; [done|].
  by rewrite filter_cons_True, IH.
Qed.

Lemma asked_by_other i j new : Forall (λ c, by_thread c = i) new → j ≠ i → asked_by j new = [].
Proof.
  unfold asked_by. intros H Hj. induction H as [|c cs Hb _ IH]; [done|].
  rewrite filter_cons_False by congruence. exact IH.
Qed.

(** Who may move: the holder, or anyone while nobody holds the mutex. *)
Lemma explained_become programs h new s i t t' m l out :
  explained programs h s → threads s !! i = Some t →
  (mutex_ s = None ∨ mutex_ s = Some i) →
  m = (match place_of t' with Outside => None | _ => Some i end) →
  l = level_ (after (h ++ new)) →
  out = printed (after (h ++ new)) +:+ partial t' →
  fits l t' →
  Forall (λ c, by_thread c = i) new → (asked <$> new) ++ todo t' = todo t →
  explained programs (h ++ new) (become i t' m l out s).
Proof.
  intros [Hl Ho Hk Hh Hf Hc] Ht Hm Em El Eo Hf' Hnew Htodo.
  assert (i < length (threads s))%nat as Hi by (by eapply lookup_lt_Some).
  assert (∀ j t1, j ≠ i → threads s !! j = Some t1 → place_of t1 = Outside) as Hout.
  { intros j t1 Hj Hj1. apply (Hk j t1 Hj1). destruct Hm as [-> | ->]; congruence. }
  split; cbn; [done| | | | |].
  - rewrite Eo. f_equal. unfold pending. cbn. rewrite Em.
    destruct (place_of t') eqn:Hp; [by apply partial_outside|..]; by rewrite list_lookup_insert_eq.
  - intros j t1 Hj. destruct (decide (j = i)) as [->|Hne].
    + rewrite list_lookup_insert_eq in Hj by done. injection Hj as <-. rewrite Em.
      destruct (place_of t'); naive_solver.
    + rewrite list_lookup_insert_ne in Hj by done. rewrite (Hout j t1 Hne Hj), Em.
      destruct (place_of t'); split; congruence.
  - intros j Hj. rewrite Em in Hj. assert (j = i) as -> by (destruct (place_of t'); congruence).
    by rewrite list_lookup_insert_eq.
  - intros j t1 Hj. destruct (decide (j = i)) as [->|Hne].
    + rewrite list_lookup_insert_eq in Hj by done. by injection Hj as <-.
    + rewrite list_lookup_insert_ne in Hj by done. unfold fits. by rewrite (Hout j t1 Hne Hj).
  - intros j. specialize (Hc j). rewrite <- Hc. destruct (decide (j = i)) as [->|Hne].
    + rewrite list_lookup_insert_eq, Ht by done. cbn. f_equal.
      rewrite asked_by_app, <- Htodo, <- app_assoc. f_equal. f_equal. by apply asked_by_own.
    + rewrite list_lookup_insert_ne by done. destruct (threads s !! j); [|done]. cbn. do 2 f_equal.
      by rewrite asked_by_app, (asked_by_other i j new), app_nil_r.
Qed.

(** A call takes effect with the last access that has any. *)
Lemma step_explained programs h s s' :
  explained programs h s → step s s' →
  ∃ new, explained programs (h ++ new) s'.
Proof.
  intros He Hs. destruct Hs as [i now s1 s2 Ha]. pose proof He as [Hl Ho Hk _ Hf Hc].
  unfold access in Ha. destruct (threads s1 !! i) as [[p rs]|] eqn:Ht; [|done]. cbn in Ha.
  specialize (Hf i _ Ht). specialize (Hk i _ Ht). cbn in Hk.
  assert (p ≠ Outside → mutex_ s1 = Some i ∧ pending s1 = partial (mkThread p rs)) as Hm.
  { intros Hq. assert (mutex_ s1 = Some i) as Hm by (destruct (decide (mutex_ s1 = Some i)); [done|naive_solver]).
    split; [done|]. unfold pending. by rewrite Hm, Ht. }
  destruct p as [| |ts|ts|]; try (destruct Hm as [Hmx Hp]; [done|]; rewrite Hp in Ho).
  - destruct rs as [|r rs]; [done|]. destruct (mutex_ s1) eqn:Hmx; [done|]. injection Ha as <-.
    exists []. eapply explained_become; rewrite ?app_nil_r; eauto.
    unfold pending in Ho. by rewrite Hmx in Ho.
  - destruct rs as [|[lv file line message|lv] rs]; [done| |]; injection Ha as <-.
    + destruct (level_int lv <? level_int (threshold s1)) eqn:Hlt.
      * exists [mkCall i now (Log lv file line message)].
        eapply explained_become; rewrite ?after_snoc; unfold perform, log, vlog; cbn; eauto;
          by rewrite <- ?Hl, Hlt.
      * exists []. eapply explained_become; rewrite ?app_nil_r; eauto.
        { rewrite Ho. cbn. by rewrite string_app_empty. }
        unfold fits. cbn. lia.
    + exists [mkCall i now (SetLevel lv)]. eapply explained_become; rewrite ?after_snoc; eauto.
  - destruct rs as [|[lv file line message|lv] rs]; [done| |done]. injection Ha as <-.
    exists []. eapply explained_become; rewrite ?app_nil_r; eauto.
    rewrite Ho. cbn. by rewrite string_app_assoc.
  - destruct rs as [|[lv file line message|lv] rs]; [done| |done]. injection Ha as <-.
    unfold fits in Hf. cbn in Hf.
    assert ((level_int lv <? level_int (threshold s1)) = false) as Hlt by lia.
    exists [mkCall i ts (Log lv file line message)].
    eapply explained_become; rewrite ?after_snoc; unfold perform, log, vlog; cbn; eauto;
      rewrite <- ?Hl, Hlt; [done|]. rewrite Ho. cbn. by rewrite string_app_empty, !string_app_assoc.
  - injection Ha as <-. exists []. eapply explained_become; rewrite ?app_nil_r; eauto.
Qed.

Lemma reachable_explained programs s :
  rtc step (started programs) s → ∃ h, explained programs h s.
Proof.
  revert s. apply (rtc_ind_r (λ s, ∃ h, explained programs h s)).
  - exists []. split; cbn; [done|done| |done| |].
    + intros i t Hi. apply list_lookup_fmap_Some in Hi as (p & -> & _). by split.
    + intros i t Hi. by apply list_lookup_fmap_Some in Hi as (p & -> & _).
    + intros i. rewrite list_lookup_fmap. by destruct (programs !! i).
  - intros s1 s2 _ Hs [h He]. destruct (step_explained _ _ _ _ He Hs) as [new He']. eauto.
Qed.

(** The holder can always go on; while nobody holds the mutex anyone can. *)
Lemma stuck_done programs h s :
  explained programs h s → (∀ i now, access i now s = None) →
  pending s = EmptyString ∧ ∀ i p, programs !! i = Some p → asked_by i h = p.
Proof.
  intros [_ _ Hk Hh Hf Hc] Hst.
  assert (mutex_ s = None) as Hm.
  { destruct (mutex_ s) as [i|] eqn:Hm; [exfalso|done]. destruct (Hh i eq_refl) as [[p rs] Ht].
    specialize (Hst i EmptyString). specialize (Hf i _ Ht). specialize (Hk i _ Ht).
    unfold access in Hst. rewrite Ht in Hst. unfold fits in Hf. cbn in *.
    destruct p, rs as [|[] rs]; naive_solver. }
  split; [unfold pending; by rewrite Hm|]. intros i p Hp. rewrite <- Hc in Hp.
  destruct (threads s !! i) as [[q rs]|] eqn:Ht; [|done]. injection Hp as <-.
  specialize (Hst i EmptyString). specialize (Hk i _ Ht). unfold access in Hst. rewrite Ht, Hm in Hst.
  cbn in *. destruct Hk as [_ Hk]. rewrite Hk in Hst by congruence. destruct rs; [|done].
  by rewrite app_nil_r.
Qed.

(** The accesses a thread still needs, at most. *)
Definition left_over (t : thread) : nat :=
  match place_of t with
  | Outside => 5 * length (todo t)
  | Entered => 5 * length (todo t) - 1
  | Prefixed _ => 5 * length (todo t) - 2
  | Bodied _ => 5 * length (todo t) - 3
  | Leaving => 5 * length (todo t) + 1
  end.

Definition work (s : state) : nat := sum_list_with left_over (threads s).

Lemma step_works s s' : step s s' → (work s' < work s)%nat.
Proof.
  intros Hs. destruct Hs as [i now s s' Ha]. unfold access in Ha.
  destruct (threads s !! i) as [t|] eqn:Ht; [|done]. cbn in Ha.
  assert (∃ t' m l out, s' = become i t' m l out s ∧ (left_over t' < left_over t)%nat)
    as (t' & m & l & out & -> & Hlt).
  { unfold left_over. destruct t as [[] [|[] rs]]; cbn in *; repeat case_match; simplify_eq;
      do 4 eexists; (split; [reflexivity|]); cbn; lia. }
  unfold work. cbn. apply list_elem_of_split_length in Ht as (ts1 & ts2 & Hts & ->).
  rewrite Hts, insert_app_r_alt, Nat.sub_diag by lia. cbn. rewrite !sum_list_with_app. cbn. lia.
Qed.

Lemma run_works n s s' : nsteps step n s s' → (n + work s' <= work s)%nat.
Proof. induction 1 as [|n s1 s2 s3 Hs _ IH]; [done|]. apply step_works in Hs. lia. Qed.

Lemma started_work programs :
  work (started programs) = (5 * sum_list_with length programs)%nat.
Proof.
  unfold work. cbn. induction programs as [|p ps IH]; [done|]. cbn.
  rewrite IH. unfold left_over. cbn. lia.
Qed.

(** C28: the logger is linearizable.  Let any number of threads log lines and
    set the level, interleaved access by access.  At every moment [stderr] and
    the level are what some sequence of whole calls leaves, one at a time,
    plus the beginning of at most one line, that of the thread in the critical
    section; the calls of a thread are in the sequence in its own order.  No
    run takes more than five accesses per call, and when nobody can go on
    every call has been made: lines are never mixed, lost or repeated, and
    nobody waits for ever. *)
Theorem log_linearizable programs n s :
  nsteps step n (started programs) s →
  (n <= 5 * sum_list_with length programs)%nat ∧
  ∃ h, threshold s = level (after h) ∧
    stderr s = printed (after h) +:+ pending s ∧
    (∀ i p, programs !! i = Some p → asked_by i h `prefix_of` p) ∧
    ((∀ i now, access i now s = None) →
     pending s = EmptyString ∧ ∀ i p, programs !! i = Some p → asked_by i h = p).
Proof.
  intros Hs. split; [apply run_works in Hs; rewrite started_work in Hs; lia|].
  apply rtc_nsteps_2 in Hs. destruct (reachable_explained _ _ Hs) as [h He]. exists h.
  pose proof (stuck_done _ _ _ He) as Hd. destruct He as [Hl Ho _ _ _ Hc].
  split; [done|]. split; [done|]. split; [|done].
  intros i p Hp. rewrite <- Hc in Hp. destruct (threads s !! i); [|done]. injection Hp as <-.
  by apply prefix_app_r.
Qed.

(** Two threads: one raises the level and logs, the other logs below it. *)
Definition two : list (list request) :=
  [[SetLevel Warn; Log Error "src/a.cpp" 7 "down"]; [Log Info "src/b.cpp" 9 "up"]].

Fixpoint follow (order : list nat) (s : state) : option state :=
  match order with
  | [] => Some s
  | i :: order => s' ← access i "t" s; follow order s'
  end.

Lemma follow_steps order s s' : follow order s = Some s' → nsteps step (length order) s s'.
Proof.
  revert s. induction order as [|i order IH]; intros s; cbn; [intros [= ->]; constructor|].
  destruct (access i "t" s) as [s1|] eqn:Ha; [|done]. cbn. intros H.
  econstructor; [by econstructor|]. by apply IH.
Qed.

Lemma log_linearizable_witness : ∃ s h,
  follow [1; 1; 1; 1; 1; 0; 0; 0; 0; 0; 0]%nat (started two) = Some s ∧
  stderr s = printed (after h) +:+ "[t] [ERROR] [a.cpp:7] down" ∧ threshold s = level (after h).
Proof.
  destruct (follow [1; 1; 1; 1; 1; 0; 0; 0; 0; 0; 0]%nat (started two)) as [s|] eqn:Hs;
    [|vm_compute in Hs; discriminate].
  destruct (log_linearizable two 11 s) as (_ & h & Hl & Ho & _); [exact (follow_steps _ _ _ Hs)|].
  exists s, h. split; [reflexivity|]. split; [|exact Hl]. rewrite Ho. f_equal.
  vm_compute in Hs. injection Hs as <-. vm_compute. reflexivity.
Defined.
End LoggerThreads.
