(* ===== verification/Config.v ===== *)
(** * Configuration ([include/fluxgate/Config.h], [src/Config.cpp])

    The strict INI loader: [load] goes through the file line by line with the
    loader's local variables as state, [parseLong] wraps [std::stol], the two
    [assign] functions map keys to fields, and the checks after the loop
    complete the validation.  The theorems show what a successful load
    guarantees and what is refused; [ConfigText] shows that loading inverts
    rendering. *)

From S2P Require Import Prelude Text.
Local Open Scope Z_scope.

Module Config.

(** ** Data *)

Record BackendConfig := mkBackendConfig {
  name : string;
  host : string;
  port : Z;
  weight : Z
}.

Record AppConfig := mkAppConfig {
  listenHost : string;
  listenPort : Z;
  workers : Z;
  backlog : Z;
  maxEvents : Z;
  bufferSize : Z;
  connectTimeoutMs : Z;
  idleTimeoutSeconds : Z;
  statsIntervalSeconds : Z;
  healthCheckIntervalMs : Z;
  healthCheckTimeoutMs : Z;
  healthCheckFailureThreshold : Z;
  healthCheckSuccessThreshold : Z;
  logLevel : string;
  backends : list BackendConfig
}.

(** [AppConfig::AppConfig()]. *)
Definition AppConfig_default : AppConfig := {|
  listenHost := "0.0.0.0";
  listenPort := 8080;
  workers := 4;
  backlog := 1024;
  maxEvents := 2048;
  bufferSize := 64 * 1024;
  connectTimeoutMs := 3000;
  idleTimeoutSeconds := 60;
  statsIntervalSeconds := 10;
  healthCheckIntervalMs := 3000;
  healthCheckTimeoutMs := 800;
  healthCheckFailureThreshold := 3;
  healthCheckSuccessThreshold := 2;
  logLevel := "info";
  backends := []
|}.

(** Assignments to one field. *)
Definition set_listenHost v c := let '(mkAppConfig _ b d e f g h i j k l m n o p) := c in mkAppConfig v b d e f g h i j k l m n o p.
Definition set_listenPort v c := let '(mkAppConfig a _ d e f g h i j k l m n o p) := c in mkAppConfig a v d e f g h i j k l m n o p.
Definition set_workers v c := let '(mkAppConfig a b _ e f g h i j k l m n o p) := c in mkAppConfig a b v e f g h i j k l m n o p.
Definition set_backlog v c := let '(mkAppConfig a b d _ f g h i j k l m n o p) := c in mkAppConfig a b d v f g h i j k l m n o p.
Definition set_maxEvents v c := let '(mkAppConfig a b d e _ g h i j k l m n o p) := c in mkAppConfig a b d e v g h i j k l m n o p.
Definition set_bufferSize v c := let '(mkAppConfig a b d e f _ h i j k l m n o p) := c in mkAppConfig a b d e f v h i j k l m n o p.
Definition set_connectTimeoutMs v c := let '(mkAppConfig a b d e f g _ i j k l m n o p) := c in mkAppConfig a b d e f g v i j k l m n o p.
Definition set_idleTimeoutSeconds v c := let '(mkAppConfig a b d e f g h _ j k l m n o p) := c in mkAppConfig a b d e f g h v j k l m n o p.
Definition set_statsIntervalSeconds v c := let '(mkAppConfig a b d e f g h i _ k l m n o p) := c in mkAppConfig a b d e f g h i v k l m n o p.
Definition set_healthCheckIntervalMs v c := let '(mkAppConfig a b d e f g h i j _ l m n o p) := c in mkAppConfig a b d e f g h i j v l m n o p.
Definition set_healthCheckTimeoutMs v c := let '(mkAppConfig a b d e f g h i j k _ m n o p) := c in mkAppConfig a b d e f g h i j k v m n o p.
Definition set_healthCheckFailureThreshold v c := let '(mkAppConfig a b d e f g h i j k l _ n o p) := c in mkAppConfig a b d e f g h i j k l v n o p.
Definition set_healthCheckSuccessThreshold v c := let '(mkAppConfig a b d e f g h i j k l m _ o p) := c in mkAppConfig a b d e f g h i j k l m v o p.
Definition set_logLevel v c := let '(mkAppConfig a b d e f g h i j k l m n _ p) := c in mkAppConfig a b d e f g h i j k l m n v p.
Definition push_backend v c := let '(mkAppConfig a b d e f g h i j k l m n o p) := c in mkAppConfig a b d e f g h i j k l m n o (p ++ [v]).

(** ** Text helpers of Config.cpp *)

(** The second loop of [trim]: [end] moves left from [n] while it is not at
    [begin] and the character before it is a space. *)
Fixpoint trim_end (n : nat) (s : string) : nat :=
  match n with
  | O => O
  | S n' =>
      match String.get n' s with
      | Some c => if isspace c then trim_end n' s else n
      | None => n
      end
  end.

Definition trim (value : string) : string :=
  let rest := skip_space value in
  substr_to (trim_end (String.length rest) rest) rest.

Definition lower (value : string) : string := string_map tolower value.

Definition parseLong {S} (value key : string) (minimum maximum : Z) : ST S Z :=
  match stol value with
  | None => throw ("invalid integer for '" +:+ key +:+ "': " +:+ value)
  | Some (result, consumed) =>
      if negb (consumed =? String.length value)%nat
         || (result <? minimum) || (maximum <? result)
      then throw ("value out of range for '" +:+ key +:+ "': " +:+ value)
      else mret result
  end.

Definition assignServerValue (key value : string) : ST AppConfig unit :=
  if String.eqb key "listen_host" then modify (set_listenHost value)
  else if String.eqb key "listen_port" then
    n ← parseLong value key 1 65535; modify (set_listenPort (u16 n))
  else if String.eqb key "workers" then
    n ← parseLong value key 1 128; modify (set_workers (u64 n))
  else if String.eqb key "backlog" then
    n ← parseLong value key 16 65535; modify (set_backlog (i32 n))
  else if String.eqb key "max_events" then
    n ← parseLong value key 16 65536; modify (set_maxEvents (u64 n))
  else if String.eqb key "buffer_size" then
    n ← parseLong value key 4096 (16 * 1024 * 1024); modify (set_bufferSize (u64 n))
  else if String.eqb key "connect_timeout_ms" then
    n ← parseLong value key 50 60000; modify (set_connectTimeoutMs (i32 n))
  else if String.eqb key "idle_timeout_seconds" then
    n ← parseLong value key 1 86400; modify (set_idleTimeoutSeconds (i32 n))
  else if String.eqb key "stats_interval_seconds" then
    n ← parseLong value key 0 3600; modify (set_statsIntervalSeconds (i32 n))
  else if String.eqb key "log_level" then modify (set_logLevel (lower value))
  else throw ("unknown key in [server]: " +:+ key).

Definition assignHealthValue (key value : string) : ST AppConfig unit :=
  if String.eqb key "interval_ms" then
    n ← parseLong value key 200 600000; modify (set_healthCheckIntervalMs (i32 n))
  else if String.eqb key "timeout_ms" then
    n ← parseLong value key 50 60000; modify (set_healthCheckTimeoutMs (i32 n))
  else if String.eqb key "failure_threshold" then
    n ← parseLong value key 1 100; modify (set_healthCheckFailureThreshold (u64 n))
  else if String.eqb key "success_threshold" then
    n ← parseLong value key 1 100; modify (set_healthCheckSuccessThreshold (u64 n))
  else throw ("unknown key in [health_check]: " +:+ key).

(** ** [ConfigLoader::load] *)

(** The local variables of [load]. *)
Record loader := mkLoader {
  config : AppConfig;
  section : string;
  currentBackend : BackendConfig;
  insideBackend : bool;
  backendHasHost : bool;
  backendHasPort : bool;
  lineNumber : Z
}.

Definition loader_start : loader := {|
  config := AppConfig_default;
  section := "";
  currentBackend := mkBackendConfig "" "" 0 0;
  insideBackend := false;
  backendHasHost := false;
  backendHasPort := false;
  lineNumber := 0
|}.

#[export] Instance loader_config : Lens loader AppConfig := {|
  view := config;
  upd c st := mkLoader c (section st) (currentBackend st) (insideBackend st)
                (backendHasHost st) (backendHasPort st) (lineNumber st)
|}.

Definition set_section v st :=
  mkLoader (config st) v (currentBackend st) (insideBackend st)
    (backendHasHost st) (backendHasPort st) (lineNumber st).

Definition set_lineNumber v st :=
  mkLoader (config st) (section st) (currentBackend st) (insideBackend st)
    (backendHasHost st) (backendHasPort st) v.

(** The current backend with its three flags. *)
Definition set_backend b inside hasHost hasPort st :=
  mkLoader (config st) (section st) b inside hasHost hasPort (lineNumber st).

Definition finishBackend : ST loader unit :=
  st ← gets (λ st, st);
  if negb (insideBackend st) then mret tt
  else if is_empty (name (currentBackend st)) || negb (backendHasHost st)
          || negb (backendHasPort st)
  then throw "backend section requires name, host and port"
  else zoom (modify (push_backend (currentBackend st))).

(** [[section]] lines. *)
Definition openSection (line : string) : ST loader unit :=
  finishBackend ;;
  modify (set_backend (mkBackendConfig "" "" 0 1) false false false) ;;
  lineNumber ← gets lineNumber;
  let section := trim (substr_to (String.length line - 2) (substr_from 1 line)) in
  let normalized := lower section in
  if String.eqb normalized "server" || String.eqb normalized "health_check" then
    modify (set_section normalized)
  else if String.eqb (substr_to 8 normalized) "backend " then
    let backendName := trim (substr_from 8 section) in
    modify (set_backend (mkBackendConfig backendName "" 0 1) false false false) ;;
    if is_empty backendName
    then throw ("empty backend name at line " +:+ to_string lineNumber)
    else
      modify (set_section "backend") ;;
      modify (set_backend (mkBackendConfig backendName "" 0 1) true false false)
  else throw ("unknown section at line " +:+ to_string lineNumber +:+ ": " +:+ section).

(** [key = value] lines of a backend section. *)
Definition assignBackendValue (key value : string) : ST loader unit :=
  st ← gets (λ st, st);
  let b := currentBackend st in
  if String.eqb key "host" then
    modify (set_backend (mkBackendConfig (name b) value (port b) (weight b))
              (insideBackend st) true (backendHasPort st))
  else if String.eqb key "port" then
    n ← parseLong value key 1 65535;
    modify (set_backend (mkBackendConfig (name b) (host b) (u16 n) (weight b))
              (insideBackend st) (backendHasHost st) true)
  else if String.eqb key "weight" then
    n ← parseLong value key 1 1000;
    modify (set_backend (mkBackendConfig (name b) (host b) (port b) (u64 n))
              (insideBackend st) (backendHasHost st) (backendHasPort st))
  else throw ("unknown backend key at line " +:+ to_string (lineNumber st)
              +:+ ": " +:+ key).

(** The assignment a [key = value] line makes in the section it is in. *)
Definition assignKey (key value : string) : ST loader unit :=
  st ← gets (λ st, st);
  if String.eqb (section st) "server" then zoom (assignServerValue key value)
  else if String.eqb (section st) "health_check" then
    zoom (assignHealthValue key value)
  else if String.eqb (section st) "backend" && insideBackend st then
    assignBackendValue key value
  else throw ("key appears before a valid section at line "
              +:+ to_string (lineNumber st)).

(** [key = value] lines. *)
Definition assignLine (line : string) : ST loader unit :=
  st ← gets (λ st, st);
  match find_first (Ascii.eqb "=") line with
  | None => throw ("expected key=value at line " +:+ to_string (lineNumber st))
  | Some separator =>
      let key := lower (trim (substr_to separator line)) in
      let value := trim (substr_from (separator + 1) line) in
      if is_empty key || is_empty value
      then throw ("empty key or value at line " +:+ to_string (lineNumber st))
      else assignKey key value
  end.

Definition is_comment (c : ascii) : bool := Ascii.eqb c "#" || Ascii.eqb c ";".

Definition stripComment (line : string) : string :=
  match find_first is_comment line with
  | Some comment => substr_to comment line
  | None => line
  end.

Definition is_header (line : string) : bool :=
  bool_decide (front line = Some "["%char) && bool_decide (back line = Some "]"%char).

(** The body of the [getline] loop. *)
Definition loadLine (raw : string) : ST loader unit :=
  modify (λ st, set_lineNumber (u64 (lineNumber st + 1)) st) ;;
  let line := trim (stripComment raw) in
  if is_empty line then mret tt
  else if is_header line then openSection line
  else assignLine line.

(** The duplicate check: [names] is the [std::map<std::string, bool>]. *)
Fixpoint checkNames {S} (bs : list BackendConfig) (names : gmap string bool) :
    ST S unit :=
  match bs with
  | [] => mret tt
  | b :: bs' =>
      if default false (names !! name b)
      then throw ("duplicate backend name: " +:+ name b)
      else checkNames bs' (<[name b := true]> names)
  end.

Definition loadText (text : string) : ST loader unit :=
  for_each loadLine (getlines text) ;;
  finishBackend ;;
  st ← gets (λ st, st);
  let c := config st in
  if bool_decide (backends c = []) then throw "at least one backend is required"
  else if healthCheckIntervalMs c <=? healthCheckTimeoutMs c
  then throw "health_check.timeout_ms must be smaller than interval_ms"
  else checkNames (backends c) ∅.

(** [file]: the contents of the file at [path], [None] if it cannot be
    opened. *)
Definition load (path : string) (file : option string) : outcome AppConfig :=
  match file with
  | None => Exn ("cannot open config file: " +:+ path)
  | Some text =>
      match loadText text loader_start with
      | (Val _, st) => Val (config st)
      | (Exn e, _) => Exn e
      | (NoFuel, _) => NoFuel
      end
  end.

(** ** [trim] *)

Definition edge_ok (o : option ascii) : Prop :=
  match o with Some c => isspace c = false | None => True end.

(** Neither end is white space. *)
Definition trimmed (s : string) : Prop := edge_ok (front s) ∧ edge_ok (back s).

Lemma skip_space_front s : edge_ok (front (skip_space s)).
Proof.
  induction s as [|c s IH]; cbn; [done|]. destruct (isspace c) eqn:Hc; done.
Qed.

Lemma get_back s : s ≠ EmptyString → String.get (String.length s - 1) s = back s.
Proof.
  induction s as [|c s IH]; [done|]. intros _. cbn. rewrite Nat.sub_0_r.
  destruct s as [|d s]; [done|]. rewrite <- IH by done. cbn. by rewrite Nat.sub_0_r.
Qed.

Lemma trim_end_le n s : (trim_end n s ≤ n)%nat.
Proof.
  induction n as [|n IH]; cbn; [done|]. repeat case_match; lia.
Qed.

Lemma trim_end_edge n s : (0 < trim_end n s)%nat →
  edge_ok (String.get (trim_end n s - 1) s).
Proof.
  induction n as [|n IH]; cbn [trim_end]; [lia|].
  destruct (String.get n s) as [c|] eqn:Hc; [destruct (isspace c) eqn:Hs; [done|]|];
    intros _; replace (S n - 1)%nat with n by lia; by rewrite Hc.
Qed.

Lemma back_substr_to n s : (0 < n ≤ String.length s)%nat →
  back (substr_to n s) = String.get (n - 1) s.
Proof.
  revert n. induction s as [|c s IH]; cbn; intros n Hn; [lia|].
  destruct n as [|n]; [lia|]. cbn. rewrite Nat.sub_0_r.
  destruct n as [|n]; cbn; [done|]. destruct s as [|d s]; cbn in *; [lia|].
  specialize (IH (S n) ltac:(lia)). cbn in IH. by rewrite Nat.sub_0_r in IH.
Qed.

Lemma front_substr_to n s : (0 < n)%nat → front (substr_to n s) = front s.
Proof. destruct n, s; cbn; [lia..|done|done]. Qed.

Lemma trim_trimmed s : trimmed (trim s).
Proof.
  unfold trim. cbv zeta. set (r := skip_space s).
  pose proof (skip_space_front s) as Hf. fold r in Hf.
  pose proof (trim_end_le (String.length r) r) as Hl.
  pose proof (trim_end_edge (String.length r) r) as He.
  destruct (trim_end (String.length r) r) as [|n]; [by destruct r|].
  split.
  - rewrite front_substr_to by lia. done.
  - rewrite back_substr_to by lia. apply He. lia.
Qed.

Lemma substr_to_all s : substr_to (String.length s) s = s.
Proof. induction s; cbn; congruence. Qed.

Lemma trim_end_all s : edge_ok (back s) → trim_end (String.length s) s = String.length s.
Proof.
  intros He. destruct s as [|c s]; [done|].
  pose proof (get_back (String c s) ltac:(done)) as Hg.
  cbn [trim_end String.length] in *. rewrite Nat.sub_succ, Nat.sub_0_r in Hg.
  rewrite Hg. destruct (back (String c s)) as [d|]; [|done]. cbn in He. by rewrite He.
Qed.

Lemma trim_id s : trimmed s → trim s = s.
Proof.
  intros [Hf Hb]. unfold trim. cbv zeta.
  assert (skip_space s = s) as ->.
  { destruct s as [|c s]; cbn in *; [done|]. by rewrite Hf. }
  rewrite trim_end_all by done. apply substr_to_all.
Qed.

Lemma trim_space s : trim (String " " s) = trim s.
Proof. done. Qed.

Lemma trim_idemp s : trim (trim s) = trim s.
Proof. apply trim_id, trim_trimmed. Qed.

Lemma lower_idemp s : lower (lower s) = lower s.
Proof. unfold lower. rewrite string_map_map. apply string_map_ext, tolower_idemp. Qed.

(** ** [parseLong] *)

Lemma parseLong_wp {S} value key lo hi (Q : outcome Z → S → Prop) s :
  (∀ n, lo <= n <= hi → Q (Val n) s) → (∀ e, Q (Exn e) s) →
  wp (parseLong value key lo hi) Q s.
Proof.
  intros Hv He. unfold parseLong. destruct (stol value) as [[n c]|]; [|apply He].
  case_match eqn:Hc; [apply He|]. apply wp_ret, Hv.
  rewrite !orb_false_iff in Hc. lia.
Qed.

Lemma parseLong_to_string {S} n key lo hi (s : S) :
  0 <= n → lo <= n <= hi → hi <= 2 ^ 63 - 1 →
  parseLong (to_string n) key lo hi s = (Val n, s).
Proof.
  intros Hn Hr Hh. unfold parseLong. rewrite stol_to_string by (unfold long_max; lia).
  rewrite Nat.eqb_refl. cbn.
  by assert (((n <? lo) || (hi <? n)) = false) as -> by lia.
Qed.

(** ** What a successful load guarantees *)

Definition valid_backend (b : BackendConfig) : Prop :=
  name b ≠ "" ∧ host b ≠ "" ∧ 1 <= port b <= 65535 ∧ 1 <= weight b <= 1000.

(** The documented range of every numeric setting. *)
Definition fields_ok (c : AppConfig) : Prop :=
  1 <= listenPort c <= 65535 ∧ 1 <= workers c <= 128 ∧
  16 <= backlog c <= 65535 ∧ 16 <= maxEvents c <= 65536 ∧
  4096 <= bufferSize c <= 16 * 1024 * 1024 ∧
  50 <= connectTimeoutMs c <= 60000 ∧ 1 <= idleTimeoutSeconds c <= 86400 ∧
  0 <= statsIntervalSeconds c <= 3600 ∧
  200 <= healthCheckIntervalMs c <= 600000 ∧
  50 <= healthCheckTimeoutMs c <= 60000 ∧
  1 <= healthCheckFailureThreshold c <= 100 ∧
  1 <= healthCheckSuccessThreshold c <= 100 ∧
  listenHost c ≠ "" ∧ lower (logLevel c) = logLevel c.

Definition valid_config (c : AppConfig) : Prop :=
  fields_ok c ∧ Forall valid_backend (backends c) ∧ backends c ≠ [] ∧
  NoDup (name <$> backends c) ∧ healthCheckTimeoutMs c < healthCheckIntervalMs c.

(** The loop invariant of [load]. *)
Definition pending_ok (st : loader) : Prop :=
  insideBackend st = true →
  name (currentBackend st) ≠ "" ∧ 1 <= weight (currentBackend st) <= 1000 ∧
  (backendHasHost st = true → host (currentBackend st) ≠ "") ∧
  (backendHasPort st = true → 1 <= port (currentBackend st) <= 65535).

Definition loader_ok (st : loader) : Prop :=
  fields_ok (config st) ∧ Forall valid_backend (backends (config st)) ∧ pending_ok st.

Lemma is_empty_false s : is_empty s = false ↔ s ≠ "".
Proof. by destruct s. Qed.

(** Every key assignment keeps the ranges and leaves the backend list alone. *)
Definition assigns_ok (m : ST AppConfig unit) : Prop :=
  ∀ c, fields_ok c → wp m (λ _ c', fields_ok c' ∧ backends c' = backends c) c.

Ltac assign_case :=
  lazymatch goal with
  | |- wp (modify _) _ _ => apply wp_modify
  | |- wp (parseLong _ _ _ _ ≫= _) _ _ =>
      apply wp_bind, parseLong_wp;
      [intros n Hn; cbn; apply wp_modify | intros e; cbn; tauto]
  | |- wp (throw _) _ _ => apply wp_throw; tauto
  | |- wp (if ?b then _ else _) _ _ => destruct b; [|assign_case]; try assign_case
  end.

Ltac range_case :=
  match goal with
  | c : AppConfig |- _ => destruct c; unfold fields_ok in *; cbn in *
  end;
  rewrite ?u16_small, ?u64_small, ?i32_small by (unfold is_u64; lia);
  rewrite ?lower_idemp; repeat split; first [lia | tauto | done].

Lemma assignServerValue_ok key value : value ≠ "" → assigns_ok (assignServerValue key value).
Proof.
  intros Hv c Hc. unfold assignServerValue. assign_case. all: range_case.
Qed.

Lemma assignHealthValue_ok key value : assigns_ok (assignHealthValue key value).
Proof. intros c Hc. unfold assignHealthValue. assign_case. all: range_case. Qed.

Lemma preserves_assign m : assigns_ok m → preserves loader_ok (zoom m).
Proof.
  intros Hm st (Hf & Hb & Hp). change (wp (zoom m) (λ _, loader_ok) st). apply wp_zoom.
  eapply wp_mono; [by apply Hm|]. intros o c' [Hf' Hb']; cbn in *.
  split; [done|]. split; [cbn; by rewrite Hb'|done].
Qed.

Lemma preserves_finishBackend : preserves loader_ok finishBackend.
Proof.
  intros [c sec b [] hh hp n] (Hf & Hb & Hp); cbn; [|done].
  unfold finishBackend, gets, mbind, ST_bind; cbn.
  destruct (is_empty (name b) || negb hh || negb hp) eqn:He; cbn; [done|].
  rewrite !orb_false_iff, !negb_false_iff in He. destruct He as [[Hn ->] ->].
  destruct (Hp eq_refl) as (Hnm & Hw & Hh & Hpt); cbn in *.
  destruct c; cbn in *. split; [done|]. split; [|by intros _]. cbn.
  apply Forall_app. split; [done|]. apply Forall_singleton. split; [done|]. auto.
Qed.

Lemma preserves_modify {S} (I : S → Prop) f : (∀ s, I s → I (f s)) → preserves I (modify f).
Proof. done. Qed.

Lemma preserves_openSection line : preserves loader_ok (openSection line).
Proof.
  unfold openSection. apply preserves_bind; [apply preserves_finishBackend|intros _].
  apply preserves_bind; [by apply preserves_modify; intros ? (?&?&?)|intros _].
  apply preserves_bind; [apply preserves_gets|intros n]. cbv zeta.
  apply preserves_if; intros _; [by apply preserves_modify|].
  apply preserves_if; intros _; [|apply preserves_throw].
  apply preserves_bind; [by apply preserves_modify; intros ? (?&?&?)|intros _].
  apply preserves_if; intros He; [apply preserves_throw|].
  apply preserves_bind; [by apply preserves_modify|intros _].
  apply preserves_modify. intros st (?&?&?). split; [done|]. split; [done|].
  intros _. cbn. apply is_empty_false in He. repeat split; auto; done || lia.
Qed.

Lemma preserves_assignBackendValue key value :
  value ≠ "" → preserves loader_ok (assignBackendValue key value).
Proof.
  intros Hv st Hst. pose proof Hst as (Hf & Hb & Hp).
  change (wp (assignBackendValue key value) (λ _, loader_ok) st).
  apply wp_bind, wp_gets; cbn.
  repeat case_match; [apply wp_modify| | |by apply wp_throw].
  2-3: apply wp_bind, parseLong_wp; [intros n Hn; cbn; apply wp_modify|by intros].
  all: split; [done|]; split; [done|]; intros Hi; destruct (Hp Hi) as (?&?&?&?); cbn.
  all: rewrite ?u16_small, ?u64_small by (unfold is_u64; lia); auto.
Qed.

Lemma preserves_assignKey key value :
  value ≠ "" → preserves loader_ok (assignKey key value).
Proof.
  intros Hv. apply preserves_bind; [apply preserves_gets|intros st].
  repeat case_match; auto using preserves_assign, assignServerValue_ok,
    assignHealthValue_ok, preserves_assignBackendValue, preserves_throw.
Qed.

Lemma preserves_assignLine line : preserves loader_ok (assignLine line).
Proof.
  apply preserves_bind; [apply preserves_gets|intros st].
  case_match; [|apply preserves_throw]. cbv zeta.
  apply preserves_if; intros He; [apply preserves_throw|].
  apply orb_false_iff in He as [_ He%is_empty_false]. by apply preserves_assignKey.
Qed.

Lemma preserves_loadLine raw : preserves loader_ok (loadLine raw).
Proof.
  apply preserves_bind; [by apply preserves_modify|intros _]. cbv zeta.
  apply preserves_if; intros _; [apply preserves_ret|].
  apply preserves_if; intros _; auto using preserves_openSection, preserves_assignLine.
Qed.

Lemma loader_start_ok : loader_ok loader_start.
Proof.
  split; [|by split]. unfold fields_ok; cbn. repeat split; done || lia.
Qed.

(** The duplicate check accepts exactly the lists without repetition. *)
Lemma checkNames_spec {S} bs (names : gmap string bool) (s : S) :
  (∃ e, checkNames bs names s = (Exn e, s)) ∨
  checkNames bs names s = (Val tt, s) ∧ NoDup (name <$> bs) ∧
  ∀ b, b ∈ bs → names !! name b ≠ Some true.
Proof.
  revert names. induction bs as [|b bs IH]; intros names; cbn.
  - right. split; [done|]. split; [constructor|set_solver].
  - destruct (names !! name b) as [[]|] eqn:Hb; cbn; [by left; eexists| |].
    all: destruct (IH (<[name b:=true]> names)) as [[e He]|(Hv & Hd & Hn)];
      [by left; eexists|right; split; [done|split]].
    1,3: constructor; [|done]; intros (b' & Hb' & Hin)%list_elem_of_fmap;
      apply (Hn b' Hin); by rewrite <- Hb', lookup_insert_eq.
    all: intros b' [->|Hin]%elem_of_cons; [by rewrite Hb|].
    all: specialize (Hn b' Hin); destruct (decide (name b = name b')) as [He|He];
      [by rewrite He, lookup_insert_eq in Hn|by rewrite lookup_insert_ne in Hn].
Qed.

Lemma load_success path file c : load path file = Val c →
  ∃ text st, file = Some text ∧ loadText text loader_start = (Val tt, st) ∧ c = config st.
Proof.
  unfold load. destruct file as [text|]; [|done].
  destruct (loadText text loader_start) as [[[]|e|] st] eqn:Hl; intros; simplify_eq.
  eauto.
Qed.

(** Loading ends. *)
Lemma load_finishes path file : load path file ≠ NoFuel.
Proof.
  unfold load. destruct file as [text|]; [|done].
  assert (finishes (loadText text)) as Hf.
  { assert (∀ (bs : list BackendConfig) names, finishes (S := loader) (checkNames bs names)) as Hn
      by (induction bs as [|b bs IH]; intros names; cbn [checkNames]; finishes; apply IH).
    unfold loadText, loadLine, openSection, assignLine, assignKey, assignBackendValue,
      assignServerValue, assignHealthValue, parseLong, finishBackend.
    finishes. apply Hn. }
  specialize (Hf loader_start). by destruct (loadText text loader_start) as [[]].
Qed.

(** A configuration [load] returns is valid: every number is in its range,
    every backend has a name, a host, a port and a weight in range, there is at
    least one backend, names are pairwise distinct and the probe timeout is
    below the probe interval.  The level of the log may be any text. *)
Lemma load_ok path file c : load path file = Val c → valid_config c.
Proof.
  intros (text & st & -> & Hl & ->)%load_success. unfold loadText in Hl.
  unfold mbind, ST_bind in Hl.
  pose proof (preserves_for_each loader_ok loadLine (getlines text)
    (λ l _, preserves_loadLine l) _ loader_start_ok) as H1.
  destruct (for_each loadLine (getlines text) loader_start) as [[[]| |] s1]; try done.
  pose proof (preserves_finishBackend _ H1) as H2; cbn in H1, H2.
  destruct (finishBackend s1) as [[[]| |] s2]; try done; cbn in *.
  destruct H2 as (Hf & Hb & _). unfold gets in Hl.
  case_bool_decide; [done|].
  destruct (Z.leb_spec (healthCheckIntervalMs (config s2))
    (healthCheckTimeoutMs (config s2))); [done|].
  destruct (checkNames_spec (backends (config s2)) ∅ s2) as [[e He]|(Hc & Hd & _)].
  - by rewrite He in Hl.
  - rewrite Hc in Hl. simplify_eq. done.
Qed.

(** A text whose lines all end with a newline. *)
Definition unlines (ls : list string) : string :=
  foldr (λ l t, l +:+ String newline t) EmptyString ls.

(** A small configuration file. *)
Definition sample_file : string := unlines
  ["# two nodes"; "[Server]"; " Listen_Port = 18080 ; comment"; "WORKERS=2"; "";
   "[backend first]"; "host = 127.0.0.1"; "port = 19001";
   "[Backend Second One]"; "host = ::1"; "port = 19002"; "weight = 2"].

Example sample_loads :
  ∃ c, load "test.conf" (Some sample_file) = Val c ∧ workers c = 2 ∧
    (name <$> backends c) = ["first"; "Second One"].
Proof. eexists. split; [vm_compute; reflexivity|]. by split. Qed.

(** ** What is refused *)

Definition server_keys : list string :=
  ["listen_host"; "listen_port"; "workers"; "backlog"; "max_events"; "buffer_size";
   "connect_timeout_ms"; "idle_timeout_seconds"; "stats_interval_seconds"; "log_level"].

Definition health_keys : list string :=
  ["interval_ms"; "timeout_ms"; "failure_threshold"; "success_threshold"].

Definition backend_keys : list string := ["host"; "port"; "weight"].

(** The keys a section knows. *)
Definition section_keys (section : string) : list string :=
  if String.eqb section "server" then server_keys
  else if String.eqb section "health_check" then health_keys
  else if String.eqb section "backend" then backend_keys else [].

Definition header_text (line : string) : string :=
  trim (substr_to (String.length line - 2) (substr_from 1 line)).

(** The lines (comment and outer white space removed) a file may consist of,
    given the section in force. *)
Inductive recognised (section line : string) : Prop :=
| blank_line : line = "" → recognised section line
| section_line :
    is_header line = true →
    lower (header_text line) = "server" ∨ lower (header_text line) = "health_check" ∨
    substr_to 8 (lower (header_text line)) = "backend " →
    recognised section line
| setting_line separator :
    find_first (Ascii.eqb "=") line = Some separator →
    lower (trim (substr_to separator line)) ∈ section_keys section →
    trim (substr_from (separator + 1) line) ≠ "" →
    recognised section line.

Ltac key_cases key :=
  repeat match goal with
    | |- context [String.eqb key ?s] =>
        destruct (String.eqb_spec key s) as [->|_];
        [intros _; apply (bool_decide_unpack _); vm_compute; exact I|]
    end; done.

Lemma assignServerValue_keys key value c c' :
  assignServerValue key value c = (Val tt, c') → key ∈ server_keys.
Proof.
  unfold assignServerValue, server_keys.
  key_cases key.
Qed.

Lemma assignHealthValue_keys key value c c' :
  assignHealthValue key value c = (Val tt, c') → key ∈ health_keys.
Proof.
  unfold assignHealthValue, health_keys.
  key_cases key.
Qed.

Lemma assignBackendValue_keys key value st st' :
  assignBackendValue key value st = (Val tt, st') → key ∈ backend_keys.
Proof.
  unfold assignBackendValue, backend_keys, gets, mbind at 1, ST_bind at 1.
  key_cases key.
Qed.

Lemma zoom_val {S T A} `{Lens S T} (m : ST T A) a s s' :
  zoom m s = (Val a, s') → ∃ t', m (view s) = (Val a, t').
Proof. unfold zoom. destruct (m (view s)) as [o t']. intros. simplify_eq. eauto. Qed.

Lemma assignKey_keys key value st st' :
  assignKey key value st = (Val tt, st') → key ∈ section_keys (section st).
Proof.
  unfold assignKey, gets, mbind at 1, ST_bind at 1, section_keys.
  destruct (String.eqb (section st) "server").
  { intros [c' H]%zoom_val. by apply assignServerValue_keys in H. }
  destruct (String.eqb (section st) "health_check").
  { intros [c' H]%zoom_val. by apply assignHealthValue_keys in H. }
  destruct (String.eqb (section st) "backend"); cbn; [|done].
  destruct (insideBackend st); [|done]. apply assignBackendValue_keys.
Qed.

Lemma openSection_known_header line st st' :
  openSection line st = (Val tt, st') →
  lower (header_text line) = "server" ∨ lower (header_text line) = "health_check" ∨
  substr_to 8 (lower (header_text line)) = "backend ".
Proof.
  unfold openSection, mbind, ST_bind.
  destruct (finishBackend st) as [[[]| |] s1]; [|done..].
  unfold modify, gets. fold (header_text line).
  destruct (String.eqb_spec (lower (header_text line)) "server"); [by left|].
  destruct (String.eqb_spec (lower (header_text line)) "health_check"); [by right; left|].
  destruct (String.eqb_spec (substr_to 8 (lower (header_text line))) "backend ");
    [by right; right|done].
Qed.

Lemma loadLine_recognised raw st st' :
  loadLine raw st = (Val tt, st') → recognised (section st) (trim (stripComment raw)).
Proof.
  unfold loadLine, modify, mbind at 1, ST_bind at 1. cbv zeta.
  set (line := trim (stripComment raw)).
  destruct (is_empty line) eqn:He; [intros _; apply blank_line; by destruct line|].
  destruct (is_header line) eqn:Hh.
  { intros H%openSection_known_header. by apply section_line. }
  unfold assignLine, gets, mbind at 1, ST_bind at 1.
  destruct (find_first (Ascii.eqb "=") line) as [p|] eqn:Hp; [|done]. cbv zeta.
  destruct (is_empty _ || _) eqn:Hkv; [done|].
  apply orb_false_iff in Hkv as [_ Hv%is_empty_false].
  intros H%assignKey_keys. by eapply setting_line.
Qed.

Lemma for_each_app_inv {S A} (body : A → ST S unit) l1 l2 s s' :
  for_each body (l1 ++ l2) s = (Val tt, s') →
  ∃ s1, for_each body l1 s = (Val tt, s1) ∧ for_each body l2 s1 = (Val tt, s').
Proof.
  revert s. induction l1 as [|x l1 IH]; intros s H; cbn in *; [by exists s|].
  unfold mbind, ST_bind in *. destruct (body x s) as [[[]| |] s1]; [|done..].
  by apply IH.
Qed.

(** C37: loading is strict.  If a file loads, every one of its lines is, after
    comment and white space are removed, empty, or the header of a known
    section, or a setting with a non-empty value whose key the section in
    force at that line knows: no misspelt key or section is ever ignored. *)
Theorem load_strict path text c l1 raw l2 :
  load path (Some text) = Val c → getlines text = l1 ++ raw :: l2 →
  ∃ st, for_each loadLine l1 loader_start = (Val tt, st) ∧
    recognised (section st) (trim (stripComment raw)).
Proof.
  intros (text' & st' & [= <-] & Hl & _)%load_success Ht.
  unfold loadText, mbind at 1, ST_bind at 1 in Hl. rewrite Ht in Hl.
  destruct (for_each loadLine _ loader_start) as [[[]| |] s1] eqn:Hf; [|done..].
  apply for_each_app_inv in Hf as (s2 & H1 & H2). exists s2. split; [done|].
  cbn in H2. unfold mbind, ST_bind in H2.
  destruct (loadLine raw s2) as [[[]| |] s3] eqn:Hr; [|done..].
  by apply loadLine_recognised in Hr.
Qed.

Lemma load_strict_witness :
  ∃ c, load "t" (Some sample_file) = Val c ∧
  ∃ st, for_each loadLine (take 2 (getlines sample_file)) loader_start = (Val tt, st) ∧
    recognised (section st) (trim (stripComment " Listen_Port = 18080 ; comment")).
Proof.
  eexists. split; [vm_compute; reflexivity|].
  eapply (load_strict "t" sample_file _ _ _ (drop 3 (getlines sample_file)));
    [vm_compute; reflexivity|reflexivity].
Defined.

(** *** Backend sections always get a name *)

Lemma trim_nonempty s : s ≠ "" → edge_ok (back s) → trim s ≠ "".
Proof.
  intros Hs Hb. assert (skip_space s ≠ "" ∧ back (skip_space s) = back s) as [Hn Hk].
  { induction s as [|c s IH]; [done|]. cbn [skip_space].
    destruct (isspace c) eqn:Hc; [|done].
    destruct s as [|d s]; [cbn in Hb; congruence|]. by apply IH. }
  unfold trim. cbv zeta. rewrite trim_end_all, substr_to_all by (by rewrite Hk). done.
Qed.

Lemma tolower_space c : tolower c = " "%char → c = " "%char.
Proof.
  intros H. apply (f_equal code) in H. rewrite code_tolower in H.
  apply code_inj. destruct (isupper c) eqn:Hu; [|done].
  unfold isupper in Hu. change (code " ") with 32 in *. lia.
Qed.

Lemma lower_substr_to n s : lower (substr_to n s) = substr_to n (lower s).
Proof. revert n. induction s; intros [|n]; cbn; [done..|]. by rewrite IHs. Qed.

Lemma back_lower s : back (lower s) = tolower <$> back s.
Proof. induction s as [|c [|d s] IH]; [done..|]. exact IH. Qed.

Lemma substr_split n s : substr_to n s +:+ substr_from n s = s.
Proof. revert n. induction s; intros [|n]; cbn; [done..|]. by rewrite IHs. Qed.

Lemma back_app_nonempty s t : t ≠ "" → back (s +:+ t) = back t.
Proof.
  intros Ht. induction s as [|c s IH]; [done|]. cbn.
  destruct (s +:+ t) as [|d u] eqn:He; [destruct s; cbn in He; congruence|done].
Qed.

Lemma backend_header_name s :
  trimmed s → substr_to 8 (lower s) = "backend " → trim (substr_from 8 s) ≠ "".
Proof.
  intros [_ Hb] H8. assert (substr_from 8 s ≠ "") as Hn.
  { intros He. pose proof (substr_split 8 s) as Hs. rewrite He, string_app_empty in Hs.
    rewrite <- lower_substr_to, Hs in H8.
    pose proof (back_lower s) as Hl. rewrite H8 in Hl. cbn in Hl.
    destruct (back s) as [c|]; [|done]. injection Hl as Hl. symmetry in Hl.
    by rewrite (tolower_space c Hl) in Hb. }
  apply trim_nonempty; [done|].
  rewrite <- (substr_split 8 s), back_app_nonempty in Hb; done.
Qed.

(** The exception "empty backend name" cannot be raised: a header the
    loader takes for a backend section always carries a name, because the
    header text was trimmed before it was compared with "backend " (a bare
    [[backend ]] is an unknown section instead).  The guard at that place is
    dead code. *)
Theorem empty_name_unreachable line st n :
  (openSection line st).1 ≠ Exn ("empty backend name at line " +:+ n).
Proof.
  unfold openSection, finishBackend, mbind, ST_bind, gets, modify, throw.
  destruct st as [c sec b [] hh hp ln]; cbn -[substr_from substr_to trim].
  1: destruct (is_empty (name b) || negb hh || negb hp); cbn -[substr_from substr_to trim];
    [done|].
  all: fold (header_text line);
    destruct (String.eqb (lower (header_text line)) "server"); [done|];
    destruct (String.eqb (lower (header_text line)) "health_check"); [done|];
    destruct (String.eqb_spec (substr_to 8 (lower (header_text line))) "backend ");
      [|done];
    assert (is_empty (trim (substr_from 8 (header_text line))) = false) as ->
      by (apply is_empty_false, backend_header_name; [apply trim_trimmed|done]); done.
Qed.

End Config.
