(* ===== verification/ConfigText.v ===== *)
(** * Rendering and loading configurations

    [render] writes a configuration out in the syntax Config.cpp reads, one
    setting per line; the loader of [Config] reads it back unchanged.  The
    proof follows the text down to single lines: comment stripping, trimming,
    the position of the '=', the dispatch on the section. *)

From S2P Require Import Prelude Text Config.
Import Config.
Local Open Scope Z_scope.

Module ConfigText.

(** ** Rendering and loading back *)

Definition key_value (key value : string) : string := key +:+ " = " +:+ value.

Definition backend_lines (b : BackendConfig) : list string :=
  ["[backend " +:+ name b +:+ "]";
   key_value "host" (host b);
   key_value "port" (to_string (port b));
   key_value "weight" (to_string (weight b))].

Definition server_lines (c : AppConfig) : list string :=
  ["[server]";
   key_value "listen_host" (listenHost c);
   key_value "listen_port" (to_string (listenPort c));
   key_value "workers" (to_string (workers c));
   key_value "backlog" (to_string (backlog c));
   key_value "max_events" (to_string (maxEvents c));
   key_value "buffer_size" (to_string (bufferSize c));
   key_value "connect_timeout_ms" (to_string (connectTimeoutMs c));
   key_value "idle_timeout_seconds" (to_string (idleTimeoutSeconds c));
   key_value "stats_interval_seconds" (to_string (statsIntervalSeconds c));
   key_value "log_level" (logLevel c)].

Definition health_lines (c : AppConfig) : list string :=
  ["[health_check]";
   key_value "interval_ms" (to_string (healthCheckIntervalMs c));
   key_value "timeout_ms" (to_string (healthCheckTimeoutMs c));
   key_value "failure_threshold" (to_string (healthCheckFailureThreshold c));
   key_value "success_threshold" (to_string (healthCheckSuccessThreshold c))].

Definition config_lines (c : AppConfig) : list string :=
  server_lines c ++ health_lines c ++ concat (backend_lines <$> backends c).

Definition render (c : AppConfig) : string := unlines (config_lines c).

(** A text a value can have in a file: one line, no comment character, no
    white space at its ends. *)
Definition plain (c : ascii) : bool := negb (is_comment c) && negb (Ascii.eqb c newline).

Definition good_value (v : string) : Prop :=
  v ≠ "" ∧ trimmed v ∧ string_forall plain v = true.

Definition printable (c : AppConfig) : Prop :=
  good_value (listenHost c) ∧ good_value (logLevel c) ∧
  Forall (λ b, good_value (name b) ∧ good_value (host b)) (backends c).

(** Keys as the loader knows them. *)
Definition is_key_char (c : ascii) : bool :=
  ((97 <=? code c) && (code c <=? 122)) || Ascii.eqb c "_".

Definition good_key (k : string) : Prop :=
  k ≠ "" ∧ string_forall is_key_char k = true.

Lemma key_char_facts c : is_key_char c = true →
  isspace c = false ∧ plain c = true ∧ Ascii.eqb "=" c = false ∧ tolower c = c ∧
  c ≠ "["%char.
Proof.
  intros Hc. repeat split.
  all: destruct c as [[] [] [] [] [] [] [] []]; vm_compute in Hc |- *; congruence.
Qed.

Lemma digit_facts c : isdigit c = true → isspace c = false ∧ plain c = true.
Proof.
  intros Hc. split.
  all: destruct c as [[] [] [] [] [] [] [] []]; vm_compute in Hc |- *; congruence.
Qed.

Lemma front_forall (p : ascii → bool) s :
  (∀ c, p c = true → isspace c = false) → string_forall p s = true → edge_ok (front s).
Proof.
  intros Hp. destruct s as [|c s]; cbn; [done|].
  intros [Hc _]%andb_true_iff. auto.
Qed.

Lemma back_forall (p : ascii → bool) s :
  (∀ c, p c = true → isspace c = false) → string_forall p s = true → edge_ok (back s).
Proof.
  intros Hp. induction s as [|c s IH]; [done|].
  cbn [string_forall]. intros [Hc Hs]%andb_true_iff.
  destruct s as [|d s]; [cbn; auto|]. by apply IH.
Qed.

Lemma good_key_trimmed k : good_key k → trimmed k.
Proof.
  intros [_ Hk]. split; [eapply front_forall|eapply back_forall]; try exact Hk;
    intros c Hc; apply (key_char_facts c Hc).
Qed.

Lemma good_key_lower k : good_key k → lower k = k.
Proof.
  intros [_ Hk]. unfold lower. induction k as [|c k IH]; cbn in *; [done|].
  apply andb_true_iff in Hk as [Hc Hk]. rewrite IH by done.
  by rewrite (proj1 (proj2 (proj2 (proj2 (key_char_facts c Hc))))).
Qed.

Lemma good_number n : 0 <= n < 2 ^ 64 → good_value (to_string n).
Proof.
  intros Hn. pose proof (to_string_digits n ltac:(lia)) as Hd.
  split; [|split].
  - destruct (to_string_cons n Hn) as (c & s & -> & _). done.
  - split; [eapply front_forall|eapply back_forall]; try exact Hd;
      intros c Hc; apply (digit_facts c Hc).
  - eapply string_forall_impl; [|exact Hd]. intros c Hc. apply (digit_facts c Hc).
Qed.

Lemma front_app_nonempty s t : s ≠ "" → front (s +:+ t) = front s.
Proof. by destruct s. Qed.

Lemma trimmed_app s m t : s ≠ "" → t ≠ "" → trimmed s → trimmed t → trimmed (s +:+ m +:+ t).
Proof.
  intros Hs Ht [Hs1 _] [_ Ht2]. split.
  - by rewrite front_app_nonempty.
  - rewrite string_app_assoc. by rewrite back_app_nonempty.
Qed.

Lemma stripComment_plain s : string_forall plain s = true → stripComment s = s.
Proof.
  intros Hs. unfold stripComment.
  rewrite (proj2 (find_first_none is_comment s)); [done|].
  eapply string_forall_impl; [|exact Hs].
  intros c. unfold plain. by intros [? _]%andb_true_iff.
Qed.

Lemma key_plain k : good_key k → string_forall plain k = true.
Proof.
  intros [_ Hk]. eapply string_forall_impl; [|exact Hk].
  intros c Hc. apply (key_char_facts c Hc).
Qed.

(** *** One rendered line *)

Lemma get_app_l n s t : (n < String.length s)%nat →
  String.get n (s +:+ t) = String.get n s.
Proof.
  revert n. induction s as [|c s IH]; cbn; intros n Hn; [lia|].
  destruct n; [done|]. apply IH. lia.
Qed.

Lemma get_app_length s c t : String.get (String.length s) (s +:+ String c t) = Some c.
Proof. induction s; done. Qed.

Lemma trim_end_app n s t : (n ≤ String.length s)%nat →
  trim_end n (s +:+ t) = trim_end n s.
Proof.
  induction n as [|n IH]; cbn; intros Hn; [done|].
  rewrite get_app_l, IH by lia. done.
Qed.

Lemma trim_snoc_space k : k ≠ "" → trimmed k → trim (k +:+ " ") = k.
Proof.
  intros Hk [Hf Hb]. unfold trim. cbv zeta.
  assert (skip_space (k +:+ " ") = k +:+ " ") as ->.
  { destruct k as [|c k]; [done|]. cbn in *. by rewrite Hf. }
  rewrite string_length_app, Nat.add_comm. cbn [String.length Nat.add trim_end].
  rewrite get_app_length, trim_end_app, trim_end_all by done. apply substr_to_app.
Qed.

Lemma trim_cons_space v : trimmed v → trim (" " +:+ v) = v.
Proof. intros Hv. rewrite <- (trim_id v Hv) at 2. apply trim_space. Qed.

Definition bump (st : loader) : loader := set_lineNumber (u64 (lineNumber st + 1)) st.

Lemma loadLine_key_value k v st : good_key k → good_value v →
  loadLine (key_value k v) st = assignKey k v (bump st).
Proof.
  intros Hk (Hv & Htv & Hpv). pose proof (good_key_trimmed k Hk) as Htk.
  unfold loadLine, modify, mbind at 1, ST_bind at 1. fold (bump st).
  assert (string_forall plain (key_value k v) = true) as Hp.
  { unfold key_value. rewrite !string_forall_app, key_plain, Hpv by done. done. }
  rewrite stripComment_plain by done.
  rewrite trim_id by (apply trimmed_app; auto; apply Hk). cbv zeta.
  assert (is_empty (key_value k v) = false) as ->.
  { destruct Hk as [Hk _]. by destruct k. }
  assert (is_header (key_value k v) = false) as ->.
  { unfold is_header. rewrite bool_decide_eq_false_2; [done|].
    destruct Hk as [Hk0 Hk]. destruct k as [|c k]; [done|]. cbn in *.
    apply andb_true_iff in Hk as [Hc _].
    pose proof (proj2 (proj2 (proj2 (proj2 (key_char_facts c Hc))))). congruence. }
  assert (key_value k v = (k +:+ " ") +:+ String "=" (" " +:+ v)) as ->.
  { unfold key_value. by rewrite <- !string_app_assoc. }
  unfold assignLine, gets, mbind at 1, ST_bind at 1.
  rewrite find_first_app; [|rewrite string_forall_app|done].
  2: { apply andb_true_iff. split; [|done]. destruct Hk as [_ Hk].
       eapply string_forall_impl; [|exact Hk]. intros c Hc.
       by rewrite (proj1 (proj2 (proj2 (key_char_facts c Hc)))). }
  cbv zeta. rewrite substr_to_app, trim_snoc_space, good_key_lower by (done || apply Hk).
  replace (String.length (k +:+ " ") + 1)%nat
    with (String.length ((k +:+ " ") +:+ "=")) by (rewrite string_length_app; done).
  change (String "=" (" " +:+ v)) with ("=" +:+ (" " +:+ v)).
  rewrite string_app_assoc, substr_from_app, trim_cons_space by done.
  destruct Hk as [Hk _]. destruct k; [done|]. by destruct v.
Qed.

Lemma back_header s : back ("[" +:+ s +:+ "]") = Some "]"%char.
Proof. apply (back_app (String "[" s)). Qed.

Lemma loadLine_header s st : string_forall plain s = true →
  loadLine ("[" +:+ s +:+ "]") st = openSection ("[" +:+ s +:+ "]") (bump st).
Proof.
  intros Hs. unfold loadLine, modify, mbind at 1, ST_bind at 1. fold (bump st).
  rewrite stripComment_plain by (rewrite !string_forall_app, Hs; done).
  rewrite trim_id by (split; [done|by rewrite back_header]). cbv zeta.
  unfold is_header. rewrite back_header. done.
Qed.

Lemma header_section s :
  substr_to (String.length ("[" +:+ s +:+ "]") - 2) (substr_from 1 ("[" +:+ s +:+ "]")) = s.
Proof.
  cbn [String.append String.length substr_from]. rewrite string_length_app. cbn.
  replace (String.length s + 1 - 1)%nat with (String.length s) by lia.
  apply substr_to_app.
Qed.

(** *** Flushing a complete backend *)

Definition ready (st : loader) : Prop :=
  insideBackend st = true →
  name (currentBackend st) ≠ "" ∧ backendHasHost st = true ∧ backendHasPort st = true.

Definition flush (st : loader) : AppConfig :=
  if insideBackend st then push_backend (currentBackend st) (config st) else config st.

Definition blank_backend : BackendConfig := mkBackendConfig "" "" 0 1.

Lemma finishBackend_ready st : ready st →
  finishBackend st = (Val tt, upd (flush st) st).
Proof.
  destruct st as [c sec b [] hh hp n]; intros Hr; cbn; [|done].
  destruct (Hr eq_refl) as (Hn & Hh & Hp); cbn in *; subst.
  unfold finishBackend, gets, mbind, ST_bind; cbn. by destruct (name b).
Qed.

Lemma openSection_known s st :
  ready st → s = "server" ∨ s = "health_check" →
  openSection ("[" +:+ s +:+ "]") st =
    (Val tt, mkLoader (flush st) s blank_backend false false false (lineNumber st)).
Proof.
  intros Hr Hs. unfold openSection, mbind at 1, ST_bind at 1.
  rewrite finishBackend_ready by done. rewrite header_section.
  by destruct Hs as [-> | ->].
Qed.

Lemma openSection_backend n st :
  ready st → good_value n →
  openSection ("[" +:+ ("backend " +:+ n) +:+ "]") st =
    (Val tt, mkLoader (flush st) "backend" (mkBackendConfig n "" 0 1)
               true false false (lineNumber st)).
Proof.
  intros Hr (Hn & Ht & _). unfold openSection, mbind at 1, ST_bind at 1.
  rewrite finishBackend_ready by done. rewrite header_section.
  assert (trim ("backend " +:+ n) = "backend " +:+ n) as Hid.
  { apply trim_id. split; [done|]. rewrite back_app_nonempty by done. apply Ht. }
  unfold modify, gets, mbind, ST_bind. cbv beta iota zeta. rewrite Hid.
  assert (substr_from 8 ("backend " +:+ n) = n) as -> by done.
  rewrite trim_id by done.
  change (substr_to 8 (lower ("backend " +:+ n))) with ("backend " +:+ substr_to 0 (lower n)).
  assert (substr_to 0 (lower n) = "") as -> by (by destruct (lower n)).
  cbn. by destruct n.
Qed.

(** *** Runs of rendered lines *)

#[local] Arguments parseLong : simpl never.

Lemma for_each_step {S A} (body : A → ST S unit) x l s s' :
  body x s = (Val tt, s') → for_each body (x :: l) s = for_each body l s'.
Proof. intros H. cbn. unfold mbind, ST_bind. by rewrite H. Qed.

Lemma for_each_app_both {S A} (body : A → ST S unit) l1 l2 s s' :
  for_each body l1 s = (Val tt, s') →
  for_each body (l1 ++ l2) s = for_each body l2 s'.
Proof.
  revert s. induction l1 as [|x l1 IH]; intros s H; cbn in *; [by injection H as ->|].
  unfold mbind, ST_bind in *. destruct (body x s) as [[[]| |] s1]; [|done..].
  by apply IH.
Qed.

(** One [key = value] line whose value is [to_string n] or plain text. *)
Ltac kv_line :=
  erewrite for_each_step;
  [|rewrite loadLine_key_value;
    [unfold assignKey, assignServerValue, assignHealthValue, assignBackendValue,
       gets, mbind, ST_bind, zoom; cbn; rewrite ?parseLong_to_string by lia;
     reflexivity
    |by split
    |first [assumption | apply good_number; lia]]].

(** The configuration once the keys of [server_lines c] are assigned. *)
Definition server_config (c d : AppConfig) : AppConfig := {|
  listenHost := listenHost c; listenPort := listenPort c; workers := workers c;
  backlog := backlog c; maxEvents := maxEvents c; bufferSize := bufferSize c;
  connectTimeoutMs := connectTimeoutMs c; idleTimeoutSeconds := idleTimeoutSeconds c;
  statsIntervalSeconds := statsIntervalSeconds c;
  healthCheckIntervalMs := healthCheckIntervalMs d;
  healthCheckTimeoutMs := healthCheckTimeoutMs d;
  healthCheckFailureThreshold := healthCheckFailureThreshold d;
  healthCheckSuccessThreshold := healthCheckSuccessThreshold d;
  logLevel := logLevel c; backends := backends d |}.

Lemma server_lines_load c st :
  fields_ok c → good_value (listenHost c) → good_value (logLevel c) → ready st →
  ∃ n, for_each loadLine (server_lines c) st =
    (Val tt, mkLoader (server_config c (flush st)) "server" blank_backend
               false false false n).
Proof.
  unfold fields_ok. intros (?&?&?&?&?&?&?&?&_&_&_&_&_&Hl) Hh Hg Hr. eexists.
  unfold server_lines.
  erewrite for_each_step;
    [|change "[server]" with ("[" +:+ "server" +:+ "]");
      rewrite loadLine_header, openSection_known by auto; reflexivity].
  destruct (flush (bump st)) as [a b d e f g h i j k l m o p q] eqn:Hf.
  assert (flush st = mkAppConfig a b d e f g h i j k l m o p q) as -> by exact Hf.
  do 10 kv_line. cbn [for_each]. unfold mret, ST_ret, server_config; cbn.
  rewrite !u16_small, !u64_small, !i32_small, Hl by (unfold is_u64; lia). done.
Qed.

Lemma health_lines_load c st :
  fields_ok c → ready st →
  ∃ n, for_each loadLine (health_lines c) st =
    (Val tt, mkLoader
       (set_healthCheckIntervalMs (healthCheckIntervalMs c)
         (set_healthCheckTimeoutMs (healthCheckTimeoutMs c)
           (set_healthCheckFailureThreshold (healthCheckFailureThreshold c)
             (set_healthCheckSuccessThreshold (healthCheckSuccessThreshold c)
               (flush st))))) "health_check" blank_backend false false false n).
Proof.
  unfold fields_ok. intros (_&_&_&_&_&_&_&_&?&?&?&?&_&_) Hr. eexists.
  unfold health_lines.
  erewrite for_each_step;
    [|change "[health_check]" with ("[" +:+ "health_check" +:+ "]");
      rewrite loadLine_header, openSection_known by auto; reflexivity].
  destruct (flush (bump st)) as [a b d e f g h i j k l m o p q] eqn:Hf.
  assert (flush st = mkAppConfig a b d e f g h i j k l m o p q) as -> by exact Hf.
  do 4 kv_line. cbn [for_each]. unfold mret, ST_ret; cbn.
  rewrite !u64_small, !i32_small by (unfold is_u64; lia). done.
Qed.

Lemma backend_lines_load b st :
  valid_backend b → good_value (name b) → good_value (host b) → ready st →
  ∃ n, for_each loadLine (backend_lines b) st =
    (Val tt, mkLoader (flush st) "backend" b true true true n).
Proof.
  intros (_ & _ & ? & ?) Hn Hh Hr. eexists. unfold backend_lines.
  erewrite for_each_step; cycle 1.
  { change ("[backend " +:+ name b +:+ "]")
      with ("[" +:+ ("backend " +:+ name b) +:+ "]").
    rewrite loadLine_header by (rewrite string_forall_app; apply Hn).
    rewrite openSection_backend by done. reflexivity. }
  change (flush (bump st)) with (flush st). do 3 kv_line.
  cbn [for_each]. unfold mret, ST_ret; cbn.
  rewrite u64_small, u16_small by (unfold is_u64; lia). by destruct b.
Qed.

Lemma all_backends_load bs st :
  Forall valid_backend bs → Forall (λ b, good_value (name b) ∧ good_value (host b)) bs →
  ready st →
  ∃ st', for_each loadLine (concat (backend_lines <$> bs)) st = (Val tt, st') ∧
    ready st' ∧ flush st' = foldl (λ c b, push_backend b c) (flush st) bs.
Proof.
  intros Hv Hg. revert st. induction Hg as [|b bs [Hn Hh] Hg IH]; intros st Hr.
  - exists st. done.
  - apply Forall_cons in Hv as [Hb Hv].
    destruct (backend_lines_load b st) as [n Hl]; [done..|].
    cbn [fmap list_fmap concat]. erewrite for_each_app_both; [|exact Hl].
    edestruct IH as (st' & He & Hr' & Hc'); [done| |exists st'; eauto].
    intros _; cbn. split; [apply Hn|done].
Qed.

(** *** The whole file *)

Lemma getlines_from_line l t acc :
  string_forall (λ c, negb (Ascii.eqb c newline)) l = true →
  getlines_from (l +:+ String newline t) acc = (acc +:+ l) :: getlines t.
Proof.
  revert acc. induction l as [|c l IH]; intros acc Hl; cbn in *.
  - by rewrite string_app_empty.
  - apply andb_true_iff in Hl as [Hc%negb_true_iff Hl]. rewrite Hc, IH by done.
    by rewrite <- string_app_assoc.
Qed.

Lemma getlines_unlines ls :
  Forall (λ l, string_forall plain l = true) ls → getlines (unlines ls) = ls.
Proof.
  induction 1 as [|l ls Hl _ IH]; [done|]. cbn [unlines foldr]. unfold getlines at 1.
  rewrite getlines_from_line; [cbn; by rewrite <- IH at 2|].
  eapply string_forall_impl; [|exact Hl]. intros c [_ ?]%andb_true_iff. done.
Qed.

Lemma key_value_plain k v : good_key k → string_forall plain v = true →
  string_forall plain (key_value k v) = true.
Proof.
  intros Hk Hv. unfold key_value. by rewrite !string_forall_app, key_plain, Hv.
Qed.

Lemma config_lines_plain c : valid_config c → printable c →
  Forall (λ l, string_forall plain l = true) (config_lines c).
Proof.
  intros (Hf & Hb & _) (Hh & Hl & Hbs). unfold fields_ok in Hf.
  unfold config_lines. rewrite !Forall_app. split; [|split].
  - repeat (apply Forall_cons; split; [|]); [done|..|constructor].
    all: apply key_value_plain; [by split|]; first [apply Hh | apply Hl | apply good_number; lia].
  - repeat (apply Forall_cons; split; [|]); [done|..|constructor].
    all: apply key_value_plain; [by split|]; apply good_number; lia.
  - apply Forall_concat, Forall_fmap. rewrite Forall_forall in *. intros b Hin.
    destruct (Hb b Hin) as (_ & _ & ? & ?). destruct (Hbs b Hin) as [Hn Hho].
    repeat (apply Forall_cons; split; [|]); [..|constructor].
    + rewrite !string_forall_app, (proj2 (proj2 Hn)). done.
    + apply key_value_plain; [by split|]. apply Hho.
    + apply key_value_plain; [by split|]. apply good_number; lia.
    + apply key_value_plain; [by split|]. apply good_number; lia.
Qed.

Definition set_backends v c := let '(mkAppConfig a b d e f g h i j k l m n o _) := c in mkAppConfig a b d e f g h i j k l m n o v.

Lemma foldl_push bs c :
  foldl (λ c b, push_backend b c) c bs = set_backends (backends c ++ bs) c.
Proof.
  revert c. induction bs as [|b bs IH]; intros c; cbn.
  - destruct c; cbn. by rewrite app_nil_r.
  - rewrite IH. destruct c; cbn. by rewrite <- app_assoc.
Qed.

Lemma checkNames_complete {S} bs (names : gmap string bool) (s : S) :
  NoDup (name <$> bs) → (∀ b, b ∈ bs → names !! name b = None) →
  checkNames bs names s = (Val tt, s).
Proof.
  revert names. induction bs as [|b bs IH]; intros names Hd Hn; [done|].
  cbn in *. apply NoDup_cons in Hd as [Hb Hd].
  rewrite Hn by set_solver. cbn. apply IH; [done|].
  intros b' Hin. rewrite lookup_insert_ne; [apply Hn; set_solver|].
  intros He. apply Hb. rewrite He. by apply list_elem_of_fmap_2.
Qed.

(** C38: rendering and loading are inverse: for every valid configuration
    whose texts can stand in a file, loading the file with all settings
    written out gives exactly that configuration back, backends in order. *)
Theorem load_render path c :
  valid_config c → printable c → load path (Some (render c)) = Val c.
Proof.
  intros Hv Hp. pose proof Hv as (Hf & Hb & Hne & Hd & Ht).
  pose proof Hp as (Hh & Hl & Hbs).
  unfold load, loadText, mbind at 1, ST_bind at 1, render.
  rewrite getlines_unlines by (by apply config_lines_plain). unfold config_lines.
  destruct (server_lines_load c loader_start) as [n1 H1]; [done..|].
  erewrite for_each_app_both; [|exact H1].
  match type of H1 with _ = (_, ?s1) =>
    destruct (health_lines_load c s1) as [n2 H2]; [done..|] end.
  erewrite for_each_app_both; [|exact H2].
  match type of H2 with _ = (_, ?s2) =>
    destruct (all_backends_load (backends c) s2) as (s3 & H3 & Hr3 & Hc3); [done..|] end.
  rewrite H3. unfold mbind, ST_bind. rewrite finishBackend_ready by done.
  unfold gets. rewrite Hc3, foldl_push.
  match goal with |- context [upd ?c' s3] => assert (c' = c) as -> by (by destruct c) end.
  cbn [config upd loader_config]. rewrite bool_decide_eq_false_2 by done.
  destruct (Z.leb_spec (healthCheckIntervalMs c) (healthCheckTimeoutMs c)); [lia|].
  by rewrite checkNames_complete.
Qed.

Definition sample_config : AppConfig :=
  push_backend (mkBackendConfig "b" "::1" 9002 2)
    (push_backend (mkBackendConfig "node a" "10.0.0.1" 9001 1) AppConfig_default).

Lemma load_render_witness :
  valid_config sample_config ∧ printable sample_config ∧
  load "fluxgate.conf" (Some (render sample_config)) = Val sample_config.
Proof.
  assert (valid_config sample_config) as Hv.
  { split; [|split; [|split; [|split]]].
    - unfold fields_ok; cbn. repeat split; done || lia.
    - repeat constructor; cbn; done || lia.
    - done.
    - apply (bool_decide_unpack _). vm_compute. exact I.
    - done. }
  assert (printable sample_config) as Hp by (repeat constructor; done).
  split; [exact Hv|]. split; [exact Hp|]. apply (load_render _ _ Hv Hp).
Defined.

End ConfigText.
