(* ===== verification/Net.v ===== *)
(** * Sockets ([include/fluxgate/Net.h], [src/Net.cpp])

    Address resolution, socket options, the listening socket, the
    non-blocking connect and the health probe, over the system calls of
    [Posix].  A local [UniqueFd] is the [scoped] combinator: its destructor
    runs when the body returns and when it throws.  The theorems are about
    descriptors: each function either hands the one it created to its caller
    or has closed it, exceptions included. *)

From S2P Require Import Prelude Text Posix Streams UniqueFd.
Import Streams UniqueFd.
Local Open Scope Z_scope.

Module Net.

(** ** Data *)

Record ResolvedEndpoint := mkEndpoint {
  address : sockaddr;
  length : Z;
  text : string
}.

Record ConnectResult := mkConnectResult {
  fd : Z;
  connecting : bool
}.

Section net.
Context `{K : Kernel} {S : Type} `{Lens S trace}.

(** [throw systemError(action)], with the [errno] of the failed call. *)
Definition systemError {A} (action : string) (errno : Z) : ST S A :=
  throw (action +:+ ": " +:+ k_strerror errno).

(** A local [UniqueFd] [u] around [body], which returns its result and the
    final state of the local. *)
Definition scoped {A} (u : UniqueFd) (body : ST S (A * UniqueFd)) : ST S A :=
  try_catch ('(a, u') ← body; destroy u' ;; mret a)
    (λ e, destroy u ;; throw e).

(** ** Socket options *)

Definition setReuseAddress (fd : Z) : ST S unit :=
  r ← sys_setsockopt fd SOL_SOCKET SO_REUSEADDR;
  match r with
  | Fail e => systemError "setsockopt(SO_REUSEADDR) failed" e
  | Ret _ => mret tt
  end.

Definition setNonBlocking (fd : Z) : ST S unit :=
  r ← sys_fcntl fd F_GETFL 0;
  match r with
  | Fail e => systemError "fcntl(O_NONBLOCK) failed" e
  | Ret flags =>
      r ← sys_fcntl fd F_SETFL (Z.lor flags O_NONBLOCK);
      match r with
      | Fail e => systemError "fcntl(O_NONBLOCK) failed" e
      | Ret _ => mret tt
      end
  end.

Definition setCloseOnExec (fd : Z) : ST S unit :=
  r ← sys_fcntl fd F_GETFD 0;
  match r with
  | Fail e => systemError "fcntl(FD_CLOEXEC) failed" e
  | Ret flags =>
      r ← sys_fcntl fd F_SETFD (Z.lor flags FD_CLOEXEC);
      match r with
      | Fail e => systemError "fcntl(FD_CLOEXEC) failed" e
      | Ret _ => mret tt
      end
  end.

Definition setTcpNoDelay (fd : Z) : ST S unit :=
  r ← sys_setsockopt fd IPPROTO_TCP TCP_NODELAY;
  match r with
  | Fail e => systemError "setsockopt(TCP_NODELAY) failed" e
  | Ret _ => mret tt
  end.

(** ** Resolution *)

(** [sizeof(sockaddr_storage)]. *)
Definition sockaddr_storage_size : Z := 128.

(** The loop over the [addrinfo] list: the first entry that fits. *)
Fixpoint first_usable (items : list (Z * sockaddr)) : option (Z * sockaddr) :=
  match items with
  | [] => None
  | (addrlen, a) :: items' =>
      if addrlen <=? sockaddr_storage_size then Some (addrlen, a)
      else first_usable items'
  end.

Definition resolveTcpEndpoint (host : string) (port : Z) : ST S ResolvedEndpoint :=
  let service := to_string port in
  r ← sys_getaddrinfo host service;
  match r with
  | Fail status =>
      throw ("getaddrinfo failed for " +:+ host +:+ ": " +:+ k_gai_strerror status)
  | Ret items =>
      let '(len, a) := default (0, mkSockaddr 0 0 []) (first_usable items) in
      if len =? 0 then throw ("no usable address for " +:+ host)
      else
        let family := if ss_family a =? AF_INET then AF_INET else AF_INET6 in
        mret (mkEndpoint a len (k_inet_ntop family (sin_addr a) +:+ ":" +:+ service))
  end.

(** ** The listening socket *)

Definition createListenSocket (host : string) (port backlog : Z) : ST S Z :=
  endpoint ← resolveTcpEndpoint host port;
  r ← sys_socket (ss_family (address endpoint));
  match r with
  | Fail e => systemError "socket failed" e
  | Ret raw =>
      let socketFd := mkUniqueFd raw in
      scoped socketFd (
        setCloseOnExec (get socketFd) ;;
        setNonBlocking (get socketFd) ;;
        setReuseAddress (get socketFd) ;;
        r ← sys_bind (get socketFd) (address endpoint);
        match r with
        | Fail e => systemError "bind failed" e
        | Ret _ =>
            r ← sys_listen (get socketFd) backlog;
            match r with
            | Fail e => systemError "listen failed" e
            | Ret _ => mret (release socketFd)
            end
        end)
  end.

(** ** Non-blocking connect *)

Definition connectNonBlocking (endpoint : ResolvedEndpoint) : ST S ConnectResult :=
  r ← sys_socket (ss_family (address endpoint));
  match r with
  | Fail e => systemError "upstream socket failed" e
  | Ret raw =>
      let socketFd := mkUniqueFd raw in
      scoped socketFd (
        setCloseOnExec (get socketFd) ;;
        setNonBlocking (get socketFd) ;;
        setTcpNoDelay (get socketFd) ;;
        status ← sys_connect (get socketFd) (address endpoint);
        match status with
        | Ret _ =>
            let '(value, socketFd) := release socketFd in
            mret (mkConnectResult value false, socketFd)
        | Fail e =>
            if e =? EINPROGRESS then
              let '(value, socketFd) := release socketFd in
              mret (mkConnectResult value true, socketFd)
            else systemError ("connect to " +:+ text endpoint +:+ " failed") e
        end)
  end.

(** ** The health probe *)

(** [do poll while (pollResult < 0 && errno == EINTR)]; [fuel] bounds the
    retries. *)
Fixpoint poll_retry (fuel : nat) (fd timeoutMs : Z) : ST S (sysret (Z * Z)) :=
  match fuel with
  | O => diverge
  | Datatypes.S fuel' =>
      r ← sys_poll fd POLLOUT timeoutMs;
      match r with
      | Fail e => if e =? EINTR then poll_retry fuel' fd timeoutMs else mret r
      | Ret _ => mret r
      end
  end.

Definition waitForConnect (fuel : nat) (endpoint : ResolvedEndpoint)
    (timeoutMs : Z) : ST S bool :=
  try_catch (
    result ← connectNonBlocking endpoint;
    let socketFd := mkUniqueFd (fd result) in
    scoped socketFd (
      if negb (connecting result) then mret (true, socketFd)
      else
        pollResult ← poll_retry fuel (get socketFd) timeoutMs;
        match pollResult with
        | Fail _ => mret (false, socketFd)
        | Ret (n, _) =>
            if n <=? 0 then mret (false, socketFd)
            else
              r ← sys_so_error (get socketFd);
              match r with
              | Ret error => mret (error =? 0, socketFd)
              | Fail _ => mret (false, socketFd)
              end
        end))
    (λ _, mret false).

(** ** Peer address text *)

(** 16-bit byte swap. *)
Definition ntohs (x : Z) : Z :=
  Z.lor (Z.shiftl (Z.land x 0xff) 8) (Z.land (Z.shiftr x 8) 0xff).

Definition peerAddress (a : sockaddr) : string :=
  if ss_family a =? AF_INET then
    k_inet_ntop AF_INET (sin_addr a) +:+ ":" +:+ to_string (ntohs (sin_port a))
  else if ss_family a =? AF_INET6 then
    k_inet_ntop AF_INET6 (sin_addr a) +:+ ":" +:+ to_string (ntohs (sin_port a))
  else "unknown".
End net.

(** ** Descriptor accounting *)

Section accounting.
Context `{K : Kernel} {S : Type} `{LensLaws S trace}.

(** [m] leaves the set of open descriptors alone and closes none. *)
Definition fd_neutral {A} (m : ST S A) : Prop := ∀ s,
  open_fds (view (m s).2) = open_fds (view s) ∧
  (closes_ok (view s) → closes_ok (view (m s).2)).

Definition neutral_event (e : event) : Prop :=
  ∀ tr, open_fds (e :: tr) = open_fds tr ∧ (closes_ok tr → closes_ok (e :: tr)).

Lemma neutral_syscall {R} (ask : trace → R) log :
  (∀ r, neutral_event (log r)) → fd_neutral (syscall ask log).
Proof.
  intros Hl s. unfold syscall; cbn [snd]. rewrite view_upd. apply Hl.
Qed.

Lemma neutral_ret {A} (a : A) : fd_neutral (mret a).
Proof. done. Qed.

Lemma neutral_throw {A} e : fd_neutral (throw (A := A) e).
Proof. done. Qed.

Lemma neutral_diverge {A} : fd_neutral (diverge (A := A)).
Proof. done. Qed.

Lemma neutral_bind {A B} (m : ST S A) (k : A → ST S B) :
  fd_neutral m → (∀ a, fd_neutral (k a)) → fd_neutral (m ≫= k).
Proof.
  intros Hm Hk s. destruct (Hm s) as [H1 H2]. unfold mbind, ST_bind.
  destruct (m s) as [[a|e|] s']; cbn in *; [|done..].
  destruct (Hk a s') as [H3 H4]. split; [congruence|auto].
Qed.

Lemma neutral_log (e : event) :
  opens e = None → (∀ fd, e ≠ EvClose fd) → neutral_event e.
Proof. intros Ho Hc tr. destruct e; cbn in *; try rewrite Ho; try done; naive_solver. Qed.
End accounting.

Ltac neutral :=
  repeat first
    [ apply neutral_bind; [|intros ?]
    | apply neutral_ret | apply neutral_throw | apply neutral_diverge
    | apply neutral_syscall; intros ?; apply neutral_log; done
    | case_match ].

Section contracts.
Context {K : Kernel} {KL : KernelLaws K} {S : Type} `{LensLaws S trace}.

Lemma neutral_setCloseOnExec fd : fd_neutral (S := S) (setCloseOnExec fd).
Proof using All. unfold setCloseOnExec. neutral. Qed.
Lemma neutral_setNonBlocking fd : fd_neutral (S := S) (setNonBlocking fd).
Proof using All. unfold setNonBlocking. neutral. Qed.
Lemma neutral_setTcpNoDelay fd : fd_neutral (S := S) (setTcpNoDelay fd).
Proof using All. unfold setTcpNoDelay. neutral. Qed.
Lemma neutral_setReuseAddress fd : fd_neutral (S := S) (setReuseAddress fd).
Proof using All. unfold setReuseAddress. neutral. Qed.
Lemma neutral_resolve host port : fd_neutral (S := S) (resolveTcpEndpoint host port).
Proof using All. unfold resolveTcpEndpoint. neutral. Qed.
Lemma neutral_poll_retry fuel fd t : fd_neutral (S := S) (poll_retry fuel fd t).
Proof using All. induction fuel; cbn; neutral; done. Qed.

(** The descriptors after a destructor ran: closed if still owned. *)
Definition after_drop (u : UniqueFd) (X : gset Z) : gset Z :=
  if 0 <=? fd_ u then X ∖ {[fd_ u]} else X.

Lemma destroy_spec u (s : S) :
  (0 <= fd_ u → fd_ u ∈ open_fds (view s)) → closes_ok (view s) →
  ∃ s', destroy u s = (Val tt, s') ∧ closes_ok (view s') ∧
    open_fds (view s') = after_drop u (open_fds (view s)).
Proof using All.
  intros Ho Hc. unfold destroy, reset, after_drop, mbind, ST_bind.
  destruct (Z.leb_spec 0 (fd_ u)); cbn; eexists; (split; [done|]); [|done].
  rewrite view_upd; cbn. auto.
Qed.

(** A scope owning [fd0] ends with the descriptor closed, unless the body
    returned normally having released it. *)
Lemma scoped_spec {A} fd0 (body : ST S (A * UniqueFd)) s :
  0 <= fd0 → fd0 ∈ open_fds (view s) → closes_ok (view s) → fd_neutral body →
  (∀ a u' s', body s = (Val (a, u'), s') → u' = mkUniqueFd fd0 ∨ u' = mkUniqueFd (-1)) →
  closes_ok (view (scoped (mkUniqueFd fd0) body s).2) ∧
  match (scoped (mkUniqueFd fd0) body s).1 with
  | Val a => ∃ u', (body s).1 = Val (a, u') ∧
      open_fds (view (scoped (mkUniqueFd fd0) body s).2)
        = after_drop u' (open_fds (view s))
  | Exn _ => (∃ e, (body s).1 = Exn e) ∧
      open_fds (view (scoped (mkUniqueFd fd0) body s).2) = open_fds (view s) ∖ {[fd0]}
  | NoFuel => (body s).1 = NoFuel
  end.
Proof using All.
  intros Hp Ho Hc Hb Hu. destruct (Hb s) as [Hfd Hcl].
  unfold scoped, try_catch, mbind, ST_bind.
  destruct (body s) as [[[a u']|e|] s1] eqn:Hbs; cbn in *; [| |auto].
  - destruct (destroy_spec u' s1) as (s2 & -> & Hc2 & Ho2); [|auto|].
    { intros Hp'. destruct (Hu _ _ _ eq_refl) as [-> | ->]; cbn in *; [congruence|lia]. }
    cbn. split; [done|]. exists u'. by rewrite Ho2, Hfd.
  - destruct (destroy_spec (mkUniqueFd fd0) s1) as (s2 & -> & Hc2 & Ho2);
      [cbn; congruence|auto|].
    cbn. split; [done|]. split; [eauto|]. rewrite Ho2, Hfd. unfold after_drop; cbn.
    by destruct (Z.leb_spec 0 fd0); [|lia].
Qed.

(** Opening a socket and running a scope on it. *)
Lemma socket_open fam (s : S) fd0 s1 :
  sys_socket fam s = (Val (Ret fd0), s1) →
  0 <= fd0 ∧ fd0 ∉ open_fds (view s) ∧
  open_fds (view s1) = {[fd0]} ∪ open_fds (view s) ∧
  (closes_ok (view s) → closes_ok (view s1)).
Proof using All.
  unfold sys_socket, syscall. intros Hs.
  destruct (k_socket (view s) fam) as [fd|e] eqn:Hk; [|done].
  injection Hs as -> <-. apply socket_fresh in Hk as [Hp Hf].
  rewrite view_upd. done.
Qed.

(** Hands over one new descriptor, or leaves the set as it was. *)
Definition opens_one (fd_of : Z) (s s' : S) : Prop :=
  0 <= fd_of ∧ fd_of ∉ open_fds (view s) ∧
  open_fds (view s') = {[fd_of]} ∪ open_fds (view s).

Lemma socket_scope {A} fam (s : S) fd0 s1 (body : ST S (A * UniqueFd)) :
  sys_socket fam s = (Val (Ret fd0), s1) → closes_ok (view s) → fd_neutral body →
  (∀ a u' s', body s1 = (Val (a, u'), s') → u' = mkUniqueFd (-1)) →
  let r := scoped (mkUniqueFd fd0) body s1 in
  closes_ok (view r.2) ∧
  match r.1 with
  | Val a => opens_one fd0 s r.2 ∧ ∃ u', (body s1).1 = Val (a, u')
  | Exn _ => open_fds (view r.2) = open_fds (view s)
  | NoFuel => (body s1).1 = NoFuel
  end.
Proof using All.
  intros Hs Hc Hb Hu r. destruct (socket_open _ _ _ _ Hs) as (Hp & Hf & Ho & Hc1).
  destruct (scoped_spec fd0 body s1) as [Hc2 Hr]; [done|set_solver|auto|done|eauto|].
  split; [done|]. subst r.
  destruct (body s1) as [[[a u']|e|] s2] eqn:Hbs;
    destruct (scoped (mkUniqueFd fd0) body s1) as [[b|e'|] s3]; cbn in *.
  - destruct Hr as (u'' & [= <- <-] & Hr). split; [|eauto].
    rewrite (Hu _ _ _ eq_refl) in Hr. cbn in Hr. split; [done|]. split; [done|].
    congruence.
  - by destruct Hr as [[? ?] _].
  - done.
  - by destruct Hr as (? & ? & _).
  - destruct Hr as [_ Hr]. rewrite Hr, Ho. set_solver.
  - done.
  - by destruct Hr as (? & ? & _).
  - by destruct Hr as [[? ?] _].
  - done.
Qed.

(** What the body of [connectNonBlocking] returns. *)
Definition connect_body (endpoint : ResolvedEndpoint) (socketFd : UniqueFd) :
    ST S (ConnectResult * UniqueFd) :=
  setCloseOnExec (get socketFd) ;;
  setNonBlocking (get socketFd) ;;
  setTcpNoDelay (get socketFd) ;;
  status ← sys_connect (get socketFd) (address endpoint);
  match status with
  | Ret _ =>
      let '(value, socketFd) := release socketFd in
      mret (mkConnectResult value false, socketFd)
  | Fail e =>
      if e =? EINPROGRESS then
        let '(value, socketFd) := release socketFd in
        mret (mkConnectResult value true, socketFd)
      else systemError ("connect to " +:+ text endpoint +:+ " failed") e
  end.

(** The answer [connect] gave, as the result reports it. *)
Definition connect_answer (c : ConnectResult) : sysret unit :=
  if connecting c then Fail EINPROGRESS else Ret tt.

Lemma connect_body_val endpoint raw s c u s' :
  connect_body endpoint (mkUniqueFd raw) s = (Val (c, u), s') →
  u = mkUniqueFd (-1) ∧ fd c = raw ∧
  ∃ tr, view s' = EvConnect raw (address endpoint) (connect_answer c) :: tr.
Proof using All.
  unfold connect_body. intros Hb. do 4 bind_inv Hb. unfold sys_connect, syscall in Hb3.
  injection Hb3 as <- <-. cbn in *.
  destruct (k_connect _ _ _) as [[]|e].
  - injection Hb as <- <- <-. rewrite view_upd. eauto.
  - destruct (Z.eqb_spec e EINPROGRESS) as [He|]; [rewrite He in Hb|done].
    injection Hb as <- <- <-. rewrite view_upd. eauto.
Qed.

Lemma neutral_connect_body endpoint u : fd_neutral (connect_body endpoint u).
Proof using All.
  unfold connect_body.
  repeat (apply neutral_bind; [|intros ?]);
    auto using neutral_setCloseOnExec, neutral_setNonBlocking, neutral_setTcpNoDelay;
    neutral.
Qed.

Lemma connect_body_outcome endpoint u s : (connect_body endpoint u s).1 ≠ NoFuel.
Proof using.
  unfold connect_body, setCloseOnExec, setNonBlocking, setTcpNoDelay, systemError,
    mbind, ST_bind, throw, sys_fcntl, sys_setsockopt, sys_connect, syscall; cbn.
  repeat case_match; simplify_eq; done.
Qed.

Lemma scoped_val {A} u (body : ST S (A * UniqueFd)) s a u' s' :
  body s = (Val (a, u'), s') → (scoped u body s).1 = Val a ∧
  (fd_ u' < 0 → (scoped u body s).2 = s').
Proof using.
  intros Hb. unfold scoped, try_catch, mbind, ST_bind, destroy, reset, mbind, ST_bind.
  rewrite Hb. cbn. destruct (Z.leb_spec 0 (fd_ u')); cbn; split; (done || lia).
Qed.

(** Opening a socket and handing it over from a scope; [P] is what a body
    that returns says about its descriptor, its result and the history. *)
Definition open_scoped {A} (what : string) family
    (body : UniqueFd → ST S (A * UniqueFd)) : ST S A :=
  r ← sys_socket family;
  match r with
  | Fail e => systemError what e
  | Ret raw => let socketFd := mkUniqueFd raw in scoped socketFd (body socketFd)
  end.

Lemma open_scoped_spec {A} what family (body : UniqueFd → ST S (A * UniqueFd))
    (P : Z → A → trace → Prop) s :
  (∀ u, fd_neutral (body u)) → (∀ u s, (body u s).1 ≠ NoFuel) →
  (∀ raw s a u' s', body (mkUniqueFd raw) s = (Val (a, u'), s') →
     u' = mkUniqueFd (-1) ∧ P raw a (view s')) →
  closes_ok (view s) →
  let r := open_scoped what family body s in
  closes_ok (view r.2) ∧
  match r.1 with
  | Val a => ∃ fd, k_socket (view s) family = Ret fd ∧ opens_one fd s r.2 ∧ P fd a (view r.2)
  | Exn _ => open_fds (view r.2) = open_fds (view s)
  | NoFuel => False
  end.
Proof using All.
  intros Hneu Hfuel Hval Hc r. subst r.
  assert (open_scoped what family body s =
    match k_socket (view s) family with
    | Fail e => systemError what e (upd (EvSocket family (Fail e) :: view s) s)
    | Ret raw => scoped (mkUniqueFd raw) (body (mkUniqueFd raw))
                   (upd (EvSocket family (Ret raw) :: view s) s)
    end) as ->.
  { unfold open_scoped, mbind at 1, ST_bind at 1, sys_socket, syscall.
    by destruct (k_socket (view s) family). }
  destruct (k_socket (view s) family) as [raw|e] eqn:Hk; cbn.
  2: { rewrite view_upd. done. }
  set (s1 := upd _ s).
  assert (sys_socket family s = (Val (Ret raw), s1)) as Hs.
  { unfold sys_socket, syscall, s1. by rewrite Hk. }
  destruct (socket_scope _ s raw s1 (body (mkUniqueFd raw)) Hs Hc) as [Hcl Hr];
    [apply Hneu|intros; by eapply Hval|].
  split; [done|]. specialize (Hfuel (mkUniqueFd raw) s1).
  destruct (scoped _ _ s1) as [[a|e|] s2] eqn:Hsc; cbn in *; [|done..].
  destruct Hr as [Hone [u' Hb]].
  destruct (body (mkUniqueFd raw) s1) as [o s3] eqn:Hbo; cbn in *. subst o.
  destruct (Hval _ _ _ _ _ Hbo) as [-> HP].
  destruct (scoped_val (mkUniqueFd raw) _ _ _ _ _ Hbo) as [_ Hst].
  rewrite Hsc in Hst. cbn in Hst. rewrite Hst in * by lia. eauto.
Qed.

Lemma connect_spec endpoint (s : S) :
  closes_ok (view s) →
  let r := connectNonBlocking endpoint s in
  closes_ok (view r.2) ∧
  match r.1 with
  | Val c => opens_one (fd c) s r.2 ∧
      ∃ tr, view r.2 = EvConnect (fd c) (address endpoint) (connect_answer c) :: tr
  | Exn _ => open_fds (view r.2) = open_fds (view s)
  | NoFuel => False
  end.
Proof using All.
  intros Hc.
  destruct (open_scoped_spec "upstream socket failed" (ss_family (address endpoint))
    (connect_body endpoint)
    (λ raw c t, fd c = raw ∧
       ∃ tr, t = EvConnect raw (address endpoint) (connect_answer c) :: tr) s)
    as [Hcl Hr]; eauto using neutral_connect_body, connect_body_outcome.
  { intros raw s1 c u' s' Hb. by apply connect_body_val in Hb. }
  split; [done|]. change (connectNonBlocking endpoint s) with
    (open_scoped "upstream socket failed" (ss_family (address endpoint))
      (connect_body endpoint) s).
  destruct (_.1); [|done..].
  by destruct Hr as (raw & _ & Hone & <- & Htr).
Qed.

(** What the body of [createListenSocket] returns. *)
Definition listen_body (endpoint : ResolvedEndpoint) (backlog : Z)
    (socketFd : UniqueFd) : ST S (Z * UniqueFd) :=
  setCloseOnExec (get socketFd) ;;
  setNonBlocking (get socketFd) ;;
  setReuseAddress (get socketFd) ;;
  r ← sys_bind (get socketFd) (address endpoint);
  match r with
  | Fail e => systemError "bind failed" e
  | Ret _ =>
      r ← sys_listen (get socketFd) backlog;
      match r with
      | Fail e => systemError "listen failed" e
      | Ret _ => mret (release socketFd)
      end
  end.

Lemma listen_body_val endpoint backlog raw s v u s' :
  listen_body endpoint backlog (mkUniqueFd raw) s = (Val (v, u), s') →
  u = mkUniqueFd (-1) ∧ v = raw ∧
  ∃ tr, view s' = EvListen raw backlog (Ret tt)
                  :: EvBind raw (address endpoint) (Ret tt) :: tr.
Proof using All.
  unfold listen_body. intros Hb. do 4 bind_inv Hb. unfold sys_bind, syscall in Hb3.
  injection Hb3 as <- <-. cbn in *.
  destruct (k_bind _ _ _) as [[]|e]; [|done]. bind_inv Hb.
  unfold sys_listen, syscall in Hb3. injection Hb3 as <- <-. cbn in *.
  destruct (k_listen _ _ _) as [[]|e]; [|done].
  injection Hb as <- <- <-. rewrite !view_upd. eauto.
Qed.

Lemma listen_body_outcome endpoint backlog u s :
  (listen_body endpoint backlog u s).1 ≠ NoFuel.
Proof using.
  unfold listen_body, setCloseOnExec, setNonBlocking, setReuseAddress, systemError,
    mbind, ST_bind, throw, sys_fcntl, sys_setsockopt, sys_bind, sys_listen, syscall; cbn.
  repeat case_match; simplify_eq; done.
Qed.

Lemma neutral_listen_body endpoint backlog u : fd_neutral (listen_body endpoint backlog u).
Proof using All.
  unfold listen_body.
  repeat (apply neutral_bind; [|intros ?]);
    auto using neutral_setCloseOnExec, neutral_setNonBlocking, neutral_setReuseAddress;
    neutral.
Qed.

Lemma listen_spec host port backlog (s : S) :
  closes_ok (view s) →
  let r := createListenSocket host port backlog s in
  closes_ok (view r.2) ∧
  match r.1 with
  | Val fd => opens_one fd s r.2 ∧
      ∃ a tr, view r.2 = EvListen fd backlog (Ret tt) :: EvBind fd a (Ret tt) :: tr
  | Exn _ => open_fds (view r.2) = open_fds (view s)
  | NoFuel => False
  end.
Proof using All.
  intros Hc r. subst r. destruct (neutral_resolve host port s) as [Ho Hcl].
  change (createListenSocket host port backlog) with
    (endpoint ← resolveTcpEndpoint host port;
     open_scoped "socket failed" (ss_family (address endpoint))
       (listen_body endpoint backlog)).
  assert ((resolveTcpEndpoint host port s).1 ≠ NoFuel) as Hfuel.
  { unfold resolveTcpEndpoint, mbind, ST_bind, sys_getaddrinfo, syscall, throw; cbn.
    repeat case_match; simplify_eq; done. }
  unfold mbind, ST_bind.
  destruct (resolveTcpEndpoint host port s) as [[endpoint|e|] s1]; [|cbn in *; auto|done].
  destruct (open_scoped_spec "socket failed" (ss_family (address endpoint))
    (listen_body endpoint backlog)
    (λ raw v t, v = raw ∧ ∃ a tr,
       t = EvListen raw backlog (Ret tt) :: EvBind raw a (Ret tt) :: tr) s1)
    as [Hcl1 Hr]; eauto using neutral_listen_body, listen_body_outcome.
  { intros raw s2 v u' s' Hb. apply listen_body_val in Hb. naive_solver. }
  split; [done|].
  cbn [fst snd] in *.
  destruct (open_scoped _ _ _ s1) as [[v|e|] s2]; cbn [fst snd] in *; [|congruence|done].
  destruct Hr as (raw & _ & (? & ? & ?) & <- & Htr). split; [|done].
  unfold opens_one. rewrite <- Ho. done.
Qed.

(** The trace after [k] polls of [fd] that a signal interrupted. *)
Definition interruptions (fd t : Z) (k : nat) (tr : trace) : trace :=
  replicate k (EvPoll fd POLLOUT t (Fail EINTR)) ++ tr.

Lemma interruptions_S fd t k tr :
  interruptions fd t k (EvPoll fd POLLOUT t (Fail EINTR) :: tr) =
  interruptions fd t (Datatypes.S k) tr.
Proof using Type. unfold interruptions. by rewrite replicate_S_end, <- app_assoc. Qed.

(** The kernel interrupts [k] polls in a row, and answers the next one [r]. *)
Definition answers (fd t : Z) (tr : trace) (k : nat) (r : sysret (Z * Z)) : Prop :=
  (∀ i, (i < k)%nat → k_poll (interruptions fd t i tr) fd POLLOUT t = Fail EINTR) ∧
  k_poll (interruptions fd t k tr) fd POLLOUT t = r.

(** Retrying an interrupted [poll] ends with the first answer that is not an
    interruption. *)
Lemma poll_retry_spec n `{!FewInterrupts K n} fuel fd t (s : S) :
  (0 < fuel)%nat → (n < fuel + interrupted_run (view s))%nat →
  ∃ r k, (poll_retry fuel fd t s).1 = Val r ∧ r ≠ Fail EINTR ∧
    (view (poll_retry fuel fd t s).2 : trace) =
      EvPoll fd POLLOUT t r :: interruptions fd t k (view s) ∧
    answers fd t (view s) k r.
Proof using All.
  revert s. induction fuel as [|fuel IH]; intros s Hf Hn; [lia|]. cbn [poll_retry].
  unfold mbind, ST_bind, sys_poll, syscall.
  pose proof (poll_few (n := n) (view s) fd POLLOUT t) as Hfew.
  destruct (k_poll (view s) fd POLLOUT t) as [v|e] eqn:Hk; cbn.
  - eexists _, O. split; [done|]. split; [done|]. rewrite view_upd. split; [done|].
    split; [intros i Hi; lia|exact Hk].
  - destruct (Z.eqb_spec e EINTR) as [->|He].
    + destruct (decide (n ≤ interrupted_run (view s))%nat); [by destruct Hfew|].
      destruct (IH (upd (EvPoll fd POLLOUT t (Fail EINTR) :: view s) s))
        as (r & k & Hr & Hne & Hv & Hbefore & Hlast); [lia|rewrite view_upd; cbn|].
      { rewrite Nat.add_succ_r. exact Hn. }
      rewrite view_upd in Hv, Hbefore, Hlast.
      exists r, (Datatypes.S k). split; [done|]. split; [done|].
      rewrite <- interruptions_S. split; [exact Hv|]. split.
      * intros [|i] Hi; [exact Hk|]. rewrite <- interruptions_S. apply Hbefore. lia.
      * by rewrite <- interruptions_S.
    + eexists _, O. split; [done|]. split; [congruence|]. cbn [mret ST_ret snd].
      rewrite view_upd. split; [done|]. split; [intros i Hi; lia|exact Hk].
Qed.

(** What the scope of [waitForConnect] computes. *)
Definition probe_body (fuel : nat) (result : ConnectResult) (timeoutMs : Z)
    (socketFd : UniqueFd) : ST S (bool * UniqueFd) :=
  if negb (connecting result) then mret (true, socketFd)
  else
    pollResult ← poll_retry fuel (get socketFd) timeoutMs;
    match pollResult with
    | Fail _ => mret (false, socketFd)
    | Ret (n, _) =>
        if n <=? 0 then mret (false, socketFd)
        else
          r ← sys_so_error (get socketFd);
          match r with
          | Ret error => mret (error =? 0, socketFd)
          | Fail _ => mret (false, socketFd)
          end
    end.

Lemma neutral_probe_body fuel c t u : fd_neutral (probe_body fuel c t u).
Proof using All.
  unfold probe_body. case_match; [neutral|].
  apply neutral_bind; [apply neutral_poll_retry|intros ?]. neutral.
Qed.

(** The verdict [b] of a probe whose connect left [tr], and the trace [tr'] it
    ends with: connected at once; or the first poll not interrupted gives no
    readiness, with the verdict false; or it does, and the verdict is whether
    [SO_ERROR], asked then, reads zero.  The socket is closed last. *)
Definition verdict (c : ConnectResult) (timeoutMs : Z) (tr : trace) (b : bool) (tr' : trace) : Prop :=
  if connecting c then
    ∃ k answer, let polled := EvPoll (fd c) POLLOUT timeoutMs answer ::
                                interruptions (fd c) timeoutMs k tr in
      answers (fd c) timeoutMs tr k answer ∧ answer ≠ Fail EINTR ∧
      match answer with
      | Ret (m, _) =>
          if 0 <? m then
            let error := k_so_error polled (fd c) in
            b = match error with Ret e => e =? 0 | Fail _ => false end ∧
            tr' = EvClose (fd c) :: EvSoError (fd c) error :: polled
          else b = false ∧ tr' = EvClose (fd c) :: polled
      | Fail _ => b = false ∧ tr' = EvClose (fd c) :: polled
      end
  else b = true ∧ tr' = EvClose (fd c) :: tr.

Lemma probe_body_val n `{!FewInterrupts K n} c t (s : S) :
  ∃ b s', probe_body (n + 1) c t (mkUniqueFd (fd c)) s = (Val (b, mkUniqueFd (fd c)), s') ∧
    verdict c t (view s) b (EvClose (fd c) :: (view s' : trace)).
Proof using All.
  unfold probe_body, verdict. destruct (connecting c); [|by exists true, s].
  cbn [negb get fd_].
  destruct (poll_retry_spec n (n + 1) (fd c) t s) as (r & k & Hr & Hne & Hv & Ha); [lia..|].
  unfold mbind, ST_bind. destruct (poll_retry _ _ _ s) as [o s1].
  cbn [fst snd] in Hr, Hv. subst o. 
  destruct r as [[m ev]|e].
  2: { exists false, s1. split; [done|]. exists k, (Fail e). by rewrite Hv. }
  rewrite Z.leb_antisym. destruct (0 <? m) eqn:Hlt; cbn [negb].
  2: { exists false, s1. split; [done|]. exists k, (Ret (m, ev)). by rewrite Hlt, Hv. }
  unfold sys_so_error, syscall. rewrite Hv.
  set (error := k_so_error _ (fd c)).
  exists (match error with Ret e => e =? 0 | Fail _ => false end), (upd (EvSoError (fd c) error ::
    EvPoll (fd c) POLLOUT t (Ret (m, ev)) :: interruptions (fd c) t k (view s)) s1).
  split; [rewrite (Hv : @view S (list event) _ s1 = _); by destruct error|]. exists k, (Ret (m, ev)).
  split; [done|]. split; [done|]. by rewrite Hlt, view_upd.
Qed.

Lemma waitForConnect_spec n `{!FewInterrupts K n} endpoint t (s : S) :
  closes_ok (view s) →
  ∃ b s', waitForConnect (n + 1) endpoint t s = (Val b, s') ∧
    open_fds (view s') = open_fds (view s) ∧ closes_ok (view s') ∧
    match connectNonBlocking endpoint s with
    | (Val c, s1) => verdict c t (view s1) b (view s')
    | (_, s1) => b = false ∧ view s' = view s1
    end.
Proof using All.
  intros Hc. pose proof (connect_spec endpoint s Hc) as [Hcl Hr]. cbv zeta in *.
  change (waitForConnect (n + 1) endpoint t) with
    (try_catch (result ← connectNonBlocking endpoint;
       let socketFd := mkUniqueFd (fd result) in
       scoped socketFd (probe_body (n + 1) result t socketFd)) (λ _, mret false)).
  unfold try_catch, mbind, ST_bind.
  destruct (connectNonBlocking endpoint s) as [[c|e|] s1]; cbn [fst snd] in *; [| |done].
  2: { eexists _, _. done. }
  destruct Hr as [(Hp & Hf & Ho) _].
  destruct (probe_body_val n c t s1) as (b & s2 & Hb & Hverd).
  destruct (scoped_spec (fd c) (probe_body (n + 1) c t (mkUniqueFd (fd c))) s1)
    as [Hcl2 Hsc]; [done|set_solver|done|apply neutral_probe_body| |].
  { intros a u' s' Hs. rewrite Hs in Hb. left. by injection Hb as <- <- _. }
  assert (scoped (mkUniqueFd (fd c)) (probe_body (n + 1) c t (mkUniqueFd (fd c))) s1 =
    (Val b, upd (EvClose (fd c) :: (view s2 : trace)) s2)) as Hs.
  { unfold scoped, try_catch, mbind, ST_bind. rewrite Hb.
    unfold destroy, reset. cbn. by destruct (Z.leb_spec 0 (fd c)); [|lia]. }
  rewrite Hs in Hcl2, Hsc |- *. cbn [fst snd] in *. rewrite view_upd in *.
  destruct Hsc as (u' & Hb' & Ho'). rewrite Hb in Hb'. injection Hb' as <-.
  exists b, (upd (EvClose (fd c) :: (view s2 : trace)) s2). rewrite view_upd.
  split; [done|]. split; [|done]. rewrite Ho', Ho.
  unfold after_drop; cbn. destruct (Z.leb_spec 0 (fd c)); [set_solver|lia].
Qed.
End contracts.

(** ** What passes through descriptors *)

Section streams.
Context {K : Kernel} {KL : KernelLaws K} {S : Type} `{LensLaws S trace}.

(** The calls of [m] neither transfer data nor create descriptors. *)
Definition silent {A} (m : ST S A) : Prop := ∀ F s, unheard F (view s) (view (m s).2).

Lemma silent_syscall {R} (ask : trace → R) log :
  (∀ r, mute (log r) = true ∧ opens (log r) = None) → silent (syscall ask log).
Proof using All.
  intros Hl F s. unfold syscall; cbn [snd]. rewrite view_upd.
  destruct (Hl (ask (view s))) as [Hm Ho]. apply unheard_event; [done|]. by rewrite Ho.
Qed.

Lemma silent_ret {A} (a : A) : silent (mret a).
Proof using Type. by intros F s. Qed.

Lemma silent_throw {A} e : silent (throw (A := A) e).
Proof using Type. by intros F s. Qed.

Lemma silent_diverge {A} : silent (diverge (A := A)).
Proof using Type. by intros F s. Qed.

Lemma silent_bind {A B} (m : ST S A) (k : A → ST S B) :
  silent m → (∀ a, silent (k a)) → silent (m ≫= k).
Proof using Type.
  intros Hm Hk F s. specialize (Hm F s). unfold mbind, ST_bind.
  destruct (m s) as [[a|e|] s']; cbn in *; [|done..]. etrans; [done|apply Hk].
Qed.

Lemma silent_try_catch {A} (m : ST S A) h : silent m → (∀ e, silent (h e)) → silent (try_catch m h).
Proof using Type.
  intros Hm Hh F s. specialize (Hm F s). unfold try_catch.
  destruct (m s) as [[a|e|] s']; cbn in *; [done| |done]. etrans; [done|apply Hh].
Qed.
End streams.

Ltac silent :=
  repeat first
    [ apply silent_bind; [|intros ?] | apply silent_try_catch; [|intros ?]
    | apply silent_ret | apply silent_throw | apply silent_diverge
    | apply silent_syscall; by intros ?
    | case_match ].

Section openings.
Context {K : Kernel} {KL : KernelLaws K} {S : Type} `{LensLaws S trace}.

Lemma silent_scoped {A} u (body : ST S (A * UniqueFd)) : silent body → silent (scoped u body).
Proof using All.
  intros Hb. unfold scoped, destroy, reset, sys_close. silent; apply Hb.
Qed.

Lemma silent_poll_retry fuel fd t : silent (S := S) (poll_retry fuel fd t).
Proof using All. induction fuel; cbn; unfold sys_poll; silent; done. Qed.

Lemma open_scoped_streams {A} what family (body : UniqueFd → ST S (A * UniqueFd)) s :
  (∀ u, silent (body u)) →
  let tr' := view (open_scoped what family body s).2 in
  unheard (open_fds (view s)) (view s) tr' ∧
  ∀ raw, k_socket (view s) family = Ret raw → got raw tr' = [] ∧ sent raw tr' = [].
Proof using All.
  intros Hb. unfold open_scoped, mbind, ST_bind, sys_socket, syscall. cbn beta iota.
  destruct (k_socket (view s) family) as [raw|e] eqn:Hk; cbn.
  - apply socket_fresh in Hk as [_ Hf]. set (s1 := upd _ s).
    assert (@eq trace (view s1) (EvSocket family (Ret raw) :: view s)) as Hv by apply view_upd.
    pose proof (silent_scoped (mkUniqueFd raw) _ (Hb (mkUniqueFd raw))) as Hq. split.
    + assert (unheard (open_fds (view s)) (view s) (view s1)) as H1.
      { rewrite Hv. apply unheard_event; [done|]. intros fd Hfd [= ->]. done. }
      etrans; [exact H1|apply Hq].
    + intros ? [= <-]. destruct (Hq {[raw]} s1) as [Hs _].
      destruct (Hs raw) as [-> ->]; [set_solver|]. rewrite Hv. by apply streams_opened.
  - unfold systemError, throw. cbn. rewrite view_upd. split; [|done]. by apply unheard_event.
Qed.

(** A scope that ends by handing its socket over. *)
Lemma open_scoped_created {A} what family (body : UniqueFd → ST S (A * UniqueFd))
    (fd_of : A → Z) s :
  (∀ u, fd_neutral (body u)) → (∀ u s, (body u s).1 ≠ NoFuel) → (∀ u, silent (body u)) →
  (∀ raw s a u' s', body (mkUniqueFd raw) s = (Val (a, u'), s') →
     u' = mkUniqueFd (-1) ∧ fd_of a = raw) →
  closes_ok (view s) →
  match open_scoped what family body s with
  | (Val a, s') => 0 <= fd_of a ∧ created (fd_of a) (view s) (view s')
  | (Exn _, s') => hushed (view s) (view s')
  | (NoFuel, _) => False
  end.
Proof using All.
  intros Hneu Hfuel Hq Hval Hc.
  destruct (open_scoped_spec what family body (λ raw a _, fd_of a = raw) s Hneu Hfuel Hval Hc)
    as [Hcl Hr].
  destruct (open_scoped_streams what family body s Hq) as [[Hs Hh] He].
  destruct (open_scoped what family body s) as [[a|e|] s']; cbn [fst snd] in *; [| |done].
  - destruct Hr as (raw & Hk & (Hp & Hf & Ho) & ->). split; [done|]. split; try done. by apply He.
  - by apply hushed_unheard.
Qed.

Lemma connect_streams endpoint (s : S) :
  closes_ok (view s) →
  match connectNonBlocking endpoint s with
  | (Val c, s') => 0 <= fd c ∧ created (fd c) (view s) (view s')
  | (Exn _, s') => hushed (view s) (view s')
  | (NoFuel, _) => False
  end.
Proof using All.
  apply (open_scoped_created "upstream socket failed" (ss_family (address endpoint))
    (connect_body endpoint) fd); eauto using neutral_connect_body, connect_body_outcome.
  - intros u. unfold connect_body, setCloseOnExec, setNonBlocking, setTcpNoDelay, systemError,
      sys_fcntl, sys_setsockopt, sys_connect. silent.
  - intros raw s1 c u' s' Hb. by apply connect_body_val in Hb as (? & ? & _).
Qed.

Lemma resolve_hushed host port (s : S) :
  hushed (view s) (view (resolveTcpEndpoint host port s).2).
Proof using All.
  destruct (neutral_resolve host port s) as [Ho Hc]. apply hushed_unheard; [|done..].
  assert (silent (S := S) (resolveTcpEndpoint host port)) as Hq; [|apply Hq].
  unfold resolveTcpEndpoint, sys_getaddrinfo. silent.
Qed.

Lemma listen_streams host port backlog (s : S) :
  closes_ok (view s) →
  match createListenSocket host port backlog s with
  | (Val fd, s') => 0 <= fd ∧ created fd (view s) (view s')
  | (Exn _, s') => hushed (view s) (view s')
  | (NoFuel, _) => False
  end.
Proof using All.
  intros Hc. pose proof (resolve_hushed host port s) as Hr.
  pose proof (proj2 (listen_spec host port backlog s Hc)) as Hl.
  change (createListenSocket host port backlog) with
    (endpoint ← resolveTcpEndpoint host port;
     open_scoped "socket failed" (ss_family (address endpoint)) (listen_body endpoint backlog)) in *.
  unfold mbind, ST_bind in *.
  destruct (resolveTcpEndpoint host port s) as [[endpoint|e|] s1]; cbn [fst snd] in *; [|done..].
  pose proof (open_scoped_created "socket failed" (ss_family (address endpoint))
    (listen_body endpoint backlog) id s1) as Ho.
  destruct (open_scoped _ _ _ s1) as [[raw|e|] s2]; [| |done].
  - destruct Ho as [Hp Hcr]; eauto using neutral_listen_body, listen_body_outcome.
    + intros u. unfold listen_body, setCloseOnExec, setNonBlocking, setReuseAddress, systemError,
        sys_fcntl, sys_setsockopt, sys_bind, sys_listen. silent.
    + intros raw' s3 c u' s' Hb. by apply listen_body_val in Hb as (? & ? & _).
    + by apply Hr.
    + split; [done|]. by eapply hushed_created.
  - etrans; [exact Hr|]. apply Ho; eauto using neutral_listen_body, listen_body_outcome.
    + intros u. unfold listen_body, setCloseOnExec, setNonBlocking, setReuseAddress, systemError,
        sys_fcntl, sys_setsockopt, sys_bind, sys_listen. silent.
    + intros raw' s3 c u' s' Hb. by apply listen_body_val in Hb as (? & ? & _).
    + by apply Hr.
Qed.

Lemma probe_hushed n `{!FewInterrupts K n} endpoint t (s : S) :
  closes_ok (view s) → hushed (view s) (view (waitForConnect (n + 1) endpoint t s).2).
Proof using All.
  intros Hc. destruct (waitForConnect_spec n endpoint t s Hc) as (b & s' & Hw & Ho & Hcl & _).
  rewrite Hw. apply hushed_unheard; [|done..]. cbn [snd].
  change (waitForConnect (n + 1) endpoint t) with
    (try_catch (result ← connectNonBlocking endpoint;
       let socketFd := mkUniqueFd (fd result) in
       scoped socketFd (probe_body (n + 1) result t socketFd)) (λ _, mret false)) in Hw.
  pose proof (connect_streams endpoint s Hc) as Hs. unfold try_catch, mbind, ST_bind in Hw.
  destruct (connectNonBlocking endpoint s) as [[c|e|] s1]; [| |done].
  - destruct Hs as [_ Hs].
    assert (silent (S := S) (scoped (mkUniqueFd (fd c)) (probe_body (n + 1) c t (mkUniqueFd (fd c))))) as Hq.
    { apply silent_scoped. unfold probe_body, sys_so_error. silent; try apply silent_poll_retry. }
    specialize (Hq (open_fds (view s)) s1).
    assert (unheard (open_fds (view s)) (view s) (view s1)) as H1 by by destruct Hs.
    etrans; [exact H1|]. destruct (scoped _ _ s1) as [[?|?|] s2]; by injection Hw as _ <-.
  - injection Hw as _ <-. by destruct Hs.
Qed.
End openings.

(** ** In a larger state *)

Section lifted.
Context `{K : Kernel} {S : Type} `{LensLaws S trace}.

Lemma lifts_scoped {A} u (body : ST S (A * UniqueFd)) body0 :
  lifts body body0 → lifts (scoped u body) (scoped (S := trace) u body0).
Proof using All.
  intros Hb. unfold scoped, destroy, reset.
  apply lifts_try_catch; [|intros e]; (apply lifts_bind; [|intros ?]); try done; lift_calls.
Qed.

Lemma lifts_connectNonBlocking e :
  lifts (connectNonBlocking (S := S) e) (connectNonBlocking (S := trace) e).
Proof using All.
  unfold connectNonBlocking, setCloseOnExec, setNonBlocking, setTcpNoDelay, systemError.
  apply lifts_bind; [apply lifts_syscall|intros r]. case_match; [|lift_calls].
  apply lifts_scoped. lift_calls.
Qed.

Lemma lifts_createListenSocket host port backlog :
  lifts (createListenSocket (S := S) host port backlog)
    (createListenSocket (S := trace) host port backlog).
Proof using All.
  unfold createListenSocket, resolveTcpEndpoint, setCloseOnExec, setNonBlocking, setReuseAddress,
    systemError.
  apply lifts_bind; [|intros e; apply lifts_bind; [apply lifts_syscall|intros r]].
  - apply lifts_bind; [apply lifts_syscall|intros r]. case_match; [|lift_calls].
    case_match. case_match; lift_calls.
  - case_match; [|lift_calls]. apply lifts_scoped. lift_calls.
Qed.

Lemma lifts_waitForConnect fuel e t :
  lifts (waitForConnect (S := S) fuel e t) (waitForConnect (S := trace) fuel e t).
Proof using All.
  unfold waitForConnect. apply lifts_try_catch; [|intros ?; lift_calls].
  apply lifts_bind; [apply lifts_connectNonBlocking|intros c].
  apply lifts_scoped. case_match; [lift_calls|].
  apply lifts_bind; [|intros r; lift_calls].
  induction fuel as [|fuel IH]; cbn [poll_retry]; [lift_calls|].
  apply lifts_bind; [apply lifts_syscall|intros r].
  case_match; [apply lifts_ret|]. case_match; [apply IH|apply lifts_ret].
Qed.
End lifted.

(** ** The functions' contracts *)

Section claims.
Context {K : Kernel} {KL : KernelLaws K}.

(** C33: [connectNonBlocking] either returns a socket that is new, open and
    on which [connect] was called with the endpoint's address ([connecting]
    says whether it is in progress), or throws having closed whatever it
    opened; it never closes a descriptor that is not its own. *)
Theorem connectNonBlocking_owns endpoint (tr : trace) :
  closes_ok tr →
  let r := connectNonBlocking endpoint tr in
  closes_ok r.2 ∧
  match r.1 with
  | Val c => opens_one (fd c) tr r.2 ∧
      ∃ tr', r.2 = EvConnect (fd c) (address endpoint)
                     (if connecting c then Fail EINPROGRESS else Ret tt) :: tr'
  | Exn _ => open_fds r.2 = open_fds tr
  | NoFuel => False
  end.
Proof using KL. exact (connect_spec (S := trace) endpoint tr). Qed.

(** [createListenSocket] either returns a new open descriptor on which
    [bind] and [listen] (with the caller's backlog) succeeded, or throws
    having closed whatever it opened. *)
Theorem createListenSocket_owns host port backlog (tr : trace) :
  closes_ok tr →
  let r := createListenSocket host port backlog tr in
  closes_ok r.2 ∧
  match r.1 with
  | Val fd => opens_one fd tr r.2 ∧
      ∃ a tr', r.2 = EvListen fd backlog (Ret tt) :: EvBind fd a (Ret tt) :: tr'
  | Exn _ => open_fds r.2 = open_fds tr
  | NoFuel => False
  end.
Proof using KL. exact (listen_spec (S := trace) host port backlog tr). Qed.

(** C32: the health probe [waitForConnect] always ends (interrupted [poll]s
    are retried), never throws, leaves no descriptor behind, and its verdict
    is exactly: connected at once, or the first [poll] that no signal
    interrupted reported the socket ready in time and [SO_ERROR], read then,
    was zero.  When the connect fails at once the verdict is negative; the
    calls made after the connect are those polls, the reading of [SO_ERROR]
    where there is one, and the closing of the socket. *)
Theorem waitForConnect_probe n `{!FewInterrupts K n} endpoint timeoutMs (tr : trace) :
  closes_ok tr →
  ∃ b tr', waitForConnect (n + 1) endpoint timeoutMs tr = (Val b, tr') ∧
    open_fds tr' = open_fds tr ∧ closes_ok tr' ∧
    match connectNonBlocking endpoint tr with
    | (Val c, tr1) => verdict c timeoutMs tr1 b tr'
    | (_, tr1) => b = false ∧ tr' = tr1
    end.
Proof using KL. exact (waitForConnect_spec (S := trace) n endpoint timeoutMs tr). Qed.
End claims.

(** ** The contracts at work *)

Definition local_endpoint : ResolvedEndpoint :=
  mkEndpoint (mkSockaddr AF_INET 0x901f [x7f; x00; x00; x01]) 16 "127.0.0.1:8080".

#[local] Existing Instance scripted_laws.

Lemma connectNonBlocking_owns_witness :
  let r := connectNonBlocking (K := scripted quiet) local_endpoint ([] : trace) in
  r.1 = Val (mkConnectResult 3 true) ∧ closes_ok r.2 ∧
  match r.1 with
  | Val c => opens_one (fd c) ([] : trace) r.2
  | _ => False
  end.
Proof.
  pose proof (connectNonBlocking_owns (K := scripted quiet) local_endpoint [] I) as H.
  split; [vm_compute; reflexivity|].
  split; [exact (proj1 H)|exact (proj1 (proj2 H))].
Defined.

Lemma createListenSocket_owns_witness :
  let r := createListenSocket (K := scripted quiet) "localhost" 8080 128 ([] : trace) in
  r.1 = Val 3 ∧ closes_ok r.2 ∧ open_fds r.2 = {[3]}.
Proof.
  pose proof (createListenSocket_owns (K := scripted quiet) "localhost" 8080 128 [] I) as H.
  split; [vm_compute; reflexivity|].
  split; [exact (proj1 H)|apply (bool_decide_unpack _); vm_compute; exact I].
Defined.

Lemma waitForConnect_probe_witness : ∃ b tr',
  waitForConnect (K := scripted quiet) 1 local_endpoint 500 ([] : trace) = (Val b, tr') ∧
  b = true ∧ open_fds tr' = ∅.
Proof.
  destruct (waitForConnect_probe (K := scripted quiet) 0 local_endpoint 500 [] I)
    as (b & tr' & Hw & Ho & _).
  exists b, tr'. split; [exact Hw|]. split; [|exact Ho].
  vm_compute in Hw. by injection Hw as <-.
Defined.

End Net.
