(* ===== verification/Backend.v ===== *)
(** * One backend node ([include/fluxgate/Backend.h], [src/Backend.cpp])

    The node's configuration and resolved address, and its run-time counters.
    [release] is two atomic accesses (a load and a subtraction): besides the
    sequential operations, the file has the machine of threads interleaving
    them, and shows that no interleaving loses or doubles a release. *)

From S2P Require Import Prelude Text Posix Config Net.
Local Open Scope Z_scope.

Module Backend.

Record Backend := mkBackend {
  config_ : Config.BackendConfig;
  endpoint_ : Net.ResolvedEndpoint;
  healthy_ : bool;
  activeConnections_ : Z;
  totalConnections_ : Z;
  failedConnections_ : Z
}.

(** The constructor: the address is resolved here, once. *)
Definition construct `{K : Kernel} {S} `{Lens S trace} (config : Config.BackendConfig) :
    ST S Backend :=
  endpoint ← Net.resolveTcpEndpoint (Config.host config) (Config.port config);
  mret (mkBackend config endpoint true 0 0 0).

Definition name (b : Backend) : string := Config.name (config_ b).
Definition weight (b : Backend) : Z := Config.weight (config_ b).
Definition endpoint (b : Backend) : Net.ResolvedEndpoint := endpoint_ b.
Definition healthy (b : Backend) : bool := healthy_ b.
Definition activeConnections (b : Backend) : Z := activeConnections_ b.

Definition setHealthy (value : bool) (b : Backend) : Backend :=
  mkBackend (config_ b) (endpoint_ b) value (activeConnections_ b)
    (totalConnections_ b) (failedConnections_ b).

(** [activeConnections_] with another value. *)
Definition set_active (n : Z) (b : Backend) : Backend :=
  mkBackend (config_ b) (endpoint_ b) (healthy_ b) n
    (totalConnections_ b) (failedConnections_ b).

Definition acquire (b : Backend) : Backend :=
  set_active (u64 (activeConnections_ b + 1)) b.

Definition release (b : Backend) : Backend :=
  let current := activeConnections_ b in
  if 0 <? current then set_active (u64 (activeConnections_ b - 1)) b else b.

Definition recordConnectSuccess (b : Backend) : Backend :=
  mkBackend (config_ b) (endpoint_ b) (healthy_ b) (activeConnections_ b)
    (u64 (totalConnections_ b + 1)) (failedConnections_ b).

Definition recordConnectFailure (b : Backend) : Backend :=
  mkBackend (config_ b) (endpoint_ b) (healthy_ b) (activeConnections_ b)
    (totalConnections_ b) (u64 (failedConnections_ b + 1)).

(** ** Threads using one backend *)

(** Where a thread is in its use of the backend: [Loaded current] between the
    two accesses of [release]. *)
Inductive phase :=
| Idle
| Holding
| Loaded (current : Z).

Definition holds (p : phase) : bool :=
  match p with Idle => false | _ => true end.

(** One atomic access by thread [i]; [threads !! i] is where it is. *)
Inductive step : Backend * list phase → Backend * list phase → Prop :=
| step_acquire b threads i :
    threads !! i = Some Idle →
    step (b, threads) (acquire b, <[i := Holding]> threads)
| step_load b threads i :
    threads !! i = Some Holding →
    step (b, threads) (b, <[i := Loaded (activeConnections_ b)]> threads)
| step_sub b threads i current :
    threads !! i = Some (Loaded current) →
    step (b, threads)
      ((if 0 <? current then set_active (u64 (activeConnections_ b - 1)) b else b),
       <[i := Idle]> threads).

(** Running the two accesses of [release] without interruption is [release]. *)
Lemma load_sub_release b threads i :
  threads !! i = Some Holding →
  rtc step (b, threads) (release b, <[i := Idle]> threads).
Proof.
  intros Hi. eapply rtc_l; [by apply step_load|].
  eapply rtc_l; [eapply step_sub, list_lookup_insert_eq, lookup_lt_Some; done|].
  rewrite list_insert_insert_eq. done.
Qed.

Fixpoint holders (threads : list phase) : Z :=
  match threads with
  | [] => 0
  | p :: threads' => Z.b2z (holds p) + holders threads'
  end.

Lemma holders_bounds threads : 0 <= holders threads <= Z.of_nat (length threads).
Proof. induction threads as [|p ps IH]; cbn; [lia|]. destruct (holds p); cbn; lia. Qed.

Lemma holders_insert threads i p q :
  threads !! i = Some p →
  holders (<[i := q]> threads) = holders threads - Z.b2z (holds p) + Z.b2z (holds q).
Proof.
  revert i. induction threads as [|r ps IH]; intros [|i] Hi; simplify_list_eq; cbn; [lia|].
  rewrite IH by done. lia.
Qed.

Lemma holders_idle threads : Forall (λ p, p = Idle) threads → holders threads = 0.
Proof. by induction 1 as [|p ps -> _ IH]. Qed.

Lemma holders_pos threads i p :
  threads !! i = Some p → holds p = true → 0 < holders threads.
Proof.
  intros Hi Hp. pose proof (holders_insert _ _ _ Idle Hi) as H.
  rewrite Hp in H. pose proof (holders_bounds (<[i:=Idle]> threads)). cbn in H. lia.
Qed.

(** The counter is the number of holders, and what a thread has loaded while
    holding is positive, so the guard of [release] never skips. *)
Definition counted (s : Backend * list phase) : Prop :=
  activeConnections_ s.1 = holders s.2 ∧
  Z.of_nat (length s.2) < 2 ^ 64 ∧
  ∀ i current, s.2 !! i = Some (Loaded current) → 0 < current.

Lemma step_counted s s' : counted s → step s s' → counted s'.
Proof.
  intros (Hc & Hl & Hp) Hs. destruct Hs as [b ts i Hi|b ts i Hi|b ts i c Hi]; cbn in *.
  - pose proof (holders_insert _ _ _ Holding Hi) as Hh. cbn in Hh.
    pose proof (holders_bounds (<[i:=Holding]> ts)) as Hb. rewrite length_insert in Hb.
    split_and!; cbn; rewrite ?length_insert; [|done|].
    + rewrite Hc. rewrite u64_small; [lia|]. unfold is_u64. lia.
    + intros j c Hj. apply list_lookup_insert_Some in Hj; naive_solver.
  - pose proof (holders_insert _ _ _ (Loaded (activeConnections_ b)) Hi) as Hh. cbn in Hh.
    split_and!; cbn; rewrite ?length_insert; [lia|done|].
    intros j c Hj. apply list_lookup_insert_Some in Hj as [(<- & [= <-] & _)|[_ Hj]]; [|eauto].
    rewrite Hc. by eapply holders_pos.
  - pose proof (holders_insert _ _ _ Idle Hi) as Hh. cbn in Hh.
    pose proof (holders_pos _ _ _ Hi eq_refl). pose proof (holders_bounds ts).
    specialize (Hp _ _ Hi) as Hpos. apply Z.ltb_lt in Hpos as ->.
    split_and!; cbn; rewrite ?length_insert; [|done|].
    + rewrite Hc. rewrite u64_small; [lia|]. unfold is_u64. lia.
    + intros j c' Hj. apply list_lookup_insert_Some in Hj; naive_solver.
Qed.

Lemma steps_counted s s' : rtc step s s' → counted s → counted s'.
Proof. induction 1; eauto using step_counted. Qed.

(** C26: whatever the interleaving of the atomic accesses of [acquire] and
    [release] by any number of threads, a backend that starts idle always has
    [activeConnections_] equal to the number of threads between the two, the
    guard of [release] never skips a decrement, and the counter never wraps;
    when every thread has released, it is back to zero. *)
Theorem concurrent_release_exact b b' n threads :
  activeConnections_ b = 0 → Z.of_nat n < 2 ^ 64 →
  rtc step (b, replicate n Idle) (b', threads) →
  activeConnections_ b' = holders threads ∧
  (∀ i current, threads !! i = Some (Loaded current) → 0 < current) ∧
  (Forall (λ p, p = Idle) threads → activeConnections_ b' = 0).
Proof.
  intros Hb Hn Hs. apply steps_counted in Hs as (Hc & _ & Hp); cbn in *.
  - split; [done|]. split; [done|]. intros Hall. rewrite Hc.
    by apply holders_idle.
  - split_and!; cbn.
    + rewrite Hb. clear. by induction n.
    + by rewrite length_replicate.
    + intros i c Hi. apply lookup_replicate in Hi as [? _]. done.
Qed.

(** A node to evaluate the theorems on. *)
Definition sample (name : string) (weight : Z) : Backend :=
  mkBackend (Config.mkBackendConfig name "127.0.0.1" 9001 weight)
    (Net.mkEndpoint (mkSockaddr AF_INET 0x2923 [x7f; x00; x00; x01]) 16 "127.0.0.1:9001")
    true 0 0 0.

Lemma concurrent_release_exact_witness : ∃ b',
  rtc step (sample "a" 1, replicate 2 Idle) (b', [Loaded 2; Loaded 2]) ∧
  activeConnections_ b' = 2.
Proof.
  assert (rtc step (sample "a" 1, replicate 2 Idle)
    (acquire (acquire (sample "a" 1)), [Loaded 2; Loaded 2])) as Hr.
  { eapply rtc_l; [by apply (step_acquire _ _ 0)|].
    eapply rtc_l; [by apply (step_acquire _ _ 1)|].
    eapply rtc_l; [by apply (step_load _ _ 0)|].
    eapply rtc_l; [by apply (step_load _ _ 1)|]. apply rtc_refl. }
  eexists. split; [exact Hr|].
  exact (proj1 (concurrent_release_exact (sample "a" 1) _ 2 _ eq_refl eq_refl Hr)).
Defined.

End Backend.
