(* ===== verification/BackendPool.v ===== *)
(** * Leases and selection ([include/fluxgate/BackendPool.h], [src/BackendPool.cpp])

    The pool is the list of backends and the rotation counter; a
    [shared_ptr<Backend>] is the backend's index in it, so that several
    references to one node share its counters.  [selectionMutex_] makes
    [acquire] one step with respect to itself, which this file takes as such;
    [PoolThreads] looks inside.

    The theorems: [acquire] picks a healthy node of least
    [active / weight], the first of those in rotation order; it shares
    sessions in exact proportion to the weights; and over any sequence of
    lease operations a node's [activeConnections_] is the number of live
    leases on it. *)

From S2P Require Import Prelude Text Posix Config Net Backend.
Local Open Scope Z_scope.

Module BackendPool.
Import Backend.

Record BackendPool := mkPool {
  backends_ : list Backend;
  tieBreaker_ : Z
}.

(** [std::shared_ptr<Backend>], possibly null. *)
Definition backend_ref : Type := option nat.

Record BackendLease := mkLease { backend_ : backend_ref }.

Definition valid (l : BackendLease) : bool :=
  match backend_ l with Some _ => true | None => false end.

Section ops.
Context {S : Type} `{Lens S BackendPool}.

(** [backend->f()]: an update through the shared pointer. *)
Definition on_backend (i : nat) (f : Backend → Backend) : ST S unit :=
  modify (λ s, upd (mkPool (alter f i (backends_ (view s))) (tieBreaker_ (view s))) s).

(** ** BackendLease *)

Definition lease (backend : backend_ref) : ST S BackendLease :=
  match backend with
  | Some i => on_backend i acquire ;; mret (mkLease (Some i))
  | None => mret (mkLease None)
  end.

Definition reset (l : BackendLease) : ST S BackendLease :=
  match backend_ l with
  | Some i => on_backend i release ;; mret (mkLease None)
  | None => mret l
  end.

(** [~BackendLease()]. *)
Definition destroy (l : BackendLease) : ST S unit := _ ← reset l; mret tt.

(** The move constructor: the new lease and the emptied source. *)
Definition move_construct (other : BackendLease) : BackendLease * BackendLease :=
  (mkLease (backend_ other), mkLease None).

(** [operator=(BackendLease&&)] for two distinct objects. *)
Definition move_assign (l other : BackendLease) : ST S (BackendLease * BackendLease) :=
  _ ← reset l; mret (mkLease (backend_ other), mkLease None).

(** ** BackendPool *)

(** The loop of the constructor. *)
Fixpoint make_backends `{K : Kernel} `{Lens S trace}
    (configs : list Config.BackendConfig) : ST S (list Backend) :=
  match configs with
  | [] => mret []
  | c :: configs' =>
      b ← Backend.construct c;
      bs ← make_backends configs';
      mret (b :: bs)
  end.

Definition construct `{K : Kernel} `{Lens S trace} (configs : list Config.BackendConfig) :
    ST S BackendPool :=
  match configs with
  | [] => throw "backend pool cannot be empty"
  | _ => bs ← make_backends configs; mret (mkPool bs 0)
  end.
End ops.

(** One iteration of the selection loop: [candidate] against [selected]. *)
Definition consider (bs : list Backend) (index : nat) (selected : backend_ref) :
    backend_ref :=
  match bs !! index with
  | None => selected
  | Some candidate =>
      if negb (healthy candidate) then selected
      else
        match selected with
        | None => Some index
        | Some k =>
            match bs !! k with
            | None => selected
            | Some best =>
                let left := u64 (activeConnections candidate * weight best) in
                let right := u64 (activeConnections best * weight candidate) in
                if left <? right then Some index else selected
            end
        end
  end.

(** [for (offset = 0; offset < n; ++offset)], over the offsets still to do. *)
Fixpoint select (bs : list Backend) (start : Z) (offsets : list Z)
    (selected : backend_ref) : backend_ref :=
  match offsets with
  | [] => selected
  | offset :: offsets' =>
      let index := u64 (start + offset) mod Z.of_nat (length bs) in
      select bs start offsets' (consider bs (Z.to_nat index) selected)
  end.

Definition acquire {S} `{Lens S BackendPool} : ST S BackendLease :=
  p ← gets view;
  let n := Z.of_nat (length (backends_ p)) in
  let start := tieBreaker_ p mod n in
  modify (λ s, upd (mkPool (backends_ (view s)) (u64 (tieBreaker_ (view s) + 1))) s) ;;
  lease (select (backends_ p) start (seqZ 0 n) None).

Definition hasHealthyBackend (p : BackendPool) : bool :=
  existsb healthy (backends_ p).

Example two_to_one_over_six_leases :
  let p := mkPool [sample "first" 1; sample "second" 2] 0 in
  let six := l0 ← acquire; l1 ← acquire; l2 ← acquire; l3 ← acquire; l4 ← acquire;
             l5 ← acquire; mret (backend_ <$> [l0; l1; l2; l3; l4; l5]) in
  let r := six p in
  r.1 = Val (Some <$> [0; 1; 1; 1; 0; 1])%nat ∧
  (activeConnections_ <$> backends_ r.2) = [2; 4].
Proof. vm_compute. split; reflexivity. Qed.

(** ** Selection *)

Lemma select_none bs start offsets :
  existsb healthy bs = false → select bs start offsets None = None.
Proof.
  intros Hb. induction offsets as [|o offsets IH]; cbn [select]; [done|]. unfold consider.
  destruct (bs !! _) as [b|] eqn:Hi; [|exact IH].
  destruct (healthy b) eqn:Hh; cbn [negb]; [|exact IH].
  assert (existsb healthy bs = true) as Hb'; [|congruence].
  apply existsb_exists. exists b. split; [|done].
  by eapply list_elem_of_In, list_elem_of_lookup_2.
Qed.

(** Bounds under which the cross products cannot wrap; [Config] limits the
    weights to 1..1000, and [2^54] sessions do not fit in any machine. *)
Definition backend_ok (b : Backend) : Prop :=
  1 <= weight b <= 1000 ∧ 0 <= activeConnections b < 2 ^ 54.

Definition pool_ok (p : BackendPool) : Prop :=
  backends_ p ≠ [] ∧ Z.of_nat (length (backends_ p)) < 2 ^ 32 ∧
  is_u64 (tieBreaker_ p) ∧ Forall backend_ok (backends_ p).

(** [active a / weight a <= active b / weight b], without the division. *)
Definition no_busier (a b : Backend) : Prop :=
  activeConnections a * weight b <= activeConnections b * weight a.
Definition less_busy (a b : Backend) : Prop :=
  activeConnections a * weight b < activeConnections b * weight a.

#[export] Instance less_busy_dec a b : Decision (less_busy a b).
Proof. unfold less_busy. apply _. Defined.

(** [k] is the first healthy node of least score among the indices [order]. *)
Definition first_least (bs : list Backend) (order : list nat) (k : nat) : Prop :=
  ∃ before after best, order = before ++ k :: after ∧
    bs !! k = Some best ∧ healthy best = true ∧
    (∀ j b, j ∈ before → bs !! j = Some b → healthy b = true → less_busy best b) ∧
    (∀ j b, j ∈ after → bs !! j = Some b → healthy b = true → no_busier best b).

Lemma no_busier_refl b : no_busier b b.
Proof. unfold no_busier. lia. Qed.

Lemma less_busy_trans a b c :
  0 < weight a → 0 < weight b → 0 < weight c →
  less_busy a b → no_busier b c → less_busy a c.
Proof.
  unfold less_busy, no_busier. intros Ha Hb Hc H1 H2.
  apply (Z.mul_lt_mono_pos_l (weight b)); [done|].
  assert (activeConnections a * weight b * weight c
          < activeConnections b * weight a * weight c) by nia.
  assert (activeConnections b * weight c * weight a
          <= activeConnections c * weight b * weight a) by nia.
  lia.
Qed.

Lemma consider_less bs k i best c :
  bs !! k = Some best → bs !! i = Some c → healthy c = true →
  backend_ok best → backend_ok c →
  consider bs i (Some k) = if bool_decide (less_busy c best) then Some i else Some k.
Proof.
  intros Hk Hi Hc [Hw1 Ha1] [Hw2 Ha2]. unfold consider. rewrite Hi, Hc, Hk. cbn [negb].
  rewrite !u64_small by (unfold is_u64; nia).
  unfold less_busy. case_bool_decide; by destruct (Z.ltb_spec
    (activeConnections c * weight best) (activeConnections best * weight c)); try lia.
Qed.

(** The loop's invariant: the selection over the indices done so far. *)
Definition selection (bs : list Backend) (order : list nat) (selected : backend_ref) :=
  match selected with
  | Some k => first_least bs order k
  | None => ∀ j b, j ∈ order → bs !! j = Some b → healthy b = false
  end.

Lemma selection_step bs order i selected :
  Forall backend_ok bs → (i < length bs)%nat →
  selection bs order selected → selection bs (order ++ [i]) (consider bs i selected).
Proof.
  intros Hok [c Hi]%lookup_lt_is_Some Hsel.
  pose proof (proj1 (Forall_lookup _ _) Hok) as Hat.
  destruct (healthy c) eqn:Hc.
  - destruct selected as [k|]; cbn in Hsel.
    + destruct Hsel as (before & after & best & -> & Hk & Hh & Hb & Ha).
      rewrite (consider_less bs k i best c) by eauto.
      case_bool_decide as Hl.
      * assert (∀ b j, bs !! j = Some b → no_busier best b → less_busy c b) as Hlt.
        { intros b j Hj Hnb. destruct (Hat _ _ Hi), (Hat _ _ Hk), (Hat _ _ Hj).
          by eapply (less_busy_trans c best b); lia || done. }
        exists (before ++ k :: after), [], c. split; [done|]. split; [done|]. split; [done|].
        split; [|set_solver].
        intros j b [Hj|[->|Hj]%elem_of_cons]%elem_of_app Hjb Hhb; simplify_eq.
        -- apply (Hlt b j); [done|]. apply Z.lt_le_incl, (Hb j); done.
        -- done.
        -- apply (Hlt b j); [done|]. by apply (Ha j).
      * exists before, (after ++ [i]), best. split; [by rewrite <- app_assoc|].
        split_and!; [done|done|done|].
        intros j b [Hj| ->%list_elem_of_singleton]%elem_of_app Hjb Hhb; [eauto|].
        simplify_eq. unfold less_busy, no_busier in *. lia.
    + unfold consider. rewrite Hi, Hc. exists order, [], c.
      split_and!; [done|done|done| |set_solver]. intros j b Hj Hb Hh.
      by rewrite (Hsel _ _ Hj Hb) in Hh.
  - replace (consider bs i selected) with selected by (unfold consider; by rewrite Hi, Hc).
    destruct selected as [k|]; cbn in *.
    + destruct Hsel as (before & after & best & -> & Hk & Hh & Hb & Ha).
      exists before, (after ++ [i]), best. split; [by rewrite <- app_assoc|].
      split_and!; [done|done|done|].
      intros j b [Hj| ->%list_elem_of_singleton]%elem_of_app Hjb Hhb; [eauto|].
      simplify_eq. congruence.
    + intros j b [Hj| ->%list_elem_of_singleton]%elem_of_app Hjb; [eauto|]. by simplify_eq.
Qed.

Lemma select_selection bs start offsets order selected :
  Forall backend_ok bs → bs ≠ [] → Z.of_nat (length bs) < 2 ^ 32 →
  0 <= start < Z.of_nat (length bs) →
  Forall (λ o, 0 <= o < Z.of_nat (length bs)) offsets →
  selection bs order selected →
  selection bs
    (order ++ ((λ o, Z.to_nat ((start + o) mod Z.of_nat (length bs))) <$> offsets))
    (select bs start offsets selected).
Proof.
  intros Hok Hne Hn Hs Hoffs. revert order selected.
  induction Hoffs as [|o offs Ho _ IH]; intros order selected Hsel; cbn.
  - by rewrite app_nil_r.
  - rewrite (u64_small (start + o)) by (unfold is_u64; lia).
    rewrite cons_middle, app_assoc. apply IH, selection_step; [done| |done].
    pose proof (Z.mod_pos_bound (start + o) (Z.of_nat (length bs))). lia.
Qed.

(** The order in which the loop looks at the nodes. *)
Definition rotation (p : BackendPool) : list nat :=
  rotate (Z.to_nat (tieBreaker_ p)) (seq 0 (length (backends_ p))).

Lemma rotation_offsets p : pool_ok p →
  (λ o, Z.to_nat ((tieBreaker_ p mod Z.of_nat (length (backends_ p)) + o)
                    mod Z.of_nat (length (backends_ p))))
    <$> seqZ 0 (Z.of_nat (length (backends_ p))) = rotation p.
Proof.
  intros (Hne & Hn & [Ht _] & _). unfold rotation.
  set (n := length (backends_ p)) in *.
  assert (0 < n)%nat by (subst n; destruct (backends_ p); [done|cbn; lia]).
  apply list_eq. intros i. rewrite list_lookup_fmap.
  destruct (decide (i < n)%nat) as [Hi|Hi].
  - rewrite lookup_seqZ_lt by lia. cbn [fmap option_fmap option_map].
    rewrite lookup_rotate_r by (rewrite length_seq; lia). rewrite length_seq.
    unfold rotate_nat_add. rewrite Z2Nat.id by lia.
    pose proof (Z.mod_pos_bound (tieBreaker_ p + Z.of_nat i) (Z.of_nat n)).
    rewrite lookup_seq_lt by lia. f_equal. rewrite Z.add_0_l, Zplus_mod_idemp_l. done.
  - rewrite lookup_seqZ_ge by lia. cbn. symmetry. apply lookup_ge_None_2.
    rewrite length_rotate, length_seq. lia.
Qed.

(** [acquire] in any state with a pool in it. *)
Lemma acquire_in {St} `{LensLaws St BackendPool} (s : St) : pool_ok (view s) →
  ∃ selected, selection (backends_ (view s)) (rotation (view s)) selected ∧
    acquire s = (Val (mkLease selected),
      upd (mkPool (match selected with
                   | Some k => alter Backend.acquire k (backends_ (view s))
                   | None => backends_ (view s)
                   end) (u64 (tieBreaker_ (view s) + 1))) s).
Proof.
  intros Hp. pose proof Hp as (Hne & Hn & Ht & Hok). set (p := view s) in *.
  exists (select (backends_ p) (tieBreaker_ p mod Z.of_nat (length (backends_ p)))
    (seqZ 0 (Z.of_nat (length (backends_ p)))) None).
  split.
  - rewrite <- (rotation_offsets p) by done. apply (select_selection _ _ _ []); try done.
    + apply Z.mod_pos_bound. destruct (backends_ p); [done|cbn; lia].
    + apply Forall_forall. intros o Ho%elem_of_seqZ. lia.
    + intros j b Hj. by apply not_elem_of_nil in Hj.
  - unfold acquire, lease, on_backend, gets, modify, mbind, ST_bind. fold p.
    destruct (select _ _ _ _); [|done]. cbn. by rewrite view_upd, upd_upd.
Qed.

Lemma acquire_step p : pool_ok p →
  ∃ selected, selection (backends_ p) (rotation p) selected ∧
    acquire p = (Val (mkLease selected),
      mkPool (match selected with
              | Some k => alter Backend.acquire k (backends_ p)
              | None => backends_ p
              end) (u64 (tieBreaker_ p + 1))).
Proof. exact (acquire_in (St := BackendPool) p). Qed.

Lemma rotation_all p j : (j < length (backends_ p))%nat → j ∈ rotation p.
Proof.
  intros Hj. unfold rotation, rotate.
  apply elem_of_app, or_comm, elem_of_app. rewrite take_drop. apply elem_of_seq. lia.
Qed.

Lemma none_healthy p : (∀ j b, j ∈ rotation p → backends_ p !! j = Some b → healthy b = false) ↔
  hasHealthyBackend p = false.
Proof.
  unfold hasHealthyBackend. rewrite <- not_true_iff_false, existsb_exists. split.
  - intros H (b & Hin & Hb). apply list_elem_of_In, list_elem_of_lookup in Hin as [j Hj].
    rewrite (H j b) in Hb; [done| |done]. apply rotation_all. by eapply lookup_lt_Some.
  - intros H j b _ Hj. apply not_true_iff_false. intros Hb. apply H. exists b.
    split; [|done]. apply list_elem_of_In. by eapply list_elem_of_lookup_2.
Qed.

(** C22: weighted least connections.  From any pool with the configured bounds
    [acquire] returns a lease on the first node, in rotation order, among the
    healthy nodes with the least [active / weight] (no cross product wraps),
    adds one to that node's active connections, changes nothing else of that
    node and no other node, and advances the rotation by one; the lease is invalid exactly when no node
    is healthy. *)
Theorem acquire_selects_least p : pool_ok p →
  ∃ selected p', acquire p = (Val (mkLease selected), p') ∧
    tieBreaker_ p' = u64 (tieBreaker_ p + 1) ∧
    match selected with
    | Some k => first_least (backends_ p) (rotation p) k ∧
        backends_ p' = alter (λ b, set_active (activeConnections b + 1) b) k (backends_ p)
    | None => hasHealthyBackend p = false ∧ backends_ p' = backends_ p
    end.
Proof.
  intros Hp. destruct (acquire_step p Hp) as (sel & Hsel & ->).
  eexists sel, _. split; [done|]. split; [done|]. cbn [backends_].
  destruct sel as [k|]; [|by apply none_healthy in Hsel].
  split; [done|]. destruct Hp as (_ & _ & _ & Hok).
  apply list_alter_ext; [|done]. intros b Hb.
  destruct (proj1 (Forall_lookup _ _) Hok _ _ Hb) as [_ ?].
  unfold Backend.acquire, activeConnections in *. by rewrite u64_small by (unfold is_u64; lia).
Qed.

Definition sample_pool : BackendPool :=
  mkPool [set_active 3 (sample "first" 1); setHealthy false (sample "down" 5);
          set_active 4 (sample "second" 2); set_active 2 (sample "third" 1)] 7.

Lemma acquire_selects_least_witness : ∃ p',
  acquire sample_pool = (Val (mkLease (Some 3%nat)), p') ∧
  first_least (backends_ sample_pool) [3; 0; 1; 2]%nat 3.
Proof.
  destruct (acquire_selects_least sample_pool) as (sel & p' & Ha & _ & Hs).
  { unfold pool_ok, backend_ok, sample_pool, is_u64.
    split; [done|]. split; [done|]. split; [cbn; lia|]. repeat constructor; vm_compute; done. }
  exists p'. assert (sel = Some 3%nat) as ->.
  { vm_compute in Ha. congruence. }
  split; [exact Ha|exact (proj1 Hs)].
Defined.

(** ** Shares *)

Fixpoint acquire_n {S} `{Lens S BackendPool} (m : nat) : ST S (list BackendLease) :=
  match m with
  | O => mret []
  | Datatypes.S m' => l ← acquire; ls ← acquire_n m'; mret (l :: ls)
  end.

(** Sessions held in proportion to the weights, up to the last one of each
    node: no node could give one away to another and lower the worst score. *)
Record shares (m : Z) (p : BackendPool) : Prop := {
  sh_nonempty : backends_ p ≠ [];
  sh_length : Z.of_nat (length (backends_ p)) < 2 ^ 32;
  sh_tie : is_u64 (tieBreaker_ p);
  sh_nodes : Forall (λ b, 1 <= weight b <= 1000 ∧ 0 <= activeConnections b ∧
                          healthy b = true) (backends_ p);
  sh_total : total activeConnections (backends_ p) = m;
  sh_fair : ∀ i j bi bj, backends_ p !! i = Some bi → backends_ p !! j = Some bj →
    (activeConnections bi - 1) * weight bj <= activeConnections bj * weight bi
}.

Lemma shares_pool_ok m p : shares m p → m < 2 ^ 54 → pool_ok p.
Proof.
  intros [Hne Hl Ht Hn Hm _] Hlt. split_and!; try done.
  apply Forall_lookup. intros i b Hb. pose proof (proj1 (Forall_lookup _ _) Hn _ _ Hb) as Hnb.
  split; [naive_solver|]. split; [naive_solver|].
  eapply Z.le_lt_trans; [eapply total_lookup_le; [|done]|lia].
  eapply Forall_impl; [exact Hn|]. naive_solver.
Qed.

Lemma first_least_all p k best :
  pool_ok p → first_least (backends_ p) (rotation p) k → backends_ p !! k = Some best →
  ∀ j b, backends_ p !! j = Some b → healthy b = true → no_busier best b.
Proof.
  intros Hp (before & after & b0 & Ho & Hk & _ & Hb & Ha) Hbest j b Hj Hh.
  simplify_eq. assert (j ∈ rotation p) as Hin.
  { apply rotation_all. by eapply lookup_lt_Some. }
  rewrite Ho in Hin. apply elem_of_app in Hin as [Hin|[->|Hin]%elem_of_cons].
  - apply Z.lt_le_incl. by apply (Hb j).
  - simplify_eq. apply no_busier_refl.
  - by apply (Ha j).
Qed.

Lemma shares_acquire m p : shares m p → m < 2 ^ 54 - 1 →
  ∃ k p', acquire p = (Val (mkLease (Some k)), p') ∧ shares (m + 1) p' ∧
    weight <$> backends_ p' = weight <$> backends_ p.
Proof.
  intros Hs Hm. assert (pool_ok p) as Hp by (eapply shares_pool_ok; [done|lia]).
  destruct (acquire_step p Hp) as (sel & Hsel & Ha). pose proof Hs as [Hne Hl Ht Hn Hmm Hf].
  pose proof (proj1 (Forall_lookup _ _) Hn) as Hat.
  destruct sel as [k|].
  2: { exfalso. destruct (backends_ p) as [|b bs] eqn:Hbs; [done|].
    cbn in Hsel. destruct (Hat O b eq_refl) as (_ & _ & Hh).
    rewrite (Hsel O b) in Hh; [done| |done]. apply rotation_all. rewrite Hbs. cbn. lia. }
  pose proof Hsel as (? & ? & best & _ & Hk & _).
  pose proof (first_least_all p k best Hp Hsel Hk) as Hleast.
  destruct (Hat _ _ Hk) as (Hw & Hpos & Hh).
  assert (activeConnections (Backend.acquire best) = activeConnections best + 1) as Hacq.
  { destruct Hp as (_ & _ & _ & Hok).
    destruct (proj1 (Forall_lookup _ _) Hok _ _ Hk) as [_ Hb].
    unfold Backend.acquire, activeConnections in *; cbn. by unwrap64. }
  assert (∀ j b, alter Backend.acquire k (backends_ p) !! j = Some b → ∃ b0,
    backends_ p !! j = Some b0 ∧ weight b = weight b0 ∧ healthy b = true ∧
    activeConnections b = activeConnections b0 + (if decide (j = k) then 1 else 0)) as Hnew.
  { intros j b. destruct (decide (j = k)) as [->|Hjk].
    - rewrite list_lookup_alter_eq, Hk. intros [= <-]. eauto.
    - rewrite list_lookup_alter_ne by done. intros Hj. exists b. destruct (Hat _ _ Hj) as (?&?&?).
      split_and!; try done. lia. }
  eexists k, _. split; [exact Ha|]. split.
  - split; cbn [backends_ tieBreaker_].
    + by destruct (backends_ p), k.
    + by rewrite length_alter.
    + apply u64_range.
    + apply Forall_lookup. intros j b Hj. destruct (Hnew _ _ Hj) as (b0 & H0 & -> & -> & ->).
      destruct (Hat _ _ H0) as (?&?&?). split_and!; [lia|lia|case_decide; lia|done].
    + rewrite (total_alter _ _ _ _ best), Hacq by done. lia.
    + intros i j bi bj Hi Hj. destruct (Hnew _ _ Hi) as (b1 & H1 & -> & _ & ->).
      destruct (Hnew _ _ Hj) as (b2 & H2 & -> & _ & ->).
      destruct (Hat _ _ H1) as (?&?&?), (Hat _ _ H2) as (?&?&?).
      specialize (Hf _ _ _ _ H1 H2).
      destruct (decide (i = k)) as [->|Hik]; [simplify_eq|case_decide; nia].
      specialize (Hleast _ _ H2 ltac:(done)). unfold no_busier in Hleast. case_decide; nia.
  - cbn [backends_]. apply list_eq. intros j. rewrite !list_lookup_fmap.
    destruct (decide (j = k)) as [->|?];
      [by rewrite list_lookup_alter_eq, Hk|by rewrite list_lookup_alter_ne].
Qed.

Lemma shares_acquire_n n m p : shares m p → m + Z.of_nat n < 2 ^ 54 →
  ∃ ls p', acquire_n n p = (Val ls, p') ∧ shares (m + Z.of_nat n) p' ∧
    weight <$> backends_ p' = weight <$> backends_ p ∧ Forall valid ls.
Proof.
  revert m p. induction n as [|n IH]; intros m p Hs Hm.
  - exists [], p. rewrite Z.add_0_r. done.
  - destruct (shares_acquire m p Hs) as (k & p1 & Ha & Hs1 & Hw1); [lia|].
    destruct (IH (m + 1) p1) as (ls & p2 & Hn & Hs2 & Hw2 & Hv); [done|lia|].
    exists (mkLease (Some k) :: ls), p2. cbn [acquire_n]. unfold mbind, ST_bind.
    rewrite Ha, Hn. split; [done|]. replace (m + Z.of_nat (Datatypes.S n)) with
      (m + 1 + Z.of_nat n) by lia. split_and!; [done|congruence|by constructor].
Qed.

(** Exact proportionality when the sessions can be divided without rest. *)
Lemma shares_exact m p k :
  shares m p → m = k * total weight (backends_ p) → 0 <= k →
  ∀ i b, backends_ p !! i = Some b → activeConnections b = k * weight b.
Proof.
  intros [_ _ _ Hn Hm Hf] Hk Hk0. rewrite <- Hm in Hk. clear Hm.
  pose proof (proj1 (Forall_lookup _ _) Hn) as Hat.
  assert (∀ i b, backends_ p !! i = Some b → activeConnections b <= k * weight b) as Hle.
  { intros i b Hb. destruct (Z.le_gt_cases (activeConnections b) (k * weight b)); [done|].
    exfalso.
    assert (Forall (λ b', 0 <= activeConnections b' - k * weight b') (backends_ p)) as Hge.
    { apply Forall_lookup. intros j b' Hj. specialize (Hf _ _ _ _ Hb Hj).
      destruct (Hat _ _ Hb) as (?&?&?), (Hat _ _ Hj) as (?&?&?). nia. }
    pose proof (total_lookup_le _ _ i b Hge Hb) as Hi. cbn in Hi.
    rewrite total_sub, total_scale in Hi. lia. }
  intros i b Hb. specialize (Hle i b Hb) as Hb'.
  assert (Forall (λ b, 0 <= k * weight b - activeConnections b) (backends_ p)) as Hnn.
  { apply Forall_lookup. intros j b' Hj. specialize (Hle j b' Hj). lia. }
  pose proof (total_lookup_le _ _ i b Hnn Hb) as Hi. cbn in Hi.
  rewrite total_sub, total_scale in Hi. lia.
Qed.

(** C24: starting from an idle pool of healthy nodes, [m] acquisitions (fewer
    than 2^54) all return valid leases and leave exactly [m] sessions, divided
    so that moving the last session of any node [i] to any node [j] would not
    lower the worse of the two scores; when [m] is a multiple [k] of the sum
    of the weights, every node has exactly [k] times its weight (the unit
    test's 2:4 for weights 1:2 and six leases). *)
Theorem weighted_shares_exact m p :
  pool_ok p → Z.of_nat m < 2 ^ 54 →
  Forall (λ b, healthy b = true ∧ activeConnections b = 0) (backends_ p) →
  ∃ ls p', acquire_n m p = (Val ls, p') ∧ Forall valid ls ∧
    weight <$> backends_ p' = weight <$> backends_ p ∧
    total activeConnections (backends_ p') = Z.of_nat m ∧
    (∀ i j bi bj, backends_ p' !! i = Some bi → backends_ p' !! j = Some bj →
       (activeConnections bi - 1) * weight bj <= activeConnections bj * weight bi) ∧
    (∀ k, 0 <= k → Z.of_nat m = k * total weight (backends_ p) →
       ∀ i b, backends_ p' !! i = Some b → activeConnections b = k * weight b).
Proof.
  intros (Hne & Hl & Ht & Hok) Hm Hidle.
  assert (shares 0 p) as Hs.
  { pose proof (proj1 (Forall_lookup _ _) Hidle) as Hat.
    pose proof (proj1 (Forall_lookup _ _) Hok) as Hb. split; try done.
    - apply Forall_lookup. intros i b Hi. destruct (Hat _ _ Hi), (Hb _ _ Hi). naive_solver lia.
    - clear -Hidle. induction Hidle as [|b bs [_ Hb] _ IH]; [done|].
      unfold total in *. cbn. lia.
    - intros i j bi bj Hi Hj. destruct (Hat _ _ Hi), (Hat _ _ Hj), (Hb _ _ Hj). nia. }
  destruct (shares_acquire_n m 0 p Hs Hm) as (ls & p' & Hn & Hs' & Hw & Hv).
  exists ls, p'. split_and!; try done; try apply Hs'.
  intros k Hk Hmk. eapply shares_exact; [exact Hs'| |done].
  replace (total weight (backends_ p')) with (total weight (backends_ p)); [lia|].
  assert (∀ bs, total weight bs = foldr Z.add 0 (weight <$> bs)) as Hf.
  { induction bs as [|b bs IH]; [done|]. unfold total in *. cbn. lia. }
  by rewrite !Hf, Hw.
Qed.

Lemma weighted_shares_exact_witness :
  let p := mkPool [sample "first" 1; sample "second" 2] 0 in
  ∃ ls p', acquire_n 6 p = (Val ls, p') ∧
    ∀ i b, backends_ p' !! i = Some b → activeConnections b = 2 * weight b.
Proof.
  intros p.
  destruct (weighted_shares_exact 6 p) as (ls & p' & Hn & _ & _ & _ & _ & Hk).
  - split_and!; [done|done|done|]. repeat constructor; vm_compute; done.
  - done.
  - repeat constructor.
  - exists ls, p'. split; [exact Hn|]. apply Hk; done.
Defined.

(** ** Programs over leases *)

(** Live lease objects by name, and the pool they refer to. *)
Record store := mkStore {
  handles : gmap nat BackendLease;
  pool : BackendPool
}.

#[export] Instance store_pool : Lens store BackendPool := {|
  view := pool;
  upd p s := mkStore (handles s) p
|}.
#[export] Instance store_pool_laws : LensLaws store BackendPool.
Proof. split; [done|by intros []|done]. Qed.

Inductive command :=
| Acquire (h : nat)                  (* BackendLease h = pool.acquire() *)
| MoveConstruct (h from : nat)       (* BackendLease h(std::move(from)) *)
| MoveAssign (h from : nat)          (* h = std::move(from) *)
| Reset (h : nat)                    (* h.reset() *)
| Destroy (h : nat)                  (* end of h's scope *)
| SetHealthy (i : nat) (value : bool)
| ConnectSuccess (i : nat)
| ConnectFailure (i : nat).

Definition set_handle (h : nat) (l : BackendLease) : ST store unit :=
  modify (λ s, mkStore (<[h := l]> (handles s)) (pool s)).
Definition drop_handle (h : nat) : ST store unit :=
  modify (λ s, mkStore (delete h (handles s)) (pool s)).

Definition exec (c : command) : ST store unit :=
  s ← gets (λ s, s);
  match c with
  | Acquire h =>
      match handles s !! h with
      | None => l ← acquire; set_handle h l
      | Some _ => mret tt
      end
  | MoveConstruct h from =>
      match handles s !! h, handles s !! from with
      | None, Some other =>
          let '(l, other') := move_construct other in
          set_handle from other' ;; set_handle h l
      | _, _ => mret tt
      end
  | MoveAssign h from =>
      match handles s !! h, handles s !! from with
      | Some l, Some other =>
          if (h =? from)%nat then mret tt
          else
            '(l', other') ← move_assign l other;
            set_handle from other' ;; set_handle h l'
      | _, _ => mret tt
      end
  | Reset h =>
      match handles s !! h with
      | Some l => l' ← reset l; set_handle h l'
      | None => mret tt
      end
  | Destroy h =>
      match handles s !! h with
      | Some l => destroy l ;; drop_handle h
      | None => mret tt
      end
  | SetHealthy i value => on_backend i (setHealthy value)
  | ConnectSuccess i => on_backend i recordConnectSuccess
  | ConnectFailure i => on_backend i recordConnectFailure
  end.

(** Live leases on node [i]. *)
Definition leases (i : nat) (hs : gmap nat BackendLease) : Z :=
  Z.of_nat (size (filter (λ kv, backend_ kv.2 = Some i) hs)).

Definition on (i : nat) (l : BackendLease) : Z :=
  if decide (backend_ l = Some i) then 1 else 0.

Lemma leases_insert_new i hs h l :
  hs !! h = None → leases i (<[h := l]> hs) = leases i hs + on i l.
Proof.
  intros Hh. unfold leases, on. rewrite map_filter_insert. cbn. case_decide.
  - rewrite map_size_insert_None; [lia|]. apply map_lookup_filter_None. auto.
  - rewrite delete_id by done. lia.
Qed.

Lemma leases_delete i hs h l :
  hs !! h = Some l → leases i (delete h hs) = leases i hs - on i l.
Proof.
  intros Hh. rewrite <- (insert_delete_id hs h l) at 2 by done.
  rewrite leases_insert_new by apply lookup_delete_eq. lia.
Qed.

Lemma leases_insert i hs h l l' :
  hs !! h = Some l → leases i (<[h := l']> hs) = leases i hs - on i l + on i l'.
Proof.
  intros Hh. rewrite <- insert_delete_eq, leases_insert_new by apply lookup_delete_eq.
  by rewrite (leases_delete _ _ _ _ Hh).
Qed.

(** Every node's counter reads [count]. *)
Definition accounts (count : nat → Z) (p : BackendPool) : Prop :=
  backends_ p ≠ [] ∧ Z.of_nat (length (backends_ p)) < 2 ^ 32 ∧ is_u64 (tieBreaker_ p) ∧
  ∀ i b, backends_ p !! i = Some b → 1 <= weight b <= 1000 ∧ activeConnections b = count i.

Lemma accounts_ext count count' p :
  (∀ i, count i = count' i) → accounts count p → accounts count' p.
Proof.
  intros Hc (H1 & H2 & H3 & H4). split_and!; try done.
  intros i b Hb. rewrite <- Hc. eauto.
Qed.

Lemma accounts_pool_ok count p :
  (∀ i, 0 <= count i < 2 ^ 54) → accounts count p → pool_ok p.
Proof.
  intros Hc (H1 & H2 & H3 & H4). split_and!; try done.
  apply Forall_lookup. intros i b Hb. destruct (H4 _ _ Hb) as [? Ha]. split; [done|].
  by rewrite Ha.
Qed.

Lemma accounts_alter count p i f d t :
  accounts count p → is_u64 t →
  (∀ b, backends_ p !! i = Some b → weight (f b) = weight b ∧
        activeConnections (f b) = activeConnections b + d) →
  accounts (λ j, count j + (if decide (j = i) then d else 0))
    (mkPool (alter f i (backends_ p)) t).
Proof.
  intros (H1 & H2 & H3 & H4) Ht Hf. split_and!; cbn [backends_ tieBreaker_].
  - by destruct (backends_ p), i.
  - by rewrite length_alter.
  - done.
  - intros j b. case_decide as Hji.
    + subst j. rewrite list_lookup_alter_eq.
      destruct (backends_ p !! i) as [b0|] eqn:Hb0; intros [= <-].
      destruct (Hf b0 eq_refl) as [-> ->], (H4 _ _ Hb0) as [? ->]. done.
    + rewrite list_lookup_alter_ne by done. rewrite Z.add_0_r. eauto.
Qed.

Lemma leases_bounds i hs : 0 <= leases i hs <= Z.of_nat (size hs).
Proof.
  unfold leases. split; [lia|]. apply inj_le, map_subseteq_size, map_filter_subseteq.
Qed.

Lemma leases_pos i hs h l :
  hs !! h = Some l → backend_ l = Some i → 0 < leases i hs.
Proof.
  intros Hh Hl. pose proof (leases_delete i hs h l Hh) as Hd. unfold on in Hd.
  rewrite decide_True in Hd by done. pose proof (leases_bounds i (delete h hs)). lia.
Qed.

(** [reset] on a live lease: the guard of [release] lets it through. *)
Lemma reset_in {St} `{LensLaws St BackendPool} count (s : St) l :
  accounts count (view s) → (∀ i, backend_ l = Some i → 0 < count i < 2 ^ 64) →
  ∃ p', reset l s = (Val (mkLease None), upd p' s) ∧ accounts (λ i, count i - on i l) p'.
Proof.
  intros Hc Hpos. unfold reset. destruct (backend_ l) as [i|] eqn:Hl.
  - eexists. split; [done|]. eapply accounts_ext, (accounts_alter count _ i release (-1));
      [|exact Hc|apply Hc|].
    + intros j. unfold on. rewrite Hl. cbn. repeat case_decide; simplify_eq; lia.
    + intros b Hb. destruct Hc as (_ & _ & _ & Hc). destruct (Hc _ _ Hb) as [_ Ha].
      specialize (Hpos i eq_refl). unfold release, activeConnections in *. rewrite Ha.
      destruct (Z.ltb_spec 0 (count i)); [|lia]. cbn. unwrap64. done.
  - exists (view s). rewrite upd_view. split; [by destruct l; cbn in *; subst|].
    eapply accounts_ext; [|exact Hc]. intros j. unfold on. rewrite Hl.
    case_decide; [done|lia].
Qed.

Lemma reset_accounts count s h l :
  accounts count (pool s) → handles s !! h = Some l →
  (∀ i, backend_ l = Some i → 0 < count i < 2 ^ 64) →
  ∃ p', reset l s = (Val (mkLease None), mkStore (handles s) p') ∧
    accounts (λ i, count i - on i l) p'.
Proof.
  intros Hc _ Hpos. destruct (reset_in count s l) as (p' & Hr & Hp'); [done|done|].
  by exists p'.
Qed.

Definition accounted (n : nat) (s : store) : Prop :=
  accounts (λ i, leases i (handles s)) (pool s) ∧ (size (handles s) ≤ n)%nat.

(** [acquire] adds its lease to the accounts. *)
Lemma acquire_accounts {St} `{LensLaws St BackendPool} count (s : St) :
  (∀ i, 0 <= count i < 2 ^ 54) → accounts count (view s) →
  ∃ l p', acquire s = (Val l, upd p' s) ∧ accounts (λ i, count i + on i l) p' ∧
    ∀ i, backend_ l = Some i → is_Some (backends_ p' !! i).
Proof.
  intros Hb Hc.
  destruct (acquire_in s) as (sel & Hsel & ->); [by eapply accounts_pool_ok|].
  eexists _, _. split; [done|]. unfold on. destruct sel as [k|]; cbn.
  - split.
    + eapply accounts_ext, (accounts_alter _ _ k Backend.acquire 1);
        [|exact Hc|apply u64_range|].
      * intros j. cbn. repeat case_decide; simplify_eq; lia.
      * intros b Hk. split; [done|]. destruct Hc as (_ & _ & _ & Hc).
        destruct (Hc _ _ Hk) as [_ Ha]. specialize (Hb k).
        unfold Backend.acquire, activeConnections in *. cbn. by unwrap64.
    + intros i [= <-]. destruct Hsel as (? & ? & b & _ & Hk & _).
      rewrite list_lookup_alter_eq, Hk. by eexists.
  - split; [|done]. destruct Hc as (?&?&?&Hc). split_and!; [done|done|apply u64_range|].
    intros i b Hi. cbn. rewrite Z.add_0_r. eauto.
Qed.

Lemma accounted_acquire n s h :
  accounted n s → Z.of_nat n < 2 ^ 54 → handles s !! h = None →
  ∃ l p', acquire s = (Val l, mkStore (handles s) p') ∧
    accounts (λ i, leases i (handles s) + on i l) p'.
Proof.
  intros [Hc Hn] Hlt _.
  destruct (acquire_accounts (λ i, leases i (handles s)) s) as (l & p' & Ha & Hp' & _).
  - intros i. pose proof (leases_bounds i (handles s)). lia.
  - exact Hc.
  - by exists l, p'.
Qed.

(** An update that touches neither the weight nor the active count. *)
Lemma quiet_accounted n s i f : accounted n s →
  (∀ b, weight (f b) = weight b ∧ activeConnections (f b) = activeConnections b) →
  ∃ s', on_backend i f s = (Val tt, s') ∧ accounted (n + 1) s'.
Proof.
  intros [Hc Hn] Hf. eexists; split; [done|]. split; cbn; [|lia].
  eapply accounts_ext, (accounts_alter _ _ i f 0); [|exact Hc|apply Hc|].
  - intros j. cbn. case_decide; lia.
  - intros b _. destruct (Hf b) as [-> ->]. split; [done|lia].
Qed.

(** A handle emptied. *)
Lemma leases_emptied i h hs l : hs !! h = Some l →
  leases i (<[h := mkLease None]> hs) = leases i hs - on i l.
Proof.
  intros Hh. rewrite (leases_insert _ _ _ l) by done. unfold on at 2. cbn.
  rewrite (decide_False (P := None = Some i)) by done. lia.
Qed.

Lemma leases_range n s h l i : accounted n s → Z.of_nat n < 2 ^ 54 →
  handles s !! h = Some l → backend_ l = Some i → 0 < leases i (handles s) < 2 ^ 64.
Proof.
  intros [_ Hsz] Hn Hh Hl. pose proof (leases_pos _ _ _ _ Hh Hl).
  pose proof (leases_bounds i (handles s)). lia.
Qed.

Lemma move_assign_accounted n s h from l other : accounted n s → Z.of_nat n < 2 ^ 54 →
  handles s !! h = Some l → handles s !! from = Some other → h ≠ from →
  ∃ s', ('(l', other') ← move_assign l other; set_handle from other' ;; set_handle h l') s = (Val tt, s') ∧
    accounted (n + 1) s'.
Proof.
  intros Hs Hn Hh Hf Hne. pose proof Hs as [Hc Hsz].
  destruct (reset_accounts _ s h l Hc Hh) as (p' & Hr & Hp'); [intros i; by eapply leases_range|].
  unfold move_assign, mbind, ST_bind. rewrite Hr. eexists; split; [done|]. split; cbn.
  - eapply accounts_ext; [|exact Hp']. intros i. cbn.
    rewrite (leases_insert _ _ _ l), (leases_emptied _ _ _ other) by by rewrite ?lookup_insert_ne.
    unfold on; cbn; lia.
  - rewrite !map_size_insert_Some; rewrite ?lookup_insert_ne by done; eauto; lia.
Qed.

Lemma exec_accounted n c s : accounted n s → Z.of_nat n < 2 ^ 54 →
  ∃ s', exec c s = (Val tt, s') ∧ accounted (n + 1) s'.
Proof.
  intros Hs Hn. pose proof Hs as [Hc Hsz].
  assert (accounted (n + 1) s) as Hskip by (split; [done|lia]).
  assert (∀ h l, handles s !! h = Some l → ∀ i, backend_ l = Some i →
            0 < leases i (handles s) < 2 ^ 64) as Hpos by eauto using leases_range.
  unfold exec, gets, mbind at 1, ST_bind at 1.
  destruct c as [h|h from|h from|h|h|i v|i|i].
  - destruct (handles s !! h) eqn:Hh; [by eauto|].
    destruct (accounted_acquire n s h) as (l & p' & Ha & Hp'); [done..|].
    unfold mbind, ST_bind. rewrite Ha. eexists; split; [done|]. split; cbn.
    + eapply accounts_ext; [|exact Hp']. intros i. by rewrite leases_insert_new.
    + rewrite map_size_insert_None by done. lia.
  - destruct (handles s !! h) eqn:Hh; [by eauto|].
    destruct (handles s !! from) as [other|] eqn:Hf; [|by eauto].
    eexists; split; [done|]. assert (h ≠ from) by congruence. split; cbn.
    + eapply accounts_ext; [|exact Hc]. intros i. cbn.
      rewrite leases_insert_new by by rewrite lookup_insert_ne.
      rewrite (leases_emptied _ _ _ other) by done. unfold on; cbn. lia.
    + rewrite map_size_insert_None by by rewrite lookup_insert_ne.
      rewrite map_size_insert_Some by done. lia.
  - destruct (handles s !! h) as [l|] eqn:Hh; [|by eauto].
    destruct (handles s !! from) as [other|] eqn:Hf; [|by eauto].
    destruct (Nat.eqb_spec h from) as [|Hne]; [by eauto|].
    by eapply move_assign_accounted.
  - destruct (handles s !! h) as [l|] eqn:Hh; [|by eauto].
    destruct (reset_accounts _ s h l Hc Hh (Hpos _ _ Hh)) as (p' & Hr & Hp').
    unfold mbind, ST_bind. rewrite Hr. eexists; split; [done|]. split; cbn.
    + eapply accounts_ext; [|exact Hp']. intros i. cbn. by rewrite (leases_emptied _ _ _ l).
    + rewrite map_size_insert_Some by done. lia.
  - destruct (handles s !! h) as [l|] eqn:Hh; [|by eauto].
    destruct (reset_accounts _ s h l Hc Hh (Hpos _ _ Hh)) as (p' & Hr & Hp').
    unfold destroy, mbind, ST_bind. rewrite Hr. eexists; split; [done|]. split; cbn.
    + eapply accounts_ext; [|exact Hp']. intros i. cbn. by rewrite (leases_delete _ _ _ l).
    + rewrite map_size_delete_Some by done. lia.
  - by apply quiet_accounted.
  - by apply quiet_accounted.
  - by apply quiet_accounted.
Qed.

Lemma program_accounted cs n s : accounted n s → Z.of_nat (n + length cs) < 2 ^ 54 →
  ∃ s', for_each exec cs s = (Val tt, s') ∧ accounted (n + length cs) s'.
Proof.
  revert n s. induction cs as [|c cs IH]; intros n s Hs Hn; cbn [for_each length].
  - exists s. by rewrite Nat.add_0_r.
  - destruct (exec_accounted n c s Hs) as (s1 & He & Hs1); [cbn in Hn; lia|].
    destruct (IH (n + 1)%nat s1) as (s2 & Hr & Hs2); [done|cbn in Hn; lia|].
    exists s2. unfold mbind, ST_bind. rewrite He, Hr. split; [done|].
    by replace (n + Datatypes.S (length cs))%nat with (n + 1 + length cs)%nat by lia.
Qed.

(** C25: leases are exact.  Over any program of lease operations (acquire,
    move, move-assign, reset, end of scope) interleaved with health changes
    and connect records, every node's active-connection counter equals the
    number of live leases on it: moves transfer, resets and destructions
    release exactly once, the guard against underflow never has to act. *)
Theorem lease_accounting cs p :
  pool_ok p → Forall (λ b, activeConnections b = 0) (backends_ p) →
  Z.of_nat (length cs) < 2 ^ 54 →
  ∃ s, for_each exec cs (mkStore ∅ p) = (Val tt, s) ∧
    ∀ i b, backends_ (pool s) !! i = Some b → activeConnections b = leases i (handles s).
Proof.
  intros (H1 & H2 & H3 & Hok) Hidle Hn.
  destruct (program_accounted cs 0 (mkStore ∅ p)) as (s & Hr & [Hc _]); [|done|].
  - split; [|done]. split_and!; [done..|]. intros i b Hb.
    split; [by apply (proj1 (Forall_lookup _ _) Hok _ _ Hb)|].
    by apply (proj1 (Forall_lookup _ _) Hidle _ _ Hb).
  - exists s. split; [done|]. intros i b Hb. by destruct Hc as (_ & _ & _ & Hc); apply Hc.
Qed.

Lemma lease_accounting_witness :
  let p := mkPool [sample "first" 1; sample "second" 2] 0 in
  let cs := [Acquire 0; Acquire 1; MoveConstruct 2 0; Acquire 3; MoveAssign 3 1;
             SetHealthy 0 false; Reset 2; Destroy 0; Acquire 4] in
  ∃ s, for_each exec cs (mkStore ∅ p) = (Val tt, s) ∧
    (activeConnections <$> backends_ (pool s)) = [0; 2] ∧
    ∀ i b, backends_ (pool s) !! i = Some b → activeConnections b = leases i (handles s).
Proof.
  intros p cs. destruct (lease_accounting cs p) as (s & Hr & Hs).
  - split_and!; [done|done|done|]. repeat constructor; vm_compute; done.
  - repeat constructor.
  - done.
  - exists s. split; [exact Hr|]. split; [|exact Hs].
    vm_compute in Hr. injection Hr as <-. reflexivity.
Defined.

End BackendPool.
