(* ===== verification/PoolThreads.v ===== *)
(** * Selection under interference ([BackendPool::acquire] in several threads)

    [BackendPool.acquire] is one step.  Here it is the accesses it is made of:
    the mutex, the rotation counter, and for each node the flag and the
    counters, one load at a time.  The mutex keeps other calls of [acquire]
    out, but leases are given back and the health checker sets flags without
    it, in the middle of a selection. *)

From stdpp Require Import gmultiset.
From S2P Require Import Prelude Text Posix Config Net Backend BackendPool.
Local Open Scope Z_scope.

Module PoolThreads.
Import Backend BackendPool.

(** Where a thread is.  [Outside] both operations; in [acquire]: [Entered]
    the mutex; [Looking] at the flag of the node [start + offset]; having found
    it up, [Loading] its counter and then [Comparing] with the counter of the
    node [k] selected so far; [Chosen]; [Leaving] the scope of the lock.
    [Releasing] a lease on [k], the counter loaded. *)
Inductive place :=
| Outside
| Entered
| Looking (start offset : Z) (selected : backend_ref)
| Loading (start offset : Z) (k : nat)
| Comparing (start offset : Z) (k : nat) (product : Z)
| Chosen (selected : backend_ref)
| Leaving
| Releasing (k : nat) (current : Z).

(** A thread: its place and the leases it has. *)
Record thread := mkThread { place_of : place; leases : gmultiset nat }.

Record state := mkState {
  selectionMutex_ : option nat;
  pool : BackendPool;
  threads : list thread
}.

Definition put (i : nat) (t : thread) (s : state) : state :=
  mkState (selectionMutex_ s) (pool s) (<[i := t]> (threads s)).

Definition set_pool (p : BackendPool) (s : state) : state :=
  mkState (selectionMutex_ s) p (threads s).

Definition set_mutex (m : option nat) (s : state) : state :=
  mkState m (pool s) (threads s).

Definition on_node (k : nat) (f : Backend → Backend) (s : state) : state :=
  set_pool (mkPool (alter f k (backends_ (pool s))) (tieBreaker_ (pool s))) s.

Definition size (s : state) : Z := Z.of_nat (length (backends_ (pool s))).

(** [(start + offset) % backends_.size()]. *)
Definition index (start offset : Z) (s : state) : nat :=
  Z.to_nat (u64 (start + offset) mod size s).

(** The next access of thread [i].  Outside, it enters [acquire], or gives a
    lease on [k] back if [give] is [Some k].  [None]: it has to wait for the
    mutex, or has no such lease. *)
Definition access (i : nat) (give : option nat) (s : state) : option state :=
  t ← threads s !! i;
  let go p := put i (mkThread p (leases t)) s in
  match place_of t with
  | Outside =>
      match give, selectionMutex_ s with
      | None, None => Some (set_mutex (Some i) (go Entered))
      | None, Some _ => None
      | Some k, _ =>
          if decide (k ∈ leases t) then
            b ← backends_ (pool s) !! k; Some (go (Releasing k (activeConnections b)))
          else None
      end
  | Entered =>
      let p := pool s in
      Some (set_pool (mkPool (backends_ p) (u64 (tieBreaker_ p + 1)))
              (go (Looking (tieBreaker_ p mod size s) 0 None)))
  | Looking start offset selected =>
      if offset <? size s then
        candidate ← backends_ (pool s) !! index start offset s;
        Some (go (if healthy candidate then
                    match selected with
                    | None => Looking start (offset + 1) (Some (index start offset s))
                    | Some k => Loading start offset k
                    end
                  else Looking start (offset + 1) selected))
      else Some (go (Chosen selected))
  | Loading start offset k =>
      candidate ← backends_ (pool s) !! index start offset s;
      selected ← backends_ (pool s) !! k;
      Some (go (Comparing start offset k (u64 (activeConnections candidate * weight selected))))
  | Comparing start offset k product =>
      candidate ← backends_ (pool s) !! index start offset s;
      selected ← backends_ (pool s) !! k;
      let right := u64 (activeConnections selected * weight candidate) in
      Some (go (Looking start (offset + 1)
                  (Some (if product <? right then index start offset s else k))))
  | Chosen None => Some (go Leaving)
  | Chosen (Some k) =>
      Some (on_node k Backend.acquire (put i (mkThread Leaving ({[+ k +]} ⊎ leases t)) s))
  | Leaving => Some (set_mutex None (go Outside))
  | Releasing k current =>
      Some (on_node k (λ b, if 0 <? current then set_active (u64 (activeConnections_ b - 1)) b else b)
              (put i (mkThread Outside (leases t ∖ {[+ k +]})) s))
  end.

(** An access of a thread, or of the health checker. *)
Inductive step : state → state → Prop :=
| step_thread i give s s' : access i give s = Some s' → step s s'
| step_health k up s : step s (on_node k (setHealthy up) s).

(** ** By itself *)

(** Thread [i], alone, for [n] accesses. *)
Fixpoint alone (n : nat) (i : nat) (s : state) : option state :=
  match n with
  | O => Some s
  | S n' => s' ← access i None s; alone n' i s'
  end.

Example alone_acquires :
  let p := mkPool [set_active 3 (sample "a" 1); sample "b" 2] 4 in
  (λ s, (pool s, place_of <$> threads s)) <$>
    alone 8 0 (mkState None p [mkThread Outside ∅; mkThread Outside ∅]) =
  Some ((acquire p).2, [Leaving; Outside]).
Proof. vm_compute. reflexivity. Qed.

Lemma alone_app m n i s s1 s2 : alone m i s = Some s1 → alone n i s1 = Some s2 → alone (m + n) i s = Some s2.
Proof.
  revert s. induction m as [|m IH]; intros s; cbn; [by intros [= ->]|].
  destruct (access i None s); [|done]. cbn. apply IH.
Qed.

Section alone.
Context (i : nat) (L : gmultiset nat) (s : state).
Hypothesis Hi : (i < length (threads s))%nat.

Definition at_place (p : place) : state := put i (mkThread p L) s.

Lemma at_place_lookup p : threads (at_place p) !! i = Some (mkThread p L).
Proof using Hi. by apply list_lookup_insert_eq. Qed.

Lemma put_at_place p t : put i t (at_place p) = put i t s.
Proof using Type. unfold put. cbn. by rewrite list_insert_insert_eq. Qed.

Lemma index_lookup st o : 0 < size s → ∃ c, backends_ (pool s) !! index st o s = Some c.
Proof using Type.
  clear Hi. intros Hs. apply lookup_lt_is_Some. pose proof (Z.mod_pos_bound (u64 (st + o)) (size s)).
  unfold index, size in *. lia.
Qed.

(** The accesses of the loop, at [at_place]. *)
Ltac at_place_access :=
  unfold access; rewrite at_place_lookup; cbn [mbind option_bind place_of leases];
  change (size (at_place _)) with (size s);
  change (index ?st ?o (at_place _)) with (index st o s);
  change (backends_ (pool (at_place _))) with (backends_ (pool s)).

Lemma access_look st o sel c : o < size s → backends_ (pool s) !! index st o s = Some c →
  access i None (at_place (Looking st o sel)) = Some (at_place
    (if healthy c then match sel with
       | None => Looking st (o + 1) (Some (index st o s)) | Some k => Loading st o k end
     else Looking st (o + 1) sel)).
Proof using Hi.
  intros Ho%Z.ltb_lt Hc. at_place_access. rewrite Ho, Hc. cbn [mbind option_bind]. by rewrite put_at_place.
Qed.

Lemma access_load st o k c b : backends_ (pool s) !! index st o s = Some c →
  backends_ (pool s) !! k = Some b → access i None (at_place (Loading st o k)) =
    Some (at_place (Comparing st o k (u64 (activeConnections c * weight b)))).
Proof using Hi.
  intros Hc Hb. at_place_access. rewrite Hc, Hb. cbn [mbind option_bind]. by rewrite put_at_place.
Qed.

Lemma access_compare st o k product c b : backends_ (pool s) !! index st o s = Some c →
  backends_ (pool s) !! k = Some b → access i None (at_place (Comparing st o k product)) =
    Some (at_place (Looking st (o + 1)
      (Some (if product <? u64 (activeConnections b * weight c) then index st o s else k)))).
Proof using Hi.
  intros Hc Hb. at_place_access. rewrite Hc, Hb. cbn [mbind option_bind]. by rewrite put_at_place.
Qed.

(** One turn of the loop is [consider]. *)
Lemma turn_alone st o sel : o < size s → 0 < size s →
  (∀ k, sel = Some k → (k < length (backends_ (pool s)))%nat) →
  let sel' := consider (backends_ (pool s)) (index st o s) sel in
  (∀ k, sel' = Some k → (k < length (backends_ (pool s)))%nat) ∧
  ∃ m, (m <= 3)%nat ∧ alone m i (at_place (Looking st o sel)) = Some (at_place (Looking st (o + 1) sel')).
Proof using Hi.
  intros Ho Hs Hsel sel'. destruct (index_lookup st o Hs) as [c Hc].
  pose proof (lookup_lt_Some _ _ _ Hc) as Hlt. pose proof (access_look st o sel c Ho Hc) as H1.
  subst sel'. unfold consider. rewrite Hc. destruct (healthy c) eqn:Hh; cbn [negb].
  - destruct sel as [k|].
    + destruct (proj2 (lookup_lt_is_Some _ _) (Hsel k eq_refl)) as [b Hb]. rewrite Hb.
      split; [intros ? Hk; case_match; injection Hk as <-; eauto|].
      exists 3%nat. split; [done|]. cbn [alone]. rewrite H1. cbn [mbind option_bind].
      rewrite (access_load st o k c b) by done. cbn [mbind option_bind].
      rewrite (access_compare st o k _ c b) by done. cbn [mbind option_bind]. by case_match.
    + split; [intros ? [= <-]; done|]. exists 1%nat. split; [lia|]. cbn [alone]. by rewrite H1.
  - split; [done|]. exists 1%nat. split; [lia|]. cbn [alone]. by rewrite H1.
Qed.

Lemma loop_alone todo st o sel : size s = o + Z.of_nat todo → 0 < size s →
  (∀ k, sel = Some k → (k < length (backends_ (pool s)))%nat) →
  ∃ m, (m <= 3 * todo)%nat ∧ alone m i (at_place (Looking st o sel)) = Some (at_place
    (Looking st (size s) (select (backends_ (pool s)) st (seqZ o (Z.of_nat todo)) sel))).
Proof using Hi.
  revert o sel. induction todo as [|todo IH]; intros o sel Hsz Hs Hsel.
  - exists 0%nat. split; [lia|]. cbn. do 3 f_equal. lia.
  - destruct (turn_alone st o sel) as (Hsel' & m1 & Hm1 & H1); [lia|done|done|].
    destruct (IH (o + 1) (consider (backends_ (pool s)) (index st o s) sel)) as (m2 & Hm2 & H2); [lia|done|done|].
    exists (m1 + m2)%nat. split; [lia|]. rewrite (alone_app _ _ _ _ _ _ H1 H2).
    rewrite (seqZ_cons o) by lia. by rewrite Nat2Z.inj_succ, Z.pred_succ.
Qed.

Lemma access_end st sel : access i None (at_place (Looking st (size s) sel)) = Some (at_place (Chosen sel)).
Proof using Hi. at_place_access. rewrite Z.ltb_irrefl. by rewrite put_at_place. Qed.

Lemma access_chosen sel : access i None (at_place (Chosen sel)) = Some
  match sel with
  | Some k => on_node k Backend.acquire (put i (mkThread Leaving ({[+ k +]} ⊎ L)) s)
  | None => at_place Leaving
  end.
Proof using Hi.
  at_place_access. destruct sel as [k|]; [|by rewrite put_at_place].
  unfold on_node, set_pool. cbn. by rewrite list_insert_insert_eq.
Qed.

Lemma access_entered : access i None (at_place Entered) = Some
  (put i (mkThread (Looking (tieBreaker_ (pool s) mod size s) 0 None) L)
    (set_pool (mkPool (backends_ (pool s)) (u64 (tieBreaker_ (pool s) + 1))) s)).
Proof using Hi. at_place_access. by rewrite put_at_place. Qed.
End alone.

(** Without interference the accesses are those of the one step
    [BackendPool.acquire], and at most [3 * n + 4] for [n] nodes. *)
Lemma alone_acquire i L s : threads s !! i = Some (mkThread Outside L) →
  selectionMutex_ s = None → pool_ok (pool s) →
  ∃ m l s', (m <= 3 * length (backends_ (pool s)) + 4)%nat ∧ alone m i s = Some s' ∧
    acquire (pool s) = (Val l, pool s') ∧
    threads s' !! i = Some (mkThread Leaving
      (match backend_ l with Some k => {[+ k +]} ⊎ L | None => L end)).
Proof.
  intros Ht Hm (Hne & _). pose proof (lookup_lt_Some _ _ _ Ht) as Hi. set (n := length (backends_ (pool s))).
  assert (0 < size s) as Hs by (unfold size; destruct (backends_ (pool s)); [done|cbn; lia]).
  set (st := tieBreaker_ (pool s) mod size s). set (s1 := set_mutex (Some i) s).
  set (s2 := set_pool (mkPool (backends_ (pool s)) (u64 (tieBreaker_ (pool s) + 1))) s1).
  assert (access i None s = Some (at_place i L s1 Entered)) as H0.
  { unfold access. by rewrite Ht, Hm. }
  assert (alone 2 i s = Some (at_place i L s2 (Looking st 0 None))) as H1.
  { cbn [alone]. rewrite H0. cbn [mbind option_bind]. by rewrite (access_entered i L s1). }
  destruct (loop_alone i L s2 Hi n st 0 None) as (m & Hm' & H2); [done|done|done|].
  set (sel := select _ st _ None) in H2.
  assert (alone 2 i (at_place i L s2 (Looking st (size s2) sel)) = Some
    match sel with
    | Some k => on_node k Backend.acquire (put i (mkThread Leaving ({[+ k +]} ⊎ L)) s2)
    | None => at_place i L s2 Leaving
    end) as H3.
  { cbn [alone]. rewrite access_end by done. cbn [mbind option_bind]. by rewrite access_chosen. }
  eexists (2 + (m + 2))%nat, (mkLease sel), _. split; [lia|].
  split; [by eapply alone_app; [exact H1|eapply alone_app; [exact H2|exact H3]]|].
  split; [|destruct sel; cbn; by apply list_lookup_insert_eq].
  unfold acquire, lease, on_backend, gets, modify, mbind, ST_bind. cbn.
  change (select (backends_ (pool s)) _ _ None) with sel. clearbody sel. by destruct sel.
Qed.

(** ** What always holds *)

Definition inside (p : place) : bool :=
  match p with Outside | Releasing _ _ => false | _ => true end.

Definition held (k : nat) (t : thread) : Z := Z.of_nat (multiplicity k (leases t)).

(** At most one thread in [acquire], and it has the mutex; the counters are the
    leases; a lease given back is there and was counted. *)
Record good (s : state) : Prop := {
  good_lock : ∀ i t, threads s !! i = Some t → inside (place_of t) = true ↔ selectionMutex_ s = Some i;
  good_count : ∀ k b, backends_ (pool s) !! k = Some b →
    activeConnections b = total (held k) (threads s);
  good_loaded : ∀ i t k current, threads s !! i = Some t → place_of t = Releasing k current →
    k ∈ leases t ∧ 0 < current
}.

(** Fewer than [2^54] leases on a node. *)
Definition few (s : state) : Prop := ∀ k, total (held k) (threads s) < 2 ^ 54.

Lemma held_nonneg k t : 0 <= held k t.
Proof. unfold held. lia. Qed.

Lemma total_held k ts : 0 <= total (held k) ts.
Proof. apply total_nonneg, Forall_forall. intros t _. apply held_nonneg. Qed.

(** Thread [i] moves to [t']; the other parts are as given. *)
Lemma good_move i t t' m p s :
  good s → threads s !! i = Some t →
  (m = if inside (place_of t') then Some i else if inside (place_of t) then None else selectionMutex_ s) →
  (inside (place_of t') = true → inside (place_of t) = true ∨ selectionMutex_ s = None) →
  (∀ k b, backends_ p !! k = Some b →
    activeConnections b = total (held k) (threads s) - held k t + held k t') →
  (∀ k c, place_of t' = Releasing k c → k ∈ leases t' ∧ 0 < c) →
  good (mkState m p (<[i := t']> (threads s))).
Proof.
  intros [Hl Hc Hr] Ht Hm Hin Hp Hr'. split; cbn.
  - intros j u Hj. pose proof (Hl i t Ht) as Hi. destruct (decide (j = i)) as [->|Hne].
    + rewrite list_lookup_insert_eq in Hj by by eapply lookup_lt_Some. injection Hj as <-.
      subst m. destruct (inside (place_of t')), (inside (place_of t)); naive_solver.
    + rewrite list_lookup_insert_ne in Hj by done. rewrite (Hl j u Hj). subst m.
      destruct (inside (place_of t')), (inside (place_of t)); naive_solver.
  - intros k b Hb. rewrite (total_insert _ _ _ t) by done. by apply Hp.
  - intros j u k c Hj. destruct (decide (j = i)) as [->|Hne].
    + rewrite list_lookup_insert_eq in Hj by by eapply lookup_lt_Some. injection Hj as <-. apply Hr'.
    + rewrite list_lookup_insert_ne in Hj by done. by apply (Hr j).
Qed.

(** A move that leaves pool counters and leases alone. *)
Lemma good_go i t q m p s :
  good s → threads s !! i = Some t →
  (m = if inside q then Some i else if inside (place_of t) then None else selectionMutex_ s) →
  (inside q = true → inside (place_of t) = true ∨ selectionMutex_ s = None) →
  (backends_ p = backends_ (pool s)) →
  (∀ k c, q = Releasing k c → k ∈ leases t ∧ 0 < c) →
  good (mkState m p (<[i := mkThread q (leases t)]> (threads s))).
Proof.
  intros Hg Ht Hm Hin Hp Hr. apply (good_move i t); try done. intros k b Hb.
  rewrite Hp in Hb. rewrite (good_count _ Hg _ _ Hb). unfold held. cbn. lia.
Qed.

Lemma lease_counted s i t k b : good s → threads s !! i = Some t → k ∈ leases t →
  backends_ (pool s) !! k = Some b → 0 < activeConnections b.
Proof.
  intros Hg Ht Hk Hb. rewrite (good_count _ Hg _ _ Hb).
  apply (proj1 (elem_of_multiplicity k (leases t))) in Hk.
  assert (held k t <= total (held k) (threads s)).
  { eapply total_lookup_le; [|done]. apply Forall_forall. intros u _. apply held_nonneg. }
  assert (0 < held k t) by (unfold held; lia). lia.
Qed.

Lemma lookup_alter_node (k j : nat) f (bs : list Backend) b' : alter f k bs !! j = Some b' →
  ∃ b, bs !! j = Some b ∧ b' = if decide (j = k) then f b else b.
Proof.
  case_decide as Hjk; [subst j; rewrite list_lookup_alter_eq|rewrite list_lookup_alter_ne by done];
    destruct (bs !! _) as [b|]; cbn; [intros [= <-]|done|intros [= <-]|done]; by exists b.
Qed.

Lemma held_take k j t : held j (mkThread Leaving ({[+ k +]} ⊎ leases t)) =
  held j t + if decide (j = k) then 1 else 0.
Proof.
  unfold held. cbn [leases]. rewrite multiplicity_disj_union, multiplicity_singleton.
  repeat case_decide; lia.
Qed.

Lemma held_give k j t : k ∈ leases t → held j (mkThread Outside (leases t ∖ {[+ k +]})) =
  held j t - if decide (j = k) then 1 else 0.
Proof.
  intros Hk. apply (proj1 (elem_of_multiplicity k (leases t))) in Hk. unfold held. cbn [leases].
  rewrite multiplicity_difference, multiplicity_singleton.
  repeat case_decide; subst; lia.
Qed.

Ltac open_access Ha Ht :=
  unfold access in Ha;
  match type of Ha with context [threads ?s !! ?i] => destruct (threads s !! i) as [t|] eqn:Ht; [|done] end;
  cbn [mbind option_bind] in Ha.

Ltac look_at Ha k b Hb :=
  match type of Ha with context [backends_ ?p !! k] =>
    destruct (backends_ p !! k) as [b|] eqn:Hb; [|done] end;
  cbn [mbind option_bind] in Ha.

Lemma access_good i give s s' : good s → few s → access i give s = Some s' → good s'.
Proof.
  intros Hg Hf Ha. open_access Ha Ht. pose proof (good_lock _ Hg _ _ Ht) as Hl.
  destruct (place_of t) as [| |st o sel|st o k|st o k pr|[k|]| |k c] eqn:Hp; cbn in Hl.
  - destruct give as [k|].
    + case_decide as Hk; [|done]. look_at Ha k b Hb.
      injection Ha as <-. apply good_go; rewrite ?Hp; try done.
      intros ? ? [= <- <-]. split; [done|]. by eapply lease_counted.
    + destruct (selectionMutex_ s) eqn:Hm; [done|]. injection Ha as <-.
      apply good_go; rewrite ?Hp; auto; done.
  - injection Ha as <-. apply good_go; rewrite ?Hp; auto; try done. by apply Hl.
  - case_match; [look_at Ha (index st o s) c Hc|]; injection Ha as <-;
      apply good_go; rewrite ?Hp; repeat case_match; auto; try done; by apply Hl.
  - look_at Ha (index st o s) c Hc. look_at Ha k b Hb. injection Ha as <-. apply good_go; rewrite ?Hp; auto; try done. by apply Hl.
  - look_at Ha (index st o s) c Hc. look_at Ha k b Hb. injection Ha as <-. apply good_go; rewrite ?Hp; auto; try done. by apply Hl.
  - injection Ha as <-. apply (good_move i t); rewrite ?Hp; auto; try done; [by apply Hl|].
    intros j b Hb. cbn in Hb. apply lookup_alter_node in Hb as (b0 & Hb & ->). rewrite held_take.
    pose proof (good_count _ Hg _ _ Hb) as Hc. pose proof (Hf j). pose proof (total_held j (threads s)).
    unfold activeConnections in *. case_decide; cbn; [|lia]. rewrite u64_small; [lia|]. unfold is_u64. lia.
  - injection Ha as <-. apply good_go; rewrite ?Hp; auto; try done. by apply Hl.
  - injection Ha as <-. apply good_go; rewrite ?Hp; auto; done.
  - injection Ha as <-. destruct (good_loaded _ Hg _ _ _ _ Ht Hp) as [Hk Hpos].
    apply (good_move i t); rewrite ?Hp; auto; try done.
    intros j b Hb. cbn in Hb. apply lookup_alter_node in Hb as (b0 & Hb & ->). rewrite held_give by done.
    pose proof (good_count _ Hg _ _ Hb) as Hc. pose proof (Hf j). apply Z.ltb_lt in Hpos as ->.
    unfold activeConnections in *. case_decide as Hj; [|lia]. subst j.
    pose proof (lease_counted _ _ _ _ _ Hg Ht Hk Hb). unfold activeConnections in *.
    cbn. rewrite u64_small; [lia|]. unfold is_u64. lia.
Qed.

Lemma step_good s s' : good s → few s → step s s' → good s'.
Proof.
  intros Hg Hf Hs. destruct Hs as [i give s s' Ha|k up s]; [by eapply access_good|].
  destruct Hg as [Hl Hc Hr]. split; [done| |done]. cbn. intros j b Hb.
  apply lookup_alter_node in Hb as (b0 & Hb & ->). rewrite <- (Hc _ _ Hb). by case_decide.
Qed.

(** ** During one selection *)

(** The same node with a counter that has not grown. *)
Definition lighter (b b' : Backend) : Prop :=
  weight b' = weight b ∧ activeConnections b' <= activeConnections b.

#[export] Instance lighter_preorder : PreOrder lighter.
Proof.
  split; unfold lighter; [done|]. intros b1 b2 b3 [-> ?] [-> ?]. split; [done|lia].
Qed.

Definition below (s s' : state) : Prop := Forall2 lighter (backends_ (pool s)) (backends_ (pool s')).

#[export] Instance below_preorder : PreOrder below.
Proof. unfold below. split; [by intros s|]. intros s1 s2 s3 H12 H23. by etrans. Qed.

Lemma below_same s s' : backends_ (pool s') = backends_ (pool s) → below s s'.
Proof. unfold below. by intros ->. Qed.

Lemma below_alter s s' k f :
  (∀ b, backends_ (pool s) !! k = Some b → lighter b (f b)) →
  backends_ (pool s') = alter f k (backends_ (pool s)) → below s s'.
Proof.
  unfold below. intros Hf ->. revert k Hf.
  induction (backends_ (pool s)) as [|b bs IH]; intros [|k] Hf; cbn; constructor; auto; done.
Qed.

(** Only taking a lease makes a counter grow. *)
Lemma access_below i give t s s' : good s → few s → threads s !! i = Some t →
  (∀ k, place_of t ≠ Chosen (Some k)) → access i give s = Some s' → below s s'.
Proof.
  intros Hg Hf Ht Hp Ha. unfold access in Ha. rewrite Ht in Ha. cbn [mbind option_bind] in Ha.
  destruct (place_of t) as [| |st o sel|st o k|st o k pr|[k|]| |k c] eqn:Hpl; try (by destruct (Hp k)).
  all: try by (repeat case_match; simplify_option_eq; by apply below_same).
  injection Ha as <-. eapply below_alter; [|reflexivity]. intros b Hb.
  destruct (good_loaded _ Hg _ _ _ _ Ht Hpl) as [Hk Hpos]. apply Z.ltb_lt in Hpos as ->.
  pose proof (lease_counted _ _ _ _ _ Hg Ht Hk Hb). pose proof (good_count _ Hg _ _ Hb). pose proof (Hf k).
  unfold lighter, activeConnections in *. cbn. split; [done|]. rewrite u64_small; [lia|]. unfold is_u64. lia.
Qed.
Section selection.
(* Thread [i] has entered [acquire] in [s0]; the nodes in [up] are healthy
   from then on, those in [down] are not. *)
Context (i : nat) (up down : nat → Prop) (s0 : state).
Hypothesis Hpool : pool_ok (pool s0).

(** From entering to the end of the loop. *)
Definition choosing (p : place) : bool :=
  match p with Outside | Leaving | Releasing _ _ => false | _ => true end.

Definition flags (s : state) : Prop := ∀ k b, backends_ (pool s) !! k = Some b →
  (up k → healthy b = true) ∧ (down k → healthy b = false).

(** A step by anyone while thread [i] is choosing. *)
Record during (s s' : state) : Prop := {
  during_step : step s s';
  during_few : few s';
  during_flags : flags s';
  during_choosing : ∀ t, threads s' !! i = Some t → choosing (place_of t) = true
}.

(** [k] may be selected after the nodes in [P]: it was healthy, and its ratio
    now is not above what theirs was at the start. *)
Definition best (s : state) (P : nat → Prop) (k : nat) : Prop :=
  ¬ down k ∧ ∃ b, backends_ (pool s) !! k = Some b ∧
    ∀ j b0, P j → up j → backends_ (pool s0) !! j = Some b0 → no_busier b b0.

Definition selected_ok (s : state) (P : nat → Prop) (selected : backend_ref) : Prop :=
  match selected with
  | Some k => best s P k
  | None => ∀ j, P j → is_Some (backends_ (pool s0) !! j) → ¬ up j
  end.

(** The node was looked at before [offset]. *)
Definition scanned (start offset : Z) (j : nat) : Prop :=
  ∃ o, 0 <= o < offset ∧ j = index start o s0.

Definition in_range (start offset : Z) : Prop := 0 <= start < size s0 ∧ 0 <= offset < size s0.

Definition place_ok (s : state) (p : place) : Prop :=
  match p with
  | Entered => True
  | Looking st o sel => 0 <= st < size s0 ∧ 0 <= o <= size s0 ∧ selected_ok s (scanned st o) sel
  | Loading st o k => in_range st o ∧ best s (scanned st o) k ∧ ¬ down (index st o s0)
  | Comparing st o k product =>
      in_range st o ∧ best s (scanned st o) k ∧ ¬ down (index st o s0) ∧
      ∃ a c c0 b, backends_ (pool s) !! index st o s0 = Some c ∧
        backends_ (pool s0) !! index st o s0 = Some c0 ∧ backends_ (pool s) !! k = Some b ∧
        activeConnections c <= a <= activeConnections c0 ∧ product = a * weight b
  | Chosen sel => selected_ok s (λ _, True) sel
  | _ => False
  end.

Record choice (s : state) : Prop := {
  choice_good : good s;
  choice_few : few s;
  choice_below : below s0 s;
  choice_flags : flags s;
  choice_place : ∃ t, threads s !! i = Some t ∧ place_ok s (place_of t)
}.

Lemma node_known s k b : good s → below s0 s → backends_ (pool s) !! k = Some b →
  ∃ b0, backends_ (pool s0) !! k = Some b0 ∧ weight b = weight b0 ∧ 1 <= weight b <= 1000 ∧
    0 <= activeConnections b <= activeConnections b0 ∧ activeConnections b0 < 2 ^ 54.
Proof using Hpool.
  intros Hg Hb Hk. destruct (Forall2_lookup_r _ _ _ _ _ Hb Hk) as (b0 & Hb0 & Hw & Ha).
  exists b0. split; [done|]. split; [done|]. destruct Hpool as (_ & _ & _ & Hok).
  destruct (proj1 (Forall_lookup _ _) Hok _ _ Hb0). rewrite Hw.
  rewrite (good_count _ Hg _ _ Hk) in *. pose proof (total_held k (threads s)). lia.
Qed.

Lemma size_below s : below s0 s → size s = size s0.
Proof. intros Hb. unfold size. f_equal. symmetry. by eapply Forall2_length. Qed.

Lemma index_below s st o : below s0 s → index st o s = index st o s0.
Proof. intros Hb. unfold index. by rewrite (size_below s Hb). Qed.

Lemma best_below s s' P k : below s s' → best s P k → best s' P k.
Proof using Hpool.
  intros Hb (Hd & b & Hk & Hn). split; [done|].
  destruct (Forall2_lookup_l _ _ _ _ _ Hb Hk) as (b' & Hk' & Hw & Ha). exists b'. split; [done|].
  intros j b0 Hj Hu Hj0. specialize (Hn j b0 Hj Hu Hj0).
  destruct (proj1 (Forall_lookup _ _) (proj2 (proj2 (proj2 Hpool))) _ _ Hj0) as [? _].
  unfold no_busier in *. rewrite Hw. nia.
Qed.

Lemma place_below s s' p : below s s' → place_ok s p → place_ok s' p.
Proof using Hpool.
  intros Hb. destruct p as [| |st o [k|]|st o k|st o k pr|[k|]| |k c]; cbn; try done.
  - intros (? & ? & ?). split; [done|]. split; [done|]. by eapply best_below.
  - intros (? & ? & ?). split; [done|]. split; [by eapply best_below|done].
  - intros (? & Hbest & ? & a & c & c0 & b & Hc & Hc0 & Hk & Ha & ->).
    split; [done|]. split; [by eapply best_below|]. split; [done|].
    destruct (Forall2_lookup_l _ _ _ _ _ Hb Hc) as (c' & Hc' & Hw & Hle).
    destruct (Forall2_lookup_l _ _ _ _ _ Hb Hk) as (b' & Hk' & Hwb & _).
    exists a, c', c0, b'. split_and!; try done; [lia|lia|by rewrite Hwb].
  - by apply best_below.
Qed.

Lemma scanned_next st o j : 0 <= o → scanned st (o + 1) j → scanned st o j ∨ j = index st o s0.
Proof using Type.
  intros Ho (o' & Hr & ->). destruct (decide (o' = o)) as [->|]; [by right|]. left. exists o'. split; [lia|done].
Qed.

Lemma scanned_all st j : 0 <= st < size s0 → is_Some (backends_ (pool s0) !! j) → scanned st (size s0) j.
Proof using Hpool.
  intros Hst Hj%lookup_lt_is_Some. destruct Hpool as (_ & Hn & _). unfold index, size in *.
  set (n := Z.of_nat (length (backends_ (pool s0)))) in *.
  exists ((Z.of_nat j - st) mod n). pose proof (Z.mod_pos_bound (Z.of_nat j - st) n). split; [lia|].
  unfold index, size. fold n. rewrite u64_small by (unfold is_u64; lia).
  rewrite Zplus_mod_idemp_r, Zplus_minus, Z.mod_small; lia.
Qed.

Lemma best_next s st o k b : 0 <= o → best s (scanned st o) k → backends_ (pool s) !! k = Some b →
  (∀ b0, up (index st o s0) → backends_ (pool s0) !! index st o s0 = Some b0 → no_busier b b0) →
  best s (scanned st (o + 1)) k.
Proof using Type.
  intros Ho (Hd & b1 & Hk1 & Hn) Hk Hnew. assert (b1 = b) as -> by congruence.
  split; [done|]. exists b. split; [done|].
  intros j b0 [Hj| ->]%scanned_next Hu Hj0; eauto.
Qed.

(** Skipping a node that is down. *)
Lemma selected_skip s st o sel : 0 <= o → ¬ up (index st o s0) →
  selected_ok s (scanned st o) sel → selected_ok s (scanned st (o + 1)) sel.
Proof using Type.
  intros Ho Hnu. destruct sel as [k|]; cbn.
  - intros (Hd & b & Hk & Hn). apply (best_next s st o k b); [done|split; eauto|done|done].
  - intros Hs j [Hj| ->]%scanned_next Hsome; eauto.
Qed.

(** The first healthy node. *)
Lemma best_first s st o c : 0 <= o → good s → below s0 s →
  selected_ok s (scanned st o) None → ¬ down (index st o s0) →
  backends_ (pool s) !! index st o s0 = Some c →
  best s (scanned st (o + 1)) (index st o s0).
Proof using Hpool.
  intros Ho Hg Hb Hs Hd Hc. split; [done|]. exists c. split; [done|].
  intros j b0 Hj Hu Hj0. apply scanned_next in Hj as [Hj| ->]; [| |done].
  - by destruct (Hs j Hj).
  - destruct (node_known _ _ _ Hg Hb Hc) as (c0 & Hc0 & Hw & ? & ? & _). simplify_eq.
    unfold no_busier. rewrite Hw. nia.
Qed.

(** The comparison: both counters may have gone down since they were loaded. *)
Lemma best_compared s st o k a b c c0 : 0 <= o → good s → below s0 s →
  best s (scanned st o) k → ¬ down (index st o s0) →
  backends_ (pool s) !! index st o s0 = Some c → backends_ (pool s0) !! index st o s0 = Some c0 →
  backends_ (pool s) !! k = Some b → activeConnections c <= a <= activeConnections c0 →
  best s (scanned st (o + 1))
    (if a * weight b <? activeConnections b * weight c then index st o s0 else k).
Proof using Hpool.
  intros Ho Hg Hb (Hdk & b1 & Hk1 & Hn) Hd Hc Hc0 Hk Ha. assert (b1 = b) as -> by congruence. clear Hk1.
  destruct (node_known _ _ _ Hg Hb Hc) as (c1 & Hc1 & Hwc & ? & ? & _). simplify_eq.
  destruct (node_known _ _ _ Hg Hb Hk) as (b0 & _ & _ & ? & ? & _).
  destruct (Z.ltb_spec (a * weight b) (activeConnections b * weight c)) as [Hlt|Hge].
  - split; [done|]. exists c. split; [done|]. intros j b1 Hj Hu Hj0.
    apply scanned_next in Hj as [Hj| ->]; [| |done].
    + apply Z.lt_le_incl. destruct (proj1 (Forall_lookup _ _) (proj2 (proj2 (proj2 Hpool))) _ _ Hj0) as [? _].
      apply (less_busy_trans c b b1); try lia; [|by eapply Hn].
      unfold less_busy. nia.
    + simplify_eq. unfold no_busier. nia.
  - apply (best_next s st o k b); [done|split; eauto|done|]. intros b1 _ Hb1. simplify_eq.
    unfold no_busier. rewrite <- Hwc. nia.
Qed.

(** A look at one flag, and the end of the loop. *)
Lemma look_choice s st o c sel : good s → below s0 s → flags s →
  0 <= st < size s0 → 0 <= o < size s0 → selected_ok s (scanned st o) sel →
  backends_ (pool s) !! index st o s0 = Some c →
  place_ok s (if healthy c then
                match sel with
                | None => Looking st (o + 1) (Some (index st o s0))
                | Some k => Loading st o k
                end
              else Looking st (o + 1) sel).
Proof using Hpool.
  intros Hg Hb Hfl Hst Ho Hsel Hc. destruct (Hfl _ _ Hc) as [Hu Hd]. destruct (healthy c) eqn:Hh.
  - assert (¬ down (index st o s0)) as Hnd by naive_solver. destruct sel as [k|].
    + by split.
    + split; [done|]. split; [lia|]. by eapply best_first; [lia|..].
  - split; [done|]. split; [lia|]. apply selected_skip; [lia| |done]. naive_solver.
Qed.

Lemma looked_at_all s st sel : 0 <= st < size s0 →
  selected_ok s (scanned st (size s0)) sel → place_ok s (Chosen sel).
Proof using Hpool.
  intros Hst Hsel. destruct sel as [k|]; cbn in *.
  - destruct Hsel as (Hd & b & Hk & Hn). split; [done|]. exists b. split; [done|].
    intros j b0 _ Hu Hj. apply (Hn j); [|done|done]. by apply scanned_all.
  - intros j _ Hj. apply Hsel; [by apply scanned_all|done].
Qed.

(** Thread [i] goes on choosing. *)
Lemma own_choice give t s s' : choice s → threads s !! i = Some t →
  access i give s = Some s' → place_ok s (place_of t) →
  (∀ t', threads s' !! i = Some t' → choosing (place_of t') = true) →
  ∃ q, threads s' !! i = Some (mkThread q (leases t)) ∧ place_ok s q.
Proof using Hpool.
  intros [Hg Hf Hb Hfl _] Ht Ha Hok Hch. unfold access in Ha. rewrite Ht in Ha.
  cbn [mbind option_bind] in Ha.
  assert (∀ q m p, s' = mkState m p (<[i := mkThread q (leases t)]> (threads s)) →
    place_ok s q → ∃ q, threads s' !! i = Some (mkThread q (leases t)) ∧ place_ok s q) as Hgo.
  { intros q m p -> Hq. exists q. split; [|done]. cbn. apply list_lookup_insert_eq. by eapply lookup_lt_Some. }
  assert (0 < size s0) as Hsz.
  { destruct Hpool as (Hne & _). unfold size. destruct (backends_ (pool s0)); [done|cbn; lia]. }
  destruct (place_of t) as [| |st o sel|st o k|st o k pr|[k|]| |k c]; cbn in Hok; try done.
  - injection Ha as <-. eapply Hgo; [reflexivity|]. cbn. rewrite (size_below s Hb).
    split; [by apply Z.mod_pos_bound|]. split; [lia|]. intros j (o & ? & _). lia.
  - destruct Hok as (Hst & Ho & Hsel). rewrite (size_below s Hb), (index_below s) in Ha by done.
    destruct (Z.ltb_spec o (size s0)) as [Hlt|Hge].
    + look_at Ha (index st o s0) c Hc. injection Ha as <-. eapply Hgo; [reflexivity|].
      apply look_choice; done || lia.
    + injection Ha as <-. eapply Hgo; [reflexivity|]. assert (o = size s0) as -> by lia.
      by eapply looked_at_all.
  - destruct Hok as (Hr & Hbest & Hnd). rewrite (index_below s) in Ha by done.
    look_at Ha (index st o s0) c Hc. look_at Ha k b Hk. injection Ha as <-.
    eapply Hgo; [reflexivity|]. split; [done|]. split; [done|]. split; [done|].
    destruct (node_known _ _ _ Hg Hb Hc) as (c0 & Hc0 & _ & _ & ? & ?).
    destruct (node_known _ _ _ Hg Hb Hk) as (b0 & _ & _ & ? & _ & _).
    exists (activeConnections c), c, c0, b. split_and!; try done; try lia.
    rewrite u64_small; [done|]. unfold is_u64. nia.
  - destruct Hok as ([Hst Ho] & Hbest & Hnd & a & c & c0 & b & Hc & Hc0 & Hk & Hac & ->).
    rewrite (index_below s) in Ha by done. rewrite Hc in Ha. cbn [mbind option_bind] in Ha.
    rewrite Hk in Ha. cbn [mbind option_bind] in Ha. injection Ha as <-. eapply Hgo; [reflexivity|].
    destruct (node_known _ _ _ Hg Hb Hc) as (c1 & _ & _ & ? & ? & _).
    destruct (node_known _ _ _ Hg Hb Hk) as (b0 & _ & _ & ? & ? & ?).
    rewrite u64_small by (unfold is_u64; nia). split; [done|]. split; [lia|].
    by eapply best_compared; [lia|..].
  - injection Ha as <-. cbn in Hch. specialize (Hch (mkThread Leaving ({[+ k +]} ⊎ leases t))).
    cbn in Hch. rewrite list_lookup_insert_eq in Hch by by eapply lookup_lt_Some. by specialize (Hch eq_refl).
  - injection Ha as <-. cbn in Hch. specialize (Hch (mkThread Leaving (leases t))).
    cbn in Hch. rewrite list_lookup_insert_eq in Hch by by eapply lookup_lt_Some. by specialize (Hch eq_refl).
Qed.

Lemma access_elsewhere j give s s' : access j give s = Some s' → j ≠ i →
  threads s' !! i = threads s !! i.
Proof using Type.
  intros Ha Hne. unfold access in Ha. destruct (threads s !! j) as [t|]; [|done].
  cbn [mbind option_bind] in Ha. repeat case_match; simplify_option_eq; by apply list_lookup_insert_ne.
Qed.

Lemma place_ok_inside s p : place_ok s p → inside p = true.
Proof. by destruct p. Qed.

Lemma during_choice s s' : choice s → during s s' → choice s'.
Proof using Hpool.
  intros Hc [Hs Hf' Hfl' Hch]. pose proof Hc as [Hg Hf Hb Hfl (t & Ht & Hok)].
  assert (good s') as Hg' by by eapply step_good.
  assert (below s s' → (∃ q L, threads s' !! i = Some (mkThread q L) ∧ place_ok s q) → choice s') as Hgo.
  { intros Hss (q & L & Hq & Hqok). split; try done; [by etrans|]. eexists. split; [done|].
    by eapply place_below. }
  destruct Hs as [j give s s' Ha|k v s].
  - destruct (decide (j = i)) as [->|Hne].
    + destruct (own_choice _ _ _ _ Hc Ht Ha Hok Hch) as (q & Hq & Hqok). apply Hgo; [|eauto].
      eapply access_below; try done. intros k Hk. specialize (Hch _ Hq).
      unfold access in Ha. rewrite Ht in Ha. cbn [mbind option_bind] in Ha. rewrite Hk in Ha.
      injection Ha as <-. cbn in Hq. rewrite list_lookup_insert_eq in Hq by by eapply lookup_lt_Some.
      by injection Hq as <-.
    + assert (∃ u, threads s !! j = Some u) as [u Hu].
      { unfold access in Ha. destruct (threads s !! j); [eauto|done]. }
      apply Hgo.
      * eapply access_below; [done|done|exact Hu| |done]. intros k Hk.
        pose proof (proj1 (good_lock _ Hg _ _ Ht) (place_ok_inside _ _ Hok)) as Hi.
        pose proof (proj1 (good_lock _ Hg _ _ Hu)) as Hj. rewrite Hk in Hj. specialize (Hj eq_refl). congruence.
      * destruct t as [q L]. exists q, L. split; [|done]. rewrite <- Ht. by eapply access_elsewhere.
  - apply Hgo.
    + eapply below_alter; [|reflexivity]. by intros b _.
    + destruct t as [q L]. by exists q, L.
Qed.
End selection.

(** ** Runs *)

(** Nobody in the pool yet. *)
Definition idle (p : BackendPool) (n : nat) : state :=
  mkState None p (replicate n (mkThread Outside ∅)).

(** Steps with fewer than [2^54] leases on any node. *)
Definition fair_step (s s' : state) : Prop := step s s' ∧ few s'.

Lemma idle_good p n : Forall (λ b, activeConnections b = 0) (backends_ p) →
  good (idle p n) ∧ few (idle p n).
Proof.
  intros Hp.
  assert (∀ k, total (held k) (replicate n (mkThread Outside ∅)) = 0) as Hz.
  { intros k. induction n as [|n IH]; [done|]. cbn [replicate]. by rewrite total_cons, IH. }
  split; [|intros k; cbn; by rewrite Hz]. split; cbn.
  - by intros i t [-> _]%lookup_replicate.
  - intros k b Hb. rewrite Hz. by apply (proj1 (Forall_lookup _ _) Hp k).
  - by intros i t k c [-> _]%lookup_replicate.
Qed.

Lemma fair_good s s' : rtc fair_step s s' → good s ∧ few s → good s' ∧ few s'.
Proof.
  induction 1 as [|s1 s2 s3 [Hs Hf] _ IH]; [done|]. intros [Hg H1]. apply IH. split; [|done].
  by eapply step_good.
Qed.

(** C23: what [acquire] promises while others interfere.  Let threads take and
    give back leases and the health checker set flags, interleaved access by
    access, and let thread [i] enter [acquire] in [s0].  However it is
    interrupted until its loop ends, no counter grows meanwhile; the node it
    then takes is not one that was down all the while, and its active-to-weight
    ratio at that moment is not above the ratio any node that stayed healthy had
    when it entered; it takes none only if no node stayed healthy. *)
Theorem acquire_under_interference p n i up down s0 s1 sel L0 L1 :
  Forall (λ b, activeConnections b = 0) (backends_ p) →
  rtc fair_step (idle p n) s0 → pool_ok (pool s0) →
  threads s0 !! i = Some (mkThread Entered L0) → flags up down s0 →
  rtc (during i up down) s0 s1 → threads s1 !! i = Some (mkThread (Chosen sel) L1) →
  (∀ j b0, backends_ (pool s0) !! j = Some b0 → ∃ b1, backends_ (pool s1) !! j = Some b1 ∧
    weight b1 = weight b0 ∧ 0 <= activeConnections b1 <= activeConnections b0) ∧
  match sel with
  | Some k => ¬ down k ∧ ∃ b, backends_ (pool s1) !! k = Some b ∧
      ∀ j b0, up j → backends_ (pool s0) !! j = Some b0 → no_busier b b0
  | None => ∀ j, is_Some (backends_ (pool s0) !! j) → ¬ up j
  end.
Proof.
  intros Hp Hr Hpool Ht Hfl Hd Ht1.
  destruct (fair_good _ _ Hr (idle_good p n Hp)) as [Hg Hf].
  assert (choice i up down s0 s1) as [Hg1 _ Hb1 _ (t & Ht' & Hok)].
  { assert (choice i up down s0 s0) as H0.
    { split; try done. by exists (mkThread Entered L0). }
    enough (∀ s s', rtc (during i up down) s s' → choice i up down s0 s → choice i up down s0 s') as H
      by exact (H _ _ Hd H0).
    induction 1; eauto using during_choice. }
  simplify_eq. cbn in Hok. split.
  - intros j b0 Hj. destruct (Forall2_lookup_l _ _ _ _ _ Hb1 Hj) as (b1 & Hj1 & Hw & Ha).
    exists b1. split; [done|]. split; [done|]. rewrite (good_count _ Hg1 _ _ Hj1) in *.
    split; [apply total_held|done].
  - destruct sel as [k|]; cbn in Hok.
    + destruct Hok as (Hnd & b & Hk & Hn). split; [done|]. exists b. split; [done|]. eauto.
    + intros j Hj. by apply Hok.
Qed.
(** ** A small case *)

Inductive move := Go (i : nat) (give : option nat) | Flag (k : nat) (healthy : bool).

Definition play (m : move) (s : state) : option state :=
  match m with
  | Go i give => access i give s
  | Flag k up => Some (on_node k (setHealthy up) s)
  end.

(** A run through states that pass a test. *)
Fixpoint run (ok : state → bool) (ms : list move) (s : state) : option state :=
  match ms with
  | [] => Some s
  | m :: ms => s' ← play m s; if ok s' then run ok ms s' else None
  end.

Lemma run_rtc ok (R : state → state → Prop) ms s s' :
  (∀ s s', step s s' → ok s' = true → R s s') → run ok ms s = Some s' → rtc R s s'.
Proof.
  intros HR. revert s. induction ms as [|m ms IH]; intros s; cbn; [by intros [= ->]|].
  destruct (play m s) as [s1|] eqn:Hm; [|done]. cbn. destruct (ok s1) eqn:Hok; [|done].
  intros H. eapply rtc_l; [|by apply IH]. apply HR; [|done].
  destruct m as [i give|k up]; cbn in Hm; [by econstructor|]. injection Hm as <-. constructor.
Qed.

Definition fewb (s : state) : bool :=
  total (λ t, Z.of_nat (base.size (leases t))) (threads s) <? 2 ^ 54.

Lemma multiplicity_size k (X : gmultiset nat) : (multiplicity k X <= base.size X)%nat.
Proof.
  induction X as [|x X IH] using gmultiset_ind; [done|].
  rewrite multiplicity_disj_union, gmultiset_size_disj_union, gmultiset_size_singleton, multiplicity_singleton.
  case_decide; lia.
Qed.

Lemma fewb_few s : fewb s = true → few s.
Proof.
  intros H%Z.ltb_lt k. eapply Z.le_lt_trans; [|exact H]. apply total_le. intros t _.
  pose proof (multiplicity_size k (leases t)). unfold held. lia.
Qed.

Definition flagsb (up down : nat → bool) (s : state) : bool :=
  forallb (λ kb, implb (up kb.1) (healthy kb.2) && implb (down kb.1) (negb (healthy kb.2)))
    (imap pair (backends_ (pool s))).

Lemma flagsb_flags up down s : flagsb up down s = true →
  flags (λ k, up k = true) (λ k, down k = true) s.
Proof.
  unfold flagsb. rewrite forallb_forall. intros H k b Hk.
  assert (In (k, b) (imap pair (backends_ (pool s)))) as Hin.
  { apply list_elem_of_In, list_elem_of_lookup. exists k. by rewrite list_lookup_imap, Hk. }
  specialize (H _ Hin). cbn in H. destruct (up k), (down k), (healthy b); done.
Qed.

Definition duringb (i : nat) (up down : nat → bool) (s : state) : bool :=
  fewb s && flagsb up down s &&
  match threads s !! i with Some t => choosing (place_of t) | None => true end.

Lemma duringb_during i up down s s' : step s s' → duringb i up down s' = true →
  during i (λ k, up k = true) (λ k, down k = true) s s'.
Proof.
  unfold duringb. rewrite !andb_true_iff. intros Hs [[Hf Hfl] Hc].
  split; [done|by apply fewb_few|by apply flagsb_flags|]. intros t Ht. by rewrite Ht in Hc.
Qed.

(** Two nodes up, one down; the second thread has a lease on each node that
    is up when the first enters, and gives that on the second node back in
    the middle of the comparison of the two. *)
Definition three : BackendPool :=
  mkPool [sample "a" 1; sample "b" 2; setHealthy false (sample "c" 1)] 0.

Definition before : list move :=
  replicate 20 (Go 1 None) ++ [Go 0 None].

Definition meanwhile : list move :=
  replicate 4 (Go 0 None) ++ [Go 1 (Some 1%nat); Go 0 None; Go 1 None; Flag 2 false;
    Go 0 None; Go 0 None].

Example meanwhile_chooses :
  (s ← run fewb before (idle three 2);
   s' ← run (duringb 0 (λ k, (k <? 2)%nat) (λ k, (k =? 2)%nat)) meanwhile s;
   mret (activeConnections <$> backends_ (pool s), activeConnections <$> backends_ (pool s'),
         place_of <$> threads s')) =
  Some ([1; 1; 0], [1; 0; 0], [Chosen (Some 1%nat); Outside]).
Proof. vm_compute. reflexivity. Qed.

Lemma acquire_under_interference_witness : ∃ s0 s1 b,
  run fewb before (idle three 2) = Some s0 ∧
  run (duringb 0 (λ k, (k <? 2)%nat) (λ k, (k =? 2)%nat)) meanwhile s0 = Some s1 ∧
  backends_ (pool s1) !! 1%nat = Some b ∧ activeConnections b = 0 ∧
  ∀ j b0, (j <? 2)%nat = true → backends_ (pool s0) !! j = Some b0 → no_busier b b0.
Proof.
  destruct (run fewb before (idle three 2)) as [s0|] eqn:H0; [|vm_compute in H0; discriminate].
  destruct (run (duringb 0 (λ k, (k <? 2)%nat) (λ k, (k =? 2)%nat)) meanwhile s0) as [s1|] eqn:H1.
  2: { vm_compute in H0. injection H0 as <-. vm_compute in H1. discriminate. }
  assert (rtc fair_step (idle three 2) s0) as Hr.
  { refine (run_rtc fewb fair_step before _ _ _ H0). intros s s' Hs Hf. split; [exact Hs|by apply fewb_few]. }
  assert (rtc (during 0 (λ k, (k <? 2)%nat = true) (λ k, (k =? 2)%nat = true)) s0 s1) as Hd.
  { refine (run_rtc _ _ meanwhile _ _ _ H1). intros s s'. apply duringb_during. }
  exists s0, s1.
  destruct (acquire_under_interference three 2 0 (λ k, (k <? 2)%nat = true) (λ k, (k =? 2)%nat = true)
    s0 s1 (Some 1%nat) ∅ ∅) as [_ (_ & b & Hb & Hn)].
  - repeat constructor.
  - exact Hr.
  - vm_compute in H0. injection H0 as <-. split; [discriminate|]. split; [reflexivity|].
    split; [split; [discriminate|reflexivity]|]. repeat constructor; vm_compute; done.
  - vm_compute in H0. injection H0 as <-. vm_compute. reflexivity.
  - vm_compute in H0. injection H0 as <-. apply flagsb_flags. vm_compute. reflexivity.
  - exact Hd.
  - vm_compute in H0. injection H0 as <-. vm_compute in H1. injection H1 as <-. vm_compute. reflexivity.
  - exists b. split; [reflexivity|]. split; [exact H1|]. split; [exact Hb|]. split; [|exact Hn].
    vm_compute in H0. injection H0 as <-. vm_compute in H1. injection H1 as <-.
    vm_compute in Hb. injection Hb as <-. reflexivity.
Defined.
End PoolThreads.
