(* ===== verification/HealthChecker.v ===== *)
(** * Active health checks ([include/fluxgate/HealthChecker.h], [src/HealthChecker.cpp])

    The probing thread: one TCP probe per node and round, counters of
    consecutive results, and the flag that takes a node out of selection and
    back.  The reference is [verdict]: the flag as a function of the node's
    probe history alone, with no counters.  The theorems: the counters
    implement [verdict]; the rounds are [intervalMs_] apart, and the thread
    ends with the round or the wait in which [stop] reaches it. *)

From S2P Require Import Prelude Text Posix Streams Config Net Backend BackendPool.
Local Open Scope Z_scope.

Module HealthChecker.
Import BackendPool.

Record ProbeState := mkProbeState {
  consecutiveFailures : Z;
  consecutiveSuccesses : Z
}.

(** [probeStates_] is indexed by the backend's address, here its index. *)
Record HealthChecker := mkChecker {
  intervalMs_ : Z;
  timeoutMs_ : Z;
  failureThreshold_ : Z;
  successThreshold_ : Z;
  probeStates_ : gmap nat ProbeState;
  running_ : bool;
  thread_ : bool     (* [thread_.joinable()] *)
}.

Definition construct (intervalMs timeoutMs failureThreshold successThreshold : Z) :
    HealthChecker :=
  mkChecker intervalMs timeoutMs failureThreshold successThreshold ∅ false false.

(** What the thread works on: itself, the pool, the system. *)
Record env := mkEnv {
  checker : HealthChecker;
  pool_ : BackendPool;
  log : trace
}.

#[export] Instance env_log : Lens env trace := {|
  view := log; upd t s := mkEnv (checker s) (pool_ s) t
|}.
#[export] Instance env_log_laws : LensLaws env trace.
Proof. split; [done|by intros []|done]. Qed.
#[export] Instance env_pool : Lens env BackendPool := {|
  view := pool_; upd p s := mkEnv (checker s) p (log s)
|}.
#[export] Instance env_pool_laws : LensLaws env BackendPool.
Proof. split; [done|by intros []|done]. Qed.

Definition set_checker (f : HealthChecker → HealthChecker) : ST env unit :=
  modify (λ s, mkEnv (f (checker s)) (pool_ s) (log s)).

Definition set_probe (i : nat) (st : ProbeState) (c : HealthChecker) : HealthChecker :=
  mkChecker (intervalMs_ c) (timeoutMs_ c) (failureThreshold_ c) (successThreshold_ c)
    (<[i := st]> (probeStates_ c)) (running_ c) (thread_ c).

Definition set_running (b : bool) (c : HealthChecker) : HealthChecker :=
  mkChecker (intervalMs_ c) (timeoutMs_ c) (failureThreshold_ c) (successThreshold_ c)
    (probeStates_ c) b (thread_ c).

Definition set_thread (b : bool) (c : HealthChecker) : HealthChecker :=
  mkChecker (intervalMs_ c) (timeoutMs_ c) (failureThreshold_ c) (successThreshold_ c)
    (probeStates_ c) (running_ c) b.

(** ** One round *)

Section checker.
Context {K : Kernel}.

(** The body of the loop of [checkOnce] for node [i]; [fuel] bounds the
    retries of an interrupted poll. *)
Definition check_backend (fuel : nat) (i : nat) : ST env unit :=
  s ← gets (λ s, s);
  match backends_ (pool_ s) !! i with
  | None => mret tt
  | Some backend =>
      (* probeStates_[backend.get()] *)
      let state := default (mkProbeState 0 0) (probeStates_ (checker s) !! i) in
      reachable ← Net.waitForConnect fuel (Backend.endpoint backend)
                    (timeoutMs_ (checker s));
      let previous := Backend.healthy backend in
      if reachable : bool then
        let state := mkProbeState 0 (u64 (consecutiveSuccesses state + 1)) in
        set_checker (set_probe i state) ;;
        if negb previous && (successThreshold_ (checker s) <=? consecutiveSuccesses state)
        then on_backend i (Backend.setHealthy true)
        else mret tt
      else
        let state := mkProbeState (u64 (consecutiveFailures state + 1)) 0 in
        set_checker (set_probe i state) ;;
        if previous && (failureThreshold_ (checker s) <=? consecutiveFailures state)
        then on_backend i (Backend.setHealthy false)
        else mret tt
  end.

Definition checkOnce (fuel : nat) : ST env unit :=
  n ← gets (λ s, length (backends_ (pool_ s)));
  for_each (check_backend fuel) (seq 0 n).

(** ** The thread *)

(** [condition_.wait_for(lock, intervalMs_, ...)].  It returns when
    [intervalMs_] have passed or [stop()] has come. *)
Definition wait_for : ST env unit :=
  intervalMs ← gets (λ s, intervalMs_ (checker s));
  sys_wait_for intervalMs.

(** The loop of [run] after the first round.  Each element of [stops] is one
    turn: whether [stop()] comes while the thread waits, and whether it comes
    during the round that follows. *)
Fixpoint run_loop (fuel : nat) (stops : list (bool * bool)) : ST env unit :=
  running ← gets (λ s, running_ (checker s));
  if negb running then mret tt
  else
    match stops with
    | [] => diverge
    | (in_wait, in_round) :: stops' =>
        wait_for ;;
        (if in_wait : bool then set_checker (set_running false) else mret tt) ;;
        running ← gets (λ s, running_ (checker s));
        if negb running then mret tt
        else
          checkOnce fuel ;;
          (if in_round : bool then set_checker (set_running false) else mret tt) ;;
          run_loop fuel stops'
    end.

(** [in_first]: [stop()] comes before or during the first round. *)
Definition run (fuel : nat) (in_first : bool) (stops : list (bool * bool)) : ST env unit :=
  checkOnce fuel ;;
  (if in_first then set_checker (set_running false) else mret tt) ;;
  run_loop fuel stops.

(** ** Control from the main thread *)

(** [start()]: assigning to a joinable [std::thread] is [std::terminate]. *)
Definition start : ST env unit :=
  was ← gets (λ s, running_ (checker s));
  set_checker (set_running true) ;;
  if was : bool then mret tt
  else
    joinable ← gets (λ s, thread_ (checker s));
    if joinable : bool then throw "std::terminate"
    else std_thread ;; set_checker (set_thread true).

Definition stop : ST env unit := set_checker (set_running false).

(** [thread_.join()] returns when [run] has. *)
Definition join : ST env unit :=
  joinable ← gets (λ s, thread_ (checker s));
  if joinable : bool then set_checker (set_thread false) else mret tt.
End checker.

(** ** The reference *)

(** Results of a node's probes, most recent first; the length of the current
    run of results equal to [b]. *)
Fixpoint streak (b : bool) (rs : list bool) : Z :=
  match rs with
  | r :: rs' => if Bool.eqb r b then 1 + streak b rs' else 0
  | [] => 0
  end.

(** The flag as the history determines it: it becomes true when the last
    [up] results were all successes, false when the last [down] were all
    failures, and otherwise stays what it was; at first it is true. *)
Fixpoint verdict (down up : Z) (rs : list bool) : bool :=
  match rs with
  | [] => true
  | true :: rs' => if up <=? streak true rs then true else verdict down up rs'
  | false :: rs' => if down <=? streak false rs then false else verdict down up rs'
  end.

Lemma streak_bounds b rs : 0 <= streak b rs <= Z.of_nat (length rs).
Proof. induction rs as [|r rs IH]; cbn; [lia|]. case_match; lia. Qed.

(** The counters and the flag of a node with history [rs]. *)
Definition tracks (down up : Z) (rs : list bool) (st : ProbeState) (healthy : bool) : Prop :=
  consecutiveSuccesses st = streak true rs ∧
  consecutiveFailures st = streak false rs ∧
  healthy = verdict down up rs.

(** ** One probe *)

(** What a result does to the counters and to the flag. *)
Definition count (r : bool) (st : ProbeState) : ProbeState :=
  if r then mkProbeState 0 (u64 (consecutiveSuccesses st + 1))
  else mkProbeState (u64 (consecutiveFailures st + 1)) 0.

Definition flag (down up : Z) (r : bool) (st : ProbeState) (previous : bool) : bool :=
  if r then if negb previous && (up <=? consecutiveSuccesses st) then true else previous
  else if previous && (down <=? consecutiveFailures st) then false else previous.

Lemma tracks_count down up rs r st healthy :
  Z.of_nat (length rs) + 1 < 2 ^ 64 → tracks down up rs st healthy →
  tracks down up (r :: rs) (count r st) (flag down up r (count r st) healthy).
Proof.
  intros Hl (Hs & Hf & Hh). pose proof (streak_bounds true rs). pose proof (streak_bounds false rs).
  destruct r; unfold tracks, count, flag; cbn [consecutiveSuccesses consecutiveFailures streak
    verdict Bool.eqb]; rewrite ?Hs, ?Hf; unwrap64; rewrite (Z.add_comm _ 1); split_and!;
    try done;
    destruct healthy; cbn [andb negb]; repeat case_match; congruence.
Qed.

Lemma on_backend_same b i p f :
  backends_ p !! i = Some b → f b = b → alter f i (backends_ p) = backends_ p.
Proof.
  intros Hb Hf. apply list_eq. intros j. destruct (decide (j = i)) as [->|Hj].
  - rewrite list_lookup_alter_eq, Hb. cbn. by rewrite Hf.
  - by rewrite list_lookup_alter_ne.
Qed.

Lemma setHealthy_same b : Backend.setHealthy (Backend.healthy b) b = b.
Proof. by destruct b. Qed.

Section rounds.
Context {K : Kernel} {KL : KernelLaws K} (n : nat) `{!FewInterrupts K n}.

Definition probe_of (s : env) (i : nat) : ProbeState :=
  default (mkProbeState 0 0) (probeStates_ (checker s) !! i).

(** The state after node [i] answered [r]. *)
Definition observed (i : nat) (r : bool) (tr : trace) (b : Backend.Backend) (s : env) : env :=
  let st := count r (probe_of s i) in
  mkEnv (set_probe i st (checker s))
    (mkPool (alter (Backend.setHealthy (flag (failureThreshold_ (checker s))
              (successThreshold_ (checker s)) r st (Backend.healthy b))) i
              (backends_ (pool_ s))) (tieBreaker_ (pool_ s))) tr.

Lemma check_backend_spec s i b :
  closes_ok (log s) → backends_ (pool_ s) !! i = Some b →
  ∃ r tr, Net.waitForConnect (S := trace) (n + 1) (Backend.endpoint b)
            (timeoutMs_ (checker s)) (log s) = (Val r, tr) ∧ closes_ok tr ∧
    open_fds tr = open_fds (log s) ∧ check_backend (n + 1) i s = (Val tt, observed i r tr b s).
Proof using All.
  intros Hc Hb.
  pose proof (Net.waitForConnect_spec (S := trace) n (Backend.endpoint b)
    (timeoutMs_ (checker s)) (log s)) as Hw.
  destruct (Hw Hc) as (r & tr & Hr & Ho & Hcl & _). clear Hw.
  exists r, tr. split; [done|]. split; [done|]. split; [done|].
  unfold check_backend, gets, mbind at 1, ST_bind at 1. rewrite Hb.
  unfold mbind at 1, ST_bind at 1. rewrite Net.lifts_waitForConnect. unfold zoom.
  change (view s) with (log s). rewrite Hr.
  unfold observed, probe_of, flag, count.
  destruct r; unfold set_checker, on_backend, modify, mbind, ST_bind;
    cbn [consecutiveFailures consecutiveSuccesses]; case_match; cbn; try done;
    rewrite (on_backend_same b) by (done || apply setHealthy_same); by destruct (pool_ s).
Qed.

(** Whatever the nodes answer, a round ends; it leaves the connections of
    the nodes and the descriptors of the process as they were. *)
Definition probed (s s' : env) : Prop :=
  length (backends_ (pool_ s')) = length (backends_ (pool_ s)) ∧
  (∀ count, accounts count (pool_ s) → accounts count (pool_ s')) ∧
  Streams.hushed (log s) (log s') ∧ closes_ok (log s') ∧
  running_ (checker s') = running_ (checker s) ∧ thread_ (checker s') = thread_ (checker s).

Lemma check_backend_probed s i :
  closes_ok (log s) → (i < length (backends_ (pool_ s)))%nat →
  runs (check_backend (n + 1) i) (λ _ s', probed s s') s.
Proof using All.
  intros Hc Hi. destruct (lookup_lt_is_Some_2 _ _ Hi) as [b Hb].
  destruct (check_backend_spec s i b Hc Hb) as (r & tr & Hw & Hcl & _ & Hcb).
  pose proof (Net.probe_hushed (S := trace) n (Backend.endpoint b) (timeoutMs_ (checker s))
    (log s) Hc) as Hh. rewrite Hw in Hh.
  eexists _, _. split; [exact Hcb|]. split; [cbn; by rewrite length_alter|].
  split; [|by split_and!]. intros count Ha. cbn.
  eapply accounts_ext, (accounts_alter count (pool_ s) i _ 0); [|exact Ha|apply Ha|].
  - intros j. cbn. case_decide; lia.
  - intros b' _. split; [done|]. unfold Backend.activeConnections; cbn. lia.
Qed.

Lemma checkOnce_probed s :
  closes_ok (log s) → runs (checkOnce (n + 1)) (λ _ s', probed s s') s.
Proof using All.
  intros Hc. unfold checkOnce. apply runs_bind, runs_gets.
  eapply runs_mono.
  { apply (runs_for_each _ (λ l s', probed s s' ∧ Forall (λ i, (i < length (backends_ (pool_ s)))%nat) l)).
    - split; [by split_and!|]. apply Forall_forall. intros i [_ Hi]%elem_of_seq. lia.
    - intros i l s' [Hp [Hi Hl]%Forall_cons]. destruct Hp as (Hlen & Ha & Ho & Hcl & Hr & Ht).
      eapply runs_mono; [apply check_backend_probed; [done|by rewrite Hlen]|].
      intros [] s2 (Hlen2 & Ha2 & Ho2 & Hcl2 & Hr2 & Ht2). split; [|done].
      split_and!; [congruence|auto|by etrans|done|congruence|congruence]. }
  by intros [] s' [Hp _].
Qed.

Lemma wait_for_probed s : closes_ok (log s) → runs wait_for (λ _ s', probed s s') s.
Proof using Type.
  intros Hc. eexists _, _. split; [done|]. split; [done|]. split; [done|].
  split; [by apply Streams.hushed_event|]. by split_and!.
Qed.

(** The probes of a round on their own, of [k] rounds, and of [k] rounds each
    after a wait. *)
Fixpoint probe_all (timeoutMs : Z) (es : list Net.ResolvedEndpoint) :
    ST trace (list bool) :=
  match es with
  | [] => mret []
  | e :: es' =>
      r ← Net.waitForConnect (n + 1) e timeoutMs;
      rs ← probe_all timeoutMs es';
      mret (r :: rs)
  end.

Fixpoint probe_rounds (k : nat) (timeoutMs : Z) (es : list Net.ResolvedEndpoint) :
    ST trace (list (list bool)) :=
  match k with
  | O => mret []
  | Datatypes.S k' =>
      row ← probe_all timeoutMs es;
      rows ← probe_rounds k' timeoutMs es;
      mret (row :: rows)
  end.

Fixpoint paced_rounds (k : nat) (intervalMs timeoutMs : Z) (es : list Net.ResolvedEndpoint) :
    ST trace (list (list bool)) :=
  match k with
  | O => mret []
  | Datatypes.S k' =>
      sys_wait_for intervalMs ;;
      row ← probe_all timeoutMs es;
      rows ← paced_rounds k' intervalMs timeoutMs es;
      mret (row :: rows)
  end.

Context (down up timeout : Z) (es : list Net.ResolvedEndpoint).

(** Every node's counters and flag are those of its history [hist], of
    fewer than [bound] results. *)
Definition tracked (bound : nat) (hist : nat → list bool) (s : env) : Prop :=
  failureThreshold_ (checker s) = down ∧ successThreshold_ (checker s) = up ∧
  timeoutMs_ (checker s) = timeout ∧ closes_ok (log s) ∧
  Backend.endpoint <$> backends_ (pool_ s) = es ∧
  ∀ i b, backends_ (pool_ s) !! i = Some b →
    (length (hist i) < bound)%nat ∧
    tracks down up (hist i) (probe_of s i) (Backend.healthy b).

Definition record (i : nat) (r : bool) (hist : nat → list bool) (j : nat) : list bool :=
  if decide (j = i) then r :: hist j else hist j.

Lemma observed_tracked bound hist s i b r tr :
  tracked bound hist s → Z.of_nat bound < 2 ^ 64 → closes_ok tr →
  backends_ (pool_ s) !! i = Some b →
  tracked (bound + 1) (record i r hist) (observed i r tr b s).
Proof using Type.
  intros (Hd & Hu & Ht & _ & He & Hh) Hb Hc Hi.
  unfold observed. rewrite Hd, Hu. repeat (split; [done|]). split.
  { cbn. rewrite <- He. apply list_eq. intros j. rewrite !list_lookup_fmap.
    destruct (decide (j = i)) as [->|Hj].
    - by rewrite list_lookup_alter_eq, Hi.
    - by rewrite list_lookup_alter_ne. }
  intros j b' Hj. cbn [pool_ backends_] in Hj. unfold record, probe_of; cbn.
  case_decide as Hji.
  - subst j. rewrite list_lookup_alter_eq, Hi in Hj. injection Hj as <-.
    destruct (Hh _ _ Hi) as [Hl Htr]. split; [cbn; lia|].
    rewrite lookup_insert_eq. cbn. apply tracks_count; [lia|done].
  - rewrite list_lookup_alter_ne in Hj by done. rewrite lookup_insert_ne by done.
    destruct (Hh _ _ Hj). split; [lia|done].
Qed.

(** The results [rs] of nodes [j], [j+1], ... *)
Fixpoint record_from (j : nat) (rs : list bool) (hist : nat → list bool) : nat → list bool :=
  match rs with
  | [] => hist
  | r :: rs' => record_from (Datatypes.S j) rs' (record j r hist)
  end.

Lemma check_from_spec m j bound hist s :
  tracked bound hist s → Z.of_nat (bound + m) < 2 ^ 64 → (j + m)%nat = length es →
  ∃ rs s', probe_all timeout (drop j es) (log s) = (Val rs, log s') ∧
    for_each (check_backend (n + 1)) (seq j m) s = (Val tt, s') ∧
    length rs = m ∧ tracked (bound + m) (record_from j rs hist) s'.
Proof using KL FewInterrupts0.
  revert j bound hist s. induction m as [|m IH]; intros j bound hist s Hs Hb Hj.
  - exists [], s. rewrite drop_ge by lia. rewrite Nat.add_0_r. done.
  - pose proof Hs as (Hd & Hu & Ht & Hc & He & Hh).
    destruct (lookup_lt_is_Some_2 es j) as [e Hej]; [lia|].
    assert (∃ b, backends_ (pool_ s) !! j = Some b ∧ Backend.endpoint b = e) as (b & Hjb & Hbe).
    { rewrite <- He, list_lookup_fmap in Hej.
      destruct (backends_ (pool_ s) !! j) as [b|]; [|done]. exists b. by injection Hej. }
    destruct (check_backend_spec s j b Hc Hjb) as (r & tr & Hw & Hcl & _ & Hcb).
    rewrite Ht, Hbe in Hw.
    destruct (IH (Datatypes.S j) (bound + 1)%nat (record j r hist) (observed j r tr b s))
      as (rs & s' & Hp & Hf & Hl & Htr); [apply observed_tracked; try done; lia|lia|lia|].
    exists (r :: rs), s'. rewrite (drop_S _ _ _ Hej). cbn [probe_all seq for_each].
    unfold mbind, ST_bind. rewrite Hw, Hcb.
    change (log (observed j r tr b s)) with tr in Hp. rewrite Hp, Hf.
    split; [done|]. split; [done|]. split; [cbn; lia|].
    by replace (bound + Datatypes.S m)%nat with (bound + 1 + m)%nat by lia.
Qed.

Lemma check_round_spec bound hist s :
  tracked bound hist s → Z.of_nat (bound + length es) < 2 ^ 64 →
  ∃ rs s1, probe_all timeout es (log s) = (Val rs, log s1) ∧
    checkOnce (n + 1) s = (Val tt, s1) ∧ tracked (bound + length es) (record_from 0 rs hist) s1.
Proof using KL FewInterrupts0.
  intros Hs Hb.
  destruct (check_from_spec (length es) 0 bound hist s) as (rs & s1 & Hp & Hf & _ & Htr);
    [done..|].
  exists rs, s1. split; [by rewrite drop_0 in Hp|]. split; [|done].
  unfold checkOnce, gets, mbind, ST_bind.
  replace (length (backends_ (pool_ s))) with (length es); [done|].
  destruct Hs as (_ & _ & _ & _ & <- & _). by rewrite length_fmap.
Qed.

Lemma check_rounds_spec k j bound hist s :
  tracked bound hist s → Z.of_nat (bound + k * length es) < 2 ^ 64 →
  ∃ rows s', probe_rounds k timeout es (log s) = (Val rows, log s') ∧
    for_each (λ _, checkOnce (n + 1)) (seq j k) s = (Val tt, s') ∧
    tracked (bound + k * length es) (foldl (λ h row, record_from 0 row h) hist rows) s'.
Proof using KL FewInterrupts0.
  revert j bound hist s. induction k as [|k IH]; intros j bound hist s Hs Hb.
  - exists [], s. rewrite Nat.add_0_r. done.
  - destruct (check_round_spec bound hist s Hs) as (rs & s1 & Hp & Hc1 & Htr);
      [cbn in Hb; lia|].
    destruct (IH (Datatypes.S j) _ _ s1 Htr) as (rows & s' & Hps & Hfs & Hts);
      [cbn in Hb; lia|].
    exists (rs :: rows), s'. cbn [probe_rounds seq for_each].
    unfold mbind, ST_bind. rewrite Hp, Hps. cbn beta. rewrite Hc1, Hfs. split; [done|]. split; [done|].
    cbn [foldl]. by replace (bound + Datatypes.S k * length es)%nat with
      (bound + length es + k * length es)%nat by (cbn; lia).
Qed.

(** A field of the checker that the counters do not include. *)
Lemma checkOnce_keeps {A} (f : HealthChecker → A) v fuel :
  (∀ i st c, f (set_probe i st c) = f c) → preserves (λ s, f (checker s) = v) (checkOnce fuel).
Proof using Type.
  intros Hf. unfold checkOnce. apply preserves_bind; [apply preserves_gets|intros m].
  apply preserves_for_each. intros i _. unfold check_backend.
  apply preserves_bind; [apply preserves_gets|intros s0]. case_match; [|apply preserves_ret].
  apply preserves_bind.
  { intros s Hs. rewrite Net.lifts_waitForConnect. unfold zoom. by case_match. }
  intros r. case_match; (apply preserves_bind; [intros s Hs; cbn; by rewrite Hf|intros []]);
    case_match; (apply preserves_ret || by intros s Hs).
Qed.

Definition set_log (tr : trace) (s : env) : env := mkEnv (checker s) (pool_ s) tr.

Lemma wait_for_val s :
  wait_for s = (Val tt, set_log (EvWaitFor (intervalMs_ (checker s)) :: log s) s).
Proof using Type. done. Qed.

Lemma tracked_waited bound hist s ms :
  tracked bound hist s → tracked bound hist (set_log (EvWaitFor ms :: log s) s).
Proof using Type. done. Qed.

(** The waits of [run] with the rounds they lead to. *)
Lemma paced_rounds_spec k j bound hist intervalMs s :
  tracked bound hist s → intervalMs_ (checker s) = intervalMs →
  Z.of_nat (bound + k * length es) < 2 ^ 64 →
  ∃ rows s' hist', paced_rounds k intervalMs timeout es (log s) = (Val rows, log s') ∧
    for_each (λ _, wait_for ;; checkOnce (n + 1)) (seq j k) s = (Val tt, s') ∧
    tracked (bound + k * length es) hist' s' ∧ intervalMs_ (checker s') = intervalMs.
Proof using KL FewInterrupts0.
  revert j bound hist s. induction k as [|k IH]; intros j bound hist s Hs Hi Hb.
  - exists [], s, hist. rewrite Nat.add_0_r. done.
  - destruct (check_round_spec bound hist (set_log (EvWaitFor intervalMs :: log s) s))
      as (rs & s1 & Hp & Hc1 & Htr); [by apply tracked_waited|cbn in Hb; lia|].
    pose proof (checkOnce_keeps intervalMs_ intervalMs (n + 1) (λ _ _ _, eq_refl)
      (set_log (EvWaitFor intervalMs :: log s) s) Hi) as Hi1. rewrite Hc1 in Hi1.
    destruct (IH (Datatypes.S j) _ _ s1 Htr Hi1) as (rows & s' & hist' & Hps & Hfs & Hts & Hi');
      [cbn in Hb; lia|].
    assert ((wait_for ;; checkOnce (n + 1)) s = (Val tt, s1)) as Hturn.
    { unfold mbind, ST_bind. by rewrite wait_for_val, Hi. }
    exists (rs :: rows), s', hist'. split; [|split].
    + cbn [paced_rounds]. unfold mbind, ST_bind, sys_wait_for, syscall. cbn [view upd Lens_refl].
      cbn [log set_log] in Hp. by rewrite Hp, Hps.
    + cbn [seq for_each]. unfold mbind at 1, ST_bind at 1. by rewrite Hturn.
    + by replace (bound + Datatypes.S k * length es)%nat with
      (bound + length es + k * length es)%nat by (cbn; lia).
Qed.
End rounds.

(** The results of node [i] in the given rounds, most recent first. *)
Definition history (i : nat) (rows : list (list bool)) : list bool :=
  foldl (λ h row, match row !! i with Some r => r :: h | None => h end) [] rows.

Lemma record_from_at j rs hist i :
  record_from j rs hist i =
    match (if decide (j ≤ i)%nat then rs !! (i - j)%nat else None) with
    | Some r => r :: hist i
    | None => hist i
    end.
Proof.
  revert j hist. induction rs as [|r rs IH]; intros j hist; cbn; [by case_decide|].
  rewrite IH. unfold record. repeat case_decide; subst; try lia; try done.
  - by replace (i - j)%nat with (Datatypes.S (i - Datatypes.S j)) by lia.
  - by rewrite Nat.sub_diag.
Qed.

Lemma history_recorded i rows :
  foldl (λ h row, record_from 0 row h) (λ _, []) rows i = history i rows.
Proof.
  unfold history.
  assert (∀ h hi, h i = hi → foldl (λ h row, record_from 0 row h) h rows i =
    foldl (λ h row, match row !! i with Some r => r :: h | None => h end) hi rows) as H;
    [|by apply H].
  induction rows as [|row rows IH]; intros h hi Hh; cbn; [done|].
  apply IH. rewrite record_from_at, Nat.sub_0_r. case_decide; [|lia]. by rewrite Hh.
Qed.

(** ** The thread *)

Section thread.
Context {K : Kernel} {KL : KernelLaws K}.

Lemma tracked_fresh down up timeout p c tr :
  closes_ok tr → Forall (λ b, Backend.healthy b = true) (backends_ p) →
  failureThreshold_ c = down → successThreshold_ c = up → timeoutMs_ c = timeout →
  probeStates_ c = ∅ →
  tracked down up timeout (Backend.endpoint <$> backends_ p) 1 (λ _, []) (mkEnv c p tr).
Proof using Type.
  intros Hc Hh Hd Hu Ht Hp. repeat (split; [done|]). intros i b Hb. split; [cbn; lia|].
  unfold probe_of; cbn. rewrite Hp. split; [done|]. split; [done|].
  by apply (proj1 (Forall_lookup _ _) Hh _ _ Hb).
Qed.

(** [run] before the stop: one round per turn, each after a wait. *)
Lemma run_loop_quiet fuel k j stops s s' :
  running_ (checker s) = true →
  for_each (λ _, wait_for ;; checkOnce fuel) (seq j k) s = (Val tt, s') →
  run_loop fuel (replicate k (false, false) ++ stops) s = run_loop fuel stops s' ∧
  running_ (checker s') = true.
Proof using Type.
  revert j s. induction k as [|k IH]; intros j s Hr Hf; cbn [seq for_each] in Hf.
  - injection Hf as <-. done.
  - bind_inv Hf. destruct a as []. bind_inv Hb. destruct a as [].
    assert (running_ (checker s1) = true) as Hr1 by (by injection Hb0 as <-).
    assert (running_ (checker s0) = true) as Hr0.
    { pose proof (checkOnce_keeps running_ true fuel (λ _ _ _, eq_refl) s1 Hr1) as H.
      by rewrite Hb in H. }
    destruct (IH (Datatypes.S j) s0 Hr0 Hf) as [He Hr']. split; [|done]. rewrite <- He.
    cbn [replicate app run_loop]. unfold gets, mbind, ST_bind. cbn beta.
    rewrite Hr. cbn [negb]. rewrite Hb0. cbn. rewrite Hr1. cbn. by rewrite Hb.
Qed.

(** C29: hysteresis.  After [k] rounds of [checkOnce] from the start (fresh
    counters, every node healthy), whatever the network answers, every round
    has completed without an exception, the kernel saw exactly the probes of
    [k] rounds over all nodes, and each node's healthy flag is [verdict] of
    the answers to its own probes: taken out by [failureThreshold_] failures
    in a row, put back by [successThreshold_] successes in a row, untouched
    by anything shorter. *)
Theorem health_follows_history n k intervalMs timeoutMs down up p tr `{!FewInterrupts K n} :
  closes_ok tr → Forall (λ b, Backend.healthy b = true) (backends_ p) →
  Z.of_nat (k * length (backends_ p)) + 1 < 2 ^ 64 →
  ∃ rows s',
    probe_rounds n k timeoutMs (Backend.endpoint <$> backends_ p) tr = (Val rows, log s') ∧
    for_each (λ _, checkOnce (n + 1)) (seq 0 k)
      (mkEnv (construct intervalMs timeoutMs down up) p tr) = (Val tt, s') ∧
    ∀ i b, backends_ (pool_ s') !! i = Some b →
      Backend.healthy b = verdict down up (history i rows).
Proof using KL.
  intros Hc Hh Hk. set (s := mkEnv _ p tr).
  destruct (check_rounds_spec n down up timeoutMs (Backend.endpoint <$> backends_ p)
    k 0 1 (λ _, []) s) as (rows & s' & Hp & Hf & Ht).
  - by apply tracked_fresh.
  - rewrite length_fmap. lia.
  - exists rows, s'. split; [done|]. split; [done|].
    destruct Ht as (_ & _ & _ & _ & _ & Ht). intros i b Hb.
    destruct (Ht _ _ Hb) as (_ & _ & _ & ->). by rewrite history_recorded.
Qed.

(** C30: the rounds are [intervalMs_] apart, and the thread stops.  Started on
    a fresh checker, [run] probes every node at once, and then, while nobody
    calls [stop], waits for [intervalMs_] before every further round, with no
    other call in between.  When [stop] comes before the end of the first
    round it ends with that round, without waiting; when [stop] reaches it in
    a wait ([in_wait]), without another round; when [stop] comes during a
    later round, with that round. *)
Theorem run_stops n k in_first in_wait in_round stops c p tr `{!FewInterrupts K n} :
  closes_ok tr → Forall (λ b, Backend.healthy b = true) (backends_ p) →
  probeStates_ c = ∅ → running_ c = true → in_first || in_wait || in_round = true →
  Z.of_nat ((k + 2) * length (backends_ p)) + 1 < 2 ^ 64 →
  let es := Backend.endpoint <$> backends_ p in
  let waited := if in_first then O else if in_wait then k else (k + 1)%nat in
  ∃ row rows tr1 tr' s',
    run (n + 1) in_first (replicate k (false, false) ++ (in_wait, in_round) :: stops)
      (mkEnv c p tr) = (Val tt, s') ∧ running_ (checker s') = false ∧
    probe_all n (timeoutMs_ c) es tr = (Val row, tr1) ∧
    paced_rounds n waited (intervalMs_ c) (timeoutMs_ c) es tr1 = (Val rows, tr') ∧
    log s' = if negb in_first && in_wait then EvWaitFor (intervalMs_ c) :: tr' else tr'.
Proof using KL.
  intros Hc Hh Hp Hr Hstop Hk. cbv zeta. set (s := mkEnv c p tr).
  set (es := Backend.endpoint <$> backends_ p).
  assert (length es = length (backends_ p)) as Hes by apply length_fmap.
  destruct (check_round_spec n (failureThreshold_ c) (successThreshold_ c) (timeoutMs_ c) es 1
    (λ _, []) s) as (row & s1 & Hp1 & Hc1 & Ht1); [by apply tracked_fresh|rewrite Hes; nia|].
  pose proof (checkOnce_keeps running_ true (n + 1) (λ _ _ _, eq_refl) s Hr) as Hr1.
  pose proof (checkOnce_keeps intervalMs_ (intervalMs_ c) (n + 1) (λ _ _ _, eq_refl) s eq_refl)
    as Hi1. rewrite Hc1 in Hr1, Hi1.
  unfold run, mbind, ST_bind. rewrite Hc1. exists row. destruct in_first.
  { exists [], (log s1), (log s1), (mkEnv (set_running false (checker s1)) (pool_ s1) (log s1)).
    destruct k; split_and!; done. }
  destruct (paced_rounds_spec n _ _ _ es k 0 _ _ _ s1 Ht1 Hi1)
    as (rows & s2 & hist & Hpr & Hf & Ht2 & Hi2); [rewrite Hes; nia|].
  destruct (run_loop_quiet (n + 1) k 0 ((in_wait, in_round) :: stops) s1 s2 Hr1 Hf)
    as [He Hr2]. cbn [mret ST_ret]. rewrite He. cbn [run_loop].
  unfold gets, mbind, ST_bind. rewrite Hr2. cbn [negb].
  rewrite wait_for_val, Hi2.
  destruct in_wait.
  - exists rows, (log s1), (log s2). eexists. by split_and!.
  - cbn in Hstop. subst in_round.
    destruct (paced_rounds_spec n _ _ _ es (k + 1) 0 _ _ _ s1 Ht1 Hi1)
      as (rows' & s3 & hist' & Hpr' & Hf' & _); [rewrite Hes; nia|].
    rewrite seq_app in Hf'. apply for_each_app_val in Hf' as (s2' & Hf2 & Hlast).
    rewrite Hf in Hf2. injection Hf2 as <-. cbn [seq for_each] in Hlast.
    bind_inv Hlast. injection Hlast as <-. destruct a as [].
    bind_inv Hb. rewrite wait_for_val, Hi2 in Hb0. injection Hb0 as _ <-.
    exists rows', (log s1), (log s0), (mkEnv (set_running false (checker s0)) (pool_ s0) (log s0)).
    cbn [mret ST_ret checker set_log]. rewrite Hr2. cbn [negb]. rewrite Hb.
    by destruct stops as [|[] ?].
Qed.
End thread.

(** ** An outage and a recovery *)

(** The node does not answer before the fourth probe. *)
Definition late_polls (tr : trace) : sysret (Z * Z) :=
  if (length (List.filter (λ e, match e with EvPoll _ _ _ _ => true | _ => false end) tr) <? 3)%nat
  then Ret (0, 0) else Ret (1, POLLOUT).

Definition outage : script :=
  mkScript (sc_now quiet) (sc_recv quiet) (sc_send quiet) (sc_so_error quiet)
    (sc_socket_errno quiet) (sc_connect quiet) (sc_epoll_ctl quiet) (sc_epoll_wait quiet)
    (sc_wake_write quiet) late_polls (sc_addresses quiet) (sc_accept quiet).

#[local] Instance outage_few : FewInterrupts (scripted outage) 0.
Proof. split; try done. intros tr fd ev t _. cbn. unfold late_polls. by case_match. Qed.

Definition one_node : BackendPool := mkPool [Backend.sample "a" 1] 0.

Lemma health_follows_history_witness :
  ∃ rows s', for_each (λ _, checkOnce (K := scripted outage) 1) (seq 0 4)
      (mkEnv (construct 1000 500 2 2) one_node []) = (Val tt, s') ∧
    rows = [[false]; [false]; [false]; [true]] ∧
    (Backend.healthy <$> backends_ (pool_ s')) = [verdict 2 2 (history 0 rows)].
Proof.
  destruct (health_follows_history (K := scripted outage) 0 4 1000 500 2 2 one_node [])
    as (rows & s' & Hp & Hf & Hh); [done|by repeat constructor|done|].
  exists rows, s'. split; [exact Hf|]. vm_compute in Hp. injection Hp as Hrows _.
  split; [by subst rows|]. vm_compute in Hf. injection Hf as <-. subst rows. reflexivity.
Defined.

Lemma run_stops_witness :
  ∃ s', run (K := scripted outage) 1 false [(false, false); (false, true)]
      (mkEnv (mkChecker 1000 500 2 2 ∅ true true) one_node []) = (Val tt, s') ∧
    running_ (checker s') = false ∧
    List.filter (λ e, match e with EvWaitFor _ | EvPoll _ _ _ _ => true | _ => false end) (log s') =
      [EvPoll 3 POLLOUT 500 (Ret (0, 0)); EvWaitFor 1000;
       EvPoll 3 POLLOUT 500 (Ret (0, 0)); EvWaitFor 1000; EvPoll 3 POLLOUT 500 (Ret (0, 0))].
Proof.
  destruct (run_stops (K := scripted outage) 0 1 false false true []
    (mkChecker 1000 500 2 2 ∅ true true) one_node [])
    as (row & rows & tr1 & tr' & s' & Hr & Hf & _);
    [done|by repeat constructor|reflexivity|reflexivity|reflexivity|reflexivity|].
  exists s'. split; [exact Hr|]. split; [exact Hf|].
  vm_compute in Hr. injection Hr as <-. vm_compute. reflexivity.
Defined.

End HealthChecker.
