(* ===== verification/HealthStop.v ===== *)
(** * Stopping the checking thread ([stop] against [run] in [src/HealthChecker.cpp])

    [HealthChecker] lets [stop] come while the thread waits or while it
    probes.  Here both advance by single accesses, so that the store and the
    notification of [stop], which does not take [mutex_], can fall anywhere
    in [condition_.wait_for(lock, interval, predicate)]. *)

From S2P Require Import Prelude.

Module HealthStop.

(** The checking thread: in [checkOnce]; before [running_.load()] of the
    [while]; before the predicate of [wait_for]; having found it false, still
    holding the mutex; asleep, the mutex released; after [wait_for]; at the
    end of [run]. *)
Inductive place := Probing | AtTest | AtPredicate | Deciding | Asleep | AfterWait | Done.

(** The thread that calls [stop]. *)
Inductive stopper := NotCalled | Stored | Returned.

(** [rounds] of probes begun and [timeouts] of [wait_for] so far. *)
Record state := mkState {
  running : bool;
  stop_at : stopper;
  place_of : place;
  rounds : nat;
  timeouts : nat
}.

(** What [start] leaves. *)
Definition started : state := mkState true NotCalled Probing 1 0.

Definition goes (p : place) (s : state) : state :=
  mkState (running s) (stop_at s) p (rounds s) (timeouts s).

(** What ends a sleep besides a notification. *)
Inductive wake := Timeout | Spurious.

(** The next access of the checking thread; [None]: it sleeps on, or has
    ended.  [wait_for] repeats its sleep until the predicate holds or the time
    is over. *)
Definition checker_step (w : option wake) (s : state) : option state :=
  match place_of s with
  | Probing => Some (goes AtTest s)
  | AtTest => Some (goes (if running s then AtPredicate else Done) s)
  | AtPredicate => Some (goes (if running s then Deciding else AfterWait) s)
  | Deciding => Some (goes Asleep s)
  | Asleep =>
      match w with
      | Some Timeout =>
          Some (mkState (running s) (stop_at s) AfterWait (rounds s) (S (timeouts s)))
      | Some Spurious => Some (goes AtPredicate s)
      | None => None
      end
  | AfterWait =>
      Some (if running s then mkState true (stop_at s) Probing (S (rounds s)) (timeouts s)
            else goes Done s)
  | Done => None
  end.

(** [running_.store(false)], then [condition_.notify_all()], which wakes the
    thread only if it is asleep. *)
Definition stop_step (s : state) : state :=
  match stop_at s with
  | NotCalled => mkState false Stored (place_of s) (rounds s) (timeouts s)
  | Stored =>
      mkState (running s) Returned
        (match place_of s with Asleep => AtPredicate | p => p end) (rounds s) (timeouts s)
  | Returned => s
  end.

Inductive step : state → state → Prop :=
| step_checker w s s' : checker_step w s = Some s' → step s s'
| step_stop s : step s (stop_step s).

(** The checking thread by itself, at most [n] accesses, woken only when the
    time is over. *)
Fixpoint alone (n : nat) (s : state) : state :=
  match n with
  | O => s
  | S n' => match checker_step (Some Timeout) s with Some s' => alone n' s' | None => s end
  end.

(** ** Properties *)

Definition told (s : state) : Prop := stop_at s ≠ NotCalled → running s = false.

Lemma told_reachable s : rtc step started s → told s.
Proof.
  revert s. apply (rtc_ind_r told); [by intros []|]. unfold told.
  intros s1 s2 _ [w [r q p n m] s' Hw|[r q p n m]] Hs; cbn in *.
  - unfold checker_step in Hw. destruct r; [|destruct p; cbn in Hw; repeat case_match; by simplify_eq].
    intros Hq. assert (stop_at s' = q) as Hk by (destruct p; cbn in Hw; repeat case_match; by simplify_eq).
    rewrite Hk in Hq. by specialize (Hs Hq).
  - destruct q; cbn; auto.
Qed.

(** Once the flag is down, at most one sleep is left. *)
Lemma alone_ends s : running s = false →
  let s' := alone 3 s in
  place_of s' = Done ∧ rounds s' = rounds s ∧
  timeouts s' = (timeouts s + match place_of s with Deciding | Asleep => 1 | _ => 0 end)%nat.
Proof.
  destruct s as [r q p rs ts]. cbn. intros ->. destruct p; cbn; split_and!; lia || done.
Qed.

Lemma by_checker s1 s2 s3 : checker_step None s1 = Some s2 → rtc step s2 s3 → rtc step s1 s3.
Proof. intros Hw. by eapply rtc_l, (step_checker None). Qed.

Lemma by_stop s1 s2 s3 : stop_step s1 = s2 → rtc step s2 s3 → rtc step s1 s3.
Proof. intros <-. apply rtc_l, step_stop. Qed.

(** C31: how [stop] reaches the checking thread.  [stop] can return and leave
    the thread asleep with nobody to wake it: this happens exactly when the
    notification falls between the predicate and the sleep.  Wherever it
    falls, no further round of probes begins and the thread ends by itself
    after at most three more accesses; it waits for one time-out in the case
    of the lost notification and for none otherwise. *)
Theorem stop_notification :
  (∃ s, rtc step started s ∧ stop_at s = Returned ∧ place_of s = Asleep ∧
    checker_step None s = None) ∧
  (∀ s, rtc step started s → stop_at s = Stored →
    let s' := alone 3 (stop_step s) in
    place_of s' = Done ∧ rounds s' = rounds s ∧
    timeouts s' = (timeouts s + match place_of s with Deciding => 1 | _ => 0 end)%nat).
Proof.
  split.
  - exists (mkState false Returned Asleep 1 0). split; [|done].
    do 3 (eapply by_checker; [reflexivity|]). do 2 (eapply by_stop; [reflexivity|]).
    by eapply by_checker, rtc_refl.
  - intros s Hs%told_reachable Hp s'. unfold told in Hs. rewrite Hp in Hs.
    destruct (alone_ends (stop_step s)) as (Hd & Hr & Ht).
    { unfold stop_step. rewrite Hp. by apply Hs. }
    fold s' in Hd, Hr, Ht. rewrite Hr, Ht. unfold stop_step. rewrite Hp. cbn.
    split_and!; [done..|]. by destruct (place_of s).
Qed.

(** Both cases: the store comes during the first round; the notification
    comes then, or when the thread has looked at the flag for the last time. *)
Lemma stop_notification_witness :
  timeouts (alone 3 (stop_step (mkState false Stored Probing 1 0))) = 0%nat ∧
  timeouts (alone 3 (stop_step (mkState false Stored Deciding 1 0))) = 1%nat.
Proof.
  destruct stop_notification as [_ Hs]. split.
  - apply (Hs (mkState false Stored Probing 1 0)); [|reflexivity].
    eapply by_stop; [reflexivity|apply rtc_refl].
  - apply (Hs (mkState false Stored Deciding 1 0)); [|reflexivity].
    do 3 (eapply by_checker; [reflexivity|]). eapply by_stop; [reflexivity|apply rtc_refl].
Defined.

End HealthStop.
