(* ===== verification/ProxySession.v ===== *)
(** * Proxy sessions ([include/fluxgate/ProxySession.h], [src/ProxySession.cpp])

    The non-blocking two-way forwarding state machine of one client
    connection.  The state an operation works on is the session, the metrics,
    the backend pool and the system-call history ([env]).  The file holds the
    class; [SessionSteps], [SessionStream] and [SessionEvents] prove its
    properties. *)

From S2P Require Import Prelude Text Posix ByteBuffer UniqueFd Metrics Config Net Backend BackendPool.
Local Open Scope Z_scope.

Module ProxySession.
Import ByteBuffer (ByteBuffer, readableBytes, writableBytes, empty, makeWritable,
  readData, writeData, hasWritten, consume).
Import UniqueFd (UniqueFd, mkUniqueFd, get).
Import BackendPool (BackendPool, BackendLease, on_backend).

Inductive IoResult := Progress | WouldBlock | Closed | Error.

#[export] Instance IoResult_eq_dec : EqDecision IoResult.
Proof. solve_decision. Defined.

(** Times are nanoseconds of [steady_clock]. *)
Record ProxySession := mkSession {
  id_ : Z;
  clientFd_ : UniqueFd;
  upstreamFd_ : UniqueFd;
  upstreamConnecting_ : bool;
  backend_ : BackendLease;
  clientToUpstream_ : ByteBuffer;
  upstreamToClient_ : ByteBuffer;
  clientReadClosed_ : bool;
  upstreamReadClosed_ : bool;
  clientWriteShutdown_ : bool;
  upstreamWriteShutdown_ : bool;
  closing_ : bool;
  clientAddress_ : string;
  createdAt_ : Z;
  lastActivity_ : Z
}.

(** ** Assignments to members *)

Definition set_connecting v s := mkSession (id_ s) (clientFd_ s) (upstreamFd_ s) v
  (backend_ s) (clientToUpstream_ s) (upstreamToClient_ s) (clientReadClosed_ s)
  (upstreamReadClosed_ s) (clientWriteShutdown_ s) (upstreamWriteShutdown_ s)
  (closing_ s) (clientAddress_ s) (createdAt_ s) (lastActivity_ s).
Definition set_clientToUpstream v s := mkSession (id_ s) (clientFd_ s) (upstreamFd_ s)
  (upstreamConnecting_ s) (backend_ s) v (upstreamToClient_ s) (clientReadClosed_ s)
  (upstreamReadClosed_ s) (clientWriteShutdown_ s) (upstreamWriteShutdown_ s)
  (closing_ s) (clientAddress_ s) (createdAt_ s) (lastActivity_ s).
Definition set_upstreamToClient v s := mkSession (id_ s) (clientFd_ s) (upstreamFd_ s)
  (upstreamConnecting_ s) (backend_ s) (clientToUpstream_ s) v (clientReadClosed_ s)
  (upstreamReadClosed_ s) (clientWriteShutdown_ s) (upstreamWriteShutdown_ s)
  (closing_ s) (clientAddress_ s) (createdAt_ s) (lastActivity_ s).
Definition set_clientReadClosed v s := mkSession (id_ s) (clientFd_ s) (upstreamFd_ s)
  (upstreamConnecting_ s) (backend_ s) (clientToUpstream_ s) (upstreamToClient_ s) v
  (upstreamReadClosed_ s) (clientWriteShutdown_ s) (upstreamWriteShutdown_ s)
  (closing_ s) (clientAddress_ s) (createdAt_ s) (lastActivity_ s).
Definition set_upstreamReadClosed v s := mkSession (id_ s) (clientFd_ s) (upstreamFd_ s)
  (upstreamConnecting_ s) (backend_ s) (clientToUpstream_ s) (upstreamToClient_ s)
  (clientReadClosed_ s) v (clientWriteShutdown_ s) (upstreamWriteShutdown_ s)
  (closing_ s) (clientAddress_ s) (createdAt_ s) (lastActivity_ s).
Definition set_clientWriteShutdown v s := mkSession (id_ s) (clientFd_ s) (upstreamFd_ s)
  (upstreamConnecting_ s) (backend_ s) (clientToUpstream_ s) (upstreamToClient_ s)
  (clientReadClosed_ s) (upstreamReadClosed_ s) v (upstreamWriteShutdown_ s)
  (closing_ s) (clientAddress_ s) (createdAt_ s) (lastActivity_ s).
Definition set_upstreamWriteShutdown v s := mkSession (id_ s) (clientFd_ s)
  (upstreamFd_ s) (upstreamConnecting_ s) (backend_ s) (clientToUpstream_ s)
  (upstreamToClient_ s) (clientReadClosed_ s) (upstreamReadClosed_ s)
  (clientWriteShutdown_ s) v (closing_ s) (clientAddress_ s) (createdAt_ s)
  (lastActivity_ s).
Definition set_closing v s := mkSession (id_ s) (clientFd_ s) (upstreamFd_ s)
  (upstreamConnecting_ s) (backend_ s) (clientToUpstream_ s) (upstreamToClient_ s)
  (clientReadClosed_ s) (upstreamReadClosed_ s) (clientWriteShutdown_ s)
  (upstreamWriteShutdown_ s) v (clientAddress_ s) (createdAt_ s) (lastActivity_ s).
Definition set_lastActivity v s := mkSession (id_ s) (clientFd_ s) (upstreamFd_ s)
  (upstreamConnecting_ s) (backend_ s) (clientToUpstream_ s) (upstreamToClient_ s)
  (clientReadClosed_ s) (upstreamReadClosed_ s) (clientWriteShutdown_ s)
  (upstreamWriteShutdown_ s) (closing_ s) (clientAddress_ s) (createdAt_ s) v.

(** ** Construction and destruction *)

(** [backend_->f()]; a null lease would be a null dereference, which no
    session the program creates has. *)
Definition on_lease {S} `{Lens S BackendPool} (l : BackendLease)
    (f : Backend.Backend → Backend.Backend) : ST S unit :=
  match BackendPool.backend_ l with
  | Some i => on_backend i f
  | None => throw "null backend"
  end.

(** The member initialisers. *)
Definition initial (id clientFd upstreamFd : Z) (upstreamConnecting : bool)
    (backend : BackendLease) (bufferSize : Z) (clientAddress : string) (now : Z) :
    ProxySession :=
  mkSession id (mkUniqueFd clientFd) (mkUniqueFd upstreamFd) upstreamConnecting
    backend (ByteBuffer.make bufferSize) (ByteBuffer.make bufferSize)
    false false false false false clientAddress now now.

Definition construct `{K : Kernel} {S} `{Lens S trace} `{Lens S BackendPool}
    (id clientFd upstreamFd : Z) (upstreamConnecting : bool) (backend : BackendLease)
    (bufferSize : Z) (clientAddress : string) : ST S ProxySession :=
  now ← sys_now;
  let s := initial id clientFd upstreamFd upstreamConnecting backend bufferSize
             clientAddress now in
  (if negb upstreamConnecting then on_lease backend Backend.recordConnectSuccess
   else mret tt) ;;
  mret s.

(** [~ProxySession()]: the members with destructors, last declared first. *)
Definition destroy {S} `{Lens S trace} `{Lens S BackendPool} (s : ProxySession) :
    ST S unit :=
  BackendPool.destroy (backend_ s) ;;
  UniqueFd.destroy (upstreamFd_ s) ;;
  UniqueFd.destroy (clientFd_ s).

(** ** Queries *)

Definition clientFd (s : ProxySession) : Z := get (clientFd_ s).
Definition upstreamFd (s : ProxySession) : Z := get (upstreamFd_ s).
Definition closing (s : ProxySession) : bool := closing_ s.
Definition id (s : ProxySession) : Z := id_ s.
Definition markClosing (s : ProxySession) : ProxySession := set_closing true s.

Definition clientEvents (s : ProxySession) : Z :=
  let events := EPOLLRDHUP in
  let events :=
    if negb (clientReadClosed_ s) && (0 <? writableBytes (clientToUpstream_ s))
    then Z.lor events EPOLLIN else events in
  if negb (empty (upstreamToClient_ s)) then Z.lor events EPOLLOUT else events.

Definition upstreamEvents (s : ProxySession) : Z :=
  let events := EPOLLRDHUP in
  if upstreamConnecting_ s then Z.lor events EPOLLOUT
  else
    let events :=
      if negb (upstreamReadClosed_ s) && (0 <? writableBytes (upstreamToClient_ s))
      then Z.lor events EPOLLIN else events in
    if negb (empty (clientToUpstream_ s)) then Z.lor events EPOLLOUT else events.

Definition idleFor `{K : Kernel} {S} `{Lens S trace} (timeout_s : Z) (s : ProxySession) :
    ST S bool :=
  now ← sys_now; mret (timeout_s * 10 ^ 9 <=? now - lastActivity_ s).

Definition connectTimedOut `{K : Kernel} {S} `{Lens S trace} (timeout_ms : Z)
    (s : ProxySession) : ST S bool :=
  if upstreamConnecting_ s then
    now ← sys_now; mret (timeout_ms * 10 ^ 6 <=? now - createdAt_ s)
  else mret false.

Definition completed (s : ProxySession) : bool :=
  upstreamReadClosed_ s && empty (upstreamToClient_ s).

(** ** Event handling *)

Record env := mkEnv {
  session : ProxySession;
  metrics : Metrics.Metrics;
  pool : BackendPool;
  log : trace
}.

#[export] Instance env_log : Lens env trace := {|
  view := log; upd t s := mkEnv (session s) (metrics s) (pool s) t
|}.
#[export] Instance env_log_laws : LensLaws env trace.
Proof. split; [done|by intros []|done]. Qed.
#[export] Instance env_pool : Lens env BackendPool := {|
  view := pool; upd p s := mkEnv (session s) (metrics s) p (log s)
|}.
#[export] Instance env_pool_laws : LensLaws env BackendPool.
Proof. split; [done|by intros []|done]. Qed.

Definition on_session (f : ProxySession → ProxySession) : ST env unit :=
  modify (λ s, mkEnv (f (session s)) (metrics s) (pool s) (log s)).
Definition on_metrics (f : Metrics.Metrics → Metrics.Metrics) : ST env unit :=
  modify (λ s, mkEnv (session s) (f (metrics s)) (pool s) (log s)).

(** The two ends of a session, and the buffer that holds what was read from
    each: the [ByteBuffer&] arguments of [readInto] and [writeFrom]. *)
Inductive side := Client | Upstream.

#[export] Instance side_eq_dec : EqDecision side.
Proof. solve_decision. Defined.

Definition other (d : side) : side :=
  match d with Client => Upstream | Upstream => Client end.
Definition fd_of (d : side) (s : ProxySession) : Z :=
  match d with Client => clientFd s | Upstream => upstreamFd s end.
Definition buffer (d : side) (s : ProxySession) : ByteBuffer :=
  match d with Client => clientToUpstream_ s | Upstream => upstreamToClient_ s end.
Definition set_buffer (d : side) (b : ByteBuffer) (s : ProxySession) : ProxySession :=
  match d with
  | Client => set_clientToUpstream b s
  | Upstream => set_upstreamToClient b s
  end.
Definition readClosed (d : side) (s : ProxySession) : bool :=
  match d with Client => clientReadClosed_ s | Upstream => upstreamReadClosed_ s end.
Definition set_readClosed (d : side) (v : bool) (s : ProxySession) : ProxySession :=
  match d with
  | Client => set_clientReadClosed v s
  | Upstream => set_upstreamReadClosed v s
  end.
Definition on_buffer (d : side) (f : ByteBuffer → ByteBuffer) : ST env unit :=
  on_session (λ s, set_buffer d (f (buffer d s)) s).

Section handlers.
Context `{K : Kernel}.

Definition touch : ST env unit :=
  now ← sys_now; on_session (set_lastActivity now).

Definition finishUpstreamConnect : ST env bool :=
  s ← gets session;
  r ← sys_so_error (upstreamFd s);
  match r with
  | Ret 0 =>
      on_session (set_connecting false) ;;
      on_lease (backend_ s) Backend.recordConnectSuccess ;;
      touch ;;
      mret true
  | _ =>
      on_lease (backend_ s) Backend.recordConnectFailure ;;
      on_metrics Metrics.onConnectFailure ;;
      mret false
  end.

(** The loop of [readInto]; [fuel] bounds its turns. *)
Fixpoint readInto_loop (fuel : nat) (fd : Z) (d : side) (clientSide progressed : bool) :
    ST env IoResult :=
  match fuel with
  | O => diverge
  | Datatypes.S fuel' =>
      on_buffer d makeWritable ;;
      b ← gets (λ s, buffer d (session s));
      if writableBytes b =? 0 then mret (if progressed then Progress else WouldBlock)
      else
        count ← sys_recv fd (writableBytes b);
        match count with
        | Ret bs =>
            let bytes := Z.of_nat (length bs) in
            on_buffer d (writeData bs) ;;
            if 0 <? bytes then
              on_buffer d (hasWritten bytes) ;;
              (if clientSide then on_metrics (Metrics.addClientToBackend bytes)
               else on_metrics (Metrics.addBackendToClient bytes)) ;;
              touch ;;
              readInto_loop fuel' fd d clientSide true
            else mret Closed
        | Fail errno =>
            if errno =? EINTR then readInto_loop fuel' fd d clientSide progressed
            else if (errno =? EAGAIN) || (errno =? EWOULDBLOCK)
            then mret (if progressed then Progress else WouldBlock)
            else mret Error
        end
  end.

Definition readInto (fuel : nat) (fd : Z) (d : side) (clientSide : bool) :
    ST env IoResult :=
  readInto_loop fuel fd d clientSide false.

(** The loop of [writeFrom]. *)
Fixpoint writeFrom_loop (fuel : nat) (fd : Z) (d : side) (progressed : bool) :
    ST env IoResult :=
  match fuel with
  | O => diverge
  | Datatypes.S fuel' =>
      b ← gets (λ s, buffer d (session s));
      if empty b then mret Progress
      else
        count ← sys_send fd (take (Z.to_nat (readableBytes b)) (readData b));
        match count with
        | Ret n =>
            if 0 <? n then
              on_buffer d (consume n) ;;
              touch ;;
              writeFrom_loop fuel' fd d true
            else mret Closed
        | Fail errno =>
            if errno =? EINTR then writeFrom_loop fuel' fd d progressed
            else if (errno =? EAGAIN) || (errno =? EWOULDBLOCK)
            then mret (if progressed then Progress else WouldBlock)
            else mret Error
        end
  end.

Definition writeFrom (fuel : nat) (fd : Z) (d : side) : ST env IoResult :=
  writeFrom_loop fuel fd d false.

Definition updateHalfClose : ST env unit :=
  s ← gets session;
  (if clientReadClosed_ s && empty (clientToUpstream_ s)
      && negb (upstreamWriteShutdown_ s) && negb (upstreamConnecting_ s)
   then sys_shutdown_wr (upstreamFd s) ;; on_session (set_upstreamWriteShutdown true)
   else mret tt) ;;
  s ← gets session;
  if upstreamReadClosed_ s && empty (upstreamToClient_ s)
     && negb (clientWriteShutdown_ s)
  then sys_shutdown_wr (clientFd s) ;; on_session (set_clientWriteShutdown true)
  else mret tt.

(** [closing_ = true; return false;]. *)
Definition fail : ST env (option bool) :=
  on_session (set_closing true) ;; mret (Some false).

(** An event on the side [d]: the bodies of the two branches on [fd] in
    [handleEvent], which differ only in the side.  [Some r] is [return r],
    [None] goes on. *)
Definition read_side (fuel : nat) (d : side) (events : Z) : ST env (option bool) :=
  let peerHangup := has events (Z.lor EPOLLRDHUP EPOLLHUP) in
  s ← gets session;
  if negb (readClosed d s) && has events (Z.lor EPOLLIN (Z.lor EPOLLRDHUP EPOLLHUP)) then
    result ← readInto fuel (fd_of d s) d (bool_decide (d = Client));
    if decide (result = Error) then fail
    else
      (if bool_decide (result = Closed) || peerHangup && bool_decide (result = WouldBlock)
       then on_session (set_readClosed d true) else mret tt) ;;
      mret None
  else mret None.

Definition write_side (fuel : nat) (d : side) (events : Z) : ST env (option bool) :=
  s ← gets session;
  if has events EPOLLOUT && negb (empty (buffer (other d) s)) then
    result ← writeFrom fuel (fd_of d s) (other d);
    if decide (result = Error ∨ result = Closed) then fail else mret None
  else mret None.

Definition serve (fuel : nat) (d : side) (events : Z) : ST env (option bool) :=
  early ← read_side fuel d events;
  match early with
  | Some r => mret (Some r)
  | None => write_side fuel d events
  end.

(** The connection phase: [finishUpstreamConnect] before anything else. *)
Definition connect_phase (fd events : Z) : ST env (option bool) :=
  s ← gets session;
  if (fd =? upstreamFd s) && upstreamConnecting_ s then
    if negb (has events (Z.lor EPOLLOUT (Z.lor EPOLLERR EPOLLHUP))) then mret (Some true)
    else
      connected ← finishUpstreamConnect;
      if connected : bool then mret None else fail
  else mret None.

Definition handleEvent (fuel : nat) (fd events : Z) : ST env bool :=
  s ← gets session;
  if closing_ s then mret false
  else
    early ← connect_phase fd events;
    match early with
    | Some r => mret r
    | None =>
        if has events EPOLLERR then
          _ ← sys_so_error fd;
          on_session (set_closing true) ;; mret false
        else
          s ← gets session;
          early ← (if fd =? clientFd s then serve fuel Client events
                   else if fd =? upstreamFd s then serve fuel Upstream events
                   else fail);
          match early with
          | Some r => mret r
          | None =>
              updateHalfClose ;;
              s ← gets session;
              if completed s then on_session (set_closing true) ;; mret false
              else mret true
          end
    end.
End handlers.

End ProxySession.
