(* ===== verification/Traces.v ===== *)
(** * What a run adds to the history

    Facts about the calls made so far that calls to come cannot undo, and the
    proof that the session's and the network's code keeps them.  Accepting a
    client is the one call the facts may depend on: only the main thread
    accepts, so that everything the other threads do keeps the number of
    clients accepted as well. *)

From S2P Require Import Prelude Text Posix ByteBuffer UniqueFd Metrics Config Net Backend BackendPool HealthChecker ProxySession.
Local Open Scope Z_scope.

Module Traces.

Definition is_accept (e : event) : bool :=
  match e with EvAccept _ _ => true | _ => false end.

(** A fact that every other call keeps. *)
Class Lasting (P : trace → Prop) : Prop :=
  lasting e tr : is_accept e = false → P tr → P (e :: tr).

Notation keeps P := (preserves (λ s, P (view s))).

(** The time was shown; so many calls of [accept4] brought a client or were
    interrupted. *)
Definition shown (t : Z) (tr : trace) : Prop := EvNow t ∈ tr.

Fixpoint accepts (tr : trace) : nat :=
  match tr with
  | [] => O
  | EvAccept _ (Ret _) :: tr' => S (accepts tr')
  | EvAccept _ (Fail e) :: tr' => if e =? EINTR then S (accepts tr') else accepts tr'
  | _ :: tr' => accepts tr'
  end.

(** Documented of the surroundings of a run: no more than [n] clients and
    interruptions of [accept4] come; [epoll_wait] on a valid descriptor fails
    only when interrupted. *)
Class FewClients (K : Kernel) (n : nat) : Prop :=
  accept_few tr fd : (n ≤ accepts tr)%nat → ∃ e, k_accept tr fd = Fail e ∧ e ≠ EINTR.

Class SteadyEpoll (K : Kernel) : Prop :=
  epoll_wait_interrupted tr k e : k_epoll_wait tr k = Fail e → e = EINTR.

#[export] Instance shown_lasting t : Lasting (shown t).
Proof. intros e tr _ Ht. by apply list_elem_of_further. Qed.

#[export] Instance accepts_lasting n : Lasting (λ tr, accepts tr = n).
Proof. intros e tr He Hn. by destruct e. Qed.

Create HintDb keeps.

Section keeps.
Context `{K : Kernel} (P : trace → Prop) `{!Lasting P} {S : Type} `{LensLaws S trace}.

Lemma keeps_syscall {R} (ask : trace → R) (event : R → event) :
  (∀ r, is_accept (event r) = false) → keeps P (syscall (S := S) ask event).
Proof using All.
  intros He s Hs. unfold syscall. cbn [snd]. rewrite view_upd. by apply lasting.
Qed.
End keeps.

(** One step of the structure; what is left are calls of other code. *)
Ltac keep :=
  repeat first
    [ solve [eauto with keeps typeclass_instances]
    | apply preserves_bind; [|intros ?]
    | apply preserves_try_catch; [|intros ?]
    | apply preserves_ret | apply preserves_gets | apply preserves_throw | apply preserves_diverge
    | apply preserves_for_each; intros ? _
    | apply (keeps_syscall _); by intros ?
    | by intros ? ?
    | case_match ].

Section net.
Context `{K : Kernel} (P : trace → Prop) `{!Lasting P} {S : Type} `{LensLaws S trace}.

Lemma keeps_close fd : keeps P (sys_close (S := S) fd).
Proof using All. unfold sys_close. keep. Qed.

Lemma keeps_destroy u : keeps P (UniqueFd.destroy (S := S) u).
Proof using All. unfold UniqueFd.destroy, UniqueFd.reset, sys_close. keep. Qed.

Lemma keeps_connect e : keeps P (Net.connectNonBlocking (S := S) e).
Proof using All.
  unfold Net.connectNonBlocking, Net.systemError, Net.scoped, Net.setCloseOnExec, Net.setNonBlocking,
    Net.setTcpNoDelay, Net.systemError, UniqueFd.destroy, UniqueFd.reset,
    sys_socket, sys_connect, sys_fcntl, sys_setsockopt, sys_close.
  keep.
Qed.

Lemma keeps_listen host port backlog :
  keeps P (Net.createListenSocket (S := S) host port backlog).
Proof using All.
  unfold Net.createListenSocket, Net.resolveTcpEndpoint, Net.systemError, Net.scoped,
    Net.setCloseOnExec, Net.setNonBlocking, Net.setReuseAddress, Net.systemError,
    UniqueFd.destroy, UniqueFd.reset, sys_socket, sys_bind, sys_listen, sys_fcntl,
    sys_setsockopt, sys_getaddrinfo, sys_close.
  keep.
Qed.

Lemma keeps_pool configs : keeps P (BackendPool.construct (S := S) configs).
Proof using All.
  assert (∀ cs, keeps P (BackendPool.make_backends (S := S) cs)) as Hb.
  { induction cs as [|c cs IH]; cbn [BackendPool.make_backends];
      unfold Backend.construct, Net.resolveTcpEndpoint, sys_getaddrinfo; keep. }
  unfold BackendPool.construct. keep.
Qed.

Lemma keeps_poll_retry fuel fd t : keeps P (Net.poll_retry (S := S) fuel fd t).
Proof using All.
  induction fuel as [|fuel IH]; cbn [Net.poll_retry]; unfold sys_poll; keep.
Qed.

Lemma keeps_probe fuel e t : keeps P (Net.waitForConnect (S := S) fuel e t).
Proof using All.
  pose proof keeps_connect. pose proof keeps_poll_retry.
  unfold Net.waitForConnect, Net.scoped, UniqueFd.destroy, UniqueFd.reset, sys_so_error, sys_close.
  keep.
Qed.
End net.

#[export] Hint Resolve keeps_close keeps_destroy keeps_listen keeps_pool keeps_connect keeps_poll_retry keeps_probe : keeps.

Section checker.
Import HealthChecker.
Context `{K : Kernel} (P : trace → Prop) `{!Lasting P}.

Lemma keeps_checkOnce fuel : keeps P (HealthChecker.checkOnce fuel).
Proof using All. unfold checkOnce, check_backend. keep.
Qed.

Lemma keeps_wait_for : keeps P HealthChecker.wait_for.
Proof using All. unfold wait_for, sys_wait_for. keep. Qed.
End checker.

Section session.
Import ProxySession.
Context `{K : Kernel} (P : trace → Prop) `{!Lasting P}.

Lemma keeps_readInto fuel fd d side progressed :
  keeps P (readInto_loop fuel fd d side progressed).
Proof using All.
  revert progressed. induction fuel as [|fuel IH]; intros progressed; cbn [readInto_loop].
  - keep.
  - unfold on_buffer, on_session, sys_recv, on_metrics, touch, sys_now. keep.
Qed.

Lemma keeps_writeFrom fuel fd d progressed : keeps P (writeFrom_loop fuel fd d progressed).
Proof using All.
  revert progressed. induction fuel as [|fuel IH]; intros progressed; cbn [writeFrom_loop].
  - keep.
  - unfold on_buffer, on_session, sys_send, touch, sys_now. keep.
Qed.

Lemma keeps_handleEvent fuel fd events : keeps P (handleEvent fuel fd events).
Proof using All.
  pose proof keeps_readInto. pose proof keeps_writeFrom.
  unfold handleEvent, connect_phase, finishUpstreamConnect, serve, read_side, write_side, fail,
    updateHalfClose, readInto, writeFrom, on_lease, on_session, on_metrics, touch,
    sys_so_error, sys_shutdown_wr, sys_now.
  keep.
Qed.
End session.

#[export] Hint Resolve keeps_checkOnce keeps_wait_for keeps_handleEvent : keeps.

End Traces.
