(* ===== verification/SessionSteps.v ===== *)
(** * The atomic effects of a session's event handler

    [io_step] is the specification of what the handler may do between two
    states of a session: each constructor is one effect with the guard the
    handler checks before it.  [handleEvent_io] shows that every run of
    [handleEvent], whatever it ends with, is a sequence of these steps, so a
    safety property of sessions is an invariant of [io_step]. *)

From S2P Require Import Prelude Text Posix ByteBuffer UniqueFd Metrics Config Net Backend BackendPool ProxySession.
Local Open Scope Z_scope.

Module SessionSteps.
Import ByteBuffer (ByteBuffer, readableBytes, writableBytes, empty, makeWritable,
  readData, writeData, hasWritten, consume, append).
Import ProxySession.

(** ** States after one effect *)

Definition with_session (f : ProxySession → ProxySession) (s : env) : env :=
  mkEnv (f (session s)) (metrics s) (pool s) (log s).
Definition with_buffer (d : side) (f : ByteBuffer → ByteBuffer) (s : env) : env :=
  with_session (λ c, set_buffer d (f (buffer d c)) c) s.
Definition logged (e : event) (s : env) : env :=
  mkEnv (session s) (metrics s) (pool s) (e :: log s).
Definition counted (d : side) (bytes : Z) (s : env) : env :=
  mkEnv (session s)
    (match d with
     | Client => Metrics.addClientToBackend bytes (metrics s)
     | Upstream => Metrics.addBackendToClient bytes (metrics s)
     end) (pool s) (log s).
Definition on_node (i : nat) (f : Backend.Backend → Backend.Backend) (s : env) : env :=
  mkEnv (session s) (metrics s)
    (BackendPool.mkPool (alter f i (BackendPool.backends_ (pool s)))
      (BackendPool.tieBreaker_ (pool s))) (log s).

Section steps.
Context `{K : Kernel}.

(** [touch()]. *)
Definition touched (s : env) : env :=
  with_session (set_lastActivity (k_now (log s))) (logged (EvNow (k_now (log s))) s).

Definition readable (d : side) (s : env) : Prop :=
  readClosed d (session s) = false ∧
  (d = Upstream → upstreamConnecting_ (session s) = false) ∧
  0 < writableBytes (buffer d (session s)).

Definition answer (d : side) (s : env) : sysret (list byte) :=
  k_recv (log s) (fd_of d (session s)) (writableBytes (buffer d (session s))).

Definition recv_event (d : side) (s : env) : event :=
  EvRecv (fd_of d (session s)) (writableBytes (buffer d (session s))) (answer d s).

(** Sending what was read from [d] to the other side. *)
Definition sendable (d : side) (s : env) : Prop :=
  empty (buffer d (session s)) = false ∧
  (d = Client → upstreamConnecting_ (session s) = false).

Definition outgoing (d : side) (s : env) : list byte :=
  take (Z.to_nat (readableBytes (buffer d (session s)))) (readData (buffer d (session s))).

Definition accepted (d : side) (s : env) : sysret Z :=
  k_send (log s) (fd_of (other d) (session s)) (outgoing d s).

Definition send_event (d : side) (s : env) : event :=
  EvSend (fd_of (other d) (session s)) (outgoing d s) (accepted d s).

(** The far side of [d] may be told that no more data will come. *)
Definition finishable (d : side) (s : env) : Prop :=
  readClosed d (session s) = true ∧ empty (buffer d (session s)) = true ∧
  match d with
  | Client => upstreamWriteShutdown_ (session s) = false ∧
              upstreamConnecting_ (session s) = false
  | Upstream => clientWriteShutdown_ (session s) = false
  end.

Definition finished (d : side) (s : env) : env :=
  with_session (match d with
                | Client => set_upstreamWriteShutdown true
                | Upstream => set_clientWriteShutdown true
                end) (logged (EvShutdownWr (fd_of (other d) (session s))) s).

Inductive io_step (events : Z) (s : env) : env → Prop :=
| io_compact d : io_step events s (with_buffer d makeWritable s)
| io_recv d bs :
    readable d s → answer d s = Ret bs → bs ≠ [] →
    io_step events s
      (touched (counted d (Z.of_nat (length bs))
        (with_buffer d (append bs) (logged (recv_event d s) s))))
| io_recv_none d :
    readable d s → (∀ bs, answer d s = Ret bs → bs = []) →
    io_step events s (logged (recv_event d s) s)
| io_close d :
    readClosed d (session s) = false →
    ((∃ len tr, log s = EvRecv (fd_of d (session s)) len (Ret []) :: tr) ∨
     has events (Z.lor EPOLLRDHUP EPOLLHUP) = true) →
    io_step events s (with_session (set_readClosed d true) s)
| io_send d n :
    sendable d s → accepted d s = Ret n → 0 < n →
    io_step events s
      (touched (with_buffer d (consume n) (logged (send_event d s) s)))
| io_send_none d :
    sendable d s → (∀ n, accepted d s = Ret n → n <= 0) →
    io_step events s (logged (send_event d s) s)
| io_fin d : finishable d s → io_step events s (finished d s)
| io_so_error fd :
    io_step events s (logged (EvSoError fd (k_so_error (log s) fd)) s)
| io_connected i tr :
    upstreamConnecting_ (session s) = true →
    log s = EvSoError (upstreamFd (session s)) (Ret 0) :: tr →
    BackendPool.backend_ (backend_ (session s)) = Some i →
    io_step events s
      (touched (on_node i Backend.recordConnectSuccess
        (with_session (set_connecting false) s)))
| io_connect_failed i r tr :
    upstreamConnecting_ (session s) = true →
    log s = EvSoError (upstreamFd (session s)) r :: tr → r ≠ Ret 0 →
    BackendPool.backend_ (backend_ (session s)) = Some i →
    io_step events s
      (mkEnv (session s) (Metrics.onConnectFailure (metrics s))
        (pool (on_node i Backend.recordConnectFailure s)) (log s))
| io_closing : io_step events s (with_session (set_closing true) s).

Definition io_steps (events : Z) : env → env → Prop := rtc (io_step events).

(** ** The loops, one turn at a time *)

Definition is_client (d : side) : bool := bool_decide (d = Client).

Lemma readInto_turn fuel fd d progressed s :
  readInto_loop (S fuel) fd d (is_client d) progressed s =
  let s1 := with_buffer d makeWritable s in
  let len := writableBytes (buffer d (session s1)) in
  if len =? 0 then (Val (if progressed then Progress else WouldBlock), s1)
  else
    let r := k_recv (log s1) fd len in
    let s2 := logged (EvRecv fd len r) s1 in
    match r with
    | Ret [] => (Val Closed, with_buffer d (writeData []) s2)
    | Ret bs =>
        readInto_loop fuel fd d (is_client d) true
          (touched (counted d (Z.of_nat (length bs)) (with_buffer d (append bs) s2)))
    | Fail e =>
        if e =? EINTR then readInto_loop fuel fd d (is_client d) progressed s2
        else if (e =? EAGAIN) || (e =? EWOULDBLOCK)
        then (Val (if progressed then Progress else WouldBlock), s2)
        else (Val Error, s2)
    end.
Proof using Type.
  destruct s as [c m p tr]. cbn [readInto_loop]. cbv zeta.
  unfold on_buffer, on_session, modify, gets, mbind, ST_bind, with_buffer, with_session.
  cbn [session metrics pool log].
  destruct (_ =? 0); [done|].
  unfold sys_recv, syscall, touch, sys_now, syscall. cbn [view env_log log].
  destruct (k_recv _ _ _) as [[|x bs]|e]; [by destruct d..|].
  by destruct (e =? EINTR), ((e =? EAGAIN) || (e =? EWOULDBLOCK)).
Qed.

Lemma writeFrom_turn fuel fd d progressed s :
  writeFrom_loop (S fuel) fd d progressed s =
  let b := buffer d (session s) in
  if empty b then (Val Progress, s)
  else
    let data := take (Z.to_nat (readableBytes b)) (readData b) in
    let r := k_send (log s) fd data in
    let s1 := logged (EvSend fd data r) s in
    match r with
    | Ret n =>
        if 0 <? n then writeFrom_loop fuel fd d true (touched (with_buffer d (consume n) s1))
        else (Val Closed, s1)
    | Fail e =>
        if e =? EINTR then writeFrom_loop fuel fd d progressed s1
        else if (e =? EAGAIN) || (e =? EWOULDBLOCK)
        then (Val (if progressed then Progress else WouldBlock), s1)
        else (Val Error, s1)
    end.
Proof using Type.
  destruct s as [c m p tr]. cbn [writeFrom_loop]. cbv zeta.
  unfold on_buffer, on_session, modify, gets, mbind, ST_bind. cbn [session].
  destruct (empty _); [done|].
  unfold sys_send, syscall, touch, sys_now, syscall. cbn [view env_log log].
  destruct (k_send _ _ _) as [n|e]; [by destruct (0 <? n), d|].
  by destruct (e =? EINTR), ((e =? EAGAIN) || (e =? EWOULDBLOCK)).
Qed.

(** ** The loops are steps *)

(** What never changes in a session, and its phase. *)
Definition core (c : ProxySession) :=
  (id_ c, clientFd_ c, upstreamFd_ c, backend_ c, clientAddress_ c, createdAt_ c).
Definition flags (c : ProxySession) :=
  (upstreamConnecting_ c, clientReadClosed_ c, upstreamReadClosed_ c,
   clientWriteShutdown_ c, upstreamWriteShutdown_ c, closing_ c).

Definition same_flags (c c' : ProxySession) : Prop :=
  core c' = core c ∧ flags c' = flags c.

Lemma same_flags_refl c : same_flags c c.
Proof using Type. done. Qed.
Lemma same_flags_trans c1 c2 c3 :
  same_flags c1 c2 → same_flags c2 c3 → same_flags c1 c3.
Proof using Type. unfold same_flags. intros [-> ->] [-> ->]. done. Qed.

Lemma same_flags_facts c c' : same_flags c c' →
  (∀ d, fd_of d c' = fd_of d c) ∧ (∀ d, readClosed d c' = readClosed d c) ∧
  upstreamConnecting_ c' = upstreamConnecting_ c ∧ backend_ c' = backend_ c ∧
  closing_ c' = closing_ c.
Proof using Type.
  unfold same_flags, core, flags. intros [? ?]. simplify_eq.
  split_and!; try done; intros []; cbn; unfold clientFd, upstreamFd; congruence.
Qed.

Lemma same_flags_buffer d f s : same_flags (session s) (session (with_buffer d f s)).
Proof using Type. by destruct d. Qed.

Lemma same_flags_touched s : same_flags (session s) (session (touched s)).
Proof using Type. done. Qed.

Lemma buffer_with_buffer d f s :
  buffer d (session (with_buffer d f s)) = f (buffer d (session s)).
Proof using Type. by destruct d. Qed.

Lemma buffer_with_other d f s :
  buffer (other d) (session (with_buffer d f s)) = buffer (other d) (session s).
Proof using Type. by destruct d. Qed.

Lemma with_buffer_id d f s :
  f (buffer d (session s)) = buffer d (session s) → with_buffer d f s = s.
Proof using Type. intros Hf. destruct s as [[] ? ? ?], d; unfold with_buffer,
  with_session; cbn in *; by rewrite Hf. Qed.

Lemma writeData_nil b : writeData [] b = b.
Proof using Type. by destruct b. Qed.

Lemma readInto_io events fuel d progressed s :
  readClosed d (session s) = false →
  (d = Upstream → upstreamConnecting_ (session s) = false) →
  let r := readInto_loop fuel (fd_of d (session s)) d (is_client d) progressed s in
  io_steps events s r.2 ∧ same_flags (session s) (session r.2) ∧
  (r.1 = Val Closed →
     ∃ len tr, log r.2 = EvRecv (fd_of d (session s)) len (Ret []) :: tr).
Proof using Type.
  revert progressed s. induction fuel as [|fuel IH]; intros progressed s Hc Hu.
  { split; [apply rtc_refl|]. by split. }
  cbv zeta. rewrite readInto_turn. cbv zeta. set (s1 := with_buffer d makeWritable s).
  pose proof (same_flags_buffer d makeWritable s) as Hs1. fold s1 in Hs1.
  destruct (same_flags_facts _ _ Hs1) as (Hfd & Hrc & Hcon & _).
  assert (io_step events s s1) as Hstep by constructor.
  destruct (Z.eqb_spec (writableBytes (buffer d (session s1))) 0) as [Hz|Hz].
  { split; [by apply rtc_once|]. split; [done|]. by destruct progressed. }
  assert (readable d s1) as Hrd.
  { split; [congruence|]. split; [rewrite Hcon; done|]. pose proof (u64_range
      (ByteBuffer.size (buffer d (session s1)) - ByteBuffer.writeIndex_ (buffer d (session s1)))).
    unfold writableBytes, is_u64 in *. lia. }
  assert (k_recv (log s1) (fd_of d (session s)) (writableBytes (buffer d (session s1))) =
    answer d s1) as Hans by (unfold answer; by rewrite Hfd).
  assert (EvRecv (fd_of d (session s)) (writableBytes (buffer d (session s1))) (answer d s1)
    = recv_event d s1) as Hev by (unfold recv_event; by rewrite Hfd).
  rewrite Hans, Hev.
  destruct (answer d s1) as [[|x bs]|e] eqn:Ha.
  - rewrite with_buffer_id by apply writeData_nil. split; [|split; [done|]].
    + eapply rtc_l; [exact Hstep|]. apply rtc_once, io_recv_none; [done|]. congruence.
    + intros _. cbn. unfold recv_event. rewrite Ha, Hfd. eauto.
  - set (s2 := touched _).
    assert (io_step events s1 s2) as Hs2 by (apply io_recv; done).
    assert (same_flags (session s) (session s2)) as Hf2.
    { eapply same_flags_trans; [exact Hs1|]. apply (same_flags_buffer d _ (logged _ s1)). }
    destruct (same_flags_facts _ _ Hf2) as (Hfd2 & Hrc2 & Hcon2 & _).
    destruct (IH true s2) as (Hio & Hsf & Hcl); [congruence|rewrite Hcon2; done|].
    rewrite (Hfd2 d) in *. split; [|split; [|done]].
    + eapply rtc_l; [exact Hstep|]. eapply rtc_l; [exact Hs2|done].
    + apply (same_flags_trans _ _ _ Hf2 Hsf).
  - assert (io_step events s1 (logged (recv_event d s1) s1)) as Hs2.
    { apply io_recv_none; [done|]. congruence. }
    case_match; [|case_match].
    + destruct (IH progressed (logged (recv_event d s1) s1)) as (Hio & Hsf & Hcl);
        [by rewrite <- Hc, <- Hrc|by rewrite <- Hcon in Hu|].
      cbn [session logged] in *. rewrite Hfd in *. split; [|split; [|done]].
      * eapply rtc_l; [exact Hstep|]. eapply rtc_l; [exact Hs2|done].
      * apply (same_flags_trans _ _ _ Hs1 Hsf).
    + split; [|split; [done|by destruct progressed]].
      eapply rtc_l; [exact Hstep|]. by apply rtc_once.
    + split; [|done].
      eapply rtc_l; [exact Hstep|]. by apply rtc_once.
Qed.

Lemma writeFrom_io events fuel d progressed s :
  (d = Client → upstreamConnecting_ (session s) = false) →
  let r := writeFrom_loop fuel (fd_of (other d) (session s)) d progressed s in
  io_steps events s r.2 ∧ same_flags (session s) (session r.2).
Proof using Type.
  revert progressed s. induction fuel as [|fuel IH]; intros progressed s Hu.
  { split; [apply rtc_refl|done]. }
  cbv zeta. rewrite writeFrom_turn. cbv zeta.
  destruct (empty (buffer d (session s))) eqn:He; [split; [apply rtc_refl|done]|].
  fold (outgoing d s). fold (accepted d s). fold (send_event d s).
  destruct (accepted d s) as [n|e] eqn:Ha.
  - destruct (Z.ltb_spec 0 n).
    + set (s2 := touched _).
      assert (io_step events s s2) as Hs2 by (by apply io_send).
      assert (same_flags (session s) (session s2)) as Hf2.
      { apply (same_flags_buffer d _ (logged _ s)). }
      destruct (same_flags_facts _ _ Hf2) as (Hfd2 & _ & Hcon2 & _).
      destruct (IH true s2) as (Hio & Hsf); [rewrite Hcon2; done|].
      rewrite (Hfd2 (other d)) in *. split; [by eapply rtc_l|].
      apply (same_flags_trans _ _ _ Hf2 Hsf).
    + split; [|done]. apply rtc_once, io_send_none; [done|]. intros n' Hn.
      assert (n' = n) as -> by congruence. done.
  - assert (io_step events s (logged (send_event d s) s)) as Hs2.
    { apply io_send_none; [done|]. congruence. }
    case_match; [|case_match; (split; [by apply rtc_once|done])].
    destruct (IH progressed (logged (send_event d s) s)) as (Hio & Hsf); [done|].
    split; [by eapply rtc_l|done].
Qed.

(** ** The handler is steps *)

Lemma io_step_core events s s' : io_step events s s' → core (session s') = core (session s).
Proof using Type. by destruct 1 as [[]|[]|[]|[]|[]|[]|[]| | | |]. Qed.

Lemma io_steps_core events s s' :
  io_steps events s s' → core (session s') = core (session s).
Proof using Type.
  induction 1 as [|s s1 s2 H1 _ IH]; [done|]. rewrite IH. by eapply io_step_core.
Qed.

Lemma core_facts c c' : core c' = core c →
  backend_ c' = backend_ c ∧ (∀ d, fd_of d c' = fd_of d c).
Proof using Type.
  unfold core. intros. simplify_eq. split; [done|].
  intros []; cbn; unfold clientFd, upstreamFd; congruence.
Qed.

Lemma io_trans events s1 s2 s3 :
  io_steps events s1 s2 → io_steps events s2 s3 → io_steps events s1 s3.
Proof using Type. unfold io_steps. intros. by etrans. Qed.

(** Once connected, connected. *)
Lemma io_step_connected events s s' : io_step events s s' →
  upstreamConnecting_ (session s) = false → upstreamConnecting_ (session s') = false.
Proof using Type. by destruct 1 as [[]|[]|[]|[]|[]|[]|[]| | | |]. Qed.

Lemma io_steps_connected events s s' : io_steps events s s' →
  upstreamConnecting_ (session s) = false → upstreamConnecting_ (session s') = false.
Proof using Type. induction 1; eauto using io_step_connected. Qed.

Lemma io_bind {A B} events (m : ST env A) (k : A → ST env B) s :
  io_steps events s (m s).2 →
  (∀ a s1, m s = (Val a, s1) → io_steps events s s1 → io_steps events s1 (k a s1).2) →
  io_steps events s ((m ≫= k) s).2.
Proof using Type.
  intros Hm Hk. unfold mbind, ST_bind. destruct (m s) as [[a|e|] s1]; [|done..].
  eapply io_trans; [exact Hm|]. by apply Hk.
Qed.

Lemma io_gets {A B} events (f : env → A) (k : A → ST env B) s :
  io_steps events s (k (f s) s).2 → io_steps events s ((gets f ≫= k) s).2.
Proof using Type. done. Qed.

Lemma io_fail events s : io_steps events s (fail s).2.
Proof using Type. apply rtc_once, io_closing. Qed.

Definition after_connect (i : nat) (s : env) : bool * env :=
  let r := k_so_error (log s) (upstreamFd (session s)) in
  let s1 := logged (EvSoError (upstreamFd (session s)) r) s in
  match r with
  | Ret 0 => (true, touched (on_node i Backend.recordConnectSuccess
                      (with_session (set_connecting false) s1)))
  | _ => (false, mkEnv (session s1) (Metrics.onConnectFailure (metrics s1))
                   (pool (on_node i Backend.recordConnectFailure s1)) (log s1))
  end.

Lemma finishUpstreamConnect_eq i s :
  BackendPool.backend_ (backend_ (session s)) = Some i →
  finishUpstreamConnect s = (Val (after_connect i s).1, (after_connect i s).2).
Proof using Type.
  intros Hi. unfold finishUpstreamConnect, after_connect, gets, mbind, ST_bind,
    sys_so_error, syscall, on_lease. rewrite Hi. cbn [view env_log].
  by destruct (k_so_error _ _) as [[|?|?]|?].
Qed.

Lemma after_connect_io events i s :
  upstreamConnecting_ (session s) = true →
  BackendPool.backend_ (backend_ (session s)) = Some i →
  io_steps events s (after_connect i s).2.
Proof using Type.
  intros Hc Hi. unfold after_connect.
  eapply rtc_l; [apply (io_so_error _ _ (upstreamFd (session s)))|].
  destruct (k_so_error (log s) (upstreamFd (session s))) as [[|?|?]|?] eqn:Hr; cbn [snd];
    apply rtc_once.
  1: by eapply io_connected.
  all: by eapply io_connect_failed.
Qed.

(** [connect_phase] as an equation. *)
Definition connect_result (fd events : Z) (i : nat) (s : env) :
    outcome (option bool) * env :=
  if (fd =? upstreamFd (session s)) && upstreamConnecting_ (session s) then
    if negb (has events (Z.lor EPOLLOUT (Z.lor EPOLLERR EPOLLHUP))) then (Val (Some true), s)
    else
      let '(connected, s1) := after_connect i s in
      if connected : bool then (Val None, s1)
      else (Val (Some false), with_session (set_closing true) s1)
  else (Val None, s).

Lemma connect_phase_eq fd events i s :
  BackendPool.backend_ (backend_ (session s)) = Some i →
  connect_phase fd events s = connect_result fd events i s.
Proof using Type.
  intros Hi. unfold connect_phase, connect_result, gets, mbind at 1, ST_bind at 1.
  case_match; [|done]. case_match; [done|]. unfold mbind, ST_bind.
  rewrite (finishUpstreamConnect_eq i) by done. by destruct (after_connect i s) as [[] s1].
Qed.

Lemma connect_phase_io events fd i s :
  BackendPool.backend_ (backend_ (session s)) = Some i →
  io_steps events s (connect_phase fd events s).2 ∧
  ((connect_phase fd events s).1 = Val None → fd = upstreamFd (session s) →
     upstreamConnecting_ (session (connect_phase fd events s).2) = false).
Proof using Type.
  intros Hi. rewrite (connect_phase_eq fd events i) by done. unfold connect_result.
  destruct (Z.eqb_spec fd (upstreamFd (session s))) as [->|Hne]; cbn [andb].
  2: { split; [apply rtc_refl|]. intros _ ?. done. }
  destruct (upstreamConnecting_ (session s)) eqn:Hc; [|split; [apply rtc_refl|done]].
  destruct (negb _); [split; [apply rtc_refl|done]|].
  pose proof (after_connect_io events i s Hc Hi) as Hio.
  destruct (after_connect i s) as [[] s1] eqn:Ha; cbn [fst snd] in *.
  - split; [done|]. intros _ _. unfold after_connect in Ha.
    destruct (k_so_error _ _) as [[|?|?]|?]; by simplify_eq.
  - split; [|done]. eapply io_trans; [exact Hio|]. apply rtc_once, io_closing.
Qed.

Lemma other_other d : other (other d) = d.
Proof using Type. by destruct d. Qed.

Lemma read_side_io events fuel d s :
  (d = Upstream → upstreamConnecting_ (session s) = false) →
  io_steps events s (read_side fuel d events s).2.
Proof using Type.
  intros Hu. unfold read_side. apply io_gets.
  case_match eqn:Hguard; [|apply rtc_refl].
  apply andb_true_iff in Hguard as [Hrc%negb_true_iff Hev].
  destruct (readInto_io events fuel d false s Hrc Hu) as (Hio & Hsf & Hcl).
  apply io_bind; [exact Hio|]. intros result s1 Hr _.
  unfold readInto, is_client in *. rewrite Hr in Hio, Hsf, Hcl. cbn [fst snd] in *.
  destruct (same_flags_facts _ _ Hsf) as (Hfd & Hrc1 & _).
  case_match; [apply io_fail|]. apply io_bind; [|intros; apply rtc_refl].
  case_match eqn:Hh; [|apply rtc_refl].
  apply rtc_once, (io_close _ _ d); [congruence|].
  apply orb_true_iff in Hh as [->%bool_decide_eq_true|[? _]%andb_true_iff]; [left|by right].
  rewrite Hfd. by apply Hcl.
Qed.

Lemma write_side_io events fuel d s :
  (d = Upstream → upstreamConnecting_ (session s) = false) →
  io_steps events s (write_side fuel d events s).2.
Proof using Type.
  intros Hu. unfold write_side. apply io_gets. case_match; [|apply rtc_refl]. apply io_bind.
  - rewrite <- (other_other d) at 1. apply writeFrom_io. destruct d; [done|].
    intros _. by apply Hu.
  - intros r s2 _ _. case_match; [apply io_fail|apply rtc_refl].
Qed.

Lemma serve_io events fuel d s :
  (d = Upstream → upstreamConnecting_ (session s) = false) →
  io_steps events s (serve fuel d events s).2.
Proof using Type.
  intros Hu. unfold serve. apply io_bind; [by apply read_side_io|].
  intros early s1 _ Hio. destruct early as [r|]; [apply rtc_refl|].
  apply write_side_io. intros Hd. eapply io_steps_connected; [exact Hio|]. by apply Hu.
Qed.

Lemma updateHalfClose_io events s : io_steps events s (updateHalfClose s).2.
Proof using Type.
  unfold updateHalfClose. apply io_gets. apply io_bind.
  - case_match eqn:Hg; [|apply rtc_refl].
    apply andb_true_iff in Hg as [[[? ?]%andb_true_iff ?%negb_true_iff]%andb_true_iff
      ?%negb_true_iff].
    by apply rtc_once, (io_fin _ _ Client).
  - intros _ s1 _ _. apply io_gets. case_match eqn:Hg; [|apply rtc_refl].
    apply andb_true_iff in Hg as [[? ?]%andb_true_iff ?%negb_true_iff].
    by apply rtc_once, (io_fin _ _ Upstream).
Qed.

(** Every run of [handleEvent] on a session with a backend is made of
    [io_step]s, whatever its outcome. *)
Lemma handleEvent_io fuel fd events i s :
  BackendPool.backend_ (backend_ (session s)) = Some i →
  io_steps events s (handleEvent fuel fd events s).2.
Proof using Type.
  intros Hi. unfold handleEvent. apply io_gets.
  case_match; [apply rtc_refl|].
  destruct (connect_phase_io events fd i s Hi) as [Hcp Hcon].
  apply io_bind; [exact Hcp|]. intros early s1 He Hio1. rewrite He in Hcon. cbn in Hcon.
  destruct early as [r|]; [apply rtc_refl|]. case_match.
  - eapply rtc_l; [apply (io_so_error _ _ fd)|]. apply rtc_once, io_closing.
  - apply io_gets.
    destruct (core_facts _ _ (io_steps_core _ _ _ Hio1)) as [_ Hfd].
    apply io_bind.
    + destruct (Z.eqb_spec fd (clientFd (session s1))); [by apply serve_io|].
      destruct (Z.eqb_spec fd (upstreamFd (session s1))) as [->|]; [|apply io_fail].
      apply serve_io. intros _. apply Hcon; [done|]. apply (Hfd Upstream).
    + intros early s2 _ _. destruct early as [r|]; [apply rtc_refl|].
      apply io_bind; [apply updateHalfClose_io|]. intros [] s3 _ _. apply io_gets.
      case_match; [|apply rtc_refl]. apply rtc_once, io_closing.
Qed.
End steps.
End SessionSteps.
