(* ===== verification/SessionStream.v ===== *)
(** * What a session transports

    Invariants of [io_step], hence of every run of the event handler: each
    direction is a FIFO stream that loses, adds and reorders nothing and
    holds at most the configured buffer; the end of a stream is passed on
    only after all of its data; the upstream socket is left alone until it is
    connected; the byte counters count exactly what was received. *)

From S2P Require Import Prelude Text Posix ByteBuffer UniqueFd Metrics Config Net Backend BackendPool ProxySession SessionSteps.
Local Open Scope Z_scope.

Module SessionStream.
Import ByteBuffer (ByteBuffer, readableBytes, writableBytes, empty, makeWritable,
  readData, writeData, hasWritten, consume, append, contents, wf, size).
Import ProxySession SessionSteps.

(** ** The life of a session *)

(** The worker hands events to the session's handler; between them the rest
    of the process makes calls on other descriptors. *)
Inductive act :=
| Handle (fd events : Z)
| Elsewhere (calls : trace).

(** The descriptor a call transfers data or its end on. *)
Definition io_fd (e : event) : option Z :=
  match e with
  | EvRecv fd _ _ | EvSend fd _ _ | EvShutdownWr fd | EvSoError fd _ => Some fd
  | _ => None
  end.

Definition untouched (fds : list Z) (tr : trace) : Prop :=
  Forall (λ e, match io_fd e with Some fd => fd ∉ fds | None => True end) tr.

Definition called (tr : trace) (s : env) : env :=
  mkEnv (session s) (metrics s) (pool s) (tr ++ log s).

Section life.
Context {K : Kernel}.

Definition perform (fuel : nat) (a : act) : ST env unit :=
  match a with
  | Handle fd events => _ ← handleEvent fuel fd events; mret tt
  | Elsewhere calls => modify (called calls)
  end.

(** Steps of the session and of the rest of the process. *)
Inductive life_step (s : env) : env → Prop :=
| life_io events s' : io_step events s s' → life_step s s'
| life_elsewhere calls :
    untouched [clientFd (session s); upstreamFd (session s)] calls →
    life_step s (called calls s).

Definition ok_act (cfd ufd : Z) (a : act) : Prop :=
  match a with Handle _ _ => True | Elsewhere calls => untouched [cfd; ufd] calls end.

Lemma perform_life fuel a i s :
  BackendPool.backend_ (backend_ (session s)) = Some i →
  ok_act (clientFd (session s)) (upstreamFd (session s)) a →
  rtc life_step s (perform fuel a s).2 ∧
  core (session (perform fuel a s).2) = core (session s).
Proof using Type.
  intros Hi Ha. destruct a as [fd events|calls]; cbn [perform].
  - pose proof (handleEvent_io fuel fd events i s Hi) as Hio.
    unfold mbind, ST_bind.
    assert (rtc life_step s (handleEvent fuel fd events s).2 ∧
      core (session (handleEvent fuel fd events s).2) = core (session s)) as H.
    { split; [|by eapply io_steps_core].
      eapply (rtc_congruence (λ s, s)); [|exact Hio]. intros ??. apply life_io. }
    by destruct (handleEvent fuel fd events s) as [[b|e|] s'].
  - split; [|done]. by apply rtc_once, life_elsewhere.
Qed.

Lemma performs_life fuel acts cfd ufd i s :
  BackendPool.backend_ (backend_ (session s)) = Some i →
  clientFd (session s) = cfd → upstreamFd (session s) = ufd →
  Forall (ok_act cfd ufd) acts →
  rtc life_step s (for_each (perform fuel) acts s).2.
Proof using Type.
  intros Hi Hc Hu Hok. revert s Hi Hc Hu.
  induction Hok as [|a acts Ha _ IH]; intros s Hi Hc Hu; [apply rtc_refl|].
  cbn [for_each]. unfold mbind, ST_bind.
  destruct (perform_life fuel a i s Hi) as [Hl Hcore]; [by rewrite Hc, Hu|].
  destruct (perform fuel a s) as [[[]|e|] s']; cbn [snd] in *; [|done..].
  destruct (core_facts _ _ Hcore) as [Hb Hf].
  etrans; [exact Hl|]. apply IH; [congruence| |].
  - rewrite <- Hc. apply (Hf Client).
  - rewrite <- Hu. apply (Hf Upstream).
Qed.

(** Invariants by induction over a life. *)
Lemma life_invariant (I : env → Prop) s s' :
  (∀ s s', I s → life_step s s' → I s') → I s → rtc life_step s s' → I s'.
Proof using Type. intros Hstep Hs Hl. induction Hl; eauto. Qed.
End life.

(** ** Streams *)

Definition source (d : side) (s : env) : Z := fd_of d (session s).
Definition sink (d : side) (s : env) : Z := fd_of (other d) (session s).

Lemma received_other fd tr : (∀ e, e ∈ tr → io_fd e ≠ Some fd) → received fd tr = [].
Proof.
  induction tr as [|e tr IH]; intros H; [done|].
  assert (received fd tr = []) as Hr by (apply IH; set_solver).
  assert (io_fd e ≠ Some fd) as He by set_solver.
  destruct e as [|fd' ? [bs|]| | | | | | | | | | | | | | | | | | | |]; cbn in *; try done.
  rewrite Hr. destruct (Z.eqb_spec fd fd'); [congruence|done].
Qed.

Lemma delivered_other fd tr : (∀ e, e ∈ tr → io_fd e ≠ Some fd) → delivered fd tr = [].
Proof.
  induction tr as [|e tr IH]; intros H; [done|].
  assert (delivered fd tr = []) as Hr by (apply IH; set_solver).
  assert (io_fd e ≠ Some fd) as He by set_solver.
  destruct e as [| |fd' ? [bs|]| | | | | | | | | | | | | | | | | | |]; cbn in *; try done.
  rewrite Hr. destruct (Z.eqb_spec fd fd'); [congruence|done].
Qed.

Lemma received_nil fd tr :
  (∀ e, e ∈ tr → ∀ len r, e ≠ EvRecv fd len r) → received fd tr = [].
Proof.
  induction tr as [|e tr IH]; intros H; [done|].
  assert (received fd tr = []) as Hr by (apply IH; set_solver).
  assert (∀ len r, e ≠ EvRecv fd len r) as He by (apply H; set_solver).
  destruct e as [|fd' ? [bs|]| | | | | | | | | | | | | | | | | | | |]; cbn in *; try done.
  rewrite Hr. destruct (Z.eqb_spec fd fd') as [->|]; [by destruct (He len (Ret bs))|done].
Qed.

Lemma untouched_not fds tr fd e : untouched fds tr → fd ∈ fds → e ∈ tr → io_fd e ≠ Some fd.
Proof.
  intros Hu Hfd He Hio. pose proof (proj1 (Forall_forall _ _) Hu e He) as H.
  cbn in H. by rewrite Hio in H.
Qed.

Lemma received_recv fd fd' len r tr :
  received fd (EvRecv fd' len r :: tr) =
    received fd tr ++ (if fd =? fd' then match r with Ret bs => bs | Fail _ => [] end else []).
Proof. destruct r; cbn; [done|]. by case_match; rewrite app_nil_r. Qed.

Lemma delivered_send fd fd' data r tr :
  delivered fd (EvSend fd' data r :: tr) =
    delivered fd tr ++
      (if fd =? fd' then match r with Ret n => take (Z.to_nat n) data | Fail _ => [] end else []).
Proof. destruct r; cbn; [done|]. by case_match; rewrite app_nil_r. Qed.

(** The two ends are different descriptors. *)
Lemma same_end d d' c : clientFd c ≠ upstreamFd c →
  (fd_of d c =? fd_of d' c) = bool_decide (d = d').
Proof.
  intros Hne. destruct d, d'; cbn; case_bool_decide; try done;
    rewrite ?Z.eqb_refl, ?Z.eqb_neq; congruence.
Qed.

Lemma other_eq d d' : bool_decide (other d = other d') = bool_decide (d = d').
Proof. by destruct d, d'. Qed.

(** Contents after an effect on one of the buffers. *)
Lemma contents_with_buffer d d' f s :
  contents (buffer d' (session (with_buffer d f s))) =
    if decide (d' = d) then contents (f (buffer d (session s)))
    else contents (buffer d' (session s)).
Proof. by destruct d, d'. Qed.

Section stream.
Context {K : Kernel} {KL : KernelLaws K}.
Context (tr0 : trace) (capacity : Z).

(** What was received from each end since [tr0] is what was delivered to
    the other end, followed by what the buffer between them holds. *)
Definition balanced (new : trace) (s : env) : Prop := ∀ d,
  received (source d s) new = delivered (sink d s) new ++ contents (buffer d (session s)).

Definition buffers_ok (s : env) : Prop :=
  ∀ d, wf (buffer d (session s)) ∧ size (buffer d (session s)) = capacity.

Definition stream_inv (s : env) : Prop :=
  clientFd (session s) ≠ upstreamFd (session s) ∧ buffers_ok s ∧
  ∃ new, log s = new ++ tr0 ∧ balanced new s.

Lemma buffers_ok_with_buffer d f s : buffers_ok s →
  wf (f (buffer d (session s))) → size (f (buffer d (session s))) = capacity →
  buffers_ok (with_buffer d f s).
Proof using Type. intros Hok Hw Hs d'. specialize (Hok d'). by destruct d, d'. Qed.

Lemma answer_room d s bs : buffers_ok s → answer d s = Ret bs →
  Z.of_nat (length bs) <= writableBytes (buffer d (session s)).
Proof using KL.
  intros Hok Ha. apply recv_at_most in Ha. rewrite Z.max_r in Ha; [done|].
  apply u64_range.
Qed.

Lemma accepted_size d s n : buffers_ok s → accepted d s = Ret n →
  0 <= n <= readableBytes (buffer d (session s)).
Proof using KL.
  intros Hok Ha. apply send_at_most in Ha. destruct (Hok d) as [Hw _].
  unfold outgoing in Ha. rewrite ByteBuffer.send_range in Ha by done.
  by rewrite ByteBuffer.readableBytes_buffered.
Qed.

Lemma io_step_buffers events s s' : buffers_ok s → io_step events s s' → buffers_ok s'.
Proof using KL.
  intros Hok Hio. destruct Hio as [d|d bs Hr Ha|d Hr Ha|d Hc Hh|d n Hs Ha|d Hs Ha|d Hf|fd|i tr|i r tr|];
    try done.
  - destruct (Hok d). apply buffers_ok_with_buffer; [done|by apply ByteBuffer.makeWritable_wf|].
    by rewrite ByteBuffer.makeWritable_size.
  - pose proof (answer_room d s bs Hok Ha) as Hroom. destruct (Hok d).
    assert (buffers_ok (with_buffer d (append bs) (logged (recv_event d s) s)))
      as Hgoal; [|done].
    apply buffers_ok_with_buffer; [done|by apply ByteBuffer.append_wf|].
    by rewrite ByteBuffer.append_size.
  - intros d'. specialize (Hok d'). by destruct d, d'.
  - pose proof (accepted_size d s n Hok Ha) as Hn. destruct (Hok d).
    assert (buffers_ok (with_buffer d (consume n) (logged (send_event d s) s)))
      as Hgoal; [|done].
    apply buffers_ok_with_buffer; [done|by apply ByteBuffer.consume_wf|].
    by rewrite ByteBuffer.consume_size.
  - intros d'. specialize (Hok d'). by destruct d, d'.
Qed.

(** The calls a step makes, and how the bytes flow through them. *)
Definition flow (evs : trace) (s s' : env) : Prop :=
  log s' = evs ++ log s ∧ ∀ d,
    contents (buffer d (session s)) ++ received (source d s) evs =
      delivered (sink d s) evs ++ contents (buffer d (session s')).

Lemma flow_quiet evs s s' :
  log s' = evs ++ log s →
  (∀ e, e ∈ evs → match e with EvRecv _ _ (Ret (_ :: _)) | EvSend _ _ (Ret _) => False
                  | _ => True end) →
  (∀ d, contents (buffer d (session s')) = contents (buffer d (session s))) →
  flow evs s s'.
Proof using KL.
  intros Hl He Hc. split; [done|]. intros d. rewrite Hc.
  assert (∀ fd, received fd evs = [] ∧ delivered fd evs = []) as Hq.
  { clear Hl. intros fd. induction evs as [|e evs IH]; [done|].
    destruct IH as [Hr Hd]; [set_solver|]. specialize (He e ltac:(set_solver)).
    destruct e as [|? ? [[|? ?]|]|? ? [|]| | | | | | | | | | | | | | | | | | |]; try done.
    cbn. by rewrite Hr, Hd; case_match. }
  destruct (Hq (source d s)) as [-> _], (Hq (sink d s)) as [_ ->]. by rewrite app_nil_r.
Qed.

Lemma io_step_flow events s s' :
  clientFd (session s) ≠ upstreamFd (session s) → buffers_ok s →
  io_step events s s' → ∃ evs, flow evs s s'.
Proof using KL.
  intros Hne Hok Hio.
  destruct Hio as [d|d bs Hr Ha|d Hr Ha|d Hc Hh|d n Hs Ha|d Hs Ha|d Hf|fd|i tr|i r tr|].
  - exists []. apply flow_quiet; [done|set_solver|]. intros d'. destruct (Hok d).
    rewrite contents_with_buffer. case_decide; [subst d'|done].
    by apply ByteBuffer.makeWritable_contents.
  - pose proof (answer_room d s bs Hok Ha) as Hroom. destruct (Hok d) as [Hw _].
    exists [EvNow (k_now (recv_event d s :: log s)); recv_event d s].
    split; [done|]. intros d'.
    change (buffer d' (session (touched _))) with
      (buffer d' (session (with_buffer d (append bs) s))).
    rewrite contents_with_buffer. unfold recv_event. rewrite Ha.
    cbn [received delivered]. unfold source. rewrite same_end by done.
    case_decide; [subst d'; rewrite bool_decide_true by done|rewrite bool_decide_false by done].
    + by apply eq_sym, ByteBuffer.append_contents.
    + by rewrite app_nil_r.
  - exists [recv_event d s]. apply flow_quiet; [done| |done].
    intros e ->%list_elem_of_singleton. unfold recv_event.
    destruct (answer d s) as [bs|e] eqn:He; [|done]. by rewrite (Ha bs).
  - exists []. apply flow_quiet; [done|set_solver|]. intros d'. by destruct d, d'.
  - pose proof (accepted_size d s n Hok Ha) as Hn. destruct (Hok d) as [Hw _].
    exists [EvNow (k_now (send_event d s :: log s)); send_event d s].
    split; [done|]. intros d'.
    change (buffer d' (session (touched _))) with
      (buffer d' (session (with_buffer d (consume n) s))).
    rewrite contents_with_buffer. unfold send_event. rewrite Ha.
    cbn [received delivered]. unfold sink. rewrite same_end, other_eq by done.
    unfold outgoing. rewrite ByteBuffer.send_range by done. rewrite app_nil_r.
    case_decide; [subst d'; rewrite bool_decide_true by done|rewrite bool_decide_false by done].
    + rewrite ByteBuffer.consume_contents by done. cbn. by rewrite take_drop.
    + done.
  - exists [send_event d s]. split; [done|]. intros d'. unfold send_event.
    destruct (accepted d s) as [n|e] eqn:He; cbn [received delivered];
      rewrite app_nil_r; [|done].
    specialize (Ha n eq_refl). replace (Z.to_nat n) with O by lia. by case_match.
  - exists [EvShutdownWr (sink d s)]. apply flow_quiet; [done| |by destruct d].
    by intros e ->%list_elem_of_singleton.
  - exists [EvSoError fd (k_so_error (log s) fd)]. apply flow_quiet; [done| |done].
    by intros e ->%list_elem_of_singleton.
  - exists [EvNow (k_now (log s))]. apply flow_quiet; [done| |by intros []].
    by intros e ->%list_elem_of_singleton.
  - exists []. apply flow_quiet; [done|set_solver|done].
  - exists []. apply flow_quiet; [done|set_solver|by intros []].
Qed.

Lemma io_step_ends events s s' : io_step events s s' →
  (∀ d, fd_of d (session s') = fd_of d (session s)).
Proof using Type. intros Hio%io_step_core. by destruct (core_facts _ _ Hio). Qed.

Lemma stream_step s s' : stream_inv s → life_step s s' → stream_inv s'.
Proof using KL.
  intros (Hne & Hok & new & Hlog & Hb) Hl. destruct Hl as [events s' Hio|calls Hun].
  - destruct (io_step_flow events s s' Hne Hok Hio) as (evs & Hl & Hf).
    pose proof (io_step_ends _ _ _ Hio) as He.
    split; [generalize (He Client), (He Upstream); cbn; congruence|].
    split; [by eapply io_step_buffers|]. exists (evs ++ new).
    split; [by rewrite Hl, Hlog, app_assoc|]. intros d.
    specialize (Hf d). specialize (Hb d). unfold source, sink in *.
    by rewrite !He, received_app, delivered_app, Hb, <- !app_assoc, Hf.
  - split; [done|]. split; [done|]. exists (calls ++ new).
    split; [cbn; by rewrite Hlog, app_assoc|]. intros d.
    specialize (Hb d). unfold source, sink in *. cbn [called session].
    rewrite received_app, delivered_app, Hb.
    rewrite (received_other _ calls), (delivered_other _ calls), !app_nil_r; [done| |];
      intros e He; eapply untouched_not; try done; destruct d; set_solver.
Qed.

(** ** End of stream *)

(** Whether the far side of [d] was told that its stream is over. *)
Definition told (d : side) (c : ProxySession) : bool :=
  match d with
  | Client => upstreamWriteShutdown_ c
  | Upstream => clientWriteShutdown_ c
  end.

(** Which calls a step makes, and under which guard. *)
Definition permitted (s s' : env) (e : event) : Prop :=
  match e with
  | EvNow _ => True
  | EvRecv fd len _ => ∃ d, fd = source d s ∧ readable d s ∧
      len = writableBytes (buffer d (session s))
  | EvSend fd _ _ => ∃ d, fd = sink d s ∧ sendable d s
  | EvShutdownWr fd => ∃ d, fd = sink d s ∧ finishable d s ∧ s' = finished d s
  | EvSoError _ _ => True
  | _ => False
  end.

Lemma io_step_calls events s s' : io_step events s s' →
  ∃ evs, log s' = evs ++ log s ∧ ∀ e, e ∈ evs → permitted s s' e.
Proof using KL.
  destruct 1 as [d|d bs Hr Ha|d Hr Ha|d Hc Hh|d n Hs Ha|d Hs Ha|d Hf|fd|i tr|i r tr|].
  1, 4, 10, 11: by exists []; split; [|set_solver].
  - exists [EvNow (k_now (recv_event d s :: log s)); recv_event d s]. split; [done|].
    intros e [->| ->%list_elem_of_singleton]%elem_of_cons; [done|]. by exists d.
  - exists [recv_event d s]. split; [done|]. intros e ->%list_elem_of_singleton. by exists d.
  - exists [EvNow (k_now (send_event d s :: log s)); send_event d s]. split; [done|].
    intros e [->| ->%list_elem_of_singleton]%elem_of_cons; [done|]. by exists d.
  - exists [send_event d s]. split; [done|]. intros e ->%list_elem_of_singleton. by exists d.
  - exists [EvShutdownWr (sink d s)]. split; [by destruct d|].
    intros e ->%list_elem_of_singleton. by exists d.
  - exists [EvSoError fd (k_so_error (log s) fd)]. split; [done|].
    by intros e ->%list_elem_of_singleton.
  - exists [EvNow (k_now (log s))]. split; [done|]. by intros e ->%list_elem_of_singleton.
Qed.

Lemma io_step_told events s s' d : io_step events s s' →
  told d (session s') = told d (session s) ∨ (s' = finished d s ∧ finishable d s).
Proof using KL.
  destruct 1 as [[]|[]|[]|[]|[]|[]|[]| | | |]; try (by destruct d; left);
    destruct d; (by left) || by right.
Qed.

Lemma io_step_readClosed events s s' d : io_step events s s' →
  readClosed d (session s) = true → readClosed d (session s') = true.
Proof using Type. by destruct 1 as [[]|[]|[]|[]|[]|[]|[]| | | |], d. Qed.

(** A call after which the stream into [snk], read from [src], cannot be
    said to have ended. *)
Definition continues (src snk : Z) (e : event) : Prop :=
  match e with
  | EvRecv fd _ _ => fd = src
  | EvSend fd _ _ | EvShutdownWr fd => fd = snk
  | _ => False
  end.

Definition ended (d : side) (new : trace) (s : env) : Prop :=
  if told d (session s) then
    readClosed d (session s) = true ∧ contents (buffer d (session s)) = [] ∧
    ∃ later earlier, new = later ++ EvShutdownWr (sink d s) :: earlier ∧
      received (source d s) new = delivered (sink d s) earlier ∧
      EvShutdownWr (sink d s) ∉ earlier ∧
      ∀ e, e ∈ later → ¬ continues (source d s) (sink d s) e
  else EvShutdownWr (sink d s) ∉ new.

Lemma end_inj d d' s : clientFd (session s) ≠ upstreamFd (session s) →
  fd_of d (session s) = fd_of d' (session s) → d = d'.
Proof using Type. destruct d, d'; cbn; congruence. Qed.

Lemma other_inj d d' : other d = other d' → d = d'.
Proof using Type. by destruct d, d'. Qed.

Lemma ended_io events d new evs s s' :
  clientFd (session s) ≠ upstreamFd (session s) → buffers_ok s → balanced new s →
  ended d new s → io_step events s s' → flow evs s s' → ended d (evs ++ new) s'.
Proof using KL.
  intros Hne Hok Hb He Hio [Hl Hf].
  pose proof (io_step_ends _ _ _ Hio) as Hends.
  destruct (io_step_calls _ _ _ Hio) as (evs' & Hl' & Hcalls).
  assert (evs' = evs) as -> by (eapply app_inv_tail; by rewrite <- Hl, <- Hl').
  assert (source d s' = source d s) as Hsrc by apply Hends.
  assert (sink d s' = sink d s) as Hsnk by apply Hends.
  unfold ended in *. rewrite Hsrc, Hsnk.
  destruct (told d (session s)) eqn:Ht.
  - destruct He as (Hrc & Hcont & later & earlier & Hnew & Hrcv & Hno & Hlater).
    assert (told d (session s') = true) as ->.
    { destruct (io_step_told _ _ _ d Hio) as [->|[-> _]]; [done|by destruct d]. }
    assert (∀ e, e ∈ evs → ¬ continues (source d s) (sink d s) e) as Hev.
    { intros e Hin Hcon. specialize (Hcalls e Hin). destruct e; cbn in Hcon; try done; subst.
      - destruct Hcalls as (d' & Hd & (Hrd & _) & _). apply end_inj in Hd; [|done].
        subst d'. congruence.
      - destruct Hcalls as (d' & Hd & Hsd & _). apply end_inj, other_inj in Hd; [|done].
        subst d'. destruct (Hok d) as [Hw _]. by apply ByteBuffer.empty_false in Hsd.
      - destruct Hcalls as (d' & Hd & (_ & _ & Hfd) & _).
        apply end_inj, other_inj in Hd; [|done]. subst d'. destruct d; naive_solver congruence. }
    assert (received (source d s) evs = []) as Hr0.
    { apply received_nil. intros e Hin len r ->. by apply (Hev _ Hin). }
    split; [by eapply io_step_readClosed|]. split.
    { specialize (Hf d). rewrite Hcont, Hr0 in Hf. symmetry in Hf.
      by apply app_nil in Hf as [_ ?]. }
    exists (evs ++ later), earlier. split; [by rewrite Hnew, <- app_assoc|].
    split; [by rewrite received_app, Hr0, app_nil_r|]. split; [done|].
    intros e [Hin|Hin]%elem_of_app; eauto.
  - destruct (io_step_told _ _ _ d Hio) as [Hsame|[-> Hfin]].
    + rewrite Hsame, Ht. intros [Hin|Hin]%elem_of_app; [|done].
      destruct (Hcalls _ Hin) as (d' & Hd & _ & Hs').
      apply end_inj, other_inj in Hd; [|done]. subst d' s'.
      destruct d; cbn in *; congruence.
    + replace (told d (session (finished d s))) with true by by destruct d.
      assert (evs = [EvShutdownWr (sink d s)]) as ->.
      { eapply app_inv_tail. rewrite <- Hl. by destruct d. }
      destruct Hfin as (Hrc & Hemp & _). destruct (Hok d) as [Hw _].
      apply ByteBuffer.empty_spec in Hemp; [|done].
      split; [by destruct d|]. split; [by destruct d|].
      exists [], new. split; [done|]. split; [|split; [done|set_solver]].
      cbn [app received]. rewrite (Hb d), Hemp, app_nil_r. done.
Qed.

(** ** The connection phase *)

(** Before the connection is known to be established, the only call on the
    upstream socket is the one that asks. *)
Definition upstream_alone (new : trace) (s : env) : Prop :=
  upstreamConnecting_ (session s) = true →
  ∀ e, e ∈ new → io_fd e = Some (upstreamFd (session s)) →
    ∃ r, e = EvSoError (upstreamFd (session s)) r.

Lemma upstream_alone_io events new evs s s' :
  clientFd (session s) ≠ upstreamFd (session s) → upstream_alone new s →
  io_step events s s' → log s' = evs ++ log s → upstream_alone (evs ++ new) s'.
Proof using KL.
  intros Hne Ha Hio Hl Hcon e Hin Hfd.
  assert (upstreamConnecting_ (session s) = true) as Hcon0.
  { destruct (upstreamConnecting_ (session s)) eqn:Hc; [done|].
    by rewrite (io_step_connected _ _ _ Hio Hc) in Hcon. }
  pose proof (io_step_ends _ _ _ Hio Upstream) as Hu. cbn [fd_of] in Hu.
  rewrite Hu in *. destruct (io_step_calls _ _ _ Hio) as (evs' & Hl' & Hcalls).
  assert (evs' = evs) as -> by (eapply app_inv_tail; by rewrite <- Hl, <- Hl').
  apply elem_of_app in Hin as [Hin|Hin]; [|by apply Ha].
  specialize (Hcalls e Hin).
  destruct e; cbn in Hfd; try done; injection Hfd as ->; [..|by eauto|].
  - destruct Hcalls as (d & Hd & (_ & Hup & _) & _).
    apply (end_inj Upstream) in Hd as <-; [|done]. by rewrite Hup in Hcon0.
  - destruct Hcalls as (d & Hd & _ & Hup). apply (end_inj Upstream) in Hd; [|done].
    destruct d; [|done]. by rewrite Hup in Hcon0.
  - destruct Hcalls as (d & Hd & (_ & _ & Hup) & _). apply (end_inj Upstream) in Hd; [|done].
    destruct d; [|done]. destruct Hup as [_ Hup]. congruence.
Qed.

(** ** Byte counters *)

Definition meter (d : side) (m : Metrics.Metrics) : Z :=
  match d with
  | Client => Metrics.clientToBackendBytes_ m
  | Upstream => Metrics.backendToClientBytes_ m
  end.

Lemma io_step_meter events s s' : clientFd (session s) ≠ upstreamFd (session s) →
  io_step events s s' → ∃ evs, log s' = evs ++ log s ∧ ∀ d,
    (received (source d s) evs = [] ∧ meter d (metrics s') = meter d (metrics s)) ∨
    meter d (metrics s') =
      u64 (meter d (metrics s) + Z.of_nat (length (received (source d s) evs))).
Proof using KL.
  intros Hne.
  destruct 1 as [d|d bs Hr Ha|d Hr Ha|d Hc Hh|d n Hs Ha|d Hs Ha|d Hf|fd|i tr|i r tr|].
  1, 4, 11: by exists []; split; [|intros []; left].
  - exists [EvNow (k_now (recv_event d s :: log s)); recv_event d s]. split; [done|].
    intros d'. unfold recv_event. rewrite Ha. cbn [received].
    unfold source. rewrite same_end by done. case_bool_decide as Hd.
    + subst d'. right. by destruct d.
    + left. split; [done|]. by destruct d, d'.
  - exists [recv_event d s]. split; [done|]. intros d'. left. split; [|by destruct d, d'].
    unfold recv_event. destruct (answer d s) as [bs|e] eqn:He; [|done].
    rewrite (Ha bs) by done. cbn. by case_match.
  - exists [EvNow (k_now (send_event d s :: log s)); send_event d s]. split; [done|].
    intros d'. by left; destruct d, d'.
  - exists [send_event d s]. split; [done|]. intros d'. by left; destruct d, d'.
  - exists [EvShutdownWr (sink d s)]. split; [by destruct d|]. intros d'.
    by left; destruct d, d'.
  - exists [EvSoError fd (k_so_error (log s) fd)]. split; [done|].
    intros d'. by left; destruct d'.
  - exists [EvNow (k_now (log s))]. split; [done|]. intros d'. by left; destruct d'.
  - exists []. split; [done|]. intros d'. by left; destruct d'.
Qed.

Definition metered (m0 : Metrics.Metrics) (new : trace) (s : env) : Prop := ∀ d,
  (received (source d s) new = [] ∧ meter d (metrics s) = meter d m0) ∨
  meter d (metrics s) = u64 (meter d m0 + Z.of_nat (length (received (source d s) new))).

Lemma metered_io events m0 new evs s s' :
  clientFd (session s) ≠ upstreamFd (session s) → metered m0 new s →
  io_step events s s' → log s' = evs ++ log s → metered m0 (evs ++ new) s'.
Proof using KL.
  intros Hne Hm Hio Hl d. destruct (io_step_meter _ _ _ Hne Hio) as (evs' & Hl' & Hme).
  assert (evs' = evs) as -> by (eapply app_inv_tail; by rewrite <- Hl, <- Hl').
  assert (source d s' = source d s) as -> by apply (io_step_ends _ _ _ Hio).
  rewrite received_app, length_app, Nat2Z.inj_add.
  destruct (Hm d) as [[-> Hd]|Hd], (Hme d) as [[-> He]|He]; rewrite ?He, ?Hd.
  - by left.
  - by right.
  - right. by rewrite Z.add_0_r.
  - right. by rewrite Metrics.u64_add_l, Z.add_assoc.
Qed.

(** ** All together *)

Definition session_inv (m0 : Metrics.Metrics) (s : env) : Prop :=
  clientFd (session s) ≠ upstreamFd (session s) ∧ buffers_ok s ∧
  ∃ new, log s = new ++ tr0 ∧ balanced new s ∧ (∀ d, ended d new s) ∧
    upstream_alone new s ∧ metered m0 new s.

Lemma elsewhere_quiet calls s d :
  untouched [clientFd (session s); upstreamFd (session s)] calls →
  (∀ e, e ∈ calls → io_fd e ≠ Some (source d s)) ∧
  (∀ e, e ∈ calls → io_fd e ≠ Some (sink d s)).
Proof using KL.
  intros Hun. split; intros e He; eapply untouched_not; try done; destruct d; set_solver.
Qed.

Lemma session_step m0 s s' : session_inv m0 s → life_step s s' → session_inv m0 s'.
Proof using KL.
  intros (Hne & Hok & new & Hlog & Hb & He & Hu & Hm) Hl. destruct Hl as [events s' Hio|calls Hun].
  - destruct (io_step_flow events s s' Hne Hok Hio) as (evs & Hl & Hf).
    pose proof (io_step_ends _ _ _ Hio) as Hends.
    split; [generalize (Hends Client), (Hends Upstream); cbn; congruence|].
    split; [by eapply io_step_buffers|]. exists (evs ++ new).
    split; [by rewrite Hl, Hlog, app_assoc|]. split_and!.
    + intros d. specialize (Hf d). specialize (Hb d). unfold source, sink in *.
      by rewrite !Hends, received_app, delivered_app, Hb, <- !app_assoc, Hf.
    + intros d. by eapply ended_io.
    + by eapply upstream_alone_io.
    + by eapply metered_io.
  - split; [done|]. split; [done|]. exists (calls ++ new).
    split; [cbn; by rewrite Hlog, app_assoc|]. split_and!.
    + intros d. destruct (elsewhere_quiet calls s d Hun) as [Hs Hk].
      specialize (Hb d). unfold source, sink in *. cbn [called session].
      rewrite received_app, delivered_app, Hb.
      by rewrite (received_other _ calls), (delivered_other _ calls), !app_nil_r.
    + intros d. destruct (elsewhere_quiet calls s d Hun) as [Hs Hk].
      specialize (He d). unfold ended in *. change (session (called calls s)) with (session s).
      change (source d (called calls s)) with (source d s).
      change (sink d (called calls s)) with (sink d s).
      case_match.
      * destruct He as (? & ? & later & earlier & -> & Hr & ? & Hlater).
        split; [done|]. split; [done|]. exists (calls ++ later), earlier.
        split; [by rewrite app_assoc|].
        split; [by rewrite received_app, (received_other _ calls), app_nil_r by done|].
        split; [done|]. intros e [Hin|Hin]%elem_of_app; [|by apply Hlater].
        intros Hc. destruct e; cbn in Hc; try done; subst;
          first [by apply (Hs _ Hin)|by apply (Hk _ Hin)].
      * intros [Hin|Hin]%elem_of_app; [|done]. by apply (Hk _ Hin).
    + intros Hcon e [Hin|Hin]%elem_of_app Hfd; [|by apply Hu].
      exfalso. by apply (proj1 (elsewhere_quiet calls s Upstream Hun) _ Hin).
    + intros d. destruct (elsewhere_quiet calls s d Hun) as [Hs _].
      specialize (Hm d). unfold source in *. cbn [called session metrics].
      by rewrite received_app, (received_other _ calls), app_nil_r.
Qed.
End stream.

(** ** From construction on *)

Section born.
Context {K : Kernel} {KL : KernelLaws K}.
Context (id cfd ufd : Z) (connecting : bool) (node : nat) (capacity : Z)
  (address : string) (now : Z) (m0 : Metrics.Metrics) (p0 : BackendPool.BackendPool)
  (tr0 : trace) (fuel : nat) (acts : list act).

Definition born : env :=
  mkEnv (initial id cfd ufd connecting (BackendPool.mkLease (Some node)) capacity address now)
    m0 p0 tr0.

(** After the acts, whatever the last of them ended with. *)
Definition lived : env := (for_each (perform fuel) acts born).2.

Hypothesis Hne : cfd ≠ ufd.
Hypothesis Hcap : 0 <= capacity < 2 ^ 63.
Hypothesis Hacts : Forall (ok_act cfd ufd) acts.

Lemma born_inv : session_inv tr0 capacity m0 born.
Proof using Hne Hcap.
  split; [done|]. split.
  { intros d. unfold born; cbn [session].
    assert (buffer d (initial id cfd ufd connecting (BackendPool.mkLease (Some node))
      capacity address now) = ByteBuffer.make capacity) as -> by by destruct d.
    split; [by apply ByteBuffer.wf_make|]. apply ByteBuffer.size_make. lia. }
  exists []. split; [done|]. split_and!.
  - intros d. cbn. by destruct d.
  - intros d. by destruct d; cbn; apply not_elem_of_nil.
  - intros _ e He. by apply not_elem_of_nil in He.
  - intros d. by left.
Qed.

Lemma lived_life : rtc life_step born lived.
Proof using Hacts. by apply (performs_life fuel acts cfd ufd node). Qed.

Lemma lived_core : core (session lived) = core (session born).
Proof using Hacts.
  induction lived_life as [|s s1 s2 H1 _ IH]; [done|]. rewrite IH.
  destruct H1; [by eapply io_step_core|done].
Qed.

Lemma lived_inv : session_inv tr0 capacity m0 lived.
Proof using All.
  apply (life_invariant (session_inv tr0 capacity m0) born).
  - intros s s'. apply session_step.
  - apply born_inv.
  - apply lived_life.
Qed.

Lemma lived_ends d : fd_of d (session lived) = match d with Client => cfd | Upstream => ufd end.
Proof using Hacts.
  destruct (core_facts _ _ lived_core) as [_ Hf]. rewrite Hf. by destruct d.
Qed.

(** C2: a session is a transparent two-way pipe.  Whatever events arrive,
    in whatever order, with whatever answers from the sockets (short reads
    and writes, interruptions, errors), and even between two events or when
    the session is given up: the bytes received from either end since the
    session began are exactly the bytes accepted by the other end followed
    by those still in the buffer between them; a buffer never holds more than
    its configured capacity; and the two byte counters grow by exactly the
    numbers of bytes received (modulo 2^64, their width). *)
Theorem stream_transparent :
  ∃ new, log lived = new ++ tr0 ∧
    received cfd new = delivered ufd new ++ contents (clientToUpstream_ (session lived)) ∧
    received ufd new = delivered cfd new ++ contents (upstreamToClient_ (session lived)) ∧
    Z.of_nat (length (contents (clientToUpstream_ (session lived)))) <= capacity ∧
    Z.of_nat (length (contents (upstreamToClient_ (session lived)))) <= capacity ∧
    u64 (Metrics.clientToBackendBytes_ (metrics lived)) =
      u64 (Metrics.clientToBackendBytes_ m0 + Z.of_nat (length (received cfd new))) ∧
    u64 (Metrics.backendToClientBytes_ (metrics lived)) =
      u64 (Metrics.backendToClientBytes_ m0 + Z.of_nat (length (received ufd new))).
Proof using All.
  destruct lived_inv as (_ & Hok & new & Hl & Hb & _ & _ & Hm). exists new. split; [done|].
  pose proof (Hb Client) as H1. pose proof (Hb Upstream) as H2. unfold source, sink in *.
  rewrite !lived_ends in *. destruct (Hok Client) as [Hw1 Hs1], (Hok Upstream) as [Hw2 Hs2].
  split; [done|]. split; [done|].
  split; [rewrite <- Hs1 at 1; by apply ByteBuffer.buffered_le_size|].
  split; [rewrite <- Hs2; by apply ByteBuffer.buffered_le_size|].
  pose proof (Hm Client) as Hc. pose proof (Hm Upstream) as Hu. unfold source in *.
  rewrite !lived_ends in *. cbn [meter] in *.
  split; [destruct Hc as [[Hr ->]| ->]|destruct Hu as [[Hr ->]| ->]]; rewrite ?Hr, ?Z.add_0_r; try done;
    unfold u64; by rewrite Z.mod_mod.
Qed.

(** C3: the end of a stream is passed on in order.  Each socket gets at most
    one [shutdown(SHUT_WR)]; if it got one, everything ever received from
    the other end had been delivered to it before, and after it nothing more
    was received from that other end nor sent to this one. *)
Theorem end_of_stream_after_data :
  ∃ new, log lived = new ++ tr0 ∧
    ∀ src dst, (src, dst) = (cfd, ufd) ∨ (src, dst) = (ufd, cfd) →
      EvShutdownWr dst ∉ new ∨
      ∃ later earlier, new = later ++ EvShutdownWr dst :: earlier ∧
        received src new = delivered dst earlier ∧ EvShutdownWr dst ∉ earlier ∧
        ∀ e, e ∈ later → ¬ continues src dst e.
Proof using All.
  destruct lived_inv as (_ & _ & new & Hl & _ & He & _). exists new. split; [done|].
  assert (∀ d, EvShutdownWr (sink d lived) ∉ new ∨
    ∃ later earlier, new = later ++ EvShutdownWr (sink d lived) :: earlier ∧
      received (source d lived) new = delivered (sink d lived) earlier ∧
      EvShutdownWr (sink d lived) ∉ earlier ∧
      ∀ e, e ∈ later → ¬ continues (source d lived) (sink d lived) e) as Hd.
  { intros d. specialize (He d). unfold ended in He. case_match; [right|by left].
    by destruct He as (_ & _ & ?). }
  unfold source, sink in Hd. intros src dst [[= -> ->]| [= -> ->]].
  - specialize (Hd Client). by rewrite !lived_ends in Hd.
  - specialize (Hd Upstream). by rewrite !lived_ends in Hd.
Qed.

(** While the non-blocking connect is in progress the session never
    sends to, receives from or half-closes the upstream socket: all it does
    there is read [SO_ERROR]. *)
Theorem upstream_alone_until_connected :
  upstreamConnecting_ (session lived) = true →
  ∃ new, log lived = new ++ tr0 ∧
    ∀ e, e ∈ new → io_fd e = Some ufd → ∃ r, e = EvSoError ufd r.
Proof using All.
  intros Hc. destruct lived_inv as (_ & _ & new & Hl & _ & _ & Hu & _).
  exists new. split; [done|]. specialize (Hu Hc).
  change (upstreamFd (session lived)) with (fd_of Upstream (session lived)) in Hu.
  by rewrite lived_ends in Hu.
Qed.

(** The two byte counters grow by exactly the number of bytes received
    from the client and from the backend (modulo 2^64, their width). *)
Theorem byte_counters_exact :
  is_u64 (Metrics.clientToBackendBytes_ m0) → is_u64 (Metrics.backendToClientBytes_ m0) →
  ∃ new, log lived = new ++ tr0 ∧
    Metrics.clientToBackendBytes_ (metrics lived) =
      u64 (Metrics.clientToBackendBytes_ m0 + Z.of_nat (length (received cfd new))) ∧
    Metrics.backendToClientBytes_ (metrics lived) =
      u64 (Metrics.backendToClientBytes_ m0 + Z.of_nat (length (received ufd new))).
Proof using All.
  intros H1 H2. destruct lived_inv as (_ & _ & new & Hl & _ & _ & _ & Hm).
  exists new. split; [done|].
  pose proof (Hm Client) as Hc. pose proof (Hm Upstream) as Hu. unfold source in *.
  rewrite !lived_ends in *. cbn [meter] in *.
  split; [destruct Hc as [[Hr ->]| ->]|destruct Hu as [[Hr ->]| ->]]; try done;
    by rewrite Hr, Z.add_0_r, u64_small.
Qed.
End born.

(** ** A session from connect to half-close *)

(** Two bytes and EOF from the client, three bytes from the backend sent on
    in two pieces, with an interrupted call on each side. *)
Definition chat : script := replay
  [Ret [x61; x62]; Fail EAGAIN; Fail EINTR; Ret [x63; x64; x65]; Fail EAGAIN; Ret []]
  [Fail EINTR; Ret 2; Ret 2; Fail EAGAIN] [].

Definition chat_acts : list act :=
  [Handle 5 EPOLLIN; Elsewhere [EvNow 3]; Handle 6 EPOLLOUT; Handle 6 (Z.lor EPOLLIN EPOLLOUT);
   Handle 5 EPOLLOUT; Handle 5 (Z.lor EPOLLIN EPOLLRDHUP)].

Definition chat_born : env :=
  born 1 5 6 true 0 8 "10.0.0.1:4242" 0 Metrics.init
    (BackendPool.mkPool [Backend.sample "a" 1] 0) [].

Definition chat_lived : env :=
  lived (K := scripted chat) 1 5 6 true 0 8 "10.0.0.1:4242" 0 Metrics.init
    (BackendPool.mkPool [Backend.sample "a" 1] 0) [] 10 chat_acts.

Lemma chat_acts_ok : Forall (ok_act 5 6) chat_acts.
Proof. repeat constructor. Qed.
Lemma stream_transparent_witness : ∃ new, log chat_lived = new ++ [] ∧
  received 5 new = delivered 6 new ++ contents (clientToUpstream_ (session chat_lived)) ∧
  received 6 new = delivered 5 new ++ [x65] ∧
  u64 (Metrics.backendToClientBytes_ (metrics chat_lived)) = u64 (0 + Z.of_nat (length (received 6 new))).
Proof.
  destruct (stream_transparent (K := scripted chat) 1 5 6 true 0 8 "10.0.0.1:4242" 0
    Metrics.init (BackendPool.mkPool [Backend.sample "a" 1] 0) [] 10 chat_acts)
    as (new & Hl & Hc & Hu & _ & _ & _ & Hb); [lia|lia|exact chat_acts_ok|].
  exists new. split; [exact Hl|]. split; [exact Hc|]. split; [|exact Hb]. rewrite Hu. f_equal.
Defined.

Lemma end_of_stream_after_data_witness : ∃ new, log chat_lived = new ++ [] ∧
  EvShutdownWr 6 ∈ new ∧ ∃ later earlier, new = later ++ EvShutdownWr 6 :: earlier ∧
    received 5 new = delivered 6 earlier.
Proof.
  destruct (end_of_stream_after_data (K := scripted chat) 1 5 6 true 0 8 "10.0.0.1:4242" 0
    Metrics.init (BackendPool.mkPool [Backend.sample "a" 1] 0) [] 10 chat_acts)
    as (new & Hl & He); [lia|lia|exact chat_acts_ok|].
  exists new. split; [exact Hl|].
  assert (EvShutdownWr 6 ∈ new) as Hin.
  { assert (Hl' : log chat_lived = new) by (rewrite app_nil_r in Hl; exact Hl).
    rewrite <- Hl'. vm_compute. constructor. }
  split; [exact Hin|]. destruct (He 5 6 (or_introl eq_refl)) as [Hno|(l & e & Hn & Hr & _)];
    [destruct (Hno Hin)|]. exists l, e. split; [exact Hn|exact Hr].
Defined.

Lemma upstream_alone_until_connected_witness :
  let s := lived (K := scripted chat) 1 5 6 true 0 8 "10.0.0.1:4242" 0 Metrics.init
    (BackendPool.mkPool [Backend.sample "a" 1] 0) [] 10 [Handle 5 EPOLLIN; Handle 6 EPOLLRDHUP] in
  upstreamConnecting_ (session s) = true ∧
  ∃ new, log s = new ++ [] ∧
    ∀ e, e ∈ new → io_fd e = Some 6 → ∃ r, e = EvSoError 6 r.
Proof.
  intros s. split; [by vm_compute|].
  apply (upstream_alone_until_connected (K := scripted chat) 1 5 6 true 0 8 "10.0.0.1:4242" 0
    Metrics.init (BackendPool.mkPool [Backend.sample "a" 1] 0) [] 10);
    [lia|lia|repeat constructor|by vm_compute].
Defined.

Lemma byte_counters_exact_witness : ∃ new, log chat_lived = new ++ [] ∧
  Metrics.clientToBackendBytes_ (metrics chat_lived) = 2 ∧
  Metrics.clientToBackendBytes_ (metrics chat_lived) =
    u64 (0 + Z.of_nat (length (received 5 new))).
Proof.
  destruct (byte_counters_exact (K := scripted chat) 1 5 6 true 0 8 "10.0.0.1:4242" 0
    Metrics.init (BackendPool.mkPool [Backend.sample "a" 1] 0) [] 10 chat_acts)
    as (new & Hl & Hc & _); [lia|lia|exact chat_acts_ok|unfold is_u64; cbn; lia|unfold is_u64; cbn; lia|].
  exists new. split; [exact Hl|]. split; [by vm_compute|exact Hc].
Defined.

End SessionStream.
