(* ===== verification/SessionSpec.v ===== *)
(** * What a session is for: its abstract specification

    A session relays two streams.  [obey] says what it may do, in terms of two
    queues of bytes and nothing else: no indices, no descriptors, no events,
    no retries.  The theorem is that every life of the real session is a run
    of this specification, action by action as seen in its system calls. *)

From S2P Require Import Prelude Text Posix ByteBuffer UniqueFd Metrics Config Net Backend BackendPool ProxySession SessionSteps SessionStream.
Local Open Scope Z_scope.

Module SessionSpec.
Import ByteBuffer (contents, empty).
Import ProxySession SessionSteps SessionStream.

#[local] Instance byte_eq_dec : EqDecision byte := Byte.byte_eq_dec.

(** One direction: the bytes on their way, whether the source has ended, and
    whether the sink has been told so. *)
Record lane := mkLane { queue : list byte; over : bool; passed : bool }.

(** [lane d] carries what comes from [d]. *)
Record relay := mkRelay { connecting : bool; outward : lane; homeward : lane }.

Definition lane_of (d : side) (r : relay) : lane :=
  match d with Client => outward r | Upstream => homeward r end.
Definition set_lane (d : side) (l : lane) (r : relay) : relay :=
  match d with
  | Client => mkRelay (connecting r) l (homeward r)
  | Upstream => mkRelay (connecting r) (outward r) l
  end.

Inductive action :=
| Take (d : side) (bs : list byte)   (* bytes come in from [d] *)
| Give (d : side) (bs : list byte)   (* bytes from [d] go out on the other side *)
| Pass (d : side)                    (* the other side is told that [d] has ended *)
| Over (d : side)                    (* [d] has ended *)
| Connected.

(** The backend's side takes part once it is connected. *)
Definition ready (d : side) (r : relay) : bool :=
  match d with Client => true | Upstream => negb (connecting r) end.

Section spec.
Context (capacity : Z).

Definition obey (a : action) (r : relay) : option relay :=
  match a with
  | Take d bs =>
      let l := lane_of d r in
      if ready d r && negb (over l) && negb (bool_decide (bs = []))
         && (Z.of_nat (length (queue l ++ bs)) <=? capacity)
      then Some (set_lane d (mkLane (queue l ++ bs) (over l) (passed l)) r) else None
  | Give d bs =>
      let l := lane_of d r in
      if ready (other d) r && negb (bool_decide (bs = []))
         && bool_decide (take (length bs) (queue l) = bs)
      then Some (set_lane d (mkLane (drop (length bs) (queue l)) (over l) (passed l)) r) else None
  | Pass d =>
      let l := lane_of d r in
      if ready (other d) r && over l && bool_decide (queue l = []) && negb (passed l)
      then Some (set_lane d (mkLane (queue l) (over l) true) r) else None
  | Over d =>
      let l := lane_of d r in
      if over l then None else Some (set_lane d (mkLane (queue l) true (passed l)) r)
  | Connected =>
      if connecting r then Some (mkRelay false (outward r) (homeward r)) else None
  end.

Fixpoint obeys (acts : list action) (r : relay) : option relay :=
  match acts with
  | [] => Some r
  | a :: acts' => obey a r ≫= obeys acts'
  end.

Lemma obeys_app acts acts' r : obeys (acts ++ acts') r = obeys acts r ≫= obeys acts'.
Proof using Type.
  revert r. induction acts as [|a acts IH]; intros r; [done|]. cbn. destruct (obey a r); cbn; auto.
Qed.
End spec.

Definition start (connecting : bool) : relay :=
  mkRelay connecting (mkLane [] false false) (mkLane [] false false).

(** ** The session as a relay *)

Definition lane_in (d : side) (c : ProxySession) : lane :=
  mkLane (contents (buffer d c)) (readClosed d c) (told d c).

Definition relay_of (c : ProxySession) : relay :=
  mkRelay (upstreamConnecting_ c) (lane_in Client c) (lane_in Upstream c).

(** What shows in the system calls: all but an end of stream, which may also
    be concluded from an event, and the connection. *)
Definition visible (a : action) : bool :=
  match a with Over _ | Connected => false | _ => true end.

(** [shown cfd ufd e]: the call [e] in a session between [cfd] and [ufd]. *)
Definition shown (cfd ufd : Z) (e : event) : list action :=
  match e with
  | EvRecv fd _ (Ret ((_ :: _) as bs)) =>
      if fd =? cfd then [Take Client bs] else if fd =? ufd then [Take Upstream bs] else []
  | EvSend fd data (Ret n) =>
      if 0 <? n then
        let bs := take (Z.to_nat n) data in
        if fd =? ufd then [Give Client bs] else if fd =? cfd then [Give Upstream bs] else []
      else []
  | EvShutdownWr fd =>
      if fd =? ufd then [Pass Client] else if fd =? cfd then [Pass Upstream] else []
  | _ => []
  end.

(** A history is newest first. *)
Fixpoint performed (cfd ufd : Z) (tr : trace) : list action :=
  match tr with
  | [] => []
  | e :: tr' => performed cfd ufd tr' ++ shown cfd ufd e
  end.

Lemma performed_app cfd ufd tr tr' :
  performed cfd ufd (tr ++ tr') = performed cfd ufd tr' ++ performed cfd ufd tr.
Proof.
  induction tr as [|e tr IH]; cbn; [by rewrite app_nil_r|]. by rewrite IH, app_assoc.
Qed.

Lemma shown_elsewhere cfd ufd e :
  match io_fd e with Some fd => fd ∉ [cfd; ufd] | None => True end → shown cfd ufd e = [].
Proof.
  intros He.
  assert (∀ fd, fd ∉ [cfd; ufd] → (fd =? cfd) = false ∧ (fd =? ufd) = false) as Hne.
  { intros fd Hfd. rewrite !Z.eqb_neq. set_solver. }
  destruct e as [|fd ? [[|b bs]|]|fd ? [n|]| |fd| | | | | | | | | | | | | | | | |]; try done; cbn in *;
    destruct (Hne fd He) as [-> ->]; by try case_match.
Qed.

Lemma elsewhere_performed cfd ufd calls :
  untouched [cfd; ufd] calls → performed cfd ufd calls = [].
Proof.
  induction 1 as [|e calls He _ IH]; [done|]. cbn [performed]. by rewrite IH, shown_elsewhere.
Qed.

(** ** Simulation *)

Section simulation.
Context {K : Kernel} {KL : KernelLaws K} (capacity : Z).

(** The calls [evs] and the actions [acts] lead from [s] to [s']. *)
Definition simulated (evs : trace) (acts : list action) (s s' : env) : Prop :=
  log s' = evs ++ log s ∧
  obeys capacity acts (relay_of (session s)) = Some (relay_of (session s')) ∧
  filter visible acts = performed (clientFd (session s)) (upstreamFd (session s)) evs.

Lemma relay_with_buffer d f s :
  relay_of (session (with_buffer d f s)) =
    set_lane d (mkLane (contents (f (buffer d (session s)))) (readClosed d (session s))
      (told d (session s))) (relay_of (session s)).
Proof using Type. by destruct d. Qed.

Lemma lane_of_relay d c : lane_of d (relay_of c) = lane_in d c.
Proof using Type. by destruct d. Qed.

Lemma ready_relay d c : (d = Upstream → upstreamConnecting_ c = false) → ready d (relay_of c) = true.
Proof using Type. destruct d; [done|]. cbn. by intros ->. Qed.

Lemma shown_recv d c len bs : clientFd c ≠ upstreamFd c → bs ≠ [] →
  shown (clientFd c) (upstreamFd c) (EvRecv (fd_of d c) len (Ret bs)) = [Take d bs].
Proof using Type.
  intros Hne Hbs. destruct bs as [|b bs]; [done|]. destruct d; cbn; rewrite Z.eqb_refl; [done|].
  destruct (Z.eqb_spec (upstreamFd c) (clientFd c)); [congruence|done].
Qed.

Lemma shown_send d c data n : clientFd c ≠ upstreamFd c → 0 < n →
  shown (clientFd c) (upstreamFd c) (EvSend (fd_of (other d) c) data (Ret n)) =
    [Give d (take (Z.to_nat n) data)].
Proof using Type.
  intros Hne Hn. cbn. apply Z.ltb_lt in Hn as ->. destruct d; cbn; rewrite Z.eqb_refl; [done|].
  destruct (Z.eqb_spec (clientFd c) (upstreamFd c)); [congruence|done].
Qed.

Lemma shown_shutdown d c : clientFd c ≠ upstreamFd c →
  shown (clientFd c) (upstreamFd c) (EvShutdownWr (fd_of (other d) c)) = [Pass d].
Proof using Type.
  intros Hne. destruct d; cbn; rewrite Z.eqb_refl; [done|].
  destruct (Z.eqb_spec (clientFd c) (upstreamFd c)); [congruence|done].
Qed.

(** Bytes that came in fit, as the call asked for no more than there is room. *)
Lemma take_allowed d s bs : buffers_ok capacity s → readable d s → answer d s = Ret bs → bs ≠ [] →
  obey capacity (Take d bs) (relay_of (session s)) =
    Some (relay_of (session (with_buffer d (ByteBuffer.append bs) s))).
Proof using KL.
  intros Hok (Hrc & Hcon & _) Ha Hbs. destruct (Hok d) as [Hw Hsz].
  pose proof (answer_room capacity d s bs Hok Ha) as Hroom.
  cbn [obey]. rewrite lane_of_relay, ready_relay by done. cbn [lane_in over queue passed].
  rewrite Hrc, bool_decide_false by done. cbn [andb negb].
  rewrite relay_with_buffer, ByteBuffer.append_contents by done.
  destruct (Z.leb_spec (Z.of_nat (length (contents (buffer d (session s)) ++ bs))) capacity) as [|Hgt].
  { by rewrite Hrc. }
  pose proof (ByteBuffer.buffered_le_size _ (ByteBuffer.append_wf _ _ Hw Hroom)) as Hle.
  unfold ByteBuffer.buffered in Hle.
  rewrite ByteBuffer.append_contents, ByteBuffer.append_size in Hle by done. lia.
Qed.

Lemma give_allowed d s n : buffers_ok capacity s → sendable d s → accepted d s = Ret n → 0 < n →
  obey capacity (Give d (take (Z.to_nat n) (outgoing d s))) (relay_of (session s)) =
    Some (relay_of (session (with_buffer d (ByteBuffer.consume n) s))).
Proof using KL.
  intros Hok [Hem Hcon] Ha Hn. destruct (Hok d) as [Hw Hsz].
  pose proof (accepted_size capacity d s n Hok Ha) as Hacc.
  pose proof Hacc as Hlen. rewrite ByteBuffer.readableBytes_buffered in Hlen by done.
  unfold ByteBuffer.buffered in Hlen. unfold outgoing. rewrite ByteBuffer.send_range by done.
  set (q := contents (buffer d (session s))) in *.
  assert (length (take (Z.to_nat n) q) = Z.to_nat n) as Hlen' by (rewrite length_take; lia).
  clear Hlen. rename Hlen' into Hlen.
  cbn [obey]. rewrite lane_of_relay. cbn [lane_in queue over passed]. fold q. rewrite Hlen.
  rewrite ready_relay by (destruct d; naive_solver). rewrite bool_decide_false, bool_decide_true; [|done|].
  - cbn [andb negb]. rewrite relay_with_buffer, ByteBuffer.consume_contents by (done || exact Hacc). done.
  - intros E. rewrite E in Hlen. cbn in Hlen. lia.
Qed.

Lemma io_step_simulated events s s' :
  clientFd (session s) ≠ upstreamFd (session s) → buffers_ok capacity s →
  io_step events s s' → ∃ evs acts, simulated evs acts s s'.
Proof using KL.
  intros Hne Hok Hio.
  destruct Hio as [d|d bs Hr Ha Hbs|d Hr Ha|d Hc Hh|d n Hs Ha Hn|d Hs Ha|d Hf|fd|i tr Hc|i r tr|].
  - exists [], []. split; [done|]. split; [|done]. cbn [obeys]. rewrite relay_with_buffer.
    destruct (Hok d) as [Hw _]. rewrite ByteBuffer.makeWritable_contents by done.
    by destruct d.
  - eexists [_; recv_event d s], [Take d bs]. split; [done|]. split.
    + cbn [obeys]. by rewrite take_allowed.
    + unfold recv_event. rewrite Ha. cbn [performed]. rewrite shown_recv by done. done.
  - exists [recv_event d s], []. split; [done|]. split; [done|]. unfold recv_event.
    destruct (answer d s) as [bs|e] eqn:E; [|done]. by rewrite (Ha bs).
  - exists [], [Over d]. split; [done|]. split; [|done]. cbn [obeys obey].
    rewrite lane_of_relay. cbn [lane_in over]. rewrite Hc. by destruct d.
  - eexists [_; send_event d s], [Give d (take (Z.to_nat n) (outgoing d s))]. split; [done|]. split.
    + cbn [obeys]. by rewrite give_allowed.
    + unfold send_event. rewrite Ha. cbn [performed]. rewrite shown_send by done. done.
  - exists [send_event d s], []. split; [done|]. split; [done|]. unfold send_event.
    destruct (accepted d s) as [n|e] eqn:E; [|done]. specialize (Ha n eq_refl). cbn.
    destruct (Z.ltb_spec 0 n); [lia|done].
  - destruct Hf as (Hrc & Hem & Hp). exists [EvShutdownWr (fd_of (other d) (session s))], [Pass d].
    split; [by destruct d|]. split.
    + cbn [obeys obey]. rewrite lane_of_relay. cbn [lane_in queue over passed].
      destruct (Hok d) as [Hw _]. apply ByteBuffer.empty_spec in Hem; [|done].
      rewrite Hrc, Hem, bool_decide_true by done. unfold relay_of, lane_in.
      destruct d; cbn in *; [destruct Hp as [-> ->]|rewrite Hp]; cbn; by rewrite ?Hem, ?Hrc.
    + cbn [performed]. by rewrite shown_shutdown.
  - exists [EvSoError fd (k_so_error (log s) fd)], []. by split.
  - eexists [_], [Connected]. split; [done|]. split; [|done]. cbn. by rewrite Hc.
  - by exists [], [].
  - by exists [], [].
Qed.

(** ** Every life is a run of the specification *)

Section life.
Context (cfd ufd : Z) (r0 : relay) (tr0 : trace).

Definition refines (s : env) : Prop :=
  (clientFd (session s) = cfd ∧ upstreamFd (session s) = ufd) ∧ buffers_ok capacity s ∧
  ∃ new acts, log s = new ++ tr0 ∧ obeys capacity acts r0 = Some (relay_of (session s)) ∧
    filter visible acts = performed cfd ufd new.

Lemma refines_step s s' : cfd ≠ ufd → refines s → life_step s s' → refines s'.
Proof using KL.
  intros Hne ([Hc Hu] & Hok & new & acts & Hlog & Hr & Hv) Hl. destruct Hl as [events s' Hio|calls Hun].
  - destruct (io_step_simulated events s s') as (evs & acts' & Hlog' & Hr' & Hv'); [congruence|done|done|].
    pose proof (io_step_ends _ _ _ Hio) as He.
    split; [pose proof (He Client); pose proof (He Upstream); cbn in *; split; congruence|].
    split; [by eapply io_step_buffers|]. exists (evs ++ new), (acts ++ acts').
    split; [by rewrite Hlog', Hlog, app_assoc|]. split; [by rewrite obeys_app, Hr|].
    by rewrite filter_app, performed_app, Hv, Hv', Hc, Hu.
  - split; [done|]. split; [done|]. exists (calls ++ new), acts.
    split; [cbn; by rewrite Hlog, app_assoc|]. split; [done|].
    rewrite performed_app, (elsewhere_performed _ _ calls), app_nil_r by (by rewrite <- Hc, <- Hu). done.
Qed.
End life.
End simulation.

(** C5: the session implements its specification.  Whatever events arrive and
    whatever the sockets answer, there is a run of [obey], from two empty
    queues, that ends in the state the session is in, and whose visible actions
    are exactly its receives, sends and shutdowns, in order.  So a session
    takes in bytes only from a side that is connected and has not ended, never
    holds more than its capacity in a direction, gives out only what is next in
    the queue, and passes on an end only after the last byte, and once. *)
Theorem session_refines_spec {K : Kernel} {KL : KernelLaws K}
    id cfd ufd connecting node capacity address now m0 p0 tr0 fuel acts :
  cfd ≠ ufd → 0 <= capacity < 2 ^ 63 → Forall (ok_act cfd ufd) acts →
  let s := lived id cfd ufd connecting node capacity address now m0 p0 tr0 fuel acts in
  ∃ new actions, log s = new ++ tr0 ∧
    obeys capacity actions (start connecting) = Some (relay_of (session s)) ∧
    filter visible actions = performed cfd ufd new.
Proof.
  intros Hne Hcap Hacts s.
  assert (refines capacity cfd ufd (start connecting) tr0 s) as (_ & _ & ?); [|done].
  apply (life_invariant (refines capacity cfd ufd (start connecting) tr0)
    (born id cfd ufd connecting node capacity address now m0 p0 tr0)).
  - intros s1 s2. by apply refines_step.
  - assert (session_inv tr0 capacity m0 (born id cfd ufd connecting node capacity address now m0 p0 tr0))
      as (_ & Hok & _) by by apply born_inv.
    split; [done|]. split; [exact Hok|]. exists [], []. by split_and!.
  - by apply lived_life.
Qed.

(** The chat of [SessionStream], as the specification sees it. *)
Lemma session_refines_spec_witness : ∃ actions,
  obeys 8 actions (start true) = Some (relay_of (session chat_lived)) ∧
  filter visible actions =
    [Take Client [x61; x62]; Give Client [x61; x62]; Take Upstream [x63; x64; x65];
     Give Upstream [x63; x64]; Pass Client].
Proof.
  destruct (session_refines_spec (K := scripted chat) 1 5 6 true 0 8 "10.0.0.1:4242" 0
    Metrics.init (BackendPool.mkPool [Backend.sample "a" 1] 0) [] 10 chat_acts)
    as (new & actions & Hl & Hr & Hv); [lia|lia|exact chat_acts_ok|].
  exists actions. split; [exact Hr|]. rewrite Hv. rewrite app_nil_r in Hl. rewrite <- Hl.
  vm_compute. reflexivity.
Defined.
End SessionSpec.
