(* ===== verification/SessionEstate.v ===== *)
(** * A session's claim on its two descriptors

    What [Streams] says of a pair of descriptors holds of the two of a
    session, the bytes in between being those in its buffers: every step of
    the event handler keeps it, keeps what others claim, and sends nothing
    that did not come from the other end. *)

From S2P Require Import Prelude Text Posix Streams ByteBuffer UniqueFd Metrics Config Net Backend BackendPool ProxySession SessionSteps SessionStream.
Local Open Scope Z_scope.

Module SessionEstate.
Import ByteBuffer (contents).
Import ProxySession SessionSteps SessionStream Streams.

Definition claim_of (c : ProxySession) : claim :=
  Pipe (clientFd c) (upstreamFd c) (contents (clientToUpstream_ c)) (contents (upstreamToClient_ c)).

Lemma claim_stands tr c : stands tr (claim_of c) ↔
  ∀ d, got (fd_of d c) tr = sent (fd_of (other d) c) tr ++ contents (buffer d c).
Proof.
  split; [by intros [H1 H2] []|]. intros H. split; [apply (H Client)|apply (H Upstream)].
Qed.

Section steps.
Context {K : Kernel} {KL : KernelLaws K} (capacity : Z).

(** The calls of a step concern the session's own descriptors. *)
Lemma permitted_foreign s s' evs fd :
  (∀ e, e ∈ evs → permitted s s' e) → fd ∉ fds_in (claim_of (session s)) →
  received fd evs = [] ∧ delivered fd evs = [].
Proof using KL.
  intros He Hfd. cbn in Hfd.
  assert (∀ d, fd ≠ fd_of d (session s)) as Hne by (intros []; set_solver).
  induction evs as [|e evs IH]; [done|].
  destruct IH as [Hr Hd]; [set_solver|]. specialize (He e ltac:(set_solver)).
  destruct e as [|fd' ? [|]|fd' ? [|]| | | | | | | | | | | | | | | | | | |]; try done; cbn; rewrite ?Hr, ?Hd.
  - destruct He as (d & -> & _). destruct (Z.eqb_spec fd (source d s)) as [E|]; [|done].
    by destruct (Hne d).
  - destruct He as (d & -> & _). destruct (Z.eqb_spec fd (sink d s)) as [E|]; [|done].
    by destruct (Hne (other d)).
Qed.

(** Sending from the front of a buffer is honest. *)
Lemma honest_send d s :
  clientFd (session s) ≠ upstreamFd (session s) → buffers_ok capacity s →
  (∀ d, fd_of d (session s) ∈ open_fds (log s)) →
  stands (log s) (claim_of (session s)) → honest (log s) → honest (send_event d s :: log s).
Proof using KL.
  intros Hne Hok Ho Hst Hh. rewrite claim_stands in Hst. destruct (Hok d) as [Hw _].
  split; [done|]. unfold send_event. destruct (accepted d s) as [n|e]; [|done].
  assert (fd_of d (session s) ≠ fd_of (other d) (session s)) as Hd by (destruct d; cbn; congruence).
  exists (fd_of d (session s)). split; [done|]. split; [done|].
  set (e := EvSend _ _ _).
  destruct (streams_app (fd_of (other d) (session s)) [e] (log s)) as [H1 H2]; [by repeat constructor|].
  destruct (streams_app (fd_of d (session s)) [e] (log s)) as [H3 H4]; [by repeat constructor|].
  change ([e] ++ log s) with (e :: log s) in *. rewrite H1, H2, H3, H4. cbn.
  rewrite Z.eqb_refl. destruct (Z.eqb_spec (fd_of d (session s)) (fd_of (other d) (session s))); [done|].
  rewrite !app_nil_r. split.
  - rewrite (Hst d). apply prefix_app. unfold outgoing.
    rewrite ByteBuffer.send_range by done. apply prefix_take.
  - specialize (Hst (other d)). replace (other (other d)) with d in Hst by by destruct d.
    rewrite Hst. by apply prefix_app_r, reflexivity.
Qed.

Lemma io_step_honest events s s' :
  clientFd (session s) ≠ upstreamFd (session s) → buffers_ok capacity s →
  (∀ d, fd_of d (session s) ∈ open_fds (log s)) →
  stands (log s) (claim_of (session s)) → honest (log s) → io_step events s s' → honest (log s').
Proof using KL.
  intros Hne Hok Ho Hst Hh Hio.
  destruct Hio as [d|d bs Hr Ha|d Hr Ha|d Hc Hhu|d n Hs Ha|d Hs Ha|d Hf|fd|i tr|i r tr|]; try (by repeat split).
  - split; [|done]. by apply honest_send.
  - by apply honest_send.
Qed.

Lemma io_step_estate events s s' L :
  buffers_ok capacity s → estate (claim_of (session s) :: L) (log s) → io_step events s s' →
  estate (claim_of (session s') :: L) (log s').
Proof using KL.
  intros Hok HL Hio. pose proof HL as [Hl Hst Hh].
  apply Forall_cons in Hst as [Hc Hst].
  pose proof Hl as (Hn & Hop & Hcl). cbn in Hn.
  apply NoDup_cons in Hn as [Hna Hn]. apply NoDup_cons in Hn as [Hnb Hn].
  assert (clientFd (session s) ≠ upstreamFd (session s)) as Hne by set_solver.
  assert (∀ d, fd_of d (session s) ∈ open_fds (log s)) as Hopen
    by (intros d; rewrite Hop; destruct d; cbn; set_solver).
  pose proof (io_step_ends _ _ _ Hio) as He.
  destruct (io_step_flow capacity events s s' Hne Hok Hio) as (evs & Hlog & Hf).
  destruct (io_step_calls events s s' Hio) as (evs' & Hlog' & Hp).
  assert (evs' = evs) as -> by (eapply app_inv_tail; by rewrite <- Hlog, <- Hlog').
  assert (Forall (λ e, opens e = None) evs) as Hno.
  { apply Forall_forall. intros e Hin%Hp. by destruct e. }
  assert (open_fds (log s') = open_fds (log s) ∧ closes_ok (log s')) as [Ho Hc'].
  { destruct Hio as [d|d bs Hr Ha|d Hr Ha|d Hcl'|d n Hs Ha|d Hs Ha|d Hfi|fd|i tr|i r tr|];
      try done; by destruct d. }
  assert (fds_in (claim_of (session s')) = fds_in (claim_of (session s))) as Hfds.
  { cbn. pose proof (He Client) as H1. pose proof (He Upstream) as H2. cbn in H1, H2. by rewrite H1, H2. }
  split.
  - cbn [mbind list_bind]. rewrite Hfds. by eapply ledger_same.
  - constructor.
    + apply claim_stands. rewrite claim_stands in Hc. intros d. rewrite !He, Hlog.
      destruct (streams_app (fd_of d (session s)) evs (log s) Hno) as [-> _].
      destruct (streams_app (fd_of (other d) (session s)) evs (log s) Hno) as [_ ->].
      rewrite Hc, <- !app_assoc. f_equal. apply Hf.
    + apply Forall_forall. intros c Hin. rewrite Forall_forall in Hst.
      eapply stands_same; [|by apply Hst]. intros fd Hfd.
      destruct (permitted_foreign s s' evs fd Hp) as [Hr Hd].
      { assert (fd ∈ L ≫= fds_in) as HinL by (apply list_elem_of_bind; eauto).
        cbn. set_solver. }
      rewrite Hlog. destruct (streams_app fd evs (log s) Hno) as [-> ->].
      by rewrite Hr, Hd, !app_nil_r.
  - by eapply io_step_honest.
Qed.

Lemma io_steps_estate events s s' L :
  buffers_ok capacity s → estate (claim_of (session s) :: L) (log s) → io_steps events s s' →
  estate (claim_of (session s') :: L) (log s').
Proof using KL.
  intros Hok HL Hio. induction Hio as [|s1 s2 s3 H12 _ IH]; [done|].
  apply IH; [by eapply io_step_buffers|by eapply io_step_estate].
Qed.
End steps.

End SessionEstate.
