(* ===== verification/SessionEvents.v ===== *)
(** * How a session reacts to events

    The interest sets give back-pressure without deadlock; the handler always
    ends, never throws, and returns false exactly when it marks the session
    closing; the outcome of the non-blocking connect is booked once.  Two
    theorems record behaviours the documentation does not mention: a hang-up
    seen while the buffer is full ends the stream with data still unread, and
    a half-closed peer keeps the level-triggered descriptor ready. *)

From S2P Require Import Prelude Text Posix ByteBuffer UniqueFd Metrics Config Net Backend BackendPool ProxySession SessionSteps SessionStream.
Local Open Scope Z_scope.

Module SessionEvents.
Import ByteBuffer (ByteBuffer, readableBytes, writableBytes, empty, makeWritable,
  readData, writeData, hasWritten, consume, append, contents, wf, size, buffered).
Import ProxySession SessionSteps SessionStream.

(** ** Interest sets *)

Definition interest (d : side) (c : ProxySession) : Z :=
  match d with Client => clientEvents c | Upstream => upstreamEvents c end.

Definition connected (c : ProxySession) : Prop := upstreamConnecting_ c = false.

Lemma interest_in d c : connected c →
  has (interest d c) EPOLLIN = negb (readClosed d c) && (0 <? writableBytes (buffer d c)).
Proof.
  intros Hc. unfold interest, clientEvents, upstreamEvents. rewrite Hc.
  destruct d; cbn [readClosed buffer]; destruct (negb _ && _), (negb (empty _)); done.
Qed.

Lemma interest_out d c : connected c →
  has (interest d c) EPOLLOUT = negb (empty (buffer (other d) c)).
Proof.
  intros Hc. unfold interest, clientEvents, upstreamEvents. rewrite Hc.
  destruct d; cbn [other buffer]; destruct (negb _ && _), (negb (empty _)); done.
Qed.

(** A buffer with a capacity is either readable or writable. *)
Lemma empty_or_room b : wf b → 0 < size b → empty b = true → 0 <? writableBytes b = true.
Proof.
  intros Hw Hs He. apply Z.ltb_lt. apply ByteBuffer.empty_spec in He; [|done].
  pose proof (ByteBuffer.buffered_eq b Hw) as Hb. unfold buffered in Hb. rewrite He in Hb.
  rewrite ByteBuffer.writableBytes_eq by done. destruct Hw. cbn in Hb. lia.
Qed.

(** Back-pressure without deadlock.  Once connected, and with a non-zero
    buffer size, for each of the two directions: the source is polled for
    input exactly when it has not ended and there is room at the end of the
    buffer; the sink is polled for output exactly when there is something to
    send it; and unless the source has ended, at least one of the two is
    polled, so that the direction can always make progress.  While
    connecting, only completion of the connect is awaited upstream. *)
Theorem interest_never_deadlocks capacity s d :
  buffers_ok capacity s → 0 < capacity →
  (upstreamConnecting_ (session s) = true →
     upstreamEvents (session s) = Z.lor EPOLLRDHUP EPOLLOUT) ∧
  (connected (session s) →
     (has (interest d (session s)) EPOLLIN = true ↔
        readClosed d (session s) = false ∧ 0 < writableBytes (buffer d (session s))) ∧
     (has (interest (other d) (session s)) EPOLLOUT = true ↔
        contents (buffer d (session s)) ≠ []) ∧
     (readClosed d (session s) = false →
        has (interest d (session s)) EPOLLIN = true ∨
        has (interest (other d) (session s)) EPOLLOUT = true)).
Proof.
  intros Hok Hcap. destruct (Hok d) as [Hw Hs]. split.
  - intros Hc. unfold upstreamEvents. by rewrite Hc.
  - intros Hc. rewrite interest_in, interest_out, other_other by done. split_and!.
    + rewrite andb_true_iff, negb_true_iff, Z.ltb_lt. done.
    + rewrite negb_true_iff. by apply ByteBuffer.empty_false.
    + intros Hr. rewrite Hr. destruct (empty (buffer d (session s))) eqn:He; [|by right].
      left. apply empty_or_room; [done|lia|done].
Qed.

Lemma interest_never_deadlocks_witness :
  buffers_ok 8 chat_lived ∧
  (has (interest Upstream (session chat_lived)) EPOLLIN = true ∨
   has (interest Client (session chat_lived)) EPOLLOUT = true).
Proof.
  assert (buffers_ok 8 chat_lived) as Hok.
  { intros []; (split; [|vm_compute; reflexivity]); split; vm_compute; done. }
  split; [exact Hok|].
  apply (interest_never_deadlocks 8 chat_lived Upstream Hok); [lia|vm_compute; reflexivity..].
Defined.

(** ** Termination *)

Section total.
Context {K : Kernel} {KL : KernelLaws K} (n : nat) `{!FewInterrupts K n}.
Context (capacity : Z).

Definition free (d : side) (s : env) : Z :=
  size (buffer d (session s)) - buffered (buffer d (session s)).

(** Turns a loop can still take with [work] bytes to move. *)
Definition enough (fuel : nat) (work : Z) (tr : trace) : Prop :=
  Z.of_nat (n + 1) * work + Z.of_nat (n - interrupted_run tr) < Z.of_nat fuel.

Lemma free_bounds d s : buffers_ok capacity s → 0 <= free d s <= capacity.
Proof using Type.
  intros Hok. destruct (Hok d) as [Hw Hs]. unfold free.
  pose proof (ByteBuffer.buffered_le_size _ Hw). unfold buffered in *. lia.
Qed.

Lemma enough_progress fuel work work' tr tr' :
  enough (S fuel) work tr → 0 <= work' < work → interrupted_run tr' = O →
  enough fuel work' tr'.
Proof using Type. unfold enough. intros ? ? ->. nia. Qed.

Lemma enough_retry fuel work tr e :
  enough (S fuel) work tr → (interrupted_run tr < n)%nat → interrupted e = true →
  enough fuel work (e :: tr).
Proof using Type. unfold enough. cbn. intros ? ? ->. lia. Qed.

Lemma enough_positive fuel work tr : enough fuel work tr → 0 <= work → (0 < fuel)%nat.
Proof using Type. unfold enough. intros. destruct fuel; [nia|lia]. Qed.

Lemma appended_ok d bs s : buffers_ok capacity s →
  Z.of_nat (length bs) <= writableBytes (buffer d (session s)) →
  buffers_ok capacity (with_buffer d (append bs) s) ∧
  free d (with_buffer d (append bs) s) = free d s - Z.of_nat (length bs).
Proof using Type.
  intros Hok Hroom. destruct (Hok d) as [Hw Hs]. split.
  - apply buffers_ok_with_buffer; [done|by apply ByteBuffer.append_wf|].
    by rewrite ByteBuffer.append_size.
  - unfold free. rewrite buffer_with_buffer, ByteBuffer.append_size.
    unfold buffered. rewrite ByteBuffer.append_contents, length_app by done. lia.
Qed.

Lemma consumed_ok d k s : buffers_ok capacity s →
  0 <= k <= readableBytes (buffer d (session s)) →
  buffers_ok capacity (with_buffer d (consume k) s) ∧
  buffered (buffer d (session (with_buffer d (consume k) s)))
    = buffered (buffer d (session s)) - k.
Proof using Type.
  intros Hok Hk. destruct (Hok d) as [Hw Hs]. split.
  - apply buffers_ok_with_buffer; [done|by apply ByteBuffer.consume_wf|].
    by rewrite ByteBuffer.consume_size.
  - rewrite ByteBuffer.readableBytes_buffered in Hk by done.
    rewrite buffer_with_buffer. unfold buffered in *.
    rewrite ByteBuffer.consume_contents, length_drop;
      [lia|done|rewrite ByteBuffer.readableBytes_buffered; [done|done]].
Qed.

Lemma compacted_ok d s : buffers_ok capacity s →
  buffers_ok capacity (with_buffer d makeWritable s) ∧
  free d (with_buffer d makeWritable s) = free d s.
Proof using Type.
  intros Hok. destruct (Hok d) as [Hw Hs]. split.
  - apply buffers_ok_with_buffer; [done|by apply ByteBuffer.makeWritable_wf|].
    by rewrite ByteBuffer.makeWritable_size.
  - unfold free, buffered. rewrite buffer_with_buffer, ByteBuffer.makeWritable_size.
    by rewrite ByteBuffer.makeWritable_contents.
Qed.

Lemma readInto_ends fuel fd d progressed s :
  buffers_ok capacity s → enough fuel (free d s) (log s) →
  (readInto_loop fuel fd d (is_client d) progressed s).1 ≠ NoFuel ∧
  ∀ e, (readInto_loop fuel fd d (is_client d) progressed s).1 ≠ Exn e.
Proof using All.
  revert progressed s. induction fuel as [|fuel IH]; intros progressed s Hok Hen.
  { apply enough_positive in Hen; [lia|]. by apply free_bounds. }
  rewrite readInto_turn. cbv zeta.
  destruct (compacted_ok d s Hok) as [Hok1 Hfree].
  set (s1 := with_buffer d makeWritable s) in *. rewrite <- Hfree in Hen.
  change (log s) with (log s1) in Hen.
  case_match; [done|].
  set (len := writableBytes (buffer d (session s1))).
  destruct (k_recv (log s1) fd len) as [bs|e] eqn:Hr.
  - apply recv_at_most in Hr as Hlen. rewrite Z.max_r in Hlen by apply u64_range.
    destruct bs as [|b bs]; [done|].
    destruct (appended_ok d (b :: bs) s1 Hok1 Hlen) as [Hok2 Hfree2].
    apply IH; [done|]. eapply enough_progress; [exact Hen| |done].
    assert (free d (with_buffer d (append (b :: bs)) s1) < free d s1)
      by (rewrite Hfree2; cbn; lia).
    split; [by apply (free_bounds d _ Hok2)|done].
  - destruct (Z.eqb_spec e EINTR) as [->|]; [|by case_match].
    apply IH; [done|]. apply enough_retry; [done| |done].
    destruct (decide (n ≤ interrupted_run (log s1))%nat) as [Hn|]; [|lia].
    by destruct (recv_few (log s1) fd len Hn).
Qed.

Lemma writeFrom_ends fuel fd d progressed s :
  buffers_ok capacity s → enough fuel (buffered (buffer d (session s))) (log s) →
  (writeFrom_loop fuel fd d progressed s).1 ≠ NoFuel ∧
  ∀ e, (writeFrom_loop fuel fd d progressed s).1 ≠ Exn e.
Proof using All.
  revert progressed s. induction fuel as [|fuel IH]; intros progressed s Hok Hen.
  { apply enough_positive in Hen; [lia|]. unfold buffered. lia. }
  rewrite writeFrom_turn. cbv zeta. case_match; [done|].
  set (data := take _ _). destruct (k_send (log s) fd data) as [k|e] eqn:Hs.
  - destruct (Z.ltb_spec 0 k); [|done]. apply send_at_most in Hs. destruct (Hok d) as [Hw _].
    subst data. rewrite ByteBuffer.send_range in Hs by done.
    destruct (consumed_ok d k s Hok) as [Hok2 Hb2].
    { by rewrite ByteBuffer.readableBytes_buffered. }
    apply IH; [done|]. eapply enough_progress; [exact Hen| |done].
    split; [unfold buffered; lia|].
    assert (buffered (buffer d (session (with_buffer d (consume k) s)))
      < buffered (buffer d (session s))) by lia. done.
  - destruct (Z.eqb_spec e EINTR) as [->|]; [|by case_match].
    apply IH; [done|]. apply enough_retry; [done| |done].
    destruct (decide (n ≤ interrupted_run (log s))%nat) as [Hn|]; [|lia].
    by destruct (send_few (log s) fd data Hn).
Qed.

Definition fuel_for (fuel : nat) : Prop :=
  Z.of_nat (n + 1) * (capacity + 1) <= Z.of_nat fuel.

Lemma fuel_enough fuel work tr : fuel_for fuel → work <= capacity → enough fuel work tr.
Proof using Type. unfold fuel_for, enough. intros. nia. Qed.

(** How a part of the handler ends: [None] goes on, [Some b] returns [b]. *)
Definition ends_with (r : outcome (option bool) * env) : Prop :=
  ∃ v s', r = (Val v, s') ∧ buffers_ok capacity s' ∧
    match v with
    | None => closing_ (session s') = false
    | Some b => closing_ (session s') = negb b
    end.

Lemma fail_ends s : buffers_ok capacity s → ends_with (fail s).
Proof using Type.
  intros Hok. eexists _, _. split; [done|]. split; [|done].
  intros d. specialize (Hok d). by destruct d.
Qed.

Lemma io_steps_buffers events s s' :
  buffers_ok capacity s → io_steps events s s' → buffers_ok capacity s'.
Proof using KL. intros Hok. induction 1; eauto using io_step_buffers. Qed.

Lemma read_side_ends fuel d events s :
  buffers_ok capacity s → fuel_for fuel → closing_ (session s) = false →
  (d = Upstream → upstreamConnecting_ (session s) = false) →
  ends_with (read_side fuel d events s).
Proof using All.
  intros Hok Hfuel Hcl Hu. unfold read_side, gets. unfold mbind at 1, ST_bind at 1. destruct (negb _ && _) eqn:Hg.
  2: { eexists _, _. done. }
  apply andb_true_iff in Hg as [Hrc%negb_true_iff _].
  destruct (readInto_ends fuel (fd_of d (session s)) d false s Hok) as [Hn He].
  { apply fuel_enough; [done|]. by apply free_bounds. }
  destruct (readInto_io events fuel d false s Hrc Hu) as (Hio & Hsf & _).
  unfold mbind at 1, ST_bind at 1, readInto. unfold is_client in *.
  destruct (readInto_loop _ _ _ _ _ s) as [[r|e|] s1]; cbn [fst snd] in *;
    [|by destruct (He e)|done].
  pose proof (io_steps_buffers _ _ _ Hok Hio) as Hok1.
  destruct (same_flags_facts _ _ Hsf) as (_ & _ & _ & _ & Hcl1).
  destruct (decide (r = Error)); [by apply fail_ends|].
  assert (∀ s2, s2 = s1 ∨ s2 = with_session (set_readClosed d true) s1 →
    buffers_ok capacity s2 ∧ closing_ (session s2) = false) as Hs2.
  { intros s2 [->| ->]; [split; [done|congruence]|]. split; [|destruct d; cbn; congruence].
    intros d'. specialize (Hok1 d'). by destruct d, d'. }
  unfold mbind, ST_bind.
  destruct (bool_decide (r = Closed) || _); (eexists None, _; split; [done|]; apply Hs2; auto).
Qed.

Lemma write_side_ends fuel d events s :
  buffers_ok capacity s → fuel_for fuel → closing_ (session s) = false →
  (d = Upstream → upstreamConnecting_ (session s) = false) →
  ends_with (write_side fuel d events s).
Proof using All.
  intros Hok Hfuel Hcl Hu. unfold write_side, gets. unfold mbind at 1, ST_bind at 1. destruct (_ && _); [|by eexists _, _].
  destruct (writeFrom_ends fuel (fd_of d (session s)) (other d) false s Hok) as [Hn He].
  { apply fuel_enough; [done|]. destruct (Hok (other d)) as [Hw Hs].
    rewrite <- Hs. by apply ByteBuffer.buffered_le_size. }
  destruct (writeFrom_io events fuel (other d) false s) as [Hio Hsf].
  { destruct d; [done|]. intros _. by apply Hu. }
  rewrite other_other in Hio, Hsf. unfold mbind, ST_bind, writeFrom.
  destruct (writeFrom_loop _ _ _ _ s) as [[r|e|] s1]; cbn [fst snd] in *;
    [|by destruct (He e)|done].
  pose proof (io_steps_buffers _ _ _ Hok Hio) as Hok1.
  destruct (same_flags_facts _ _ Hsf) as (_ & _ & _ & _ & Hcl1).
  case_match; [by apply fail_ends|]. eexists _, _. split; [done|]. split; [done|congruence].
Qed.

Lemma serve_ends fuel d events s :
  buffers_ok capacity s → fuel_for fuel → closing_ (session s) = false →
  (d = Upstream → upstreamConnecting_ (session s) = false) →
  ends_with (serve fuel d events s).
Proof using All.
  intros Hok Hfuel Hcl Hu. pose proof (read_side_io events fuel d s Hu) as Hio.
  destruct (read_side_ends fuel d events s Hok Hfuel Hcl Hu) as (v & s1 & Hr & Hok1 & Hv).
  unfold serve, mbind, ST_bind. rewrite Hr in *. destruct v as [b|]; [by eexists _, _|].
  apply write_side_ends; [done..|]. intros Hd.
  eapply io_steps_connected; [exact Hio|]. by apply Hu.
Qed.

Lemma connect_phase_ends fd events i s :
  buffers_ok capacity s → closing_ (session s) = false →
  BackendPool.backend_ (backend_ (session s)) = Some i →
  ends_with (connect_phase fd events s).
Proof using Type.
  intros Hok Hcl Hi. rewrite (connect_phase_eq fd events i) by done.
  assert (∀ s', buffer Client (session s') = buffer Client (session s) →
    buffer Upstream (session s') = buffer Upstream (session s) → buffers_ok capacity s') as Hb.
  { intros s' H1 H2 []; [rewrite H1|rewrite H2]; apply Hok. }
  unfold connect_result. case_match; [|by eexists _, _].
  case_match; [by eexists _, _|].
  destruct (after_connect i s) as [b s1] eqn:Ha. unfold after_connect in Ha.
  assert (buffers_ok capacity s1 ∧ closing_ (session s1) = false) as [Hok1 Hcl1].
  { destruct (k_so_error _ _) as [[|?|?]|?]; simplify_eq; (split; [by apply Hb|exact Hcl]). }
  destruct b; eexists _, _; (split; [done|]); [done|]. split; [|done].
  intros d. specialize (Hok1 d). by destruct d.
Qed.

Lemma updateHalfClose_ends s : buffers_ok capacity s →
  ∃ s', updateHalfClose s = (Val tt, s') ∧ buffers_ok capacity s' ∧
    closing_ (session s') = closing_ (session s).
Proof using KL.
  intros Hok. pose proof (io_steps_buffers 0 _ _ Hok (updateHalfClose_io 0 s)) as Hok'.
  destruct (updateHalfClose s) as [o s'] eqn:Hu. cbn in Hok'.
  exists s'. split; [|split; [done|]];
    unfold updateHalfClose, gets, on_session, modify, sys_shutdown_wr, syscall, mbind,
      ST_bind, mret, ST_ret in Hu; repeat case_match; by simplify_eq.
Qed.

(** [handleEvent] ends, with a value that says whether the session closes. *)
Lemma handleEvent_ends fuel fd events i s :
  buffers_ok capacity s → fuel_for fuel →
  BackendPool.backend_ (backend_ (session s)) = Some i →
  ∃ b s', handleEvent fuel fd events s = (Val b, s') ∧ buffers_ok capacity s' ∧
    closing_ (session s') = negb b.
Proof using All.
  intros Hok Hfuel Hi. unfold handleEvent, gets. unfold mbind at 1, ST_bind at 1.
  destruct (closing_ (session s)) eqn:Hcl; [by eexists _, _|].
  destruct (connect_phase_ends fd events i s Hok Hcl Hi) as (v & s1 & Hc & Hok1 & Hv).
  destruct (connect_phase_io events fd i s Hi) as [Hio Hcon].
  unfold mbind at 1, ST_bind at 1. rewrite Hc in *. cbn [fst snd] in *.
  destruct v as [b|]; [by eexists _, _|]. destruct (has events EPOLLERR).
  { eexists _, _. split; [done|]. split; [|done]. intros d. specialize (Hok1 d). by destruct d. }
  unfold mbind at 1, ST_bind at 1.
  destruct (core_facts _ _ (io_steps_core _ _ _ Hio)) as [_ Hfd].
  assert (ends_with ((if fd =? clientFd (session s1) then serve fuel Client events
     else if fd =? upstreamFd (session s1) then serve fuel Upstream events else fail) s1))
    as (v & s2 & Hs & Hok2 & Hv2).
  { destruct (Z.eqb_spec fd (clientFd (session s1))); [by apply serve_ends|].
    destruct (Z.eqb_spec fd (upstreamFd (session s1))) as [->|]; [|by apply fail_ends].
    apply serve_ends; [done..|]. intros _. apply Hcon; [done|apply (Hfd Upstream)]. }
  unfold mbind at 1, ST_bind at 1. rewrite Hs. destruct v as [b|]; [by eexists _, _|].
  destruct (updateHalfClose_ends s2 Hok2) as (s3 & Hu & Hok3 & Hcl3).
  unfold mbind at 1, ST_bind at 1. rewrite Hu. unfold mbind at 1, ST_bind at 1.
  destruct (completed (session s3)).
  - eexists _, _. split; [done|]. split; [|done].
    intros d. specialize (Hok3 d). by destruct d.
  - exists true, s3. split; [done|]. split; [done|]. cbn. congruence.
Qed.

(** C17: the handler always ends and never throws.  If signals interrupt at
    most [n] calls in a row, [(n + 1) * (capacity + 1)] turns are enough for
    each of its loops; it returns false exactly when the session is then
    marked closing; and on a session already closing it returns false
    without making a call or changing anything. *)
Theorem handleEvent_total fuel fd events s :
  buffers_ok capacity s → BackendPool.valid (backend_ (session s)) = true →
  Z.of_nat (n + 1) * (capacity + 1) <= Z.of_nat fuel →
  ∃ b s', handleEvent fuel fd events s = (Val b, s') ∧
    closing_ (session s') = negb b ∧
    (closing_ (session s) = true → b = false ∧ s' = s).
Proof using KL FewInterrupts0.
  intros Hok Hv Hfuel. unfold BackendPool.valid in Hv.
  destruct (BackendPool.backend_ (backend_ (session s))) as [i|] eqn:Hi; [|done].
  destruct (handleEvent_ends fuel fd events i s Hok Hfuel Hi) as (b & s' & He & _ & Hc).
  exists b, s'. split; [done|]. split; [done|]. intros Hcl.
  unfold handleEvent, gets, mbind at 1, ST_bind at 1 in He. rewrite Hcl in He.
  by injection He as <- <-.
Qed.
End total.

Lemma handleEvent_total_witness : ∃ s',
  handleEvent (K := scripted quiet) 9 5 EPOLLIN chat_born = (Val true, s') ∧
  closing_ (session s') = false.
Proof.
  destruct (handleEvent_total (K := scripted quiet) 0 8 9 5 EPOLLIN chat_born)
    as (b & s' & He & Hc & _).
  - intros []; (split; [|vm_compute; reflexivity]); split; vm_compute; done.
  - reflexivity.
  - lia.
  - assert (b = true) as Hb by (vm_compute in He; congruence).
    exists s'. rewrite Hb in He, Hc. split; [exact He|exact Hc].
Defined.

(** ** The non-blocking connect *)

Section connecting.
Context {K : Kernel}.

(** The session once [SO_ERROR] has read zero. *)
Definition established (i : nat) (s : env) : env :=
  touched (on_node i Backend.recordConnectSuccess (with_session (set_connecting false)
    (logged (EvSoError (upstreamFd (session s)) (Ret 0)) s))).

Lemma handleEvent_connected fuel fd events i s :
  upstreamConnecting_ (session s) = false → closing_ (session s) = false →
  BackendPool.backend_ (backend_ (session s)) = Some i →
  handleEvent fuel fd events s =
    (if has events EPOLLERR then
       _ ← sys_so_error fd;
       on_session (set_closing true) ;; mret false
     else
       s ← gets session;
       early ← (if fd =? clientFd s then serve fuel Client events
                else if fd =? upstreamFd s then serve fuel Upstream events
                else fail);
       match early with
       | Some r => mret r
       | None =>
           updateHalfClose ;;
           s ← gets session;
           if completed s then on_session (set_closing true) ;; mret false
           else mret true
       end) s.
Proof using Type.
  intros Hc Hcl Hi. unfold handleEvent at 1, gets. unfold mbind at 1, ST_bind at 1.
  rewrite Hcl. unfold mbind at 1, ST_bind at 1. rewrite (connect_phase_eq _ _ i) by done.
  unfold connect_result. by rewrite Hc, andb_false_r.
Qed.

(** C19: completion of a non-blocking connect is booked once.  An event that
    says nothing about it changes nothing; otherwise [SO_ERROR] decides.  If
    it reads zero, one success is counted on the session's backend, the
    session is connected, and the event is then served as on an established
    session; if not, one failure is counted on the backend and one in the
    metrics, and the session gives up without touching any data. *)
Theorem connect_completion fuel events i s :
  upstreamConnecting_ (session s) = true → closing_ (session s) = false →
  BackendPool.backend_ (backend_ (session s)) = Some i →
  let fd := upstreamFd (session s) in
  let answer := k_so_error (log s) fd in
  let r := handleEvent fuel fd events s in
  if negb (has events (Z.lor EPOLLOUT (Z.lor EPOLLERR EPOLLHUP))) then r = (Val true, s)
  else
    match answer with
    | Ret 0 => upstreamConnecting_ (session (established i s)) = false ∧
        r = handleEvent fuel fd events (established i s)
    | _ => r = (Val false,
        mkEnv (set_closing true (session s)) (Metrics.onConnectFailure (metrics s))
          (pool (on_node i Backend.recordConnectFailure s)) (EvSoError fd answer :: log s))
    end.
Proof using Type.
  intros Hc Hcl Hi fd answer r.
  assert (r = match connect_result fd events i s with
    | (Val (Some b), s1) => (Val b, s1)
    | (Val None, s1) => handleEvent fuel fd events s1
    | _ => r end) as Hr.
  { subst r. unfold handleEvent at 1, gets. unfold mbind at 1, ST_bind at 1.
    rewrite Hcl. unfold mbind at 1, ST_bind at 1. rewrite (connect_phase_eq _ _ i) by done.
    unfold connect_result. subst fd. rewrite Z.eqb_refl, Hc. cbn [andb].
    destruct (negb _); [done|]. destruct (after_connect i s) as [[] s1] eqn:Ha; [|done].
    unfold after_connect in Ha. destruct (k_so_error _ _) as [[|?|?]|?]; try done.
    injection Ha as <-. symmetry. apply (handleEvent_connected fuel _ events i); done. }
  unfold connect_result in Hr. subst fd. rewrite Z.eqb_refl, Hc in Hr. cbn [andb] in Hr.
  destruct (negb _); [done|]. unfold after_connect in Hr. fold answer in Hr.
  by destruct answer as [[|?|?]|?].
Qed.
End connecting.

Lemma connect_completion_witness :
  (handleEvent (K := scripted (replay [] [] [Ret 111])) 9 6 EPOLLOUT chat_born).1 = Val false ∧
  handleEvent (K := scripted (replay [] [] [Ret 111])) 9 6 EPOLLOUT chat_born =
    (Val false, mkEnv (set_closing true (session chat_born))
      (Metrics.onConnectFailure (metrics chat_born))
      (pool (on_node 0 Backend.recordConnectFailure chat_born)) [EvSoError 6 (Ret 111)]).
Proof.
  split; [vm_compute; reflexivity|].
  exact (connect_completion (K := scripted (replay [] [] [Ret 111])) 9 EPOLLOUT 0 chat_born
    eq_refl eq_refl eq_refl).
Defined.

(** ** Two behaviours worth knowing *)

Section corner_cases.
Context {K : Kernel} {KL : KernelLaws K}.

(** Once a source is marked ended it is never read again. *)
Lemma closed_never_read d s s' :
  clientFd (session s) ≠ upstreamFd (session s) →
  readClosed d (session s) = true → rtc life_step s s' →
  ∃ new, log s' = new ++ log s ∧ received (fd_of d (session s)) new = [] ∧
    readClosed d (session s') = true ∧ fd_of d (session s') = fd_of d (session s) ∧
    clientFd (session s') ≠ upstreamFd (session s').
Proof using KL.
  intros Hne Hc Hl. induction Hl as [s|s s1 s2 H1 _ IH]; [by exists []|].
  assert (∃ new, log s1 = new ++ log s ∧ received (fd_of d (session s)) new = [] ∧
    readClosed d (session s1) = true ∧ (∀ d', fd_of d' (session s1) = fd_of d' (session s)))
    as (new1 & Hl1 & Hr1 & Hc1 & Hf1).
  { destruct H1 as [events s1 Hio|calls Hun].
    - destruct (io_step_calls _ _ _ Hio) as (evs & Hle & Hcalls). exists evs.
      split; [done|]. split; [|split; [by eapply io_step_readClosed|]].
      + apply received_nil. intros e Hin len r ->.
        destruct (Hcalls _ Hin) as (d' & Hd & (Hrc & _) & _).
        apply end_inj in Hd; [|done]. subst d'. congruence.
      + exact (io_step_ends _ _ _ Hio).
    - exists calls. split; [done|]. split; [|done].
      apply received_other. by apply (proj1 (elsewhere_quiet calls s d Hun)). }
  destruct IH as (new2 & Hl2 & Hr2 & Hc2 & Hf2 & Hn2); [|done|].
  { generalize (Hf1 Client), (Hf1 Upstream). cbn. congruence. }
  exists (new2 ++ new1). split; [by rewrite Hl2, Hl1, app_assoc|].
  rewrite received_app, Hr1. rewrite Hf1 in Hr2, Hf2. by rewrite Hr2.
Qed.

Lemma updateHalfClose_noop s :
  clientReadClosed_ (session s) && empty (clientToUpstream_ (session s))
    && negb (upstreamWriteShutdown_ (session s)) && negb (upstreamConnecting_ (session s))
    = false →
  upstreamReadClosed_ (session s) && empty (upstreamToClient_ (session s))
    && negb (clientWriteShutdown_ (session s)) = false →
  updateHalfClose s = (Val tt, s).
Proof using Type.
  intros H1 H2. unfold updateHalfClose, gets, mbind, ST_bind. rewrite H1. cbn. by rewrite H2.
Qed.

Lemma hangup_on_full_buffer fuel events capacity i s :
  clientFd (session s) ≠ upstreamFd (session s) → buffers_ok capacity s → 0 < capacity →
  BackendPool.backend_ (backend_ (session s)) = Some i →
  closing_ (session s) = false → readClosed Client (session s) = false →
  buffered (clientToUpstream_ (session s)) = capacity →
  upstreamReadClosed_ (session s) = false →
  has events (Z.lor EPOLLRDHUP EPOLLHUP) = true →
  has events EPOLLERR = false → has events EPOLLOUT = false →
  handleEvent (S fuel) (clientFd (session s)) events s =
    (Val true, with_session (set_readClosed Client true) (with_buffer Client makeWritable s)).
Proof using Type.
  intros Hne Hok Hcap Hi Hcl Hrc Hfull Huc Hhup Herr Hout.
  unfold handleEvent, gets. unfold mbind at 1, ST_bind at 1. rewrite Hcl.
  unfold mbind at 1, ST_bind at 1. rewrite (connect_phase_eq _ _ i) by done.
  unfold connect_result. destruct (Z.eqb_spec (clientFd (session s)) (upstreamFd (session s)));
    [done|]. cbn [andb]. rewrite Herr. unfold mbind at 1, ST_bind at 1. rewrite Z.eqb_refl.
  destruct (Hok Client) as [Hw Hs]. cbn [buffer] in Hw, Hs.
  assert (serve (S fuel) Client events s = (Val None,
    with_session (set_readClosed Client true) (with_buffer Client makeWritable s))) as Hserve.
  { unfold serve, read_side, gets. unfold mbind at 1, ST_bind at 1.
    unfold mbind at 1, ST_bind at 1. rewrite Hrc.
    rewrite (has_lor events EPOLLIN), Hhup, orb_true_r. cbn [negb andb].
    unfold mbind at 1, ST_bind at 1, readInto.
    change (bool_decide (Client = Client)) with (is_client Client).
    rewrite readInto_turn. cbv zeta. rewrite (buffer_with_buffer Client). cbn [buffer].
    rewrite (proj2 (Z.eqb_eq _ _) (proj2 (ByteBuffer.makeWritable_room _ Hw) ltac:(congruence))).
    unfold write_side, gets, mbind, ST_bind, on_session, modify. cbn. by rewrite Hout. }
  unfold mbind at 1, ST_bind at 1. rewrite Hserve.
  assert (empty (makeWritable (clientToUpstream_ (session s))) = false) as Hemp.
  { apply ByteBuffer.empty_false; [by apply ByteBuffer.makeWritable_wf|].
    rewrite ByteBuffer.makeWritable_contents by done. intros Hnil.
    unfold buffered in Hfull. rewrite Hnil in Hfull. cbn in Hfull. lia. }
  set (s1 := with_session _ _). unfold mbind at 1, ST_bind at 1.
  rewrite (updateHalfClose_noop s1).
  - unfold mbind, ST_bind, completed; cbn. by rewrite Huc.
  - cbn. by rewrite Hemp.
  - cbn. by rewrite Huc.
Qed.

(** C39: a hang-up on a full buffer ends the stream without reading it.  If a
    client's [EPOLLRDHUP] (or [EPOLLHUP]) is handled while the buffer from
    the client is full, [readInto] reports [WouldBlock] without having
    called [recv], and the session takes that for the end of the client's
    stream: from then on, whatever happens, not a byte the kernel still
    holds for that socket is received. *)
Theorem hangup_on_full_buffer_drops_unread_data fuel events acts capacity i s :
  clientFd (session s) ≠ upstreamFd (session s) → buffers_ok capacity s → 0 < capacity →
  BackendPool.backend_ (backend_ (session s)) = Some i →
  closing_ (session s) = false → readClosed Client (session s) = false →
  buffered (clientToUpstream_ (session s)) = capacity →
  upstreamReadClosed_ (session s) = false →
  has events (Z.lor EPOLLRDHUP EPOLLHUP) = true →
  has events EPOLLERR = false → has events EPOLLOUT = false →
  Forall (ok_act (clientFd (session s)) (upstreamFd (session s))) acts →
  let r := handleEvent (S fuel) (clientFd (session s)) events s in
  r.1 = Val true ∧ log r.2 = log s ∧ clientReadClosed_ (session r.2) = true ∧
  ∃ new, log (for_each (perform (S fuel)) acts r.2).2 = new ++ log s ∧
    received (clientFd (session s)) new = [].
Proof using KL.
  intros Hne Hok Hcap Hi Hcl Hrc Hfull Huc Hhup Herr Hout Hacts r.
  assert (r = (Val true, with_session (set_readClosed Client true)
                           (with_buffer Client makeWritable s))) as Hr.
  { subst r. apply (hangup_on_full_buffer _ _ capacity i); done. }
  rewrite Hr. split; [done|]. split; [done|]. split; [done|]. cbn [fst snd].
  set (s1 := with_session _ _).
  destruct (closed_never_read Client s1 (for_each (perform (S fuel)) acts s1).2)
    as (new & Hl & Hrv & _); [done|done| |].
  - by apply (performs_life (S fuel) acts (clientFd (session s)) (upstreamFd (session s)) i).
  - by exists new.
Qed.

(** C40: a half-closed peer keeps its descriptor ready.  Once the client's
    stream has ended and been passed on (or cannot be yet, because the
    backend is still connecting or data is pending), another hang-up event
    for it changes nothing and makes no call, and the session still asks to
    be told of it: [EPOLLRDHUP] stays in the interest set.  With
    level-triggered readiness the worker's loop turns on this event until
    the backend finishes. *)
Theorem half_closed_client_stutters fuel events i s :
  clientFd (session s) ≠ upstreamFd (session s) →
  BackendPool.backend_ (backend_ (session s)) = Some i →
  closing_ (session s) = false → clientReadClosed_ (session s) = true →
  upstreamReadClosed_ (session s) = false →
  upstreamWriteShutdown_ (session s) = true ∨ upstreamConnecting_ (session s) = true ∨
    empty (clientToUpstream_ (session s)) = false →
  has events EPOLLERR = false → has events EPOLLOUT = false →
  handleEvent fuel (clientFd (session s)) events s = (Val true, s) ∧
  has (clientEvents (session s)) EPOLLRDHUP = true.
Proof using Type.
  intros Hne Hi Hcl Hrc Huc Hdone Herr Hout. split.
  - unfold handleEvent, gets. unfold mbind at 1, ST_bind at 1. rewrite Hcl.
    unfold mbind at 1, ST_bind at 1. rewrite (connect_phase_eq _ _ i) by done.
    unfold connect_result.
    destruct (Z.eqb_spec (clientFd (session s)) (upstreamFd (session s))); [done|].
    cbn [andb]. rewrite Herr. unfold mbind at 1, ST_bind at 1. rewrite Z.eqb_refl.
    assert (serve fuel Client events s = (Val None, s)) as Hserve.
    { unfold serve, read_side, write_side, gets, mbind, ST_bind. cbn [readClosed].
      rewrite Hrc. cbn. by rewrite Hout. }
    unfold mbind at 1, ST_bind at 1. rewrite Hserve.
    unfold mbind at 1, ST_bind at 1. rewrite updateHalfClose_noop.
    + unfold mbind, ST_bind, completed. by rewrite Huc.
    + destruct Hdone as [->|[->| ->]]; by rewrite ?andb_false_r.
    + by rewrite Huc.
  - unfold clientEvents. rewrite Hrc. by case_match.
Qed.
End corner_cases.

(** A client that sent four bytes and its end of stream at once, a buffer of
    two, a backend that is slow to read. *)
Definition slow_backend : script := replay [Ret [x61; x62; x63; x64]; Ret [x63; x64]] [] [].

Definition full_buffer : env :=
  lived (K := scripted slow_backend) 1 5 6 false 0 2 "10.0.0.1:4242" 0 Metrics.init
    (BackendPool.mkPool [Backend.sample "a" 1] 0) [] 9 [Handle 5 EPOLLIN].

(** The two bytes that fit are delivered, then the end of stream; the kernel
    would still have answered the next [recv] with the other two. *)
Lemma hangup_on_full_buffer_drops_unread_data_witness :
  let r := handleEvent (K := scripted slow_backend) 9 5 EPOLLRDHUP full_buffer in
  let last := (for_each (perform (K := scripted slow_backend) 9) [Handle 6 EPOLLOUT] r.2).2 in
  r.1 = Val true ∧ clientReadClosed_ (session r.2) = true ∧
  (∃ new, log last = new ++ log full_buffer ∧ received 5 new = []) ∧
  EvShutdownWr 6 ∈ log last ∧
  k_recv (Kernel := scripted slow_backend) (log last) 5 2 = Ret [x63; x64].
Proof.
  intros r last.
  destruct (hangup_on_full_buffer_drops_unread_data (K := scripted slow_backend) 8 EPOLLRDHUP
    [Handle 6 EPOLLOUT] 2 0 full_buffer) as (Hv & _ & Hc & Hn);
    [vm_compute; done|intros []; (split; [|vm_compute; reflexivity]); split; vm_compute; done
    |lia|vm_compute; reflexivity..|repeat constructor|].
  split; [exact Hv|]. split; [exact Hc|]. split; [exact Hn|].
  split; [vm_compute; repeat constructor|vm_compute; reflexivity].
Defined.

Lemma half_closed_client_stutters_witness :
  handleEvent (K := scripted chat) 9 5 EPOLLRDHUP chat_lived = (Val true, chat_lived) ∧
  has (clientEvents (session chat_lived)) EPOLLRDHUP = true.
Proof.
  apply (half_closed_client_stutters (K := scripted chat) 9 EPOLLRDHUP 0 chat_lived);
    [vm_compute; done|vm_compute; reflexivity..|left; vm_compute; reflexivity
    |vm_compute; reflexivity|vm_compute; reflexivity].
Defined.

End SessionEvents.
