(* ===== verification/SessionFlush.v ===== *)
(** * What is buffered goes out

    Safety says that a session sends nothing but what it was given.  Here is
    the other half: as soon as a socket takes data again, one event on it
    empties the buffer, passes on the end of the stream, and, if that was the
    last thing to do, ends the session. *)

From S2P Require Import Prelude Text Posix ByteBuffer UniqueFd Metrics Config Net Backend BackendPool ProxySession SessionSteps SessionStream SessionEvents.
Local Open Scope Z_scope.

Module SessionFlush.
Import ByteBuffer (contents, empty, buffered).
Import ProxySession SessionSteps SessionStream SessionEvents.

Section flush.
Context {K : Kernel} {KL : KernelLaws K}.

(** The peer reads: [send] on [fd] takes something, unless a signal comes. *)
Definition willing (fd : Z) : Prop := ∀ tr data, data ≠ [] →
  match k_send tr fd data with Ret n => 0 < n | Fail e => e = EINTR end.

Lemma writeFrom_flushes capacity fuel fd d progressed s r s' :
  willing fd → buffers_ok capacity s →
  writeFrom_loop fuel fd d progressed s = (Val r, s') →
  r = Progress ∧ contents (buffer d (session s')) = [] ∧
  ∃ new, log s' = new ++ log s ∧ delivered fd new = contents (buffer d (session s)).
Proof using KL.
  intros Hw. revert progressed s. induction fuel as [|fuel IH]; intros progressed s Hok Hr; [done|].
  rewrite writeFrom_turn in Hr. cbv zeta in Hr. destruct (Hok d) as [Hwf _].
  destruct (empty (buffer d (session s))) eqn:He.
  { injection Hr as <- <-. apply ByteBuffer.empty_spec in He; [|done].
    split; [done|]. split; [done|]. by exists []. }
  rewrite ByteBuffer.send_range in Hr by done. apply ByteBuffer.empty_false in He; [|done].
  specialize (Hw (log s) _ He). set (q := contents (buffer d (session s))) in *.
  destruct (k_send (log s) fd q) as [n|e] eqn:Hs.
  - destruct (Z.ltb_spec 0 n); [|lia]. pose proof (send_at_most _ _ _ _ Hs) as Hn.
    destruct (consumed_ok capacity d n s Hok) as [Hok2 _].
    { rewrite ByteBuffer.readableBytes_buffered by done. exact Hn. }
    apply IH in Hr as (-> & Hemp & new & Hl & Hd); [|exact Hok2].
    split; [done|]. split; [done|].
    exists (new ++ [EvNow (k_now (EvSend fd q (Ret n) :: log s)); EvSend fd q (Ret n)]).
    split; [by rewrite <- app_assoc|]. rewrite delivered_app. cbn. rewrite Z.eqb_refl, Hd.
    change (buffer d (session _)) with (buffer d (session (with_buffer d (ByteBuffer.consume n) s))).
    rewrite buffer_with_buffer, ByteBuffer.consume_contents by
      (done || by rewrite ByteBuffer.readableBytes_buffered by done). apply take_drop.
  - rewrite Hw in Hr. cbn in Hr. apply IH in Hr as (-> & Hemp & new & Hl & Hd); [|exact Hok].
    split; [done|]. split; [done|]. exists (new ++ [EvSend fd q (Fail EINTR)]).
    split; [by rewrite <- app_assoc|]. by rewrite delivered_app.
Qed.

(** [updateHalfClose] tells the far side of a stream that is over. *)
Lemma updateHalfClose_tells d s s' :
  (d = Client → upstreamConnecting_ (session s) = false) →
  contents (buffer d (session s)) = [] → updateHalfClose s = (Val tt, s') →
  (∀ d, buffer d (session s') = buffer d (session s)) ∧
  (∀ d, readClosed d (session s') = readClosed d (session s)) ∧
  (ByteBuffer.wf (buffer d (session s)) → readClosed d (session s) = true → told d (session s') = true) ∧
  ∃ new, log s' = new ++ log s ∧ ∀ fd, delivered fd new = [].
Proof using Type.
  intros Hcon Hemp Hu.
  assert (ByteBuffer.wf (buffer d (session s)) → empty (buffer d (session s)) = true) as He
    by (intros Hwf; by apply ByteBuffer.empty_spec).
  unfold updateHalfClose, gets, on_session, modify, sys_shutdown_wr, syscall, mbind, ST_bind,
    mret, ST_ret in Hu.
  destruct (clientReadClosed_ (session s) && _ && _ && _) eqn:H1; cbn in Hu;
    destruct (upstreamReadClosed_ (session s) && _ && _) eqn:H2; injection Hu as <-;
    (split; [by intros []|]); (split; [by intros []|]).
  - split; [by destruct d|]. by exists [EvShutdownWr (clientFd (session s)); EvShutdownWr (upstreamFd (session s))].
  - split; [|by exists [EvShutdownWr (upstreamFd (session s))]]. intros Hwf Hrc.
    destruct d; [done|]. cbn in *. rewrite Hrc, He in H2 by done. by apply negb_false_iff in H2.
  - split; [|by exists [EvShutdownWr (clientFd (session s))]]. intros Hwf Hrc.
    destruct d; [|done]. cbn in *. rewrite Hrc, He, Hcon in H1 by done. cbn in H1.
    rewrite andb_true_r in H1. by apply negb_false_iff in H1.
  - split; [|by exists []]. intros Hwf Hrc. destruct d; cbn in *.
    + rewrite Hrc, He, Hcon in H1 by done. cbn in H1. rewrite andb_true_r in H1. by apply negb_false_iff in H1.
    + rewrite Hrc, He in H2 by done. by apply negb_false_iff in H2.
Qed.

(** The branch of [handleEvent] for a descriptor of the session. *)
Lemma dispatched {A} d c (x y z : A) : clientFd c ≠ upstreamFd c →
  (if fd_of d c =? clientFd c then x else if fd_of d c =? upstreamFd c then y else z) =
    match d with Client => x | Upstream => y end.
Proof using Type.
  intros Hne. destruct d; cbn; rewrite !Z.eqb_refl; [done|].
  destruct (Z.eqb_spec (upstreamFd c) (clientFd c)); [congruence|done].
Qed.

(** Only writable: nothing to read, no error. *)
Definition only_writable (events : Z) : Prop :=
  has events EPOLLOUT = true ∧ has events (Z.lor EPOLLIN (Z.lor EPOLLRDHUP EPOLLHUP)) = false ∧
  has events EPOLLERR = false.

Lemma serve_flushes n `{!FewInterrupts K n} capacity fuel d events s :
  buffers_ok capacity s → fuel_for n capacity fuel → connected (session s) →
  willing (fd_of d (session s)) → only_writable events →
  ∃ s', serve fuel d events s = (Val None, s') ∧ buffers_ok capacity s' ∧
    same_flags (session s) (session s') ∧ contents (buffer (other d) (session s')) = [] ∧
    ∃ new, log s' = new ++ log s ∧
      delivered (fd_of d (session s)) new = contents (buffer (other d) (session s)).
Proof using KL.
  intros Hok Hfuel Hcon Hw (Hout & Hin & _). destruct (Hok (other d)) as [Hwf Hsz].
  unfold serve, read_side, gets. unfold mbind at 1, ST_bind at 1. unfold mbind at 1, ST_bind at 1.
  rewrite Hin, andb_false_r. unfold mret at 1, ST_ret at 1.
  unfold write_side, gets. unfold mbind at 1, ST_bind at 1. rewrite Hout. cbn [andb].
  destruct (empty (buffer (other d) (session s))) eqn:He; cbn [negb].
  { apply ByteBuffer.empty_spec in He; [|done]. exists s. rewrite He.
    split; [done|]. split; [done|]. split; [done|]. split; [done|]. by exists []. }
  destruct (writeFrom_ends n capacity fuel (fd_of d (session s)) (other d) false s Hok) as [Hn Hx].
  { eapply fuel_enough; [exact Hfuel|]. rewrite <- Hsz. by apply ByteBuffer.buffered_le_size. }
  destruct (writeFrom_io events fuel (other d) false s) as [Hio Hsf]; [by intros|].
  rewrite other_other in Hio, Hsf. unfold mbind, ST_bind, writeFrom.
  destruct (writeFrom_loop _ _ _ _ s) as [[r|e|] s1] eqn:Hr; cbn [fst snd] in *;
    [|by destruct (Hx e)|done].
  destruct (writeFrom_flushes capacity fuel (fd_of d (session s)) (other d) false s r s1 Hw Hok Hr)
    as (-> & Hemp & Hnew). exists s1. split; [done|].
  split; [by eapply io_steps_buffers|]. by split_and!.
Qed.

(** A side ends the session early only by failing. *)
Lemma serve_early fuel d events s b s' : serve fuel d events s = (Val (Some b), s') → b = false.
Proof using Type.
  assert (∀ s1, read_side fuel d events s1 = (Val (Some b), s') → b = false) as Hr.
  { unfold read_side. intros s1 H. bind_inv H. destruct (_ && _); [|done]. bind_inv H.
    destruct (decide _); [unfold fail in H; bind_inv H; by injection H|by bind_inv H]. }
  assert (∀ s1, write_side fuel d events s1 = (Val (Some b), s') → b = false) as Hw.
  { unfold write_side. intros s1 H. bind_inv H. destruct (_ && _); [|done]. bind_inv H.
    destruct (decide _); [unfold fail in H; bind_inv H; by injection H|done]. }
  unfold serve. intros H. bind_inv H. destruct a as [b'|]; [|by eapply Hw].
  injection H as -> ->. by eapply Hr.
Qed.

(** Whatever else the event brings, a session that goes on after it has sent
    all it had. *)
Lemma writable_drains capacity fuel d events i s s' :
  clientFd (session s) ≠ upstreamFd (session s) → buffers_ok capacity s →
  BackendPool.backend_ (backend_ (session s)) = Some i →
  closing_ (session s) = false → connected (session s) →
  willing (fd_of d (session s)) → has events EPOLLOUT = true →
  handleEvent fuel (fd_of d (session s)) events s = (Val true, s') →
  contents (buffer (other d) (session s')) = [].
Proof using KL.
  intros Hne Hok Hi Hcl Hcon Hw Hout Hr. rewrite (handleEvent_connected _ _ _ i) in Hr by done.
  destruct (has events EPOLLERR); [by do 2 bind_inv Hr|].
  apply bind_val in Hr as (c & s1 & Hg & Hr). injection Hg as <- <-.
  rewrite dispatched in Hr by done.
  replace (match d with Client => _ | Upstream => _ end) with (serve fuel d events) in Hr by by destruct d.
  apply bind_val in Hr as (early & s2 & Hs & Hr).
  destruct early as [b|]; [apply serve_early in Hs as ->; done|].
  cut (contents (buffer (other d) (session s2)) = []).
  { intros Hemp. apply bind_val in Hr as ([] & s3 & Hu & Hr).
    assert (∀ d', buffer d' (session s3) = buffer d' (session s2)) as Hb.
    { unfold updateHalfClose, gets, on_session, modify, sys_shutdown_wr, syscall, mbind, ST_bind,
        mret, ST_ret in Hu. repeat case_match; simplify_eq; by intros []. }
    apply bind_val in Hr as (c & s4 & Hg & Hr). injection Hg as <- <-.
    destruct (completed _); [by bind_inv Hr|]. injection Hr as <-. by rewrite Hb. }
  unfold serve in Hs. apply bind_val in Hs as (early & s1 & Hread & Hs).
  destruct early as [|]; [done|].
  pose proof (read_side_io events fuel d s) as Hio. rewrite Hread in Hio. specialize (Hio (λ _, Hcon)).
  pose proof (io_steps_buffers capacity _ _ _ Hok Hio) as Hok1.
  destruct (core_facts _ _ (io_steps_core _ _ _ Hio)) as [_ Hfd].
  unfold write_side in Hs. apply bind_val in Hs as (c & s3 & Hg & Hs). injection Hg as <- <-.
  rewrite Hout in Hs. cbn [andb] in Hs.
  destruct (empty (buffer (other d) (session s1))) eqn:He; cbn [negb] in Hs.
  { injection Hs as <-. apply ByteBuffer.empty_spec in He; [done|apply Hok1]. }
  apply bind_val in Hs as (r & s3 & Hwr & Hs). destruct (decide _) in Hs; [by unfold fail in Hs; bind_inv Hs|].
  injection Hs as <-. unfold writeFrom in Hwr. rewrite Hfd in Hwr.
  by eapply writeFrom_flushes in Hwr as (_ & ? & _).
Qed.
End flush.

(** C18: what is buffered goes out.  On a connected session whose peer takes
    data again, one event that says so sends the whole buffer, however many
    short or interrupted sends it takes; if the other stream was over, the peer
    is told, now that it has everything; and the session ends exactly when the
    backend is done and the client has got all of it. *)
Theorem writable_flushes {K : Kernel} {KL : KernelLaws K} n `{!FewInterrupts K n} capacity fuel d events i s :
  clientFd (session s) ≠ upstreamFd (session s) → buffers_ok capacity s →
  BackendPool.backend_ (backend_ (session s)) = Some i →
  closing_ (session s) = false → connected (session s) →
  Z.of_nat (n + 1) * (capacity + 1) <= Z.of_nat fuel →
  willing (fd_of d (session s)) → only_writable events →
  ∃ b s' new, handleEvent fuel (fd_of d (session s)) events s = (Val b, s') ∧
    log s' = new ++ log s ∧
    delivered (fd_of d (session s)) new = contents (buffer (other d) (session s)) ∧
    contents (buffer (other d) (session s')) = [] ∧
    (readClosed (other d) (session s) = true → told (other d) (session s') = true) ∧
    (b = false ↔ readClosed Upstream (session s) = true ∧ contents (upstreamToClient_ (session s')) = []).
Proof.
  intros Hne Hok Hi Hcl Hcon Hfuel Hw Hev. rewrite (handleEvent_connected _ _ _ i) by done.
  destruct Hev as (Hout & Hin & Herr). rewrite Herr. unfold gets. unfold mbind at 1, ST_bind at 1.
  rewrite dispatched by done. replace (match d with Client => _ | Upstream => _ end) with (serve fuel d events) by by destruct d.
  destruct (serve_flushes n capacity fuel d events s) as (s2 & Hs & Hok2 & Hsf & Hemp & new & Hl & Hd);
    [done..|]. unfold mbind at 1, ST_bind at 1. rewrite Hs.
  destruct (same_flags_facts _ _ Hsf) as (_ & Hrc & Hcon2 & _).
  destruct (updateHalfClose_ends capacity s2 Hok2) as (s3 & Hu & Hok3 & _).
  destruct (updateHalfClose_tells (other d) s2 s3) as (Hb3 & Hrc3 & Ht3 & new3 & Hl3 & Hd3);
    [intros _; by rewrite Hcon2|done|done|].
  unfold mbind at 1, ST_bind at 1. rewrite Hu. unfold mbind at 1, ST_bind at 1.
  assert (∀ v, (v = true ↔ completed (session s3) = true) → ∀ s', told (other d) (session s') = told (other d) (session s3) →
    (∀ d, buffer d (session s') = buffer d (session s3)) → log s' = log s3 →
    log s' = (new3 ++ new) ++ log s ∧
    delivered (fd_of d (session s)) (new3 ++ new) = contents (buffer (other d) (session s)) ∧
    contents (buffer (other d) (session s')) = [] ∧
    (readClosed (other d) (session s) = true → told (other d) (session s') = true) ∧
    (negb v = false ↔ readClosed Upstream (session s) = true ∧ contents (upstreamToClient_ (session s')) = [])) as Hend.
  { intros v Hv s' Ht Hb Hlog. split; [by rewrite Hlog, Hl3, Hl, app_assoc|].
    split; [by rewrite delivered_app, Hd3, app_nil_r|]. split; [by rewrite Hb, Hb3|]. split.
    - intros Hr. rewrite Ht. apply Ht3; [apply Hok2|by rewrite Hrc].
    - rewrite negb_false_iff, Hv. unfold completed. rewrite andb_true_iff.
      change (upstreamReadClosed_ (session s3)) with (readClosed Upstream (session s3)).
      change (upstreamToClient_ (session s')) with (buffer Upstream (session s')).
      rewrite Hrc3, Hrc, Hb. by rewrite ByteBuffer.empty_spec by apply (Hok3 Upstream). }
  destruct (completed (session s3)) eqn:Hcomp.
  - eexists false, _, (new3 ++ new). split; [done|]. apply (Hend true); [done|by destruct d|by intros []|done].
  - eexists true, s3, (new3 ++ new). split; [done|]. by apply (Hend false).
Qed.

(** The backend has answered with three bytes and closed; the client takes one
    byte at a time. *)
Definition one_by_one : script :=
  mkScript (sc_now quiet) (sc_recv quiet) (λ _ _, Ret 1) (sc_so_error quiet) (sc_socket_errno quiet)
    (sc_connect quiet) (sc_epoll_ctl quiet) (sc_epoll_wait quiet) (sc_wake_write quiet)
    (sc_poll quiet) (sc_addresses quiet) (sc_accept quiet).

#[local] Instance one_by_one_few : FewInterrupts (scripted one_by_one) 0.
Proof. by split. Qed.

Definition answered : env :=
  lived (K := scripted (replay [Ret [x63; x64; x65]; Ret []] [] [])) 1 5 6 false 0 8 "10.0.0.1:4242" 0
    Metrics.init (BackendPool.mkPool [Backend.sample "a" 1] 0) [] 9 [Handle 6 EPOLLIN].

Lemma writable_flushes_witness : ∃ s' new,
  handleEvent (K := scripted one_by_one) 9 5 EPOLLOUT answered = (Val false, s') ∧
  log s' = new ++ log answered ∧ delivered 5 new = [x63; x64; x65] ∧
  told Upstream (session s') = true.
Proof.
  destruct (writable_flushes (K := scripted one_by_one) 0 8 9 Client EPOLLOUT 0 answered)
    as (b & s' & new & Hh & Hl & Hd & Hc & Ht & Hb).
  - vm_compute. discriminate.
  - intros []; (split; [|vm_compute; reflexivity]); split; vm_compute; done.
  - vm_compute. reflexivity.
  - vm_compute. reflexivity.
  - vm_compute. reflexivity.
  - lia.
  - intros tr data Hne. cbn. destruct data; [done|]. cbn. lia.
  - split; [|split]; vm_compute; reflexivity.
  - assert (b = false) as -> by (apply Hb; split; [vm_compute; reflexivity|exact Hc]).
    exists s', new. split; [exact Hh|]. split; [exact Hl|].
    split; [transitivity (contents (buffer (other Client) (session answered)));
      [exact Hd|vm_compute; reflexivity]|]. apply Ht. vm_compute. reflexivity.
Defined.

End SessionFlush.
