(* ===== verification/Polls.v ===== *)
(** * What epoll has been asked to watch

    The interest set of an epoll instance, read off the history: a successful
    [epoll_ctl] sets the events a descriptor is polled for, and closing the
    descriptor takes it out.  The file says which code leaves the interest set
    alone: that of the network and of the sessions, up to the descriptors it
    opened itself. *)

From S2P Require Import Prelude Text Posix Streams ByteBuffer UniqueFd Metrics Config Net Backend BackendPool ProxySession SessionSteps SessionStream SessionEvents.
Local Open Scope Z_scope.

Module Polls.
Import ProxySession (ProxySession, fd_of).
Import SessionEvents (interest).
Import SessionSteps (io_step, io_steps).
Import Streams (got, sent, life).

(** The events [fd] is polled for, if it is. *)
Fixpoint polled (fd : Z) (tr : trace) : option Z :=
  match tr with
  | [] => None
  | EvEpollCtl op fd' events (Ret _) :: tr' =>
      if fd =? fd' then match op with EPOLL_CTL_DEL => None | _ => Some events end
      else polled fd tr'
  | EvClose fd' :: tr' => if fd =? fd' then None else polled fd tr'
  | _ :: tr' => polled fd tr'
  end.

(** Both ends of the session are polled for what it is interested in. *)
Definition told (c : ProxySession) (tr : trace) : Prop :=
  ∀ d, polled (fd_of d c) tr = Some (interest d c).

Lemma polled_set op fd events tr :
  op ≠ EPOLL_CTL_DEL → polled fd (EvEpollCtl op fd events (Ret tt) :: tr) = Some events.
Proof. intros Hop. cbn. rewrite Z.eqb_refl. by destruct op. Qed.

(** Two calls that went through tell epoll everything. *)
Lemma told_both op c tr :
  op ≠ EPOLL_CTL_DEL → ProxySession.clientFd c ≠ ProxySession.upstreamFd c →
  told c (EvEpollCtl op (ProxySession.upstreamFd c) (ProxySession.upstreamEvents c) (Ret tt) ::
    EvEpollCtl op (ProxySession.clientFd c) (ProxySession.clientEvents c) (Ret tt) :: tr).
Proof.
  intros Hop Hne []; cbn [fd_of interest]; [|by apply polled_set]. cbn [polled].
  destruct (Z.eqb_spec (ProxySession.clientFd c) (ProxySession.upstreamFd c)); [done|].
  rewrite Z.eqb_refl. by destruct op.
Qed.

(** ** Code that leaves descriptors alone *)

(** The descriptor whose registration a call may change. *)
Definition subject (e : event) : option Z :=
  match e with EvEpollCtl _ fd _ _ | EvClose fd => Some fd | _ => None end.

(** A call that registers no descriptor outside [X] and [Y], closes none
    outside [Y] and creates none. *)
Definition harmless (X Y : gset Z) (e : event) : Prop :=
  (∀ fd, subject e = Some fd → fd ∈ X ∪ Y) ∧ (∀ fd, e = EvClose fd → fd ∈ Y) ∧ opens e = None.

(** Traffic on [fd] has gone on. *)
Definition grown (fd : Z) (tr tr' : trace) : Prop :=
  got fd tr `prefix_of` got fd tr' ∧ sent fd tr `prefix_of` sent fd tr'.

#[export] Instance grown_preorder fd : PreOrder (grown fd).
Proof. split; [by split|]. intros t1 t2 t3 [? ?] [? ?]. split; by etrans. Qed.

Lemma grown_event fd e tr : opens e ≠ Some fd → grown fd tr (e :: tr).
Proof.
  intros He. unfold grown, got, sent. cbn [life]. rewrite decide_False by done.
  change (e :: ?l) with ([e] ++ l). rewrite received_app, delivered_app. split; by apply prefix_app_r.
Qed.

(** The open descriptors outside [Y] are still open and in use; those outside
    [X], too, are polled as before. *)
Definition spared (X Y : gset Z) (tr tr' : trace) : Prop :=
  ∀ fd, fd ∈ open_fds tr → fd ∉ Y →
    fd ∈ open_fds tr' ∧ grown fd tr tr' ∧ (fd ∉ X → polled fd tr' = polled fd tr).

#[export] Instance spared_preorder X Y : PreOrder (spared X Y).
Proof.
  split; [by intros tr fd Hfd _|]. intros t1 t2 t3 H12 H23 fd Hfd HY.
  destruct (H12 fd Hfd HY) as (Ho & Hg & Hp). destruct (H23 fd Ho HY) as (Ho' & Hg' & Hp').
  split; [done|]. split; [by etrans|]. intros HX. rewrite Hp' by done. by apply Hp.
Qed.

Lemma spared_mono X X' Y Y' tr tr' : X ⊆ X' → Y ⊆ Y' → spared X Y tr tr' → spared X' Y' tr tr'.
Proof.
  intros HX HY H fd Hfd Hn. destruct (H fd Hfd) as (Ho & Hg & Hp); [set_solver|].
  split; [done|]. split; [done|]. intros HX'. apply Hp. set_solver.
Qed.

(** What is done to descriptors opened meanwhile does not count. *)
Lemma spared_fresh X Y X' Y' t1 t2 t3 :
  spared X Y t1 t2 → spared X' Y' t2 t3 →
  (∀ fd, fd ∈ open_fds t1 → (fd ∈ X' → fd ∈ X ∪ Y) ∧ (fd ∈ Y' → fd ∈ Y)) → spared X Y t1 t3.
Proof.
  intros H12 H23 HXY fd Hfd HY. destruct (H12 fd Hfd HY) as (Ho & Hg & Hp).
  destruct (HXY fd Hfd) as [HX' HY']. destruct (H23 fd Ho) as (Ho' & Hg' & Hp'); [auto|].
  split; [done|]. split; [by etrans|]. intros HX. rewrite Hp' by set_solver. by apply Hp.
Qed.

Lemma polled_event fd e tr : subject e ≠ Some fd → polled fd (e :: tr) = polled fd tr.
Proof.
  intros Hs. destruct e as [| | | | |fd'| | | | | | | | | | | |op fd' ev [|]| | | |]; cbn in *; try done;
    (destruct (Z.eqb_spec fd fd') as [->|]; done).
Qed.

Lemma open_event fd e tr : fd ∈ open_fds tr → e ≠ EvClose fd → fd ∈ open_fds (e :: tr).
Proof.
  intros Hfd He. destruct e; cbn; try done; try (repeat case_match; set_solver).
Qed.

Lemma spared_event X Y e tr :
  (∀ fd, subject e = Some fd → fd ∈ X ∪ Y) → (∀ fd, e = EvClose fd → fd ∈ Y) →
  (∀ fd, opens e = Some fd → fd ∉ open_fds tr) → spared X Y tr (e :: tr).
Proof.
  intros Hs Hc Hn fd Hfd HY. split; [|split].
  - apply open_event; [done|]. intros E. by apply HY, Hc.
  - apply grown_event. intros E. by apply (Hn fd E).
  - intros HX. apply polled_event. intros E. specialize (Hs fd E). set_solver.
Qed.

Lemma spared_harmless X Y e tr : harmless X Y e → spared X Y tr (e :: tr).
Proof. intros (Hs & Hc & Ho). apply spared_event; [done..|]. intros fd. by rewrite Ho. Qed.

Lemma spared_told X Y c tr tr' :
  told c tr → spared X Y tr tr' →
  (∀ d, fd_of d c ∈ open_fds tr ∧ fd_of d c ∉ X ∧ fd_of d c ∉ Y) → told c tr'.
Proof.
  intros Ht Hs Hc d. destruct (Hc d) as (Ho & HX & HY).
  destruct (Hs _ Ho HY) as (_ & _ & ->); [apply Ht|done].
Qed.

Section spares.
Context {K : Kernel} {S : Type} `{LensLaws S trace}.

(** Whatever [m] ends with. *)
Definition spares {A} (X Y : gset Z) (m : ST S A) : Prop :=
  ∀ s, wp m (λ _ s', spared X Y (view s) (view s')) s.

Lemma spares_syscall {R} X Y (ask : trace → R) log :
  (∀ r, harmless X Y (log r)) → spares X Y (syscall ask log).
Proof using All.
  intros Hl s. apply wp_syscall. rewrite view_upd. apply spared_harmless, Hl.
Qed.

Lemma spares_ret {A} X Y (a : A) : spares X Y (mret a).
Proof using Type. by intros s. Qed.

Lemma spares_throw {A} X Y e : spares X Y (throw (A := A) e).
Proof using Type. by intros s. Qed.

Lemma spares_diverge {A} X Y : spares X Y (diverge (A := A)).
Proof using Type. by intros s. Qed.

Lemma spares_gets {A} X Y (f : S → A) : spares X Y (gets f).
Proof using Type. by intros s. Qed.

Lemma spares_modify X Y (f : S → S) : (∀ s, view (f s) = view s) → spares X Y (modify f).
Proof using Type. intros Hf s. apply wp_modify. by rewrite Hf. Qed.

Lemma spares_bind_at {A B} X Y (m : ST S A) (k : A → ST S B) s :
  wp m (λ _ s', spared X Y (view s) (view s')) s → (∀ a, spares X Y (k a)) →
  wp (m ≫= k) (λ _ s', spared X Y (view s) (view s')) s.
Proof using Type.
  intros Hm Hk. apply wp_bind. eapply wp_mono; [exact Hm|]. intros [a|e|] s1 H1; cbn; [|done..].
  eapply wp_mono; [apply Hk|]. intros o s2 H2. by etrans.
Qed.

Lemma spares_bind {A B} X Y (m : ST S A) (k : A → ST S B) :
  spares X Y m → (∀ a, spares X Y (k a)) → spares X Y (m ≫= k).
Proof using Type. intros Hm Hk s. by apply spares_bind_at. Qed.

Lemma spares_try_catch {A} X Y (m : ST S A) h :
  spares X Y m → (∀ e, spares X Y (h e)) → spares X Y (try_catch m h).
Proof using Type.
  intros Hm Hh s. apply wp_try_catch. eapply wp_mono; [apply Hm|].
  intros [a|e|] s1 H1; cbn; [done| |done]. eapply wp_mono; [apply Hh|]. intros o s2 H2. by etrans.
Qed.

Lemma spares_for_each {A} X Y (body : A → ST S unit) l :
  (∀ a, spares X Y (body a)) → spares X Y (for_each body l).
Proof using Type.
  intros Hb. induction l as [|a l IH]; [apply spares_ret|by apply spares_bind].
Qed.
End spares.

Create HintDb spares.

Ltac harmless := split; [|split]; [..|done]; intros ? [=]; set_solver.

(** One step of the structure; what is left are calls of other code. *)
Ltac spare :=
  repeat first
    [ solve [eauto with spares typeclass_instances]
    | apply spares_bind; [|intros ?] | apply spares_try_catch; [|intros ?]
    | apply spares_ret | apply spares_throw | apply spares_diverge | apply spares_gets
    | apply spares_modify; by intros ?
    | apply spares_for_each; intros ?
    | apply spares_syscall; intros ?; harmless
    | case_match ].

Section code.
Context {K : Kernel} {KL : KernelLaws K} {S : Type} `{LensLaws S trace}.

Lemma spares_close X Y fd : fd ∈ Y → spares (S := S) X Y (sys_close fd).
Proof using All. intros Hfd. unfold sys_close. spare. Qed.

Lemma spares_destroy X Y u :
  (0 <= UniqueFd.fd_ u → UniqueFd.fd_ u ∈ Y) → spares (S := S) X Y (UniqueFd.destroy u).
Proof using All.
  intros Hu. unfold UniqueFd.destroy, UniqueFd.reset.
  destruct (Z.leb_spec 0 (UniqueFd.fd_ u)); [|spare].
  apply spares_bind; [|intros ?; apply spares_ret].
  apply spares_bind; [apply spares_close; auto|intros ?; apply spares_ret].
Qed.

(** A scope that hands its descriptor over, or closes it. *)
Lemma spares_scoped {A} raw (body : ST S (A * UniqueFd.UniqueFd)) :
  spares ∅ {[raw]} body →
  (∀ s a u' s', body s = (Val (a, u'), s') → u' = UniqueFd.mkUniqueFd (-1)) →
  spares ∅ {[raw]} (Net.scoped (UniqueFd.mkUniqueFd raw) body).
Proof using All.
  intros Hb Hu. unfold Net.scoped. apply spares_try_catch.
  - intros s. apply wp_bind. specialize (Hb s). specialize (Hu s). unfold wp, bind_post in *.
    destruct (body s) as [[[a u']|e|] s1]; cbn [fst snd] in *; [|done..].
    by rewrite (Hu a u' s1 eq_refl).
  - intros e. apply spares_bind; [|intros ?; apply spares_throw].
    apply spares_destroy. cbn. set_solver.
Qed.

Lemma spares_connect endpoint : spares (S := S) ∅ ∅ (Net.connectNonBlocking endpoint).
Proof using All.
  intros s. unfold Net.connectNonBlocking. apply wp_bind, wp_syscall. cbn [bind_post].
  destruct (k_socket (view s) (ss_family (Net.address endpoint))) as [raw|e] eqn:Hk.
  - apply socket_fresh in Hk as [_ Hf]. set (s1 := upd _ s).
    assert (spares (S := S) ∅ {[raw]} (Net.connect_body endpoint (UniqueFd.mkUniqueFd raw))) as Hb.
    { unfold Net.connect_body, Net.setCloseOnExec, Net.setNonBlocking, Net.setTcpNoDelay,
        Net.systemError, sys_fcntl, sys_setsockopt, sys_connect. spare. }
    eapply wp_mono; [apply (spares_scoped raw (Net.connect_body endpoint _) Hb)|].
    { intros s2 c u' s' Hc. by apply Net.connect_body_val in Hc as (? & ? & _). }
    intros o s2 H2. eapply (spared_fresh _ _ ∅ {[raw]}); [|exact H2|set_solver].
    unfold s1. rewrite view_upd. apply spared_event; [done..|]. by intros fd [= <-].
  - apply wp_throw. rewrite view_upd. by apply spared_event.
Qed.
End code.

(** The event handler registers nothing and closes nothing. *)
Lemma io_steps_spared {K : Kernel} {KL : KernelLaws K} events s s' :
  io_steps events s s' → spared ∅ ∅ (ProxySession.log s) (ProxySession.log s').
Proof.
  induction 1 as [|s1 s2 s3 H12 _ IH]; [done|]. etrans; [|exact IH].
  destruct (SessionStream.io_step_calls events s1 s2 H12) as (evs & -> & Hp). clear H12 IH.
  induction evs as [|e evs IHe]; [done|]. etrans; [apply IHe; intros e' He'; apply Hp; set_solver|].
  specialize (Hp e ltac:(set_solver)). apply spared_harmless. split; [|split]; [intros ?|intros ?|]; by destruct e.
Qed.

End Polls.
