(* ===== verification/Acceptor.v ===== *)
(** * One client at the door ([src/main.cpp])

    The body of the inner accept loop of [main]: take a connection off the
    listening socket, configure it, hand it to a worker.  What handing over
    means is a parameter: [Worker] instantiates it with its own queue, [Main]
    with the choice among the workers. *)

From S2P Require Import Prelude Text Posix Metrics Net.
Local Open Scope Z_scope.

Module Acceptor.

Section accept.
Context `{K : Kernel} {S : Type} `{Lens S trace} `{Lens S Metrics.Metrics}.
Context (hand_over : Z → string → ST S bool).

Definition on_metrics (f : Metrics.Metrics → Metrics.Metrics) : ST S unit :=
  modify (λ s, upd (f (view s)) s).

(** A client that no worker takes. *)
Definition turn_away (clientFd : Z) : ST S unit :=
  sys_close clientFd ;; on_metrics Metrics.onRejected.

(** One turn of the loop: [true] is [continue], [false] is [break]. *)
Definition accept_turn (listenFd : Z) : ST S bool :=
  r ← sys_accept listenFd;
  match r with
  | Fail errno =>
      if (errno =? EAGAIN) || (errno =? EWOULDBLOCK) then mret false
      else if errno =? EINTR then mret true
      else mret false
  | Ret (clientFd, address) =>
      on_metrics Metrics.onAccepted ;;
      configured ← try_catch (Net.setTcpNoDelay clientFd ;; mret true)
        (λ _, turn_away clientFd ;; mret false);
      if negb configured then mret true
      else
        taken ← hand_over clientFd (Net.peerAddress address);
        (if negb taken then turn_away clientFd else mret tt) ;;
        mret true
  end.
End accept.

(** ** The turn for any owner of clients *)

(** What the code around must keep: [holding fd], while the acceptor has the
    client and nobody else does; [after] the turn, which says whether the loop
    goes on. *)
Section contract.
Context `{K : Kernel} {S : Type} `{LensLaws S trace} `{Lens S Metrics.Metrics}.
Context (hand_over : Z → string → ST S bool) (listenFd : Z).
Context (holding : Z → S → Prop) (after : bool → S → Prop).

Lemma accept_turn_spec s :
  (∀ fd a, k_accept (view s) listenFd = Ret (fd, a) →
    runs (on_metrics Metrics.onAccepted) (λ _, holding fd)
      (upd (EvAccept listenFd (Ret (fd, a)) :: view s) s)) →
  (∀ e, k_accept (view s) listenFd = Fail e →
    after (negb ((e =? EAGAIN) || (e =? EWOULDBLOCK)) && (e =? EINTR))
      (upd (EvAccept listenFd (Fail e) :: view s) s)) →
  (∀ fd s r, holding fd s →
    holding fd (upd (EvSetsockopt fd IPPROTO_TCP TCP_NODELAY r :: view s) s)) →
  (∀ fd addr s, holding fd s →
    runs (hand_over fd addr) (λ b s', if b : bool then after true s' else holding fd s') s) →
  (∀ fd s, holding fd s → runs (turn_away fd) (λ _, after true) s) →
  runs (accept_turn hand_over listenFd) after s.
Proof using All.
  intros Haccepted Hnobody Hconfigured Hhanded Hturned. unfold accept_turn. apply runs_bind.
  set (r := k_accept (view s) listenFd) in *.
  exists r, (upd (EvAccept listenFd r :: view s) s). split; [done|].
  destruct r as [[fd a]|e].
  - apply runs_bind. eapply runs_mono; [by apply Haccepted|]. intros [] s1 Hs1.
    set (q := k_setsockopt (view s1) fd IPPROTO_TCP TCP_NODELAY).
    set (s2 := upd (EvSetsockopt fd IPPROTO_TCP TCP_NODELAY q :: view s1) s1).
    assert (holding fd s2) as Hs2 by by apply Hconfigured.
    assert (Net.setTcpNoDelay fd s1 = (match q with Ret _ => Val tt | Fail e =>
      Exn ("setsockopt(TCP_NODELAY) failed: " +:+ k_strerror e) end, s2)) as Hset.
    { unfold Net.setTcpNoDelay, mbind, ST_bind. subst s2. unfold sys_setsockopt, syscall.
      fold q. by destruct q. }
    apply runs_bind, (runs_catch _ _ _ (holding fd)).
    + unfold mbind at 1, ST_bind at 1. rewrite Hset. destruct q as [u|e]; [|done]. cbn [negb].
      apply runs_bind. eapply runs_mono; [by apply Hhanded|].
      intros [] s3 Hs3; cbn [negb]; apply runs_bind; [by do 2 apply runs_ret|].
      eapply runs_mono; [by apply Hturned|]. intros [] s4 Hs4. by apply runs_ret.
    + intros _ s3 Hs3. apply runs_bind. eapply runs_mono; [by apply Hturned|].
      intros [] s4 Hs4. by do 2 apply runs_ret.
  - specialize (Hnobody e eq_refl). revert Hnobody.
    destruct ((e =? EAGAIN) || (e =? EWOULDBLOCK)); [by intros; apply runs_ret|].
    by destruct (e =? EINTR); intros; apply runs_ret.
Qed.
End contract.

End Acceptor.
