(* ===== verification/Worker.v ===== *)
(** * Workers ([include/fluxgate/Worker.h], [src/Worker.cpp])

    One epoll reactor: the queue of accepted clients, the two maps of
    sessions, and the loop that serves them.  A [shared_ptr<ProxySession>] is
    a key of [heap]; a session is destroyed when the last reference goes, which
    the model decides where a local reference ends ([drop]).  Using a pointer
    that is not in the heap is the outcome [Exn "use after free"], which the
    theorems exclude. *)

From S2P Require Import Prelude Text Posix ByteBuffer UniqueFd Metrics Config Net Backend BackendPool ProxySession Acceptor.
Local Open Scope Z_scope.

Module Worker.
Import UniqueFd (UniqueFd, mkUniqueFd, get).
Import BackendPool (BackendPool, BackendLease).
Import ProxySession (ProxySession, mkEnv, on_lease).

Record AcceptedClient := mkClient {
  fd : Z;
  address : string
}.

Record Worker := mkWorker {
  index_ : Z;
  config_ : Config.AppConfig;
  epollFd_ : UniqueFd;
  wakeFd_ : UniqueFd;
  running_ : bool;
  thread_ : bool;                    (* [thread_.joinable()] *)
  queue_ : list AcceptedClient;      (* front first *)
  fdToSession_ : gmap Z nat;
  sessions_ : gmap Z nat;
  activeSessions_ : Z;
  nextSessionId_ : Z
}.

(** The worker, the sessions it points to, and what it shares. *)
Record env := mkWenv {
  worker : Worker;
  heap : gmap nat ProxySession;
  metrics : Metrics.Metrics;
  pool : BackendPool;
  log : trace
}.

#[export] Instance env_log : Lens env trace := {|
  view := log; upd t s := mkWenv (worker s) (heap s) (metrics s) (pool s) t
|}.
#[export] Instance env_log_laws : LensLaws env trace.
Proof. split; [done|by intros []|done]. Qed.
#[export] Instance env_pool : Lens env BackendPool := {|
  view := pool; upd p s := mkWenv (worker s) (heap s) (metrics s) p (log s)
|}.
#[export] Instance env_pool_laws : LensLaws env BackendPool.
Proof. split; [done|by intros []|done]. Qed.

#[export] Instance env_metrics : Lens env Metrics.Metrics := {|
  view := metrics; upd m s := mkWenv (worker s) (heap s) m (pool s) (log s)
|}.
#[export] Instance env_metrics_laws : LensLaws env Metrics.Metrics.
Proof. split; [done|by intros []|done]. Qed.

(** ** Assignments *)

Definition set_running v w := mkWorker (index_ w) (config_ w) (epollFd_ w) (wakeFd_ w) v
  (thread_ w) (queue_ w) (fdToSession_ w) (sessions_ w) (activeSessions_ w) (nextSessionId_ w).
Definition set_thread v w := mkWorker (index_ w) (config_ w) (epollFd_ w) (wakeFd_ w)
  (running_ w) v (queue_ w) (fdToSession_ w) (sessions_ w) (activeSessions_ w)
  (nextSessionId_ w).
Definition set_queue v w := mkWorker (index_ w) (config_ w) (epollFd_ w) (wakeFd_ w)
  (running_ w) (thread_ w) v (fdToSession_ w) (sessions_ w) (activeSessions_ w)
  (nextSessionId_ w).
Definition set_fdToSession v w := mkWorker (index_ w) (config_ w) (epollFd_ w) (wakeFd_ w)
  (running_ w) (thread_ w) (queue_ w) v (sessions_ w) (activeSessions_ w) (nextSessionId_ w).
Definition set_sessions v w := mkWorker (index_ w) (config_ w) (epollFd_ w) (wakeFd_ w)
  (running_ w) (thread_ w) (queue_ w) (fdToSession_ w) v (activeSessions_ w)
  (nextSessionId_ w).
Definition set_activeSessions v w := mkWorker (index_ w) (config_ w) (epollFd_ w)
  (wakeFd_ w) (running_ w) (thread_ w) (queue_ w) (fdToSession_ w) (sessions_ w) v
  (nextSessionId_ w).
Definition set_nextSessionId v w := mkWorker (index_ w) (config_ w) (epollFd_ w)
  (wakeFd_ w) (running_ w) (thread_ w) (queue_ w) (fdToSession_ w) (sessions_ w)
  (activeSessions_ w) v.

Definition on_worker (f : Worker → Worker) : ST env unit :=
  modify (λ s, mkWenv (f (worker s)) (heap s) (metrics s) (pool s) (log s)).
Definition on_metrics (f : Metrics.Metrics → Metrics.Metrics) : ST env unit :=
  modify (λ s, mkWenv (worker s) (heap s) (f (metrics s)) (pool s) (log s)).
Definition on_heap (f : gmap nat ProxySession → gmap nat ProxySession) : ST env unit :=
  modify (λ s, mkWenv (worker s) (f (heap s)) (metrics s) (pool s) (log s)).

(** ** Shared pointers *)

(** Dereferencing. *)
Definition deref (p : nat) : ST env ProxySession := λ s,
  match heap s !! p with
  | Some c => (Val c, s)
  | None => (Exn "use after free", s)
  end.

(** A member function of [*p]. *)
Definition call {A} (p : nat) (m : ST ProxySession.env A) : ST env A := λ s,
  match heap s !! p with
  | Some c =>
      let '(o, e) := m (mkEnv c (metrics s) (pool s) (log s)) in
      (o, mkWenv (worker s) (<[p := ProxySession.session e]> (heap s))
            (ProxySession.metrics e) (ProxySession.pool e) (ProxySession.log e))
  | None => (Exn "use after free", s)
  end.

(** [std::make_shared<ProxySession>(...)]. *)
Definition make_shared (m : ST env ProxySession) : ST env nat :=
  c ← m;
  p ← gets (λ s, fresh (dom (heap s)));
  on_heap <[p := c]> ;;
  mret p.

Definition referenced (p : nat) (w : Worker) : bool :=
  bool_decide (p ∈ (map_to_list (sessions_ w)).*2) ||
  bool_decide (p ∈ (map_to_list (fdToSession_ w)).*2).

(** The end of a local reference: the session goes with its last reference. *)
Definition drop (p : nat) : ST env unit :=
  s ← gets (λ s, s);
  if referenced p (worker s) then mret tt
  else
    c ← deref p;
    on_heap (delete p) ;;
    ProxySession.destroy c.

(** The order in which a range-for visits an [unordered_map]: some order of
    its values, fixed by the run so far. *)
Class MapOrder := {
  visit : trace → gmap Z nat → list nat;
  visit_all : ∀ tr m, visit tr m ≡ₚ (map_to_list m).*2
}.

Section worker.
Context `{K : Kernel} `{MO : MapOrder}.

Definition epollError {A} (action : string) (errno : Z) : ST env A :=
  throw (action +:+ ": " +:+ k_strerror errno).

(** ** epoll registration *)

Definition registerFd (fd events : Z) : ST env unit :=
  r ← sys_epoll_ctl EPOLL_CTL_ADD fd events;
  match r with
  | Fail e => epollError "epoll_ctl(ADD) failed" e
  | Ret _ => mret tt
  end.

Definition modifyFd (fd events : Z) : ST env unit :=
  r ← sys_epoll_ctl EPOLL_CTL_MOD fd events;
  match r with
  | Fail e => epollError "epoll_ctl(MOD) failed" e
  | Ret _ => mret tt
  end.

Definition unregisterFd (fd : Z) : ST env unit :=
  if 0 <=? fd then _ ← sys_epoll_ctl EPOLL_CTL_DEL fd 0; mret tt else mret tt.

Definition updateInterests (p : nat) : ST env unit :=
  c ← deref p;
  modifyFd (ProxySession.clientFd c) (ProxySession.clientEvents c) ;;
  c ← deref p;
  modifyFd (ProxySession.upstreamFd c) (ProxySession.upstreamEvents c).

(** ** Sessions *)

(** [createSession] from the construction of the session on. *)
Definition admit_client (client : AcceptedClient) (result : Net.ConnectResult)
    (backend : BackendLease) : ST env unit :=
  sessionId ← gets (λ s, nextSessionId_ (worker s));
  on_worker (set_nextSessionId (u64 (sessionId + 1))) ;;
  size ← gets (λ s, Config.bufferSize (config_ (worker s)));
  session ← make_shared (ProxySession.construct sessionId (fd client) (Net.fd result)
              (Net.connecting result) backend size (address client));
  registered ← try_catch (
      c ← deref session;
      registerFd (ProxySession.clientFd c) (ProxySession.clientEvents c) ;;
      c ← deref session;
      registerFd (ProxySession.upstreamFd c) (ProxySession.upstreamEvents c) ;;
      mret true)
    (λ _,
      c ← deref session;
      unregisterFd (ProxySession.clientFd c) ;;
      unregisterFd (ProxySession.upstreamFd c) ;;
      on_metrics Metrics.onRejected ;;
      mret false);
  (if registered : bool then
     c ← deref session;
     on_worker (λ w, set_fdToSession
       (<[ProxySession.clientFd c := session]> (fdToSession_ w)) w) ;;
     on_worker (λ w, set_fdToSession
       (<[ProxySession.upstreamFd c := session]> (fdToSession_ w)) w) ;;
     on_worker (λ w, set_sessions (<[sessionId := session]> (sessions_ w)) w) ;;
     on_worker (λ w, set_activeSessions (u64 (activeSessions_ w + 1)) w) ;;
     on_metrics Metrics.onOpened
   else mret tt) ;;
  drop session.

Definition createSession (client : AcceptedClient) : ST env unit :=
  backend ← BackendPool.acquire;
  if negb (BackendPool.valid backend) then
    on_metrics Metrics.onRejected ;;
    sys_close (fd client) ;;
    BackendPool.destroy backend
  else
    s ← gets (λ s, s);
    match BackendPool.backend_ backend ≫= λ i, BackendPool.backends_ (pool s) !! i with
    | None => throw "null backend"
    | Some node =>
        result ← try_catch (r ← Net.connectNonBlocking (Backend.endpoint node); mret (Some r))
          (λ _,
            on_lease backend Backend.recordConnectFailure ;;
            on_metrics Metrics.onConnectFailure ;;
            on_metrics Metrics.onRejected ;;
            sys_close (fd client) ;;
            BackendPool.destroy backend ;;
            mret None);
        match result with
        | None => mret tt
        | Some result =>
            (* std::move(backend): the local is left empty *)
            admit_client client result backend
        end
    end.

Definition closeSession (p : nat) : ST env unit :=
  c ← deref p;
  let id := ProxySession.id c in
  w ← gets worker;
  match sessions_ w !! id with
  | None => mret tt
  | Some _ =>
      unregisterFd (ProxySession.clientFd c) ;;
      unregisterFd (ProxySession.upstreamFd c) ;;
      on_worker (λ w, set_fdToSession
        (delete (ProxySession.clientFd c) (fdToSession_ w)) w) ;;
      on_worker (λ w, set_fdToSession
        (delete (ProxySession.upstreamFd c) (fdToSession_ w)) w) ;;
      on_worker (λ w, set_sessions (delete id (sessions_ w)) w) ;;
      on_worker (λ w, set_activeSessions (u64 (activeSessions_ w - 1)) w) ;;
      on_metrics Metrics.onClosed
  end.

(** The scan of [sweepIdleSessions]: the expired sessions among [ps]. *)
Fixpoint expired_among (ps : list nat) : ST env (list nat) :=
  match ps with
  | [] => mret []
  | p :: ps' =>
      w ← gets worker;
      c ← deref p;
      timedOut ← ProxySession.connectTimedOut
        (Config.connectTimeoutMs (config_ w)) c;
      if timedOut : bool then
        c ← deref p;
        on_lease (ProxySession.backend_ c) Backend.recordConnectFailure ;;
        on_metrics Metrics.onConnectFailure ;;
        rest ← expired_among ps'; mret (p :: rest)
      else
        c ← deref p;
        idle ← ProxySession.idleFor (Config.idleTimeoutSeconds (config_ w)) c;
        rest ← expired_among ps';
        mret (if idle : bool then p :: rest else rest)
  end.

Definition sweepIdleSessions : ST env unit :=
  s ← gets (λ s, s);
  expired ← expired_among (visit (log s) (sessions_ (worker s)));
  for_each closeSession expired ;;
  for_each drop expired.

(** ** The queue *)

Definition enqueue (clientFd : Z) (addr : string) : ST env bool :=
  w ← gets worker;
  if negb (running_ w) then mret false
  else
    let queueLimit := u64 (Config.backlog (config_ w) * 4) in
    if queueLimit <=? Z.of_nat (length (queue_ w)) then mret false
    else
      on_worker (λ w, set_queue (queue_ w ++ [mkClient clientFd addr]) w) ;;
      result ← sys_wake_write (get (wakeFd_ w));
      mret (match result with Ret _ => true | Fail e => e =? EAGAIN end).

(** The loop of [drainQueue] over the clients it swapped out. *)
Fixpoint drain (local : list AcceptedClient) : ST env unit :=
  match local with
  | [] => mret tt
  | client :: local' =>
      running ← gets (λ s, running_ (worker s));
      (if negb running then sys_close (fd client) else createSession client) ;;
      drain local'
  end.

Definition drainQueue : ST env unit :=
  local ← gets (λ s, queue_ (worker s));
  on_worker (set_queue []) ;;
  drain local.

(** [while (read(wakeFd_, ...) > 0) {}]. *)
Fixpoint clear_wake (fuel : nat) : ST env unit :=
  match fuel with
  | O => diverge
  | S fuel' =>
      w ← gets worker;
      r ← sys_wake_read (get (wakeFd_ w));
      match r with
      | Ret n => if 0 <? n then clear_wake fuel' else mret tt
      | Fail _ => mret tt
      end
  end.

(** ** The loop *)

(** One element of the batch [epoll_wait] returned. *)
Definition handle_one (fuel : nat) (ev : Z * Z) : ST env unit :=
  let '(fd, events) := ev in
  w ← gets worker;
  if fd =? get (wakeFd_ w) then clear_wake fuel ;; drainQueue
  else
    match fdToSession_ w !! fd with
    | None => mret tt
    | Some p =>
        c ← deref p;
        if ProxySession.closing c then mret tt
        else
          keep ← call p (ProxySession.handleEvent fuel fd events);
          (if negb keep then call p (ProxySession.on_session ProxySession.markClosing)
           else
             try_catch (updateInterests p)
               (λ _, call p (ProxySession.on_session ProxySession.markClosing))) ;;
          drop p
    end.

(** The closing sessions among [ps], in order. *)
Fixpoint closing_among (ps : list nat) : ST env (list nat) :=
  match ps with
  | [] => mret []
  | p :: ps' =>
      c ← deref p;
      rest ← closing_among ps';
      mret (if ProxySession.closing c then p :: rest else rest)
  end.

(** The body of the loop of [run] after [epoll_wait] returned [batch]; the
    vector [closing] is destroyed last. *)
Definition turn (fuel : nat) (batch : list (Z * Z)) (lastSweep : Z) : ST env Z :=
  for_each (handle_one fuel) batch ;;
  s ← gets (λ s, s);
  closing ← closing_among (visit (log s) (sessions_ (worker s)));
  for_each closeSession closing ;;
  now ← sys_now;
  lastSweep ← (if 10 ^ 9 <=? now - lastSweep then sweepIdleSessions ;; mret now
               else mret lastSweep);
  for_each drop closing ;;
  mret lastSweep.

Definition stop : ST env unit :=
  w ← gets worker;
  on_worker (set_running false) ;;
  if running_ w then _ ← sys_wake_write (get (wakeFd_ w)); mret tt else mret tt.

(** What the main thread does meanwhile: it lets in a client, when this
    worker is the one selected for it, or stops the worker. *)
Inductive request := Arrive | Stop.

#[export] Instance request_eq_dec : EqDecision request.
Proof using Type. solve_decision. Defined.

Definition serve_request (listenFd : Z) (r : request) : ST env unit :=
  match r with
  | Arrive => _ ← Acceptor.accept_turn enqueue listenFd; mret tt
  | Stop => stop
  end.

(** One [epoll_wait] with the turn it leads to; [None] leaves the loop. *)
Definition wait_and_serve (fuel : nat) (lastSweep : Z) : ST env (option Z) :=
  w ← gets worker;
  r ← sys_epoll_wait (Config.maxEvents (config_ w));
  match r with
  | Fail e => mret (if e =? EINTR then Some lastSweep else None)
  | Ret batch => lastSweep ← turn fuel batch lastSweep; mret (Some lastSweep)
  end.

(** The [while] of [run].  Each element of [requests] is what the other
    thread does before an [epoll_wait] returns; they bound the number of
    turns.  The result is what it has not done when the loop is left. *)
Fixpoint run_loop (fuel : nat) (listenFd : Z) (requests : list (list request)) (lastSweep : Z) :
    ST env (list (list request)) :=
  w ← gets worker;
  if negb (running_ w) then mret requests
  else
    match requests with
    | [] => diverge
    | rs :: requests' =>
        for_each (serve_request listenFd) rs ;;
        next ← wait_and_serve fuel lastSweep;
        match next with
        | Some lastSweep => run_loop fuel listenFd requests' lastSweep
        | None => mret requests'
        end
    end.

(** [while (!queue_.empty()) { close(front); pop(); }]. *)
Fixpoint close_all (q : list AcceptedClient) : ST env unit :=
  match q with
  | [] => mret tt
  | client :: q' =>
      sys_close (fd client) ;;
      on_worker (set_queue q') ;;
      close_all q'
  end.

(** After the loop. *)
Definition shut_down : ST env unit :=
  drainQueue ;;
  q ← gets (λ s, queue_ (worker s));
  close_all q ;;
  s ← gets (λ s, s);
  let remaining := visit (log s) (sessions_ (worker s)) in
  for_each closeSession remaining ;;
  for_each drop remaining.

(** The result is what the other thread does once this one is gone. *)
Definition run (fuel : nat) (listenFd : Z) (requests : list (list request)) :
    ST env (list (list request)) :=
  lastSweep ← sys_now;
  left ← run_loop fuel listenFd requests lastSweep;
  shut_down ;;
  mret left.

(** ** The thread as seen from outside *)

(** Where the thread is in [run]: before its first instruction, at the test
    of the [while], or gone. *)
Inductive position := Starting | Looping (lastSweep : Z) | Ended.

(** What the thread does from there until it next looks at [running_]. *)
Definition step (fuel : nat) (at_ : position) : ST env position :=
  match at_ with
  | Starting => lastSweep ← sys_now; mret (Looping lastSweep)
  | Looping lastSweep =>
      w ← gets worker;
      next ← (if running_ w then wait_and_serve fuel lastSweep else mret None);
      match next with
      | Some lastSweep => mret (Looping lastSweep)
      | None => shut_down ;; mret Ended
      end
  | Ended => mret Ended
  end.

(** ** Construction and control *)

Definition start : ST env unit :=
  w ← gets worker;
  on_worker (set_running true) ;;
  if running_ w then mret tt
  else if thread_ w then throw "std::terminate"
  else std_thread ;; on_worker (set_thread true).

(** [thread_.join()] returns when [run] has. *)
Definition join : ST env unit :=
  w ← gets worker;
  if thread_ w then on_worker (set_thread false) else mret tt.

(** [~Worker()]. *)
Definition destroy : ST env unit := stop ;; join.

(** After it the members, last declared first: the sessions that only the
    maps still referred to go, then the descriptors. *)
Definition destroy_members : ST env unit :=
  s ← gets (λ s, s);
  let left := visit (log s) (sessions_ (worker s)) in
  on_worker (set_sessions ∅) ;;
  on_worker (set_fdToSession ∅) ;;
  for_each drop left ;;
  on_worker (set_queue []) ;;
  UniqueFd.destroy (wakeFd_ (worker s)) ;;
  UniqueFd.destroy (epollFd_ (worker s)).
End worker.

(** The constructor; if it throws, the descriptors it holds are closed. *)
Definition construct `{K : Kernel} {S} `{Lens S trace} (index : Z) (config : Config.AppConfig) :
    ST S Worker :=
  r1 ← sys_epoll_create;
  r2 ← sys_eventfd;
  let raw r := match r with Ret fd => fd | Fail _ => -1 end in
  let epollFd := mkUniqueFd (raw r1) in
  let wakeFd := mkUniqueFd (raw r2) in
  try_catch (
    match r1, r2 with
    | Fail e, Ret _ | Fail _, Fail e =>
        throw ("epoll_create1 failed: " +:+ k_strerror e)
    | _, Fail e => throw ("eventfd failed: " +:+ k_strerror e)
    | Ret _, Ret wake =>
        r ← sys_epoll_ctl EPOLL_CTL_ADD wake EPOLLIN;
        match r with
        | Fail e => throw ("epoll_ctl(ADD) failed: " +:+ k_strerror e)
        | Ret _ =>
            mret (mkWorker index config epollFd wakeFd false false [] ∅ ∅ 0 1)
        end
    end)
    (λ e, UniqueFd.destroy wakeFd ;; UniqueFd.destroy epollFd ;; throw e).

End Worker.
