(* ===== verification/WorkerTrace.v ===== *)
(** * What a worker adds to the history

    Everything a worker does keeps what [Traces] calls lasting: the times the
    clock has shown, and the number of clients accepted. *)

From S2P Require Import Prelude Text Posix ByteBuffer UniqueFd Metrics Config Net Backend BackendPool ProxySession Traces Worker.
Local Open Scope Z_scope.

Module WorkerTrace.
#[local] Existing Instances ProxySession.env_log ProxySession.env_log_laws ProxySession.env_pool.
Import Traces Worker.

Section worker.
Context `{K : Kernel} {MO : MapOrder} (P : trace → Prop) `{!Lasting P}.

Lemma keeps_deref p : keeps P (deref p).
Proof using Type. intros s Hs. unfold deref. by destruct (heap s !! p). Qed.

Lemma keeps_call {A} p (m : ST ProxySession.env A) : keeps P m → keeps P (call p m).
Proof using Type.
  intros Hm s Hs. unfold call. destruct (heap s !! p) as [c|]; [|done].
  set (e := ProxySession.mkEnv _ _ _ _). specialize (Hm e Hs). by destruct (m e).
Qed.

#[local] Hint Resolve keeps_deref keeps_call : keeps.

Lemma keeps_drop p : keeps P (drop p).
Proof using All.
  unfold drop, on_heap, ProxySession.destroy, BackendPool.destroy, BackendPool.reset. keep.
Qed.

Lemma keeps_closeSession p : keeps P (closeSession p).
Proof using All.
  unfold closeSession, unregisterFd, on_worker, on_metrics, sys_epoll_ctl. keep.
Qed.

Lemma keeps_admit client result backend : keeps P (admit_client client result backend).
Proof using All.
  pose proof keeps_drop.
  unfold admit_client, make_shared, ProxySession.construct, ProxySession.on_lease, registerFd,
    unregisterFd, epollError, on_worker, on_metrics, on_heap, sys_now, sys_epoll_ctl.
  keep.
Qed.

Lemma keeps_createSession client : keeps P (createSession client).
Proof using All.
  pose proof keeps_admit.
  unfold createSession, BackendPool.acquire, BackendPool.lease, BackendPool.destroy,
    BackendPool.reset, ProxySession.on_lease, on_metrics.
  keep.
Qed.

Lemma keeps_drainQueue : keeps P drainQueue.
Proof using All.
  pose proof keeps_createSession. unfold drainQueue, on_worker.
  assert (∀ local, keeps P (drain local)) as Hd
    by (induction local as [|client local IH]; cbn [drain]; keep).
  keep.
Qed.

Lemma keeps_sweep : keeps P sweepIdleSessions.
Proof using All.
  pose proof keeps_closeSession. pose proof keeps_drop.
  assert (∀ ps, keeps P (expired_among ps)) as He.
  { unfold ProxySession.on_lease. induction ps as [|p ps IH]; cbn [expired_among];
      unfold ProxySession.connectTimedOut, ProxySession.idleFor, ProxySession.on_lease,
        on_metrics, sys_now; keep. }
  unfold sweepIdleSessions. keep.
Qed.

Lemma keeps_handle_one fuel ev : keeps P (handle_one fuel ev).
Proof using All.
  pose proof keeps_drop. pose proof keeps_drainQueue.
  assert (∀ n, keeps P (clear_wake n)) as Hc
    by (induction n as [|n IH]; cbn [clear_wake]; unfold sys_wake_read; keep).
  destruct ev as [fd events]. unfold handle_one, updateInterests, modifyFd, epollError,
    ProxySession.on_session, sys_epoll_ctl.
  keep; apply keeps_call; by intros ? ?.
Qed.

Lemma keeps_turn fuel batch lastSweep : keeps P (turn fuel batch lastSweep).
Proof using All.
  pose proof keeps_drop. pose proof keeps_closeSession.
  pose proof keeps_handle_one. pose proof keeps_sweep.
  assert (∀ ps, keeps P (closing_among ps)) as Hc
    by (induction ps as [|p ps IH]; cbn [closing_among]; keep).
  unfold turn, sys_now. keep.
Qed.

Lemma keeps_shut_down : keeps P shut_down.
Proof using All.
  pose proof keeps_drainQueue. pose proof keeps_drop. pose proof keeps_closeSession.
  assert (∀ q, keeps P (close_all q)) as Hc
    by (induction q as [|c q IH]; cbn [close_all]; unfold on_worker; keep).
  unfold shut_down. keep.
Qed.

Lemma keeps_step fuel at_ : keeps P (step fuel at_).
Proof using All.
  pose proof keeps_turn. pose proof keeps_shut_down.
  unfold step, wait_and_serve, sys_now, sys_epoll_wait. keep.
Qed.

Lemma keeps_construct index config : keeps P (construct (S := trace) index config).
Proof using All.
  unfold construct, sys_epoll_create, sys_eventfd, sys_epoll_ctl. keep.
Qed.

Lemma keeps_enqueue clientFd addr : keeps P (enqueue clientFd addr).
Proof using All. unfold enqueue, on_worker, sys_wake_write. keep. Qed.

Lemma keeps_stop : keeps P stop.
Proof using All. unfold stop, on_worker, sys_wake_write. keep. Qed.
End worker.

#[export] Hint Resolve keeps_step keeps_construct keeps_enqueue keeps_stop keeps_drop keeps_closeSession
  keeps_sweep : keeps.

End WorkerTrace.
