(* ===== verification/WorkerInvariant.v ===== *)
(** * The books of a worker

    The invariant of a worker's state and the frame rule for code that leaves
    it alone.  It ties together the two maps of sessions, the heap they point
    into, the descriptors the process has open, the leases counted by the
    backends, and the gauges.  What the rest of the process owns is a
    parameter ([surroundings]), so that what a local variable holds for a
    while is the same as belonging to the rest. *)

From S2P Require Import Prelude Text Posix Streams ByteBuffer UniqueFd Metrics Config Net Backend BackendPool ProxySession SessionSteps SessionStream SessionEstate SessionEvents Acceptor Worker.
Local Open Scope Z_scope.

Module WorkerInvariant.
Import UniqueFd (UniqueFd, mkUniqueFd, get).
Import BackendPool (BackendPool, BackendLease, accounts, leases, on).
Import ProxySession (ProxySession, mkEnv).
Import SessionSteps (core).
Import Streams SessionEstate.
Import Worker.

(** What is not this worker's: the claims of the rest of the process on
    descriptors, the leases and active sessions of the other workers; and what
    never changes of the worker itself. *)
Record surroundings := {
  config : Config.AppConfig;
  epoll : Z;
  wake : Z;
  ready : bool;      (* [thread_.joinable()] *)
  rest : list claim;
  base : nat → Z;
  gauge : Z
}.

(** The rest also claims [cs], or owns one more lease. *)
Definition keep (cs : list claim) (W : surroundings) : surroundings :=
  {| config := config W; epoll := epoll W; wake := wake W; ready := ready W; rest := cs ++ rest W;
     base := base W; gauge := gauge W |}.
Definition lend (l : BackendLease) (W : surroundings) : surroundings :=
  {| config := config W; epoll := epoll W; wake := wake W; ready := ready W; rest := rest W;
     base := λ i, base W i + on i l; gauge := gauge W |}.

Definition capacity (W : surroundings) : Z := Config.bufferSize (config W).

Definition bounded (W : surroundings) : Prop :=
  (∀ i, 0 <= base W i < 2 ^ 53) ∧ 0 <= gauge W < 2 ^ 53 ∧ 0 < capacity W < 2 ^ 63.

(** ** Sessions in the heap *)

Definition owned_fds (c : ProxySession) : list Z :=
  [ProxySession.clientFd c; ProxySession.upstreamFd c].

Definition session_claims (H : gmap nat ProxySession) : list claim :=
  claim_of <$> (map_to_list H).*2.

Definition queue_claims (w : Worker) : list claim := Unused <$> (fd <$> queue_ w).

Definition held (i : nat) (H : gmap nat ProxySession) : Z :=
  leases i (ProxySession.backend_ <$> H).

Definition session_ok (size : Z) (c : ProxySession) : Prop :=
  0 <= ProxySession.clientFd c ∧ 0 <= ProxySession.upstreamFd c ∧
  is_Some (BackendPool.backend_ (ProxySession.backend_ c)) ∧
  ∀ d, ByteBuffer.wf (ProxySession.buffer d c) ∧
       ByteBuffer.size (ProxySession.buffer d c) = size.

(** [local] lists the sessions that only local pointers keep alive: created
    and not yet published, or closed and not yet destroyed. *)
Definition published (local : list nat) (H : gmap nat ProxySession) (p : nat)
    (c : ProxySession) : Prop := H !! p = Some c ∧ p ∉ local.

Record linked (local : list nat) (w : Worker) (H : gmap nat ProxySession) : Prop := {
  linked_sessions id p : sessions_ w !! id = Some p ↔
    ∃ c, published local H p c ∧ ProxySession.id c = id;
  linked_fds fd p : fdToSession_ w !! fd = Some p ↔
    ∃ c, published local H p c ∧ fd ∈ owned_fds c;
  linked_local p : p ∈ local → is_Some (H !! p);
  linked_nodup : NoDup local
}.

(** Ids are given in increasing order; [n] clients may still arrive. *)
Record numbered (n : nat) (w : Worker) (H : gmap nat ProxySession) : Prop := {
  numbered_ids id p : sessions_ w !! id = Some p → id < nextSessionId_ w;
  numbered_heap : Z.of_nat (base.size H) < nextSessionId_ w;
  numbered_next : nextSessionId_ w + Z.of_nat (length (queue_ w) + n) <= 2 ^ 53
}.

(** The claims on every open descriptor of the process. *)
Definition books (W : surroundings) (s : env) : list claim :=
  session_claims (heap s) ++ queue_claims (worker s) ++ [Held (epoll W); Held (wake W)] ++ rest W.

Record inv (W : surroundings) (local : list nat) (n : nat) (s : env) : Prop := {
  inv_config : config_ (worker s) = config W;
  inv_epoll : get (epollFd_ (worker s)) = epoll W;
  inv_wake : get (wakeFd_ (worker s)) = wake W;
  inv_ready : thread_ (worker s) = ready W;
  inv_linked : linked local (worker s) (heap s);
  inv_ok : map_Forall (λ _, session_ok (capacity W)) (heap s);
  inv_numbered : numbered n (worker s) (heap s);
  inv_queue : Forall (λ c, 0 <= fd c) (queue_ (worker s));
  inv_active : activeSessions_ (worker s) = Z.of_nat (base.size (sessions_ (worker s)));
  inv_gauge : Metrics.active_ (metrics s) =
    gauge W + Z.of_nat (base.size (sessions_ (worker s)));
  inv_leases : accounts (λ i, base W i + held i (heap s)) (pool s);
  inv_estate : estate (books W s) (log s)
}.

(** ** What depends on the cores of the sessions only *)

Implicit Types H : gmap nat ProxySession.

Lemma held_core i H H' : core <$> H' = core <$> H → held i H' = held i H.
Proof.
  intros Hc. unfold held. f_equal. apply map_eq. intros p. apply (f_equal (lookup p)) in Hc.
  rewrite !lookup_fmap in *. destruct (H' !! p), (H !! p); cbn in *; try done.
  unfold core in *. congruence.
Qed.

Lemma size_core H H' : core <$> H' = core <$> H → base.size H' = base.size H.
Proof. intros Hc. by rewrite <- (map_size_fmap core H), <- Hc, map_size_fmap. Qed.

Lemma published_core local H H' p c : core <$> H' = core <$> H → published local H p c →
  ∃ c', published local H' p c' ∧ core c' = core c.
Proof.
  intros Hc [Hp Hl]. apply (f_equal (lookup p)) in Hc. rewrite !lookup_fmap, Hp in Hc.
  destruct (H' !! p) as [c'|] eqn:Hp'; [|done]. exists c'. split; [done|].
  cbn in Hc. congruence.
Qed.

Lemma linked_core local w H H' : core <$> H' = core <$> H → linked local w H → linked local w H'.
Proof.
  intros Hc [Hs Hf Hl Hn].
  assert (∀ c c' : ProxySession, core c' = core c →
    ProxySession.id c' = ProxySession.id c ∧ owned_fds c' = owned_fds c) as Hcore.
  { intros c c' E. unfold core, owned_fds, ProxySession.clientFd, ProxySession.upstreamFd,
      ProxySession.id in *. split; congruence. }
  split; [intros id p; rewrite Hs|intros fd p; rewrite Hf|intros p Hp|done].
  - split; intros (c & Hpub & Hid);
      [destruct (published_core local H H' p c) as (c' & Hp' & E)
      |destruct (published_core local H' H p c) as (c' & Hp' & E)]; try done;
      exists c'; (split; [done|]); rewrite <- Hid; by apply Hcore.
  - split; intros (c & Hpub & Hid);
      [destruct (published_core local H H' p c) as (c' & Hp' & E)
      |destruct (published_core local H' H p c) as (c' & Hp' & E)]; try done;
      exists c'; (split; [done|]); by destruct (Hcore _ _ E) as [_ ->].
  - destruct (Hl p Hp) as [c Hpc]. apply (f_equal (lookup p)) in Hc.
    rewrite !lookup_fmap, Hpc in Hc. by destruct (H' !! p).
Qed.

(** ** Adding and removing a session *)

Lemma session_claims_insert H p c : H !! p = None →
  session_claims (<[p := c]> H) ≡ₚ claim_of c :: session_claims H.
Proof. intros Hp. unfold session_claims. by rewrite map_to_list_insert. Qed.

Lemma session_claims_delete H p c : H !! p = Some c →
  session_claims H ≡ₚ claim_of c :: session_claims (delete p H).
Proof.
  intros Hp. rewrite <- (insert_delete_id H p c) at 1 by done.
  apply session_claims_insert, lookup_delete_eq.
Qed.

Lemma session_claims_in H p c : H !! p = Some c → claim_of c ∈ session_claims H.
Proof. intros Hp. rewrite (session_claims_delete H p c Hp). set_solver. Qed.

Lemma held_insert i H p c : H !! p = None →
  held i (<[p := c]> H) = held i H + on i (ProxySession.backend_ c).
Proof.
  intros Hp. unfold held. rewrite fmap_insert. apply BackendPool.leases_insert_new.
  by rewrite lookup_fmap, Hp.
Qed.

Lemma held_delete i H p c : H !! p = Some c →
  held i (delete p H) = held i H - on i (ProxySession.backend_ c).
Proof.
  intros Hp. unfold held. rewrite fmap_delete. apply BackendPool.leases_delete.
  by rewrite lookup_fmap, Hp.
Qed.

Lemma held_bounds i H : 0 <= held i H <= Z.of_nat (base.size H).
Proof.
  unfold held. rewrite <- (map_size_fmap ProxySession.backend_ H).
  apply BackendPool.leases_bounds.
Qed.

(** Published sessions own their descriptors alone. *)
Lemma published_fds_inj L tr H p q c c' fd : estate (session_claims H ++ L) tr →
  H !! p = Some c → H !! q = Some c' → fd ∈ owned_fds c → fd ∈ owned_fds c' → p = q.
Proof.
  intros [(Hn & _ & _) _ _] Hp Hq Hc Hc'. destruct (decide (p = q)) as [|Hpq]; [done|exfalso].
  rewrite (session_claims_delete H p c), (session_claims_delete (delete p H) q c') in Hn;
    [|by rewrite lookup_delete_ne|done].
  rewrite <- app_comm_cons, bind_cons in Hn. apply NoDup_app in Hn as (_ & Hn & _).
  apply (Hn fd Hc). rewrite <- app_comm_cons, bind_cons. apply elem_of_app. by left.
Qed.

#[export] Instance published_proper :
  Proper ((≡ₚ) ==> eq ==> eq ==> eq ==> iff) published.
Proof. intros l l' Hl H ? <- p ? <- c ? <-. unfold published. by rewrite Hl. Qed.

Lemma linked_perm local local' w H : local ≡ₚ local' → linked local w H → linked local' w H.
Proof.
  intros Hp [Hs Hf Hl Hn]. split.
  - intros id p. setoid_rewrite <- Hp. apply Hs.
  - intros fd p. setoid_rewrite <- Hp. apply Hf.
  - intros p. rewrite <- Hp. apply Hl.
  - by rewrite <- Hp.
Qed.

Lemma linked_size local w H : linked local w H → (base.size (sessions_ w) ≤ base.size H)%nat.
Proof.
  intros [Hs _ _ _].
  rewrite <- (length_map_to_list (sessions_ w)), <- (length_map_to_list H).
  rewrite <- (length_fmap snd), <- (length_fmap fst (map_to_list H)).
  apply submseteq_length, NoDup_submseteq.
  - apply NoDup_fmap_2_strong; [|apply NoDup_map_to_list].
    intros [k p] [k' p'] Hk%elem_of_map_to_list Hk'%elem_of_map_to_list [= <-].
    apply Hs in Hk as (c & [Hc _] & <-). apply Hs in Hk' as (c' & [Hc' _] & <-). congruence.
  - intros p Hp. apply list_elem_of_fmap in Hp as ([k q] & -> & Hk%elem_of_map_to_list).
    apply Hs in Hk as (c & [Hc _] & _). apply list_elem_of_fmap.
    exists (q, c). split; [done|]. by apply elem_of_map_to_list.
Qed.

(** ** The frame rule *)

(** What code may do without the worker noticing: answers of the kernel that
    open and close nothing, traffic inside the sessions, counters other than
    the gauge and the active connections. *)
Record calm (W : surroundings) (s s' : env) : Prop := {
  calm_worker : worker s' = worker s;
  calm_core : core <$> heap s' = core <$> heap s;
  calm_ok : map_Forall (λ _, session_ok (capacity W)) (heap s) →
            map_Forall (λ _, session_ok (capacity W)) (heap s');
  calm_gauge : Metrics.active_ (metrics s') = Metrics.active_ (metrics s);
  calm_pool count : accounts count (pool s) → accounts count (pool s');
  calm_estate L : estate (session_claims (heap s) ++ L) (log s) →
    estate (session_claims (heap s') ++ L) (log s')
}.

#[export] Instance calm_preorder W : PreOrder (calm W).
Proof.
  split; [by split|].
  intros s1 s2 s3 [] []. split; try congruence; auto.
Qed.

Lemma inv_calm W local n s s' : inv W local n s → calm W s s' → inv W local n s'.
Proof.
  intros [] [Hw Hc Hok Hg Hp He]. split; rewrite ?Hw; try done.
  - by eapply linked_core.
  - auto.
  - destruct inv_numbered0. split; rewrite ?(size_core _ _ Hc); done.
  - by rewrite Hg.
  - eapply BackendPool.accounts_ext; [|by apply Hp]. intros i. by rewrite (held_core i _ _ Hc).
  - unfold books. rewrite Hw. by apply He.
Qed.

(** What the rest claims may change along with the log. *)
Lemma books_keep cs W s : books (keep cs W) s ≡ₚ cs ++ books W s.
Proof. unfold books. cbn. solve_Permutation. Qed.

Lemma keep_nil W : keep [] W = W.
Proof. by destruct W. Qed.

Lemma inv_trade W cs cs' local n s tr :
  inv (keep cs W) local n s →
  (∀ L, estate (cs ++ L) (log s) → estate (cs' ++ L) tr) →
  inv (keep cs' W) local n (upd tr s).
Proof.
  intros [] He. split; try done. rewrite books_keep in *. by apply He.
Qed.

Lemma inv_perm W local local' n s : local ≡ₚ local' → inv W local n s → inv W local' n s.
Proof. intros Hl []. split; try done. by eapply linked_perm. Qed.

End WorkerInvariant.
