(* ===== verification/WorkerSessions.v ===== *)
(** * Sessions in a worker

    The operations that create, close and destroy sessions keep the books:
    each takes [inv] to [inv], always ends, and never meets the outcome
    "use after free". *)

From S2P Require Import Prelude Text Posix Streams ByteBuffer UniqueFd Metrics Config Net Backend BackendPool ProxySession SessionSteps SessionStream SessionEstate SessionEvents Polls Acceptor Worker WorkerInvariant.
Local Open Scope Z_scope.

Module WorkerSessions.
Import UniqueFd (UniqueFd, mkUniqueFd, get).
Import BackendPool (BackendPool, BackendLease, accounts, on, valid).
Import ProxySession (ProxySession, mkEnv, on_lease).
Import SessionSteps (core).
Import Streams SessionEstate Polls Worker WorkerInvariant.

Implicit Types H : gmap nat ProxySession.

(** ** The maps *)

(** What [closeSession] does to the worker's own members. *)
Definition retired (c : ProxySession) (w : Worker) : Worker :=
  set_activeSessions (u64 (activeSessions_ w - 1))
    (set_sessions (delete (ProxySession.id c) (sessions_ w))
      (set_fdToSession (delete (ProxySession.upstreamFd c)
        (delete (ProxySession.clientFd c) (fdToSession_ w))) w)).

(** What [createSession] does to them at the end. *)
Definition enrolled (p : nat) (c : ProxySession) (w : Worker) : Worker :=
  set_activeSessions (u64 (activeSessions_ w + 1))
    (set_sessions (<[ProxySession.id c := p]> (sessions_ w))
      (set_fdToSession (<[ProxySession.upstreamFd c := p]>
        (<[ProxySession.clientFd c := p]> (fdToSession_ w))) w)).

Definition sole_owner (p : nat) (c : ProxySession) H : Prop :=
  ∀ q c' fd, H !! q = Some c' → fd ∈ owned_fds c → fd ∈ owned_fds c' → p = q.

Lemma linked_retired local w H p c :
  linked local w H → published local H p c → sole_owner p c H →
  linked (p :: local) (retired c w) H.
Proof.
  intros [Hs Hf Hl Hn] Hp Hsole.
  assert (sessions_ w !! ProxySession.id c = Some p) as Hid by (apply Hs; eauto).
  split; cbn.
  - intros id q. destruct (decide (id = ProxySession.id c)) as [->|Hne].
    + rewrite lookup_delete_eq. split; [done|]. intros (c' & [Hq Hl'] & He).
      assert (sessions_ w !! ProxySession.id c = Some q) as Hid'.
      { apply Hs. exists c'. split; [split; [done|set_solver]|done]. }
      set_solver.
    + rewrite lookup_delete_ne by done. rewrite Hs. unfold published. split.
      * intros (c' & [Hq Hl'] & He). exists c'. split; [|done]. split; [done|].
        intros [->|]%elem_of_cons; [|done]. destruct Hp. naive_solver.
      * intros (c' & [Hq Hl'] & He). exists c'. split; [|done]. split; [done|set_solver].
  - intros fd q. destruct (decide (fd ∈ owned_fds c)) as [Hfd|Hfd].
    + assert (delete (ProxySession.upstreamFd c)
        (delete (ProxySession.clientFd c) (fdToSession_ w)) !! fd = None) as ->.
      { apply elem_of_cons in Hfd as [->|Hfd].
        - apply lookup_delete_None. right. apply lookup_delete_eq.
        - apply list_elem_of_singleton in Hfd as ->. apply lookup_delete_eq. }
      split; [done|]. intros (c' & [Hq Hl'] & Hfd').
      destruct Hl'. rewrite (Hsole q c' fd) by done. set_solver.
    + rewrite !lookup_delete_ne by (unfold owned_fds in Hfd; set_solver). rewrite Hf. unfold published. split.
      * intros (c' & [Hq Hl'] & He). exists c'. split; [|done]. split; [done|].
        intros [->|]%elem_of_cons; [|done]. destruct Hp. naive_solver.
      * intros (c' & [Hq Hl'] & He). exists c'. split; [|done]. split; [done|set_solver].
  - intros q [->|]%elem_of_cons; [|auto]. destruct Hp; eauto.
  - apply NoDup_cons. split; [apply Hp|done].
Qed.

Lemma linked_enrolled local w H p c :
  linked (p :: local) w H → H !! p = Some c → sessions_ w !! ProxySession.id c = None →
  sole_owner p c H → linked local (enrolled p c w) H.
Proof.
  intros [Hs Hf Hl [Hpl Hn]%NoDup_cons] Hp Hid Hsole.
  assert (∀ q c', published local H q c' →
    (q = p ∧ c' = c) ∨ published (p :: local) H q c') as Hpub.
  { intros q c' [Hq Hql]. destruct (decide (q = p)) as [->|]; [left; naive_solver|].
    right. split; [done|set_solver]. }
  assert (∀ q c', published (p :: local) H q c' → published local H q c' ∧ q ≠ p) as Hpub'.
  { intros q c' [Hq Hql]. split; [split; [done|]|]; set_solver. }
  split; cbn.
  - intros id q. rewrite lookup_insert_Some, Hs. split.
    + intros [[<- <-]|[Hne (c' & Hq & He)]]; [by exists c|].
      exists c'. split; [by apply Hpub'|done].
    + intros (c' & [[-> ->]|Hq]%Hpub & <-); [by left|right].
      split; [|eauto]. intros He. assert (sessions_ w !! ProxySession.id c' = Some q) as Hx
        by (apply Hs; eauto). congruence.
  - intros fd q. destruct (decide (fd ∈ owned_fds c)) as [Hfd|Hfd].
    + assert (<[ProxySession.upstreamFd c := p]>
        (<[ProxySession.clientFd c := p]> (fdToSession_ w)) !! fd = Some p) as ->.
      { apply elem_of_cons in Hfd as [->|Hfd].
        - destruct (decide (ProxySession.upstreamFd c = ProxySession.clientFd c)) as [->|];
            [apply lookup_insert_eq|]. rewrite lookup_insert_ne by done. apply lookup_insert_eq.
        - apply list_elem_of_singleton in Hfd as ->. apply lookup_insert_eq. }
      split; [intros [= <-]; by exists c|]. intros (c' & [Hq _] & Hfd').
      f_equal. by apply (Hsole q c' fd).
    + rewrite !lookup_insert_ne by (unfold owned_fds in Hfd; set_solver). rewrite Hf. split.
      * intros (c' & Hq & He). exists c'. split; [by apply Hpub'|done].
      * intros (c' & [[-> ->]|Hq]%Hpub & He); [done|eauto].
  - intros q Hq. apply Hl. set_solver.
  - done.
Qed.

Lemma linked_new local w H p c :
  linked local w H → H !! p = None → linked (p :: local) w (<[p := c]> H).
Proof.
  intros [Hs Hf Hl Hn] Hp.
  assert (∀ q c', published (p :: local) (<[p := c]> H) q c' ↔ published local H q c') as Hpub.
  { intros q c'. unfold published. destruct (decide (q = p)) as [->|].
    - rewrite Hp. split; [intros [_ []]; set_solver|by intros []].
    - rewrite lookup_insert_ne by done. set_solver. }
  split.
  - intros id q. rewrite Hs. by setoid_rewrite Hpub.
  - intros fd q. rewrite Hf. by setoid_rewrite Hpub.
  - intros q [->|Hq]%elem_of_cons; [rewrite lookup_insert_eq; eauto|].
    destruct (decide (q = p)) as [->|]; [rewrite lookup_insert_eq; eauto|].
    rewrite lookup_insert_ne by done. auto.
  - apply NoDup_cons. split; [|done]. intros Hin. destruct (Hl _ Hin). congruence.
Qed.

Lemma linked_gone local w H p :
  linked (p :: local) w H → linked local w (delete p H).
Proof.
  intros [Hs Hf Hl [Hpl Hn]%NoDup_cons].
  assert (∀ q c', published local (delete p H) q c' ↔ published (p :: local) H q c') as Hpub.
  { intros q c'. unfold published. destruct (decide (q = p)) as [->|].
    - rewrite lookup_delete_eq. set_solver.
    - rewrite lookup_delete_ne by done. set_solver. }
  split.
  - intros id q. rewrite Hs. by setoid_rewrite Hpub.
  - intros fd q. rewrite Hf. by setoid_rewrite Hpub.
  - intros q Hq. rewrite lookup_delete_ne by set_solver. apply Hl. set_solver.
  - done.
Qed.

(** ** Calls that only ask *)

(** The state after calls that open and close nothing. *)
Definition asked (s s' : env) : Prop :=
  worker s' = worker s ∧ heap s' = heap s ∧ metrics s' = metrics s ∧ pool s' = pool s ∧
  hushed (log s) (log s').

#[export] Instance asked_preorder : PreOrder asked.
Proof.
  split; [by intros s; repeat split|].
  intros s1 s2 s3 (?&?&?&?&?) (?&?&?&?&?). split_and!; try congruence. by etrans.
Qed.

Lemma asked_calm W s s' : asked s s' → calm W s s'.
Proof.
  intros (?&Hh&Hm&Hp&?). split; rewrite ?Hh, ?Hm, ?Hp; try done.
  intros L. by apply estate_hushed.
Qed.

(** Code that ends without running out of fuel, having only asked. *)
Definition asks {A} (m : ST env A) (s : env) : Prop :=
  wp m (λ o s', o ≠ NoFuel ∧ asked s s') s.

Section operations.
Context {K : Kernel} {KL : KernelLaws K} {MO : MapOrder}.
Implicit Types W : surroundings.

Lemma syscall_asked {R} (ask : trace → R) (event : R → event) s :
  (∀ r tr, hushed tr (event r :: tr)) →
  runs (syscall (S := env) ask event) (λ r s', r = ask (log s) ∧ asked s s') s.
Proof using Type.
  intros He. eexists _, _. split; [done|]. split; [done|]. split_and!; try done; apply He.
Qed.

Lemma asks_ret {A} (a : A) s : asks (mret a) s.
Proof using Type. by split. Qed.

Lemma asks_throw {A} e s : asks (throw (A := A) e) s.
Proof using Type. by split. Qed.

Lemma asks_bind {A B} (m : ST env A) (k : A → ST env B) s :
  asks m s → (∀ a s', asked s s' → asks (k a) s') → asks (m ≫= k) s.
Proof using Type.
  unfold asks, wp, mbind, ST_bind. intros [Hn Ha] Hk.
  destruct (m s) as [[a|e|] s1]; cbn in *; [|by split|done].
  destruct (Hk a s1 Ha) as [? Ha']. split; [done|by etrans].
Qed.

Lemma asks_syscall {R} (ask : trace → R) (event : R → event) s :
  (∀ r tr, hushed tr (event r :: tr)) → asks (syscall (S := env) ask event) s.
Proof using Type.
  intros He. unfold asks, wp. destruct (syscall_asked ask event s He) as (r & s' & -> & _ & Ha).
  by split.
Qed.

Lemma asks_deref p s : is_Some (heap s !! p) → asks (deref p) s.
Proof using Type. intros [c Hc]. unfold asks, wp, deref. rewrite Hc. by split. Qed.

Lemma runs_deref p c s (R : ProxySession → env → Prop) :
  heap s !! p = Some c → R c s → runs (deref p) R s.
Proof using Type. intros Hc HR. exists c, s. unfold deref. by rewrite Hc. Qed.

Lemma asks_registerFd fd events s : asks (registerFd fd events) s.
Proof using Type.
  apply asks_bind; [apply asks_syscall; intros ? ?; by apply hushed_event|intros [] ? _].
  - apply asks_ret.
  - apply asks_throw.
Qed.

Lemma asks_modifyFd fd events s : asks (modifyFd fd events) s.
Proof using Type.
  apply asks_bind; [apply asks_syscall; intros ? ?; by apply hushed_event|intros [] ? _].
  - apply asks_ret.
  - apply asks_throw.
Qed.

Lemma asked_heap s s' p : asked s s' → is_Some (heap s !! p) → is_Some (heap s' !! p).
Proof using Type. by intros (_ & -> & _). Qed.

Lemma asks_updateInterests p s : is_Some (heap s !! p) → asks (updateInterests p) s.
Proof using Type.
  intros Hp. apply asks_bind; [by apply asks_deref|intros c s1 H1].
  apply asks_bind; [apply asks_modifyFd|intros _ s2 H2].
  apply asks_bind; [apply asks_deref; by eapply asked_heap, asked_heap|].
  intros c' s3 _. apply asks_modifyFd.
Qed.

Lemma unregisterFd_asked fd s : runs (unregisterFd fd) (λ _ s', asked s s') s.
Proof using Type.
  unfold unregisterFd. destruct (0 <=? fd); [|by apply runs_ret].
  apply runs_bind. eapply runs_mono.
  - apply syscall_asked. intros ? ?. by apply hushed_event.
  - intros a s' [_ Ha]. by apply runs_ret.
Qed.

(** A [try] block that only asks. *)
Lemma runs_catch_asks {A} (m : ST env A) h (R : A → env → Prop) s :
  asks m s → (∀ a s', m s = (Val a, s') → asked s s' → R a s') →
  (∀ e s', asked s s' → runs (h e) R s') → runs (try_catch m h) R s.
Proof using Type.
  intros [Hn Ha] HR Hh. unfold runs, try_catch. destruct (m s) as [[a|e|] s'] eqn:Hm; cbn in *; [|by apply Hh|done].
  exists a, s'. auto.
Qed.

(** ** Local variables *)

(** [worker], [heap] and [metrics] stay as they are. *)
Definition kept (s s' : env) : Prop :=
  worker s' = worker s ∧ heap s' = heap s ∧ metrics s' = metrics s.

Lemma inv_pool W1 W2 local n s p' :
  inv W1 local n s → config W1 = config W2 → epoll W1 = epoll W2 → wake W1 = wake W2 → ready W1 = ready W2 →
  rest W1 = rest W2 → gauge W1 = gauge W2 →
  accounts (λ i, base W2 i + held i (heap s)) p' →
  inv W2 local n (upd p' s).
Proof using Type.
  intros [] H1 H2 H3 H0 H4 H5 Hl. unfold capacity in *.
  split; unfold capacity, books in *; rewrite <- ?H1, <- ?H2, <- ?H3, <- ?H0, <- ?H4, <- ?H5; done.
Qed.

(** Claims may be weakened, or listed in another order. *)
Lemma inv_rest W cs cs' local n s :
  (∀ L, estate (cs ++ L) (log s) → estate (cs' ++ L) (log s)) →
  inv (keep cs W) local n s → inv (keep cs' W) local n s.
Proof using Type. intros He []. split; try done. rewrite books_keep in *. by apply He. Qed.

Lemma inv_swap W cs cs' local n s :
  cs ≡ₚ cs' → inv (keep cs W) local n s → inv (keep cs' W) local n s.
Proof using Type. intros Hp. apply inv_rest. intros L. by rewrite Hp. Qed.

Lemma close_kept W fd local n s :
  inv (keep [Held fd] W) local n s →
  runs (sys_close fd) (λ _ s', inv W local n s' ∧ kept s s') s.
Proof using Type.
  intros Hinv. eexists _, _. split; [done|]. split; [|done].
  rewrite <- (keep_nil W). eapply inv_trade; [exact Hinv|]. intros L. apply estate_close.
Qed.

Lemma release_kept W l local n s :
  bounded W → inv (lend l W) local n s →
  runs (BackendPool.destroy l) (λ _ s', inv W local n s' ∧ kept s s') s.
Proof using Type.
  intros HW Hinv. pose proof (inv_leases _ _ _ _ Hinv) as Hc.
  destruct (BackendPool.reset_in (λ i, base (lend l W) i + held i (heap s)) s l)
    as (p' & Hr & Hp'); [exact Hc| |].
  - intros i Hi. pose proof (held_bounds i (heap s)). destruct (inv_numbered _ _ _ _ Hinv).
    destruct HW as [Hb _]. specialize (Hb i). cbn. unfold on. rewrite decide_True by done. lia.
  - unfold BackendPool.destroy. apply runs_bind. eexists _, _. split; [exact Hr|].
    apply runs_ret. split; [|done]. eapply (inv_pool _ W); [exact Hinv|done..|].
    eapply BackendPool.accounts_ext; [|exact Hp']. intros i. cbn. lia.
Qed.

#[local] Instance kept_preorder : PreOrder kept.
Proof using Type. unfold kept. split; [done|]. intros ??? (-> & -> & ->) (-> & -> & ->). done. Qed.

Lemma fd_destroyed W u local n s :
  0 <= UniqueFd.fd_ u → inv (keep [Held (get u)] W) local n s →
  runs (UniqueFd.destroy u) (λ _ s', inv W local n s' ∧ kept s s') s.
Proof using Type.
  intros Hu Hinv. unfold UniqueFd.destroy, UniqueFd.reset.
  destruct (Z.leb_spec 0 (UniqueFd.fd_ u)); [|lia].
  do 2 apply runs_bind. eapply runs_mono; [by apply close_kept|].
  intros [] s' Hs'. by do 2 apply runs_ret.
Qed.

(** The destructor of a session gives back all it owns. *)
Lemma session_destroyed W c local n s :
  bounded W → session_ok (capacity W) c →
  inv (keep (Held <$> owned_fds c) (lend (ProxySession.backend_ c) W)) local n s →
  runs (ProxySession.destroy c) (λ _ s', inv W local n s' ∧ kept s s') s.
Proof using Type.
  intros HW (Hcf & Huf & _) Hinv. unfold ProxySession.destroy. apply runs_bind.
  eapply runs_mono.
  { apply (release_kept (keep (Held <$> owned_fds c) W)); [exact HW|exact Hinv]. }
  intros [] s1 [H1 E1]. apply runs_bind. eapply runs_mono.
  { apply (fd_destroyed (keep [Held (ProxySession.clientFd c)] W)); [done|].
    apply (inv_swap W (Held <$> owned_fds c)
      [Held (ProxySession.upstreamFd c); Held (ProxySession.clientFd c)]); [|done].
    cbn. solve_Permutation. }
  intros [] s2 [H2 E2]. eapply runs_mono; [by apply fd_destroyed|].
  intros [] s3 [H3 E3]. split; [done|]. by do 2 (etrans; [eassumption|]).
Qed.

(** The last reference to a session goes. *)
Lemma inv_gone W p c local n s :
  inv W (p :: local) n s → heap s !! p = Some c →
  inv (keep (Held <$> owned_fds c) (lend (ProxySession.backend_ c) W)) local n
    (mkWenv (worker s) (delete p (heap s)) (metrics s) (pool s) (log s)).
Proof using Type.
  intros [] Hp. split; cbn; try done.
  - by apply linked_gone.
  - by apply map_Forall_delete.
  - destruct inv_numbered0. split; try done. cbn.
    rewrite map_size_delete_Some by eauto. lia.
  - eapply BackendPool.accounts_ext; [|exact inv_leases0]. intros i. cbn.
    rewrite (held_delete i _ p c) by done. lia.
  - rewrite books_keep. cbn. eapply estate_broken.
    unfold books in *. by rewrite (session_claims_delete (heap s) p c) in inv_estate0.
Qed.

Lemma referenced_published local w H p : linked local w H →
  referenced p w = true → ∃ c, published local H p c.
Proof using Type.
  intros [Hs Hf _ _]. unfold referenced. rewrite orb_true_iff, !bool_decide_eq_true.
  intros [Hin|Hin]; apply list_elem_of_fmap in Hin as ([k q] & -> & Hkq%elem_of_map_to_list);
    [apply Hs in Hkq|apply Hf in Hkq]; destruct Hkq as (c & ? & _); by exists c.
Qed.

Lemma published_referenced local w H p c : linked local w H →
  published local H p c → referenced p w = true.
Proof using Type.
  intros [Hs Hf _ _] Hp. unfold referenced. apply orb_true_iff. left.
  apply bool_decide_eq_true, list_elem_of_fmap. exists (ProxySession.id c, p). split; [done|].
  apply elem_of_map_to_list, Hs. eauto.
Qed.

Lemma drop_published W p c local n s :
  inv W local n s → published local (heap s) p c → runs (drop p) (λ _ s', s' = s) s.
Proof using Type.
  intros Hinv Hp. unfold drop. runs_steps.
  rewrite (published_referenced local _ (heap s) p c); [|by apply Hinv|done].
  by apply runs_ret.
Qed.

Lemma drop_last W p local n s :
  bounded W → inv W (p :: local) n s →
  runs (drop p) (λ _ s', inv W local n s' ∧ worker s' = worker s ∧
    heap s' = delete p (heap s) ∧ metrics s' = metrics s) s.
Proof using KL.
  intros HW Hinv. pose proof (inv_linked _ _ _ _ Hinv) as Hl.
  destruct (linked_local _ _ _ Hl p) as [c Hp]; [set_solver|].
  unfold drop. runs_steps.
  destruct (referenced p (worker s)) eqn:Hr.
  { destruct (referenced_published _ _ _ _ Hl Hr) as (c' & _ & Hn). set_solver. }
  apply runs_bind, (runs_deref p c); [done|]. apply runs_bind, runs_modify.
  eapply runs_mono; [apply (session_destroyed W c local n); [done| |]|].
  - by apply (inv_ok _ _ _ _ Hinv p).
  - by apply inv_gone.
  - intros [] s' [H (Hw & Hh & Hm)]. by rewrite Hw, Hh, Hm.
Qed.

(** Its two descriptors are distinct and open. *)
Lemma ends_open W local n s p c : inv W local n s → heap s !! p = Some c →
  ProxySession.clientFd c ≠ ProxySession.upstreamFd c ∧
  ∀ d, ProxySession.fd_of d c ∈ open_fds (log s).
Proof using Type.
  intros Hinv Hp. pose proof (inv_estate _ _ _ _ Hinv) as He. unfold books in He.
  rewrite (session_claims_delete (heap s) p c Hp) in He. split.
  - destruct He as [(Hn & _) _ _]. cbn in Hn. apply NoDup_cons in Hn as [Hn _].
    intros E. apply Hn. rewrite E. apply list_elem_of_here.
  - intros d. eapply (estate_open _ _ (claim_of c)); [exact He|apply list_elem_of_here|].
    destruct d; cbn; [apply list_elem_of_here|apply list_elem_of_further, list_elem_of_here].
Qed.

(** ** closeSession *)

Lemma sole_owner_inv W local n s p c :
  inv W local n s → heap s !! p = Some c → sole_owner p c (heap s).
Proof using Type.
  intros Hinv Hp q c' fd Hq Hc Hc'.
  by eapply (published_fds_inj _ _ (heap s) p q c c' fd (inv_estate _ _ _ _ Hinv)).
Qed.

Lemma gauge_bounds W local n s : bounded W → inv W local n s →
  Z.of_nat (base.size (sessions_ (worker s))) < 2 ^ 53.
Proof using Type.
  intros HW []. pose proof (linked_size _ _ _ inv_linked0). destruct inv_numbered0. lia.
Qed.

Lemma inv_retired W local n s p c :
  bounded W → inv W local n s → published local (heap s) p c →
  inv W (p :: local) n (mkWenv (retired c (worker s)) (heap s)
    (Metrics.onClosed (metrics s)) (pool s) (log s)).
Proof using Type.
  intros HW Hinv Hp. pose proof (gauge_bounds W local n s HW Hinv) as Hg.
  pose proof (sole_owner_inv W local n s p c Hinv (proj1 Hp)) as Hsole. destruct Hinv.
  assert (sessions_ (worker s) !! ProxySession.id c = Some p) as Hid
    by (apply inv_linked0; eauto).
  assert (base.size (sessions_ (worker s)) ≠ O) as Hne.
  { intros Hz%map_size_empty_inv. by rewrite Hz in Hid. }
  assert (base.size (delete (ProxySession.id c) (sessions_ (worker s)))
    = pred (base.size (sessions_ (worker s)))) as Hsz by by apply map_size_delete_Some.
  destruct HW as (_ & ? & _). split; cbn; try done.
  - by apply linked_retired.
  - destruct inv_numbered0. split; cbn; try done.
    intros id q Hq. apply lookup_delete_Some in Hq as [_ Hq]. eauto.
  - rewrite inv_active0, Hsz. unwrap64. lia.
  - unfold Metrics.onClosed. rewrite inv_gauge0, Hsz.
    destruct (Z.ltb_spec 0 (gauge W + Z.of_nat (base.size (sessions_ (worker s))))); cbn; [|lia].
    unwrap64. lia.
Qed.

Lemma closeSession_spec W local n s p c :
  bounded W → inv W local n s → published local (heap s) p c →
  runs (closeSession p) (λ _ s', inv W (p :: local) n s' ∧ heap s' = heap s ∧
    worker s' = retired c (worker s)) s.
Proof using Type.
  intros HW Hinv Hp. unfold closeSession.
  apply runs_bind, (runs_deref p c); [apply Hp|]. runs_steps.
  assert (sessions_ (worker s) !! ProxySession.id c = Some p) as ->.
  { apply (linked_sessions _ _ _ (inv_linked _ _ _ _ Hinv)). eauto. }
  apply runs_bind. eapply runs_mono; [apply unregisterFd_asked|]. intros [] s1 H1. cbn beta.
  apply runs_bind. eapply runs_mono; [apply unregisterFd_asked|]. intros [] s2 H2. cbn beta.
  assert (asked s s2) as (Hw & Hh & Hm & Hpl & Hq) by (by etrans).
  assert (inv W local n s2) as Hinv2 by (eapply inv_calm, asked_calm; [done|by etrans]).
  unfold on_worker, on_metrics. runs_steps. rewrite <- Hh in Hp.
  rewrite <- Hw, <- Hh. split; [|by split]. by apply (inv_retired W local n s2 p c).
Qed.

(** ** createSession *)

Lemma acquire_lent W local n s :
  bounded W → inv W local n s →
  runs BackendPool.acquire (λ l s', inv (lend l W) local n s' ∧ kept s s' ∧
    ∀ i, BackendPool.backend_ l = Some i → is_Some (BackendPool.backends_ (pool s') !! i)) s.
Proof using Type.
  intros HW Hinv. pose proof (inv_leases _ _ _ _ Hinv) as Hc.
  destruct (BackendPool.acquire_accounts (λ i, base W i + held i (heap s)) s)
    as (l & p' & Ha & Hp' & Hi); [|exact Hc|].
  - intros i. pose proof (held_bounds i (heap s)). destruct (inv_numbered _ _ _ _ Hinv).
    destruct HW as [Hb _]. specialize (Hb i). lia.
  - exists l, (upd p' s). split; [exact Ha|]. split; [|split; [done|exact Hi]].
    eapply (inv_pool W); [exact Hinv|done..|]. eapply BackendPool.accounts_ext; [|exact Hp'].
    intros i. cbn. lia.
Qed.

(** Counters other than the gauge. *)
Lemma metrics_calm W f s :
  (∀ m, Metrics.active_ (f m) = Metrics.active_ m) →
  calm W s (mkWenv (worker s) (heap s) (f (metrics s)) (pool s) (log s)).
Proof using Type. intros Hf. split; try done. apply Hf. Qed.

(** Records of connects in a backend. *)
Lemma on_lease_calm W l f s :
  is_Some (BackendPool.backend_ l) →
  (∀ b, Backend.weight (f b) = Backend.weight b ∧
        Backend.activeConnections (f b) = Backend.activeConnections b) →
  runs (on_lease l f) (λ _ s', calm W s s' ∧ kept s s') s.
Proof using Type.
  intros [i Hi] Hf. unfold on_lease. rewrite Hi. apply runs_modify.
  split; [|done]. split; [done|done|done|done| |done]. intros count Hc. cbn.
  eapply BackendPool.accounts_ext, (BackendPool.accounts_alter count _ i f 0);
    [|exact Hc|apply Hc|].
  - intros j. cbn. case_decide; lia.
  - intros b _. destruct (Hf b) as [-> ->]. split; [done|lia].
Qed.

(** A socket is opened and held by a local, or nothing has changed. *)
Lemma connect_held W local n endpoint s :
  inv W local n s →
  match Net.connectNonBlocking endpoint s with
  | (Val r, s') => inv (keep [Unused (Net.fd r)] W) local n s' ∧ kept s s' ∧ 0 <= Net.fd r ∧
      pool s' = pool s
  | (Exn _, s') => asked s s'
  | (NoFuel, _) => False
  end.
Proof using KL.
  intros Hinv. rewrite Net.lifts_connectNonBlocking. unfold zoom.
  pose proof (estate_fds _ _ (inv_estate _ _ _ _ Hinv)) as (_ & _ & Hcl).
  pose proof (Net.connect_streams (S := trace) endpoint (log s) Hcl) as Hr.
  change (view s) with (log s). cbn in Hr.
  destruct (Net.connectNonBlocking endpoint (log s)) as [[r|e|] tr]; cbn in *; [|done..].
  destruct Hr as [Hp Hr]. split; [|done]. rewrite <- (keep_nil W) in Hinv.
  eapply (inv_trade W []); [exact Hinv|]. intros L. by apply estate_created.
Qed.

Lemma construct_spec W id cfd ufd connecting l size addr s :
  is_Some (BackendPool.backend_ l) →
  runs (ProxySession.construct id cfd ufd connecting l size addr) (λ c s',
    calm W s s' ∧ kept s s' ∧
    ∃ now, c = ProxySession.initial id cfd ufd connecting l size addr now) s.
Proof using Type.
  intros Hl. unfold ProxySession.construct. apply runs_bind.
  eapply runs_mono; [apply syscall_asked; intros ? ?; by apply hushed_event|].
  intros now s1 [_ H1]. cbn beta. apply runs_bind.
  assert (calm W s s1 ∧ kept s s1) as [Hc Hk].
  { split; [by apply asked_calm|]. by destruct H1 as (? & ? & ? & _). }
  destruct (negb connecting).
  - eapply runs_mono; [by apply (on_lease_calm W)|]. cbn beta. intros [] s2 [H2 H2'].
    apply runs_ret. split; [by etrans|]. split; [by etrans|eauto].
  - do 2 apply runs_ret. eauto.
Qed.

(** What [createSession] comes to. *)
Definition refused (client : AcceptedClient) (s s' : env) : Prop :=
  heap s' = heap s ∧
  (worker s' = worker s ∨
   worker s' = set_nextSessionId (u64 (nextSessionId_ (worker s) + 1)) (worker s)) ∧
  Metrics.rejected_ (metrics s') = u64 (Metrics.rejected_ (metrics s) + 1).

Definition admitted (client : AcceptedClient) (s s' : env) : Prop := ∃ p c,
  heap s !! p = None ∧ heap s' = <[p := c]> (heap s) ∧
  worker s' = enrolled p c
    (set_nextSessionId (u64 (nextSessionId_ (worker s) + 1)) (worker s)) ∧
  ProxySession.id c = nextSessionId_ (worker s) ∧
  ProxySession.clientFd c = fd client ∧ ProxySession.clientAddress_ c = address client ∧
  ProxySession.closing c = false ∧
  Metrics.rejected_ (metrics s') = Metrics.rejected_ (metrics s) ∧ told c (log s').

(** A new session, so far only in a local. *)
Lemma inv_created W local n s p c :
  inv (keep (Unused <$> owned_fds c) (lend (ProxySession.backend_ c) W)) local n s →
  heap s !! p = None → session_ok (capacity W) c →
  (∀ d, ByteBuffer.contents (ProxySession.buffer d c) = []) →
  Z.of_nat (base.size (heap s)) + 1 < nextSessionId_ (worker s) →
  inv W (p :: local) n
    (mkWenv (worker s) (<[p := c]> (heap s)) (metrics s) (pool s) (log s)).
Proof using Type.
  intros [] Hp Hok He Hsz. split; cbn; try done.
  - by apply linked_new.
  - by apply map_Forall_insert_2.
  - destruct inv_numbered0. split; try done. cbn. rewrite map_size_insert_None by done. lia.
  - eapply BackendPool.accounts_ext; [|exact inv_leases0]. intros i. cbn.
    rewrite (held_insert i _ p c) by done. lia.
  - rewrite books_keep in inv_estate0. unfold books in *. cbn.
    rewrite (session_claims_insert (heap s) p c) by done.
    apply estate_joined in inv_estate0. unfold claim_of.
    pose proof (He ProxySession.Client) as E1. pose proof (He ProxySession.Upstream) as E2.
    cbn in E1, E2. by rewrite E1, E2.
Qed.

(** The session enters the maps. *)
Lemma inv_enrolled W local n s p c :
  bounded W → inv W (p :: local) n s → heap s !! p = Some c →
  sessions_ (worker s) !! ProxySession.id c = None →
  ProxySession.id c < nextSessionId_ (worker s) →
  inv W local n (mkWenv (enrolled p c (worker s)) (heap s)
    (Metrics.onOpened (metrics s)) (pool s) (log s)).
Proof using Type.
  intros HW Hinv Hp Hid Hlt. pose proof (gauge_bounds W _ n s HW Hinv) as Hg.
  pose proof (sole_owner_inv W _ n s p c Hinv Hp) as Hsole. destruct Hinv.
  assert (base.size (<[ProxySession.id c := p]> (sessions_ (worker s)))
    = Datatypes.S (base.size (sessions_ (worker s)))) as Hsz by by apply map_size_insert_None.
  destruct HW as (_ & ? & _). split; cbn; try done.
  - by apply linked_enrolled.
  - destruct inv_numbered0. split; cbn; try done.
    intros id q [[<- _]|[_ Hq]]%lookup_insert_Some; eauto.
  - rewrite inv_active0, Hsz. unwrap64. lia.
  - rewrite inv_gauge0, Hsz. unwrap64. lia.
Qed.

Lemma initial_ok W id cfd ufd connecting l addr now :
  bounded W → 0 <= cfd → 0 <= ufd → is_Some (BackendPool.backend_ l) →
  session_ok (capacity W)
    (ProxySession.initial id cfd ufd connecting l (capacity W) addr now).
Proof using Type.
  intros (_ & _ & Hc) Hcf Huf Hl. split_and!; try done.
  intros []; (split; [apply ByteBuffer.wf_make|apply ByteBuffer.size_make]; lia).
Qed.

(** The first part of [admit_client]: the session exists, in a local. *)
Lemma session_made W local n s client r l :
  bounded W → inv (keep [Unused (fd client); Unused (Net.fd r)] (lend l W)) local (S n) s →
  0 <= fd client → 0 <= Net.fd r → is_Some (BackendPool.backend_ l) →
  let s1 := mkWenv (set_nextSessionId (u64 (nextSessionId_ (worker s) + 1)) (worker s))
              (heap s) (metrics s) (pool s) (log s) in
  runs (make_shared (ProxySession.construct (nextSessionId_ (worker s)) (fd client)
      (Net.fd r) (Net.connecting r) l (capacity W) (address client)))
    (λ p s', ∃ c, inv W (p :: local) n s' ∧ heap s !! p = None ∧
      heap s' = <[p := c]> (heap s) ∧ worker s' = worker s1 ∧ metrics s' = metrics s ∧
      ProxySession.id c = nextSessionId_ (worker s) ∧
      ProxySession.clientFd c = fd client ∧
      ProxySession.clientAddress_ c = address client ∧ ProxySession.closing c = false) s1.
Proof using Type.
  intros HW Hinv Hcf Huf Hl s1.
  pose proof (inv_numbered _ _ _ _ Hinv) as [Hids Hsz Hnext]. cbn in Hsz, Hnext.
  assert (nextSessionId_ (worker s1) = nextSessionId_ (worker s) + 1) as Hs1 by (cbn; unwrap64; done).
  assert (inv (keep [Unused (fd client); Unused (Net.fd r)] (lend l W)) local n s1) as Hinv1.
  { destruct Hinv. split; cbn; try done.
    - by destruct inv_linked0.
    - split; cbn; [|unwrap64; lia..].
      intros id q Hq. specialize (Hids id q Hq). unwrap64. lia. }
  unfold make_shared, on_heap. apply runs_bind.
  eapply runs_mono; [by apply (construct_spec (keep [Unused (fd client); Unused (Net.fd r)] (lend l W)))|].
  cbn beta. intros c s2 (H2 & (Hw2 & Hh2 & Hm2) & now & Hc).
  runs_steps. set (p := fresh (dom (heap s2))).
  assert (heap s2 !! p = None) as Hp by (apply not_elem_of_dom, is_fresh).
  assert (heap s2 = heap s) as Hh3 by exact Hh2.
  exists c. rewrite <- Hh3. split_and!; try done; try (by rewrite Hc).
  - apply inv_created; [|done| | |].
    + replace (Unused <$> owned_fds c) with [Unused (fd client); Unused (Net.fd r)] by (by rewrite Hc).
      replace (ProxySession.backend_ c) with l by (by rewrite Hc).
      eapply inv_calm; [exact Hinv1|exact H2].
    + rewrite Hc. by apply initial_ok.
    + intros d. rewrite Hc. by destruct d.
    + rewrite Hw2, Hs1, Hh3. lia.
Qed.

(** The registration with epoll, and what is undone if it fails. *)
Definition register_both (p : nat) : ST env bool :=
  c ← deref p;
  registerFd (ProxySession.clientFd c) (ProxySession.clientEvents c) ;;
  c ← deref p;
  registerFd (ProxySession.upstreamFd c) (ProxySession.upstreamEvents c) ;;
  mret true.

Definition register_undo (p : nat) : ST env bool :=
  c ← deref p;
  unregisterFd (ProxySession.clientFd c) ;;
  unregisterFd (ProxySession.upstreamFd c) ;;
  on_metrics Metrics.onRejected ;;
  mret false.

Lemma asks_register_both p s : is_Some (heap s !! p) → asks (register_both p) s.
Proof using Type.
  intros Hp. apply asks_bind; [by apply asks_deref|intros c s1 H1].
  apply asks_bind; [apply asks_registerFd|intros _ s2 H2].
  apply asks_bind; [apply asks_deref; by eapply asked_heap, asked_heap|intros c' s3 _].
  apply asks_bind; [apply asks_registerFd|intros _ s4 _]. apply asks_ret.
Qed.

Lemma register_val p s b s' : register_both p s = (Val b, s') → b = true.
Proof using Type. unfold register_both. intros H. do 4 bind_inv H. by injection H. Qed.

Lemma registerFd_val fd events s a s' : registerFd fd events s = (Val a, s') →
  heap s' = heap s ∧ log s' = EvEpollCtl EPOLL_CTL_ADD fd events (Ret tt) :: log s.
Proof using Type.
  unfold registerFd, mbind, ST_bind, sys_epoll_ctl, syscall. intros Hr. cbn in Hr.
  destruct (k_epoll_ctl _ _ _ _) as [[]|]; [|done]. by injection Hr as _ <-.
Qed.

(** Once both registrations went through, epoll knows. *)
Lemma register_told p c s b s' :
  heap s !! p = Some c → ProxySession.clientFd c ≠ ProxySession.upstreamFd c →
  register_both p s = (Val b, s') → told c (log s').
Proof using Type.
  intros Hp Hne Hr. unfold register_both in Hr. bind_inv Hr. unfold deref in Hb. rewrite Hp in Hb.
  injection Hb as <- <-. bind_inv Hr. apply registerFd_val in Hb as [Hh1 Hl1].
  bind_inv Hr. unfold deref in Hb. rewrite Hh1, Hp in Hb. injection Hb as <- <-.
  bind_inv Hr. apply registerFd_val in Hb as [_ Hl2]. injection Hr as _ <-. rewrite Hl2, Hl1.
  by apply told_both.
Qed.

Lemma registered_spec W local n p c s :
  inv W local n s → heap s !! p = Some c →
  runs (try_catch (register_both p) (λ _, register_undo p)) (λ b s',
    inv W local n s' ∧ worker s' = worker s ∧ heap s' = heap s ∧
    (b = true → told c (log s')) ∧ Metrics.rejected_ (metrics s') =
      if b then Metrics.rejected_ (metrics s) else u64 (Metrics.rejected_ (metrics s) + 1)) s.
Proof using Type.
  intros Hinv Hp. destruct (ends_open W local n s p c Hinv Hp) as [Hne _]. apply runs_catch_asks.
  - by apply asks_register_both.
  - intros b s1 Hb H1. pose proof (register_told p c s b s1 Hp Hne Hb) as Ht.
    apply register_val in Hb as ->. pose proof H1 as (Hw & Hh & Hm & _). rewrite Hm.
    split; [|done]. by eapply inv_calm, asked_calm.
  - intros _ s1 H1. pose proof H1 as (_ & Hh & _). rewrite <- Hh in Hp.
    apply runs_bind, (runs_deref p c); [done|].
    apply runs_bind. eapply runs_mono; [apply unregisterFd_asked|]. intros [] s2 H2. cbn beta.
    apply runs_bind. eapply runs_mono; [apply unregisterFd_asked|]. intros [] s3 H3. cbn beta.
    assert (asked s s3) as H by (by do 2 (etrans; [eassumption|])).
    destruct (H) as (Hw3 & Hh3 & Hm3 & _).
    unfold on_metrics. runs_steps. split_and!; [|done|done|done|by cbn; rewrite Hm3].
    eapply inv_calm; [|by apply metrics_calm].
    apply (inv_calm W _ _ s); [done|by apply asked_calm].
Qed.

(** The last part: the session is published if it was registered, and the
    local reference ends. *)
Definition settle (p : nat) (sessionId : Z) (registered : bool) : ST env unit :=
  (if registered then
     c ← deref p;
     on_worker (λ w, set_fdToSession
       (<[ProxySession.clientFd c := p]> (fdToSession_ w)) w) ;;
     on_worker (λ w, set_fdToSession
       (<[ProxySession.upstreamFd c := p]> (fdToSession_ w)) w) ;;
     on_worker (λ w, set_sessions (<[sessionId := p]> (sessions_ w)) w) ;;
     on_worker (λ w, set_activeSessions (u64 (activeSessions_ w + 1)) w) ;;
     on_metrics Metrics.onOpened
   else mret tt) ;;
  drop p.

Lemma settle_spec W local n s p c registered :
  bounded W → inv W (p :: local) n s → heap s !! p = Some c →
  sessions_ (worker s) !! ProxySession.id c = None →
  ProxySession.id c < nextSessionId_ (worker s) →
  runs (settle p (ProxySession.id c) registered) (λ _ s', inv W local n s' ∧
    heap s' = (if registered then heap s else delete p (heap s)) ∧
    worker s' = (if registered then enrolled p c (worker s) else worker s) ∧
    (registered = true → log s' = log s) ∧
    Metrics.rejected_ (metrics s') = Metrics.rejected_ (metrics s)) s.
Proof using KL.
  intros HW Hinv Hp Hid Hlt. unfold settle. apply runs_bind. destruct registered.
  - apply runs_bind, (runs_deref p c); [done|]. unfold on_worker, on_metrics. runs_steps. cbn.
    pose proof (inv_enrolled W local n s p c HW Hinv Hp Hid Hlt) as He.
    eapply runs_mono; [eapply (drop_published W p c local n); [exact He|]|].
    + split; [exact Hp|].
      by pose proof (linked_nodup _ _ _ (inv_linked _ _ _ _ Hinv)) as [? _]%NoDup_cons.
    + intros [] s' ->. by split_and!.
  - runs_steps. eapply runs_mono; [by apply (drop_last W p local n)|].
    cbn beta. intros [] s' (H & Hw & Hh & Hm). by rewrite Hm.
Qed.

Lemma admit_client_spec W local n s client r l :
  bounded W → inv (keep [Unused (fd client); Unused (Net.fd r)] (lend l W)) local (S n) s →
  0 <= fd client → 0 <= Net.fd r → is_Some (BackendPool.backend_ l) →
  runs (admit_client client r l) (λ _ s', inv W local n s' ∧
    (refused client s s' ∨ admitted client s s')) s.
Proof using KL.
  intros HW Hinv Hcf Huf Hl. unfold admit_client, on_worker.
  do 6 (runs_step; cbn beta).
  pose proof (inv_numbered _ _ _ _ Hinv) as [Hids Hsz Hnext]. cbn in Hsz, Hnext.
  replace (Config.bufferSize _) with (capacity W)
    by (unfold capacity; cbn; by rewrite (inv_config _ _ _ _ Hinv)).
  apply runs_bind. eapply runs_mono; [by apply session_made|]. cbn beta.
  intros p s1 (c & H1 & Hp & Hh1 & Hw1 & Hm1 & Hid & Hfd & Had & Hcl).
  assert (heap s1 !! p = Some c) as Hp1 by (rewrite Hh1; apply lookup_insert_eq).
  change (try_catch _ _) with (try_catch (register_both p) (λ _, register_undo p)).
  apply runs_bind. eapply runs_mono; [by apply (registered_spec W (p :: local) n p c)|].
  cbn beta. intros b s2 (H2 & Hw2 & Hh2 & Ht2 & Hm2).
  lazymatch goal with
  | |- runs _ ?R _ => change (runs (settle p (nextSessionId_ (worker s)) b) R s2)
  end.
  rewrite <- Hid.
  assert (worker s2 = set_nextSessionId (u64 (nextSessionId_ (worker s) + 1)) (worker s))
    as Hw by by rewrite Hw2, Hw1.
  eapply runs_mono; [apply (settle_spec W local n s2 p c b); [done..|congruence| |]|].
  - rewrite Hw. cbn. rewrite Hid. destruct (sessions_ (worker s) !! _) eqn:Hx; [|done].
    apply Hids in Hx. lia.
  - rewrite Hw. cbn. unwrap64. lia.
  - cbn beta. intros [] s3 (H3 & Hh3 & Hw3 & Hl3 & Hm3). split; [done|].
    destruct b; [right|left].
    + exists p, c. rewrite (Hl3 eq_refl).
      split_and!; [done|congruence|congruence|done..|congruence|by apply Ht2].
    + split_and!; [|right; congruence|congruence].
      rewrite Hh3, Hh2, Hh1. by apply delete_insert_id.
Qed.

Lemma inv_less W local n n' s : (n ≤ n')%nat → inv W local n' s → inv W local n s.
Proof using Type. intros Hle []. split; try done. destruct inv_numbered0. split; [done..|lia]. Qed.

Lemma inv_fewer W local n s : inv W local (S n) s → inv W local n s.
Proof using Type. apply inv_less. lia. Qed.

(** A client that cannot be served: its descriptor and the lease go. *)
Lemma turned_down W local n s0 s client l :
  bounded W → inv (keep [Unused (fd client)] (lend l W)) local (S n) s →
  worker s = worker s0 → heap s = heap s0 →
  Metrics.rejected_ (metrics s) = u64 (Metrics.rejected_ (metrics s0) + 1) →
  runs (sys_close (fd client) ;; BackendPool.destroy l)
    (λ _ s', inv W local n s' ∧ refused client s0 s') s.
Proof using Type.
  intros HW Hinv Hw Hh Hm. apply runs_bind.
  eapply runs_mono; [apply (close_kept (lend l W)), (inv_rest (lend l W) [Unused (fd client)])|].
  { intros L. apply (estate_used [fd client]). }
  { exact Hinv. }
  intros [] s1 [H1 (Hw1 & Hh1 & Hm1)]. cbn beta.
  eapply runs_mono; [by apply (release_kept W l)|].
  intros [] s2 [H2 (Hw2 & Hh2 & Hm2)]. split; [by apply inv_fewer|].
  split_and!; [congruence|left; congruence|congruence].
Qed.

(** The connection attempt of [createSession]. *)
Lemma connect_or_refuse W local n s0 s client l endpoint :
  bounded W → inv (lend l (keep [Unused (fd client)] W)) local (S n) s → kept s0 s →
  is_Some (BackendPool.backend_ l) →
  runs (try_catch (r ← Net.connectNonBlocking endpoint; mret (Some r))
      (λ _,
        on_lease l Backend.recordConnectFailure ;;
        on_metrics Metrics.onConnectFailure ;;
        on_metrics Metrics.onRejected ;;
        sys_close (fd client) ;;
        BackendPool.destroy l ;;
        mret None))
    (λ o s', match o with
      | Some r => inv (keep [Unused (Net.fd r); Unused (fd client)] (lend l W)) local (S n) s' ∧
          kept s s' ∧ 0 <= Net.fd r
      | None => inv W local n s' ∧ refused client s0 s'
      end) s.
Proof using KL.
  intros HW Hinv (Hw & Hh & Hm) Hl.
  apply (runs_catch _ _ _ (asked s)).
  - pose proof (connect_held (keep [Unused (fd client)] (lend l W)) local (S n) endpoint s Hinv) as Hc.
    unfold mbind, ST_bind. destruct (Net.connectNonBlocking endpoint s) as [[r|e|] s1];
      [|done..]. by destruct Hc as (? & ? & ? & _).
  - intros _ s1 H1. apply runs_bind. eapply runs_mono.
    { by apply (on_lease_calm (lend l (keep [Unused (fd client)] W))). }
    cbn beta. intros [] s2 [H2 (Hw2 & Hh2 & Hm2)]. destruct (H1) as (Hw1 & Hh1 & Hm1 & _).
    unfold on_metrics. do 4 (runs_step; cbn beta).
    apply runs_assoc, runs_bind. eapply runs_mono.
    { eapply (turned_down W local n s0); [done| |cbn; congruence..|cbn; congruence].
      eapply inv_calm; [|by apply metrics_calm]. eapply inv_calm; [|by apply metrics_calm].
      eapply inv_calm; [|exact H2]. by eapply inv_calm, asked_calm. }
    cbn beta. intros [] s3 H3. by apply runs_ret.
Qed.

Lemma createSession_spec W local n s client :
  bounded W → inv (keep [Unused (fd client)] W) local (S n) s → 0 <= fd client →
  runs (createSession client) (λ _ s', inv W local n s' ∧
    (refused client s s' ∨ admitted client s s')) s.
Proof using KL.
  intros HW Hinv Hcf. unfold createSession. apply runs_bind.
  eapply runs_mono; [by apply (acquire_lent (keep [Unused (fd client)] W))|]. cbn beta.
  intros l s1 (H1 & (Hw1 & Hh1 & Hm1) & Hnode).
  destruct (BackendPool.backend_ l) as [i|] eqn:Hl.
  - unfold valid. rewrite Hl. cbn [negb]. runs_steps.
    destruct (Hnode i eq_refl) as [node Hi]. cbn [mbind option_bind]. rewrite Hi.
    apply runs_bind. eapply runs_mono.
    { apply (connect_or_refuse W local n s s1 client l); done. }
    intros [r|] s2 H2; cbn beta iota in H2; [|apply runs_ret; naive_solver].
    destruct H2 as (H2 & (Hw2 & Hh2 & Hm2) & Hr).
    eapply runs_mono; [apply (admit_client_spec W local n s2 client r l); [done| |done..|]|].
    + apply (inv_swap (lend l W) [Unused (Net.fd r); Unused (fd client)]); [solve_Permutation|exact H2].
    + by rewrite Hl.
    + intros [] s3 [H3 H3']. split; [done|]. unfold refused, admitted in *.
      by rewrite Hw2, Hh2, Hm2, Hw1, Hh1, Hm1 in H3'.
  - unfold valid. rewrite Hl. cbn [negb]. apply runs_bind, runs_modify.
    eapply runs_mono; [apply (turned_down W local n s); [done| |done|done|]|].
    + eapply inv_calm; [exact H1|by apply metrics_calm].
    + cbn. by rewrite Hm1.
    + intros [] s2 [H2 H2']. auto.
Qed.
End operations.

End WorkerSessions.
