(* ===== verification/WorkerTurn.v ===== *)
(** * One turn of a worker's loop

    A batch of epoll events, the reaping of the sessions that closed, the
    sweep of the ones that timed out, and the shutdown.  Every operation
    keeps the books of [WorkerInvariant] and ends; destruction is deferred:
    within a batch no session goes. *)

From S2P Require Import Prelude Text Posix Streams ByteBuffer UniqueFd Metrics Config Net Backend BackendPool ProxySession SessionSteps SessionStream SessionEstate SessionEvents Acceptor Traces Worker WorkerTrace WorkerInvariant WorkerSessions.
Local Open Scope Z_scope.

Module WorkerTurn.
Import UniqueFd (UniqueFd, mkUniqueFd, get).
Import BackendPool (BackendPool, BackendLease, accounts, on, valid).
Import ProxySession (ProxySession, mkEnv, on_lease).
Import SessionSteps (core, io_step, io_steps).
Import Traces Streams SessionEstate Worker WorkerTrace WorkerInvariant WorkerSessions.

Implicit Types H : gmap nat ProxySession.
Implicit Types W : surroundings.

(** ** What the event handler leaves alone *)

Record framed (s s' : ProxySession.env) : Prop := {
  framed_gauge : Metrics.active_ (ProxySession.metrics s') = Metrics.active_ (ProxySession.metrics s);
  framed_pool count : accounts count (ProxySession.pool s) → accounts count (ProxySession.pool s')
}.

#[export] Instance framed_preorder : PreOrder framed.
Proof.
  split; [by split|]. intros s1 s2 s3 [] []. split; try congruence; auto.
Qed.

Lemma on_node_accounts count i f s :
  (∀ b, Backend.weight (f b) = Backend.weight b ∧
        Backend.activeConnections (f b) = Backend.activeConnections b) →
  accounts count (ProxySession.pool s) →
  accounts count (ProxySession.pool (SessionSteps.on_node i f s)).
Proof.
  intros Hf Hc. eapply BackendPool.accounts_ext, (BackendPool.accounts_alter count _ i f 0);
    [|exact Hc|apply Hc|].
  - intros j. cbn. case_decide; lia.
  - intros b _. destruct (Hf b) as [-> ->]. split; [done|lia].
Qed.

Lemma io_step_framed {K : Kernel} events s s' : io_step events s s' → framed s s'.
Proof.
  destruct 1 as [d|d bs|d|d|d n|d|d|fd|i tr|i r tr|]; split; cbn; try done; try by destruct d.
  - intros count. by apply on_node_accounts.
  - intros count. by apply on_node_accounts.
Qed.

Lemma io_steps_framed {K : Kernel} events s s' : io_steps events s s' → framed s s'.
Proof.
  induction 1 as [|s1 s2 s3 H1 _ IH]; [done|]. etrans; [by eapply io_step_framed|done].
Qed.

(** ** Progress of the heap *)

(** Every session is still there, the same one. *)
Definition onward (s s' : env) : Prop := ∀ p c, heap s !! p = Some c →
  ∃ c', heap s' !! p = Some c' ∧ core c' = core c.

#[export] Instance onward_preorder : PreOrder onward.
Proof.
  split; [intros s p c Hp; eauto|]. intros s1 s2 s3 H12 H23 p c Hp.
  destruct (H12 p c Hp) as (c2 & Hp2 & E2). destruct (H23 p c2 Hp2) as (c3 & Hp3 & E3).
  exists c3. split; [done|congruence].
Qed.

Lemma calm_onward W s s' : calm W s s' → onward s s'.
Proof.
  intros Hc p c Hp. pose proof (f_equal (lookup p) (calm_core _ _ _ Hc)) as E.
  rewrite !lookup_fmap, Hp in E. destruct (heap s' !! p) as [c'|]; [|done].
  exists c'. cbn in E. split; [done|congruence].
Qed.

Lemma created_onward client s s' : refused client s s' ∨ admitted client s s' → onward s s'.
Proof.
  intros [(Hh & _)|(p & c & Hp & Hh & _)] q c' Hq; rewrite Hh; [eauto|].
  exists c'. split; [|done]. rewrite lookup_insert_ne by congruence. done.
Qed.

(** With the books in order, the maps only grow as well. *)
Lemma onward_maps W local n n' s s' :
  inv W local n s → inv W local n' s' → onward s s' →
  sessions_ (worker s) ⊆ sessions_ (worker s') ∧
  fdToSession_ (worker s) ⊆ fdToSession_ (worker s').
Proof.
  intros Hinv Hinv' Hon. destruct (inv_linked _ _ _ _ Hinv) as [Hs Hf _ _].
  destruct (inv_linked _ _ _ _ Hinv') as [Hs' Hf' _ _].
  split; apply map_subseteq_spec.
  - intros id p (c & [Hp Hl] & <-)%Hs. apply Hs'.
    destruct (Hon p c Hp) as (c' & Hp' & E). exists c'. split; [done|].
    unfold core, ProxySession.id in *. congruence.
  - intros fd p (c & [Hp Hl] & Hfd)%Hf. apply Hf'.
    destruct (Hon p c Hp) as (c' & Hp' & E). exists c'. split; [done|].
    unfold core, owned_fds, ProxySession.clientFd, ProxySession.upstreamFd in *.
    by replace (ProxySession.clientFd_ c') with (ProxySession.clientFd_ c) by congruence;
      replace (ProxySession.upstreamFd_ c') with (ProxySession.upstreamFd_ c) by congruence.
Qed.

Section turn.
Context {K : Kernel} {KL : KernelLaws K} {MO : MapOrder}.
Context (signals wakes : nat) `{!FewInterrupts K signals} `{!WakeLaws K wakes}.
Context (W : surroundings) (HW : bounded W).

(** Enough turns for every inner loop. *)
Definition fuelled (fuel : nat) : Prop :=
  SessionEvents.fuel_for signals (capacity W) fuel ∧ (wakes < fuel)%nat.

(** ** Calling a session *)

Lemma session_buffers c m pl lg : session_ok (capacity W) c →
  SessionStream.buffers_ok (capacity W) (mkEnv c m pl lg).
Proof using Type. intros (_ & _ & _ & Hb). exact Hb. Qed.

Lemma session_core_ok c c' : session_ok (capacity W) c → core c' = core c →
  (∀ d, ByteBuffer.wf (ProxySession.buffer d c') ∧
        ByteBuffer.size (ProxySession.buffer d c') = capacity W) →
  session_ok (capacity W) c'.
Proof using Type.
  intros (Hc & Hu & Hl & _) E Hb. unfold core in E. split_and!.
  - unfold ProxySession.clientFd in *. congruence.
  - unfold ProxySession.upstreamFd in *. congruence.
  - destruct Hl as [i Hi]. exists i. congruence.
  - done.
Qed.

(** The session [p] has become [c'], of the same core. *)
Lemma updated_calm s e p c c' :
  heap s !! p = Some c → core c' = core c →
  (session_ok (capacity W) c → session_ok (capacity W) c') →
  framed (mkEnv c (metrics s) (pool s) (log s)) e → ProxySession.session e = c' →
  (∀ L, estate (claim_of c :: L) (log s) → estate (claim_of c' :: L) (ProxySession.log e)) →
  calm W s (mkWenv (worker s) (<[p := c']> (heap s))
    (ProxySession.metrics e) (ProxySession.pool e) (ProxySession.log e)).
Proof using Type.
  intros Hp E Hok [] He Hes. split; cbn; try done.
  - rewrite fmap_insert, E. apply insert_id. by rewrite lookup_fmap, Hp.
  - intros H. apply map_Forall_insert_2; [by apply Hok, (H p)|done].
  - intros L. rewrite (session_claims_delete (heap s) p c) by done.
    rewrite (session_claims_delete (<[p := c']> (heap s)) p c') by apply lookup_insert_eq.
    rewrite delete_insert_eq. apply Hes.
Qed.

Lemma call_handleEvent local n s p c fuel fd events :
  inv W local n s → heap s !! p = Some c → fuelled fuel →
  runs (call p (ProxySession.handleEvent fuel fd events)) (λ b s', calm W s s' ∧
    ∃ c', heap s' = <[p := c']> (heap s) ∧ ProxySession.closing c' = negb b) s.
Proof using KL FewInterrupts0.
  intros Hinv Hp [Hfuel _]. pose proof (inv_ok _ _ _ _ Hinv p c Hp) as Hok.
  set (e := mkEnv c (metrics s) (pool s) (log s)).
  destruct (Hok) as (_ & _ & [i Hi] & _).
  destruct (SessionEvents.handleEvent_ends signals (capacity W) fuel fd events i e)
    as (b & e' & He & Hb & Hcl); [by apply session_buffers|done|done|].
  pose proof (SessionSteps.handleEvent_io fuel fd events i e Hi) as Hio. rewrite He in Hio.
  pose proof (SessionSteps.io_steps_core _ _ _ Hio) as E.
  exists b, (mkWenv (worker s) (<[p := ProxySession.session e']> (heap s))
    (ProxySession.metrics e') (ProxySession.pool e') (ProxySession.log e')).
  split; [unfold call; rewrite Hp; fold e; by rewrite He|]. split; [|by exists (ProxySession.session e')].
  eapply updated_calm; [done|exact E| |by eapply io_steps_framed|done|].
  - intros _. by apply (session_core_ok c).
  - intros L HL. apply (io_steps_estate (capacity W) events e e'); [|done..]. by apply session_buffers.
Qed.

Lemma call_markClosing s p c :
  heap s !! p = Some c →
  runs (call p (ProxySession.on_session ProxySession.markClosing)) (λ _ s', calm W s s' ∧
    heap s' = <[p := ProxySession.markClosing c]> (heap s)) s.
Proof using Type.
  intros Hp. eexists _, _. split; [unfold call; by rewrite Hp|]. split; [|done].
  by eapply (updated_calm s (mkEnv (ProxySession.markClosing c) (metrics s) (pool s) (log s))).
Qed.

(** ** The queue *)

Lemma clear_wake_spec fuel s : (wakes - wake_run (log s) < fuel)%nat →
  runs (clear_wake fuel) (λ _ s', asked s s') s.
Proof using WakeLaws0.
  revert s. induction fuel as [|fuel IH]; intros s Hf; [lia|]. cbn [clear_wake].
  runs_steps. unfold sys_wake_read.
  set (r := k_wake_read (log s) (get (wakeFd_ (worker s)))).
  exists r, (upd (EvWakeRead (get (wakeFd_ (worker s))) r :: log s) s).
  split; [done|]. set (s1 := upd _ s).
  assert (asked s s1) as H1 by (split_and!; try done; by apply hushed_event).
  destruct r as [v|e] eqn:Hr; [|by apply runs_ret]. destruct (0 <? v); [|by apply runs_ret].
  eapply runs_mono; [apply IH|intros [] s2 H2; by etrans].
  cbn. destruct (decide (wakes ≤ wake_run (log s))%nat) as [Hw|]; [|lia].
  by destruct (wake_read_drains (log s) (get (wakeFd_ (worker s))) v Hw).
Qed.

(** Nothing of the worker's control has changed. *)
Definition steady (s s' : env) : Prop :=
  onward s s' ∧ queue_ (worker s') = queue_ (worker s) ∧
  running_ (worker s') = running_ (worker s).

#[local] Instance steady_preorder : PreOrder steady.
Proof using Type.
  split; [by intros s; split_and!|]. intros s1 s2 s3 (H1 & ? & ?) (H2 & ? & ?).
  split_and!; [by etrans|congruence|congruence].
Qed.

Lemma calm_steady s s' : calm W s s' → steady s s'.
Proof using Type.
  intros Hc. split; [by eapply calm_onward|]. by rewrite (calm_worker _ _ _ Hc).
Qed.

Lemma created_steady client s s' : refused client s s' ∨ admitted client s s' → steady s s'.
Proof using Type.
  intros H. split; [by eapply created_onward|].
  destruct H as [(_ & [->| ->] & _)|(p & c & _ & _ & -> & _)]; done.
Qed.

Lemma kept_steady s s' : kept s s' → steady s s'.
Proof using Type.
  intros (Hw & Hh & _). split; [|by rewrite Hw]. intros p c. rewrite Hh. eauto.
Qed.

Lemma drain_spec local n l s :
  inv (keep (Unused <$> (fd <$> l)) W) local (length l + n) s → Forall (λ c, 0 <= fd c) l →
  runs (drain l) (λ _ s', inv W local n s' ∧ steady s s') s.
Proof using KL HW.
  revert s. induction l as [|client l IH]; intros s Hinv Hpos; cbn [drain].
  { apply runs_ret. split; [|done]. by destruct Hinv. }
  apply Forall_cons in Hpos as [Hp Hpos]. runs_steps.
  eapply (runs_mono _ (λ _ s', inv (keep (Unused <$> (fd <$> l)) W) local (length l + n) s' ∧ steady s s')).
  - destruct (negb (running_ (worker s))).
    + eapply runs_mono.
      { apply (close_kept (keep (Unused <$> (fd <$> l)) W)), inv_fewer.
        eapply (inv_rest W (Unused <$> (fd <$> (client :: l))) (Held (fd client) :: _)), Hinv.
        intros L. apply (estate_used [fd client]). }
      intros [] s1 [H1 Hk]. split; [done|by apply kept_steady].
    + eapply runs_mono.
      { by apply (createSession_spec (keep (Unused <$> (fd <$> l)) W) local (length l + n) s client). }
      intros [] s1 [H1 Hc]. split; [done|by eapply created_steady].
  - cbn beta. intros [] s1 [H1 Hs1]. eapply runs_mono; [by apply IH|].
    intros [] s2 [H2 Hs2]. split; [done|by etrans].
Qed.

(** The queue swapped out: its clients are the local's. *)
Lemma inv_swapped local n s :
  inv W local n s →
  inv (keep (Unused <$> (fd <$> queue_ (worker s))) W) local (length (queue_ (worker s)) + n)
    (mkWenv (set_queue [] (worker s)) (heap s) (metrics s) (pool s) (log s)).
Proof using Type.
  intros []. split; cbn; try done.
  - by destruct inv_linked0.
  - destruct inv_numbered0. split; cbn; [done..|]. lia.
  - unfold books, queue_claims in *. cbn.
    eapply estate_proper; [|done|exact inv_estate0]. solve_Permutation.
Qed.

Lemma drainQueue_spec local n s :
  inv W local n s →
  runs drainQueue (λ _ s', inv W local n s' ∧ onward s s' ∧ queue_ (worker s') = [] ∧
    running_ (worker s') = running_ (worker s)) s.
Proof using KL HW.
  intros Hinv. unfold drainQueue, on_worker. runs_steps.
  eapply runs_mono.
  { by apply (drain_spec local n); [apply inv_swapped|apply (inv_queue _ _ _ _ Hinv)]. }
  intros [] s1 [H1 (Hon & Hq & Hr)]. by split_and!.
Qed.

(** ** A batch of events *)

(** What follows the handler: the session is marked or polled anew. *)
Lemma react_spec s p c (keep : bool) : heap s !! p = Some c →
  runs (if negb keep then call p (ProxySession.on_session ProxySession.markClosing)
        else try_catch (updateInterests p)
          (λ _, call p (ProxySession.on_session ProxySession.markClosing)))
    (λ _ s', calm W s s') s.
Proof using KL.
  intros Hp. destruct keep; cbn [negb].
  - apply runs_catch_asks.
    + apply asks_updateInterests. eauto.
    + intros [] s1 _ H1. by apply asked_calm.
    + intros _ s1 H1. destruct (H1) as (_ & Hh & _). rewrite <- Hh in Hp.
      eapply runs_mono; [by apply call_markClosing|]. intros [] s2 [H2 _].
      etrans; [by apply asked_calm|done].
  - eapply runs_mono; [by apply call_markClosing|]. by intros [] s2 [H2 _].
Qed.

Lemma handle_one_spec local n fuel ev s :
  inv W local n s → fuelled fuel →
  runs (handle_one fuel ev) (λ _ s', inv W local n s' ∧ onward s s' ∧
    running_ (worker s') = running_ (worker s)) s.
Proof using All.
  intros Hinv Hfuel. destruct ev as [fd events]. unfold handle_one. runs_steps.
  destruct (fd =? get (wakeFd_ (worker s))).
  - apply runs_bind. eapply runs_mono; [apply clear_wake_spec; destruct Hfuel; lia|].
    intros [] s1 H1. eapply runs_mono; [apply (drainQueue_spec local n)|].
    + by eapply inv_calm, asked_calm.
    + intros [] s2 (H2 & Hon & _ & Hr). destruct (H1) as (Hw & _).
      split_and!; [done| |congruence]. etrans; [|exact Hon].
      by eapply calm_onward, (asked_calm W).
  - destruct (fdToSession_ (worker s) !! fd) as [p|] eqn:Hfd; [|by apply runs_ret].
    apply (linked_fds _ _ _ (inv_linked _ _ _ _ Hinv)) in Hfd as (c & [Hp Hl] & _).
    apply runs_bind, (runs_deref p c); [done|].
    destruct (ProxySession.closing c); [by apply runs_ret|].
    apply runs_bind. eapply runs_mono; [by apply (call_handleEvent local n s p c)|].
    cbn beta. intros keep s1 (H1 & c1 & Hh1 & _).
    apply runs_bind. eapply runs_mono.
    { apply (react_spec s1 p c1). rewrite Hh1. apply lookup_insert_eq. }
    cbn beta. intros [] s2 H2. assert (calm W s s2) as H02 by (by etrans).
    destruct (calm_onward _ _ _ H02 p c Hp) as (c2 & Hp2 & _).
    assert (inv W local n s2) as Hinv2 by (by eapply inv_calm).
    eapply runs_mono; [by apply (drop_published W p c2 local n)|].
    intros [] s3 ->. split_and!; [done|by eapply calm_onward|].
    by rewrite (calm_worker _ _ _ H02).
Qed.

Lemma batch_spec local n fuel batch s :
  inv W local n s → fuelled fuel →
  runs (for_each (handle_one fuel) batch) (λ _ s', inv W local n s' ∧ onward s s' ∧
    running_ (worker s') = running_ (worker s)) s.
Proof using All.
  intros Hinv Hfuel.
  apply (runs_for_each _ (λ _ s', inv W local n s' ∧ onward s s' ∧
    running_ (worker s') = running_ (worker s))); [by split_and!|].
  intros ev l s1 (H1 & Hon & Hr). eapply runs_mono; [by apply handle_one_spec|].
  intros [] s2 (H2 & Hon2 & Hr2). split_and!; [done|by etrans|congruence].
Qed.

End turn.

(** ** Closing and destroying a list of sessions *)

Section reaping.
Context {K : Kernel} {KL : KernelLaws K} {MO : MapOrder}.
Context (W : surroundings) (HW : bounded W).

Definition all_published (local l : list nat) H : Prop :=
  NoDup l ∧ ∀ p, p ∈ l → ∃ c, published local H p c.

(** The range-for over [sessions_] sees every published session once. *)
Lemma visit_spec local n s tr :
  inv W local n s →
  all_published local (visit tr (sessions_ (worker s))) (heap s) ∧
  ∀ p c, published local (heap s) p c → p ∈ visit tr (sessions_ (worker s)).
Proof using Type.
  intros Hinv. destruct (inv_linked _ _ _ _ Hinv) as [Hs _ _ _].
  unfold all_published. setoid_rewrite (visit_all tr (sessions_ (worker s))). split; [split|].
  - apply NoDup_fmap_2_strong; [|apply NoDup_map_to_list].
    intros [id p] [id' p'] Hi%elem_of_map_to_list Hi'%elem_of_map_to_list [= <-].
    apply Hs in Hi as (c & [Hc _] & <-). apply Hs in Hi' as (c' & [Hc' _] & <-). congruence.
  - intros p ([id q] & -> & Hi%elem_of_map_to_list)%list_elem_of_fmap.
    apply Hs in Hi as (c & Hc & _). by exists c.
  - intros p c Hp. apply list_elem_of_fmap. exists (ProxySession.id c, p). split; [done|].
    apply elem_of_map_to_list, Hs. eauto.
Qed.

(** Only the maps and the counters of the worker have changed. *)
Definition same_control (s s' : env) : Prop :=
  queue_ (worker s') = queue_ (worker s) ∧ running_ (worker s') = running_ (worker s).

Lemma closeSessions_spec local n l s :
  inv W local n s → all_published local l (heap s) →
  runs (for_each closeSession l) (λ _ s', inv W (l ++ local) n s' ∧ heap s' = heap s ∧
    same_control s s') s.
Proof using All.
  revert local s. induction l as [|p l IH]; intros local s Hinv [Hn Hl]; cbn [for_each].
  { by apply runs_ret. }
  apply NoDup_cons in Hn as [Hpl Hn]. destruct (Hl p) as [c Hp]; [set_solver|].
  apply runs_bind. eapply runs_mono; [by apply (closeSession_spec W local n s p c)|].
  cbn beta. intros [] s1 (H1 & Hh1 & Hw1). eapply runs_mono; [apply (IH (p :: local)); [done|]|].
  - split; [done|]. intros q Hq. destruct (Hl q) as [c' [Hc' Hq']]; [set_solver|].
    exists c'. rewrite Hh1. split; [done|]. set_solver.
  - cbn beta. intros [] s2 (H2 & Hh2 & Hq2 & Hr2). split; [|split; [congruence|]].
    + eapply inv_perm; [|exact H2]. cbn. by rewrite Permutation_middle.
    + by rewrite Hw1 in Hq2, Hr2.
Qed.

Lemma drops_spec local n l s :
  inv W (l ++ local) n s →
  runs (for_each drop l) (λ _ s', inv W local n s' ∧ worker s' = worker s ∧
    ∀ p, heap s' !! p = if bool_decide (p ∈ l) then None else heap s !! p) s.
Proof using All.
  revert s. induction l as [|p l IH]; intros s Hinv; cbn [for_each].
  { by apply runs_ret. }
  apply runs_bind. eapply runs_mono; [by apply (drop_last W p (l ++ local) n)|].
  cbn beta. intros [] s1 (H1 & Hw1 & Hh1 & _). eapply runs_mono; [by apply IH|].
  cbn beta. intros [] s2 (H2 & Hw2 & Hh2). split_and!; [done|congruence|].
  intros q. rewrite Hh2, Hh1. destruct (decide (q = p)) as [->|Hqp].
  - rewrite lookup_delete_eq. rewrite (bool_decide_true (p ∈ p :: l)) by set_solver.
    by case_bool_decide.
  - rewrite lookup_delete_ne by done.
    by rewrite (bool_decide_ext (q ∈ p :: l) (q ∈ l)) by set_solver.
Qed.

(** ** Reaping *)

Definition is_closing H (p : nat) : bool :=
  match H !! p with Some c => ProxySession.closing c | None => false end.

Lemma closing_among_spec ps s :
  (∀ p, p ∈ ps → is_Some (heap s !! p)) →
  runs (closing_among ps) (λ l s', s' = s ∧ l = List.filter (is_closing (heap s)) ps) s.
Proof using Type.
  clear dependent W. clear KL.
  induction ps as [|p ps IH]; intros Hps; cbn [closing_among]; [by apply runs_ret|].
  destruct (Hps p) as [c Hp]; [set_solver|].
  apply runs_bind, (runs_deref p c); [done|]. apply runs_bind.
  eapply runs_mono; [apply IH; set_solver|]. intros l s1 [-> ->]. apply runs_ret.
  split; [done|]. cbn.
  by replace (is_closing (heap s) p) with (ProxySession.closing c)
    by (unfold is_closing; by rewrite Hp).
Qed.

(** ** Timeouts *)

(** What the sweep looks for, at time [t]. *)
Definition overdue (t : Z) (c : ProxySession) : bool :=
  ProxySession.upstreamConnecting_ c &&
    (Config.connectTimeoutMs (config W) * 10 ^ 6 <=? t - ProxySession.createdAt_ c)
  || (Config.idleTimeoutSeconds (config W) * 10 ^ 9 <=? t - ProxySession.lastActivity_ c).

Lemma overdue_later t t' c : t <= t' → overdue t c = true → overdue t' c = true.
Proof using Type.
  unfold overdue. intros Ht. rewrite !orb_true_iff, !andb_true_iff, !Z.leb_le.
  intros [[? ?]|?]; [left|right]; [split; [done|]|]; lia.
Qed.

(** [t] was read off the clock at some point of the run so far. *)
Definition clock (tr : trace) (t : Z) : Prop := EvNow t ∈ tr.

(** The sessions selected by a sweep that starts at a time when the clock had
    shown [t0] and ends when it has shown [t1]. *)
Definition swept (t0 t1 : Z) (ps l : list nat) H : Prop :=
  l `sublist_of` ps ∧ ∀ p c, p ∈ ps → H !! p = Some c →
    (overdue t0 c = true → p ∈ l) ∧ (p ∈ l → overdue t1 c = true).

Lemma clock_later tr t : clock tr t → t <= k_now tr.
Proof using KL. apply now_monotone. Qed.

(** Readings of the clock, and nothing else that matters. *)
Definition timed (s s' : env) : Prop :=
  calm W s s' ∧ worker s' = worker s ∧ heap s' = heap s ∧
  ∀ t, clock (log s) t → clock (log s') t.

#[local] Instance timed_preorder : PreOrder timed.
Proof using Type.
  split; [by intros s; split_and!|]. intros s1 s2 s3 (?&?&?&?) (?&?&?&?).
  split_and!; [by etrans|congruence|congruence|auto].
Qed.

Lemma sys_now_timed s :
  runs (sys_now (S := env)) (λ t s', timed s s' ∧ clock (log s') t ∧
    ∀ t0, clock (log s) t0 → t0 <= t) s.
Proof using KL.
  eexists _, _. split; [done|]. split; [|split].
  - split; [apply asked_calm; by repeat split|]. split; [done|]. split; [done|].
    intros t. apply list_elem_of_further.
  - apply list_elem_of_here.
  - intros t0. apply clock_later.
Qed.

(** One session of the scan: is it overdue, and was it then counted? *)
Definition check_one (p : nat) (k : bool → ST env (list nat)) : ST env (list nat) :=
  w ← gets worker;
  c ← deref p;
  timedOut ← ProxySession.connectTimedOut (Config.connectTimeoutMs (config_ w)) c;
  if timedOut : bool then
    c ← deref p;
    on_lease (ProxySession.backend_ c) Backend.recordConnectFailure ;;
    on_metrics Metrics.onConnectFailure ;;
    k true
  else
    c ← deref p;
    idle ← ProxySession.idleFor (Config.idleTimeoutSeconds (config_ w)) c;
    k idle.

(** Booking a connect that timed out. *)
Lemma timeout_booked l s :
  is_Some (BackendPool.backend_ l) →
  runs (on_lease l Backend.recordConnectFailure ;; on_metrics Metrics.onConnectFailure)
    (λ _ s', timed s s' ∧ log s' = log s) s.
Proof using Type.
  intros [i Hi]. apply runs_bind. unfold on_lease. rewrite Hi. apply runs_modify, runs_modify.
  split; [|done]. split; [|done]. split; try done. intros count Hc. cbn.
  eapply BackendPool.accounts_ext,
    (BackendPool.accounts_alter count _ i Backend.recordConnectFailure 0);
    [|exact Hc|apply Hc|].
  - intros j. cbn. case_decide; lia.
  - intros b _. split; [done|]. unfold Backend.activeConnections; cbn. lia.
Qed.

Lemma check_one_spec s p c k t0 (R : list nat → env → Prop) :
  heap s !! p = Some c → session_ok (capacity W) c → config_ (worker s) = config W →
  clock (log s) t0 →
  (∀ b t s', timed s s' → clock (log s') t → t0 <= t →
    (overdue t0 c = true → b = true) → (b = true → overdue t c = true) →
    runs (k b) R s') →
  runs (check_one p k) R s.
Proof using KL.
  intros Hp Hok Hcfg Ht0 Hk. unfold check_one. runs_steps.
  apply (runs_deref p c); [done|]. rewrite Hcfg.
  unfold ProxySession.connectTimedOut, ProxySession.idleFor.
  apply runs_bind. destruct (ProxySession.upstreamConnecting_ c) eqn:Hcon.
  - apply runs_bind. eapply runs_mono; [apply sys_now_timed|]. cbn beta.
    intros t s1 (H1 & Ht & Hle). apply runs_ret. specialize (Hle t0 Ht0).
    destruct (H1) as (_ & _ & Hh1 & Hc1). rewrite <- Hh1 in Hp.
    destruct (Z.leb_spec (Config.connectTimeoutMs (config W) * 10 ^ 6)
      (t - ProxySession.createdAt_ c)) as [Hover|Hover].
    + apply runs_bind, (runs_deref p c); [done|]. apply runs_assoc, runs_bind.
      eapply runs_mono; [apply timeout_booked; by destruct Hok as (_ & _ & ? & _)|].
      cbn beta. intros [] s2 [H2 Hl2]. apply (Hk true t); [by etrans|by rewrite Hl2|done|done|].
      intros _. unfold overdue. rewrite Hcon. cbn [andb]. apply orb_true_iff. left. by apply Z.leb_le.
    + apply runs_bind, (runs_deref p c); [done|]. do 2 apply runs_bind.
      eapply runs_mono; [apply sys_now_timed|]. cbn beta.
      intros t' s2 (H2 & Ht' & Hle'). apply runs_ret. specialize (Hle' t Ht).
      apply (Hk _ t'); [by etrans|done|lia| |].
      * unfold overdue. rewrite Hcon. cbn [andb]. rewrite orb_true_iff, !Z.leb_le. lia.
      * unfold overdue. rewrite orb_true_iff. auto.
  - apply runs_ret. apply runs_bind, (runs_deref p c); [done|]. do 2 apply runs_bind.
    eapply runs_mono; [apply sys_now_timed|]. cbn beta.
    intros t s1 (H1 & Ht & Hle). apply runs_ret. specialize (Hle t0 Ht0).
    apply (Hk _ t); [done|done|done| |]; unfold overdue; rewrite Hcon; cbn [andb orb].
    + rewrite !Z.leb_le. lia.
    + done.
Qed.

Lemma swept_later t0 t1 t1' ps l H : t1 <= t1' → swept t0 t1 ps l H → swept t0 t1' ps l H.
Proof using Type.
  intros Ht [Hsub Hs]. split; [done|]. intros p c Hp Hc. destruct (Hs p c Hp Hc) as [? Hi].
  split; [done|]. intros Hl. by eapply overdue_later, Hi.
Qed.

Lemma swept_cons t0 t1 p c b ps l H :
  p ∉ ps → H !! p = Some c → swept t0 t1 ps l H →
  (overdue t0 c = true → b = true) → (b = true → overdue t1 c = true) →
  swept t0 t1 (p :: ps) (if b : bool then p :: l else l) H.
Proof using Type.
  clear HW KL. intros Hps Hp [Hsub Hs] H0 H1.
  assert (p ∉ l) as Hpl by (intros Hin; by apply Hps, (sublist_subseteq _ _ Hsub)).
  split.
  - destruct b; by constructor.
  - intros q c' [->|Hq]%elem_of_cons Hc'.
    + simplify_eq. destruct b; split; try done; try (intros; set_solver); auto.
    + assert (q ≠ p) by (by intros ->). destruct (Hs q c' Hq Hc') as [Hl Ho].
      destruct b; (split; [intros; by set_solver|set_solver]).
Qed.

Lemma expired_among_spec ps s t0 :
  NoDup ps → (∀ p, p ∈ ps → ∃ c, heap s !! p = Some c ∧ session_ok (capacity W) c) →
  config_ (worker s) = config W → clock (log s) t0 →
  runs (expired_among ps) (λ l s', timed s s' ∧
    ∃ t1, clock (log s') t1 ∧ t0 <= t1 ∧ swept t0 t1 ps l (heap s)) s.
Proof using KL.
  revert s. induction ps as [|p ps IH]; intros s Hn Hps Hcfg Ht0.
  { apply runs_ret. split; [done|]. exists t0. split; [done|]. split; [done|].
    split; [constructor|]. intros p c Hp. by apply not_elem_of_nil in Hp. }
  apply NoDup_cons in Hn as [Hpn Hn].
  destruct (Hps p) as (c & Hp & Hok); [by apply list_elem_of_here|].
  change (expired_among (p :: ps)) with (check_one p (λ b,
    rest ← expired_among ps; mret (if b : bool then p :: rest else rest))).
  eapply (check_one_spec s p c _ t0); [done..|].
  intros b t s1 H1 Ht Hle Hb0 Hb1. destruct (H1) as (_ & Hw1 & Hh1 & Hc1).
  apply runs_bind. eapply runs_mono; [apply IH|].
  - done.
  - intros q Hq. rewrite Hh1. apply Hps. by apply list_elem_of_further.
  - by rewrite Hw1.
  - by apply Hc1.
  - cbn beta. intros l s2 (H2 & t1 & Ht1 & Hle1 & Hsw). apply runs_ret.
    split; [by etrans|]. rewrite Hh1 in Hsw. destruct (H2) as (_ & _ & _ & Hc2).
    destruct (decide (t <= t1)).
    + exists t1. split; [done|]. split; [lia|]. eapply swept_cons; try done.
      intros Hb. eapply overdue_later; [|by apply Hb1]. lia.
    + exists t. split; [by apply Hc2|]. split; [lia|].
      eapply swept_cons; try done. eapply swept_later; [|exact Hsw]. lia.
Qed.

(** What the clock has shown stays in the history. *)
Definition past (t : Z) (s : env) : Prop := clock (log s) t.

Lemma past_closeSession t p : preserves (past t) (closeSession p).
Proof using K MO. exact (keeps_closeSession (shown t) p). Qed.

Lemma past_drop t p : preserves (past t) (drop p).
Proof using K MO. exact (keeps_drop (shown t) p). Qed.

Lemma past_for_each {A} t (body : A → ST env unit) l s R :
  (∀ x, preserves (past t) (body x)) → runs (for_each body l) R s → past t s →
  runs (for_each body l) (λ a s', R a s' ∧ past t s') s.
Proof using Type.
  intros Hb (a & s1 & Hm & HR) Hs. exists a, s1. split; [done|]. split; [done|].
  pose proof (preserves_for_each (past t) body l (λ x _, Hb x) s Hs) as H. by rewrite Hm in H.
Qed.

Lemma past_sweep t : preserves (past t) sweepIdleSessions.
Proof using K MO. exact (keeps_sweep (shown t)). Qed.

(** The sweep, between a time [t0] already shown and one shown when it is
    over. *)
Lemma sweepIdleSessions_spec local n s t0 :
  inv W local n s → past t0 s →
  runs sweepIdleSessions (λ _ s', inv W local n s' ∧ same_control s s' ∧
    ∃ (l : list nat) t1, past t1 s' ∧ t0 <= t1 ∧
      (∀ p, heap s' !! p = if bool_decide (p ∈ l) then None else heap s !! p) ∧
      ∀ p, (p ∈ l → ∃ c, published local (heap s) p c ∧ overdue t1 c = true) ∧
        ∀ c, published local (heap s) p c → overdue t0 c = true → p ∈ l) s.
Proof using All.
  intros Hinv Ht0. unfold sweepIdleSessions. runs_steps.
  set (ps := visit (log s) (sessions_ (worker s))).
  destruct (visit_spec local n s (log s) Hinv) as [[Hn Hpub] Hall].
  eapply runs_mono; [apply (expired_among_spec ps s t0); [done| | |done]|].
  { intros p Hp. destruct (Hpub p Hp) as (c & Hc & _). exists c. split; [done|].
    by apply (inv_ok _ _ _ _ Hinv p). }
  { apply Hinv. }
  cbn beta. intros l s1 ((Hc1 & Hw1 & Hh1 & Hp1) & t1 & Ht1 & Hle & Hsub & Hsw).
  assert (inv W local n s1) as H1 by (by eapply inv_calm).
  assert (all_published local l (heap s1)) as Hl.
  { rewrite Hh1. split; [by eapply sublist_NoDup|].
    intros p Hp. apply Hpub. by eapply sublist_subseteq. }
  apply runs_bind. eapply runs_mono.
  { apply (past_for_each t1); [apply past_closeSession| |exact Ht1].
    by apply (closeSessions_spec local n l s1). }
  cbn beta. intros [] s2 [(H2 & Hh2 & Hq2 & Hr2) Ht2].
  eapply runs_mono.
  { apply (past_for_each t1); [apply past_drop| |exact Ht2]. by apply (drops_spec local n l s2). }
  cbn beta. intros [] s3 [(H3 & Hw3 & Hh3) Ht3]. split; [done|]. split.
  { unfold same_control. by rewrite Hw3, Hq2, Hr2, Hw1. }
  exists l, t1. split; [done|]. split; [done|]. split; [intros p; by rewrite Hh3, Hh2, Hh1|].
  intros p. split.
  - intros Hp. assert (p ∈ ps) as Hps by by eapply sublist_subseteq.
    destruct (Hpub p Hps) as (c & Hc). exists c. split; [done|].
    by apply (Hsw p c Hps (proj1 Hc)).
  - intros c Hc. apply (Hsw p c (Hall p c Hc) (proj1 Hc)).
Qed.
End reaping.

End WorkerTurn.
