(* ===== verification/WorkerRun.v ===== *)
(** * The life of a worker's thread

    One turn of the loop, the shutdown after it, and [run] as a whole, with
    the clients the main thread hands over meanwhile. *)

From S2P Require Import Prelude Text Posix Streams ByteBuffer UniqueFd Metrics Config Net Backend BackendPool ProxySession SessionSteps SessionStream SessionEvents Traces Acceptor Worker WorkerTrace WorkerInvariant WorkerSessions WorkerTurn.
Local Open Scope Z_scope.

Module WorkerRun.
Import UniqueFd (UniqueFd, mkUniqueFd, get).
Import BackendPool (BackendPool, accounts).
Import ProxySession (ProxySession).
Import Streams Traces Worker WorkerTrace WorkerInvariant WorkerSessions WorkerTurn.

Section run.
Context {K : Kernel} {KL : KernelLaws K} {MO : MapOrder}.
Context (signals wakes : nat) `{!FewInterrupts K signals} `{!WakeLaws K wakes}.
Context (W : surroundings) (HW : bounded W).

(** ** A turn *)

(** [now] is what the clock said when it was first read after [tr]. *)
Definition untimed (tr tr' : trace) : Prop :=
  ∃ calls, tr' = calls ++ tr ∧ Forall (λ e, ∀ t, e ≠ EvNow t) calls.

Definition reading (now : Z) (tr tr' : trace) : Prop :=
  ∃ before later, untimed tr before ∧ now = k_now before ∧ tr' = later ++ EvNow now :: before.

#[local] Instance reading_lasting now tr : Lasting (reading now tr).
Proof using Type.
  intros e tr' _ (before & later & Hu & Hn & ->). by exists before, (e :: later).
Qed.

Lemma untimed_closeSession tr p : preserves (λ s, untimed tr (log s)) (closeSession p).
Proof using Type.
  assert (∀ op fd events, preserves (S := env) (λ s, untimed tr (log s)) (sys_epoll_ctl op fd events))
    as Hctl.
  { intros op fd events s (calls & Hs & Hc). eexists (_ :: calls). cbn.
    rewrite Hs. split; [done|]. by constructor. }
  unfold closeSession, unregisterFd, on_worker, on_metrics, deref.
  repeat first [ apply preserves_bind; [|intros ?] | apply preserves_gets | apply preserves_ret
               | apply Hctl | by intros ? ? | case_match ].
  intros s Hs. by case_match.
Qed.

(** What is left of the sessions of [H1] once the closing ones are reaped
    and, if a sweep was due at [now], the overdue ones. *)
Definition reaped (lastSweep now : Z) (H1 : gmap nat ProxySession) (s' : env) : Prop :=
  let due := 10 ^ 9 <=? now - lastSweep in
  (∀ p, H1 !! p = None → heap s' !! p = None) ∧
  ∀ p c, H1 !! p = Some c →
    if ProxySession.closing c || due && overdue W now c then heap s' !! p = None
    else heap s' !! p = Some c ∨
      due = true ∧ heap s' !! p = None ∧ ∃ t1, past t1 s' ∧ overdue W t1 c = true.

(** None of the sessions left is closing. *)
Definition none_closing (s : env) : Prop :=
  map_Forall (λ _ c, ProxySession.closing c = false) (heap s).

Lemma reaped_none_closing lastSweep now H1 s' : reaped lastSweep now H1 s' → none_closing s'.
Proof using Type.
  intros [Hnone Hsome] p c Hp. destruct (H1 !! p) as [c1|] eqn:Hc1; [|by rewrite Hnone in Hp].
  specialize (Hsome p c1 Hc1). destruct (ProxySession.closing c1) eqn:Hc; cbn [orb] in Hsome.
  { congruence. }
  case_match; [congruence|]. destruct Hsome as [?|(_ & ? & _)]; congruence.
Qed.

(** The second half of a turn, after the batch. *)
Definition reap (lastSweep : Z) : ST env Z :=
  s ← gets (λ s, s);
  closing ← closing_among (visit (log s) (sessions_ (worker s)));
  for_each closeSession closing ;;
  now ← sys_now;
  lastSweep ← (if 10 ^ 9 <=? now - lastSweep then sweepIdleSessions ;; mret now
               else mret lastSweep);
  for_each drop closing ;;
  mret lastSweep.

Lemma keeps_sweep_if_due (P : trace → Prop) `{!Lasting P} (due : bool) (now lastSweep : Z) :
  preserves (λ s, P (log s))
    (if due then sweepIdleSessions ;; mret now else mret lastSweep : ST env Z).
Proof using Type.
  destruct due; [|apply preserves_ret]. apply preserves_bind; [|intros []; apply preserves_ret].
  exact (keeps_sweep P).
Qed.

Lemma sweep_if_due local n lastSweep now s :
  inv W local n s → past now s →
  let due := 10 ^ 9 <=? now - lastSweep in
  runs (if due then sweepIdleSessions ;; mret now else mret lastSweep) (λ last s',
    inv W local n s' ∧ same_control s s' ∧ last = (if due then now else lastSweep) ∧
    past now s' ∧ ∃ (gone : list nat) t1, past t1 s' ∧
      (∀ p, heap s' !! p = if bool_decide (p ∈ gone) then None else heap s !! p) ∧
      ∀ p, (p ∈ gone → due = true ∧ ∃ c, published local (heap s) p c ∧ overdue W t1 c = true) ∧
        ∀ c, published local (heap s) p c → due = true → overdue W now c = true → p ∈ gone) s.
Proof using KL HW.
  intros Hinv Hnow due. destruct due.
  - apply runs_bind. destruct (sweepIdleSessions_spec W HW local n s now Hinv Hnow)
      as ([] & s1 & Hs & H1 & Hc1 & gone & t1 & Ht1 & _ & Hh1 & Hg).
    exists tt, s1. split; [done|]. apply runs_ret. split; [done|]. split; [done|]. split; [done|].
    split. { pose proof (past_sweep now s Hnow) as Hp. by rewrite Hs in Hp. }
    exists gone, t1. split; [done|]. split; [done|]. intros p.
    destruct (Hg p) as [Hg1 Hg2]. split; [intros Hp; split; [done|by apply Hg1]|].
    intros c Hc _. by apply Hg2.
  - apply runs_ret. split; [done|]. split; [done|]. split; [done|]. split; [done|].
    exists [], now. split; [done|]. split; [done|]. intros p.
    split; [intros Hp; by apply not_elem_of_nil in Hp|done].
Qed.

Lemma reap_spec n lastSweep s :
  inv W [] n s →
  runs (reap lastSweep) (λ last s', inv W [] n s' ∧ same_control s s' ∧ ∃ now,
    last = (if 10 ^ 9 <=? now - lastSweep then now else lastSweep) ∧
    reading now (log s) (log s') ∧ reaped lastSweep now (heap s) s') s.
Proof using KL HW.
  intros Hinv. unfold reap. runs_steps.
  destruct (visit_spec W [] n s (log s) Hinv) as [[Hn Hpub] Hall].
  set (ps := visit (log s) (sessions_ (worker s))) in *.
  eapply runs_mono; [apply closing_among_spec|].
  { intros p Hp. destruct (Hpub p Hp) as (c & Hc & _). by exists c. }
  cbn beta. intros l s0 [-> Hl].
  assert (all_published [] l (heap s)) as Hlp.
  { rewrite Hl. split; [by apply NoDup_ListNoDup, List.NoDup_filter, NoDup_ListNoDup|].
    intros p Hp. apply Hpub. apply list_elem_of_In, filter_In in Hp as [Hp _].
    by apply list_elem_of_In. }
  apply runs_bind. eapply runs_mono.
  { apply (runs_preserves (λ s1, untimed (log s) (log s1))).
    - apply preserves_for_each. intros p _. apply untimed_closeSession.
    - by exists [].
    - by apply (closeSessions_spec W HW [] n l). }
  cbn beta. intros [] s1 [(H1 & Hh1 & Hc1) Hu]. apply runs_bind.
  eapply runs_mono; [apply runs_eq, (sys_now_timed W)|]. cbn beta.
  intros now s2 [((Hcalm & Hw2 & Hh2 & _) & Hnow & _) E].
  assert (reading now (log s) (log s2)) as Hrd.
  { unfold sys_now, syscall in E. injection E as <- <-. by exists (log s1), []. }
  assert (inv W (l ++ []) n s2) as H2 by (by eapply inv_calm).
  apply runs_bind. eapply runs_mono.
  { apply (runs_preserves (λ s', reading now (log s) (log s'))); [|exact Hrd|].
    { exact (keeps_sweep_if_due (reading now (log s)) _ now lastSweep). }
    by apply (sweep_if_due (l ++ []) n lastSweep now). }
  cbn beta. intros last s3 [(H3 & Hc3 & -> & _ & gone & t1 & Ht1 & Hh3 & Hg) Hn3].
  apply runs_bind. eapply runs_mono.
  { apply (past_for_each t1); [apply past_drop| |exact Ht1].
    apply (runs_preserves (λ s', reading now (log s) (log s'))); [|exact Hn3|].
    - apply preserves_for_each. intros p _. exact (keeps_drop (reading now (log s)) p).
    - by apply (drops_spec W HW [] n l). }
  cbn beta. intros [] s4 [[(H4 & Hw4 & Hh4) Hn4] Ht4]. apply runs_ret.
  split; [done|]. split.
  { unfold same_control in *. rewrite Hw4. destruct Hc1, Hc3. rewrite Hw2 in *. split; congruence. }
  exists now. split; [done|]. split; [done|]. split.
  - intros p Hp. rewrite Hh4, Hh3, Hh2, Hh1, Hp. by repeat case_bool_decide.
  - intros p c Hp. assert (heap s2 !! p = Some c) as Hp2 by congruence.
    assert (p ∈ l ↔ ProxySession.closing c = true) as Hlc.
    { rewrite Hl, list_elem_of_In, filter_In, <- list_elem_of_In. unfold is_closing. rewrite Hp.
      split; [by intros []|]. intros Hc. split; [|done]. apply (Hall p c). split; [done|].
      apply not_elem_of_nil. }
    rewrite Hh4, Hh3, Hp2. rewrite app_nil_r in Hg.
    destruct (ProxySession.closing c); cbn [orb].
    { rewrite bool_decide_true by by apply Hlc. done. }
    assert (p ∉ l) as Hpl by (intros Hx; by apply Hlc in Hx).
    rewrite (bool_decide_false (p ∈ l)) by done.
    assert (published l (heap s2) p c) as Hpub2 by done.
    destruct (Hg p) as [Hg1 Hg2]. destruct (decide (p ∈ gone)) as [Hpg|Hpg].
    + rewrite (bool_decide_true (p ∈ gone)) by done. case_match; [done|]. right.
      destruct (Hg1 Hpg) as [-> (c' & [Hc' _] & Ho)]. simplify_eq. by eauto.
    + rewrite (bool_decide_false (p ∈ gone)) by done.
      destruct (_ && _) eqn:Hb; [|by left]. apply andb_true_iff in Hb as [Hd Ho].
      destruct Hpg. by eapply Hg2.
Qed.

Lemma turn_spec n fuel batch lastSweep s :
  inv W [] n s → fuelled signals wakes W fuel →
  runs (turn fuel batch lastSweep) (λ last s', inv W [] n s' ∧
    running_ (worker s') = running_ (worker s) ∧ ∃ s1 now,
    for_each (handle_one fuel) batch s = (Val tt, s1) ∧ inv W [] n s1 ∧ onward s s1 ∧
    last = (if 10 ^ 9 <=? now - lastSweep then now else lastSweep) ∧
    reading now (log s1) (log s') ∧ reaped lastSweep now (heap s1) s') s.
Proof using All.
  intros Hinv Hfuel.
  destruct (batch_spec signals wakes W HW [] n fuel batch s Hinv Hfuel)
    as ([] & s1 & Hb & H1 & Hon & Hr).
  destruct (reap_spec n lastSweep s1 H1) as (last & s2 & Hreap & H2 & [_ Hr2] & now & Hl & Hn & Hrp).
  exists last, s2. split.
  - unfold turn. unfold mbind at 1, ST_bind at 1. rewrite Hb. exact Hreap.
  - split; [done|]. split; [congruence|]. by exists s1, now.
Qed.

(** ** After the loop *)

Lemma close_all_spec local n q s :
  inv W local n s → queue_ (worker s) = q →
  runs (close_all q) (λ _ s', inv W local n s' ∧ queue_ (worker s') = []) s.
Proof using Type.
  revert s. induction q as [|client q IH]; intros s Hinv Hq; cbn [close_all].
  { by apply runs_ret. }
  apply runs_bind. eexists _, _. split; [done|]. unfold on_worker. runs_steps.
  apply IH; [|done]. destruct Hinv. rewrite Hq in *. split; cbn; try done.
  - by destruct inv_linked0.
  - destruct inv_numbered0 as [? ? Hn]. rewrite Hq in Hn. cbn in Hn. split; cbn; [done..|lia].
  - by inversion inv_queue0.
  - apply (estate_close (fd client)), (estate_used [fd client]).
    unfold books, queue_claims in *. cbn. rewrite Hq in inv_estate0.
    eapply estate_proper; [|done|exact inv_estate0]. cbn. solve_Permutation.
Qed.

(** Nothing of this worker is left but itself. *)
Definition vacant (s : env) : Prop :=
  heap s = ∅ ∧ queue_ (worker s) = [] ∧ sessions_ (worker s) = ∅ ∧ fdToSession_ (worker s) = ∅.

Lemma unlinked n s :
  inv W [] n s → heap s = ∅ → sessions_ (worker s) = ∅ ∧ fdToSession_ (worker s) = ∅.
Proof using Type.
  intros Hinv Hh. destruct (inv_linked _ _ _ _ Hinv) as [Hs Hf _ _].
  split; apply map_empty; intros k.
  - destruct (sessions_ (worker s) !! k) eqn:Hk; [|done].
    apply Hs in Hk as (c & [Hc _] & _). by rewrite Hh in Hc.
  - destruct (fdToSession_ (worker s) !! k) eqn:Hk; [|done].
    apply Hf in Hk as (c & [Hc _] & _). by rewrite Hh in Hc.
Qed.

Lemma vacated n s :
  inv W [] n s → heap s = ∅ → queue_ (worker s) = [] → vacant s.
Proof using Type. intros Hinv Hh Hq. by destruct (unlinked n s Hinv Hh). Qed.

Lemma shut_down_spec n s :
  inv W [] n s →
  runs shut_down (λ _ s', inv W [] n s' ∧ vacant s' ∧
    running_ (worker s') = running_ (worker s)) s.
Proof using KL HW.
  intros Hinv. unfold shut_down. apply runs_bind.
  eapply runs_mono; [by apply (drainQueue_spec W HW [] n)|].
  cbn beta. intros [] s1 (H1 & _ & Hq1 & Hr1). runs_steps. rewrite Hq1. cbn [close_all].
  runs_steps. destruct (visit_spec W [] n s1 (log s1) H1) as [Hps Hall].
  set (ps := visit _ _) in *.
  eapply runs_mono; [by apply (closeSessions_spec W HW [] n ps)|].
  cbn beta. intros [] s2 (H2 & Hh2 & [Hq2 Hr2]).
  eapply runs_mono; [by apply (drops_spec W HW [] n ps)|].
  cbn beta. intros [] s3 (H3 & Hw3 & Hh3). split; [done|]. split; [|congruence].
  apply (vacated n); [done| |congruence]. apply map_empty. intros p. rewrite Hh3, Hh2.
  case_bool_decide as Hp; [done|]. destruct (heap s1 !! p) as [c|] eqn:Hc; [|done].
  destruct Hp. apply (Hall p c). split; [done|]. apply not_elem_of_nil.
Qed.

(** ** The main thread's part *)

Lemma enqueue_spec n s clientFd addr :
  inv (keep [Unused clientFd] W) [] (S n) s → 0 <= clientFd →
  runs (enqueue clientFd addr) (λ b s', heap s' = heap s ∧
    running_ (worker s') = running_ (worker s) ∧ 
    if b then inv W [] n s' else s' = s) s.
Proof using WakeLaws0.
  intros Hinv Hfd. unfold enqueue, on_worker. runs_steps.
  destruct (negb (running_ (worker s))); [by apply runs_ret|].
  destruct (_ <=? _); [by apply runs_ret|]. runs_steps.
  eexists _, _. split; [done|]. apply runs_ret. cbn. split; [done|]. split; [done|].
  set (r := k_wake_write _ _). 
  assert (match r with Ret _ => true | Fail e => e =? EAGAIN end = true) as ->.
  { destruct r as [|e] eqn:Hr; [done|]. apply wake_write_full in Hr as ->. done. }
  destruct Hinv. split; cbn; try done.
  - by destruct inv_linked0.
  - destruct inv_numbered0 as [? ? Hn]. cbn in Hn. split; cbn; [done..|].
    rewrite length_app. cbn. lia.
  - apply Forall_app. split; [done|]. by repeat constructor.
  - apply (estate_hushed _ (log s)); [by apply hushed_event|].
    unfold books, queue_claims in *. cbn. rewrite !fmap_app.
    eapply estate_proper; [|done|exact inv_estate0]. cbn. solve_Permutation.
Qed.

Lemma turn_away_spec n clientFd s :
  inv (keep [Unused clientFd] W) [] n s →
  runs (Acceptor.turn_away clientFd) (λ _ s', inv W [] n s' ∧ worker s' = worker s) s.
Proof using Type.
  intros Hinv. unfold Acceptor.turn_away. apply runs_bind.
  eapply runs_mono; [apply (close_kept W), (inv_rest W [Unused clientFd])|].
  { intros L. apply (estate_used [clientFd]). }
  { exact Hinv. }
  intros [] s1 [H1 (Hw & _)].
  apply runs_modify. split; [|done].
  eapply inv_calm; [exact H1|]. by apply (metrics_calm W Metrics.onRejected).
Qed.

Lemma accept_spec n listenFd s :
  inv W [] (S n) s →
  runs (Acceptor.accept_turn enqueue listenFd) (λ _ s', inv W [] n s' ∧
    running_ (worker s') = running_ (worker s)) s.
Proof using KL WakeLaws0.
  intros Hinv. set (b := running_ (worker s)).
  eapply runs_mono.
  { apply (Acceptor.accept_turn_spec enqueue listenFd
      (λ fd (s' : env), 0 <= fd ∧ inv (keep [Unused fd] W) [] (S n) s' ∧ running_ (worker s') = b)
      (λ _ s', inv W [] n s' ∧ running_ (worker s') = b)).
    - intros fd a Ha. apply accept_fresh in Ha as [Hp Hf]. apply runs_modify.
      split; [done|]. split; [|done]. set (s1 := upd _ s).
      assert (inv (keep [Unused fd] W) [] (S n) s1) as H1.
      { rewrite <- (keep_nil W) in Hinv. eapply (inv_trade W []); [exact Hinv|].
        intros L. by apply estate_created, created_event. }
      eapply inv_calm; [exact H1|]. by apply (metrics_calm _ Metrics.onAccepted).
    - intros e _. split; [|done]. apply inv_fewer. eapply inv_calm; [exact Hinv|].
      by apply asked_calm.
    - intros fd s1 r (Hfd & H1 & Hr). split; [done|]. split; [|done].
      eapply inv_calm; [exact H1|]. by apply asked_calm.
    - intros fd addr s1 (Hfd & H1 & Hr). eapply runs_mono; [by apply (enqueue_spec n)|].
      intros [] s2 (_ & Hr2 & H2); [split; [done|congruence]|by subst s2].
    - intros fd s1 (Hfd & H1 & Hr). eapply runs_mono; [by apply (turn_away_spec (S n))|].
      intros [] s2 [H2 Hw2]. split; [by apply inv_fewer|congruence]. }
  done.
Qed.

Lemma stop_spec n s :
  inv W [] n s →
  runs stop (λ _ s', inv W [] n s' ∧ running_ (worker s') = false) s.
Proof using Type.
  intros Hinv. unfold stop, on_worker. runs_steps.
  set (s1 := mkWenv _ _ _ _ _).
  assert (inv W [] n s1) as H1.
  { destruct Hinv. split; cbn; try done; [by destruct inv_linked0|by destruct inv_numbered0]. }
  destruct (running_ (worker s)); [|by apply runs_ret].
  apply runs_bind. eexists _, _. split; [done|]. apply runs_ret. split; [|done].
  eapply inv_calm; [exact H1|]. by apply asked_calm.
Qed.

(** ** The requests served before an [epoll_wait] returns *)

Definition arrivals (rs : list request) : nat :=
  length (List.filter (λ r, match r with Arrive => true | Stop => false end) rs).

Lemma requests_spec n listenFd rs s :
  inv W [] (arrivals rs + n) s →
  runs (for_each (serve_request listenFd) rs) (λ _ s', inv W [] n s' ∧
    running_ (worker s') = (running_ (worker s) && negb (bool_decide (Stop ∈ rs)))) s.
Proof using All.
  revert s. induction rs as [|r rs IH]; intros s Hinv; cbn [for_each].
  { apply runs_ret. split; [done|]. rewrite bool_decide_false by apply not_elem_of_nil.
    by rewrite andb_true_r. }
  apply runs_bind. destruct r; cbn [serve_request].
  - apply runs_bind. eapply runs_mono; [by apply (accept_spec (arrivals rs + n))|].
    intros b s1 [H1 Hr1]. apply runs_ret. eapply runs_mono; [by apply IH|].
    intros [] s2 [H2 Hr2]. split; [done|]. rewrite Hr2, Hr1.
    by rewrite (bool_decide_ext (Stop ∈ Arrive :: rs) (Stop ∈ rs)) by set_solver.
  - eapply runs_mono; [by apply (stop_spec (arrivals rs + n))|].
    intros [] s1 [H1 Hr1]. eapply runs_mono; [by apply IH|].
    intros [] s2 [H2 Hr2]. split; [done|]. rewrite Hr2, Hr1.
    rewrite (bool_decide_true (Stop ∈ Stop :: rs)) by apply list_elem_of_here.
    by rewrite andb_false_r.
Qed.

(** ** The whole run *)

(** [epoll_wait] has failed, and not because a signal interrupted it. *)
Definition epoll_failed (tr : trace) : Prop := ∃ k e, EvEpollWait k (Fail e) ∈ tr ∧ e ≠ EINTR.

Lemma epoll_failed_later e tr : epoll_failed tr → epoll_failed (e :: tr).
Proof using Type. intros (k & x & Hin & Hx). exists k, x. split; [by right|done]. Qed.

#[local] Instance epoll_failed_lasting : Lasting epoll_failed.
Proof using Type. intros e tr _. apply epoll_failed_later. Qed.

Definition all_arrivals (requests : list (list request)) : nat := arrivals (concat requests).

Lemma arrivals_app rs rs' : arrivals (rs ++ rs') = (arrivals rs + arrivals rs')%nat.
Proof using Type. unfold arrivals. by rewrite List.filter_app, length_app. Qed.

Lemma wait_and_serve_spec n fuel lastSweep s :
  fuelled signals wakes W fuel → inv W [] n s →
  runs (wait_and_serve fuel lastSweep) (λ next s', inv W [] n s' ∧
    running_ (worker s') = running_ (worker s) ∧
    (next = None → epoll_failed (log s') ∧ ∃ e, e ≠ EINTR ∧
      k_epoll_wait (log s) (Config.maxEvents (config_ (worker s))) = Fail e)) s.
Proof using All.
  intros Hfuel Hinv. unfold wait_and_serve. runs_steps. eapply runs_mono.
  { apply runs_eq, syscall_asked. intros ? ?. by apply hushed_event. }
  intros r s1 [[Hr H1] E]. assert (inv W [] n s1) as H1' by (by eapply inv_calm, asked_calm).
  destruct H1 as (Hw1 & _). destruct r as [batch|e].
  - apply runs_bind. eapply runs_mono; [by apply (turn_spec n)|].
    intros last s2 (H2 & Hr2 & _). apply runs_ret. split; [done|]. by rewrite Hr2, Hw1.
  - apply runs_ret. rewrite Hw1. split; [done|]. split; [done|].
    destruct (Z.eqb_spec e EINTR) as [|He]; [done|]. intros _.
    unfold sys_epoll_wait, syscall in E. injection E as Ee <-. cbn.
    rewrite Ee. split; [|by exists e]. eexists _, e. split; [by left|done].
Qed.

(** A step of the thread, on a kernel whose [epoll_wait] is at most
    interrupted. *)
Definition at_rest (p : position) (s : env) : Prop :=
  p = Ended → vacant s ∧ running_ (worker s) = false.

Lemma step_spec n fuel p s :
  fuelled signals wakes W fuel → inv W [] n s → at_rest p s →
  (∀ tr k e, k_epoll_wait tr k = Fail e → e = EINTR) →
  runs (step fuel p) (λ p' s', inv W [] n s' ∧ running_ (worker s') = running_ (worker s) ∧
    at_rest p' s' ∧ p' ≠ Starting ∧ (p = Ended → p' = Ended) ∧
    (running_ (worker s) = false → p ≠ Starting → p' = Ended)) s.
Proof using All.
  intros Hfuel Hinv Hrest Hep. destruct p as [|last|]; cbn [step].
  - apply runs_bind. eapply runs_mono; [apply (sys_now_timed W)|].
    intros t s1 ((Hc & Hw & _) & _). apply runs_ret. rewrite Hw.
    split; [by eapply inv_calm|]. by repeat split.
  - apply runs_bind, runs_gets. destruct (running_ (worker s)) eqn:Hr.
    + apply runs_bind. eapply runs_mono; [by apply (wait_and_serve_spec n)|].
      intros next s1 (H1 & Hr1 & Hnone). destruct next as [last'|].
      * apply runs_ret. split; [done|]. split; [congruence|]. by repeat split.
      * destruct Hnone as (_ & e & He & Hw); [done|]. by destruct He; eapply Hep.
    + apply runs_bind, runs_ret, runs_bind. eapply runs_mono; [by apply (shut_down_spec n)|].
      intros [] s1 (H1 & Hv & Hr1). apply runs_ret. split; [done|]. split; [congruence|].
      split; [|done]. intros _. split; [done|congruence].
  - apply runs_ret. split; [done|]. split; [done|]. by split_and!.
Qed.

Lemma run_loop_spec n fuel listenFd requests lastSweep s :
  fuelled signals wakes W fuel → inv W [] (all_arrivals requests + n) s →
  running_ (worker s) = false ∨ Stop ∈ concat requests →
  runs (run_loop fuel listenFd requests lastSweep) (λ left s',
    inv W [] (all_arrivals left + n) s' ∧
    (running_ (worker s') = false ∨ epoll_failed (log s'))) s.
Proof using All.
  intros Hfuel. revert lastSweep s. induction requests as [|rs requests IH];
    intros lastSweep s Hinv Hstop; cbn [run_loop]; runs_steps.
  - destruct (running_ (worker s)) eqn:Hr; cbn [negb]; [|apply runs_ret; split; [done|by left]].
    destruct Hstop as [|Hs]; [done|]. by apply not_elem_of_nil in Hs.
  - destruct (running_ (worker s)) eqn:Hr; cbn [negb]; [|apply runs_ret; split; [done|by left]].
    unfold all_arrivals in Hinv. cbn [concat] in Hinv. rewrite arrivals_app, <- Nat.add_assoc in Hinv.
    apply runs_bind. eapply runs_mono; [by apply (requests_spec (arrivals (concat requests) + n))|].
    intros [] s1 [H1 Hr1]. apply runs_bind.
    eapply runs_mono; [by apply (wait_and_serve_spec (arrivals (concat requests) + n))|].
    intros next s2 (H2 & Hr2 & Hnone). destruct next as [last|].
    + apply IH; [done|]. rewrite Hr2, Hr1, Hr.
      destruct Hstop as [|[Hs|Hs]%elem_of_app]; [done| |by right].
      left. by rewrite bool_decide_true.
    + apply runs_ret. split; [done|right; by apply Hnone].
Qed.

Lemma run_spec n fuel listenFd requests s :
  fuelled signals wakes W fuel → inv W [] (all_arrivals requests + n) s →
  running_ (worker s) = false ∨ Stop ∈ concat requests →
  runs (run fuel listenFd requests) (λ left s', inv W [] (all_arrivals left + n) s' ∧ vacant s' ∧
    (running_ (worker s') = false ∨ epoll_failed (log s'))) s.
Proof using All.
  intros Hfuel Hinv Hstop. unfold run. apply runs_bind.
  eapply runs_mono; [apply (sys_now_timed W)|]. intros t s1 ((Hc & Hw & _) & _).
  apply runs_bind. eapply runs_mono.
  { apply (run_loop_spec n); [done|by eapply inv_calm|by rewrite Hw]. }
  intros left s2 [H2 Hend]. apply runs_bind. eapply runs_mono.
  { apply runs_eq. by apply (shut_down_spec (all_arrivals left + n)). }
  intros [] s3 [(H3 & Hv & Hr3) E]. apply runs_ret. split; [done|]. split; [done|].
  destruct Hend as [Hend|Hend]; [left; congruence|right].
  pose proof (keeps_shut_down epoll_failed s2 Hend) as Hf. by rewrite E in Hf.
Qed.

(** ** Once the thread is gone *)

(** No session is left, and no client unless the thread went because of
    [epoll_wait]. *)
Definition departed (s : env) : Prop :=
  heap s = ∅ ∧
  (running_ (worker s) = false ∧ queue_ (worker s) = [] ∨ epoll_failed (log s)).

Lemma departed_syscall {R} (ask : trace → R) (ev : R → event) :
  preserves departed (syscall (S := env) ask ev).
Proof using Type.
  intros s [Hh Hd]. split; [done|]. destruct Hd as [Hd|Hd]; [by left|right].
  by apply epoll_failed_later.
Qed.

Lemma departed_enqueue clientFd addr : preserves departed (enqueue clientFd addr).
Proof using Type.
  intros s Hs. pose proof Hs as [Hh Hd]. unfold enqueue, gets, mbind, ST_bind.
  destruct (running_ (worker s)) eqn:Hr; cbn [negb]; [|exact Hs].
  destruct Hd as [[]|Hd]; [congruence|]. case_match; [exact Hs|].
  split; [done|]. right. by apply epoll_failed_later.
Qed.

Lemma departed_request listenFd r : preserves departed (serve_request listenFd r).
Proof using Type.
  assert (∀ f, preserves departed (Acceptor.on_metrics (S := env) f)) as Hm
    by (intros f s Hs; exact Hs).
  destruct r; cbn [serve_request].
  - unfold Acceptor.accept_turn, Acceptor.turn_away, Net.setTcpNoDelay, Net.systemError.
    repeat first [ apply departed_enqueue
                 | apply preserves_bind; [|intros ?] | apply preserves_try_catch; [|intros ?]
                 | apply preserves_ret | apply preserves_throw
                 | apply departed_syscall | apply Hm | case_match ].
  - unfold stop, on_worker. apply preserves_bind; [apply preserves_gets|intros w].
    apply preserves_bind; [|intros []].
    + intros s [Hh Hd]. split; [done|]. cbn. naive_solver.
    + case_match; [|apply preserves_ret].
      apply preserves_bind; [apply departed_syscall|intros ?; apply preserves_ret].
Qed.

(** What the main thread still does then. *)
Lemma served_later n listenFd rs s :
  inv W [] (arrivals rs + n) s → departed s →
  runs (for_each (serve_request listenFd) rs) (λ _ s', inv W [] n s' ∧ departed s') s.
Proof using All.
  intros Hinv Hd. eapply runs_mono.
  { apply (runs_preserves departed); [|done|by apply (requests_spec n)].
    apply preserves_for_each. intros r _. apply departed_request. }
  cbn beta. intros [] s' [[H' _] Hd']. by split.
Qed.
End run.

(** ** The beginning *)

(** A worker the constructor has just built. *)
Definition new_worker (index : Z) (cfg : Config.AppConfig) (epoll wake : Z) : Worker :=
  mkWorker index cfg (mkUniqueFd epoll) (mkUniqueFd wake) false false [] ∅ ∅ 0 1.

Section construction.
Context {K : Kernel} {KL : KernelLaws K}.

(** The descriptor a call may have returned. *)
Definition opened (r : sysret Z) (L : list claim) : list claim :=
  match r with Ret fd => Held fd :: L | Fail _ => L end.
Definition raw (r : sysret Z) : Z := match r with Ret fd => fd | Fail _ => -1 end.

Lemma raw_destroyed r L tr :
  (∀ fd, r = Ret fd → 0 <= fd) → estate (opened r L) tr →
  ∃ tr', UniqueFd.destroy (mkUniqueFd (raw r)) tr = (Val tt, tr') ∧ estate L tr'.
Proof using Type.
  intros Hr Hl. unfold UniqueFd.destroy, UniqueFd.reset. destruct r as [fd|e]; cbn in *.
  - specialize (Hr fd eq_refl). destruct (Z.leb_spec 0 fd); [|lia].
    eexists. split; [done|]. by apply estate_close.
  - eexists. by split.
Qed.

Lemma opened_estate r L tr e :
  (∀ fd, r = Ret fd → fd ∉ open_fds tr) → opens e = match r with Ret fd => Some fd | _ => None end →
  (∀ fd, e ≠ EvClose fd) → mute e = true → estate L tr → estate (opened r L) (e :: tr).
Proof using Type.
  intros Hr He Hne Hm Hl. destruct r as [fd|x]; cbn [opened].
  - apply (estate_used [fd]). eapply estate_created; [|exact Hl]. apply created_event; auto.
  - eapply estate_hushed; [|exact Hl]. by apply hushed_event.
Qed.

Lemma construct_owns index cfg L tr :
  estate L tr →
  match construct index cfg tr with
  | (Val w, tr') => ∃ epoll wake, w = new_worker index cfg epoll wake ∧
      0 <= epoll ∧ 0 <= wake ∧ estate ([Held epoll; Held wake] ++ L) tr'
  | (Exn _, tr') => estate L tr'
  | (NoFuel, _) => False
  end.
Proof using KL.
  intros Hl. unfold construct, mbind, ST_bind, sys_epoll_create, sys_eventfd, syscall.
  cbn [view upd Lens_refl].
  set (r1 := k_epoll_create tr). set (tr1 := EvEpollCreate r1 :: tr).
  set (r2 := k_eventfd tr1). set (tr2 := EvEventfd r2 :: tr1).
  assert (∀ fd, r1 = Ret fd → 0 <= fd ∧ fd ∉ open_fds tr) as H1
    by (intros fd; apply epoll_create_fresh).
  assert (∀ fd, r2 = Ret fd → 0 <= fd ∧ fd ∉ open_fds tr1) as H2
    by (intros fd; apply eventfd_fresh).
  assert (estate (opened r2 (opened r1 L)) tr2) as Hl2.
  { apply opened_estate; [naive_solver|by destruct r2|done|done|].
    apply opened_estate; [naive_solver|by destruct r1|done..]. }
  assert (∀ tr3 e, estate (opened r2 (opened r1 L)) tr3 →
    ∃ tr4, (UniqueFd.destroy (mkUniqueFd (raw r2)) ;; UniqueFd.destroy (mkUniqueFd (raw r1)) ;;
      throw (A := Worker) e) tr3 = (Exn e, tr4) ∧ estate L tr4) as Hundo.
  { intros tr3 e Hl3. unfold mbind, ST_bind.
    destruct (raw_destroyed r2 (opened r1 L) tr3) as (tr4 & -> & Hl4); [naive_solver|done|].
    destruct (raw_destroyed r1 L tr4) as (tr5 & -> & Hl5); [naive_solver|done|]. by exists tr5. }
  unfold try_catch. clearbody tr2. destruct r1 as [epoll|e1], r2 as [wake|e2].
  - unfold sys_epoll_ctl, syscall; cbn [view upd Lens_refl].
    destruct (k_epoll_ctl tr2 EPOLL_CTL_ADD wake EPOLLIN) as [[]|e].
    + exists epoll, wake. split; [done|]. split; [naive_solver|]. split; [naive_solver|].
      eapply estate_hushed; [by apply (hushed_event _ tr2)|].
      eapply estate_proper; [|done|exact Hl2]. apply perm_swap.
    + destruct (Hundo (EvEpollCtl EPOLL_CTL_ADD wake EPOLLIN (Fail e) :: tr2)
        ("epoll_ctl(ADD) failed: " +:+ k_strerror e)) as (tr4 & Hu & Hl4).
      { eapply estate_hushed; [by apply (hushed_event _ tr2)|done]. }
      cbn [raw] in Hu. unfold mbind, ST_bind, throw in *. cbn beta iota. by rewrite Hu.
  - destruct (Hundo tr2 ("eventfd failed: " +:+ k_strerror e2)) as (tr4 & Hu & Hl4); [done|].
    cbn [raw] in Hu. unfold mbind, ST_bind, throw in *. cbn beta iota. by rewrite Hu.
  - destruct (Hundo tr2 ("epoll_create1 failed: " +:+ k_strerror e1)) as (tr4 & Hu & Hl4); [done|].
    cbn [raw] in Hu. unfold mbind, ST_bind, throw in *. cbn beta iota. by rewrite Hu.
  - destruct (Hundo tr2 ("epoll_create1 failed: " +:+ k_strerror e2)) as (tr4 & Hu & Hl4); [done|].
    cbn [raw] in Hu. unfold mbind, ST_bind, throw in *. cbn beta iota. by rewrite Hu.
Qed.
End construction.

Lemma held_empty i : held i ∅ = 0.
Proof. pose proof (held_bounds i ∅) as Hb. rewrite map_size_empty in Hb. lia. Qed.

Lemma linked_empty w : sessions_ w = ∅ → fdToSession_ w = ∅ → linked [] w ∅.
Proof.
  intros Hs Hf. split; rewrite ?Hs, ?Hf.
  - intros id q. split; [done|]. intros (c & [Hc _] & _). done.
  - intros fd q. split; [done|]. intros (c & [Hc _] & _). done.
  - intros q Hq. by apply not_elem_of_nil in Hq.
  - constructor.
Qed.

(** The books of a worker that has served nobody. *)
Lemma inv_new W index running n m p tr :
  bounded W → 1 + Z.of_nat n <= 2 ^ 53 → accounts (base W) p →
  Metrics.active_ m = gauge W → estate ([Held (epoll W); Held (wake W)] ++ rest W) tr →
  inv W [] n (mkWenv (set_thread (ready W) (set_running running
    (new_worker index (config W) (epoll W) (wake W)))) ∅ m p tr).
Proof.
  intros HW Hn Hp Hm Hl. split; cbn; try done.
  - by apply linked_empty.
  - rewrite Hm, map_size_empty. lia.
  - eapply BackendPool.accounts_ext; [|exact Hp]. intros i. rewrite held_empty. lia.
Qed.

End WorkerRun.
