(* ===== verification/WorkerPolls.v ===== *)
(** * A worker keeps epoll up to date

    Between two [epoll_wait]s both sockets of every session are registered for
    exactly the events the session is interested in, whatever happened in
    between: a session's interest changes only in its own handler, after which
    the worker tells epoll or, if epoll refuses, closes the session. *)

From S2P Require Import Prelude Text Posix Streams ByteBuffer UniqueFd Metrics Config Net Backend BackendPool ProxySession SessionSteps SessionStream SessionEstate SessionEvents SessionFlush Polls Acceptor Worker WorkerInvariant WorkerSessions WorkerTurn WorkerRun.
Local Open Scope Z_scope.

Module WorkerPolls.
Import UniqueFd (get).
Import BackendPool (BackendLease).
Import ProxySession (ProxySession, mkEnv).
Import SessionEvents (interest, connected).
Import SessionSteps (core, core_facts).
Import SessionFlush (willing).
Import Streams Polls Worker WorkerInvariant WorkerSessions WorkerTurn WorkerRun.

(** Both descriptors of a session. *)
Definition ends (c : ProxySession) : gset Z :=
  {[ProxySession.clientFd c; ProxySession.upstreamFd c]}.

(** The published sessions that are not about to be closed. *)
Definition synced (local : list nat) (s : env) : Prop :=
  ∀ p c, published local (heap s) p c → ProxySession.closing c = false → told c (log s).

(** Every session is still there, the same one, and its traffic has gone on;
    one that is to be closed stays so, and so does one that is connected. *)
Definition carried (s s' : env) : Prop := ∀ p c, heap s !! p = Some c →
  ∃ c', heap s' !! p = Some c' ∧ core c' = core c ∧
    (ProxySession.closing c = true → ProxySession.closing c' = true) ∧
    (connected c → connected c') ∧ ∀ d, grown (ProxySession.fd_of d c) (log s) (log s').

#[export] Instance carried_preorder : PreOrder carried.
Proof.
  split; [by intros s p c Hp; exists c|]. intros s1 s2 s3 H12 H23 p c Hp.
  destruct (H12 p c Hp) as (c2 & Hp2 & E2 & Hc2 & Hn2 & Hg2).
  destruct (H23 p c2 Hp2) as (c3 & Hp3 & E3 & Hc3 & Hn3 & Hg3).
  exists c3. split; [done|]. split; [congruence|]. split; [auto|]. split; [auto|].
  intros d. destruct (core_facts _ _ E2) as [_ Hfd]. etrans; [apply Hg2|]. rewrite <- Hfd. apply Hg3.
Qed.

(** No session is new or changed, and the traffic of those left has gone on. *)
Definition survived (s s' : env) : Prop := ∀ p c, heap s' !! p = Some c →
  heap s !! p = Some c ∧ ∀ d, grown (ProxySession.fd_of d c) (log s) (log s').

#[export] Instance survived_preorder : PreOrder survived.
Proof.
  split; [by intros s p c Hp|]. intros s1 s2 s3 H12 H23 p c Hp.
  destruct (H23 p c Hp) as [Hp2 Hg2]. destruct (H12 p c Hp2) as [Hp1 Hg1].
  split; [done|]. intros d. etrans; [apply Hg1|apply Hg2].
Qed.

Lemma in_ends d c : ProxySession.fd_of d c ∈ ends c.
Proof. unfold ends. destruct d; cbn; set_solver. Qed.

Lemma runs_wp {A} (m : ST env A) (R : A → env → Prop) (Q : outcome A → env → Prop) s :
  runs m R s → wp m Q s → runs m (λ a s', R a s' ∧ Q (Val a) s') s.
Proof. intros (a & s' & Hm & HR) HQ. exists a, s'. unfold wp in HQ. by rewrite Hm in HQ. Qed.

Section code.
Context {K : Kernel} {KL : KernelLaws K} {MO : MapOrder}.

(** ** What the worker's code touches *)

(** Code that leaves the heap alone, registers [X] at most and closes [Y] at
    most. *)
Definition taps {A} (X Y : gset Z) (m : ST env A) (s : env) : Prop :=
  wp m (λ _ s', heap s' = heap s ∧ spared X Y (log s) (log s')) s.

Lemma taps_spares {A} X Y (m : ST env A) s :
  taps X Y m s → wp m (λ _ s', spared X Y (log s) (log s')) s.
Proof using KL. intros [_ H]. exact H. Qed.

Lemma taps_mono {A} X Y X' Y' (m : ST env A) s :
  X ⊆ X' → Y ⊆ Y' → taps X Y m s → taps X' Y' m s.
Proof using KL. intros HX HY [Hh Hm]. split; [exact Hh|by eapply spared_mono]. Qed.

Lemma taps_ret {A} X Y (a : A) s : taps X Y (mret a) s.
Proof using KL. by split. Qed.

Lemma taps_throw {A} X Y e s : taps X Y (throw (A := A) e) s.
Proof using KL. by split. Qed.

Lemma taps_gets {A} X Y (f : env → A) s : taps X Y (gets f) s.
Proof using KL. by split. Qed.

Lemma taps_bind {A B} X Y (m : ST env A) (k : A → ST env B) s :
  taps X Y m s → (∀ a s', heap s' = heap s → taps X Y (k a) s') → taps X Y (m ≫= k) s.
Proof using KL.
  unfold taps. intros Hm Hk. apply wp_bind. eapply wp_mono; [exact Hm|].
  intros [a|e|] s1 [Hh H1]; cbn; [|done..]. eapply wp_mono; [by apply Hk|].
  intros o s2 [Hh2 H2]. split; [congruence|by etrans].
Qed.

Lemma taps_try_catch {A} X Y (m : ST env A) h s :
  taps X Y m s → (∀ e s', heap s' = heap s → taps X Y (h e) s') → taps X Y (try_catch m h) s.
Proof using KL.
  unfold taps. intros Hm Hh. apply wp_try_catch. eapply wp_mono; [exact Hm|].
  intros [a|e|] s1 [Hh1 H1]; cbn; [done| |done]. eapply wp_mono; [by apply Hh|].
  intros o s2 [Hh2 H2]. split; [congruence|by etrans].
Qed.

Lemma taps_syscall {R} X Y (ask : trace → R) ev s :
  (∀ r, harmless X Y (ev r)) → taps X Y (syscall (S := env) ask ev) s.
Proof using KL. intros He. apply wp_syscall. split; [done|]. by apply spared_harmless, He. Qed.

Lemma taps_worker X Y f s : taps X Y (on_worker f) s.
Proof using KL. by split. Qed.

Lemma taps_metrics X Y f s : taps X Y (on_metrics f) s.
Proof using KL. by split. Qed.

Lemma taps_deref {B} X Y p c (k : ProxySession → ST env B) s :
  heap s !! p = Some c → taps X Y (k c) s → taps X Y (deref p ≫= k) s.
Proof using KL.
  intros Hp Hk. unfold taps, wp, mbind, ST_bind, deref in *. by rewrite Hp.
Qed.

Lemma taps_register X Y fd events s : fd ∈ X → taps X Y (registerFd fd events) s.
Proof using KL.
  intros Hfd. apply taps_bind.
  - apply taps_syscall. intros r. harmless.
  - intros [] s' _; [apply taps_ret|apply taps_throw].
Qed.

Lemma taps_modify X Y fd events s : fd ∈ X → taps X Y (modifyFd fd events) s.
Proof using KL.
  intros Hfd. apply taps_bind.
  - apply taps_syscall. intros r. harmless.
  - intros [] s' _; [apply taps_ret|apply taps_throw].
Qed.

Lemma taps_unregister X Y fd s : fd ∈ X → taps X Y (unregisterFd fd) s.
Proof using KL.
  intros Hfd. unfold unregisterFd. destruct (0 <=? fd); [|apply taps_ret]. apply taps_bind.
  - apply taps_syscall. intros r. harmless.
  - intros r s' _. apply taps_ret.
Qed.

(** One step of the structure of code that leaves the heap alone; [p] points
    to [c]. *)
Ltac own_end := first [apply (in_ends ProxySession.Client)|apply (in_ends ProxySession.Upstream)].
Ltac tap Hp :=
  repeat first
    [ apply (taps_deref _ _ _ _ _ _ Hp)
    | apply taps_register; own_end | apply taps_modify; own_end | apply taps_unregister; own_end
    | apply taps_worker | apply taps_metrics
    | apply taps_bind; [|intros ? ? E; rewrite <- E in Hp; clear E]
    | apply taps_try_catch; [|intros ? ? E; rewrite <- E in Hp; clear E]
    | apply taps_ret | apply taps_throw | apply taps_gets
    | case_match ].

Lemma taps_updateInterests p c s : heap s !! p = Some c → taps (ends c) ∅ (updateInterests p) s.
Proof using KL. intros Hp. unfold updateInterests. tap Hp. Qed.

Lemma taps_registration p c s : heap s !! p = Some c →
  taps (ends c) ∅ (try_catch (register_both p) (λ _, register_undo p)) s.
Proof using KL. intros Hp. unfold register_both, register_undo. tap Hp. Qed.

Lemma taps_closeSession p c s : heap s !! p = Some c → taps (ends c) ∅ (closeSession p) s.
Proof using KL. intros Hp. unfold closeSession. tap Hp. Qed.

Lemma spares_session c :
  spares (S := env) ∅ (ends c) (ProxySession.destroy c).
Proof using KL.
  unfold ProxySession.destroy.
  assert (∀ d, spares (S := env) ∅ (ends c) (UniqueFd.destroy (UniqueFd.mkUniqueFd (ProxySession.fd_of d c))))
    as Hd by (intros d; apply spares_destroy; intros _; apply in_ends).
  pose proof (Hd ProxySession.Client) as H1. pose proof (Hd ProxySession.Upstream) as H2.
  cbn in H1, H2. unfold ProxySession.clientFd, ProxySession.upstreamFd, get in *.
  destruct (ProxySession.clientFd_ c), (ProxySession.upstreamFd_ c); cbn in H1, H2.
  unfold BackendPool.destroy, BackendPool.reset. spare.
Qed.

Lemma spares_drop p c s : heap s !! p = Some c →
  wp (drop p) (λ _ s', spared ∅ (ends c) (log s) (log s')) s.
Proof using KL.
  intros Hp. unfold drop. apply wp_bind, wp_gets. cbn [bind_post].
  destruct (referenced p (worker s)); [by apply wp_ret|].
  unfold deref. unfold wp, mbind, ST_bind. rewrite Hp.
  exact (spares_session c (mkWenv (worker s) (delete p (heap s)) (metrics s) (pool s) (log s))).
Qed.

(** ** A client that comes *)

Lemma spares_construct id cfd ufd connecting l size addr :
  spares (S := env) ∅ ∅ (ProxySession.construct id cfd ufd connecting l size addr).
Proof using KL.
  unfold ProxySession.construct, ProxySession.on_lease, BackendPool.on_backend, sys_now. spare.
Qed.

Lemma constructed id cfd ufd connecting l size addr s c s' :
  ProxySession.construct (S := env) id cfd ufd connecting l size addr s = (Val c, s') →
  ends c = {[cfd; ufd]}.
Proof using KL. unfold ProxySession.construct. intros H. do 2 bind_inv H. by injection H as <- _. Qed.

(** Code in a row, whatever it ends with. *)
Definition touches {A} (X Y : gset Z) (m : ST env A) (s : env) : Prop :=
  wp m (λ _ s', spared X Y (log s) (log s')) s.

Lemma touches_bind {A B} X Y (m : ST env A) (k : A → ST env B) s :
  touches X Y m s → (∀ a s', m s = (Val a, s') → touches X Y (k a) s') → touches X Y (m ≫= k) s.
Proof using KL.
  unfold touches. intros Hm Hk. apply wp_bind. unfold wp at 1 in Hm. unfold wp at 1.
  destruct (m s) as [[a|e|] s1]; cbn [fst snd bind_post] in *; [|done..].
  eapply wp_mono; [by apply Hk|]. intros o s2 H2. by etrans.
Qed.

Lemma touches_mono {A} X Y X' Y' (m : ST env A) s :
  X ⊆ X' → Y ⊆ Y' → touches X Y m s → touches X' Y' m s.
Proof using KL.
  unfold touches. intros HX HY Hm. eapply wp_mono; [exact Hm|]. intros o s'. by apply spared_mono.
Qed.

Lemma touches_taps {A B} X Y (m : ST env A) (k : A → ST env B) s :
  taps X Y m s → (∀ a s', heap s' = heap s → touches X Y (k a) s') → touches X Y (m ≫= k) s.
Proof using KL.
  intros Hm Hk. apply touches_bind; [by apply taps_spares|]. intros a s1 E. apply Hk.
  unfold taps, wp in Hm. rewrite E in Hm. apply Hm.
Qed.

Lemma touches_spares {A B} X Y X' Y' (m : ST env A) (k : A → ST env B) s :
  X ⊆ X' → Y ⊆ Y' → spares X Y m → (∀ a s', m s = (Val a, s') → touches X' Y' (k a) s') →
  touches X' Y' (m ≫= k) s.
Proof using KL.
  intros HX HY Hm. apply touches_bind. eapply wp_mono; [apply Hm|]. intros o s'. by apply spared_mono.
Qed.

Lemma touches_fresh {A B} X Y (m : ST env A) (k : A → ST env B) s :
  touches X Y m s → (∀ a s', m s = (Val a, s') → ∃ X' Y', touches X' Y' (k a) s' ∧
    ∀ fd, fd ∈ open_fds (log s) → (fd ∈ X' → fd ∈ X ∪ Y) ∧ (fd ∈ Y' → fd ∈ Y)) →
  touches X Y (m ≫= k) s.
Proof using KL.
  unfold touches. intros Hm Hk. apply wp_bind. unfold wp at 1 in Hm. unfold wp at 1.
  destruct (m s) as [[a|e|] s1]; cbn [fst snd bind_post] in *; [|done..].
  destruct (Hk a s1 eq_refl) as (X' & Y' & HY & Hf). eapply wp_mono; [exact HY|].
  intros o s2 H2. exact (spared_fresh X Y X' Y' _ _ _ Hm H2 Hf).
Qed.

(** The rest of [admit_client] once the session is made. *)
Lemma touches_settle p c id b s : heap s !! p = Some c → touches ∅ (ends c) (settle p id b) s.
Proof using KL.
  intros Hp. unfold settle. apply touches_taps; [tap Hp|].
  intros _ s1 Hh1. rewrite <- Hh1 in Hp. by apply spares_drop.
Qed.

Lemma touches_admit client r l s : touches {[fd client; Net.fd r]} {[fd client; Net.fd r]} (admit_client client r l) s.
Proof using KL.
  unfold admit_client. do 3 (apply touches_taps; [apply taps_gets || apply taps_worker|intros ? ? _]).
  apply touches_bind.
  - eapply touches_spares; [apply empty_subseteq|apply empty_subseteq|apply spares_construct|intros c s1 _].
    by apply touches_taps; [apply taps_gets|intros p s2 _].
  - intros p s1 Hm. unfold make_shared in Hm. apply bind_val in Hm as (c & s2 & Hc & Hm).
    apply constructed in Hc as <-. injection Hm as <- <-. apply touches_taps.
    + apply (taps_mono (ends c) ∅); [done|apply empty_subseteq|].
      apply (taps_registration _ c), lookup_insert_eq.
    + intros b s3 Hh3. apply (touches_mono ∅ (ends c)); [apply empty_subseteq|done|].
      apply (touches_settle _ c). rewrite Hh3. apply lookup_insert_eq.
Qed.

Lemma touches_anywhere {A} X Y (m : ST env A) s : spares X Y m → touches X Y m s.
Proof using KL. intros Hm. exact (Hm s). Qed.

Lemma touches_createSession client s :
  closes_ok (log s) → touches ∅ {[fd client]} (createSession client) s.
Proof using KL.
  intros Hcl. unfold createSession.
  assert (spares (S := env) ∅ ∅ BackendPool.acquire) as Ha.
  { unfold BackendPool.acquire, BackendPool.lease, BackendPool.on_backend. spare. }
  assert (∀ l, spares (S := env) ∅ {[fd client]} (sys_close (fd client) ;; BackendPool.destroy l)) as Hd.
  { intros l. apply spares_bind; [apply spares_close; set_solver|intros ?].
    unfold BackendPool.destroy, BackendPool.reset, BackendPool.on_backend. spare. }
  eapply touches_spares; [apply empty_subseteq|apply empty_subseteq|exact Ha|]. intros l s1 H1.
  assert (log s1 = log s) as Hl1.
  { unfold BackendPool.acquire in H1. do 2 bind_inv H1. injection Hb as <- <-.
    injection Hb0 as _ <-. destruct (BackendPool.select _ _ _ _); [|by injection H1 as _ <-].
    cbn in H1. by injection H1 as _ <-. }
  destruct (negb (BackendPool.valid l)).
  { apply touches_taps; [apply taps_metrics|intros _ s2 _]. apply (Hd l s2). }
  apply touches_bind; [by apply taps_spares, taps_gets|]. intros s1' ? [= <- <-].
  destruct (BackendPool.backend_ l ≫= _) as [node|]; [|by apply taps_spares, taps_throw].
  apply touches_fresh.
  - apply touches_anywhere, spares_try_catch.
    + apply spares_bind; [|intros ?; apply spares_ret]. intros s2.
      eapply wp_mono; [apply spares_connect|]. intros o s3. by apply spared_mono, empty_subseteq.
    + intros e. unfold ProxySession.on_lease, BackendPool.on_backend.
      apply spares_bind; [spare|intros _]. do 2 (apply spares_bind; [spare|intros _]).
      apply spares_bind; [apply spares_close; set_solver|intros _].
      unfold BackendPool.destroy, BackendPool.reset, BackendPool.on_backend. spare.
  - intros [r|] s2 H2; [|exists ∅, ∅; split; [by apply taps_spares, taps_ret|set_solver]].
    pose proof (Net.connect_streams (S := env) (Backend.endpoint node) s1) as Hst.
    cbn [view env_log] in Hst. rewrite Hl1 in Hst. specialize (Hst Hcl).
    exists {[fd client; Net.fd r]}, {[fd client; Net.fd r]}. split; [apply touches_admit|]. rewrite Hl1.
    unfold try_catch, mbind, ST_bind in H2.
    destruct (Net.connectNonBlocking _ s1) as [[r'|e|] s3]; [|exfalso|done].
    + injection H2 as -> ->. destruct Hst as [_ Hst]. pose proof (created_fresh _ _ _ Hst). set_solver.
    + unfold ProxySession.on_lease, BackendPool.on_backend in H2.
      destruct (BackendPool.backend_ l); cbn in H2; [|done].
      destruct (BackendPool.destroy l _) as [[]]; done.
Qed.
End code.

(** ** What stays registered *)

Section synced.
Context {K : Kernel} {KL : KernelLaws K} {MO : MapOrder}.
Implicit Types W : surroundings.

Lemma ends_apart W cs local n s p c fd :
  inv (keep cs W) local n s → heap s !! p = Some c → fd ∈ cs ≫= fds_in → fd ∉ ends c.
Proof using KL.
  intros Hinv Hp Hfd Hc. destruct (inv_estate _ _ _ _ Hinv) as [(Hn & _) _ _].
  rewrite books_keep, bind_app in Hn. apply NoDup_app in Hn as (_ & Hn & _).
  apply (Hn fd Hfd). unfold books. rewrite bind_app. apply elem_of_app. left.
  apply list_elem_of_bind. exists (SessionEstate.claim_of c).
  split; [unfold ends in Hc; cbn; set_solver|by apply (session_claims_in _ p)].
Qed.

Lemma client_apart W x cs local n s p c :
  inv (keep (Unused x :: cs) W) local n s → heap s !! p = Some c → ends c ## {[x]}.
Proof using KL.
  intros Hinv Hp y Hy ->%elem_of_singleton. revert Hy.
  eapply ends_apart; [exact Hinv|exact Hp|apply list_elem_of_here].
Qed.

Lemma ends_disjoint W local n s p q c c' :
  inv W local n s → heap s !! p = Some c → heap s !! q = Some c' → p ≠ q → ends c ## ends c'.
Proof using KL.
  intros Hinv Hp Hq Hpq fd Hc Hc'. apply Hpq.
  apply (sole_owner_inv W local n s p c Hinv Hp q c' fd Hq); unfold owned_fds, ends in *; set_solver.
Qed.

(** What is between the two ends is in the buffer. *)
Lemma in_transit W local n s p c d : inv W local n s → heap s !! p = Some c →
  got (ProxySession.fd_of d c) (log s) =
    sent (ProxySession.fd_of (ProxySession.other d) c) (log s) ++
      ByteBuffer.contents (ProxySession.buffer d c).
Proof using KL.
  intros Hinv Hp. revert d. apply SessionEstate.claim_stands.
  pose proof (estate_stands _ _ (inv_estate _ _ _ _ Hinv)) as Hall. rewrite Forall_forall in Hall.
  apply Hall. unfold books. apply elem_of_app. left. by apply (session_claims_in _ p).
Qed.

Lemma told_kept W local n s tr X Y p c :
  inv W local n s → heap s !! p = Some c → spared X Y (log s) tr → ends c ## X → ends c ## Y →
  told c (log s) → told c tr.
Proof using KL.
  intros Hinv Hp Hs HX HY Ht. apply (spared_told X Y c (log s)); [done..|]. intros d.
  pose proof (in_ends d c). split; [by eapply ends_open|]. set_solver.
Qed.

(** Sessions the code does not reach. *)
Lemma synced_kept W local local' n s s' X Y :
  inv W local n s → synced local s → spared X Y (log s) (log s') →
  (∀ p c, published local' (heap s') p c → ProxySession.closing c = false →
     published local (heap s) p c ∧ ends c ## X ∧ ends c ## Y) → synced local' s'.
Proof using KL.
  intros Hinv Hsy Hs Hk p c Hp Hc. destruct (Hk p c Hp Hc) as (Hp0 & HX & HY).
  eapply told_kept; [exact Hinv|apply Hp0|exact Hs|exact HX|exact HY|by eapply Hsy].
Qed.

Lemma carried_spared W local n s s' X Y :
  inv W local n s → spared X Y (log s) (log s') → heap s ⊆ heap s' →
  (∀ p c, heap s !! p = Some c → ends c ## Y) → carried s s'.
Proof using KL.
  intros Hinv Hs Hh HY p c Hp. exists c. split; [by eapply lookup_weaken|].
  split_and!; [done..|]. intros d. pose proof (in_ends d c). specialize (HY p c Hp).
  apply (Hs (ProxySession.fd_of d c)); [by eapply ends_open|set_solver].
Qed.

Lemma survived_spared W local n s s' X Y :
  inv W local n s → spared X Y (log s) (log s') →
  (∀ p c, heap s' !! p = Some c → heap s !! p = Some c ∧ ends c ## Y) → survived s s'.
Proof using KL.
  intros Hinv Hs Hh p c Hp. destruct (Hh p c Hp) as [Hp0 HY]. split; [done|]. intros d.
  pose proof (in_ends d c). apply (Hs (ProxySession.fd_of d c)); [by eapply ends_open|set_solver].
Qed.

(** The code ends well and has touched [X] at most. *)
Lemma runs_touches {A} X Y (m : ST env A) (R : A → env → Prop) s :
  runs m R s → touches X Y m s → runs m (λ a s', R a s' ∧ spared X Y (log s) (log s')) s.
Proof using KL.
  intros Hr Ht. exact (runs_wp m R (λ _ s', spared X Y (log s) (log s')) s Hr Ht).
Qed.

Lemma createSession_synced W local n s client :
  bounded W → inv (keep [Unused (fd client)] W) local (S n) s → 0 <= fd client → synced local s →
  runs (createSession client) (λ _ s', inv W local n s' ∧ synced local s' ∧ carried s s') s.
Proof using KL.
  intros HW Hinv Hcf Hsy. eapply runs_mono.
  { eapply runs_touches; [by eapply createSession_spec|]. apply touches_createSession.
    by destruct (estate_fds _ _ (inv_estate _ _ _ _ Hinv)) as (_ & _ & ?). }
  cbn beta. intros [] s' [[H' Ho] Hs]. split; [done|].
  assert (∀ p c, heap s !! p = Some c → ends c ## {[fd client]}) as Hap
    by (intros p c Hp; by eapply client_apart).
  split; [|eapply carried_spared; [exact Hinv|exact Hs| |exact Hap];
    destruct Ho as [(-> & _)|(q & c0 & Hq & -> & _)]; [done|by apply insert_subseteq]].
  assert (∀ p c, published local (heap s) p c → ProxySession.closing c = false → told c (log s')) as Hold.
  { intros p c Hp Hc. eapply told_kept; [exact Hinv|apply Hp|exact Hs|set_solver| |by eapply Hsy].
    apply (Hap p c), Hp. }
  destruct Ho as [(Hh & _)|(q & c0 & Hq & Hh & _ & _ & _ & _ & _ & _ & Ht)]; intros p c [Hp Hl];
    rewrite Hh in Hp; [by apply (Hold p)|].
  apply lookup_insert_Some in Hp as [[-> ->]|[_ Hp]]; [done|by apply (Hold p)].
Qed.

Lemma drain_synced W local n l s :
  bounded W → inv (keep (Unused <$> (fd <$> l)) W) local (length l + n) s →
  Forall (λ c, 0 <= fd c) l → synced local s →
  runs (drain l) (λ _ s', inv W local n s' ∧ synced local s' ∧ carried s s') s.
Proof using KL.
  intros HW. revert s. induction l as [|client l IH]; intros s Hinv Hpos Hsy; cbn [drain].
  { apply runs_ret. split; [|done]. by destruct Hinv. }
  apply Forall_cons in Hpos as [Hp Hpos]. runs_steps.
  eapply (runs_mono _ (λ _ s', inv (keep (Unused <$> (fd <$> l)) W) local (length l + n) s' ∧
    synced local s' ∧ carried s s')).
  2: { cbn beta. intros [] s1 (H1 & Hs1 & Hc1). eapply runs_mono; [by apply IH|].
    intros [] s2 (H2 & Hs2 & Hc2). split; [done|]. split; [done|by etrans]. }
  destruct (negb (running_ (worker s))); [|by apply (createSession_synced (keep (Unused <$> (fd <$> l)) W))].
  eapply runs_mono.
  { apply (runs_touches ∅ {[fd client]}); [|by apply touches_anywhere, spares_close, elem_of_singleton].
    apply (close_kept (keep (Unused <$> (fd <$> l)) W)), inv_fewer.
    eapply (inv_rest W (Unused <$> (fd <$> (client :: l))) (Held (fd client) :: _)), Hinv.
    intros L. apply (estate_used [fd client]). }
  cbn beta. intros [] s1 [[H1 (_ & Hh & _)] Hs]. split; [done|].
  assert (∀ p c, heap s !! p = Some c → ends c ## {[fd client]}) as Hap
    by (intros p c Hc; eapply client_apart; [exact Hinv|exact Hc]).
  split.
  - eapply synced_kept; [exact Hinv|exact Hsy|exact Hs|]. rewrite Hh. intros p c Hc _. split; [done|].
    split; [set_solver|]. apply (Hap p), Hc.
  - eapply carried_spared; [exact Hinv|exact Hs|by rewrite Hh|exact Hap].
Qed.

Lemma drainQueue_synced W local n s :
  bounded W → inv W local n s → synced local s →
  runs drainQueue (λ _ s', inv W local n s' ∧ synced local s' ∧ carried s s') s.
Proof using KL.
  intros HW Hinv Hsy. unfold drainQueue, on_worker. runs_steps.
  by apply (drain_synced W local n _ (mkWenv _ _ _ _ _)); [|apply inv_swapped|apply (inv_queue _ _ _ _ Hinv)|].
Qed.

(** ** A batch of events *)

Lemma synced_quiet W local n s s' :
  inv W local n s → synced local s → heap s' = heap s → spared ∅ ∅ (log s) (log s') → synced local s'.
Proof using KL.
  intros Hinv Hsy Hh Hs. eapply synced_kept; [done..|]. rewrite Hh. intros p c Hp _.
  split; [done|set_solver].
Qed.

Lemma modifyFd_val fd events s a s' : modifyFd fd events s = (Val a, s') →
  heap s' = heap s ∧ log s' = EvEpollCtl EPOLL_CTL_MOD fd events (Ret tt) :: log s.
Proof using KL.
  unfold modifyFd, mbind, ST_bind, sys_epoll_ctl, syscall. intros Hr. cbn in Hr.
  destruct (k_epoll_ctl _ _ _ _) as [[]|]; [|done]. by injection Hr as _ <-.
Qed.

Lemma update_told p c s a s' :
  heap s !! p = Some c → ProxySession.clientFd c ≠ ProxySession.upstreamFd c →
  updateInterests p s = (Val a, s') → told c (log s').
Proof using KL.
  intros Hp Hne Hr. unfold updateInterests in Hr. bind_inv Hr. unfold deref in Hb. rewrite Hp in Hb.
  injection Hb as <- <-. bind_inv Hr. apply modifyFd_val in Hb as [Hh1 Hl1].
  bind_inv Hr. unfold deref in Hb. rewrite Hh1, Hp in Hb. injection Hb as <- <-.
  apply modifyFd_val in Hr as [_ Hl2]. rewrite Hl2, Hl1. by apply told_both.
Qed.

Lemma spares_clear_wake fuel : spares (S := env) ∅ ∅ (clear_wake fuel).
Proof using KL. induction fuel as [|fuel IH]; cbn [clear_wake]; unfold sys_wake_read; spare. Qed.

Lemma touches_handleEvent W local n p c fuel fd events s :
  inv W local n s → heap s !! p = Some c →
  touches ∅ ∅ (call p (ProxySession.handleEvent fuel fd events)) s.
Proof using KL.
  intros Hinv Hp. destruct (inv_ok _ _ _ _ Hinv p c Hp) as (_ & _ & [i Hi] & _).
  unfold touches, wp, call. rewrite Hp. set (e := mkEnv c (metrics s) (pool s) (log s)).
  pose proof (SessionSteps.handleEvent_io fuel fd events i e Hi) as Hio.
  apply io_steps_spared in Hio. by destruct (ProxySession.handleEvent fuel fd events e).
Qed.

Lemma core_ends c c' : SessionSteps.core c' = SessionSteps.core c → ends c' = ends c.
Proof using KL.
  unfold SessionSteps.core, ends, ProxySession.clientFd, ProxySession.upstreamFd. congruence.
Qed.

(** After the handler the session is in step with epoll, or is to be closed. *)
Lemma react_told W local n s p c (keep : bool) :
  inv W local n s → heap s !! p = Some c →
  runs (if negb keep then call p (ProxySession.on_session ProxySession.markClosing)
        else try_catch (updateInterests p)
          (λ _, call p (ProxySession.on_session ProxySession.markClosing)))
    (λ _ s', spared (ends c) ∅ (log s) (log s') ∧ ∃ c', heap s' = <[p := c']> (heap s) ∧
       (c' = ProxySession.markClosing c ∨ c' = c ∧ told c (log s'))) s.
Proof using KL.
  intros Hinv Hp. destruct (ends_open W local n s p c Hinv Hp) as [Hne _].
  assert (∀ s1, heap s1 = heap s → spared (ends c) ∅ (log s) (log s1) →
    runs (call p (ProxySession.on_session ProxySession.markClosing))
      (λ _ s', spared (ends c) ∅ (log s) (log s') ∧ ∃ c', heap s' = <[p := c']> (heap s) ∧
       (c' = ProxySession.markClosing c ∨ c' = c ∧ told c (log s'))) s1) as Hmark.
  { intros s1 Hh Hs. unfold call, runs. rewrite Hh, Hp. eexists _, _. split; [done|]. cbn.
    split; [done|]. eexists. split; [done|]. by left. }
  destruct keep; cbn [negb]; [|by apply Hmark].
  pose proof (asks_updateInterests p s ltac:(eauto)) as [Hn _].
  pose proof (taps_updateInterests p c s Hp) as [Hh Hs]. unfold runs, try_catch.
  destruct (updateInterests p s) as [[[]|e|] s1] eqn:E; cbn [fst snd] in *; [| |done].
  - exists tt, s1. split; [done|]. split; [done|]. exists c. split; [by rewrite Hh, insert_id|].
    right. split; [done|]. by eapply update_told.
  - by apply Hmark.
Qed.

(** What [handle_one] does for a session. *)
Definition session_turn (fuel p : nat) (fd events : Z) : ST env unit :=
  keep ← call p (ProxySession.handleEvent fuel fd events);
  (if negb keep then call p (ProxySession.on_session ProxySession.markClosing)
   else try_catch (updateInterests p)
     (λ _, call p (ProxySession.on_session ProxySession.markClosing))) ;;
  drop p.

(** On a session that goes on after an event on [fd], all that had come from
    the other end has been sent on [fd], if it takes data. *)
Definition delivers (c c' : ProxySession) (fd events : Z) (tr tr' : trace) : Prop := ∀ d,
  fd = ProxySession.fd_of (ProxySession.other d) c → connected c → willing fd →
  has events EPOLLOUT = true → ProxySession.closing c' = false →
  got (ProxySession.fd_of d c) tr `prefix_of` sent fd tr'.

Lemma handled signals wakes `{!FewInterrupts K signals} W local n fuel fd events p c s :
  fuelled signals wakes W fuel → inv W local n s → heap s !! p = Some c →
  ProxySession.closing c = false →
  runs (call p (ProxySession.handleEvent fuel fd events)) (λ keep s', calm W s s' ∧
    spared ∅ ∅ (log s) (log s') ∧ ∃ c', heap s' = <[p := c']> (heap s) ∧
    ProxySession.closing c' = negb keep ∧ core c' = core c ∧ (connected c → connected c') ∧
    delivers c c' fd events (log s) (log s')) s.
Proof using KL MO.
  intros Hfuel Hinv Hp Hopen. destruct (inv_ok _ _ _ _ Hinv p c Hp) as (_ & _ & [i Hi] & _).
  eapply runs_mono.
  { apply runs_eq. eapply runs_touches; [by apply (call_handleEvent signals wakes W local n s p c)|].
    by eapply touches_handleEvent. }
  cbn beta. intros keep s1 [[(H1 & c1 & Hh1 & Hc1) Hs1] Heq]. split; [done|]. split; [done|].
  exists c1. split; [done|]. split; [done|].
  unfold call in Heq. rewrite Hp in Heq. set (e := mkEnv c (metrics s) (pool s) (log s)) in *.
  destruct (ProxySession.handleEvent fuel fd events e) as [o e1] eqn:He. injection Heq as -> Hs.
  assert (ProxySession.session e1 = c1 ∧ log s1 = ProxySession.log e1) as [<- Hl1].
  { subst s1. split; [|done]. apply (f_equal (lookup p)) in Hh1. cbn in Hh1.
    rewrite !lookup_insert_eq in Hh1. by injection Hh1. }
  pose proof (SessionSteps.handleEvent_io fuel fd events i e Hi) as Hio. rewrite He in Hio.
  pose proof (SessionSteps.io_steps_core _ _ _ Hio) as E1. split; [done|].
  split; [intros Hcon; by apply (SessionSteps.io_steps_connected _ _ _ Hio)|].
  intros d -> Hcon Hw Hout Hcl. rewrite Hc1 in Hcl. destruct keep; [|done].
  destruct (ends_open W local n s p c Hinv Hp) as [Hne Hop].
  assert (inv W local n s1) as Hinv1 by (by eapply inv_calm).
  pose proof (SessionFlush.writable_drains (capacity W) fuel (ProxySession.other d) events i e e1 Hne
    (session_buffers W c _ _ _ (inv_ok _ _ _ _ Hinv p c Hp)) Hi Hopen Hcon Hw Hout He) as Hemp.
  replace (ProxySession.other (ProxySession.other d)) with d in Hemp by by destruct d.
  assert (heap s1 !! p = Some (ProxySession.session e1)) as Hp1 by (rewrite Hh1; apply lookup_insert_eq).
  pose proof (in_transit W local n s1 p _ d Hinv1 Hp1) as Hst. rewrite Hemp, app_nil_r in Hst.
  destruct (core_facts _ _ E1) as [_ Hfd]. rewrite !Hfd in Hst.
  change (ProxySession.session e) with c in Hst. rewrite <- Hst.
  destruct (Hs1 (ProxySession.fd_of d c) (Hop d)) as (_ & [Hg _] & _); [set_solver|exact Hg].
Qed.

Lemma session_turn_spec signals wakes `{!FewInterrupts K signals} W local n fuel fd events p c s :
  fuelled signals wakes W fuel → inv W local n s → published local (heap s) p c →
  ProxySession.closing c = false →
  runs (session_turn fuel p fd events) (λ _ s', inv W local n s' ∧ ∃ c',
    heap s' = <[p := c']> (heap s) ∧ core c' = core c ∧ (connected c → connected c') ∧
    spared (ends c) ∅ (log s) (log s') ∧ (ProxySession.closing c' = false → told c' (log s')) ∧
    delivers c c' fd events (log s) (log s')) s.
Proof using KL MO.
  intros Hfuel Hinv [Hp Hl] Hopen. unfold session_turn.
  apply runs_bind. eapply runs_mono; [by apply (handled signals wakes W local n)|].
  cbn beta. intros keep s1 (H1 & Hs1 & c1 & Hh1 & Hc1 & E1 & Hn1 & Hd1).
  assert (heap s1 !! p = Some c1) as Hp1 by (rewrite Hh1; apply lookup_insert_eq).
  assert (inv W local n s1) as Hinv1 by (by eapply inv_calm).
  apply runs_bind. eapply runs_mono.
  { apply runs_and; [by apply (react_spec W s1 p c1)|by apply (react_told W local n s1 p c1)]. }
  cbn beta. intros [] s2 (H2 & Hs2 & c2 & Hh2 & Hc2).
  assert (inv W local n s2) as Hinv2 by (by eapply inv_calm).
  assert (heap s2 !! p = Some c2) as Hp2 by (rewrite Hh2; apply lookup_insert_eq).
  eapply runs_mono; [by apply (drop_published W p c2 local n)|].
  cbn beta. intros [] s3 ->. split; [done|]. exists c2. rewrite (core_ends c c1 E1) in Hs2.
  split; [by rewrite Hh2, Hh1, insert_insert_eq|].
  split; [by destruct Hc2 as [->|[-> _]]|]. split; [by destruct Hc2 as [->|[-> _]]|].
  split; [etrans; [|exact Hs2]; eapply spared_mono; [..|exact Hs1]; set_solver|].
  split; [intros Hc; destruct Hc2 as [->|[-> Ht]]; done|].
  intros d -> Hcon Hw Hout Hc. etrans; [apply Hd1; by destruct Hc2 as [->|[-> _]]|].
  destruct (ends_open W local n s1 p c1 Hinv1 Hp1) as [_ Hop]. destruct (core_facts _ _ E1) as [_ Hfd].
  rewrite <- Hfd. by destruct (Hs2 _ (Hop (ProxySession.other d))) as (_ & [_ Hg] & _); [set_solver|].
Qed.

(** The other sessions stay as they are. *)
Lemma session_turn_synced W local n s s' p c c' :
  inv W local n s → synced local s → heap s !! p = Some c → ProxySession.closing c = false →
  heap s' = <[p := c']> (heap s) → core c' = core c → (connected c → connected c') →
  spared (ends c) ∅ (log s) (log s') → (ProxySession.closing c' = false → told c' (log s')) →
  synced local s' ∧ carried s s'.
Proof using KL.
  intros Hinv Hsy Hp Hopen Hh E Hn Hs Ht. split.
  - intros q c0 [Hq Hql] Hc0. rewrite Hh in Hq.
    apply lookup_insert_Some in Hq as [[<- <-]|[Hne Hq]]; [by apply Ht|].
    eapply told_kept; [exact Hinv|exact Hq|exact Hs| |set_solver|by apply (Hsy q)].
    by apply (ends_disjoint W local n s q p).
  - intros q c0 Hq. assert (∀ d, grown (ProxySession.fd_of d c0) (log s) (log s')) as Hg.
    { intros d. apply (Hs (ProxySession.fd_of d c0)); [by eapply ends_open|set_solver]. }
    rewrite Hh. destruct (decide (q = p)) as [->|Hne].
    + rewrite lookup_insert_eq. exists c'. assert (c0 = c) as -> by congruence.
      split; [done|]. split; [done|]. split; [congruence|]. done.
    + rewrite lookup_insert_ne by done. by exists c0.
Qed.

Lemma handle_one_synced signals wakes `{!FewInterrupts K signals} `{!WakeLaws K wakes} W local n fuel ev s :
  bounded W → fuelled signals wakes W fuel → inv W local n s → synced local s →
  runs (handle_one fuel ev) (λ _ s', inv W local n s' ∧ synced local s' ∧ carried s s') s.
Proof using KL MO.
  intros HW Hfuel Hinv Hsy. destruct ev as [fd events]. unfold handle_one. runs_steps.
  destruct (fd =? get (wakeFd_ (worker s))).
  - apply runs_bind. eapply runs_mono.
    { eapply runs_touches; [by apply (clear_wake_spec wakes); destruct Hfuel; lia|].
      apply touches_anywhere, spares_clear_wake. }
    cbn beta. intros [] s1 [H1 Hs1]. destruct (H1) as (_ & Hh1 & _). eapply runs_mono.
    + apply (drainQueue_synced W local n); [done|by eapply inv_calm, asked_calm|].
      by eapply synced_quiet.
    + intros [] s2 (H2 & Hsy2 & Hc2). split; [done|]. split; [done|]. etrans; [|exact Hc2].
      eapply carried_spared; [exact Hinv|exact Hs1|by rewrite Hh1|set_solver].
  - destruct (fdToSession_ (worker s) !! fd) as [p|] eqn:Hfd; [|by apply runs_ret].
    apply (linked_fds _ _ _ (inv_linked _ _ _ _ Hinv)) in Hfd as (c & Hp & _).
    apply runs_bind, (runs_deref p c); [apply Hp|].
    destruct (ProxySession.closing c) eqn:Hopen; [by apply runs_ret|].
    eapply runs_mono; [by apply (session_turn_spec signals wakes W local n fuel fd events p c)|].
    cbn beta. intros [] s1 (H1 & c1 & Hh1 & E1 & Hn1 & Hs1 & Ht1 & _). split; [done|].
    by apply (session_turn_synced W local n s s1 p c c1); [| |apply Hp|..].
Qed.

Lemma batch_synced signals wakes `{!FewInterrupts K signals} `{!WakeLaws K wakes} W local n fuel batch s :
  bounded W → fuelled signals wakes W fuel → inv W local n s → synced local s →
  runs (for_each (handle_one fuel) batch) (λ _ s', inv W local n s' ∧ synced local s' ∧ carried s s') s.
Proof using KL MO.
  intros HW Hfuel Hinv Hsy.
  apply (runs_for_each _ (λ _ s', inv W local n s' ∧ synced local s' ∧ carried s s')); [done|].
  intros ev l s1 (H1 & Hs1 & Hc1). eapply runs_mono; [by apply (handle_one_synced signals wakes)|].
  intros [] s2 (H2 & Hs2 & Hc2). split; [done|]. split; [done|by etrans].
Qed.

(** ** Reaping *)

Lemma closeSessions_synced W local n l s :
  bounded W → inv W local n s → all_published local l (heap s) → synced local s →
  runs (for_each closeSession l) (λ _ s', inv W (l ++ local) n s' ∧ heap s' = heap s ∧
    synced (l ++ local) s' ∧ survived s s') s.
Proof using KL MO.
  intros HW. revert local s. induction l as [|p l IH]; intros local s Hinv [Hn Hl] Hsy; cbn [for_each].
  { by apply runs_ret. }
  apply NoDup_cons in Hn as [Hpl Hn]. destruct (Hl p) as [c Hp]; [apply list_elem_of_here|].
  apply runs_bind. eapply runs_mono.
  { eapply runs_touches; [by apply (closeSession_spec W local n s p c)|].
    by apply taps_spares, taps_closeSession, Hp. }
  cbn beta. intros [] s1 [(H1 & Hh1 & _) Hs1]. eapply runs_mono; [apply (IH (p :: local)); [done| |]|].
  - split; [done|]. intros q Hq. destruct (Hl q) as [c' [Hc' Hq']]; [by apply list_elem_of_further|].
    exists c'. rewrite Hh1. split; [done|]. set_solver.
  - eapply synced_kept; [exact Hinv|exact Hsy|exact Hs1|]. rewrite Hh1.
    intros q c' [Hq Hql] _. apply not_elem_of_cons in Hql as [Hqp Hql]. split; [done|].
    split; [|set_solver]. eapply ends_disjoint; [exact Hinv|exact Hq|apply Hp|done].
  - cbn beta. intros [] s2 (H2 & Hh2 & Hsy2 & Hsv2).
    assert (l ++ p :: local ≡ₚ (p :: l) ++ local) as Hperm by (cbn; by rewrite Permutation_middle).
    split; [by eapply inv_perm|]. split; [congruence|]. split.
    + intros q c' Hq Hc. apply (Hsy2 q); [by rewrite Hperm|done].
    + etrans; [|exact Hsv2]. eapply survived_spared; [exact Hinv|exact Hs1|].
      rewrite Hh1. set_solver.
Qed.

Lemma drops_synced W local n l s :
  bounded W → inv W (l ++ local) n s → synced (l ++ local) s →
  runs (for_each drop l) (λ _ s', inv W local n s' ∧ synced local s' ∧ survived s s') s.
Proof using KL MO.
  intros HW. revert s. induction l as [|p l IH]; intros s Hinv Hsy; cbn [for_each].
  { by apply runs_ret. }
  destruct (linked_local _ _ _ (inv_linked _ _ _ _ Hinv) p) as [c Hp]; [apply list_elem_of_here|].
  apply runs_bind. eapply runs_mono.
  { eapply runs_touches; [by apply (drop_last W p (l ++ local) n)|]. by apply spares_drop. }
  cbn beta. intros [] s1 [(H1 & _ & Hh1 & _) Hs1].
  assert (∀ q c', heap s1 !! q = Some c' → q ≠ p ∧ heap s !! q = Some c' ∧ ends c' ## ends c) as Hleft.
  { intros q c'. rewrite Hh1. intros [Hqp Hq]%lookup_delete_Some. split; [done|]. split; [done|].
    eapply ends_disjoint; [exact Hinv|exact Hq|exact Hp|done]. }
  eapply runs_mono; [apply IH; [done|]|].
  - eapply synced_kept; [exact Hinv|exact Hsy|exact Hs1|].
    intros q c' [Hq Hql] _. destruct (Hleft q c' Hq) as (Hqp & Hq0 & Hd). split; [|set_solver].
    split; [done|]. by apply not_elem_of_cons.
  - intros [] s2 (H2 & Hsy2 & Hsv2). split; [done|]. split; [done|]. etrans; [|exact Hsv2].
    eapply survived_spared; [exact Hinv|exact Hs1|]. intros q c' Hq. by apply Hleft.
Qed.

Lemma spares_expired ps : spares (S := env) ∅ ∅ (expired_among ps).
Proof using KL MO.
  assert (∀ p, spares (S := env) ∅ ∅ (deref p)) as Hd.
  { intros p s. unfold wp, deref. by destruct (heap s !! p). }
  induction ps as [|p ps IH]; cbn [expired_among];
    unfold ProxySession.connectTimedOut, ProxySession.idleFor, ProxySession.on_lease,
      BackendPool.on_backend, on_metrics, sys_now; spare.
Qed.

Lemma sweep_synced W local n s t0 :
  bounded W → inv W local n s → past t0 s → synced local s →
  runs sweepIdleSessions (λ _ s', inv W local n s' ∧ synced local s' ∧ survived s s') s.
Proof using KL MO.
  intros HW Hinv Ht0 Hsy. unfold sweepIdleSessions. runs_steps.
  set (ps := visit (log s) (sessions_ (worker s))).
  destruct (visit_spec W local n s (log s) Hinv) as [[Hn Hpub] _].
  eapply runs_mono.
  { eapply runs_touches; [|apply touches_anywhere, (spares_expired ps)].
    apply (expired_among_spec W ps s t0); [done| |by apply Hinv|done].
    intros p Hp. destruct (Hpub p Hp) as (c & Hc & _). exists c. split; [done|].
    by apply (inv_ok _ _ _ _ Hinv p). }
  cbn beta. intros l s1 [((Hc1 & _ & Hh1 & _) & t1 & _ & _ & Hsub & _) Hs1].
  assert (inv W local n s1) as H1 by (by eapply inv_calm).
  apply runs_bind. eapply runs_mono.
  { apply (closeSessions_synced W local n l s1); [done|done| |exact (synced_quiet W local n s s1 Hinv Hsy Hh1 Hs1)].
    rewrite Hh1. split; [by eapply sublist_NoDup|].
    intros p Hp. apply Hpub. by eapply sublist_subseteq. }
  cbn beta. intros [] s2 (H2 & _ & Hsy2 & Hsv2).
  eapply runs_mono; [by apply (drops_synced W local n)|].
  intros [] s3 (H3 & Hsy3 & Hsv3). split; [done|]. split; [done|].
  etrans; [|exact Hsv3]. etrans; [|exact Hsv2].
  eapply survived_spared; [exact Hinv|exact Hs1|]. rewrite Hh1. set_solver.
Qed.

Lemma sys_now_synced W local n s :
  inv W local n s → synced local s →
  runs (sys_now (S := env)) (λ t s', inv W local n s' ∧ heap s' = heap s ∧ synced local s' ∧
    past t s' ∧ survived s s') s.
Proof using KL MO.
  intros Hinv Hsy. eapply runs_mono.
  { eapply runs_touches; [apply (sys_now_timed W)|].
    apply (touches_anywhere ∅ ∅). unfold sys_now. spare. }
  cbn beta. intros t s1 [((Hc & _ & Hh & _) & Ht & _) Hs].
  split; [by eapply inv_calm|]. split; [done|]. split; [by eapply synced_quiet|]. split; [done|].
  eapply survived_spared; [exact Hinv|exact Hs|]. rewrite Hh. set_solver.
Qed.

Lemma reap_synced W n lastSweep s :
  bounded W → inv W [] n s → synced [] s →
  runs (reap lastSweep) (λ _ s', synced [] s' ∧ survived s s') s.
Proof using KL MO.
  intros HW Hinv Hsy. unfold reap. runs_steps.
  destruct (visit_spec W [] n s (log s) Hinv) as [[Hn Hpub] _].
  set (ps := visit (log s) (sessions_ (worker s))) in *.
  eapply runs_mono; [apply closing_among_spec|].
  { intros p Hp. destruct (Hpub p Hp) as (c & Hc & _). by exists c. }
  cbn beta. intros l s0 [-> Hl].
  apply runs_bind. eapply runs_mono; [apply (closeSessions_synced W [] n l); [done|done| |done]|].
  { rewrite Hl. split; [by apply NoDup_ListNoDup, List.NoDup_filter, NoDup_ListNoDup|].
    intros p Hp. apply Hpub. apply list_elem_of_In, filter_In in Hp as [Hp _].
    by apply list_elem_of_In. }
  cbn beta. intros [] s1 (H1 & _ & Hsy1 & Hsv1). apply runs_bind.
  eapply runs_mono; [by apply (sys_now_synced W (l ++ []) n)|].
  cbn beta. intros now s2 (H2 & _ & Hsy2 & Hnow & Hsv2). apply runs_bind.
  eapply (runs_mono _ (λ _ s', inv W (l ++ []) n s' ∧ synced (l ++ []) s' ∧ survived s2 s')).
  { case_match; [|by apply runs_ret]. apply runs_bind.
    eapply runs_mono; [by apply (sweep_synced W (l ++ []) n s2 now)|].
    intros [] s3 H3. by apply runs_ret. }
  cbn beta. intros last s3 (H3 & Hsy3 & Hsv3). apply runs_bind.
  eapply runs_mono; [by apply (drops_synced W [] n l)|]. intros [] s4 (_ & Hsy4 & Hsv4).
  apply runs_ret. split; [done|]. by do 3 (etrans; [eassumption|]).
Qed.
(** The main thread touches no session: the client it may turn away is new. *)
Lemma enqueue_taps X Y clientFd addr s : taps X Y (enqueue clientFd addr) s.
Proof using KL.
  unfold enqueue. apply taps_bind; [apply taps_gets|intros w s1 _].
  destruct (negb (running_ w)); [apply taps_ret|].
  destruct (_ <=? _); [apply taps_ret|]. apply taps_bind; [apply taps_worker|intros _ s2 _].
  apply taps_bind; [by apply taps_syscall|intros r s3 _]. apply taps_ret.
Qed.

Lemma turn_away_taps clientFd s : taps ∅ {[clientFd]} (Acceptor.turn_away clientFd) s.
Proof using KL.
  apply taps_bind; [|by intros ? ? _].
  apply taps_syscall. intros r. harmless.
Qed.

Lemma accept_taps listenFd s : taps ∅ ∅ (Acceptor.accept_turn enqueue listenFd) s.
Proof using KL.
  unfold Acceptor.accept_turn. apply wp_bind, wp_syscall. cbn [bind_post].
  change (view s) with (log s). set (r := k_accept (log s) listenFd).
  set (s1 := upd _ s). assert (spared ∅ ∅ (log s) (log s1)) as H1.
  { apply spared_event; [done..|]. subst s1. destruct r as [[fd a]|e] eqn:Hr; [|done].
    apply accept_fresh in Hr as [_ Hf]. by intros fd' [= <-]. }
  destruct r as [[fd a]|e] eqn:Hr; [|by repeat case_match].
  apply accept_fresh in Hr as [_ Hf].
  lazymatch goal with |- wp ?m _ _ => assert (taps ∅ {[fd]} m s1) as Ht end.
  { apply taps_bind; [done|intros _ s2 _]. apply taps_bind.
    - apply taps_try_catch; [apply taps_bind; [|by intros ? ? _]|].
      + unfold Net.setTcpNoDelay. apply taps_bind; [by apply taps_syscall|by intros [] ? _].
      + intros e s3 _. apply taps_bind; [apply turn_away_taps|by intros ? ? _].
    - intros b s3 _. destruct (negb b); [apply taps_ret|].
      apply taps_bind; [apply enqueue_taps|intros taken s4 _].
      apply taps_bind; [|by intros ? ? _]. destruct (negb taken); [apply turn_away_taps|apply taps_ret]. }
  unfold taps in Ht. eapply wp_mono; [exact Ht|]. intros o s2 [Hh Hs]. split; [exact Hh|].
  apply (spared_fresh ∅ ∅ ∅ {[fd]} (log s) (log s1)); [done..|].
  intros x Hx. split; [done|]. by intros ->%elem_of_singleton.
Qed.

Lemma serve_request_taps listenFd r s : taps ∅ ∅ (serve_request listenFd r) s.
Proof using KL.
  destruct r; cbn [serve_request].
  - apply taps_bind; [apply accept_taps|by intros ? ? _].
  - unfold stop. apply taps_bind; [apply taps_gets|intros w s1 _].
    apply taps_bind; [apply taps_worker|intros _ s2 _].
    destruct (running_ w); [|apply taps_ret].
    apply taps_bind; [by apply taps_syscall|by intros ? ? _].
Qed.

End synced.

End WorkerPolls.
