(* ===== verification/WorkerLoop.v ===== *)
(** * What a worker's loop keeps and delivers

    The states at the test of the [while] in [run]: the books are in order, no
    session is closing, and epoll has been told what each session waits for.
    One more turn sends, on a socket that [epoll_wait] found writable, all that
    had come in for it. *)

From S2P Require Import Prelude Text Posix Streams ByteBuffer UniqueFd Metrics Config Net Backend BackendPool ProxySession SessionSteps SessionStream SessionEstate SessionEvents SessionFlush Polls Acceptor Worker WorkerInvariant WorkerSessions WorkerTurn WorkerRun WorkerPolls.
Local Open Scope Z_scope.

Module WorkerLoop.
Import UniqueFd (get).
Import ProxySession (ProxySession).
Import SessionEvents (interest, connected).
Import SessionSteps (core, core_facts).
Import SessionFlush (willing).
Import Streams Polls Worker WorkerInvariant WorkerSessions WorkerTurn WorkerRun WorkerPolls.

Section loop.
Context {K : Kernel} {KL : KernelLaws K} {MO : MapOrder}.
Context (signals wakes : nat) `{!FewInterrupts K signals} `{!WakeLaws K wakes}.
Context (W : surroundings) (HW : bounded W).

(** What holds whenever the thread looks at [running_]. *)
Definition settled (n : nat) (s : env) : Prop := inv W [] n s ∧ synced [] s ∧ none_closing s.

Lemma wait_and_serve_settled n fuel lastSweep s :
  fuelled signals wakes W fuel → settled n s →
  runs (wait_and_serve fuel lastSweep) (λ _, settled n) s.
Proof using All.
  intros Hfuel (Hinv & Hsy & Hopen). unfold wait_and_serve. runs_steps. eapply runs_mono.
  { eapply runs_touches; [apply syscall_asked; intros ? ?; by apply hushed_event|].
    by apply (taps_spares ∅ ∅), taps_syscall. }
  cbn beta. intros r s1 [[_ H1] Hs1]. assert (inv W [] n s1) as Hinv1 by (by eapply inv_calm, asked_calm).
  destruct (H1) as (_ & Hh1 & _). assert (synced [] s1) as Hsy1 by exact (synced_quiet W [] n s s1 Hinv Hsy Hh1 Hs1).
  destruct r as [batch|e].
  - apply runs_bind. eapply runs_mono.
    { apply runs_and; [by apply (turn_spec signals wakes W HW n)|].
      apply runs_bind. eapply runs_mono; [by apply (batch_synced signals wakes W [] n)|].
      intros [] s2 (H2 & Hsy2 & _).
      eapply runs_mono; [by apply (reap_synced W n)|]. intros last s3 [H3 _]. exact H3. }
    cbn beta. intros last s2 [(H2 & _ & s3 & now & _ & _ & _ & _ & _ & Hr) Hsy2].
    apply runs_ret. split; [done|]. split; [done|]. by eapply reaped_none_closing.
  - apply runs_ret. split; [done|]. split; [done|]. unfold none_closing. by rewrite Hh1.
Qed.

Lemma requests_settled n listenFd rs s :
  settled (arrivals rs + n) s →
  runs (for_each (serve_request listenFd) rs) (λ _, settled n) s.
Proof using All.
  intros (Hinv & Hsy & Hopen).
  assert (taps ∅ ∅ (for_each (serve_request listenFd) rs) s) as Ht.
  { clear Hinv Hsy Hopen. revert s. induction rs as [|r rs IH]; intros s; [apply taps_ret|].
    apply taps_bind; [apply serve_request_taps|by intros _ s1 _]. }
  eapply runs_mono.
  { exact (runs_wp _ _ (λ _ s', heap s' = heap s ∧ spared ∅ ∅ (log s) (log s')) s
      (requests_spec signals wakes W HW n listenFd rs s Hinv) Ht). }
  cbn beta. intros [] s1 [[H1 _] [Hh1 Hs1]]. split; [done|].
  split; [exact (synced_quiet W [] _ s s1 Hinv Hsy Hh1 Hs1)|]. unfold none_closing. by rewrite Hh1.
Qed.

Lemma requests_val n listenFd rs s s' :
  settled (arrivals rs + n) s → for_each (serve_request listenFd) rs s = (Val tt, s') → settled n s'.
Proof using All.
  intros Hs Hrs. destruct (requests_settled n listenFd rs s Hs) as (a & s1 & E & H1).
  rewrite Hrs in E. by injection E as _ <-.
Qed.

Lemma settled_start n s : inv W [] n s → heap s = ∅ → settled n s.
Proof using Type.
  intros Hinv Hh. split; [done|]. split; intros p c; [intros [Hp _]|intros Hp]; by rewrite Hh in Hp.
Qed.

Lemma all_arrivals_snoc turns rs : all_arrivals (turns ++ [rs]) = (all_arrivals turns + arrivals rs)%nat.
Proof using Type. unfold all_arrivals. rewrite concat_app, arrivals_app. cbn [concat]. by rewrite app_nil_r. Qed.

(** The thread of [run], started in [s0], has come to the test of the [while]
    in state [s], after so many turns with these requests in between. *)
Inductive at_head (fuel : nat) (listenFd : Z) (s0 : env) : list (list request) → Z → env → Prop :=
| head_first last s :
    sys_now s0 = (Val last, s) → at_head fuel listenFd s0 [] last s
| head_next turns last s rs s1 next s2 :
    at_head fuel listenFd s0 turns last s → running_ (worker s) = true →
    for_each (serve_request listenFd) rs s = (Val tt, s1) →
    wait_and_serve fuel last s1 = (Val (Some next), s2) →
    at_head fuel listenFd s0 (turns ++ [rs]) next s2.

(** It is a state of [run]: from there the rest of the run follows. *)
Lemma at_head_run fuel listenFd s0 turns last s more :
  at_head fuel listenFd s0 turns last s →
  run fuel listenFd (turns ++ more) s0 =
    (left ← run_loop fuel listenFd more last; shut_down ;; mret left) s.
Proof using KL.
  intros Hh. revert more. induction Hh as [last s Hn|turns last s rs s1 next s2 _ IH Hr Hrs Hw]; intros more.
  - unfold run. unfold mbind at 1, ST_bind at 1. by rewrite Hn.
  - rewrite <- app_assoc, IH. cbn [app run_loop]. unfold mbind, ST_bind, gets.
    rewrite Hr. cbn [negb]. by rewrite Hrs, Hw.
Qed.

Lemma at_head_settled fuel listenFd s0 turns last s n :
  fuelled signals wakes W fuel → at_head fuel listenFd s0 turns last s →
  settled (all_arrivals turns + n) s0 → settled n s.
Proof using All.
  intros Hfuel Hh. revert n. induction Hh as [last s Hn|turns last s rs s1 next s2 _ IH _ Hrs Hw]; intros n Hs0.
  - destruct Hs0 as (Hinv & Hsy & Hopen).
    destruct (sys_now_synced W [] n s0 Hinv Hsy) as (t & s' & E & H' & Hh & Hsy' & _).
    rewrite Hn in E. injection E as <- <-. split; [done|]. split; [done|].
    unfold none_closing. by rewrite Hh.
  - assert (settled (arrivals rs + n) s) as Hs.
    { apply IH. by rewrite Nat.add_assoc, <- all_arrivals_snoc. }
    pose proof (requests_val n listenFd rs s s1 Hs Hrs) as H1.
    destruct (wait_and_serve_settled n fuel last s1 Hfuel H1) as (x & s' & E & H2).
    rewrite Hw in E. by injection E as _ <-.
Qed.

(** ** What one turn delivers *)

Lemma not_wake n s p c fd : inv W [] n s → heap s !! p = Some c → fd ∈ ends c →
  fd ≠ get (wakeFd_ (worker s)).
Proof using All.
  intros Hinv Hp Hfd ->. rewrite (inv_wake _ _ _ _ Hinv) in Hfd.
  destruct (inv_estate _ _ _ _ Hinv) as [(Hn & _) _ _]. unfold books in Hn.
  rewrite bind_app in Hn. apply NoDup_app in Hn as (_ & Hn & _).
  apply (Hn (wake W)); apply list_elem_of_bind.
  - exists (SessionEstate.claim_of c). split; [|by apply (session_claims_in _ p)].
    unfold ends in Hfd. cbn. set_solver.
  - exists (Held (wake W)). split; [apply list_elem_of_here|]. set_solver.
Qed.

(** The event says that the peer at the far end of [d] can take data. *)
Definition says_writable (d : ProxySession.side) (c : ProxySession) (ev : Z * Z) : Prop :=
  ev.1 = ProxySession.fd_of (ProxySession.other d) c ∧ has ev.2 EPOLLOUT = true.

(** If the session is still going on, that peer has got all there was. *)
Definition caught_up (p : nat) (d : ProxySession.side) (c : ProxySession) (tr : trace) (s' : env) : Prop :=
  ∀ c', heap s' !! p = Some c' → ProxySession.closing c' = false →
    got (ProxySession.fd_of d c) tr `prefix_of`
      sent (ProxySession.fd_of (ProxySession.other d) c) (log s').

Lemma handle_one_delivers n fuel p c d ev s :
  fuelled signals wakes W fuel → inv W [] n s → heap s !! p = Some c → connected c →
  willing (ProxySession.fd_of (ProxySession.other d) c) → says_writable d c ev →
  runs (handle_one fuel ev) (λ _, caught_up p d c (log s)) s.
Proof using All.
  intros Hfuel Hinv Hp Hcon Hw. destruct ev as [fd events]. intros [Hfd Hout]. cbn in Hfd, Hout. subst fd.
  set (fd := ProxySession.fd_of (ProxySession.other d) c) in *.
  assert (fd ∈ ends c) as Hin by apply in_ends. unfold handle_one. runs_steps.
  pose proof (not_wake n s p c fd Hinv Hp Hin). destruct (Z.eqb_spec fd (get (wakeFd_ (worker s)))); [done|].
  assert (fdToSession_ (worker s) !! fd = Some p) as ->.
  { apply (linked_fds _ _ _ (inv_linked _ _ _ _ Hinv)). exists c.
    split; [split; [done|apply not_elem_of_nil]|]. unfold ends, owned_fds in *. set_solver. }
  apply runs_bind, (runs_deref p c); [done|].
  destruct (ProxySession.closing c) eqn:Hopen.
  { apply runs_ret. intros c' Hc'. congruence. }
  eapply runs_mono; [apply (session_turn_spec signals wakes W [] n fuel fd events p c); try done|].
  { split; [done|apply not_elem_of_nil]. }
  cbn beta. intros [] s1 (_ & c1 & Hh1 & _ & _ & _ & _ & Hd) c' Hc' Hcl.
  rewrite Hh1, lookup_insert_eq in Hc'. injection Hc' as <-. by apply Hd.
Qed.

Lemma batch_delivers n fuel p c d ev batch s :
  fuelled signals wakes W fuel → inv W [] n s → synced [] s → heap s !! p = Some c → connected c →
  willing (ProxySession.fd_of (ProxySession.other d) c) → ev ∈ batch → says_writable d c ev →
  runs (for_each (handle_one fuel) batch) (λ _, caught_up p d c (log s)) s.
Proof using All.
  intros Hfuel. revert s c. induction batch as [|ev0 batch IH]; intros s c Hinv Hsy Hp Hcon Hw Hev Hout.
  { by apply not_elem_of_nil in Hev. }
  cbn [for_each]. apply runs_bind.
  destruct (handle_one_synced signals wakes W [] n fuel ev0 s HW Hfuel Hinv Hsy)
    as ([] & s1 & E & H1 & Hsy1 & Hc1). destruct (Hc1 p c Hp) as (c1 & Hp1 & E1 & _ & Hn1 & Hg1).
  destruct (core_facts _ _ E1) as [_ Hfd1].
  apply elem_of_cons in Hev as [<-|Hev].
  - destruct (handle_one_delivers n fuel p c d ev s Hfuel Hinv Hp Hcon Hw Hout) as ([] & s1' & E' & Hd).
    rewrite E in E'. injection E' as <-. exists tt, s1. split; [done|].
    eapply runs_mono; [by apply (batch_synced signals wakes W [] n)|].
    intros [] s2 (_ & _ & Hc2) c' Hc' Hcl. destruct (Hc2 p c1 Hp1) as (x & Hx & _ & Hcl2 & _ & Hg2).
    rewrite Hx in Hc'. injection Hc' as ->. etrans; [apply (Hd c1 Hp1)|].
    + destruct (ProxySession.closing c1); [by rewrite Hcl2 in Hcl|done].
    + rewrite <- Hfd1. apply Hg2.
  - exists tt, s1. split; [done|]. eapply runs_mono.
    { apply (IH s1 c1); [done..|by apply Hn1|by rewrite Hfd1|done|]. unfold says_writable. by rewrite Hfd1. }
    intros [] s2 H2 c' Hc' Hcl. specialize (H2 c' Hc' Hcl). rewrite !Hfd1 in H2.
    etrans; [apply Hg1|exact H2].
Qed.

Lemma turn_delivers n fuel p c d ev batch lastSweep s :
  fuelled signals wakes W fuel → inv W [] n s → synced [] s → heap s !! p = Some c → connected c →
  willing (ProxySession.fd_of (ProxySession.other d) c) → ev ∈ batch → says_writable d c ev →
  runs (turn fuel batch lastSweep) (λ _ s', ∀ c', heap s' !! p = Some c' →
    got (ProxySession.fd_of d c) (log s) `prefix_of`
      sent (ProxySession.fd_of (ProxySession.other d) c) (log s')) s.
Proof using All.
  intros Hfuel Hinv Hsy Hp Hcon Hw Hev Hout.
  destruct (batch_synced signals wakes W [] n fuel batch s HW Hfuel Hinv Hsy)
    as ([] & s1 & Eb & H1 & Hsy1 & Hc1).
  destruct (batch_delivers n fuel p c d ev batch s Hfuel Hinv Hsy Hp Hcon Hw Hev Hout)
    as ([] & s1' & Eb' & Hd). rewrite Eb in Eb'. injection Eb' as <-.
  eapply runs_mono.
  { apply runs_and; [by apply (turn_spec signals wakes W HW n)|].
    apply runs_bind. exists tt, s1. split; [exact Eb|]. by apply (reap_synced W n). }
  cbn beta. intros last s2 [(_ & _ & s3 & now & _ & _ & _ & _ & _ & Hr) [_ Hsv]] c' Hc'.
  destruct (Hsv p c' Hc') as [Hp1 Hg]. apply reaped_none_closing in Hr.
  etrans; [apply (Hd c' Hp1), (Hr p c' Hc')|].
  destruct (Hc1 p c Hp) as (x & Hx & Ex & _). rewrite Hx in Hp1. injection Hp1 as ->.
  destruct (core_facts _ _ Ex) as [_ Hfd]. rewrite <- Hfd. apply Hg.
Qed.

(** While something is left to send, epoll is asked when it can be sent. *)
Lemma pending_polled n s p c d :
  settled n s → heap s !! p = Some c → connected c →
  got (ProxySession.fd_of d c) (log s) ≠ sent (ProxySession.fd_of (ProxySession.other d) c) (log s) →
  ∃ events, polled (ProxySession.fd_of (ProxySession.other d) c) (log s) = Some events ∧
    has events EPOLLOUT = true.
Proof using KL.
  intros (Hinv & Hsy & Hopen) Hp Hcon Hne. exists (interest (ProxySession.other d) c). split.
  - apply (Hsy p); [split; [done|apply not_elem_of_nil]|by apply (Hopen p)].
  - rewrite SessionEvents.interest_out, SessionSteps.other_other by done. apply negb_true_iff.
    apply ByteBuffer.empty_false; [by apply (inv_ok _ _ _ _ Hinv p c Hp)|]. intros Hemp. apply Hne.
    rewrite (in_transit W [] n s p c d Hinv Hp), Hemp. apply app_nil_r.
Qed.

Lemma wait_delivers n fuel lastSweep s p c d batch ev :
  fuelled signals wakes W fuel → settled n s → heap s !! p = Some c → connected c →
  willing (ProxySession.fd_of (ProxySession.other d) c) →
  k_epoll_wait (log s) (Config.maxEvents (config W)) = Ret batch → ev ∈ batch → says_writable d c ev →
  runs (wait_and_serve fuel lastSweep) (λ next s', next ≠ None ∧ inv W [] n s' ∧
    ∀ c', heap s' !! p = Some c' → got (ProxySession.fd_of d c) (log s) `prefix_of`
      sent (ProxySession.fd_of (ProxySession.other d) c) (log s')) s.
Proof using All.
  intros Hfuel (Hinv & Hsy & _) Hp Hcon Hw Hep Hev Hout. unfold wait_and_serve. runs_steps.
  rewrite (inv_config _ _ _ _ Hinv). set (k := Config.maxEvents (config W)) in *.
  set (s1 := upd (EvEpollWait k (Ret batch) :: log s) s).
  assert (inv W [] n s1) as H1 by (eapply inv_calm; [exact Hinv|]; apply asked_calm; by repeat split).
  exists (Ret batch), s1. split; [unfold sys_epoll_wait, syscall; cbn; by rewrite Hep|].
  assert (got (ProxySession.fd_of d c) (log s) = got (ProxySession.fd_of d c) (log s1)) as ->
    by (symmetry; by apply streams_mute).
  apply runs_bind. eapply runs_mono.
  { apply runs_and; [by apply (turn_spec signals wakes W HW n)|].
    by apply (turn_delivers n fuel p c d ev). }
  cbn beta. intros last s2 [(H2 & _) Hd]. by apply runs_ret.
Qed.
End loop.

End WorkerLoop.
