(* ===== verification/WorkerWake.v ===== *)
(** * Waking a worker ([enqueue] and [stop] against [run] in [src/Worker.cpp])

    [Worker] runs a call of the main thread between two steps of the worker
    thread.  Here both advance by single atomic accesses to what they share:
    the flag [running_], the queue under its mutex, the counter of the
    eventfd.  What else the loop does with a batch touches none of these.
    Both system calls may fail: [epoll_wait] takes the thread out of its loop
    with the flag still set, and a write to the eventfd may tell nobody. *)

From S2P Require Import Prelude Posix UniqueFd Config Metrics Worker.
Local Open Scope Z_scope.

Module WorkerWake.
Import Worker (AcceptedClient, mkClient, running_, queue_, config_, worker).

(** ** The two threads *)

Inductive call := Enqueue (client : AcceptedClient) | Stop.

(** The main thread: outside both calls; in [enqueue], having seen [running_]
    set; after the push, or after the exchange of [stop], before the write. *)
Inductive caller := Outside | Allowed (client : AcceptedClient) | Pushed | Cleared.

(** The worker thread: before [running_.load()]; in [epoll_wait]; in the loop
    that reads the eventfd; before the swap of [drainQueue] and in its loop,
    [last] for the call after the [while]; in the loop that empties the queue;
    at the end of [run]. *)
Inductive reader :=
| AtTest | AtWait | AtRead
| AtSwap (last : bool)
| Draining (last : bool) (local : list AcceptedClient)
| AtClose | Gone.

(** [accepted] and [handled] remember what was pushed and what was taken out
    to become a session or be closed, oldest first; [unheard], that the last
    write to the eventfd failed otherwise than for a full counter; [broken],
    that [epoll_wait] failed otherwise than by an interruption. *)
Record state := mkState {
  running : bool;
  queue : list AcceptedClient;
  counter : Z;
  caller_at : caller;
  reader_at : reader;
  accepted : list AcceptedClient;
  handled : list AcceptedClient;
  unheard : bool;
  broken : bool
}.

(** What [start] leaves. *)
Definition started : state := mkState true [] 0 Outside AtTest [] [] false false.

(** eventfd(2): a write that would pass the maximum fails with [EAGAIN]. *)
Definition add_one (n : Z) : Z := if n + 1 <=? 2 ^ 64 - 2 then n + 1 else n.

Definition call_at (p : caller) (s : state) : state :=
  mkState (running s) (queue s) (counter s) p (reader_at s) (accepted s) (handled s)
    (unheard s) (broken s).
Definition read_at (p : reader) (s : state) : state :=
  mkState (running s) (queue s) (counter s) (caller_at s) p (accepted s) (handled s)
    (unheard s) (broken s).
Definition set_running (b : bool) (s : state) : state :=
  mkState b (queue s) (counter s) (caller_at s) (reader_at s) (accepted s) (handled s)
    (unheard s) (broken s).
Definition set_counter (n : Z) (s : state) : state :=
  mkState (running s) (queue s) n (caller_at s) (reader_at s) (accepted s) (handled s)
    (unheard s) (broken s).
Definition push (c : AcceptedClient) (s : state) : state :=
  mkState (running s) (queue s ++ [c]) (counter s) (caller_at s) (reader_at s)
    (accepted s ++ [c]) (handled s) (unheard s) (broken s).
Definition set_queue (q : list AcceptedClient) (s : state) : state :=
  mkState (running s) q (counter s) (caller_at s) (reader_at s) (accepted s) (handled s)
    (unheard s) (broken s).
Definition handle (c : AcceptedClient) (s : state) : state :=
  mkState (running s) (queue s) (counter s) (caller_at s) (reader_at s) (accepted s)
    (handled s ++ [c]) (unheard s) (broken s).
Definition set_unheard (b : bool) (s : state) : state :=
  mkState (running s) (queue s) (counter s) (caller_at s) (reader_at s) (accepted s) (handled s)
    b (broken s).
Definition set_broken (s : state) : state :=
  mkState (running s) (queue s) (counter s) (caller_at s) (reader_at s) (accepted s) (handled s)
    (unheard s) true.

(** The write of a one to the eventfd: unless it fails ([written] is [false])
    the counter goes up, or is full, which [enqueue] takes for a success. *)
Definition signal (written : bool) (s : state) : state :=
  if written then set_unheard false (set_counter (add_one (counter s)) s) else set_unheard true s.

(** The next access of the main thread; [c] is the call it makes when it is
    outside, [queueLimit] the bound [enqueue] computes. *)
Definition main_step (queueLimit : Z) (c : call) (written : bool) (s : state) : state :=
  match caller_at s with
  | Outside =>
      match c with
      | Enqueue client => if running s then call_at (Allowed client) s else s
      | Stop => call_at (if running s then Cleared else Outside) (set_running false s)
      end
  | Allowed client =>
      if queueLimit <=? Z.of_nat (length (queue s)) then call_at Outside s
      else call_at Pushed (push client s)
  | Pushed | Cleared => call_at Outside (signal written s)
  end.

(** What ends an [epoll_wait]: a batch with the eventfd in it, for which the
    counter must not be zero; a batch without, the time-out or a signal;
    another error. *)
Inductive awaited := Reported | Nothing | Failed.

(** The next access of the worker thread.  [None]: it blocks, or has ended. *)
Definition worker_step (w : awaited) (s : state) : option state :=
  match reader_at s with
  | AtTest => Some (read_at (if running s then AtWait else AtSwap true) s)
  | AtWait =>
      match w with
      | Reported => if 0 <? counter s then Some (read_at AtRead s) else None
      | Nothing => Some (read_at AtTest s)
      | Failed => Some (read_at (AtSwap true) (set_broken s))
      end
  | AtRead =>
      Some (if 0 <? counter s then set_counter 0 s else read_at (AtSwap false) s)
  | AtSwap last => Some (read_at (Draining last (queue s)) (set_queue [] s))
  | Draining last (client :: local) => Some (read_at (Draining last local) (handle client s))
  | Draining last [] => Some (read_at (if last then AtClose else AtTest) s)
  | AtClose =>
      Some (match queue s with
            | client :: q => handle client (set_queue q s)
            | [] => read_at Gone s
            end)
  | Gone => None
  end.

Inductive step (queueLimit : Z) : state → state → Prop :=
| step_main c written s : step queueLimit s (main_step queueLimit c written s)
| step_worker w s s' : worker_step w s = Some s' → step queueLimit s s'.

(** The worker thread by itself: at most [n] accesses, until it blocks or ends;
    [epoll_wait] reports the eventfd whenever it is readable. *)
Fixpoint alone (n : nat) (s : state) : state :=
  match n with
  | O => s
  | S n' => match worker_step Reported s with Some s' => alone n' s' | None => s end
  end.

(** ** What always holds *)

Definition local (s : state) : list AcceptedClient :=
  match reader_at s with Draining _ l => l | _ => [] end.

(** Past the [while] loop. *)
Definition leaving (p : reader) : bool :=
  match p with AtSwap last | Draining last _ => last | AtClose | Gone => true | _ => false end.

(** The queue is about to be swapped out. *)
Definition emptying (p : reader) : bool :=
  match p with AtRead | AtSwap _ => true | _ => false end.

Definition enqueueing (p : caller) : bool :=
  match p with Allowed _ | Pushed => true | _ => false end.

(** The counter is not zero, or about to be made so. *)
Definition signalled (s : state) : Prop :=
  0 < counter s ∨ caller_at s = Pushed ∨ caller_at s = Cleared.

Record inv (s : state) : Prop := {
  inv_fifo : accepted s = handled s ++ local s ++ queue s;
  inv_counter : 0 <= counter s;
  inv_enqueue : enqueueing (caller_at s) = true → running s = true;
  inv_leaving : leaving (reader_at s) = true → running s = false ∨ broken s = true;
  inv_broken : broken s = true → leaving (reader_at s) = true;
  inv_swapped : leaving (reader_at s) = true →
    emptying (reader_at s) = true ∨ queue s = [] ∨ broken s = true;
  inv_clients : queue s ≠ [] →
    signalled s ∨ emptying (reader_at s) = true ∨ unheard s = true ∨ broken s = true;
  inv_stop : reader_at s = AtWait → running s = false → signalled s ∨ unheard s = true
}.

Lemma add_one_pos n : 0 <= n → 0 < add_one n.
Proof. unfold add_one. intros ?. destruct (Z.leb_spec (n + 1) (2 ^ 64 - 2)); lia. Qed.

(** Unfolds the fields of a successor state. *)
Ltac fields :=
  unfold signalled, local in *;
  cbn [running queue counter caller_at reader_at accepted handled unheard broken leaving
       enqueueing emptying call_at read_at set_running set_counter push set_queue handle
       set_unheard set_broken] in *.

Ltac routine := first [done | by rewrite <-app_assoc | intuition congruence | intuition eauto].

Lemma inv_main limit c written s : inv s → inv (main_step limit c written s).
Proof.
  intros [H1 H2 H3 H4 H5 H6 H7 H8]. unfold main_step, signal.
  pose proof (add_one_pos _ H2) as Hn.
  destruct (caller_at s) as [|cl| |] eqn:Hp;
    [destruct c; destruct (running s) eqn:Hr|case_match|destruct written..];
    try solve [split; fields; rewrite ?Hp, ?Hr in *; routine].
  assert (leaving (reader_at s) = true → broken s = true) as Hl.
  { intros Hl. destruct (H4 Hl) as [Hr|]; [|done]. by rewrite H3 in Hr. }
  split; fields; try (by intros ?); [by rewrite H1, !app_assoc|auto..].
Qed.

Lemma inv_worker w s s' : inv s → worker_step w s = Some s' → inv s'.
Proof.
  intros [H1 H2 H3 H4 H5 H6 H7 H8] Hw. unfold worker_step in Hw.
  destruct (reader_at s) as [| | |last|last [|client l]| |] eqn:Hr.
  4: { simplify_eq. split; fields; rewrite ?Hr in *; try done; [by rewrite app_nil_r|auto..]. }
  5: { simplify_eq. split; fields; rewrite ?Hr in *; try done; [by rewrite H1, <-!app_assoc|auto..]. }
  all: repeat case_match; simplify_eq; split; fields; rewrite ?Hr in *; routine.
Qed.

Lemma inv_reachable limit s : rtc (step limit) started s → inv s.
Proof.
  revert s. apply (rtc_ind_r inv).
  - by split; fields.
  - intros s1 s2 _ Hstep Hi. destruct Hstep; eauto using inv_main, inv_worker.
Qed.

(** ** The worker thread by itself *)

Definition stage (p : reader) : nat :=
  match p with
  | Gone => 0 | AtClose => 1 | Draining true _ => 2 | AtSwap true => 3 | AtWait => 3
  | AtTest => 4 | Draining false _ => 5 | AtSwap false => 6 | AtRead => 7
  end.

Definition alarm (s : state) : nat :=
  if 0 <? counter s then match reader_at s with AtRead => 1 | _ => 6 end else 0.

Definition waiting (s : state) : nat := length (local s) + length (queue s).

Definition effort (s : state) : nat := waiting s + stage (reader_at s) + alarm s.

Lemma effort_le s : (effort s ≤ waiting s + 12)%nat.
Proof.
  unfold effort, alarm, stage.
  destruct (reader_at s) as [| | |[]|[] ?| |], (0 <? counter s); lia.
Qed.

Lemma effort_descends s s' : worker_step Reported s = Some s' → (effort s' < effort s)%nat.
Proof.
  unfold worker_step, effort, waiting, alarm, local.
  destruct (reader_at s) as [| | |[]|[] [|client l]| |] eqn:Hr;
    destruct (running s), (0 <? counter s) eqn:Hc, (queue s) eqn:Hq;
    intros Hw; simplify_eq; fields; rewrite ?Hr, ?Hc, ?Hq; cbn; lia.
Qed.

Lemma worker_keeps s s' : worker_step Reported s = Some s' →
  caller_at s' = caller_at s ∧ running s' = running s ∧ accepted s' = accepted s ∧
  unheard s' = unheard s ∧ broken s' = broken s.
Proof.
  unfold worker_step. destruct (reader_at s) as [| | |?|? []| |];
    intros Hw; repeat case_match; by simplify_eq.
Qed.

(** It ends with the queue empty. *)
Lemma gone_empty s s' : worker_step Reported s = Some s' → reader_at s' = Gone → queue s' = [].
Proof.
  unfold worker_step. destruct (reader_at s) as [| | |?|? []| |] eqn:Hr;
    intros Hw; repeat case_match; simplify_eq; fields; by rewrite ?Hr.
Qed.

Lemma alone_rests n s : inv s → (effort s ≤ n)%nat →
  inv (alone n s) ∧ worker_step Reported (alone n s) = None ∧
  caller_at (alone n s) = caller_at s ∧ running (alone n s) = running s ∧
  accepted (alone n s) = accepted s ∧ unheard (alone n s) = unheard s ∧
  broken (alone n s) = broken s ∧
  (reader_at s ≠ Gone → reader_at (alone n s) = Gone → queue (alone n s) = []).
Proof.
  revert s. induction n as [|n IH]; intros s Hi Hn; cbn [alone];
    destruct (worker_step Reported s) as [s'|] eqn:Hw; try done;
    pose proof (effort_descends s s' Hw); [lia|].
  destruct (worker_keeps s s' Hw) as (<- & <- & <- & <- & <-).
  destruct (IH s') as (Hi' & Hw' & Hc & Hr & Ha & Hu & Hb & Hg); [by eapply inv_worker|lia|].
  split_and!; try done. intros _ Hend.
  assert (reader_at s' = Gone ∨ reader_at s' ≠ Gone) as [Hs'|] by (destruct (reader_at s'); auto);
    [|auto].
  assert (alone n s' = s') as -> by (destruct n; cbn [alone]; unfold worker_step; by rewrite ?Hs').
  by eapply gone_empty.
Qed.

(** Blocked or ended with nobody about to write, it has left nothing. *)
Lemma at_rest s : inv s → caller_at s = Outside → unheard s = false → broken s = false →
  worker_step Reported s = None →
  handled s = accepted s ∧ reader_at s = if running s then AtWait else Gone.
Proof.
  intros [H1 H2 H3 H4 H5 H6 H7 H8] Hc Hu Hb Hw. unfold worker_step in Hw.
  destruct (reader_at s) as [| | |?|? []| |] eqn:Hr; try done; fields; rewrite ?Hr, ?Hc, ?Hu, ?Hb in *.
  - destruct (Z.ltb_spec 0 (counter s)); [done|].
    destruct (running s); [|destruct (H8 eq_refl eq_refl) as [[|[]]|]; [lia|done..]].
    destruct (queue s) as [|c q]; [by rewrite app_nil_r in H1|].
    destruct (H7 ltac:(done)) as [[?|[]]|[|[]]]; [lia|done..].
  - destruct (H4 eq_refl) as [-> |]; [|done].
    destruct (H6 eq_refl) as [|[Hq|]]; [done| |done]. by rewrite H1, Hq, app_nil_r.
Qed.

(** After [epoll_wait] failed it can only end. *)
Lemma at_end s : inv s → broken s = true → worker_step Reported s = None →
  reader_at s = Gone ∧ accepted s = handled s ++ queue s.
Proof.
  intros [H1 _ _ _ H5 _ _ _] Hb Hw. specialize (H5 Hb). unfold worker_step in Hw.
  unfold local in H1. by destruct (reader_at s) as [| | |?|? []| |].
Qed.

(** ** The calls are those of [Worker] *)

Section calls.
Context `{K : Kernel}.

(** The flag and the queue of a worker, seen here. *)
Definition shows (s : state) (e : Worker.env) : Prop :=
  running s = running_ (worker e) ∧ queue s = queue_ (worker e).

(** Its accesses one after the other, a call does to the flag and the queue
    what [Worker] says it does. *)
Lemma enqueue_composes clientFd addr s e :
  let limit := u64 (Config.backlog (config_ (worker e)) * 4) in
  let c := Enqueue (mkClient clientFd addr) in
  let r := k_wake_write (Worker.log e) (UniqueFd.get (Worker.wakeFd_ (worker e))) in
  let written := match r with Ret _ => true | Fail errno => errno =? EAGAIN end in
  caller_at s = Outside → shows s e →
  ∃ n, let s' := Nat.iter n (main_step limit c written) s in
    caller_at s' = Outside ∧ shows s' (Worker.enqueue clientFd addr e).2 ∧
    (queue s' ≠ queue s → (Worker.enqueue clientFd addr e).1 = Val (negb (unheard s'))).
Proof using Type.
  destruct s as [r q k p d acc h u br]. intros limit c a written Hp [Hr Hq].
  cbn in Hp, Hr, Hq. subst p r q.
  unfold Worker.enqueue, gets, mbind, ST_bind. fold limit.
  destruct (running_ (worker e)) eqn:Hre; [|exists 1%nat; by repeat split].
  destruct (limit <=? Z.of_nat (length (queue_ (worker e)))) eqn:Hl.
  - exists 2%nat. cbn. rewrite Hl. by repeat split.
  - exists 3%nat. cbn. rewrite Hl. cbn. fold a. fold written. destruct written; by repeat split.
Qed.

Lemma stop_composes limit written s e :
  caller_at s = Outside → shows s e →
  ∃ n, let s' := Nat.iter n (main_step limit Stop written) s in
    caller_at s' = Outside ∧ shows s' (Worker.stop e).2.
Proof using Type.
  destruct s as [r q k p d acc h u br]. intros Hp [Hr Hq]. cbn in Hp, Hr, Hq. subst p r q.
  unfold Worker.stop, gets, mbind, ST_bind.
  destruct (running_ (worker e)); [exists 2%nat; destruct written|exists 1%nat]; by repeat split.
Qed.
End calls.

(** C7: no wake-up is lost.  However the accesses of the two threads are
    interleaved and whatever their system calls answer, clients leave the
    queue in the order they entered it and none gets lost.  As long as
    [epoll_wait] has not failed (otherwise than by an interruption), the queue
    is never emptied without its mutex while [enqueue] is under way; and once
    the main thread is outside its calls, if the last write to the eventfd did
    not fail, the worker thread, woken by the eventfd alone, takes every
    client within as many accesses as there are clients waiting and twelve
    more, and is then back in [epoll_wait], or at the end of [run] if it was
    stopped: neither a client nor a stop request waits for the time-out of
    [epoll_wait].  If [epoll_wait] failed, the thread reaches the end of [run]
    within as many accesses; it takes every client that is in the queue while
    it is under way, and those accepted after its end stay there. *)
Theorem no_lost_wakeup limit s :
  rtc (step limit) started s →
  let s' := alone (length (local s) + length (queue s) + 12) s in
  accepted s = handled s ++ local s ++ queue s ∧
  (leaving (reader_at s) = true → enqueueing (caller_at s) = false ∨ broken s = true) ∧
  (caller_at s = Outside → unheard s = false → broken s = false →
    handled s' = accepted s ∧ reader_at s' = if running s then AtWait else Gone) ∧
  (broken s = true →
    reader_at s' = Gone ∧ accepted s = handled s' ++ queue s' ∧
    (reader_at s = Gone → s' = s) ∧ (reader_at s ≠ Gone → queue s' = [])).
Proof.
  intros Hi%inv_reachable s'. split; [apply Hi|]. split.
  { destruct Hi as [_ _ He Hl _ _ _ _]. destruct (enqueueing _); [|by left].
    intros [Hr|]%Hl; [|by right]. by rewrite He in Hr. }
  pose proof (effort_le s) as Hn.
  destruct (alone_rests _ s Hi Hn) as (Hi' & Hw & Hc' & Hr & Ha & Hu' & Hb' & Hg).
  unfold waiting in *. fold s' in Hi', Hw, Hc', Hr, Ha, Hu', Hb', Hg. rewrite <-Ha. split.
  - intros Hc Hu Hb. rewrite <-Hr. apply at_rest; congruence.
  - intros Hb. destruct (at_end s' Hi') as [He Hq]; [congruence|done|].
    split; [done|]. split; [done|]. split; [|intros Hs; by apply Hg].
    intros Hs. subst s'. rewrite Nat.add_comm. cbn [alone Nat.add]. unfold worker_step. by rewrite Hs.
Qed.

Lemma by_main limit c written s1 s2 s3 :
  main_step limit c written s1 = s2 → rtc (step limit) s2 s3 → rtc (step limit) s1 s3.
Proof. intros <-. apply rtc_l, step_main. Qed.

Lemma by_worker limit w s1 s2 s3 :
  worker_step w s1 = Some s2 → rtc (step limit) s2 s3 → rtc (step limit) s1 s3.
Proof. intros Hw. by eapply rtc_l, (step_worker _ w). Qed.

(** The second client was pushed between the swap and the first session. *)
Definition busy_queue : state :=
  let a := mkClient 7 "a" in let b := mkClient 8 "b" in
  mkState true [b] 1 Outside (Draining false [a]) [a; b] [] false false.

(** [epoll_wait] failed at once; a client came later. *)
Definition stranded : state :=
  let a := mkClient 7 "a" in mkState true [a] 1 Outside Gone [a] [] false true.

Lemma no_lost_wakeup_witness :
  rtc (step 4) started busy_queue ∧ local busy_queue = [mkClient 7 "a"] ∧
  queue busy_queue = [mkClient 8 "b"] ∧
  handled (alone 14 busy_queue) = [mkClient 7 "a"; mkClient 8 "b"] ∧
  rtc (step 4) started stranded ∧ alone 13 stranded = stranded.
Proof.
  assert (rtc (step 4) started busy_queue) as Hs.
  { eapply (by_worker _ Reported); [vm_compute; reflexivity|].
    do 3 (eapply (by_main _ (Enqueue (mkClient 7 "a")) true); [vm_compute; reflexivity|]).
    do 3 (eapply (by_worker _ Reported); [vm_compute; reflexivity|]).
    eapply (by_main _ (Enqueue (mkClient 8 "b")) true); [vm_compute; reflexivity|].
    eapply (by_worker _ Reported); [vm_compute; reflexivity|].
    do 2 (eapply (by_main _ (Enqueue (mkClient 8 "b")) true); [vm_compute; reflexivity|]).
    apply rtc_refl. }
  assert (rtc (step 4) started stranded) as Hf.
  { do 5 (eapply (by_worker _ Failed); [vm_compute; reflexivity|]).
    do 3 (eapply (by_main _ (Enqueue (mkClient 7 "a")) true); [vm_compute; reflexivity|]).
    apply rtc_refl. }
  split; [exact Hs|]. split; [reflexivity|]. split; [reflexivity|]. split; [|split; [exact Hf|]].
  - destruct (no_lost_wakeup 4 busy_queue Hs) as (_ & _ & Hr & _).
    exact (proj1 (Hr eq_refl eq_refl eq_refl)).
  - destruct (no_lost_wakeup 4 stranded Hf) as (_ & _ & _ & Hb).
    exact (proj1 (proj2 (proj2 (Hb eq_refl))) eq_refl).
Defined.

End WorkerWake.
