(* ===== verification/WorkerClaims.v ===== *)
(** * What a worker promises

    The properties of [Worker], from the constructor to the end of the
    thread, and runs of concrete workers that show their hypotheses met. *)

From S2P Require Import Prelude Text Posix Streams ByteBuffer UniqueFd Metrics Config Net Backend BackendPool ProxySession SessionSteps SessionStream SessionEvents SessionFlush Polls Acceptor Worker WorkerInvariant WorkerSessions WorkerTurn WorkerRun WorkerPolls WorkerLoop.
Local Open Scope Z_scope.

Module WorkerClaims.
Import UniqueFd (UniqueFd, mkUniqueFd, get).
Import BackendPool (BackendPool, accounts).
Import ProxySession (ProxySession).
Import SessionEvents (interest, connected).
Import SessionFlush (willing).
Import Streams Polls Worker WorkerInvariant WorkerSessions WorkerTurn WorkerRun WorkerPolls WorkerLoop.

(** Closing more leaves what is closed closed. *)
Lemma closed_stays fd l tr : fd ∉ open_fds tr → fd ∉ open_fds ((EvClose <$> l) ++ tr).
Proof. induction l as [|x l IH]; cbn; set_solver. Qed.

Section claims.
Context {K : Kernel} {KL : KernelLaws K} {MO : MapOrder}.

(** Joining changes nothing but that the thread is joined. *)
Lemma joined s : let s' := (join s).2 in
  thread_ (worker s') = false ∧
  (sessions_ (worker s') = sessions_ (worker s) ∧ fdToSession_ (worker s') = fdToSession_ (worker s) ∧
   activeSessions_ (worker s') = activeSessions_ (worker s) ∧ queue_ (worker s') = queue_ (worker s)) ∧
  heap s' = heap s ∧ metrics s' = metrics s ∧ pool s' = pool s ∧ log s' = log s.
Proof using Type.
  unfold join, on_worker, gets, modify, mbind, ST_bind, mret, ST_ret.
  by destruct (thread_ (worker s)) eqn:Ht.
Qed.

(** C6: the life of a worker.  From its construction, through [start] (its
    thread being created), any traffic the kernel and the acceptor produce,
    [stop] and [join], the thread ends without an exception, whatever happened
    in between; what the main thread had left to do when the loop ended, it
    does afterwards.  In the end no session or map entry is left, every lease has been returned,
    the gauges are back where they were, and every descriptor the worker got
    hold of has been closed exactly once, but those of the clients still in
    the queue; and the queue is empty, unless [epoll_wait] failed during the
    run otherwise than by an interruption. *)
Theorem worker_lifecycle signals wakes W fuel listenFd requests index m p tr w tr'
    `{!FewInterrupts K signals} `{!WakeLaws K wakes} :
  bounded W → fuelled signals wakes W fuel → Z.of_nat (all_arrivals requests) < 2 ^ 53 →
  estate (rest W) tr → accounts (base W) p → Metrics.active_ m = gauge W →
  construct index (config W) tr = (Val w, tr') →
  get (epollFd_ w) = epoll W → get (wakeFd_ w) = wake W → ready W = true →
  k_thread tr' = Ret tt → Stop ∈ concat requests →
  ∃ s', (start ;; left ← run fuel listenFd requests;
         for_each (serve_request listenFd) (concat left) ;; join) (mkWenv w ∅ m p tr') = (Val tt, s') ∧
    thread_ (worker s') = false ∧
    heap s' = ∅ ∧ sessions_ (worker s') = ∅ ∧ fdToSession_ (worker s') = ∅ ∧
    activeSessions_ (worker s') = 0 ∧ Metrics.active_ (metrics s') = gauge W ∧
    accounts (base W) (pool s') ∧
    estate (queue_claims (worker s') ++ [Held (epoll W); Held (wake W)] ++ rest W) (log s') ∧
    (queue_ (worker s') = [] ∨ epoll_failed (log s')).
Proof using KL.
  intros HW Hfuel Hn Hl Hp Hm Hw He Hk Hready Hth Hstop.
  pose proof (construct_owns index (config W) (rest W) tr Hl) as Hc. rewrite Hw in Hc.
  destruct Hc as (e & k & -> & _ & _ & Hl'). cbn in He, Hk. subst e k.
  set (s1 := mkWenv (set_thread true (set_running true
    (new_worker index (config W) (epoll W) (wake W)))) ∅ m p tr').
  assert (inv W [] (all_arrivals requests + 0) s1) as H1
    by (subst s1; rewrite <- Hready; apply inv_new; [done|lia|done..]).
  destruct (run_spec signals wakes W HW 0 fuel listenFd requests s1 Hfuel H1)
    as (left & s2 & Hrun & H2 & (Hh2 & Hq2 & _) & Hend); [by right|].
  destruct (served_later signals wakes W HW 0 listenFd (concat left) s2 H2)
    as ([] & s3 & Hserved & H3 & Hh3 & Hgone); [split; naive_solver|].
  exists (join s3).2. split.
  { unfold start, std_thread, on_worker, gets, modify, mbind, ST_bind. cbn. rewrite Hth. cbn.
    fold s1. rewrite Hrun, Hserved.
    unfold join, on_worker, gets, modify, mbind, ST_bind, mret, ST_ret.
    by destruct (thread_ (worker s3)). }
  destruct (joined s3) as (-> & Hw3 & -> & -> & -> & ->).
  split; [done|]. unfold queue_claims. destruct Hw3 as (-> & -> & -> & ->). destruct (unlinked W 0 s3 H3 Hh3) as [Hs3 Hf3].
  destruct H3. unfold books in inv_estate0. rewrite Hh3 in inv_leases0, inv_estate0.
  rewrite Hs3, map_size_empty in inv_active0, inv_gauge0.
  split; [done|]. split; [done|]. split; [done|]. split; [done|]. split; [lia|]. split.
  { eapply BackendPool.accounts_ext; [|exact inv_leases0].
    intros i. cbn beta. rewrite held_empty. lia. }
  split; [exact inv_estate0|]. naive_solver.
Qed.

(** C10: deferred destruction.  Whatever batch [epoll_wait] returns, with
    stale, unknown or repeated descriptors in any order, serving it never
    dereferences a session that is gone and never throws; every session that
    was there is still there afterwards, under the same id and descriptors,
    even if an event marked it closing. *)
Theorem deferred_destruction signals wakes W n fuel batch s
    `{!FewInterrupts K signals} `{!WakeLaws K wakes} :
  bounded W → fuelled signals wakes W fuel → inv W [] n s →
  ∃ s', for_each (handle_one fuel) batch s = (Val tt, s') ∧ inv W [] n s' ∧ onward s s' ∧
    sessions_ (worker s) ⊆ sessions_ (worker s') ∧
    fdToSession_ (worker s) ⊆ fdToSession_ (worker s').
Proof using KL MO.
  intros HW Hfuel Hinv.
  destruct (batch_spec signals wakes W HW [] n fuel batch s Hinv Hfuel)
    as ([] & s' & Hb & H' & Hon & _).
  exists s'. split; [done|]. split; [done|]. split; [done|]. by eapply onward_maps.
Qed.

(** C11: a turn of the loop reaps.  It always ends; of the sessions present
    when the batch was served ([s1]) exactly these are destroyed before the
    next [epoll_wait]: the ones marked closing and, when by the first reading
    of the clock after the batch a second has passed since the last sweep, the
    ones that have exceeded their connect or idle timeout; the others are left
    as they were, and no session that is closing survives.  The sweep then
    counts as made at that time. *)
Theorem turn_reaps signals wakes W n fuel batch lastSweep s
    `{!FewInterrupts K signals} `{!WakeLaws K wakes} :
  bounded W → fuelled signals wakes W fuel → inv W [] n s →
  ∃ s1 now s', for_each (handle_one fuel) batch s = (Val tt, s1) ∧
    reading now (log s1) (log s') ∧
    turn fuel batch lastSweep s =
      (Val (if 10 ^ 9 <=? now - lastSweep then now else lastSweep), s') ∧
    inv W [] n s' ∧ reaped W lastSweep now (heap s1) s' ∧
    none_closing s'.
Proof using KL MO.
  intros HW Hfuel Hinv.
  destruct (turn_spec signals wakes W HW n fuel batch lastSweep s Hinv Hfuel)
    as (last & s' & Ht & H' & _ & s1 & now & Hb & _ & _ & -> & Hrd & Hr).
  exists s1, now, s'. split; [done|]. split; [done|]. split; [done|]. split; [done|].
  split; [done|]. by eapply reaped_none_closing.
Qed.

(** C9: epoll is never out of date.  Whenever the thread looks at [running_],
    after any turns and whatever the kernel answered, every session the worker
    knows is alive, is not closing, and has both its sockets registered with
    epoll for exactly the events [clientEvents] and [upstreamEvents] name.  So
    the end of a pending connect is awaited, and once connected each direction
    that has not ended has its source polled for input or its sink for output:
    no session is left waiting for an event that epoll was not asked for. *)
Theorem sessions_stay_polled signals wakes W fuel listenFd turns last n s0 s
    `{!FewInterrupts K signals} `{!WakeLaws K wakes} :
  bounded W → fuelled signals wakes W fuel → inv W [] (all_arrivals turns + n) s0 →
  heap s0 = ∅ → at_head fuel listenFd s0 turns last s →
  (∀ more, run fuel listenFd (turns ++ more) s0 =
     (left ← run_loop fuel listenFd more last; shut_down ;; mret left) s) ∧
  inv W [] n s ∧
  ∀ id p, sessions_ (worker s) !! id = Some p → ∃ c, heap s !! p = Some c ∧
    ProxySession.closing c = false ∧
    (∀ d, polled (ProxySession.fd_of d c) (log s) = Some (interest d c)) ∧
    (ProxySession.upstreamConnecting_ c = true → has (interest ProxySession.Upstream c) EPOLLOUT = true) ∧
    (connected c → ∀ d, ProxySession.readClosed d c = false →
       has (interest d c) EPOLLIN = true ∨ has (interest (ProxySession.other d) c) EPOLLOUT = true).
Proof using KL MO.
  intros HW Hfuel Hinv Hh Hhead. split; [intros more; by apply at_head_run|].
  destruct (at_head_settled signals wakes W HW fuel listenFd s0 turns last s n Hfuel Hhead)
    as (H & Hsy & Hopen).
  { by apply settled_start. }
  split; [done|]. intros id p (c & Hp & _)%(linked_sessions _ _ _ (inv_linked _ _ _ _ H)).
  pose proof (Hopen p c (proj1 Hp)) as Hc. exists c. split; [apply Hp|]. split; [done|].
  split; [by apply (Hsy p)|].
  assert (SessionStream.buffers_ok (capacity W)
    (ProxySession.mkEnv c (metrics s) (pool s) (log s))) as Hok.
  { apply session_buffers, (inv_ok _ _ _ _ H p), Hp. }
  destruct HW as (_ & _ & Hcap & _). split.
  - intros Hcon. cbn. unfold ProxySession.upstreamEvents. by rewrite Hcon.
  - intros Hcon d Hr. destruct (SessionEvents.interest_never_deadlocks _ _ d Hok Hcap) as [_ Hi].
    by apply Hi.
Qed.

(** C8: what has come in goes out at the next opportunity.  Let the thread be
    about to call [epoll_wait], after any turns, and take a connected session
    and one of its directions, whose far peer takes what it is offered.  While
    something received has not been sent, that peer's socket is polled for
    output; and once [epoll_wait] reports it writable, the turn that follows
    sends everything received before it, unless it ends the session. *)
Theorem received_is_delivered signals wakes W fuel listenFd turns last n s0 s rs s1 p c d
    `{!FewInterrupts K signals} `{!WakeLaws K wakes} :
  bounded W → fuelled signals wakes W fuel → inv W [] (all_arrivals (turns ++ [rs]) + n) s0 →
  heap s0 = ∅ → at_head fuel listenFd s0 turns last s →
  for_each (serve_request listenFd) rs s = (Val tt, s1) →
  heap s1 !! p = Some c → connected c → willing (ProxySession.fd_of (ProxySession.other d) c) →
  let src := ProxySession.fd_of d c in
  let snk := ProxySession.fd_of (ProxySession.other d) c in
  (got src (log s1) ≠ sent snk (log s1) →
     ∃ events, polled snk (log s1) = Some events ∧ has events EPOLLOUT = true) ∧
  ∀ batch events, k_epoll_wait (log s1) (Config.maxEvents (config W)) = Ret batch →
    (snk, events) ∈ batch → has events EPOLLOUT = true →
    ∃ next s', wait_and_serve fuel last s1 = (Val (Some next), s') ∧ inv W [] n s' ∧
      ∀ c', heap s' !! p = Some c' → got src (log s1) `prefix_of` sent snk (log s').
Proof using KL MO.
  intros HW Hfuel Hinv Hh Hhead Hrs Hp Hcon Hw src snk.
  assert (settled W n s1) as Hs1.
  { rewrite all_arrivals_snoc, <- Nat.add_assoc in Hinv.
    eapply (requests_val signals wakes W HW); [|exact Hrs].
    apply (at_head_settled signals wakes W HW fuel listenFd s0 turns last s _ Hfuel Hhead).
    by apply settled_start. }
  split; [intros Hne; by eapply pending_polled|]. intros batch events Hep Hin Hout.
  destruct (wait_delivers signals wakes W HW n fuel last s1 p c d batch (snk, events))
    as (next & s' & Hws & Hnext & H' & Hd); [done..|].
  destruct next as [next|]; [|done]. by exists next, s'.
Qed.

(** C12: a client is refused or admitted.  [createSession] always ends.
    Either no backend was healthy, the connect failed at once or epoll refused
    the sockets: then the client's descriptor is closed, one rejection is
    counted, and sessions and maps are as before; or exactly one session is
    added, under the next id, reachable from its id and from its client
    descriptor.  On every branch each descriptor and lease has one owner. *)
Theorem createSession_outcome W n client s :
  bounded W → 0 <= fd client → inv (keep [Unused (fd client)] W) [] (S n) s →
  ∃ s', createSession client s = (Val tt, s') ∧ inv W [] n s' ∧
    (refused client s s' ∧ fd client ∉ open_fds (log s') ∨
     admitted client s s' ∧ ∃ p, fdToSession_ (worker s') !! fd client = Some p ∧
       sessions_ (worker s') !! nextSessionId_ (worker s) = Some p).
Proof using KL MO.
  intros HW Hfd Hinv.
  destruct (createSession_spec W [] n s client HW Hinv Hfd) as ([] & s' & Hc & H' & Ho).
  exists s'. split; [done|]. split; [done|]. destruct Ho as [Hr|Ha]; [left|right].
  - split; [done|]. destruct Hr as (Hh & Hw & _).
    assert (queue_ (worker s') = queue_ (worker s)) as Hq by (by destruct Hw as [-> | ->]).
    destruct (estate_fds _ _ (inv_estate _ _ _ _ H')) as (_ & -> & _).
    pose proof (estate_fds _ _ (inv_estate _ _ _ _ Hinv)) as (Hn & _ & _).
    rewrite elem_of_list_to_set. rewrite books_keep in Hn. cbn in Hn.
    apply NoDup_cons in Hn as [Hn _]. unfold books, queue_claims in *. by rewrite Hh, Hq.
  - split; [done|]. destruct Ha as (p & c & Hp & Hh & Hw & Hid & Hcf & _). exists p.
    destruct (inv_linked _ _ _ _ H') as [Hs Hf _ _].
    assert (published [] (heap s') p c) as Hpub.
    { rewrite Hh. split; [apply lookup_insert_eq|apply not_elem_of_nil]. }
    split; [apply Hf|apply Hs]; exists c; (split; [done|]); [|done].
    rewrite <- Hcf. apply list_elem_of_here.
Qed.

(** C13: the sweep enforces the timeouts.  A session still connecting after
    [connectTimeoutMs], or idle for [idleTimeoutSeconds], when the sweep
    starts (the clock has shown [t0]) is destroyed by it; a session it
    destroys was over one of these limits at some time the clock has shown;
    every other session is left as it was. *)
Theorem sweep_enforces_timeouts W n s t0 :
  bounded W → inv W [] n s → EvNow t0 ∈ log s →
  ∃ s', sweepIdleSessions s = (Val tt, s') ∧ inv W [] n s' ∧
    ∃ t1, EvNow t1 ∈ log s' ∧ t0 <= t1 ∧ ∀ p c, heap s !! p = Some c →
      (overdue W t0 c = true → heap s' !! p = None) ∧
      (overdue W t1 c = false → heap s' !! p = Some c) ∧
      (heap s' !! p = None ∨ heap s' !! p = Some c).
Proof using KL MO.
  intros HW Hinv Ht0.
  destruct (sweepIdleSessions_spec W HW [] n s t0 Hinv Ht0)
    as ([] & s' & Hs & H' & _ & gone & t1 & Ht1 & Hle & Hh & Hg).
  exists s'. split; [done|]. split; [done|]. exists t1. split; [done|]. split; [done|].
  intros p c Hp. destruct (Hg p) as [Hg1 Hg2]. rewrite Hh, Hp.
  assert (published [] (heap s) p c) as Hpub by (split; [done|apply not_elem_of_nil]).
  split; [|split]; [|intros Ho|case_bool_decide; auto].
  - intros Ho. by rewrite bool_decide_true by eauto.
  - rewrite bool_decide_false; [done|]. intros Hin. destruct (Hg1 Hin) as (c' & [Hc' _] & Ho').
    congruence.
Qed.

(** C14: the queue is bounded.  [enqueue] refuses a client, changing nothing,
    when the worker is stopped or the queue holds four times the backlog;
    otherwise the client joins at the end and the eventfd is written once,
    with success reported when the write succeeded or the counter was full.
    The bound is never exceeded. *)
Theorem enqueue_bounded clientFd addr s :
  0 <= Config.backlog (config_ (worker s)) <= 65535 →
  let limit := Config.backlog (config_ (worker s)) * 4 in
  let q := queue_ (worker s) in
  let wakeFd := get (wakeFd_ (worker s)) in
  let r := enqueue clientFd addr s in
  (running_ (worker s) = false ∨ limit <= Z.of_nat (length q) → r = (Val false, s)) ∧
  (running_ (worker s) = true → Z.of_nat (length q) < limit →
    queue_ (worker r.2) = q ++ [mkClient clientFd addr] ∧
    log r.2 = EvWakeWrite wakeFd (k_wake_write (log s) wakeFd) :: log s ∧
    (r.1 = Val true ↔ k_wake_write (log s) wakeFd = Ret tt ∨
                      k_wake_write (log s) wakeFd = Fail EAGAIN)) ∧
  (Z.of_nat (length q) <= limit → Z.of_nat (length (queue_ (worker r.2))) <= limit).
Proof using Type.
  intros Hb limit q wakeFd r. unfold enqueue, gets, mbind, ST_bind in r. subst r.
  rewrite u64_small by (unfold is_u64; lia). fold q. fold limit.
  destruct (running_ (worker s)); cbn [negb].
  2: { split; [done|]. split; [done|]. done. }
  destruct (Z.leb_spec limit (Z.of_nat (length q))).
  { split; [done|]. split; [lia|done]. }
  split; [intros [|]; [done|lia]|]. split.
  - intros _ _. split; [done|]. split; [done|]. cbn. fold wakeFd.
    destruct (k_wake_write (log s) wakeFd) as [[]|e]; [naive_solver|].
    destruct (Z.eqb_spec e EAGAIN); naive_solver.
  - intros _. cbn. fold q. rewrite length_app. cbn. lia.
Qed.

(** [enqueue] into a queue with room, up to the answer of the eventfd. *)
Lemma enqueue_room clientFd addr s :
  running_ (worker s) = true → 0 <= Config.backlog (config_ (worker s)) <= 65535 →
  Z.of_nat (length (queue_ (worker s))) < Config.backlog (config_ (worker s)) * 4 →
  let r := k_wake_write (log s) (get (wakeFd_ (worker s))) in
  enqueue clientFd addr s =
    (Val (match r with Ret _ => true | Fail e => e =? EAGAIN end),
     mkWenv (set_queue (queue_ (worker s) ++ [mkClient clientFd addr]) (worker s)) (heap s)
       (metrics s) (pool s) (EvWakeWrite (get (wakeFd_ (worker s))) r :: log s)).
Proof using Type.
  intros Hrun Hb Hroom r. unfold enqueue, on_worker, gets, modify, mbind, ST_bind.
  rewrite Hrun. cbn [negb]. rewrite u64_small by (unfold is_u64; lia).
  by destruct (Z.leb_spec (Config.backlog (config_ (worker s)) * 4)
    (Z.of_nat (length (queue_ (worker s))))); [lia|].
Qed.

(** The worker takes no client: it is stopped, or no backend is healthy. *)
Definition refusing (s : env) : Prop :=
  running_ (worker s) = false ∨ BackendPool.hasHealthyBackend (pool s) = false.

Lemma refuses_one client s :
  refusing s →
  runs (running ← gets (λ s, running_ (worker s));
        if negb running then sys_close (fd client) else createSession client)
    (λ _ s', refusing s' ∧ log s' = EvClose (fd client) :: log s) s.
Proof using Type.
  intros Hr. runs_steps. destruct (running_ (worker s)) eqn:Hrun; cbn [negb].
  2: { eexists _, _. split; [done|]. split; [by left|done]. }
  destruct Hr as [|Hu]; [congruence|]. unfold createSession. apply runs_bind.
  unfold BackendPool.acquire. runs_steps. rewrite BackendPool.select_none by exact Hu.
  apply runs_ret. unfold BackendPool.destroy. cbn [negb BackendPool.valid BackendPool.backend_].
  apply runs_bind, runs_modify, runs_bind. eexists _, _. split; [done|].
  apply runs_bind, runs_ret, runs_ret. by split; [right|].
Qed.

Lemma drain_refused local s :
  refusing s →
  runs (drain local) (λ _ s', log s' = (EvClose <$> reverse (fd <$> local)) ++ log s) s.
Proof using Type.
  revert s. induction local as [|client local IH]; intros s Hr; cbn [drain]; [by apply runs_ret|].
  apply runs_assoc, runs_bind. eapply runs_mono; [by apply refuses_one|].
  cbn beta. intros [] s1 [Hr1 Hl1]. eapply runs_mono; [by apply IH|].
  cbn beta. intros [] s2 ->. rewrite Hl1, fmap_cons, reverse_cons, fmap_app, <- app_assoc. done.
Qed.

(** C15: a client can be closed twice.  When the write to the eventfd fails
    for another reason than a full counter, [enqueue] reports failure with the
    client left at the end of the queue, and the accept loop closes its
    descriptor; the queue still holds it, so that the worker closes the same
    descriptor number again when it gets to the client, whatever else is in
    the queue: shown for a worker that is stopped first, and for one that
    finds no healthy backend. *)
Theorem failed_wake_closes_twice listenFd clientFd a e s :
  let w := worker s in
  let wakeFd := get (wakeFd_ w) in
  let addr := Net.peerAddress a in
  let accepted := EvAccept listenFd (Ret (clientFd, a)) :: log s in
  let configured := EvSetsockopt clientFd IPPROTO_TCP TCP_NODELAY (Ret tt) :: accepted in
  k_accept (log s) listenFd = Ret (clientFd, a) →
  k_setsockopt accepted clientFd IPPROTO_TCP TCP_NODELAY = Ret tt →
  k_wake_write configured wakeFd = Fail e → e ≠ EAGAIN →
  running_ w = true → 0 <= Config.backlog (config_ w) <= 65535 →
  Z.of_nat (length (queue_ w)) < Config.backlog (config_ w) * 4 →
  let s0 := mkWenv w (heap s) (Metrics.onAccepted (metrics s)) (pool s) configured in
  let again := EvClose <$> reverse (fd <$> queue_ w ++ [mkClient clientFd addr]) in
  ∃ s1, (enqueue clientFd addr s0).1 = Val false ∧
    Acceptor.accept_turn enqueue listenFd s = (Val true, s1) ∧
    queue_ (worker s1) = queue_ w ++ [mkClient clientFd addr] ∧
    log s1 = EvClose clientFd :: EvWakeWrite wakeFd (Fail e) :: configured ∧
    (∃ s2, (stop ;; drainQueue) s1 = (Val tt, s2) ∧
       log s2 = again ++ EvWakeWrite wakeFd (k_wake_write (log s1) wakeFd) :: log s1 ∧
       ¬ closes_ok (log s2)) ∧
    (BackendPool.hasHealthyBackend (pool s) = false →
     ∃ s2, drainQueue s1 = (Val tt, s2) ∧ log s2 = again ++ log s1 ∧ ¬ closes_ok (log s2)).
Proof using Type.
  intros w wakeFd addr accepted configured Hacc Hopt Hwr He Hrun Hb Hroom s0 again.
  assert (enqueue clientFd addr s0 = (Val false,
    mkWenv (set_queue (queue_ w ++ [mkClient clientFd addr]) w) (heap s)
      (Metrics.onAccepted (metrics s)) (pool s) (EvWakeWrite wakeFd (Fail e) :: configured))) as Hq.
  { rewrite enqueue_room by done. cbn. fold wakeFd. rewrite Hwr.
    by destruct (Z.eqb_spec e EAGAIN). }
  set (s1 := mkWenv (set_queue (queue_ w ++ [mkClient clientFd addr]) w) (heap s)
    (Metrics.onRejected (Metrics.onAccepted (metrics s))) (pool s)
    (EvClose clientFd :: EvWakeWrite wakeFd (Fail e) :: configured)).
  assert (∀ m, Net.setTcpNoDelay clientFd (mkWenv w (heap s) m (pool s) accepted) =
    (Val tt, mkWenv w (heap s) m (pool s) configured)) as Hset.
  { intros m. unfold Net.setTcpNoDelay, sys_setsockopt, syscall, mbind, ST_bind. cbn.
    by rewrite Hopt. }
  exists s1. split; [by rewrite Hq|]. split.
  { unfold Acceptor.accept_turn, sys_accept, syscall, mbind, ST_bind. cbn [view env_log].
    rewrite Hacc. unfold try_catch. cbn -[Net.setTcpNoDelay]. fold w accepted.
    rewrite Hset. cbn. fold s0 addr. by rewrite Hq. }
  split; [done|]. split; [done|].
  assert (∀ tr, clientFd ∉ open_fds tr → ¬ closes_ok (again ++ tr)) as Htwice.
  { intros tr Hfd. subst again. rewrite fmap_app, reverse_app. cbn. intros [Hin _].
    by apply (closed_stays clientFd (reverse (fd <$> queue_ w)) tr Hfd). }
  assert (clientFd ∉ open_fds (log s1)) as Hclosed
    by (cbn; intros [_ Hn]%elem_of_difference; by apply Hn, elem_of_singleton).
  split.
  - set (s2 := mkWenv (set_running false (worker s1)) (heap s1) (metrics s1) (pool s1)
      (EvWakeWrite wakeFd (k_wake_write (log s1) wakeFd) :: log s1)).
    assert (stop s1 = (Val tt, s2)) as Hstop.
    { unfold stop, on_worker, gets, modify, mbind, ST_bind. cbn. by rewrite Hrun. }
    destruct (drain_refused (queue_ w ++ [mkClient clientFd addr])
      (mkWenv (set_queue [] (worker s2)) (heap s2) (metrics s2) (pool s2) (log s2)))
      as ([] & s3 & Hd & Hl); [by left|].
    exists s3. split; [|split; [exact Hl|rewrite Hl; by apply Htwice]].
    unfold mbind, ST_bind. rewrite Hstop. exact Hd.
  - intros Hu.
    destruct (drain_refused (queue_ w ++ [mkClient clientFd addr])
      (mkWenv (set_queue [] (worker s1)) (heap s1) (metrics s1) (pool s1) (log s1)))
      as ([] & s3 & Hd & Hl); [by right|].
    exists s3. split; [exact Hd|]. split; [exact Hl|]. rewrite Hl. by apply Htwice.
Qed.

(** C16: a failing [epoll_wait] strands clients.  The thread then ends with
    everything closed, but the worker still counts as running: clients handed
    to it later are accepted into the queue, which nobody drains. *)
Theorem epoll_failure_strands_clients wakes W n fuel listenFd requests e s
    `{!WakeLaws K wakes} :
  bounded W → inv W [] n s → (∀ tr k, k_epoll_wait tr k = Fail e) → e ≠ EINTR →
  running_ (worker s) = true → 1 <= Config.backlog (config W) <= 65535 →
  ∃ s', run fuel listenFd ([] :: requests) s = (Val requests, s') ∧ vacant s' ∧
    running_ (worker s') = true ∧
    ∀ clientFd addr, ∃ s'', enqueue clientFd addr s' = (Val true, s'') ∧
      queue_ (worker s'') = [mkClient clientFd addr].
Proof using KL.
  intros HW Hinv Hep He Hrun Hb. set (s1 := upd (EvNow (k_now (log s)) :: log s) s).
  set (s2 := upd (EvEpollWait (Config.maxEvents (config_ (worker s))) (Fail e) :: log s1) s1).
  assert (inv W [] n s2) as H2.
  { eapply inv_calm; [exact Hinv|]. apply asked_calm. by repeat split. }
  destruct (shut_down_spec W HW n s2 H2) as ([] & s3 & Hsd & H3 & Hv & Hr3).
  exists s3. split; [|split; [done|split; [rewrite Hr3; exact Hrun|]]].
  - unfold run, run_loop, wait_and_serve, gets, mbind, ST_bind. cbn. rewrite Hrun. cbn.
    rewrite Hep. cbn.
    destruct (Z.eqb_spec e EINTR) as [|_]; [done|]. cbn -[shut_down]. by replace (shut_down _) with (Val tt, s3).
  - intros clientFd addr. destruct Hv as (_ & Hq & _). rewrite enqueue_room.
    + rewrite Hq. destruct (k_wake_write _ _) as [|x] eqn:Hr; [by eexists|].
      apply wake_write_full in Hr as ->. by eexists.
    + rewrite Hr3. exact Hrun.
    + rewrite (inv_config _ _ _ _ H3). lia.
    + rewrite (inv_config _ _ _ _ H3), Hq. cbn. lia.
Qed.
End claims.

(** ** A worker at work *)

(** One client comes; the first [epoll_wait] reports the eventfd; the clock
    advances by ten seconds a call; the upstream connects stay in progress. *)
Definition busy_accept (tr : trace) : sysret sockaddr :=
  if existsb (λ e, match e with EvAccept _ _ => true | _ => false end) tr then Fail EAGAIN
  else Ret (mkSockaddr AF_INET 0x9210 [x0a; x00; x00; x01]).

Definition busy_wait (tr : trace) : sysret (list (Z * Z)) :=
  if existsb (λ e, match e with EvEpollWait _ _ => true | _ => false end) tr then Ret []
  else Ret [(4, EPOLLIN)].

Definition busy : script :=
  mkScript (λ tr, 10 ^ 10 * Z.of_nat (length tr)) (sc_recv quiet) (sc_send quiet)
    (sc_so_error quiet) (sc_socket_errno quiet) (sc_connect quiet) (sc_epoll_ctl quiet)
    busy_wait (sc_wake_write quiet) (sc_poll quiet) (sc_addresses quiet) busy_accept.

#[local] Instance busy_few : FewInterrupts (scripted busy) 0.
Proof. by split. Qed.
#[local] Instance busy_wake : WakeLaws (scripted busy) 0.
Proof. by split. Qed.

(** The maps are visited in the order of their keys. *)
#[local] Instance in_order : MapOrder := {|
  visit _ m := (map_to_list m).*2;
  visit_all _ _ := reflexivity _
|}.

Definition small : Config.AppConfig :=
  Config.mkAppConfig "0.0.0.0" 8080 1 2 16 8 3000 60 0 1000 500 2 2 "info" [].

Definition busy_pool : BackendPool :=
  BackendPool.mkPool [Backend.sample "a" 1; Backend.sample "b" 2] 0.

Definition busy_world : surroundings :=
  {| config := small; epoll := 3; wake := 4; ready := true; rest := []; base := λ _, 0; gauge := 0 |}.

Lemma busy_bounded : bounded busy_world.
Proof. split; [|split]; [intros i|..]; cbn; lia. Qed.

Lemma busy_fuelled : fuelled 0 0 busy_world 9.
Proof. split; [unfold SessionEvents.fuel_for; cbn|]; lia. Qed.

Lemma busy_accounts : accounts (base busy_world) busy_pool.
Proof.
  split; [done|]. split; [done|]. split; [done|]. intros [|[|i]] b Hb; [..|done];
    injection Hb as <-; (split; [vm_compute; split; discriminate|done]).
Qed.

Definition built : trace :=
  [EvEpollCtl EPOLL_CTL_ADD 4 EPOLLIN (Ret tt); EvEventfd (Ret 4); EvEpollCreate (Ret 3)].

Lemma busy_built : construct (K := scripted busy) 0 small ([] : trace) =
  (Val (new_worker 0 small 3 4), built).
Proof. vm_compute. reflexivity. Qed.

Lemma worker_lifecycle_witness : ∃ s',
  (start (K := scripted busy) ;; left ← run (K := scripted busy) 9 7 [[Arrive]; []; [Stop]];
   for_each (serve_request (K := scripted busy) 7) (concat left) ;; join)
    (mkWenv (new_worker 0 small 3 4) ∅ Metrics.init busy_pool built) = (Val tt, s') ∧
  vacant s' ∧ open_fds (log s') = {[3; 4]} ∧ Metrics.accepted_ (metrics s') = 1.
Proof.
  destruct (worker_lifecycle (K := scripted busy) 0 0 busy_world 9 7 [[Arrive]; []; [Stop]] 0
    Metrics.init busy_pool [] (new_worker 0 small 3 4) built)
    as (s' & Hr & _ & Hh & Hs & Hf & _ & _ & _ & [(_ & Ho & _) _ _] & _).
  - exact busy_bounded.
  - exact busy_fuelled.
  - reflexivity.
  - exact estate_nil.
  - exact busy_accounts.
  - reflexivity.
  - exact busy_built.
  - reflexivity.
  - reflexivity.
  - reflexivity.
  - reflexivity.
  - repeat constructor.
  - assert (queue_ (worker s') = []) as Hq by (vm_compute in Hr; injection Hr as <-; reflexivity).
    exists s'. split; [exact Hr|]. split; [by split_and!|]. split.
    + unfold queue_claims in Ho. rewrite Hq in Ho. rewrite Ho. set_solver.
    + vm_compute in Hr. injection Hr as <-. reflexivity.
Defined.

(** The same worker with the client in its queue, with the client's session
    made, and later, the clock having been read again. *)
Definition busy_started : env :=
  mkWenv (set_thread true (set_running true (new_worker 0 small 3 4))) ∅ Metrics.init
    busy_pool built.
Definition busy_queued : env :=
  (Acceptor.accept_turn (K := scripted busy) (enqueue (K := scripted busy)) 7 busy_started).2.
Definition busy_served : env :=
  (for_each (handle_one (K := scripted busy) 9) [(4, EPOLLIN)] busy_queued).2.
Definition busy_later : env := (sys_now (K := scripted busy) busy_served).2.

Lemma busy_started_inv n : 1 + Z.of_nat n <= 2 ^ 53 → inv busy_world [] n busy_started.
Proof.
  intros Hn. apply (inv_new busy_world 0 true n);
    [exact busy_bounded|done|exact busy_accounts|done|].
  pose proof (construct_owns (K := scripted busy) 0 small [] []) as Hc.
  rewrite busy_built in Hc. destruct Hc as (e & k & Hw & _ & _ & Hl).
  - exact estate_nil.
  - injection Hw as <- <-. exact Hl.
Qed.

Lemma busy_queued_inv : inv busy_world [] 1 busy_queued.
Proof.
  destruct (accept_spec (K := scripted busy) 0 busy_world 1 7 busy_started)
    as (b & s' & Hs & Hinv & _); [by apply busy_started_inv|].
  unfold busy_queued. by rewrite Hs.
Qed.

Lemma busy_served_inv : inv busy_world [] 1 busy_served.
Proof.
  destruct (batch_spec (K := scripted busy) 0 0 busy_world busy_bounded [] 1 9 [(4, EPOLLIN)]
    busy_queued busy_queued_inv busy_fuelled) as ([] & s' & Hs & Hinv & _).
  unfold busy_served. by rewrite Hs.
Qed.

Lemma busy_later_inv : inv busy_world [] 1 busy_later.
Proof.
  destruct (sys_now_timed (K := scripted busy) busy_world busy_served)
    as (t & s' & Hs & (Hc & _) & _).
  unfold busy_later. rewrite Hs. eapply inv_calm; [exact busy_served_inv|exact Hc].
Qed.

Lemma deferred_destruction_witness : ∃ s',
  for_each (handle_one (K := scripted busy) 9)
    [(6, EPOLLERR); (5, EPOLLIN); (5, EPOLLIN); (77, EPOLLIN)] busy_served = (Val tt, s') ∧
  sessions_ (worker busy_served) ⊆ sessions_ (worker s') ∧
  map_Forall (λ _ c, ProxySession.closing c = true) (heap s').
Proof.
  destruct (deferred_destruction (K := scripted busy) 0 0 busy_world 1 9
    [(6, EPOLLERR); (5, EPOLLIN); (5, EPOLLIN); (77, EPOLLIN)] busy_served
    busy_bounded busy_fuelled busy_served_inv) as (s' & Hs & _ & _ & Hsub & _).
  exists s'. split; [exact Hs|]. split; [exact Hsub|].
  vm_compute in Hs. injection Hs as <-. apply map_Forall_to_list. repeat constructor.
Defined.

Lemma turn_reaps_witness : ∃ last s',
  turn (K := scripted busy) 9 [(6, EPOLLERR)] 0 busy_served = (Val last, s') ∧
  base.size (heap busy_served) = 1%nat ∧ heap s' = ∅ ∧ open_fds (log s') = {[3; 4]}.
Proof.
  destruct (turn_reaps (K := scripted busy) 0 0 busy_world 1 9 [(6, EPOLLERR)] 0 busy_served
    busy_bounded busy_fuelled busy_served_inv) as (s1 & now & s' & _ & _ & Ht & _ & _ & _).
  assert (s' = (turn (K := scripted busy) 9 [(6, EPOLLERR)] 0 busy_served).2) as Hs'
    by (rewrite Ht; reflexivity).
  eexists _, s'. split; [exact Ht|]. split; [vm_compute; reflexivity|].
  split; rewrite Hs'; vm_compute; reflexivity.
Defined.

(** The same traffic while the clock stands still. *)
Definition patient : script :=
  mkScript (λ _, 0) (sc_recv busy) (sc_send busy) (sc_so_error busy) (sc_socket_errno busy)
    (sc_connect busy) (sc_epoll_ctl busy) busy_wait (sc_wake_write busy) (sc_poll busy)
    (sc_addresses busy) busy_accept.

#[local] Instance patient_few : FewInterrupts (scripted patient) 0.
Proof. by split. Qed.
#[local] Instance patient_wake : WakeLaws (scripted patient) 0.
Proof. by split. Qed.

Definition patient_awake : env := (sys_now (K := scripted patient) busy_started).2.
Definition patient_asked : env :=
  (for_each (serve_request (K := scripted patient) 7) [Arrive] patient_awake).2.
Definition patient_head : env := (wait_and_serve (K := scripted patient) 9 0 patient_asked).2.

Lemma patient_at_head : at_head (K := scripted patient) 9 7 busy_started [[Arrive]] 0 patient_head.
Proof.
  apply (head_next (K := scripted patient) 9 7 busy_started [] 0 patient_awake [Arrive] patient_asked).
  - constructor. vm_compute. reflexivity.
  - vm_compute. reflexivity.
  - vm_compute. reflexivity.
  - vm_compute. reflexivity.
Qed.

Lemma sessions_stay_polled_witness : ∃ c,
  heap patient_head !! 0%nat = Some c ∧ ProxySession.upstreamConnecting_ c = true ∧
  polled 5 (log patient_head) = Some (Z.lor EPOLLRDHUP EPOLLIN) ∧
  polled 6 (log patient_head) = Some (Z.lor EPOLLRDHUP EPOLLOUT).
Proof.
  destruct (sessions_stay_polled (K := scripted patient) 0 0 busy_world 9 7 [[Arrive]] 0 0
    busy_started patient_head) as (_ & _ & H).
  - exact busy_bounded.
  - exact busy_fuelled.
  - apply busy_started_inv. discriminate.
  - reflexivity.
  - exact patient_at_head.
  - destruct (H 1 0%nat) as (c & Hc & _ & Hp & _); [vm_compute; reflexivity|].
    exists c. split; [exact Hc|]. vm_compute in Hc. injection Hc as <-. split; [reflexivity|].
    split; [exact (Hp ProxySession.Client)|exact (Hp ProxySession.Upstream)].
Defined.

(** A client that says two bytes to a backend that accepts at once. *)
Definition talk_wait (tr : trace) : sysret (list (Z * Z)) :=
  match length (List.filter (λ e, match e with EvEpollWait _ _ => true | _ => false end) tr) with
  | O => Ret [(4, EPOLLIN)]
  | 1%nat => Ret [(5, EPOLLIN)]
  | _ => Ret [(6, EPOLLOUT)]
  end.

Definition talk_recv (tr : trace) (fd : Z) : sysret (list byte) :=
  if existsb (λ e, match e with EvRecv _ _ _ => true | _ => false end) tr then Fail EAGAIN
  else Ret [x68; x69].

Definition talk : script :=
  mkScript (λ _, 0) talk_recv (λ _ _, Ret 1) (sc_so_error busy) (sc_socket_errno busy)
    (λ _, Ret tt) (sc_epoll_ctl busy) talk_wait (sc_wake_write busy) (sc_poll busy)
    (sc_addresses busy) busy_accept.

#[local] Instance talk_few : FewInterrupts (scripted talk) 0.
Proof.
  split; [|done|done]. intros tr fd len _. cbn. unfold talk_recv. by destruct (existsb _ tr).
Qed.
#[local] Instance talk_wake : WakeLaws (scripted talk) 0.
Proof. by split. Qed.

Definition talk_turn (rs : list request) (s : env) : env :=
  (wait_and_serve (K := scripted talk) 9 0
    (for_each (serve_request (K := scripted talk) 7) rs s).2).2.
Definition talk_awake : env := (sys_now (K := scripted talk) busy_started).2.
Definition talk_begun : env := talk_turn [Arrive] talk_awake.
Definition talk_heard : env := talk_turn [] talk_begun.

Lemma talk_at_head : at_head (K := scripted talk) 9 7 busy_started [[Arrive]; []] 0 talk_heard.
Proof.
  apply (head_next (K := scripted talk) 9 7 busy_started [[Arrive]] 0 talk_begun [] talk_begun).
  - apply (head_next (K := scripted talk) 9 7 busy_started [] 0 talk_awake [Arrive]
      (for_each (serve_request (K := scripted talk) 7) [Arrive] talk_awake).2).
    + constructor. vm_compute. reflexivity.
    + vm_compute. reflexivity.
    + vm_compute. reflexivity.
    + vm_compute. reflexivity.
  - vm_compute. reflexivity.
  - reflexivity.
  - vm_compute. reflexivity.
Qed.

Definition talk_session : ProxySession := default (ProxySession.initial 0 0 0 false
  (BackendPool.mkLease None) 0 "" 0) (heap talk_heard !! 0%nat).

Lemma received_is_delivered_witness : ∃ next s',
  wait_and_serve (K := scripted talk) 9 0 talk_heard = (Val (Some next), s') ∧
  got 5 (log talk_heard) = [x68; x69] ∧ sent 6 (log talk_heard) = [] ∧
  polled 6 (log talk_heard) = Some (Z.lor EPOLLRDHUP (Z.lor EPOLLIN EPOLLOUT)) ∧
  base.size (heap s') = 1%nat ∧ sent 6 (log s') = [x68; x69].
Proof.
  destruct (received_is_delivered (K := scripted talk) 0 0 busy_world 9 7 [[Arrive]; []] 0 0
    busy_started talk_heard [] talk_heard 0%nat talk_session ProxySession.Client) as [Hp Hd].
  - exact busy_bounded.
  - exact busy_fuelled.
  - apply busy_started_inv. discriminate.
  - reflexivity.
  - exact talk_at_head.
  - reflexivity.
  - vm_compute. reflexivity.
  - vm_compute. reflexivity.
  - intros tr data Hne. cbn. destruct data; [done|]. cbn. lia.
  - destruct (Hd [(6, EPOLLOUT)] EPOLLOUT) as (next & s' & Hs & _ & Hs').
    + vm_compute. reflexivity.
    + vm_compute. left.
    + reflexivity.
    + pose proof (f_equal snd Hs) as E. unfold snd at 2 in E.
      exists next, s'. split; [exact Hs|].
      split; [vm_compute; reflexivity|]. split; [vm_compute; reflexivity|].
      split; [vm_compute; reflexivity|].
      split; rewrite <- E; vm_compute; reflexivity.
Defined.

Definition newcomer : AcceptedClient := mkClient 5 "10.0.0.1:4242".

(** [busy_started] after it took the client off its queue. *)
Definition busy_taken : env :=
  mkWenv (set_queue [] (worker busy_queued)) (heap busy_queued) (metrics busy_queued)
    (pool busy_queued) (log busy_queued).

Lemma busy_taken_inv : inv (keep [Unused 5] busy_world) [] 1 busy_taken.
Proof.
  pose proof busy_queued_inv as H. destruct H. split; try assumption.
  - destruct inv_linked0 as [Hs Hf Hl Hn]. split; [exact Hs|exact Hf|exact Hl|exact Hn].
  - destruct inv_numbered0 as [Hi Hh _]. split; [exact Hi|exact Hh|]. vm_compute. discriminate.
  - constructor.
  - eapply estate_proper; [|reflexivity|exact inv_estate0]. vm_compute. solve_Permutation.
Qed.

Lemma createSession_outcome_witness : ∃ s',
  createSession (K := scripted busy) newcomer busy_taken = (Val tt, s') ∧
  ∃ p, fdToSession_ (worker s') !! 5 = Some p ∧ sessions_ (worker s') !! 1 = Some p.
Proof.
  destruct (createSession_outcome (K := scripted busy) busy_world 0 newcomer busy_taken)
    as (s' & Hc & _ & Ho); [exact busy_bounded|discriminate|exact busy_taken_inv|].
  exists s'. split; [exact Hc|]. destruct Ho as [[(Hh & _) _]|[_ Hp]]; [|exact Hp].
  vm_compute in Hc. injection Hc as <-. vm_compute in Hh. discriminate.
Defined.

Lemma sweep_enforces_timeouts_witness : ∃ s',
  sweepIdleSessions (K := scripted busy) busy_later = (Val tt, s') ∧
  base.size (heap busy_later) = 1%nat ∧ heap s' !! 0%nat = None.
Proof.
  destruct (sweep_enforces_timeouts (K := scripted busy) busy_world 1 busy_later
    (k_now (Kernel := scripted busy) (log busy_served)) busy_bounded busy_later_inv)
    as (s' & Hs & _ & t1 & _ & _ & Ho).
  - unfold busy_later, sys_now, syscall. cbn [snd log upd view env_log]. apply list_elem_of_here.
  - exists s'. split; [exact Hs|]. split; [vm_compute; reflexivity|].
    destruct (heap busy_later !! 0%nat) as [c|] eqn:Hc; [|vm_compute in Hc; discriminate].
    apply (Ho _ _ Hc). vm_compute in Hc. injection Hc as <-. vm_compute. reflexivity.
Defined.

Lemma enqueue_bounded_witness :
  let s1 := (enqueue (K := scripted busy) 5 "a" busy_started).2 in
  Z.of_nat (length (queue_ (worker s1))) <= 8 ∧ queue_ (worker s1) = [mkClient 5 "a"].
Proof.
  destruct (enqueue_bounded (K := scripted busy) 5 "a" busy_started) as (_ & H1 & H2).
  - vm_compute. split; discriminate.
  - split; [apply H2; discriminate|]. apply H1; reflexivity.
Defined.

(** The eventfd of this kernel cannot be written. *)
Definition deaf : script :=
  mkScript (sc_now busy) (sc_recv busy) (sc_send busy) (sc_so_error busy) (sc_socket_errno busy)
    (sc_connect busy) (sc_epoll_ctl busy) (λ _, Fail ECONNRESET) (λ _, Fail EINTR)
    (sc_poll busy) (sc_addresses busy) (sc_accept busy).

(** Another client was waiting. *)
Definition busy_waiting : env :=
  (enqueue (K := scripted busy) 11 "waiting" busy_started).2.

Lemma failed_wake_closes_twice_witness : ∃ s1 s2 before,
  Acceptor.accept_turn (K := scripted deaf) (enqueue (K := scripted deaf)) 7 busy_waiting = (Val true, s1) ∧
  (fd <$> queue_ (worker s1)) = [11; 5] ∧
  (stop (K := scripted deaf) ;; drainQueue (K := scripted deaf)) s1 = (Val tt, s2) ∧
  log s2 = [EvClose 5; EvClose 11; EvWakeWrite 4 (Fail EINTR); EvClose 5] ++ before ∧
  ¬ closes_ok (log s2).
Proof.
  destruct (failed_wake_closes_twice (K := scripted deaf) 7 5
    (mkSockaddr AF_INET 0x9210 [x0a; x00; x00; x01]) EINTR busy_waiting)
    as (s1 & _ & Ha & Hq & Hl & (s2 & Hd & Hl2 & Hn) & _).
  - reflexivity.
  - reflexivity.
  - reflexivity.
  - discriminate.
  - reflexivity.
  - vm_compute. split; discriminate.
  - vm_compute. reflexivity.
  - rewrite Hl in Hl2. exists s1, s2. eexists. split; [exact Ha|]. split; [by rewrite Hq|].
    split; [exact Hd|]. split; [exact Hl2|exact Hn].
Defined.

(** The epoll instance of this kernel has been closed by somebody else. *)
Definition broken : script :=
  mkScript (sc_now busy) (sc_recv busy) (sc_send busy) (sc_so_error busy) (sc_socket_errno busy)
    (sc_connect busy) (sc_epoll_ctl busy) (λ _, Fail ECONNRESET) (sc_wake_write busy)
    (sc_poll busy) (sc_addresses busy) (sc_accept busy).

#[local] Instance broken_wake : WakeLaws (scripted broken) 0.
Proof. by split. Qed.

Lemma epoll_failure_strands_clients_witness : ∃ s',
  run (K := scripted broken) 9 7 [[]; [Stop]] busy_started = (Val [[Stop]], s') ∧
  running_ (worker s') = true ∧
  queue_ (worker (enqueue (K := scripted broken) 5 "a" s').2) = [mkClient 5 "a"].
Proof.
  destruct (epoll_failure_strands_clients (K := scripted broken) 0 busy_world 0 9 7 [[Stop]]
    ECONNRESET busy_started) as (s' & Hr & _ & Hrun & Hq).
  - exact busy_bounded.
  - apply busy_started_inv. discriminate.
  - reflexivity.
  - discriminate.
  - reflexivity.
  - split; discriminate.
  - exists s'. split; [exact Hr|]. split; [exact Hrun|].
    destruct (Hq 5 "a") as (s'' & He & Hl). rewrite He. exact Hl.
Defined.

End WorkerClaims.
