(* ===== verification/Main.v ===== *)
(** * The process ([src/main.cpp])

    The main thread: options, start-up, the accept loop, the ordered
    shutdown, and the destructors that run when the [try] block is left.  The
    other threads (one per worker, the health checker, the statistics) run
    whenever the main thread makes a blocking call: [schedule] says which of
    them then take how many steps, and when a signal arrives.  A step of a
    worker is one [epoll_wait] with its turn of the loop, a step of the
    checker one round of probes, a step of the statistics one nap. *)

From S2P Require Import Prelude Text Posix UniqueFd Metrics Logger Config Net Backend BackendPool HealthChecker ProxySession Acceptor Worker.
Local Open Scope Z_scope.

Module Main.
Import UniqueFd (UniqueFd, mkUniqueFd, get).
Import BackendPool (BackendPool, mkPool, backends_).
Import ProxySession (ProxySession).
Import HealthChecker (HealthChecker).
Import Worker (Worker, MapOrder, position, Starting, Ended, mkWenv, activeSessions_).

(** ** Options *)

Record Options := mkOptions {
  configPath : string;
  checkOnly : bool;
  showVersion : bool
}.

Definition default_options : Options := mkOptions "config/fluxgate.conf" false false.

(** [printUsage] and [std::exit(0)] end the process inside [parseOptions]. *)
Inductive parsed := Run (options : Options) | Help.

Fixpoint parse_from (args : list string) (options : Options) : outcome parsed :=
  match args with
  | [] => Val (Run options)
  | argument :: rest =>
      match String.eqb argument "-c" || String.eqb argument "--config", rest with
      | true, path :: rest' =>
          parse_from rest' (mkOptions path (checkOnly options) (showVersion options))
      | _, _ =>
          if String.eqb argument "--check" then
            parse_from rest (mkOptions (configPath options) true (showVersion options))
          else if String.eqb argument "--version" || String.eqb argument "-v" then
            parse_from rest (mkOptions (configPath options) (checkOnly options) true)
          else if String.eqb argument "--help" || String.eqb argument "-h" then Val Help
          else Exn ("unknown argument: " +:+ argument)
      end
  end.

(** [args] is [argv] without the program's name. *)
Definition parseOptions (args : list string) : outcome parsed :=
  parse_from args default_options.

Definition usage (program : string) : string :=
  "Usage: " +:+ program +:+ " [-c config] [--check] [--version]".

(** ** The choice of a worker *)

(** One turn of the loop of [selectWorker]; [actives] is what
    [activeSessions()] returns for each worker. *)
Definition consider (actives : list Z) (cursor : Z) (best : Z * Z) (i : Z) : Z * Z :=
  let index := u64 (cursor + i) mod Z.of_nat (length actives) in
  let active := nth (Z.to_nat index) actives 0 in
  if active <? best.2 then (index, active) else best.

Definition selectWorker (actives : list Z) (cursor : Z) : nat :=
  let n := Z.of_nat (length actives) in
  let selected := cursor mod n in
  let minimum := nth (Z.to_nat selected) actives 0 in
  Z.to_nat (foldl (consider actives cursor) (selected, minimum) (seqZ 1 (n - 1))).1.

(** ** The state of the process *)

(** A worker with its thread and the sessions of its heap; where there is no
    thread, [at_] is [Ended]. *)
Record thread := mkThread {
  worker : Worker;
  heap : gmap nat ProxySession;
  at_ : position
}.

(** Where the checking thread is in [HealthChecker::run]. *)
Inductive checking := AtStart | AtTest | InWait | Done.

(** The statistics thread: naps since the last report, and whether it is
    gone. *)
Record stats := mkStats {
  interval : Z;             (* [config.statsIntervalSeconds] *)
  elapsed : Z;
  gone : bool
}.

(** What the other threads do: a step of worker [j], of the checker, of the
    statistics; [Signal] is SIGINT or SIGTERM. *)
Inductive tick := Serve (j : nat) | Check | Nap | Signal.

(** What only [main.cpp] itself knows.  [statsThread] is [None] when the
    object is not joinable. *)
Record locals := mkLocals {
  stopRequested : bool;
  listenFd : UniqueFd;
  checkerAt : checking;
  statsRunning : bool;
  statsThread : option stats;
  dispatchCursor : Z;
  logger : Logger.Logger;
  console : list string;            (* lines written, newest first *)
  schedule : list (list tick)
}.

Record env := mkEnv {
  mine : locals;
  threads : list thread;
  checker : HealthChecker;
  metrics : Metrics.Metrics;
  pool : BackendPool;
  log : trace
}.

#[export] Instance env_log : Lens env trace := {|
  view := log; upd t s := mkEnv (mine s) (threads s) (checker s) (metrics s) (pool s) t
|}.
#[export] Instance env_log_laws : LensLaws env trace.
Proof. split; [done|by intros []|done]. Qed.
#[export] Instance env_metrics : Lens env Metrics.Metrics := {|
  view := metrics; upd m s := mkEnv (mine s) (threads s) (checker s) m (pool s) (log s)
|}.
#[export] Instance env_metrics_laws : LensLaws env Metrics.Metrics.
Proof. split; [done|by intros []|done]. Qed.

Definition set_stopRequested v l := mkLocals v (listenFd l) (checkerAt l) (statsRunning l)
  (statsThread l) (dispatchCursor l) (logger l) (console l) (schedule l).
Definition set_listenFd v l := mkLocals (stopRequested l) v (checkerAt l) (statsRunning l)
  (statsThread l) (dispatchCursor l) (logger l) (console l) (schedule l).
Definition set_checkerAt v l := mkLocals (stopRequested l) (listenFd l) v (statsRunning l)
  (statsThread l) (dispatchCursor l) (logger l) (console l) (schedule l).
Definition set_statsRunning v l := mkLocals (stopRequested l) (listenFd l) (checkerAt l) v
  (statsThread l) (dispatchCursor l) (logger l) (console l) (schedule l).
Definition set_statsThread v l := mkLocals (stopRequested l) (listenFd l) (checkerAt l)
  (statsRunning l) v (dispatchCursor l) (logger l) (console l) (schedule l).
Definition set_dispatchCursor v l := mkLocals (stopRequested l) (listenFd l) (checkerAt l)
  (statsRunning l) (statsThread l) v (logger l) (console l) (schedule l).
Definition set_logger v l := mkLocals (stopRequested l) (listenFd l) (checkerAt l)
  (statsRunning l) (statsThread l) (dispatchCursor l) v (console l) (schedule l).
Definition set_console v l := mkLocals (stopRequested l) (listenFd l) (checkerAt l)
  (statsRunning l) (statsThread l) (dispatchCursor l) (logger l) v (schedule l).
Definition set_schedule v l := mkLocals (stopRequested l) (listenFd l) (checkerAt l)
  (statsRunning l) (statsThread l) (dispatchCursor l) (logger l) (console l) v.

Definition on_mine (f : locals → locals) : ST env unit :=
  modify (λ s, mkEnv (f (mine s)) (threads s) (checker s) (metrics s) (pool s) (log s)).
Definition on_threads (f : list thread → list thread) : ST env unit :=
  modify (λ s, mkEnv (mine s) (f (threads s)) (checker s) (metrics s) (pool s) (log s)).
Definition set_checker (c : HealthChecker) : ST env unit :=
  modify (λ s, mkEnv (mine s) (threads s) c (metrics s) (pool s) (log s)).
Definition set_pool (p : BackendPool) : ST env unit :=
  modify (λ s, mkEnv (mine s) (threads s) (checker s) (metrics s) p (log s)).

(** Code of worker [j], of the health checker. *)
Definition on_thread {A} (j : nat) (m : ST Worker.env A) : ST env A := λ s,
  match threads s !! j with
  | Some t =>
      let '(o, e) := m (mkWenv (worker t) (heap t) (metrics s) (pool s) (log s)) in
      (o, mkEnv (mine s)
            (<[j := mkThread (Worker.worker e) (Worker.heap e) (at_ t)]> (threads s))
            (checker s) (Worker.metrics e) (Worker.pool e) (Worker.log e))
  | None => (Exn "no such worker", s)
  end.

Definition on_checker {A} (m : ST HealthChecker.env A) : ST env A := λ s,
  let '(o, e) := m (HealthChecker.mkEnv (checker s) (pool s) (log s)) in
  (o, mkEnv (mine s) (threads s) (HealthChecker.checker e) (metrics s)
        (HealthChecker.pool_ e) (HealthChecker.log e)).

Definition print (line : string) : ST env unit :=
  on_mine (λ l, set_console (line :: console l) l).

Definition joinable (j : nat) (s : env) : bool :=
  match threads s !! j with Some t => Worker.thread_ (worker t) | None => false end.

(** How the process ends: [std::terminate] is an abnormal end. *)
Inductive status := Exit (code : Z) | Terminated.

Section process.
Context `{K : Kernel} {MO : MapOrder}.
(* [stamp]: what [strftime] makes of the wall clock; [source]: [__FILE__]. *)
Context (stamp : trace → string) (source : string).
(* [fuel] bounds the inner loops of the threads. *)
Context (fuel : nat).
(* What [sigaction] answers when a handler is installed for a signal. *)
Context (sigaction : Z → sysret unit).

Definition FG_LOG_INFO (line : Z) (message : string) : ST env unit :=
  s ← gets (λ s, s);
  on_mine (λ l, set_logger (Logger.log (stamp (log s)) Logger.Info source line message (logger l)) l).

(** ** The other threads *)

Definition serve_thread (j : nat) : ST env unit :=
  s ← gets (λ s, s);
  match threads s !! j with
  | Some t =>
      if Worker.thread_ (worker t) then
        p ← on_thread j (Worker.step fuel (at_ t));
        on_threads (alter (λ t, mkThread (worker t) (heap t) p) j)
      else mret tt
  | None => mret tt
  end.

(** [HealthChecker::run], from one look at [running_] to the next. *)
Definition check : ST env unit :=
  s ← gets (λ s, s);
  if HealthChecker.thread_ (checker s) then
    match checkerAt (mine s) with
    | AtStart => on_checker (HealthChecker.checkOnce fuel) ;; on_mine (set_checkerAt AtTest)
    | AtTest =>
        if HealthChecker.running_ (checker s) then
          on_checker HealthChecker.wait_for ;; on_mine (set_checkerAt InWait)
        else on_mine (set_checkerAt Done)
    | InWait =>
        if HealthChecker.running_ (checker s) then
          on_checker (HealthChecker.checkOnce fuel) ;; on_mine (set_checkerAt AtTest)
        else on_mine (set_checkerAt Done)
    | Done => mret tt
    end
  else mret tt.

(** The two lines of a report on node [b]. *)
Definition report_backend (b : Backend.Backend) : string :=
  "backend=" +:+ Backend.name b +:+ " healthy=" +:+ (if Backend.healthy b then "yes" else "no")
  +:+ " active=" +:+ to_string (Backend.activeConnections b)
  +:+ " total=" +:+ to_string (Backend.totalConnections_ b)
  +:+ " failed=" +:+ to_string (Backend.failedConnections_ b).

Definition report : ST env unit :=
  s ← gets (λ s, s);
  FG_LOG_INFO 145 ("metrics " +:+ Metrics.snapshot (metrics s)) ;;
  for_each (λ b, FG_LOG_INFO 148 (report_backend b)) (backends_ (pool s)).

(** One evaluation of the condition of the inner [for] of the lambda, with
    the nap or the report it leads to. *)
Definition nap : ST env unit :=
  s ← gets (λ s, s);
  match statsThread (mine s) with
  | Some st =>
      if gone st then mret tt
      else if negb (statsRunning (mine s)) then
        on_mine (set_statsThread (Some (mkStats (interval st) (elapsed st) true)))
      else if elapsed st <? interval st * 10 then
        on_mine (set_statsThread (Some (mkStats (interval st) (elapsed st + 1) false)))
      else
        report ;;
        on_mine (set_statsThread (Some (mkStats (interval st) 0 false)))
  | None => mret tt
  end.

Definition signalHandler : ST env unit := on_mine (set_stopRequested true).

Definition run_tick (t : tick) : ST env unit :=
  match t with
  | Serve j => serve_thread j
  | Check => check
  | Nap => nap
  | Signal => signalHandler
  end.

(** The main thread blocks: the others run. *)
Definition yield : ST env unit :=
  s ← gets (λ s, s);
  match schedule (mine s) with
  | [] => mret tt
  | ts :: rest => on_mine (set_schedule rest) ;; for_each run_tick ts
  end.

(** [thread_.join()] of worker [j]: the thread runs to its end. *)
Fixpoint await_worker (n j : nat) : ST env unit :=
  s ← gets (λ s, s);
  match at_ <$> threads s !! j with
  | Some Ended | None => mret tt
  | Some _ =>
      match n with
      | O => diverge
      | S n' => serve_thread j ;; await_worker n' j
      end
  end.

Definition join_worker (j : nat) : ST env unit :=
  yield ;;
  s ← gets (λ s, s);
  (if joinable j s then await_worker fuel j else mret tt) ;;
  on_thread j Worker.join.

Fixpoint await_checker (n : nat) : ST env unit :=
  s ← gets (λ s, s);
  match checkerAt (mine s) with
  | Done => mret tt
  | _ => match n with O => diverge | S n' => check ;; await_checker n' end
  end.

Definition join_checker : ST env unit :=
  yield ;;
  s ← gets (λ s, s);
  (if HealthChecker.thread_ (checker s) then await_checker fuel else mret tt) ;;
  on_checker HealthChecker.join.

Fixpoint await_stats (n : nat) : ST env unit :=
  s ← gets (λ s, s);
  match statsThread (mine s) with
  | Some st =>
      if gone st then mret tt
      else match n with O => diverge | S n' => nap ;; await_stats n' end
  | None => mret tt
  end.

Definition join_stats : ST env unit :=
  yield ;; await_stats fuel ;; on_mine (set_statsThread None).

(** ** Clients *)

Definition hand_over (clientFd : Z) (addr : string) : ST env bool :=
  s ← gets (λ s, s);
  let workerIndex := selectWorker ((λ t, activeSessions_ (worker t)) <$> threads s)
                       (dispatchCursor (mine s)) in
  on_mine (set_dispatchCursor (u64 (dispatchCursor (mine s) + 1))) ;;
  on_thread workerIndex (Worker.enqueue clientFd addr).

(** [for (;;) accept4(...)]; [n] bounds its turns. *)
Fixpoint accept_all (n : nat) : ST env unit :=
  match n with
  | O => diverge
  | S n' =>
      yield ;;
      s ← gets (λ s, s);
      more ← Acceptor.accept_turn hand_over (get (listenFd (mine s)));
      if more : bool then accept_all n' else mret tt
  end.

(** [while (stopRequested == 0)]; [n] bounds its turns. *)
Fixpoint main_loop (n : nat) : ST env unit :=
  s ← gets (λ s, s);
  if stopRequested (mine s) then mret tt
  else
    match n with
    | O => diverge
    | S n' =>
        yield ;;
        r ← sys_poll (get (listenFd (mine s))) POLLIN 500;
        match r with
        | Fail errno =>
            if errno =? EINTR then main_loop n'
            else throw ("poll failed: " +:+ k_strerror errno)
        | Ret (ready, revents) =>
            (if (ready =? 0) || negb (has revents POLLIN) then mret tt else accept_all fuel) ;;
            main_loop n'
        end
    end.

(** ** Start and stop *)

Definition start_worker (config : Config.AppConfig) (i : nat) : ST env unit :=
  w ← Worker.construct (Z.of_nat i) config;
  on_threads (λ ts, ts ++ [mkThread w ∅ Ended]) ;;
  on_thread i Worker.start ;;
  on_threads (alter (λ t, mkThread (worker t) (heap t) Starting) i) ;;
  yield.

Definition start_stats (config : Config.AppConfig) : ST env unit :=
  if 0 <? Config.statsIntervalSeconds config then
    std_thread ;;
    on_mine (set_statsThread (Some (mkStats (Config.statsIntervalSeconds config) 0 false)))
  else mret tt.

Definition shut_down : ST env unit :=
  FG_LOG_INFO 218 "shutdown requested" ;;
  on_checker HealthChecker.stop ;;
  n ← gets (λ s, length (threads s));
  for_each (λ j, on_thread j Worker.stop ;; yield) (seq 0 n) ;;
  join_checker ;;
  for_each join_worker (seq 0 n) ;;
  on_mine (set_statsRunning false) ;;
  s ← gets (λ s, s);
  (if statsThread (mine s) is Some _ then join_stats else mret tt) ;;
  s ← gets (λ s, s);
  FG_LOG_INFO 232 ("FluxGate stopped; final metrics " +:+ Metrics.snapshot (metrics s)).

Definition SIGINT : Z := 2.
Definition SIGTERM : Z := 15.

(** Ignoring SIGPIPE as well makes a [send] to a closed peer fail instead of
    ending the process. *)
Definition installSignals : ST env unit :=
  match sigaction SIGINT, sigaction SIGTERM with
  | Ret _, Ret _ => mret tt
  | _, _ => throw "sigaction failed"
  end.

(** From [parseLevel] to the pool of nodes. *)
Definition prepare (config : Config.AppConfig) : ST env unit :=
  match Logger.parseLevel (Config.logLevel config) with
  | NoFuel => diverge
  | Exn e => throw e
  | Val level =>
      on_mine (λ l, set_logger (Logger.setLevel level (logger l)) l) ;;
      backendPool ← BackendPool.construct (Config.backends config);
      set_pool backendPool
  end.

(** From the listening socket to the accept loop. *)
Definition start_up (config : Config.AppConfig) : ST env unit :=
  raw ← Net.createListenSocket (Config.listenHost config) (Config.listenPort config)
          (Config.backlog config);
  on_mine (set_listenFd (mkUniqueFd raw)) ;;
  set_checker (HealthChecker.construct (Config.healthCheckIntervalMs config)
    (Config.healthCheckTimeoutMs config) (Config.healthCheckFailureThreshold config)
    (Config.healthCheckSuccessThreshold config)) ;;
  for_each (start_worker config) (seq 0 (Z.to_nat (Config.workers config))) ;;
  on_checker HealthChecker.start ;;
  start_stats config ;;
  FG_LOG_INFO 158 ("FluxGate listening on " +:+ Config.listenHost config +:+ ":"
    +:+ to_string (Config.listenPort config) +:+ " with " +:+ to_string (Config.workers config)
    +:+ " worker(s) and " +:+ to_string (Z.of_nat (length (Config.backends config)))
    +:+ " backend(s)").

(** The [try] block; [files] is what [std::ifstream] finds. *)
Definition body (polls : nat) (program : string) (args : list string)
    (files : string → option string) : ST env Z :=
  match parseOptions args with
  | NoFuel => diverge
  | Exn e => throw e
  | Val Help => print (usage program) ;; mret 0
  | Val (Run options) =>
      if showVersion options then print "FluxGate 1.2.0" ;; mret 0
      else
        match Config.load (configPath options) (files (configPath options)) with
        | NoFuel => diverge
        | Exn e => throw e
        | Val config =>
            prepare config ;;
            if checkOnly options then
              s ← gets (λ s, s);
              print ("configuration is valid; resolved "
                +:+ to_string (Z.of_nat (length (backends_ (pool s)))) +:+ " backend(s)") ;;
              mret 0
            else
              installSignals ;;
              start_up config ;;
              main_loop polls ;;
              shut_down ;;
              mret 0
        end
  end.

(** [~Worker()] of the first worker left in the vector. *)
Definition destroy_worker : ST env unit :=
  on_thread 0 Worker.stop ;;
  join_worker 0 ;;
  on_thread 0 Worker.destroy_members ;;
  on_threads (delete 0%nat).

(** [~HealthChecker()]. *)
Definition destroy_checker : ST env unit :=
  on_checker HealthChecker.stop ;;
  join_checker.

(** The destructors of the locals, last declared first; [false] when that of
    a joinable [std::thread] ends the process instead. *)
Definition leave : ST env bool :=
  s ← gets (λ s, s);
  if statsThread (mine s) is Some _ then mret false
  else
    for_each (λ _, destroy_worker) (seq 0 (length (threads s))) ;;
    destroy_checker ;;
    UniqueFd.destroy (listenFd (mine s)) ;;
    on_mine (set_listenFd (mkUniqueFd (-1))) ;;
    mret true.

Definition main (polls : nat) (program : string) (args : list string)
    (files : string → option string) : ST env status :=
  result ← try_catch (code ← body polls program args files; mret (Val code)) (λ e, mret (Exn e));
  alive ← leave;
  if negb alive then mret Terminated
  else
    match result with
    | Val code => mret (Exit code)
    | Exn e => print ("fatal: " +:+ e) ;; mret (Exit 1)
    | NoFuel => diverge
    end.

End process.

(** Before [main]. *)
Definition boot (schedule : list (list tick)) : env :=
  mkEnv (mkLocals false (mkUniqueFd (-1)) AtStart true None 0 Logger.instance [] schedule)
    [] (HealthChecker.construct 0 0 0 0) Metrics.init (mkPool [] 0) [].

End Main.
