(* ===== verification/MainInvariant.v ===== *)
(** * The books of the process

    The invariant of the whole process between the steps of its threads: the
    books of every worker, with what all of them share counted once.  Seen
    from one worker the others are its surroundings, so that everything
    proved about a worker alone holds in the process. *)

From S2P Require Import Prelude Text Posix Streams ByteBuffer UniqueFd Metrics Logger Config Net Backend BackendPool HealthChecker ProxySession SessionSteps SessionStream SessionEstate SessionEvents Acceptor Traces Worker WorkerTrace WorkerInvariant WorkerSessions WorkerTurn WorkerRun Main.
Local Open Scope Z_scope.

Module MainInvariant.
Import UniqueFd (UniqueFd, mkUniqueFd, get).
Import BackendPool (BackendPool, accounts).
Import Worker (mkWenv, config_, epollFd_, wakeFd_, running_, thread_, queue_, fdToSession_,
  sessions_, activeSessions_, nextSessionId_, Ended).
Import Streams Traces WorkerInvariant WorkerSessions WorkerTurn WorkerRun Main.

(** ** What one worker owns *)

Definition claims_of (t : thread) : list claim :=
  session_claims (heap t) ++ queue_claims (worker t) ++
  [Held (get (epollFd_ (worker t))); Held (get (wakeFd_ (worker t)))].

Definition leased (i : nat) (t : thread) : Z := held i (heap t).
Definition active (t : thread) : Z := Z.of_nat (base.size (sessions_ (worker t))).

(** Clients it has taken so far. *)
Definition taken (t : thread) : Z :=
  nextSessionId_ (worker t) - 1 + Z.of_nat (length (queue_ (worker t))).

Record sound (C : Config.AppConfig) (t : thread) : Prop := {
  sound_config : config_ (worker t) = C;
  sound_linked : linked [] (worker t) (heap t);
  sound_ok : map_Forall (λ _, session_ok (Config.bufferSize C)) (heap t);
  sound_numbered : numbered 0 (worker t) (heap t);
  sound_queue : Forall (λ c, 0 <= Worker.fd c) (queue_ (worker t));
  sound_active : activeSessions_ (worker t) = active t;
  sound_open : 0 <= get (epollFd_ (worker t)) ∧ 0 <= get (wakeFd_ (worker t));
  sound_joinable : thread_ (worker t) = true ∨ at_ t = Ended;
  sound_gone : at_ t = Ended →
    heap t = ∅ ∧ queue_ (worker t) = [] ∧ sessions_ (worker t) = ∅ ∧
    fdToSession_ (worker t) = ∅;
  sound_stopped : at_ t = Ended → thread_ (worker t) = true → running_ (worker t) = false
}.

(** [most] bounds the clients ever accepted, [hand] lists those the main
    thread has accepted and not yet handed over, [extra] its other
    descriptors. *)
Record books (C : Config.AppConfig) (most : nat) (hand extra : list Z) (s : env) : Prop := {
  books_sound : Forall (sound C) (threads s);
  books_estate :
    estate ((Unused <$> hand) ++ (threads s ≫= claims_of) ++ (Held <$> extra)) (log s);
  books_leases : accounts (λ i, total (leased i) (threads s)) (pool s);
  books_gauge : Metrics.active_ (metrics s) = total active (threads s);
  books_taken : total taken (threads s) + Z.of_nat (length hand) <= Z.of_nat (accepts (log s));
  books_most : (accepts (log s) ≤ most)%nat
}.

(** ** Seen from one worker *)

Definition around (C : Config.AppConfig) (others : list thread) (extra : list Z) (t : thread) :
    surroundings :=
  {| config := C; epoll := get (epollFd_ (worker t)); wake := get (wakeFd_ (worker t));
     ready := thread_ (worker t); rest := (others ≫= claims_of) ++ (Held <$> extra);
     base := λ i, total (leased i) others; gauge := total active others |}.

Definition focus (t : thread) (s : env) : Worker.env :=
  mkWenv (worker t) (heap t) (metrics s) (pool s) (log s).

Definition unfocus (j : nat) (p : Worker.position) (e : Worker.env) (s : env) : env :=
  mkEnv (mine s) (<[j := mkThread (Worker.worker e) (Worker.heap e) p]> (threads s))
    (checker s) (Worker.metrics e) (Worker.pool e) (Worker.log e).

(** Clients it may still take. *)
Definition room (t : thread) : nat := Z.to_nat (2 ^ 53 - 1 - taken t).

Lemma sound_bounds C t : sound C t →
  0 <= taken t ∧ ∀ i, 0 <= leased i t <= taken t ∧ 0 <= active t <= taken t.
Proof.
  intros []. destruct sound_numbered0 as [_ Hh _]. unfold taken, leased, active.
  pose proof (linked_size _ _ _ sound_linked0).
  split; [lia|]. intros i. pose proof (held_bounds i (heap t)). lia.
Qed.

Lemma books_bounded C most hand extra s j t :
  books C most hand extra s → threads s !! j = Some t →
  Z.of_nat most < 2 ^ 53 - 1 → 0 < Config.bufferSize C < 2 ^ 63 →
  bounded (around C (delete j (threads s)) extra t) ∧
  taken t + total taken (delete j (threads s)) + Z.of_nat (length hand) <=
    Z.of_nat (accepts (log s)) ∧ 0 <= taken t ∧ 0 <= total taken (delete j (threads s)).
Proof.
  intros [] Ht Hm Hc.
  assert (∀ x, x ∈ delete j (threads s) → sound C x) as Hx.
  { intros x Hx. eapply Forall_forall; [exact books_sound0|].
    eapply sublist_subseteq; [apply sublist_delete|exact Hx]. }
  assert (∀ f, (∀ x, sound C x → 0 <= f x <= taken x) →
    0 <= total f (delete j (threads s)) <= total taken (delete j (threads s))) as Hb.
  { intros f Hf. split; [apply total_nonneg, Forall_forall|apply total_le];
      intros x Hin; apply Hf; auto. }
  pose proof (total_delete taken j (threads s) t Ht) as Hd. rewrite Hd in books_taken0.
  assert (sound C t) as [Htk _]%sound_bounds by by eapply (Forall_lookup_1 (sound C)).
  pose proof (Hb taken) as Hbt.
  assert (0 <= total taken (delete j (threads s))) as Hpos.
  { apply Hbt. intros x Hs. pose proof (sound_bounds C x Hs). lia. }
  split; [|lia]. split; [|split; [|done]]; cbn.
  - intros i. assert (0 <= total (leased i) (delete j (threads s)) <= 
      total taken (delete j (threads s))); [|lia].
    apply Hb. intros x Hs. by destruct (sound_bounds C x Hs) as [_ Hi]; destruct (Hi i).
  - assert (0 <= total active (delete j (threads s)) <=
      total taken (delete j (threads s))); [|lia].
    apply Hb. intros x Hs. by destruct (sound_bounds C x Hs) as [_ Hi]; destruct (Hi O).
Qed.

(** A worker's part of the descriptors, and the others'. *)
Lemma threads_delete j ts t : ts !! j = Some t →
  (ts ≫= claims_of) ≡ₚ claims_of t ++ (delete j ts ≫= claims_of).
Proof. intros Ht. by rewrite (delete_Permutation ts j t Ht) at 1. Qed.

(** Zooming in: the worker's own invariant holds. *)
Lemma books_focus C most hand extra s j t n :
  books C most hand extra s → threads s !! j = Some t → taken t + Z.of_nat n < 2 ^ 53 →
  inv (keep (Unused <$> hand) (around C (delete j (threads s)) extra t)) [] n (focus t s).
Proof.
  intros [] Ht Hn. assert (sound C t) as [] by by eapply (Forall_lookup_1 (sound C)).
  split; cbn; try done.
  - destruct sound_numbered0 as [Hi Hh _]. unfold taken in Hn. split; [done..|lia].
  - by rewrite books_gauge0, (total_delete active j _ t Ht), Z.add_comm.
  - eapply BackendPool.accounts_ext; [|exact books_leases0]. intros i. cbn beta.
    by rewrite (total_delete (leased i) j _ t Ht), Z.add_comm.
  - rewrite books_keep. eapply estate_proper; [|done|exact books_estate0].
    rewrite (threads_delete j _ t Ht). unfold WorkerInvariant.books, claims_of, focus. cbn. solve_Permutation.
Qed.

(** Zooming out. *)
Lemma books_unfocus C most hand hand' extra s j t n p e :
  books C most hand extra s → threads s !! j = Some t →
  inv (keep (Unused <$> hand') (around C (delete j (threads s)) extra t)) [] n e →
  2 ^ 53 - 1 - Z.of_nat n + total taken (delete j (threads s)) + Z.of_nat (length hand') <=
    Z.of_nat (accepts (Worker.log e)) →
  (accepts (Worker.log e) ≤ most)%nat →
  (at_ t = Ended → p = Ended) →
  (p = Ended → vacant e ∧ (ready (around C (delete j (threads s)) extra t) = true →
    running_ (Worker.worker e) = false)) →
  books C most hand' extra (unfocus j p e s).
Proof.
  intros [] Ht [] Hn Ha Hd' Hp. cbn in *.
  assert (sound C t) as Hs by by eapply (Forall_lookup_1 (sound C)).
  set (t' := mkThread (Worker.worker e) (Worker.heap e) p).
  assert (<[j := t']> (threads s) !! j = Some t') as Ht'.
  { by apply list_lookup_insert_eq, lookup_lt_Some with t. }
  pose proof (delete_insert_same (threads s) j t') as Hd.
  split; cbn; fold t'; try done.
  - apply Forall_insert; [done|]. split; cbn; try done.
    + destruct inv_numbered0 as [? ? ?]. split; [done..|lia].
    + rewrite inv_epoll0, inv_wake0. by apply (sound_open C t).
    + rewrite inv_ready0. destruct (sound_joinable C t Hs) as [?|?%Hd']; auto.
    + intros E. destruct (Hp E) as ((? & ? & ? & ?) & _). by split_and!.
    + intros E. rewrite inv_ready0. by apply Hp.
  - rewrite books_keep in inv_estate0. eapply estate_proper; [|done|exact inv_estate0].
    rewrite (threads_delete j _ t' Ht'), Hd. unfold WorkerInvariant.books, claims_of. cbn.
    rewrite inv_epoll0, inv_wake0. solve_Permutation.
  - eapply BackendPool.accounts_ext; [|exact inv_leases0]. intros i. cbn beta.
    rewrite (total_delete (leased i) j _ t' Ht'), Hd. cbn. unfold leased at 2. cbn. lia.
  - rewrite inv_gauge0, (total_delete active j _ t' Ht'), Hd. unfold active at 2. cbn. lia.
  - rewrite (total_delete taken j _ t' Ht'), Hd. unfold taken at 1. cbn.
    destruct inv_numbered0. lia.
Qed.
End MainInvariant.
