(* ===== verification/MainSteps.v ===== *)
(** * Steps of the other threads

    Whatever the workers, the health checker, the statistics and the signal
    handler do while the main thread waits, the books stay in order, and what
    the main thread relies on stays as it was. *)

From S2P Require Import Prelude Text Posix Streams ByteBuffer UniqueFd Metrics Logger Config Net Backend BackendPool HealthChecker ProxySession SessionSteps SessionStream SessionEstate SessionEvents Acceptor Traces Worker WorkerTrace WorkerInvariant WorkerSessions WorkerTurn WorkerRun Main MainInvariant.
Local Open Scope Z_scope.

Module MainSteps.
Import UniqueFd (UniqueFd, mkUniqueFd, get).
Import Worker (MapOrder, running_, thread_, Starting, Ended).
Import Streams Traces WorkerTrace WorkerInvariant WorkerTurn WorkerRun Main MainInvariant.

(** ** What the main thread sees of the others *)

Definition settled (t : thread) : Prop := at_ t = Ended → running_ (worker t) = false.

Definition same_thread (t t' : thread) : Prop :=
  running_ (worker t') = running_ (worker t) ∧ (at_ t = Ended → at_ t' = Ended) ∧
  (settled t → settled t').

(** The signal has come, or comes before the main thread has blocked [k]
    times more. *)
Definition signalled (k : nat) (s : env) : Prop :=
  stopRequested (mine s) = true ∨ Signal ∈ concat (take k (schedule (mine s))).

Lemma signalled_same k s s' :
  stopRequested (mine s') = stopRequested (mine s) → schedule (mine s') = schedule (mine s) →
  signalled k s → signalled k s'.
Proof. unfold signalled. by intros -> ->. Qed.

Record meanwhile (s s' : env) : Prop := {
  same_threads : Forall2 same_thread (threads s) (threads s');
  same_running : HealthChecker.running_ (checker s') = HealthChecker.running_ (checker s);
  same_checker : HealthChecker.thread_ (checker s') = HealthChecker.thread_ (checker s);
  same_done : checkerAt (mine s) = Done → checkerAt (mine s') = Done;
  same_listen : listenFd (mine s') = listenFd (mine s);
  same_reporting : statsRunning (mine s') = statsRunning (mine s);
  same_stats : interval <$> statsThread (mine s') = interval <$> statsThread (mine s);
  same_cursor : is_u64 (dispatchCursor (mine s)) → is_u64 (dispatchCursor (mine s'));
  same_accepts : (accepts (log s) ≤ accepts (log s'))%nat;
  same_signal k : signalled k s → signalled k s'
}.

#[export] Instance same_thread_preorder : PreOrder same_thread.
Proof.
  split; [by intros t; split_and!|]. intros t1 t2 t3 (? & ? & ?) (? & ? & ?). split; [congruence|auto].
Qed.

#[export] Instance meanwhile_preorder : PreOrder meanwhile.
Proof.
  split; [by intros s; split|]. intros s1 s2 s3 [] []. split; try congruence; auto; [by etrans|lia].
Qed.

Lemma settled_meanwhile s s' :
  meanwhile s s' → Forall settled (threads s) → Forall settled (threads s').
Proof. intros [Hf]. induction Hf as [|t t' ts ts' (_ & _ & Ht)]; inversion 1; auto. Qed.

(** Nothing but [mine] and the checker's own state has changed. *)
Lemma books_same C most hand extra s s' :
  threads s' = threads s → metrics s' = metrics s → pool s' = pool s → log s' = log s →
  books C most hand extra s → books C most hand extra s'.
Proof. intros Ht Hm Hp Hl []. split; by rewrite ?Ht, ?Hm, ?Hp, ?Hl. Qed.

Lemma books_closes C most hand extra s : books C most hand extra s → closes_ok (log s).
Proof. by intros [? [(_ & _ & ?) _ _]]. Qed.

(** ** Zooming in and out *)

Section zoom.
Context {K : Kernel} {MO : MapOrder}.

Lemma runs_on_thread {A} j t (m : ST Worker.env A) R s :
  threads s !! j = Some t → runs m R (focus t s) →
  runs (on_thread j m) (λ a s', ∃ e, m (focus t s) = (Val a, e) ∧ R a e ∧
    s' = unfocus j (at_ t) e s) s.
Proof using Type.
  intros Ht (a & e & Hm & HR). eexists a, _. unfold on_thread. rewrite Ht.
  unfold focus in *. rewrite Hm. split; [done|]. by exists e.
Qed.

Lemma unfocus_alter j t p p' e s : threads s !! j = Some t →
  mkEnv (mine (unfocus j p' e s)) (alter (λ t, mkThread (worker t) (heap t) p) j
    (threads (unfocus j p' e s))) (checker (unfocus j p' e s)) (metrics (unfocus j p' e s))
    (pool (unfocus j p' e s)) (log (unfocus j p' e s)) = unfocus j p e s.
Proof using Type.
  intros Ht. unfold unfocus. cbn. f_equal. apply list_eq. intros k.
  assert (j < length (threads s))%nat by by eapply lookup_lt_Some.
  destruct (decide (k = j)) as [->|Hk].
  - by rewrite list_lookup_alter_eq, !list_lookup_insert_eq.
  - by rewrite list_lookup_alter_ne, !list_lookup_insert_ne.
Qed.

Lemma unfocus_id j t s : threads s !! j = Some t → unfocus j (at_ t) (focus t s) s = s.
Proof using Type.
  intros Ht. unfold unfocus, focus. cbn. rewrite list_insert_id by (by destruct t). by destruct s.
Qed.

Lemma unfocus_meanwhile j t p e s :
  threads s !! j = Some t →
  same_thread t (mkThread (Worker.worker e) (Worker.heap e) p) →
  (accepts (log s) ≤ accepts (Worker.log e))%nat → meanwhile s (unfocus j p e s).
Proof using Type.
  intros Ht Hs Ha. split; cbn; try done.
  rewrite <- (list_insert_id (threads s) j t) at 1 by done.
  apply Forall2_insert; [reflexivity|done].
Qed.
End zoom.

(** ** The steps *)

(** Enough for every loop of every thread, when buffers hold at most [cap]
    bytes. *)
Record enough (signals wakes most : nat) (cap : Z) (fuel : nat) : Prop := {
  enough_io : SessionEvents.fuel_for signals cap fuel;
  enough_wakes : (wakes < fuel)%nat;
  enough_signals : (signals < fuel)%nat;
  enough_clients : (most < fuel)%nat;
  enough_steps : (3 <= fuel)%nat
}.

Section ticks.
Context {K : Kernel} {KL : KernelLaws K} {MO : MapOrder}.
Context (signals wakes most : nat) (cap : Z) `{!FewInterrupts K signals} `{!WakeLaws K wakes}.
Context `{!FewClients K most} `{!SteadyEpoll K}.
Context (stamp : trace → string) (source : string) (fuel : nat).
Context (C : Config.AppConfig) (hand extra : list Z).
Context (Hmost : Z.of_nat most < 2 ^ 53 - 1) (Hcap : cap < 2 ^ 63).
Context (Hsize : 0 < Config.bufferSize C <= cap).
Context (Hfuel : enough signals wakes most cap fuel).

Lemma thread_fuelled others t : fuelled signals wakes (around C others extra t) fuel.
Proof using Hfuel Hsize.
  destruct Hfuel as [H1 H2 _ _ _]. split; [|done].
  unfold SessionEvents.fuel_for, capacity in *. cbn. nia.
Qed.

Lemma serve_thread_spec j s :
  books C most [] extra s →
  runs (serve_thread fuel j) (λ _ s', books C most [] extra s' ∧ meanwhile s s' ∧
    ∀ t, threads s !! j = Some t → thread_ (worker t) = true →
      ∃ t', threads s' !! j = Some t' ∧ at_ t' ≠ Starting ∧
        (running_ (worker t) = false → at_ t ≠ Starting → at_ t' = Ended)) s.
Proof using All.
  intros Hb. unfold serve_thread. apply runs_bind, runs_gets.
  destruct (threads s !! j) as [t|] eqn:Ht; [|by apply runs_ret].
  destruct (thread_ (worker t)) eqn:Hth.
  2: { apply runs_ret. split; [done|]. split; [done|]. intros t' [= <-]. by rewrite Hth. }
  destruct (books_bounded C most [] extra s j t Hb Ht) as (HW & Htk & Hpos & Hoth);
    [done|lia|].
  cbn [length] in Htk. set (n := Z.to_nat (2 ^ 53 - 1 - taken t)).
  pose proof (books_most _ _ _ _ _ Hb) as Hmo.
  assert (sound C t) as Hsound by (eapply (Forall_lookup_1 (sound C)); [apply Hb|done]).
  assert (inv (around C (delete j (threads s)) extra t) [] n (focus t s)) as Hinv.
  { apply (books_focus C most [] extra); [done..|]. subst n. lia. }
  apply runs_bind. eapply runs_mono.
  { eapply runs_on_thread; [done|].
    apply (runs_preserves (λ e, accepts (Worker.log e) = accepts (log s))); [|done|].
    - apply (keeps_step (λ tr, accepts tr = accepts (log s))).
    - apply (step_spec signals wakes _ HW n); [apply thread_fuelled|done| |].
      + intros E. destruct (sound_gone C t Hsound E) as (? & ? & ? & ?).
        split; [by split_and!|by apply (sound_stopped C t Hsound)].
      + intros tr k e. apply epoll_wait_interrupted. }
  cbn beta. intros p s1 (e & _ & ((H1 & Hr & Hrest & Hst & Hended & Hend) & Ha) & ->).
  apply runs_modify. rewrite (unfocus_alter j t) by done.
  cbn [Worker.worker focus] in Hr, Hend. split; [|split].
  - eapply books_unfocus; [done|done|done| |by rewrite Ha|done|].
    + rewrite Ha. subst n. cbn [length]. lia.
    + intros E. by destruct (Hrest E).
  - apply (unfocus_meanwhile j t); [done| |by rewrite Ha]. split_and!; [done..|].
    intros _ E. by destruct (Hrest E).
  - intros t' [= <-] _. exists (mkThread (Worker.worker e) (Worker.heap e) p).
    split; [|done]. by apply list_lookup_insert_eq, lookup_lt_Some with t.
Qed.

(** What the checker does between two looks at [running_]. *)
Definition checking_step (m : ST HealthChecker.env unit) : Prop :=
  m = HealthChecker.checkOnce fuel ∨ m = HealthChecker.wait_for.

Lemma on_checker_probed m s :
  books C most hand extra s → checking_step m →
  runs (on_checker m) (λ _ s', books C most hand extra s' ∧
    mine s' = mine s ∧ threads s' = threads s ∧
    HealthChecker.running_ (checker s') = HealthChecker.running_ (checker s) ∧
    HealthChecker.thread_ (checker s') = HealthChecker.thread_ (checker s) ∧
    accepts (log s') = accepts (log s)) s.
Proof using All.
  intros Hb Hstep. destruct Hfuel as [_ _ Hs _ _].
  assert (FewInterrupts K (fuel - 1)) by (apply (few_interrupts_le K signals); [lia|done]).
  set (e := HealthChecker.mkEnv (checker s) (pool s) (log s)).
  assert (runs m (λ _ e', HealthChecker.probed e e') e ∧
    accepts (HealthChecker.log (m e).2) = accepts (log s)) as [([] & e' & Hm & Hp) Ha].
  { destruct Hstep as [-> | ->].
    - split; [|exact (keeps_checkOnce (λ tr, accepts tr = accepts (log s)) fuel e eq_refl)].
      replace fuel with (fuel - 1 + 1)%nat by lia.
      by apply (HealthChecker.checkOnce_probed (fuel - 1)), (books_closes C most hand extra s).
    - split; [|exact (keeps_wait_for (λ tr, accepts tr = accepts (log s)) e eq_refl)].
      by apply HealthChecker.wait_for_probed, (books_closes C most hand extra s). }
  rewrite Hm in Ha. cbn [snd] in Ha.
  eexists tt, _. unfold on_checker. fold e. rewrite Hm. split; [done|].
  destruct Hp as (_ & Hacc & Hq & _ & Hr & Ht). cbn.
  split; [|done]. destruct Hb. split; cbn; try done.
  - by eapply estate_hushed.
  - by apply Hacc.
  - by rewrite Ha.
  - by rewrite Ha.
Qed.

Lemma check_spec s :
  books C most hand extra s →
  runs (check fuel) (λ _ s', books C most hand extra s' ∧ meanwhile s s' ∧
    (HealthChecker.thread_ (checker s) = true → HealthChecker.running_ (checker s) = false →
      match checkerAt (mine s) with
      | AtStart => checkerAt (mine s') = AtTest
      | _ => checkerAt (mine s') = Done
      end)) s.
Proof using All.
  intros Hb. unfold check. apply runs_bind, runs_gets.
  destruct (HealthChecker.thread_ (checker s)) eqn:Ht; [|by apply runs_ret].
  assert (∀ p, checkerAt (mine s) ≠ Done → meanwhile s
    (mkEnv (set_checkerAt p (mine s)) (threads s) (checker s) (metrics s) (pool s) (log s))) as Hmw
    by (intros p Hp; by split).
  assert (∀ m p, checking_step m → checkerAt (mine s) ≠ Done →
    runs (on_checker m ;; on_mine (set_checkerAt p)) (λ _ s', books C most hand extra s' ∧
      meanwhile s s' ∧ checkerAt (mine s') = p) s) as Hround.
  { intros m p Hstep Hd. apply runs_bind. eapply runs_mono; [by apply on_checker_probed|].
    intros [] s1 (H1 & Hm & Hth & Hr & Hj & Ha). apply runs_modify.
    split; [by eapply books_same, H1|]. split; [|done]. split; cbn; try congruence.
    + by rewrite Hth.
    + by rewrite Ha.
    + intros k. by apply signalled_same; cbn; rewrite Hm. }
  destruct (checkerAt (mine s)) eqn:Hat.
  - eapply runs_mono; [apply Hround; [by left|done]|]. cbn beta. tauto.
  - destruct (HealthChecker.running_ (checker s)) eqn:Hr.
    + eapply runs_mono; [apply Hround; [by right|done]|]. cbn beta.
      intros _ s' (? & ? & ?). by split_and!.
    + apply runs_modify. split; [by eapply books_same, Hb|]. by split; [apply Hmw|].
  - destruct (HealthChecker.running_ (checker s)) eqn:Hr.
    + eapply runs_mono; [apply Hround; [by left|done]|]. cbn beta.
      intros _ s' (? & ? & ?). by split_and!.
    + apply runs_modify. split; [by eapply books_same, Hb|]. by split; [apply Hmw|].
  - apply runs_ret. by split_and!.
Qed.

(** Only the lines of the log have changed. *)
Definition logged (s s' : env) : Prop :=
  ∃ lg, s' = mkEnv (set_logger lg (mine s)) (threads s) (checker s) (metrics s) (pool s) (log s).

Lemma log_spec line message s : runs (FG_LOG_INFO stamp source line message) (λ _, logged s) s.
Proof using Type. unfold FG_LOG_INFO. apply runs_bind, runs_gets, runs_modify. by eexists. Qed.

Lemma logged_trans s1 s2 s3 : logged s1 s2 → logged s2 s3 → logged s1 s3.
Proof using Type. intros [lg ->] [lg' ->]. by exists lg'. Qed.

Lemma logged_keeps s s' : logged s s' →
  (books C most hand extra s → books C most hand extra s') ∧ meanwhile s s' ∧
  statsThread (mine s') = statsThread (mine s) ∧ stopRequested (mine s') = stopRequested (mine s).
Proof using Type. intros [lg ->]. split; [by apply books_same|]. split; [by split|done]. Qed.

Lemma report_spec s : runs (report stamp source) (λ _, logged s) s.
Proof using Type.
  unfold report. apply runs_bind, runs_gets, runs_bind.
  eapply runs_mono; [apply log_spec|]. intros [] s1 H1.
  apply (runs_for_each _ (λ _ s', logged s s')); [done|].
  intros b _ s2 H2. eapply runs_mono; [apply log_spec|]. intros [] s3. by apply logged_trans.
Qed.

Lemma nap_spec s :
  books C most hand extra s →
  runs (nap stamp source) (λ _ s', books C most hand extra s' ∧ meanwhile s s' ∧
    (∀ st, statsThread (mine s) = Some st → statsRunning (mine s) = false →
      ∃ st', statsThread (mine s') = Some st' ∧ gone st' = true)) s.
Proof using Type.
  intros Hb. unfold nap. apply runs_bind, runs_gets.
  destruct (statsThread (mine s)) as [st|] eqn:Hst; [|by apply runs_ret].
  assert (∀ s1 st', books C most hand extra s1 → meanwhile s s1 → interval st' = interval st →
    books C most hand extra (mkEnv (set_statsThread (Some st') (mine s1)) (threads s1) (checker s1)
      (metrics s1) (pool s1) (log s1)) ∧
    meanwhile s (mkEnv (set_statsThread (Some st') (mine s1)) (threads s1) (checker s1)
      (metrics s1) (pool s1) (log s1))) as Hset.
  { intros s1 st' H1 [] Hi. split; [by eapply books_same, H1|]. split; try done.
    cbn. by rewrite Hst, Hi. }
  destruct (gone st) eqn:Hg.
  { apply runs_ret. split; [done|]. split; [done|]. intros st' [= <-] _. by exists st. }
  destruct (statsRunning (mine s)) eqn:Hr; cbn [negb].
  - destruct (_ <? _).
    + apply runs_modify. destruct (Hset s (mkStats (interval st) (elapsed st + 1) false)); done.
    + apply runs_bind. eapply runs_mono; [apply report_spec|].
      intros [] s1 H1. destruct (logged_keeps _ _ H1) as (Hb1 & Hm1 & _). apply runs_modify.
      destruct (Hset s1 (mkStats (interval st) 0 false)); [by apply Hb1|done..].
  - apply runs_modify.
    destruct (Hset s (mkStats (interval st) (elapsed st) true)) as [? ?]; [done..|].
    split; [done|]. split; [done|]. intros _ _ _. by eexists.
Qed.

End ticks.

Section yield.
Context {K : Kernel} {KL : KernelLaws K} {MO : MapOrder}.
Context (signals wakes most : nat) (cap : Z) `{!FewInterrupts K signals} `{!WakeLaws K wakes}.
Context `{!FewClients K most} `{!SteadyEpoll K}.
Context (stamp : trace → string) (source : string) (fuel : nat).
Context (C : Config.AppConfig) (extra : list Z).
Context (Hmost : Z.of_nat most < 2 ^ 53 - 1) (Hcap : cap < 2 ^ 63).
Context (Hsize : 0 < Config.bufferSize C <= cap).
Context (Hfuel : enough signals wakes most cap fuel).

Lemma run_tick_spec t s :
  books C most [] extra s →
  runs (run_tick stamp source fuel t) (λ _ s', books C most [] extra s' ∧ meanwhile s s' ∧
    (t = Signal → signalled 0 s')) s.
Proof using All.
  intros Hb. destruct t as [j| | |]; cbn [run_tick].
  - eapply runs_mono; [by eapply serve_thread_spec|]. cbn beta. intros [] s' (? & ? & _).
    by split_and!.
  - eapply runs_mono; [by eapply check_spec|]. cbn beta. intros [] s' (? & ? & _). by split_and!.
  - eapply runs_mono; [by eapply nap_spec|]. cbn beta. intros [] s' (? & ? & _). by split_and!.
  - apply runs_modify. split; [by eapply books_same, Hb|]. split; [|by intros _; left].
    split; try done. intros k _. by left.
Qed.

Lemma signalled_less k k' s : (k ≤ k')%nat → signalled k s → signalled k' s.
Proof using Type.
  intros Hk [Hs|Hs]; [by left|]. right. apply list_elem_of_In, in_concat in Hs as (ts & Hts & Hs).
  apply list_elem_of_In, in_concat. exists ts. split; [|done].
  apply list_elem_of_In. apply list_elem_of_In in Hts. rewrite <- (Nat.min_l k k' Hk), <- take_take in Hts.
  by apply subseteq_take in Hts.
Qed.

Lemma yield_spec s :
  books C most [] extra s →
  runs (yield stamp source fuel) (λ _ s', books C most [] extra s' ∧ meanwhile s s' ∧
    ∀ k, signalled (S k) s → signalled k s') s.
Proof using All.
  intros Hb. unfold yield. apply runs_bind, runs_gets.
  destruct (schedule (mine s)) as [|ts rest] eqn:Hs.
  { apply runs_ret. split; [done|]. split; [done|]. unfold signalled. rewrite Hs.
    intros k [|Hin]; [by left|]. by apply not_elem_of_nil in Hin. }
  apply runs_bind, runs_modify. set (s0 := mkEnv _ _ _ _ _ _).
  eapply runs_mono.
  { apply (runs_for_each _ (λ l s', books C most [] extra s' ∧ meanwhile s0 s' ∧
      (Signal ∈ ts → Signal ∈ l ∨ signalled 0 s'))).
    - split; [by eapply books_same, Hb|]. split; [done|]. by left.
    - intros t l s1 (H1 & Hm1 & Hsig). eapply runs_mono; [by apply run_tick_spec|].
      intros [] s2 (H2 & Hm2 & Hstop). split; [done|]. split; [by etrans|].
      intros Hin. destruct (Hsig Hin) as [[<-|Hl]%elem_of_cons|H0]; [|by left|].
      + right. by apply Hstop.
      + right. by apply (same_signal _ _ Hm2). }
  cbn beta. intros [] s' (H' & Hm & Hsig).
  assert (∀ k, signalled (S k) s → signalled k s') as Hk.
  { intros k [Hstop|Hin]; [apply (same_signal _ _ Hm); left; exact Hstop|]. rewrite Hs in Hin. cbn in Hin.
    apply elem_of_app in Hin as [Hin|Hin].
    - destruct (Hsig Hin) as [Hnil|H0]; [by apply not_elem_of_nil in Hnil|].
      eapply signalled_less, H0. lia.
    - apply (same_signal _ _ Hm). by right. }
  split; [done|]. split; [|done]. destruct Hm. split; try done.
  intros k Hsg. apply Hk. eapply signalled_less, Hsg. lia.
Qed.
End yield.

End MainSteps.
