(* ===== verification/MainStart.v ===== *)
(** * Start-up

    What the constructors of the process promise, and that the books are in
    order once a worker is there. *)

From S2P Require Import Prelude Text Posix Streams ByteBuffer UniqueFd Metrics Logger Config Net Backend BackendPool HealthChecker ProxySession SessionSteps SessionStream SessionEstate SessionEvents Acceptor Traces Worker WorkerTrace WorkerInvariant WorkerSessions WorkerTurn WorkerRun Main MainInvariant MainSteps.
Local Open Scope Z_scope.

Module MainStart.
Import UniqueFd (UniqueFd, mkUniqueFd, get).
Import BackendPool (BackendPool, accounts, backends_).
Import Worker (MapOrder, running_, thread_, Starting, Ended).
Import Streams Traces WorkerTrace WorkerInvariant WorkerTurn WorkerRun Main MainInvariant MainSteps.

Section pool.
Context {K : Kernel} {KL : KernelLaws K}.

(** Nodes as the configuration describes them, all healthy and idle. *)
Definition fresh_backends (configs : list Config.BackendConfig) (bs : list Backend.Backend) : Prop :=
  Forall2 (λ c b, ∃ e, b = Backend.mkBackend c e true 0 0 0) configs bs.

(** What disturbs no descriptor, and accepts nobody. *)
Definition neutral (tr tr' : trace) : Prop :=
  hushed tr tr' ∧ accepts tr' = accepts tr.

#[local] Instance neutral_preorder : PreOrder neutral.
Proof using Type.
  split; [by repeat split|]. intros t1 t2 t3 [? ?] [? ?]. split; [by etrans|congruence].
Qed.

Lemma make_backends_spec configs tr :
  ends (BackendPool.make_backends configs) (λ bs tr', fresh_backends configs bs ∧ neutral tr tr')
    (λ _ tr', neutral tr tr') tr.
Proof using Type.
  revert tr. induction configs as [|c configs IH]; intros tr; cbn [BackendPool.make_backends].
  { split; [constructor|done]. }
  assert (ends (Backend.construct c) (λ b tr', (∃ e, b = Backend.mkBackend c e true 0 0 0) ∧
    neutral tr tr') (λ _ tr', neutral tr tr') tr) as Hc.
  { unfold Backend.construct, Net.resolveTcpEndpoint, sys_getaddrinfo. do 2 apply ends_bind.
    set (r := k_getaddrinfo tr (Config.host c) (to_string (Config.port c))).
    assert (neutral tr (EvGetaddrinfo (Config.host c) (to_string (Config.port c)) r :: tr)) as Hn
      by (split; [by apply hushed_event|done]).
    unfold ends at 1, syscall. cbn [view upd Lens_refl]. fold r. destruct r as [items|e]; [|done].
    destruct (default _ _) as [len a]. case_match; [done|]. split; [by eexists|done]. }
  apply ends_bind. eapply ends_mono; [exact Hc| |done]. intros b tr1 [Hb Hn].
  apply ends_bind. eapply ends_mono; [apply IH| |intros e tr2 Hn2; by etrans].
  intros bs tr2 [Hbs Hn2]. split; [by constructor|by etrans].
Qed.

Lemma pool_spec configs tr :
  ends (BackendPool.construct configs) (λ p tr', p = BackendPool.mkPool (backends_ p) 0 ∧
    fresh_backends configs (backends_ p) ∧ configs ≠ [] ∧ neutral tr tr')
    (λ _ tr', neutral tr tr') tr.
Proof using Type.
  unfold BackendPool.construct. destruct configs as [|c configs]; [done|].
  apply ends_bind. eapply ends_mono; [apply make_backends_spec| |done].
  intros bs tr' [Hbs Hn]. by split_and!.
Qed.
End pool.

Lemma lifts_pool `{K : Kernel} {S} `{LensLaws S trace} configs :
  lifts (BackendPool.construct (S := S) configs) (BackendPool.construct (S := trace) configs).
Proof.
  unfold BackendPool.construct. destruct configs as [|c configs]; [lift_calls|].
  apply lifts_bind; [|intros; lift_calls]. generalize (c :: configs). clear c configs.
  induction l as [|c configs IH]; cbn [BackendPool.make_backends]; [lift_calls|].
  apply lifts_bind; [|intros b; apply lifts_bind; [apply IH|intros; lift_calls]].
  unfold Backend.construct, Net.resolveTcpEndpoint. lift_calls.
Qed.

Lemma lifts_worker `{K : Kernel} {S} `{LensLaws S trace} index config :
  lifts (Worker.construct (S := S) index config) (Worker.construct (S := trace) index config).
Proof.
  unfold Worker.construct, UniqueFd.destroy, UniqueFd.reset. lift_calls.
Qed.

(** Nobody is connected to a new pool. *)
Lemma fresh_accounts configs p :
  p = BackendPool.mkPool (backends_ p) 0 → fresh_backends configs (backends_ p) → configs ≠ [] →
  Forall Config.valid_backend configs → Z.of_nat (length configs) < 2 ^ 32 →
  accounts (λ _, 0) p.
Proof.
  destruct p as [bs k]. cbn [backends_]. intros [= ->] Hf Hne Hv Hl. pose proof (Forall2_length _ _ _ Hf) as Hlen.
  split; [|split; [|split]]; cbn.
  - intros E. rewrite E in Hlen. by destruct configs.
  - lia.
  - done.
  - intros i b Hb. destruct (Forall2_lookup_r _ _ _ _ _ Hf Hb) as (c & Hc & e & ->).
    split; [|done]. by apply (Forall_lookup_1 _ _ _ _ Hv) in Hc as (_ & _ & _ & ?).
Qed.

(** ** A worker is added *)

(** The state without its workers. *)
Definition bare (s : env) : env :=
  mkEnv (mine s) [] (checker s) (metrics s) (pool s) (log s).

Definition aside (s s' : env) : Prop := meanwhile (bare s) (bare s').

Lemma meanwhile_aside s s' : meanwhile s s' → aside s s'.
Proof. intros []. by split. Qed.

#[export] Instance aside_preorder : PreOrder aside.
Proof. split; [by intros s; apply meanwhile_aside|]. intros s1 s2 s3. unfold aside. by apply transitivity. Qed.

Lemma meanwhile_length s s' : meanwhile s s' → length (threads s') = length (threads s).
Proof. intros []. symmetry. by eapply Forall2_length. Qed.

Section workers.
Context {K : Kernel} {KL : KernelLaws K} {MO : MapOrder}.
Context (signals wakes most : nat) (cap : Z) `{!FewInterrupts K signals} `{!WakeLaws K wakes}.
Context `{!FewClients K most} `{!SteadyEpoll K}.
Context (stamp : trace → string) (source : string) (fuel : nat).
Context (C : Config.AppConfig) (extra : list Z).
Context (Hmost : Z.of_nat most < 2 ^ 53 - 1) (Hcap : cap < 2 ^ 63).
Context (Hsize : 0 < Config.bufferSize C <= cap).
Context (Hfuel : enough signals wakes most cap fuel).

(** The thread of a worker just started, or the one that could not be. *)
Definition new_thread (i : Z) (epoll wake : Z) (created : bool) : thread :=
  mkThread (Worker.set_thread created (Worker.set_running true (new_worker i C epoll wake))) ∅
    (if created then Starting else Ended).

Lemma books_new s i epoll wake created tr :
  books C most [] extra s → estate (([Held epoll; Held wake] ++ (threads s ≫= claims_of)) ++ (Held <$> extra)) tr →
  accepts tr = accepts (log s) → 0 <= epoll → 0 <= wake →
  books C most [] extra (mkEnv (mine s) (threads s ++ [new_thread i epoll wake created]) (checker s)
    (metrics s) (pool s) tr).
Proof using Type.
  intros [] Hl Ha He Hw.
  assert (∀ f, f (new_thread i epoll wake created) = 0 →
    total f (threads s ++ [new_thread i epoll wake created]) = total f (threads s)) as Ht.
  { intros f Hf. rewrite total_snoc. lia. }
  split; cbn [threads log metrics pool]; rewrite ?Ha; try done.
  - apply Forall_app. split; [done|]. constructor; [|done]. split; cbn; try done.
    + by apply linked_empty.
    + destruct created; auto.
    + by destruct created.
  - eapply estate_proper; [|done|exact Hl]. rewrite bind_app. cbn. solve_Permutation.
  - eapply BackendPool.accounts_ext; [|exact books_leases0]. intros i'. cbn beta.
    by rewrite Ht by apply held_empty.
  - by rewrite Ht.
  - by rewrite Ht.
Qed.

(** [start()] of the worker pushed last. *)
Lemma started i epoll wake ts s :
  threads s = ts ++ [mkThread (new_worker (Z.of_nat i) C epoll wake) ∅ Ended] → length ts = i →
  on_thread i Worker.start s =
    let '(r, t) := match k_thread (log s) with
      | Ret _ => (Val tt, mkThread (worker (new_thread (Z.of_nat i) epoll wake true)) ∅ Ended)
      | Fail e => (Exn (k_strerror e), new_thread (Z.of_nat i) epoll wake false)
      end in
    (r, mkEnv (mine s) (ts ++ [t]) (checker s) (metrics s) (pool s) (log s)).
Proof using Type.
  intros Hts <-. unfold on_thread. rewrite Hts, list_lookup_middle by done.
  unfold Worker.start, std_thread, Worker.on_worker, gets, modify, mbind, ST_bind. cbn.
  destruct (k_thread (log s)); cbn; by rewrite insert_last.
Qed.

Lemma start_worker_spec s i :
  books C most [] extra s → length (threads s) = i →
  ends (start_worker stamp source fuel C i)
    (λ _ s', books C most [] extra s' ∧ aside s s' ∧ length (threads s') = S i ∧
      (Forall settled (threads s) → Forall settled (threads s')))
    (λ _ s', books C most [] extra s' ∧ aside s s') s.
Proof using All.
  intros Hb Hi. unfold start_worker.
  assert (estate ((threads s ≫= claims_of) ++ (Held <$> extra)) (log s)) as Hl by apply Hb.
  assert (ends (Worker.construct (Z.of_nat i) C)
    (λ w tr', ∃ epoll wake, w = new_worker (Z.of_nat i) C epoll wake ∧
      0 <= epoll ∧ 0 <= wake ∧ 
      estate ([Held epoll; Held wake] ++ (threads s ≫= claims_of) ++ (Held <$> extra)) tr' ∧ accepts tr' = accepts (log s))
    (λ _ tr', estate ((threads s ≫= claims_of) ++ (Held <$> extra)) tr' ∧ accepts tr' = accepts (log s))
    (log s)) as Hc.
  { pose proof (construct_owns (Z.of_nat i) C _ (log s) Hl) as Ho.
    pose proof (keeps_construct (λ tr, accepts tr = accepts (log s)) (Z.of_nat i) C (log s) eq_refl)
      as Ha. unfold ends. cbn [view Lens_refl] in Ha.
    destruct (Worker.construct _ _ (log s)) as [[w|e|] tr']; cbn [snd] in Ha; [|done..].
    destruct Ho as (epoll & wake & -> & ? & ? & Ho). by exists epoll, wake. }
  apply ends_bind. eapply ends_mono; [eapply (ends_lifts (T := trace) _ _ _ _ s); [apply lifts_worker|exact Hc]| |].
  - cbn beta. intros w s1 (tr & -> & epoll & wake & -> & He & Hw & Hl' & Ha).
    apply ends_after, runs_modify. set (s1 := mkEnv _ _ _ _ _ _).
    set (after created := mkEnv (mine s) (threads s ++ [new_thread (Z.of_nat i) epoll wake created])
      (checker s) (metrics s) (pool s) tr).
    assert (∀ created, books C most [] extra (after created) ∧ aside s (after created)) as Hafter.
    { intros created. split; [by apply books_new|]. split; try done. cbn. by rewrite <- Ha. }
    pose proof (started i epoll wake (threads s) s1 eq_refl Hi) as Hs. change (log s1) with tr in Hs.
    destruct (k_thread tr) as [?|e].
    2: { apply ends_bind. unfold ends at 1. rewrite Hs. exact (Hafter false). }
    apply ends_after. eexists _, _. split; [exact Hs|].
    apply ends_after, runs_modify. cbn [threads]. subst i. rewrite alter_last.
    fold (after true). apply ends_runs.
    destruct (Hafter true) as [H1 Ha1].
    eapply runs_mono; [eapply yield_spec; [done..|exact H1]|].
    cbn beta. intros [] s2 (H2 & Hm & _). split; [done|]. split.
    + etrans; [exact Ha1|by apply meanwhile_aside].
    + split; [rewrite (meanwhile_length _ _ Hm); cbn; rewrite length_app; cbn; lia|].
      intros Hset. eapply settled_meanwhile; [exact Hm|]. cbn. apply Forall_app. split; [done|].
      by constructor.
  - cbn beta. intros e s1 (tr & -> & Hl' & Ha). split.
    + destruct Hb. by split; cbn; rewrite ?Ha.
    + split; try done. cbn. by rewrite Ha.
Qed.
End workers.

End MainStart.
