(* ===== verification/MainAccept.v ===== *)
(** * The accept loop

    The choice of a worker, the hand-over of a client, the loop over pending
    clients and the loop over [poll]: each ends, with the books in order. *)

From S2P Require Import Prelude Text Posix Streams ByteBuffer UniqueFd Metrics Logger Config Net Backend BackendPool HealthChecker ProxySession SessionSteps SessionStream SessionEstate SessionEvents Acceptor Traces Worker WorkerTrace WorkerInvariant WorkerSessions WorkerTurn WorkerRun Main MainInvariant MainSteps.
Local Open Scope Z_scope.

Module MainAccept.
Import UniqueFd (UniqueFd, mkUniqueFd, get).
Import Worker (MapOrder, running_, thread_, activeSessions_, Starting, Ended).
Import Streams Traces WorkerTrace WorkerInvariant WorkerTurn WorkerRun Main MainInvariant MainSteps.

(** ** The choice of a worker *)

(** The worker [k] places after the start of the rotation, and its load. *)
Definition place (n cursor k : Z) : Z := u64 (cursor + k) mod n.
Definition load (actives : list Z) (cursor k : Z) : Z :=
  nth (Z.to_nat (place (Z.of_nat (length actives)) cursor k)) actives 0.

(** The best of the first [m] places of the rotation is the first one with
    the least load. *)
Definition least_of (actives : list Z) (cursor : Z) (m : nat) (best : Z * Z) : Prop :=
  ∃ k, 0 <= k < Z.of_nat m ∧ best.1 = place (Z.of_nat (length actives)) cursor k ∧
    best.2 = load actives cursor k ∧
    (∀ i, 0 <= i < Z.of_nat m → best.2 <= load actives cursor i) ∧
    ∀ i, 0 <= i < k → best.2 < load actives cursor i.

Lemma consider_least actives cursor m best :
  least_of actives cursor m best →
  least_of actives cursor (S m) (consider actives cursor best (Z.of_nat m)).
Proof.
  intros (k & Hk & H1 & H2 & Hle & Hlt). unfold consider.
  fold (place (Z.of_nat (length actives)) cursor (Z.of_nat m)).
  fold (load actives cursor (Z.of_nat m)).
  destruct (Z.ltb_spec (load actives cursor (Z.of_nat m)) best.2) as [H|H].
  - exists (Z.of_nat m). split; [lia|]. split; [done|]. split; [done|]. cbn. split.
    + intros i Hi. destruct (decide (i = Z.of_nat m)) as [->|]; [lia|].
      specialize (Hle i). lia.
    + intros i Hi. specialize (Hle i). lia.
  - exists k. split; [lia|]. split; [done|]. split; [done|]. split; [|done].
    intros i Hi. destruct (decide (i = Z.of_nat m)) as [->|]; [lia|]. apply Hle. lia.
Qed.

Lemma fold_least actives cursor m best :
  least_of actives cursor 1 best →
  least_of actives cursor (S m) (foldl (consider actives cursor) best (seqZ 1 (Z.of_nat m))).
Proof.
  intros Hb. induction m as [|m IH]; [done|].
  rewrite Nat2Z.inj_succ, <- Z.add_1_r, seqZ_app by lia. rewrite foldl_app. cbn [seqZ].
  replace (seqZ (1 + Z.of_nat m) 1) with [Z.of_nat (S m)].
  - cbn [foldl]. by apply consider_least.
  - rewrite seqZ_cons by lia. rewrite seqZ_nil by lia. f_equal. lia.
Qed.

Lemma selectWorker_best actives cursor :
  actives ≠ [] → is_u64 cursor →
  ∃ best, least_of actives cursor (length actives) best ∧
    selectWorker actives cursor = Z.to_nat best.1.
Proof.
  intros Hne Hc. unfold selectWorker.
  destruct (length actives) as [|m] eqn:Hm; [by destruct actives|].
  eexists. split; [|done]. replace (Z.of_nat (S m) - 1) with (Z.of_nat m) by lia.
  apply fold_least. exists 0. unfold load, place. rewrite Hm, Z.add_0_r, u64_small by done.
  split; [lia|]. split; [done|]. split; [done|]. split; [|lia].
  intros i Hi. replace i with 0 by lia. by rewrite Z.add_0_r, u64_small.
Qed.

Lemma selectWorker_range actives cursor :
  actives ≠ [] → is_u64 cursor → (selectWorker actives cursor < length actives)%nat.
Proof.
  intros Hne Hc. destruct (selectWorker_best actives cursor Hne Hc) as (best & (k & _ & H1 & _) & ->).
  rewrite H1. unfold place. assert (0 < Z.of_nat (length actives)) by (destruct actives; cbn; [done|lia]).
  pose proof (Z.mod_pos_bound (u64 (cursor + k)) (Z.of_nat (length actives))). lia.
Qed.

(** ** A client on its way to a worker *)

Section accept.
Context {K : Kernel} {KL : KernelLaws K} {MO : MapOrder}.
Context (signals wakes most : nat) (cap : Z) `{!FewInterrupts K signals} `{!WakeLaws K wakes}.
Context `{!FewClients K most} `{!SteadyEpoll K}.
Context (stamp : trace → string) (source : string) (fuel : nat).
Context (C : Config.AppConfig) (extra : list Z).
Context (Hmost : Z.of_nat most < 2 ^ 53 - 1) (Hcap : cap < 2 ^ 63).
Context (Hsize : 0 < Config.bufferSize C <= cap).
Context (Hfuel : enough signals wakes most cap fuel).

(** The books with the client [fd] still in the main thread's hands. *)
Definition serving (hand : list Z) (s : env) : Prop :=
  books C most hand extra s ∧ threads s ≠ [] ∧ Forall settled (threads s) ∧
  is_u64 (dispatchCursor (mine s)).

Lemma serving_meanwhile hand hand' s s' :
  serving hand s → books C most hand' extra s' → meanwhile s s' → serving hand' s'.
Proof using Type.
  intros (_ & Hne & Hset & Hc) Hb Hm. split; [done|].
  split; [|split; [by eapply settled_meanwhile|by apply Hm]].
  destruct Hm as [Hf _ _ _ _ _ _ _ _]. intros E. rewrite E in Hf. by inversion Hf.
Qed.

Lemma meanwhile_log s m tr : (accepts (log s) ≤ accepts tr)%nat →
  meanwhile s (mkEnv (mine s) (threads s) (checker s) m (pool s) tr).
Proof using Type. by split. Qed.

Lemma hand_over_spec fd addr s :
  0 <= fd → serving [fd] s →
  runs (hand_over fd addr) (λ b s', serving (if b : bool then [] else [fd]) s' ∧ meanwhile s s' ∧
    accepts (log s') = accepts (log s)) s.
Proof using KL MO WakeLaws0 Hmost Hcap Hsize.
  intros Hfd (Hb & Hne & Hset & Hc). unfold hand_over. apply runs_bind, runs_gets, runs_bind, runs_modify.
  set (j := selectWorker _ _). set (s1 := mkEnv _ _ _ _ _ _).
  assert (meanwhile s s1) as Hm1 by (split; try done; intros; apply u64_range).
  assert (j < length (threads s))%nat as Hj.
  { rewrite <- (length_fmap (λ t, activeSessions_ (worker t)) (threads s)).
    apply selectWorker_range; [|done]. by destruct (threads s). }
  destruct (lookup_lt_is_Some_2 _ _ Hj) as [t Ht].
  assert (books C most [fd] extra s1) as H1 by by eapply books_same, Hb.
  destruct (books_bounded C most [fd] extra s1 j t H1 Ht) as (HW & Htk & Hpos & Hoth);
    [done|lia|]. pose proof (books_most _ _ _ _ _ H1) as Hmo. cbn [length] in Htk.
  set (n := Z.to_nat (2 ^ 53 - 2 - taken t)).
  assert (inv (keep [Unused fd] (around C (delete j (threads s1)) extra t)) [] (S n) (focus t s1)) as Hinv.
  { apply (books_focus C most [fd] extra); [done..|]. subst n. lia. }
  eapply runs_mono.
  { eapply runs_on_thread; [exact Ht|].
    apply (runs_preserves (λ e, accepts (Worker.log e) = accepts (log s))); [|done|].
    - apply (keeps_enqueue (λ tr, accepts tr = accepts (log s))).
    - by apply (enqueue_spec wakes (around C (delete j (threads s1)) extra t) n). }
  cbn beta. intros b s2 (e & Hen & ((Hh & Hr & He) & Ha) & ->).
  assert (sound C t) as Hs by (eapply (Forall_lookup_1 (sound C)); [apply H1|exact Ht]).
  assert (books C most (if b then [] else [fd]) extra (unfocus j (at_ t) e s1) ∧
    meanwhile s1 (unfocus j (at_ t) e s1)) as [H2 Hm2].
  { split.
    2: { apply (unfocus_meanwhile j t); [exact Ht| |by rewrite Ha].
      split; [exact Hr|]. split; [done|]. unfold settled. cbn. by rewrite Hr. }
    destruct b.
    - eapply books_unfocus; [exact H1|exact Ht|exact He| |by rewrite Ha|done|].
      + rewrite Ha. subst n. cbn [length]. change (accepts (log s1)) with (accepts (log s)) in *. lia.
      + intros Hend. assert (running_ (worker t) = false) as Hrun
          by by apply (Forall_lookup_1 _ _ _ _ Hset Ht).
        unfold Worker.enqueue, gets, mbind, ST_bind in Hen. cbn in Hen. by rewrite Hrun in Hen.
    - subst e. by rewrite unfocus_id. }
  assert (meanwhile s (unfocus j (at_ t) e s1)) as Hm by by etrans.
  split; [|by split]. apply (serving_meanwhile [fd] _ s); [by split_and!|exact H2|exact Hm].
Qed.
Lemma main_turn_away_spec fd s :
  serving [fd] s →
  runs (Acceptor.turn_away fd) (λ _ s', serving [] s' ∧ meanwhile s s' ∧
    accepts (log s') = accepts (log s)) s.
Proof using Type.
  intros (Hb & Hne & Hc). unfold Acceptor.turn_away. apply runs_bind.
  eexists _, _. split; [done|]. apply runs_modify. split; [|by split; [by split|]].
  split; [|by split]. destruct Hb. cbn in *. split; cbn; try done.
  - by apply (estate_close fd), (estate_used [fd]).
  - lia.
Qed.

(** One turn of the accept loop; it goes on only after one more client or
    interruption. *)
Lemma accept_step_spec listenFd s :
  serving [] s →
  runs (Acceptor.accept_turn hand_over listenFd) (λ more s', serving [] s' ∧ meanwhile s s' ∧
    (more = true → accepts (log s') = S (accepts (log s)))) s.
Proof using All.
  intros Hs. set (k := accepts (log s)).
  apply (Acceptor.accept_turn_spec hand_over listenFd
    (λ fd s', 0 <= fd ∧ serving [fd] s' ∧ meanwhile s s' ∧ accepts (log s') = S k)
    (λ more s', serving [] s' ∧ meanwhile s s' ∧ (more = true → accepts (log s') = S k))).
  - intros fd a Ha. pose proof Ha as [Hp Hf]%accept_fresh. apply runs_modify.
    split; [done|]. split; [|split; [apply (meanwhile_log s); cbn; lia|done]].
    destruct Hs as ([] & Hne & Hc).
    split; [|by split]. split; cbn; try done.
    + eapply estate_created; [by apply created_event|exact books_estate0].
    + lia.
    + destruct (decide (most ≤ accepts (log s))%nat) as [Hle|]; [|lia].
      destruct (accept_few (log s) listenFd Hle) as (e & He & _). cbn [view env_log] in Ha. congruence.
  - intros e He. assert (meanwhile s (upd (EvAccept listenFd (Fail e) :: view s) s)) as Hm
      by (apply (meanwhile_log s); cbn; case_match; lia).
    split; [|split; [done|]].
    + apply (serving_meanwhile [] _ s); [done| |done]. destruct Hs as ([] & Hne & Hc).
      split; cbn; try done; [by eapply estate_hushed; [apply hushed_event|]| |]; case_match; try done; [lia|].
      destruct (decide (most ≤ accepts (log s))%nat) as [Hle|]; [|lia].
      destruct (accept_few (log s) listenFd Hle) as (e' & He' & Hne'). cbn [view env_log] in He.
      assert (e = EINTR) by by apply Z.eqb_eq. congruence.
    + cbn. intros [_ ->]%andb_true_iff. done.
  - intros fd s1 r (Hp & H1 & Hm & Ha). split; [done|].
    split; [|by split; [destruct Hm; by split|]]. destruct H1 as ([] & Hne & Hc).
    split; [|by split]. split; cbn; try done. by eapply estate_hushed; [apply hushed_event|].
  - intros fd addr s1 (Hp & H1 & Hm & Ha). eapply runs_mono; [by apply hand_over_spec|].
    cbn beta. intros b s2 (H2 & Hm2 & Ha2). assert (meanwhile s s2) by by etrans.
    destruct b; split_and!; try done; congruence.
  - intros fd s1 (Hp & H1 & Hm & Ha). eapply runs_mono; [by apply main_turn_away_spec|].
    cbn beta. intros [] s2 (H2 & Hm2 & Ha2). split; [done|]. split; [by etrans|congruence].
Qed.

Lemma accept_all_spec n s :
  serving [] s → (most - accepts (log s) < n)%nat →
  runs (accept_all stamp source fuel n) (λ _ s', serving [] s' ∧ meanwhile s s') s.
Proof using All.
  revert s. induction n as [|n IH]; intros s Hs Hn; [lia|]. cbn [accept_all].
  apply runs_bind. eapply runs_mono; [eapply yield_spec; [done..|apply Hs]|].
  cbn beta. intros [] s1 (H1 & Hm1 & _). apply runs_bind, runs_gets, runs_bind.
  assert (serving [] s1) as Hs1 by by eapply (serving_meanwhile [] _ s).
  eapply runs_mono; [by apply accept_step_spec|]. cbn beta. intros [] s2 (H2 & Hm2 & Ha).
  - pose proof (same_accepts _ _ Hm1). pose proof (books_most _ _ _ _ _ (proj1 H2)).
    specialize (Ha eq_refl). eapply runs_mono; [apply IH; [done|lia]|].
    cbn beta. intros [] s3 [H3 Hm3]. split; [done|]. by do 2 (etrans; [eassumption|]).
  - apply runs_ret. split; [done|]. by etrans.
Qed.

(** ** The loop over [poll] *)

(** [poll] failed for good, as its last call; the listening socket is the
    one polled. *)
Definition poll_failed (s : env) : Prop := ∃ errno tr,
  errno ≠ EINTR ∧
  log s = EvPoll (get (listenFd (mine s))) POLLIN 500 (Fail errno) :: tr.

Lemma main_loop_spec n s :
  serving [] s → signalled n s →
  ends (main_loop stamp source fuel n)
    (λ _ s', serving [] s' ∧ meanwhile s s' ∧ stopRequested (mine s') = true)
    (λ _ s', serving [] s' ∧ meanwhile s s' ∧ poll_failed s') s.
Proof using All.
  revert s. induction n as [|n IH]; intros s Hs Hsig; cbn [main_loop];
    apply ends_after, runs_gets; destruct (stopRequested (mine s)) eqn:Hstop;
    try (apply ends_runs, runs_ret; by split_and!).
  { exfalso. destruct Hsig as [|Hin]; [congruence|]. by apply not_elem_of_nil in Hin. }
  apply ends_after. eapply runs_mono; [eapply yield_spec; [done..|apply Hs]|].
  cbn beta. intros [] s1 (H1 & Hm1 & Hs1). specialize (Hs1 n Hsig).
  set (fd := get (listenFd (mine s))). set (r := k_poll (log s1) fd POLLIN 500).
  set (s2 := mkEnv (mine s1) (threads s1) (checker s1) (metrics s1) (pool s1)
    (EvPoll fd POLLIN 500 r :: log s1)).
  apply ends_after. exists r, s2. split; [done|].
  assert (meanwhile s1 s2) as Hm2 by by split.
  assert (serving [] s2) as H2.
  { apply (serving_meanwhile [] _ s); [done| |by etrans]. destruct H1. split; cbn; try done. by eapply estate_hushed; [apply hushed_event|]. }
  assert (meanwhile s s2) as Hm by by etrans.
  assert (signalled n s2) as Hs2 by by apply Hm2.
  assert (∀ s3, serving [] s3 → meanwhile s2 s3 → ends (main_loop stamp source fuel n)
    (λ _ s', serving [] s' ∧ meanwhile s s' ∧ stopRequested (mine s') = true)
    (λ _ s', serving [] s' ∧ meanwhile s s' ∧ poll_failed s') s3) as Hnext.
  { intros s3 H3 Hm3. eapply ends_mono; [apply IH; [done|by apply Hm3]|..];
      cbn beta; intros ? s4 (H4 & Hm4 & Hp); (split; [done|]);
      (split; [|done]); by do 2 (etrans; [eassumption|]). }
  destruct r as [[ready revents]|errno] eqn:Hr; fold s2.
  - destruct (_ || _).
    + apply ends_after, runs_ret. by apply Hnext.
    + apply ends_after. eapply runs_mono.
      { apply accept_all_spec; [done|]. destruct Hfuel. lia. }
      cbn beta. intros [] s3 [H3 Hm3]. by apply Hnext.
  - destruct (Z.eqb_spec errno EINTR) as [->|He]; [by apply Hnext|].
    apply ends_throw. split; [done|]. split; [done|]. exists errno, (log s1). split; [done|].
    subst s2 fd. cbn. by rewrite (same_listen _ _ Hm1).
Qed.
End accept.

End MainAccept.
