(* ===== verification/MainStop.v ===== *)
(** * Shutdown

    Stopping and joining the threads, and the destructors: every thread ends,
    and what it owned is given back. *)

From S2P Require Import Prelude Text Posix Streams ByteBuffer UniqueFd Metrics Logger Config Net Backend BackendPool HealthChecker ProxySession SessionSteps SessionStream SessionEstate SessionEvents Acceptor Traces Worker WorkerTrace WorkerInvariant WorkerSessions WorkerTurn WorkerRun Main MainInvariant MainSteps.
Local Open Scope Z_scope.

Module MainStop.
Import UniqueFd (UniqueFd, mkUniqueFd, get).
Import Worker (MapOrder, running_, thread_, Starting, Ended).
Import Streams Traces WorkerTrace WorkerInvariant WorkerTurn WorkerRun Main MainInvariant MainSteps.

Section stop.
Context {K : Kernel} {KL : KernelLaws K} {MO : MapOrder}.
Context (signals wakes most : nat) (cap : Z) `{!FewInterrupts K signals} `{!WakeLaws K wakes}.
Context `{!FewClients K most} `{!SteadyEpoll K}.
Context (stamp : trace → string) (source : string) (fuel : nat).
Context (C : Config.AppConfig) (extra : list Z).
Context (Hmost : Z.of_nat most < 2 ^ 53 - 1) (Hcap : cap < 2 ^ 63).
Context (Hsize : 0 < Config.bufferSize C <= cap).
Context (Hfuel : enough signals wakes most cap fuel).

(** ** Workers *)

(** Worker [j] has been told to stop; its thread is gone. *)
Definition told (j : nat) (s : env) : Prop :=
  ∀ t, threads s !! j = Some t → running_ (worker t) = false.
Definition ended (j : nat) (s : env) : Prop :=
  ∀ t, threads s !! j = Some t → at_ t = Ended.

Lemma told_meanwhile j s s' : meanwhile s s' → told j s → told j s'.
Proof using Type.
  intros [Hf] Ht t' Ht'. destruct (Forall2_lookup_r _ _ _ _ _ Hf Ht') as (t & Hj & Hr & _).
  rewrite Hr. by apply Ht.
Qed.

Lemma ended_meanwhile j s s' : meanwhile s s' → ended j s → ended j s'.
Proof using Type.
  intros [Hf] Ht t' Ht'. destruct (Forall2_lookup_r _ _ _ _ _ Hf Ht') as (t & Hj & _ & He).
  by apply (proj1 He), Ht.
Qed.

Lemma stop_worker_spec j t s :
  books C most [] extra s → threads s !! j = Some t →
  runs (on_thread j Worker.stop) (λ _ s', books C most [] extra s' ∧ told j s' ∧
    (∀ k, k ≠ j → threads s' !! k = threads s !! k) ∧
    (∀ t', threads s' !! j = Some t' → at_ t' = at_ t) ∧
    length (threads s') = length (threads s) ∧ mine s' = mine s ∧ checker s' = checker s) s.
Proof using KL MO Hmost Hcap Hsize.
  intros Hb Ht.
  destruct (books_bounded C most [] extra s j t Hb Ht) as (HW & Htk & Hpos & Hoth); [done|lia|].
  cbn [length] in Htk. set (n := Z.to_nat (2 ^ 53 - 1 - taken t)).
  pose proof (books_most _ _ _ _ _ Hb) as Hmo.
  assert (sound C t) as Hsound by (eapply (Forall_lookup_1 (sound C)); [apply Hb|done]).
  assert (inv (around C (delete j (threads s)) extra t) [] n (focus t s)) as Hinv.
  { apply (books_focus C most [] extra); [done..|]. subst n. lia. }
  eapply runs_mono.
  { eapply runs_on_thread; [exact Ht|].
    apply (runs_preserves (λ e, accepts (Worker.log e) = accepts (log s) )); [|done|].
    - apply (keeps_stop (λ tr, accepts tr = accepts (log s))).
    - by apply (stop_spec (around C (delete j (threads s)) extra t) n). }
  cbn beta. intros [] s1 (e & Hm & ((H1 & Hr) & Ha) & ->).
  assert (j < length (threads s))%nat by by eapply lookup_lt_Some.
  split; [|split; [|split; [|split; [|split]]]]; cbn.
  - eapply books_unfocus; [done|done|done| |by rewrite Ha|done|].
    + rewrite Ha. subst n. cbn [length]. lia.
    + intros He. destruct (sound_gone C t Hsound He) as (Hh & Hq & Hs & Hf).
      split; [|done]. unfold vacant. clear -Hm Hh Hq Hs Hf.
      unfold Worker.stop, Worker.on_worker, gets, modify, mbind, ST_bind in Hm. cbn in Hm.
      destruct (running_ (worker t)); by injection Hm as <-.
  - intros t'. cbn. rewrite list_lookup_insert_eq by done. by intros [= <-].
  - intros k Hk. by rewrite list_lookup_insert_ne.
  - intros t'. rewrite list_lookup_insert_eq by done. by intros [= <-].
  - by rewrite length_insert.
  - done.
Qed.

(** A thread told to stop ends in at most two steps. *)
Lemma await_worker_spec n j s :
  books C most [] extra s → told j s → (2 ≤ n)%nat →
  runs (await_worker fuel n j) (λ _ s', books C most [] extra s' ∧ meanwhile s s' ∧ ended j s') s.
Proof using All.
  intros Hb Ht Hn.
  assert (∀ n s, books C most [] extra s → ended j s →
    runs (await_worker fuel n j) (λ _ s', s' = s) s) as Hdone.
  { clear. intros n s _ He. destruct n; cbn [await_worker]; apply runs_bind, runs_gets;
      (destruct (threads s !! j) as [t|] eqn:Hj; cbn; [rewrite (He t Hj)|]); by apply runs_ret. }
  assert (∀ n s, books C most [] extra s → told j s →
    (∀ t, threads s !! j = Some t → at_ t ≠ Starting) → (1 ≤ n)%nat →
    runs (await_worker fuel n j) (λ _ s', books C most [] extra s' ∧ meanwhile s s' ∧ ended j s') s)
    as Hlast.
  { clear Hb Ht Hn s n. intros n s Hb Ht Hst Hn. destruct n as [|n]; [lia|].
    destruct (threads s !! j) as [t|] eqn:Hj.
    2: { eapply runs_mono; [apply Hdone; [done|intros t; by rewrite Hj]|].
         intros [] s' ->. split; [done|]. split; [done|]. intros t. by rewrite Hj. }
    assert (sound C t) as Hs by (eapply (Forall_lookup_1 (sound C)); [apply Hb|done]).
    destruct (at_ t) as [|last|] eqn:Hat.
    - by destruct (Hst t).
    - destruct (sound_joinable C t Hs) as [Hth|]; [|congruence].
      cbn [await_worker]. apply runs_bind, runs_gets. rewrite Hj. cbn. rewrite Hat.
      apply runs_bind. eapply runs_mono; [by eapply serve_thread_spec|].
      cbn beta. intros [] s1 (H1 & Hm1 & Hp). destruct (Hp t Hj Hth) as (t' & Hj' & _ & Hend).
      assert (ended j s1) as He.
      { intros t'' Hj''. simplify_eq. apply Hend; [by apply Ht|by rewrite Hat]. }
      eapply runs_mono; [by apply Hdone|]. by intros [] s' ->.
    - assert (ended j s) as Hend by (intros t' Hj'; congruence).
      eapply runs_mono; [by apply Hdone|]. by intros [] s' ->. }
  destruct (threads s !! j) as [t|] eqn:Hj.
  2: { apply Hlast; [done|done| |lia]. intros t. by rewrite Hj. }
  destruct (at_ t) eqn:Hat.
  2,3: apply Hlast; [done|done| |lia]; intros t' Hj'; simplify_eq; by rewrite Hat.
  destruct n as [|n]; [lia|]. cbn [await_worker]. apply runs_bind, runs_gets. rewrite Hj. cbn. rewrite Hat.
  assert (sound C t) as Hs by (eapply (Forall_lookup_1 (sound C)); [apply Hb|done]).
  destruct (sound_joinable C t Hs) as [Hth|]; [|congruence].
  apply runs_bind. eapply runs_mono; [by eapply serve_thread_spec|].
  cbn beta. intros [] s1 (H1 & Hm1 & Hp). destruct (Hp t Hj Hth) as (t' & Hj' & Hst & _).
  eapply runs_mono; [apply Hlast; [done|by eapply told_meanwhile| |lia]|].
  - intros t'' Hj''. by simplify_eq.
  - cbn beta. intros [] s2 (H2 & Hm2 & He). split; [done|]. split; [by etrans|done].
Qed.

(** [join()] on a thread that is gone only clears a flag. *)
Lemma join_flag j t s :
  books C most [] extra s → threads s !! j = Some t → at_ t = Ended →
  runs (on_thread j Worker.join) (λ _ s', books C most [] extra s' ∧ meanwhile s s') s.
Proof using Type.
  intros Hb Ht He.
  assert (∃ w, Worker.join (focus t s) = (Val tt, Worker.mkWenv w (heap t) (metrics s) (pool s) (log s)) ∧
    (w = worker t ∨ w = Worker.set_thread false (worker t))) as (w & Hj & Hw).
  { unfold Worker.join, Worker.on_worker, gets, modify, mbind, ST_bind. cbn.
    destruct (thread_ (worker t)); eexists; (split; [done|]); auto. }
  eapply runs_mono; [eapply (runs_on_thread _ _ _ (λ _ e,
    e = Worker.mkWenv w (heap t) (metrics s) (pool s) (log s))); [exact Ht|by eexists _, _]|].
  cbn beta. intros [] s1 (e & _ & -> & ->). set (t' := mkThread w (heap t) (at_ t)).
  assert (claims_of t' = claims_of t ∧ (∀ i, leased i t' = leased i t) ∧ active t' = active t ∧
    taken t' = taken t ∧ running_ w = running_ (worker t)) as (H1 & H2 & H3 & H4 & H5)
    by by destruct Hw as [-> | ->].
  assert (<[j := t']> (threads s) !! j = Some t') as Ht'
    by by apply list_lookup_insert_eq, lookup_lt_Some with t.
  pose proof (delete_insert_same (threads s) j t') as Hd.
  assert (∀ f, f t' = f t → total f (<[j := t']> (threads s)) = total f (threads s)) as Htot.
  { intros f Hf. by rewrite (total_delete f j _ t' Ht'), Hd, Hf, <- total_delete. }
  unfold unfocus. cbn. fold t'. split.
  - destruct Hb. split; cbn; try done.
    + apply Forall_insert; [done|].
      assert (sound C t) as [] by by eapply (Forall_lookup_1 (sound C)).
      destruct Hw as [-> | ->]; split; try done; [by destruct sound_linked0|by destruct sound_numbered0|].
      by right.
    + eapply estate_proper; [|done|exact books_estate0].
      by rewrite (threads_delete j _ t' Ht'), Hd, H1, <- threads_delete.
    + eapply BackendPool.accounts_ext; [|exact books_leases0]. intros i. cbn beta. by rewrite Htot.
    + by rewrite Htot.
    + by rewrite Htot.
  - split; cbn; try done.
    rewrite <- (list_insert_id (threads s) j t) at 1 by done. apply Forall2_insert; [reflexivity|].
    split; [done|]. split; [done|]. unfold settled. cbn. by rewrite H5.
Qed.

Lemma join_worker_spec j t s :
  books C most [] extra s → threads s !! j = Some t → told j s →
  runs (join_worker stamp source fuel j) (λ _ s', books C most [] extra s' ∧ meanwhile s s' ∧
    ended j s') s.
Proof using All.
  intros Hb Hj Ht. unfold join_worker. apply runs_bind.
  eapply runs_mono; [by eapply yield_spec|]. cbn beta. intros [] s1 (H1 & Hm1 & _).
  apply runs_bind, runs_gets, runs_bind.
  assert (∃ t1, threads s1 !! j = Some t1) as (t1 & Hj1).
  { destruct Hm1 as [Hf]. destruct (Forall2_lookup_l _ _ _ _ _ Hf Hj) as (t1 & Hj1 & _). by exists t1. }
  eapply runs_mono with (R := λ _ s', books C most [] extra s' ∧ meanwhile s s' ∧ ended j s').
  - unfold joinable. rewrite Hj1. destruct (thread_ (worker t1)) eqn:Hth.
    + eapply runs_mono; [apply await_worker_spec; [done|by eapply told_meanwhile|destruct Hfuel; lia]|].
      cbn beta. intros [] s2 (H2 & Hm2 & He). split; [done|]. split; [by etrans|done].
    + apply runs_ret. split; [done|]. split; [done|]. intros t' Hj'.
      assert (sound C t1) as Hs by (eapply (Forall_lookup_1 (sound C)); [apply H1|done]).
      destruct (sound_joinable C t1 Hs); congruence.
  - cbn beta. intros [] s2 (H2 & Hm2 & He).
    destruct Hm2 as [Hf] eqn:E. destruct (Forall2_lookup_l _ _ _ _ _ Hf Hj) as (t2 & Hj2 & _). clear E.
    eapply runs_mono; [by apply (join_flag j t2); [| |apply He]|].
    cbn beta. intros [] s3 [H3 Hm3]. split; [done|]. split; [by etrans|by eapply ended_meanwhile].
Qed.

(** ** The members of a worker *)

Lemma destroy_members_spec (e : Worker.env) epoll wake L :
  vacant e → get (Worker.epollFd_ (Worker.worker e)) = epoll →
  get (Worker.wakeFd_ (Worker.worker e)) = wake → 0 <= epoll → 0 <= wake →
  estate (Held epoll :: Held wake :: L) (Worker.log e) →
  runs Worker.destroy_members (λ _ e', estate L (Worker.log e') ∧
    Worker.metrics e' = Worker.metrics e ∧ Worker.pool e' = Worker.pool e ∧
    accepts (Worker.log e') = accepts (Worker.log e)) e.
Proof using MO most.
  intros (_ & _ & Hs & _) <- <- He Hw Hl. unfold Worker.destroy_members.
  apply runs_bind, runs_gets. rewrite Hs.
  assert (Worker.visit (Worker.log e) ∅ = []) as ->.
  { apply Permutation_nil_r. etrans; [apply Worker.visit_all|]. by rewrite map_to_list_empty. }
  unfold Worker.on_worker. do 2 apply runs_bind, runs_modify. cbn [for_each].
  apply runs_bind, runs_ret. apply runs_bind, runs_modify.
  unfold UniqueFd.destroy, UniqueFd.reset. unfold get in *.
  destruct (Z.leb_spec 0 (UniqueFd.fd_ (Worker.epollFd_ (Worker.worker e)))); [|lia].
  destruct (Z.leb_spec 0 (UniqueFd.fd_ (Worker.wakeFd_ (Worker.worker e)))); [|lia].
  eexists tt, _. split; [reflexivity|]. cbn. split; [|done].
  apply estate_close, estate_close. eapply estate_proper; [|done|exact Hl]. constructor.
Qed.

(** ** The health checker and the statistics *)

Lemma await_checker_spec n s :
  books C most [] extra s → HealthChecker.thread_ (checker s) = true →
  HealthChecker.running_ (checker s) = false → (2 ≤ n)%nat →
  runs (await_checker fuel n) (λ _ s', books C most [] extra s' ∧ meanwhile s s') s.
Proof using All.
  intros Hb Ht Hr Hn.
  assert (∀ n s, books C most [] extra s → HealthChecker.thread_ (checker s) = true →
    HealthChecker.running_ (checker s) = false → checkerAt (mine s) ≠ AtStart → (1 ≤ n)%nat →
    runs (await_checker fuel n) (λ _ s', books C most [] extra s' ∧ meanwhile s s') s) as Hlast.
  { clear Hb Ht Hr Hn s n. intros [|n] s Hb Ht Hr Hst Hn; [lia|]. cbn [await_checker].
    apply runs_bind, runs_gets.
    assert (runs (check fuel ;; await_checker fuel n) (λ _ s', books C most [] extra s' ∧ meanwhile s s') s)
      as Hgo.
    { apply runs_bind. eapply runs_mono; [by eapply check_spec|]. cbn beta.
      intros [] s1 (H1 & Hm1 & Hp). specialize (Hp Ht Hr).
      assert (checkerAt (mine s1) = Done) as Hd by by destruct (checkerAt (mine s)).
      destruct n; cbn [await_checker]; apply runs_bind, runs_gets; rewrite Hd; by apply runs_ret. }
    destruct (checkerAt (mine s)); try done. by apply runs_ret. }
  destruct (checkerAt (mine s)) eqn:Hat.
  2-4: apply Hlast; [done|done|done|by rewrite Hat|lia].
  destruct n as [|n]; [lia|]. cbn [await_checker]. apply runs_bind, runs_gets. rewrite Hat.
  apply runs_bind. eapply runs_mono; [by eapply check_spec|]. cbn beta.
  intros [] s1 (H1 & Hm1 & Hp). specialize (Hp Ht Hr). rewrite Hat in Hp.
  eapply runs_mono; [apply Hlast; [done|..|lia]|].
  - by rewrite (same_checker _ _ Hm1).
  - by rewrite (same_running _ _ Hm1).
  - by rewrite Hp.
  - cbn beta. intros [] s2 [H2 Hm2]. split; [done|by etrans].
Qed.

(** What joining the checker leaves of the state. *)
Definition checker_joined (s s' : env) : Prop :=
  ∃ s1, meanwhile s s1 ∧ HealthChecker.thread_ (checker s') = false ∧
    s' = mkEnv (mine s1) (threads s1) (checker s') (metrics s1) (pool s1) (log s1).

Lemma join_checker_spec s :
  books C most [] extra s → HealthChecker.running_ (checker s) = false →
  runs (join_checker stamp source fuel) (λ _ s', books C most [] extra s' ∧ checker_joined s s') s.
Proof using All.
  intros Hb Hr. unfold join_checker. apply runs_bind.
  eapply runs_mono; [by eapply yield_spec|]. cbn beta. intros [] s1 (H1 & Hm1 & _).
  apply runs_bind, runs_gets, runs_bind.
  eapply runs_mono with (R := λ _ s', books C most [] extra s' ∧ meanwhile s1 s').
  { destruct (HealthChecker.thread_ (checker s1)) eqn:Ht; [|by apply runs_ret].
    apply await_checker_spec; [done|done|by rewrite (same_running _ _ Hm1)|destruct Hfuel; lia]. }
  cbn beta. intros [] s2 [H2 Hm2]. unfold runs, on_checker, HealthChecker.join, HealthChecker.set_checker,
    gets, modify, mbind, ST_bind, mret, ST_ret. cbn.
  destruct (HealthChecker.thread_ (checker s2)) eqn:Ht; cbn; eexists tt, _; (split; [reflexivity|]);
    (split; [by eapply books_same, H2|]); exists s2; (split; [by etrans|]); done.
Qed.

Lemma join_stats_spec s :
  books C most [] extra s → statsRunning (mine s) = false → is_Some (statsThread (mine s)) →
  runs (join_stats stamp source fuel) (λ _ s', books C most [] extra s' ∧
    ∃ s1, meanwhile s s1 ∧ s' = mkEnv (set_statsThread None (mine s1)) (threads s1) (checker s1)
      (metrics s1) (pool s1) (log s1)) s.
Proof using All.
  intros Hb Hr Hst. unfold join_stats. apply runs_bind.
  eapply runs_mono; [by eapply yield_spec|]. cbn beta. intros [] s1 (H1 & Hm1 & _).
  apply runs_bind.
  eapply runs_mono with (R := λ _ s', books C most [] extra s' ∧ meanwhile s1 s').
  { destruct Hfuel as [_ _ _ _ Hn]. destruct fuel as [|n]; [lia|]. cbn [await_stats].
    apply runs_bind, runs_gets. destruct (statsThread (mine s1)) as [st|] eqn:Hs1; [|by apply runs_ret].
    destruct (gone st); [by apply runs_ret|]. apply runs_bind.
    eapply runs_mono; [by eapply nap_spec|]. cbn beta. intros [] s2 (H2 & Hm2 & Hg).
    destruct (Hg st Hs1) as (st' & Hs2 & Hg'); [by rewrite (same_reporting _ _ Hm1)|].
    destruct n; cbn [await_stats]; apply runs_bind, runs_gets; rewrite Hs2, Hg'; by apply runs_ret. }
  cbn beta. intros [] s2 [H2 Hm2]. apply runs_modify.
  split; [by eapply books_same, H2|]. exists s2. split; [by etrans|done].
Qed.

(** ** Leaving the [try] block *)

(** The first worker of the vector is destroyed. *)
Lemma destroy_worker_spec t ts s :
  books C most [] extra s → threads s = t :: ts →
  runs (destroy_worker stamp source fuel) (λ _ s', books C most [] extra s' ∧
    length (threads s') = length ts ∧ listenFd (mine s') = listenFd (mine s)) s.
Proof using All.
  intros Hb Hts. assert (threads s !! O = Some t) as Ht by by rewrite Hts.
  unfold destroy_worker. apply runs_bind. eapply runs_mono; [by apply (stop_worker_spec 0 t)|].
  cbn beta. intros [] s1 (H1 & Htold & _ & _ & Hlen & Hm1 & _).
  destruct (threads s1) as [|t1 ts1] eqn:Hts1; [by rewrite Hts in Hlen|].
  apply runs_bind. eapply runs_mono; [by apply (join_worker_spec 0 t1); [| rewrite Hts1|]|].
  cbn beta. intros [] s2 (H2 & Hm2 & He).
  pose proof (Forall2_length _ _ _ (same_threads _ _ Hm2)) as Hlen2.
  destruct (threads s2) as [|t2 ts2] eqn:Hts2; [by rewrite Hts1 in Hlen2|].
  assert (threads s2 !! O = Some t2) as Ht2 by by rewrite Hts2.
  specialize (He t2 Ht2). destruct H2.
  assert (sound C t2) as Hs by by eapply (Forall_lookup_1 (sound C)).
  destruct (sound_gone C t2 Hs He) as (Hh & Hq & Hse & Hf), (sound_open C t2 Hs).
  assert (claims_of t2 =
    [Held (get (Worker.epollFd_ (worker t2))); Held (get (Worker.wakeFd_ (worker t2)))]) as Hfds.
  { unfold claims_of, queue_claims. by rewrite Hh, Hq. }
  apply runs_bind. eapply runs_mono.
  { eapply (runs_on_thread 0 t2); [done|].
    eapply (destroy_members_spec _ _ _ ((ts2 ≫= claims_of) ++ (Held <$> extra)));
      [by split_and!|reflexivity|reflexivity|done|done|].
    rewrite Hts2 in books_estate0. cbn in books_estate0. rewrite Hfds in books_estate0.
    eapply estate_proper; [|done|exact books_estate0]. done. }
  cbn beta. intros [] s3 (e & _ & (Hl & Hme & Hpe & Hae) & ->). apply runs_modify.
  assert (delete 0%nat (threads (unfocus 0 (at_ t2) e s2)) = ts2) as Hd
    by (cbn; by rewrite Hts2).
  cbn [focus Worker.metrics Worker.pool Worker.log] in *.
  rewrite Hts2 in *. pose proof (sound_bounds C t2 Hs) as [Htk _].
  apply Forall_cons in books_sound0 as [_ Hts2s].
  split; [|split; [|cbn]].
  - split; rewrite ?Hd; cbn [mine threads metrics pool log unfocus].
    + done.
    + done.
    + rewrite Hpe. eapply BackendPool.accounts_ext; [|exact books_leases0]. intros i. cbn beta.
      rewrite total_cons. unfold leased at 1. rewrite Hh, held_empty. lia.
    + rewrite Hme, books_gauge0, total_cons. unfold active at 1. rewrite Hse, map_size_empty. lia.
    + rewrite Hae, total_cons in *. cbn in *. lia.
    + by rewrite Hae.
  - rewrite Hd. rewrite Hts1 in Hlen2. rewrite Hts in Hlen. cbn in *. lia.
  - rewrite (same_listen _ _ Hm2). by rewrite Hm1.
Qed.

Lemma destroy_workers_spec n s :
  books C most [] extra s → length (threads s) = n →
  runs (for_each (λ _, destroy_worker stamp source fuel) (seq 0 n)) (λ _ s',
    books C most [] extra s' ∧ threads s' = [] ∧ listenFd (mine s') = listenFd (mine s)) s.
Proof using All.
  generalize 0%nat at 1 as k. revert s. induction n as [|n IH]; intros s k Hb Hn; cbn [seq for_each].
  { apply runs_ret. split; [done|]. split; [|done]. by apply nil_length_inv. }
  destruct (threads s) as [|t ts] eqn:Hts; [done|]. apply runs_bind.
  eapply runs_mono; [by apply (destroy_worker_spec t ts)|]. cbn beta. intros [] s1 (H1 & Hl & Hf).
  eapply runs_mono; [apply IH; [done|cbn in Hn; lia]|]. cbn beta.
  intros [] s2 (H2 & Ht & Hf2). split; [done|]. split; [done|congruence].
Qed.
End stop.

(** The descriptor a handle owns. *)
Definition owned (u : UniqueFd) : list Z := if 0 <=? get u then [get u] else [].

(** Nothing of the process is left. *)
Definition released (s : env) : Prop :=
  threads s = [] ∧ HealthChecker.thread_ (checker s) = false ∧
  estate [] (log s) ∧ Metrics.active_ (metrics s) = 0 ∧
  Forall (λ b, Backend.activeConnections b = 0) (BackendPool.backends_ (pool s)).

Section leave.
Context {K : Kernel} {KL : KernelLaws K} {MO : MapOrder}.
Context (signals wakes most : nat) (cap : Z) `{!FewInterrupts K signals} `{!WakeLaws K wakes}.
Context `{!FewClients K most} `{!SteadyEpoll K}.
Context (stamp : trace → string) (source : string) (fuel : nat).
Context (C : Config.AppConfig).
Context (Hmost : Z.of_nat most < 2 ^ 53 - 1) (Hcap : cap < 2 ^ 63).
Context (Hsize : 0 < Config.bufferSize C <= cap).
Context (Hfuel : enough signals wakes most cap fuel).

Lemma leave_spec s :
  books C most [] (owned (listenFd (mine s))) s → statsThread (mine s) = None →
  runs (leave stamp source fuel) (λ alive s', alive = true ∧ released s') s.
Proof using All.
  intros Hb Hst. set (extra := owned (listenFd (mine s))) in *.
  unfold leave. apply runs_bind, runs_gets. rewrite Hst. apply runs_bind.
  eapply runs_mono; [by eapply destroy_workers_spec|]. cbn beta. intros [] s1 (H1 & Ht1 & Hf1).
  apply runs_bind. unfold destroy_checker. apply runs_bind.
  set (s2 := mkEnv (mine s1) (threads s1) (HealthChecker.set_running false (checker s1))
    (metrics s1) (pool s1) (log s1)).
  exists tt, s2. split; [done|]. assert (books C most [] extra s2) as H2 by by eapply books_same, H1.
  eapply runs_mono; [by eapply join_checker_spec|].
  cbn beta. intros [] s3 (H3 & s0 & Hm & Hth & Heq).
  assert (threads s3 = []) as Ht3.
  { rewrite Heq. pose proof (same_threads _ _ Hm) as Hf. cbn in Hf. rewrite Ht1 in Hf.
    cbn. by apply Forall2_nil_inv_l in Hf. }
  destruct H3. rewrite Ht3 in *. cbn in books_estate0.
  apply runs_bind. assert (runs (UniqueFd.destroy (listenFd (mine s))) (λ _ s', released s') s3) as Hd.
  { unfold UniqueFd.destroy, UniqueFd.reset. subst extra. unfold owned, get in *.
    assert (Forall (λ b, Backend.activeConnections b = 0) (BackendPool.backends_ (pool s3))) as Hac.
    { destruct books_leases0 as (_ & _ & _ & Ha). apply Forall_lookup. intros i b Hi.
      by destruct (Ha i b Hi) as [_ ->]. }
    destruct (0 <=? _).
    - eexists _, _. split; [done|]. split_and!; try done. by apply estate_close.
    - apply runs_ret. by split_and!. }
  eapply runs_mono; [exact Hd|]. cbn beta. intros [] s4 Hr. apply runs_bind, runs_modify, runs_ret.
  by split.
Qed.
End leave.
End MainStop.
