(* ===== verification/MainRun.v ===== *)
(** * The process from [main] to its exit

    The ordered shutdown, the service between start-up and shutdown, and the
    [try] block as a whole. *)

From S2P Require Import Prelude Text Posix Streams ByteBuffer UniqueFd Metrics Logger Config Net Backend BackendPool HealthChecker ProxySession SessionSteps SessionStream SessionEstate SessionEvents Acceptor Traces Worker WorkerTrace WorkerInvariant WorkerSessions WorkerTurn WorkerRun Main MainInvariant MainSteps MainStart MainAccept MainStop.
Local Open Scope Z_scope.

Module MainRun.
Import UniqueFd (UniqueFd, mkUniqueFd, get).
Import Worker (MapOrder, running_, thread_, Starting, Ended).
Import Streams Traces WorkerTrace WorkerInvariant WorkerTurn WorkerRun Main MainInvariant MainSteps MainStart MainAccept MainStop.

Lemma told_beyond j s : (length (threads s) ≤ j)%nat → told j s.
Proof. intros Hj t Ht. apply lookup_lt_Some in Ht. lia. Qed.

Lemma parse_from_finishes args options : parse_from args options ≠ NoFuel.
Proof.
  remember (length args) as n eqn:Hn. revert args options Hn.
  induction n as [n IH] using lt_wf_ind. intros args options ->. destruct args as [|a args]; [done|].
  cbn [parse_from].
  destruct (_ || _), args as [|path rest]; repeat case_match; try done;
    (eapply IH; [|reflexivity]; cbn; lia).
Qed.

Lemma parseOptions_finishes args : parseOptions args ≠ NoFuel.
Proof. apply parse_from_finishes. Qed.

Section shutdown.
Context {K : Kernel} {KL : KernelLaws K} {MO : MapOrder}.
Context (signals wakes most : nat) (cap : Z) `{!FewInterrupts K signals} `{!WakeLaws K wakes}.
Context `{!FewClients K most} `{!SteadyEpoll K}.
Context (stamp : trace → string) (source : string) (fuel : nat).
Context (C : Config.AppConfig) (extra : list Z).
Context (Hmost : Z.of_nat most < 2 ^ 53 - 1) (Hcap : cap < 2 ^ 63).
Context (Hsize : 0 < Config.bufferSize C <= cap).
Context (Hfuel : enough signals wakes most cap fuel).

(** The stopping loop leaves every worker told. *)
Lemma stop_workers_spec n s :
  books C most [] extra s → length (threads s) = n →
  HealthChecker.running_ (checker s) = false →
  runs (for_each (λ j, on_thread j Worker.stop ;; yield stamp source fuel) (seq 0 n))
    (λ _ s', books C most [] extra s' ∧ length (threads s') = n ∧
      HealthChecker.running_ (checker s') = false ∧ listenFd (mine s') = listenFd (mine s) ∧
      ∀ j, told j s') s.
Proof using All.
  intros Hb Hn Hr. eapply runs_mono.
  { apply (runs_for_each _ (λ l s', books C most [] extra s' ∧ length (threads s') = n ∧
      HealthChecker.running_ (checker s') = false ∧ listenFd (mine s') = listenFd (mine s) ∧
      (∀ j, j ∉ l → told j s') ∧ ∀ j, j ∈ l → (j < n)%nat)).
    - split_and!; try done; intros j Hj; [|by apply elem_of_seq in Hj; lia].
      apply told_beyond. rewrite Hn. destruct (decide (j < n)%nat) as [|]; [|lia].
      destruct Hj. apply elem_of_seq. lia.
    - intros j l s1 (H1 & Hn1 & Hr1 & Hf1 & Ht1 & Hl).
      destruct (lookup_lt_is_Some_2 (threads s1) j) as [t Ht].
      { rewrite Hn1. apply Hl, list_elem_of_here. }
      apply runs_bind. eapply runs_mono; [by apply (stop_worker_spec most cap C extra Hmost Hcap Hsize j t)|].
      cbn beta. intros [] s2 (H2 & Htold & Hk & _ & Hn2 & Hm2 & Hc2).
      eapply runs_mono; [by eapply yield_spec|]. cbn beta. intros [] s3 (H3 & Hm3 & _).
      split; [done|]. split; [by rewrite (meanwhile_length _ _ Hm3), Hn2|].
      split; [by rewrite (same_running _ _ Hm3), Hc2|].
      split; [by rewrite (same_listen _ _ Hm3), Hm2|]. split.
      + intros k Hk'. apply (told_meanwhile _ _ _ Hm3).
        destruct (decide (k = j)) as [->|Hne]; [done|]. intros t'. rewrite Hk by done.
        apply Ht1. intros [|]%elem_of_cons; [done|by apply Hk'].
      + intros k Hk'. by apply Hl, list_elem_of_further. }
  cbn beta. intros [] s' (? & ? & ? & ? & Ht & _). split_and!; try done.
  intros j. apply Ht, not_elem_of_nil.
Qed.

Lemma join_workers_spec n s :
  books C most [] extra s → length (threads s) = n → (∀ j, told j s) →
  runs (for_each (join_worker stamp source fuel) (seq 0 n))
    (λ _ s', books C most [] extra s' ∧ meanwhile s s') s.
Proof using All.
  intros Hb Hn Ht. eapply runs_mono.
  { apply (runs_for_each _ (λ l s', (books C most [] extra s' ∧ meanwhile s s') ∧
      ∀ j, j ∈ l → (j < n)%nat)).
    - split; [by split|]. intros j Hj. apply elem_of_seq in Hj. lia.
    - intros j l s1 [[H1 Hm1] Hl].
      destruct (lookup_lt_is_Some_2 (threads s1) j) as [t Hj].
      { rewrite (meanwhile_length _ _ Hm1), Hn. apply Hl, list_elem_of_here. }
      eapply runs_mono.
      { eapply join_worker_spec; [done..|]. by eapply told_meanwhile. }
      cbn beta. intros [] s2 (H2 & Hm2 & _). split; [split; [done|by etrans]|].
      intros k Hk. by apply Hl, list_elem_of_further. }
  by intros [] s' [? _].
Qed.

Lemma process_shut_down s :
  books C most [] extra s →
  runs (shut_down stamp source fuel) (λ _ s', books C most [] extra s' ∧
    statsThread (mine s') = None ∧ listenFd (mine s') = listenFd (mine s)) s.
Proof using All.
  intros Hb. unfold shut_down. apply runs_bind. eapply runs_mono; [apply log_spec|].
  intros [] s1 H1. destruct (logged_keeps most C [] extra _ _ H1) as (Hb1 & Hm1 & _).
  specialize (Hb1 Hb). apply runs_bind.
  set (s2 := mkEnv (mine s1) (threads s1) (HealthChecker.set_running false (checker s1))
    (metrics s1) (pool s1) (log s1)).
  exists tt, s2. split; [done|]. assert (books C most [] extra s2) as Hb2 by by eapply books_same, Hb1.
  apply runs_bind, runs_gets, runs_bind.
  eapply runs_mono; [by apply stop_workers_spec|]. cbn beta.
  intros [] s3 (Hb3 & Hn3 & Hr3 & Hf3 & Ht3). apply runs_bind.
  eapply runs_mono; [by eapply join_checker_spec|]. cbn beta. intros [] s4 (Hb4 & s0 & Hm4 & _ & Heq).
  assert (length (threads s4) = length (threads s2) ∧ (∀ j, told j s4) ∧
    listenFd (mine s4) = listenFd (mine s2)) as (Hn4 & Ht4 & Hf4).
  { rewrite Heq. cbn. rewrite (meanwhile_length _ _ Hm4), (same_listen _ _ Hm4), Hf3.
    split; [done|]. split; [|done]. intros j. apply (told_meanwhile j _ _ Hm4), Ht3. }
  apply runs_bind. eapply runs_mono; [by apply join_workers_spec|].
  cbn beta. intros [] s5 [Hb5 Hm5]. apply runs_bind, runs_modify.
  set (s6 := mkEnv (set_statsRunning false (mine s5)) (threads s5) (checker s5) (metrics s5)
    (pool s5) (log s5)).
  assert (books C most [] extra s6) as Hb6 by by eapply books_same, Hb5.
  assert (listenFd (mine s6) = listenFd (mine s)) as Hf6.
  { cbn. rewrite (same_listen _ _ Hm5), Hf4. apply (same_listen _ _ Hm1). }
  apply runs_bind, runs_gets, runs_bind.
  eapply runs_mono with (R := λ _ s', books C most [] extra s' ∧ statsThread (mine s') = None ∧
    listenFd (mine s') = listenFd (mine s)).
  - destruct (statsThread (mine s6)) as [st|] eqn:Hst; [|by apply runs_ret].
    eapply runs_mono; [by eapply join_stats_spec|]. cbn beta.
    intros [] s7 (Hb7 & s8 & Hm8 & ->). split; [done|]. split; [done|]. cbn.
    by rewrite (same_listen _ _ Hm8).
  - cbn beta. intros [] s7 (Hb7 & Hst7 & Hf7). apply runs_bind, runs_gets.
    eapply runs_mono; [apply log_spec|]. intros [] s8 H8.
    destruct (logged_keeps most C [] extra _ _ H8) as (Hb8 & Hm8 & Hst8 & _).
    split; [by apply Hb8|]. split; [congruence|]. by rewrite (same_listen _ _ Hm8).
Qed.
End shutdown.

(** ** Service *)

Section service.
Context {K : Kernel} {KL : KernelLaws K} {MO : MapOrder}.
Context (signals wakes most : nat) (cap : Z) `{!FewInterrupts K signals} `{!WakeLaws K wakes}.
Context `{!FewClients K most} `{!SteadyEpoll K}.
Context (stamp : trace → string) (source : string) (fuel : nat) (sigaction : Z → sysret unit).
Context (Hmost : Z.of_nat most < 2 ^ 53 - 1) (Hcap : cap < 2 ^ 63).
Context (Hfuel : enough signals wakes most cap fuel).

Lemma start_workers_spec C extra m k s :
  0 < Config.bufferSize C <= cap →
  books C most [] extra s → length (threads s) = k → Forall settled (threads s) →
  ends (for_each (start_worker stamp source fuel C) (seq k m))
    (λ _ s', books C most [] extra s' ∧ aside s s' ∧ length (threads s') = (k + m)%nat ∧
      Forall settled (threads s'))
    (λ _ s', books C most [] extra s' ∧ aside s s') s.
Proof using All.
  intros Hsize. revert k s. induction m as [|m IH]; intros k s Hb Hk Hset; cbn [seq for_each].
  { split; [done|]. split; [done|]. split; [lia|done]. }
  apply ends_bind. eapply ends_mono; [by eapply start_worker_spec| |done].
  cbn beta. intros [] s1 (H1 & Ha1 & Hk1 & Hset1). eapply ends_mono; [apply IH; auto|..]; cbn beta.
  - intros [] s2 (H2 & Ha2 & Hk2 & Hset2). split; [done|]. split; [by etrans|]. split; [lia|done].
  - intros e s2 [H2 Ha2]. split; [done|by etrans].
Qed.

(** A process that has not begun to serve. *)
Record idle (s : env) : Prop := {
  idle_threads : threads s = [];
  idle_checker : HealthChecker.thread_ (checker s) = false;
  idle_listen : listenFd (mine s) = mkUniqueFd (-1);
  idle_stats : statsThread (mine s) = None;
  idle_cursor : is_u64 (dispatchCursor (mine s));
  idle_estate : estate [] (log s);
  idle_accepts : accepts (log s) = O;
  idle_gauge : Metrics.active_ (metrics s) = 0
}.

Lemma idle_books C s fds :
  idle s → BackendPool.accounts (λ _, 0) (pool s) → estate (Held <$> fds) (log s) →
  books C most [] fds s.
Proof using Type.
  intros [] Hp Hl. split; rewrite ?idle_threads0; cbn; try done.
  - rewrite idle_accepts0. unfold total. cbn. lia.
  - rewrite idle_accepts0. lia.
Qed.

(** What the [try] block leaves behind when it ends early: the books, and
    the statistics thread only after [poll] failed. *)
Definition left_open (C : Config.AppConfig) (s : env) : Prop :=
  books C most [] (owned (listenFd (mine s))) s ∧
  (is_Some (statsThread (mine s)) → poll_failed s).

Lemma listen_step host port backlog s :
  estate [] (log s) →
  ends (Net.createListenSocket host port backlog)
    (λ fd s', ∃ tr, s' = upd tr s ∧ 0 <= fd ∧ estate [Held fd] tr ∧ accepts tr = accepts (log s))
    (λ _ s', ∃ tr, s' = upd tr s ∧ estate [] tr ∧ accepts tr = accepts (log s)) s.
Proof using KL.
  intros He. pose proof (estate_fds _ _ He) as (_ & _ & Hc). eapply ends_mono.
  - eapply (ends_lifts (T := trace) _ _
      (λ fd tr, 0 <= fd ∧ estate [Held fd] tr ∧ accepts tr = accepts (log s))
      (λ _ tr, estate [] tr ∧ accepts tr = accepts (log s))).
    + apply Net.lifts_createListenSocket.
    + pose proof (Net.listen_streams (S := trace) host port backlog (log s) Hc) as Hl.
      pose proof (keeps_listen (S := trace) (λ tr, accepts tr = accepts (log s)) host port backlog
        (log s) eq_refl) as Ha.
      unfold ends. cbn [view env_log Lens_refl] in *.
      destruct (Net.createListenSocket host port backlog (log s)) as [[fd|e|] tr];
        cbn [fst snd] in *; [| |done].
      * destruct Hl as [Hp Hl]. split; [done|]. split; [|done].
        apply (estate_used [fd]). by eapply estate_created.
      * split; [|done]. by eapply estate_hushed.
  - cbn beta. done.
  - cbn beta. done.
Qed.

(** From the accept loop on. *)
Lemma serve_clients C polls s :
  0 < Config.bufferSize C <= cap → serving most C (owned (listenFd (mine s))) [] s →
  signalled polls s →
  ends (main_loop stamp source fuel polls ;; shut_down stamp source fuel ;; mret 0)
    (λ code s', code = 0 ∧ books C most [] (owned (listenFd (mine s'))) s' ∧
      statsThread (mine s') = None)
    (λ _ s', left_open C s') s.
Proof using All.
  intros Hsize Hs Hsig. apply ends_bind.
  eapply ends_mono; [by eapply main_loop_spec|..]; cbn beta.
  - intros [] s1 ((Hb & _) & Hm & _). apply ends_runs, runs_bind.
    eapply runs_mono; [by eapply process_shut_down|]. cbn beta. intros [] s2 (Hb2 & Hst & Hl).
    apply runs_ret. split; [done|]. split; [|done]. by rewrite Hl, (same_listen _ _ Hm).
  - intros e s1 ((Hb & _) & Hm & Hp). split; [|done]. by rewrite (same_listen _ _ Hm).
Qed.

(** The process is up. *)
Definition up (C : Config.AppConfig) (polls : nat) (s : env) : Prop :=
  serving most C (owned (listenFd (mine s))) [] s ∧ signalled polls s.

Lemma up_same C polls s s' :
  threads s' = threads s → metrics s' = metrics s → pool s' = pool s → log s' = log s →
  listenFd (mine s') = listenFd (mine s) → dispatchCursor (mine s') = dispatchCursor (mine s) →
  stopRequested (mine s') = stopRequested (mine s) → schedule (mine s') = schedule (mine s) →
  up C polls s → up C polls s'.
Proof using Type.
  intros Ht Hm Hp Hl Hfd Hd Hr Hsc [(Hb & Hne & Hset & Hc) Hs]. unfold up, serving.
  rewrite Hfd, Ht, Hd. split; [|by eapply signalled_same]. split; [by eapply books_same|done].
Qed.

Lemma announced C polls line text s :
  up C polls s → runs (FG_LOG_INFO stamp source line text) (λ _, up C polls) s.
Proof using Type.
  intros Hu. eapply runs_mono; [apply log_spec|]. intros [] s' [lg ->]. by eapply up_same, Hu.
Qed.

Lemma up_left C polls s : up C polls s → statsThread (mine s) = None → left_open C s.
Proof using Type. intros [(Hb & _) _] Hst. split; [done|]. rewrite Hst. by intros []. Qed.

Lemma stats_started C polls s :
  up C polls s → statsThread (mine s) = None →
  ends (start_stats C) (λ _, up C polls) (λ _, left_open C) s.
Proof using Type.
  intros Hu Hst. unfold start_stats. destruct (0 <? Config.statsIntervalSeconds C); [|done].
  unfold std_thread, gets, mbind, ST_bind. unfold ends. cbn.
  destruct (k_thread (log s)); [by eapply up_same, Hu|by eapply up_left].
Qed.

Lemma checker_started C polls s :
  HealthChecker.running_ (checker s) = false → HealthChecker.thread_ (checker s) = false →
  up C polls s → statsThread (mine s) = None →
  ends (on_checker HealthChecker.start) (λ _ s', up C polls s' ∧ statsThread (mine s') = None)
    (λ _, left_open C) s.
Proof using Type.
  intros Hr Ht Hu Hst. unfold ends, on_checker, HealthChecker.start, HealthChecker.set_checker,
    std_thread, gets, modify, mbind, ST_bind.
  cbn. rewrite Hr. cbn. rewrite Ht. cbn. destruct (k_thread (log s)); cbn.
  - split; [by eapply up_same, Hu|done].
  - eapply up_left; [by eapply up_same, Hu|done].
Qed.

Lemma left_early C raw s s' :
  idle s → listenFd (mine s') = mkUniqueFd raw → owned (mkUniqueFd raw) = [raw] →
  interval <$> statsThread (mine s') = interval <$> statsThread (mine s) →
  books C most [] [raw] s' → left_open C s'.
Proof using Type.
  intros Hi Hl Ho Hst Hb. split; [by rewrite Hl, Ho|]. rewrite (idle_stats _ Hi) in Hst.
  destruct (statsThread (mine s')); [done|by intros []].
Qed.

Lemma start_up_spec C polls s :
  Config.valid_config C → 0 < Config.bufferSize C <= cap → idle s → BackendPool.accounts (λ _, 0) (pool s) → signalled polls s →
  ends (start_up stamp source fuel C) (λ _, up C polls) (λ _, left_open C) s.
Proof using All.
  intros Hv Hsize Hidle Hp Hsig. destruct Hv as ((_ & Hw & _) & _). pose proof Hidle as [].
  unfold start_up.
  apply ends_bind. eapply ends_mono; [by apply listen_step, Hidle| |]; cbn beta.
  2: { intros e s1 (tr & -> & Hl & Ha). split.
    - cbn. rewrite idle_listen0. apply idle_books; [|done|done]. split; cbn; try done. congruence.
    - cbn. by rewrite idle_stats0; intros []. }
  intros raw s1 (tr & -> & Hraw & Hl & Ha). apply ends_after, runs_modify.
  apply ends_after, runs_modify.
  set (s1 := mkEnv _ _ _ _ _ _).
  assert (owned (mkUniqueFd raw) = [raw]) as Howned.
  { unfold owned, get. cbn. destruct (Z.leb_spec 0 raw); [done|lia]. }
  assert (books C most [] [raw] s1) as H1.
  { split; cbn; rewrite ?idle_threads0, ?Ha, ?idle_accepts0; unfold total; cbn; try done; lia. }
  apply ends_bind. eapply ends_mono; [apply start_workers_spec; [done|exact H1|..]|..]; cbn beta.
  { cbn. by rewrite idle_threads0. }
  { cbn. by rewrite idle_threads0. }
  2: { intros e s2 [H2 Ha2]. eapply left_early; [done|exact (same_listen _ _ Ha2)|done| |done].
       exact (same_stats _ _ Ha2). }
  intros [] s2 (H2 & Ha2 & Hn2 & Hset2).
  assert (up C polls s2) as Hup.
  { split; [|by apply (same_signal _ _ Ha2 polls)].
    pose proof (same_listen _ _ Ha2) as Hl2. cbn in Hl2. rewrite Hl2, Howned.
    split; [done|]. split; [|split; [done|by apply (same_cursor _ _ Ha2)]].
    intros E. rewrite E in Hn2. cbn in Hn2. lia. }
  assert (statsThread (mine s2) = None) as Hst2.
  { pose proof (same_stats _ _ Ha2) as Hst. cbn in Hst. rewrite idle_stats0 in Hst.
    by destruct (statsThread (mine s2)). }
  apply ends_bind. eapply ends_mono; [apply (checker_started C polls)|..]; [| |done|done| |done].
  - apply (same_running _ _ Ha2).
  - apply (same_checker _ _ Ha2).
  - cbn beta. intros [] s3 [H3 Hst3]. apply ends_bind.
    eapply ends_mono; [by apply stats_started| |done].
    cbn beta. intros [] s4 H4. by apply ends_runs, announced.
Qed.

(** ** The [try] block *)

Lemma idle_neutral s tr m : idle s → neutral (log s) tr → m = mine s ∨
  (∃ lg, m = set_logger lg (mine s)) ∨ (∃ l, m = set_console l (mine s)) →
  ∀ p, idle (mkEnv m (threads s) (checker s) (metrics s) p tr).
Proof using Type.
  intros [] [Hq Ha] Hm p.
  split; cbn; try done; try (destruct Hm as [-> |[[? ->]|[? ->]]]; done).
  - by eapply estate_hushed.
  - congruence.
Qed.

(** How the [try] block ends: early, with nothing open, or having served. *)
Definition over (s : env) : Prop :=
  idle s ∧ Forall (λ b, Backend.activeConnections b = 0) (BackendPool.backends_ (pool s)) ∨
  ∃ C, 0 < Config.bufferSize C <= cap ∧ left_open C s.

Lemma prepare_spec C s :
  Config.valid_config C → Z.of_nat (length (Config.backends C)) < 2 ^ 32 →
  idle s → BackendPool.backends_ (pool s) = [] →
  ends (prepare C) (λ _ s', idle s' ∧ BackendPool.accounts (λ _, 0) (pool s') ∧
      ∀ k, signalled k s → signalled k s')
    (λ _ s', idle s' ∧ Forall (λ b, Backend.activeConnections b = 0)
      (BackendPool.backends_ (pool s'))) s.
Proof using Type.
  intros Hv Hlen Hidle Hp. unfold prepare.
  destruct (Logger.parseLevel (Config.logLevel C)) as [level|e|] eqn:Hlev.
  3: { exfalso. revert Hlev. unfold Logger.parseLevel. by repeat case_match. }
  2: { split; [done|]. by rewrite Hp. }
  apply ends_after, runs_modify. set (s1 := mkEnv _ _ _ _ _ _).
  assert (∀ tr, neutral (log s) tr → ∀ p, idle (upd tr (mkEnv (mine s1) (threads s1) (checker s1)
    (metrics s1) p (log s1)))) as Hidle1.
  { intros tr Hn p. apply (idle_neutral s); [done|done|]. right; left. by eexists. }
  apply ends_bind. eapply ends_mono.
  { eapply (ends_lifts (T := trace) _ _ _ _ s1); [apply lifts_pool|apply pool_spec]. }
  2: { cbn beta. intros e s2 (tr & -> & Hn). split; [by apply (Hidle1 tr Hn (pool s))|].
       cbn. by rewrite Hp. }
  cbn beta. intros p s2 (tr & -> & Hpe & Hf & Hne & Hn). apply ends_runs, runs_modify.
  split; [apply (Hidle1 tr Hn p)|]. split; [|done].
  eapply (fresh_accounts (Config.backends C)); try done. apply Hv.
Qed.

Lemma body_spec polls program args files s :
  idle s → BackendPool.backends_ (pool s) = [] → signalled polls s →
  (∀ path c, Config.load path (files path) = Val c →
    Z.of_nat (length (Config.backends c)) < 2 ^ 32 ∧ Config.bufferSize c <= cap) →
  ends (body stamp source fuel sigaction polls program args files)
    (λ code s', code = 0 ∧ over s' ∧ statsThread (mine s') = None) (λ _ s', over s') s.
Proof using All.
  intros Hidle Hp Hsig Hfiles. unfold body.
  assert (over s) as Hover by (left; split; [done|by rewrite Hp]).
  assert (∀ line, ends (print line ;; mret 0) (λ code s', code = 0 ∧ over s' ∧
    statsThread (mine s') = None) (λ _, over) s) as Hprint.
  { intros line. apply ends_after, runs_modify, ends_runs, runs_ret. split; [done|].
    split; [left|by apply Hidle]. split; [|by cbn; rewrite Hp].
    apply (idle_neutral s); [done|by split_and!|]. right; right. by eexists. }
  pose proof (parseOptions_finishes args) as Hpf.
  destruct (parseOptions args) as [[options|]|e|]; [|apply Hprint|done|done].
  destruct (showVersion options); [apply Hprint|].
  pose proof (Config.load_finishes (configPath options) (files (configPath options))) as Hlf.
  destruct (Config.load _ _) as [C|e|] eqn:Hload; [|done|done].
  pose proof (Config.load_ok _ _ _ Hload) as Hv. destruct (Hfiles _ _ Hload) as [Hlen Hbuf].
  assert (0 < Config.bufferSize C <= cap) as Hsize
    by (destruct Hv as ((_ & _ & _ & _ & ? & _) & _); lia).
  apply ends_bind. eapply ends_mono; [by apply (prepare_spec C)| |by left]. cbn beta.
  intros [] s2 (Hidle2 & Hacc & Hsig2).
  assert (Forall (λ b, Backend.activeConnections b = 0) (BackendPool.backends_ (pool s2))) as Hfa.
  { destruct Hacc as (_ & _ & _ & Ha). apply Forall_lookup. intros i b Hi.
    by destruct (Ha i b Hi) as [_ ->]. }
  destruct (checkOnly options).
  - apply ends_after, runs_gets, ends_after, runs_modify, ends_runs, runs_ret. split; [done|].
    split; [left|by apply Hidle2]. split; [|done].
    apply (idle_neutral s2); [done|by split_and!|]. right; right. by eexists.
  - apply ends_bind. unfold installSignals.
    destruct (sigaction SIGINT), (sigaction SIGTERM); try (apply ends_throw; by left).
    apply ends_runs, runs_ret.
    apply ends_bind. eapply ends_mono; [by eapply (start_up_spec C polls); [..|apply Hsig2]|..]; cbn beta.
    + intros [] s3 [Hs3 Hsig3]. eapply ends_mono; [by apply serve_clients|..]; cbn beta.
      * intros code s4 (-> & Hb4 & Hst4). split; [done|]. split; [|done].
        right. exists C. split; [done|]. split; [done|]. rewrite Hst4. by intros [].
      * intros e s4 Hl. right. by exists C.
    + intros e s3 Hl. right. by exists C.
Qed.

(** Leaving before anything was started. *)
Lemma idle_tick t s :
  idle s → runs (run_tick stamp source fuel t) (λ _ s', idle s' ∧ pool s' = pool s) s.
Proof using Type.
  intros Hi. pose proof Hi as [Ht Hc _ Hs _ _ _ _]. destruct t as [j| | |]; cbn [run_tick].
  - unfold serve_thread. apply runs_bind, runs_gets. rewrite Ht. by apply runs_ret.
  - unfold check. apply runs_bind, runs_gets. rewrite Hc. by apply runs_ret.
  - unfold nap. apply runs_bind, runs_gets. rewrite Hs. by apply runs_ret.
  - apply runs_modify. split; [|done]. by destruct Hi.
Qed.

Lemma leave_idle s :
  idle s → Forall (λ b, Backend.activeConnections b = 0) (BackendPool.backends_ (pool s)) →
  runs (leave stamp source fuel) (λ alive s', alive = true ∧ released s') s.
Proof using Type.
  intros Hi Hp. unfold leave. apply runs_bind, runs_gets.
  rewrite (idle_stats _ Hi), (idle_threads _ Hi). cbn [length seq for_each].
  apply runs_bind, runs_ret, runs_bind. unfold destroy_checker. apply runs_bind.
  set (s1 := mkEnv (mine s) (threads s) (HealthChecker.set_running false (checker s))
    (metrics s) (pool s) (log s)).
  exists tt, s1. split; [done|]. assert (idle s1) as H1 by (destruct Hi; by split).
  unfold join_checker. apply runs_bind.
  assert (runs (yield stamp source fuel) (λ _ s', idle s' ∧ pool s' = pool s1) s1) as Hy.
  { unfold yield. apply runs_bind, runs_gets. destruct (schedule (mine s1)) as [|ts rest].
    { by apply runs_ret. }
    apply runs_bind, runs_modify.
    apply (runs_for_each _ (λ _ s', idle s' ∧ pool s' = pool s1)).
    - split; [|done]. by destruct H1.
    - intros t l s2 [H2 Hp2]. eapply runs_mono; [by apply idle_tick|].
      cbn beta. intros [] s3 [H3 Hp3]. split; [done|congruence]. }
  eapply runs_mono; [exact Hy|]. cbn beta. intros [] s2 [H2 Hp2].
  apply runs_bind, runs_gets. rewrite (idle_checker _ H2). apply runs_bind, runs_ret.
  assert (on_checker HealthChecker.join s2 = (Val tt, s2)) as Hj.
  { unfold on_checker, HealthChecker.join, gets, mbind, ST_bind. cbn. rewrite (idle_checker _ H2).
    cbn. by destruct s2. }
  exists tt, s2. split; [exact Hj|]. apply runs_bind. rewrite (idle_listen _ Hi).
  apply runs_ret. apply runs_bind, runs_modify, runs_ret. split; [done|].
  destruct H2. split; [done|]. split; [done|]. split; [done|]. split; [done|]. cbn. by rewrite Hp2.
Qed.

Lemma leave_over s :
  over s →
  runs (leave stamp source fuel) (λ alive s', if alive : bool then released s'
    else poll_failed s' ∧ is_Some (statsThread (mine s')) ∧ honest (log s')) s.
Proof using All.
  intros [[Hi Hp]|(C & Hsize & Hb & Hst)].
  - eapply runs_mono; [by apply leave_idle|]. by intros alive s' [-> ?].
  - destruct (statsThread (mine s)) as [st|] eqn:Hs.
    + unfold leave. apply runs_bind, runs_gets. rewrite Hs. apply runs_ret. rewrite Hs.
      split; [auto|]. split; [done|]. by destruct Hb as [? [] ? ? ? ?].
    + eapply runs_mono; [by eapply leave_spec|]. by intros alive s' [-> ?].
Qed.

(** ** [main] *)

(** What [main] answers, and what is left when it does. *)
Definition exited (r : status) (s : env) : Prop :=
  match r with
  | Exit code => released s ∧ (code = 0 ∨ code = 1 ∧
      ∃ e lines, console (mine s) = ("fatal: " +:+ e) :: lines)
  | Terminated => poll_failed s ∧ is_Some (statsThread (mine s)) ∧ honest (log s)
  end.

Lemma main_spec polls program args files s :
  idle s → BackendPool.backends_ (pool s) = [] → signalled polls s →
  (∀ path c, Config.load path (files path) = Val c →
    Z.of_nat (length (Config.backends c)) < 2 ^ 32 ∧ Config.bufferSize c <= cap) →
  runs (main stamp source fuel sigaction polls program args files) exited s.
Proof using All.
  intros Hi Hp Hsig Hf. unfold main. apply runs_bind, ends_caught, ends_bind.
  eapply ends_mono; [by apply body_spec|..]; cbn beta.
  - intros code s1 (-> & Ho & Hst). apply ends_runs, runs_ret, runs_bind.
    eapply runs_mono; [by apply leave_over|]. cbn beta. intros [] s2 H2; apply runs_ret.
    + split; [done|by left].
    + done.
  - intros e s1 Ho. apply runs_ret, runs_bind.
    eapply runs_mono; [by apply leave_over|]. cbn beta. intros [] s2 H2; cbn [negb].
    + apply runs_bind, runs_modify, runs_ret. split; [done|]. right. split; [done|]. by eexists _, _.
    + by apply runs_ret.
Qed.
End service.

End MainRun.
