(* ===== verification/MainClaims.v ===== *)
(** * What the process promises

    The properties of [main] as a whole, and a run of a small installation
    that shows their hypotheses met. *)

From S2P Require Import Prelude Text Posix Streams ByteBuffer UniqueFd Metrics Logger Config Net Backend BackendPool HealthChecker ProxySession SessionSteps SessionStream SessionEstate SessionEvents Acceptor Traces Worker WorkerTrace WorkerInvariant WorkerSessions WorkerTurn WorkerRun Main MainInvariant MainSteps MainStart MainAccept MainStop MainRun.
Local Open Scope Z_scope.

Module MainClaims.
Import UniqueFd (UniqueFd, mkUniqueFd, get).
Import Worker (MapOrder, running_, thread_, Starting, Ended).
Import Streams Traces WorkerInvariant Main MainInvariant MainSteps MainStart MainAccept MainStop MainRun.

Section claims.
Context {K : Kernel} {KL : KernelLaws K} {MO : MapOrder}.

(** C4: the life of the process.  Whatever the arguments, the configuration
    file, the peers and the interleaving of the threads, once a signal is due
    [main] ends.  If it ends with an exit code, that is 0, or 1 after the line
    [fatal: ...], and then every worker, its thread and its sessions are gone,
    the checking thread has been joined, every descriptor the process got hold
    of has been closed exactly once, and no connection is counted any more.
    The only other end is [std::terminate], after [poll] failed while the
    statistics thread was there. *)
Theorem process_lifecycle signals wakes most cap stamp source fuel sigaction polls program args files schedule
    `{!FewInterrupts K signals} `{!WakeLaws K wakes} `{!FewClients K most} `{!SteadyEpoll K} :
  Z.of_nat most < 2 ^ 53 - 1 → cap < 2 ^ 63 → enough signals wakes most cap fuel →
  (∀ path c, Config.load path (files path) = Val c →
    Z.of_nat (length (Config.backends c)) < 2 ^ 32 ∧ Config.bufferSize c <= cap) →
  Signal ∈ concat (take polls schedule) →
  ∃ r s', main stamp source fuel sigaction polls program args files (boot schedule) = (Val r, s') ∧
    match r with
    | Exit code =>
        (code = 0 ∨ code = 1 ∧ ∃ e lines, console (mine s') = ("fatal: " +:+ e) :: lines) ∧
        threads s' = [] ∧ HealthChecker.thread_ (checker s') = false ∧
        open_fds (log s') = ∅ ∧ closes_ok (log s') ∧ Metrics.active_ (metrics s') = 0 ∧
        Forall (λ b, Backend.activeConnections b = 0) (BackendPool.backends_ (pool s'))
    | Terminated => poll_failed s' ∧ is_Some (statsThread (mine s'))
    end.
Proof using KL MO.
  intros Hmost Hcap Hfuel Hfiles Hsig.
  destruct (main_spec signals wakes most cap stamp source fuel sigaction Hmost Hcap Hfuel polls program args
    files (boot schedule)) as (r & s' & Hm & He); [|done|by right|done|].
  - split; try done. exact estate_nil.
  - exists r, s'. split; [done|]. destruct r as [code|]; [|by destruct He as (? & ? & _)].
    destruct He as [(Ht & Hc & [(_ & Ho & Hcl) _ _] & Hg & Hp) Hcode]. by split_and!.
Qed.

(** C1: the proxy is transparent, end to end.  In every run of [main],
    whatever the configuration, the peers, the errors and the interleaving of
    the threads, each time bytes go out on a descriptor there is another one
    open, its peer, such that all that has gone out on the first since it was
    created is a prefix of what has come in on the peer since that was created,
    and the other way round: nothing is invented, lost in between, reordered,
    repeated or sent to somebody else's connection, although sessions share
    threads and the kernel reuses the numbers of closed descriptors. *)
Theorem process_transparent signals wakes most cap stamp source fuel sigaction polls program args files schedule
    `{!FewInterrupts K signals} `{!WakeLaws K wakes} `{!FewClients K most} `{!SteadyEpoll K} :
  Z.of_nat most < 2 ^ 53 - 1 → cap < 2 ^ 63 → enough signals wakes most cap fuel →
  (∀ path c, Config.load path (files path) = Val c →
    Z.of_nat (length (Config.backends c)) < 2 ^ 32 ∧ Config.bufferSize c <= cap) →
  Signal ∈ concat (take polls schedule) →
  ∃ r s', main stamp source fuel sigaction polls program args files (boot schedule) = (Val r, s') ∧
    ∀ later fd bs n earlier, log s' = later ++ EvSend fd bs (Ret n) :: earlier →
      let now := EvSend fd bs (Ret n) :: earlier in
      ∃ peer, peer ≠ fd ∧ peer ∈ open_fds earlier ∧
        sent fd now `prefix_of` got peer now ∧ sent peer now `prefix_of` got fd now.
Proof using KL MO.
  intros Hmost Hcap Hfuel Hfiles Hsig.
  destruct (main_spec signals wakes most cap stamp source fuel sigaction Hmost Hcap Hfuel polls program args
    files (boot schedule)) as (r & s' & Hm & He); [split; try done; exact estate_nil|done|by right|done|].
  exists r, s'. split; [done|]. intros later fd bs n earlier Hlog.
  assert (honest (log s')) as Hh.
  { destruct r as [code|]; [|by destruct He as (_ & _ & ?)].
    by destruct He as [(_ & _ & [] & _) _]. }
  rewrite Hlog in Hh. apply honest_before in Hh as [_ (peer & ? & ? & ? & ?)]. by exists peer.
Qed.

(** C20: clients go to the least busy worker.  Unless the rotation counter is
    about to wrap around, [selectWorker] returns, counting from the cursor,
    the first worker with the least number of active sessions; no worker has
    fewer. *)
Theorem selectWorker_least actives cursor :
  actives ≠ [] → 0 <= cursor → cursor + Z.of_nat (length actives) <= 2 ^ 64 →
  let n := Z.of_nat (length actives) in
  let at_ k := Z.to_nat ((cursor + k) mod n) in
  ∃ k active, 0 <= k < n ∧ selectWorker actives cursor = at_ k ∧
    actives !! at_ k = Some active ∧ Forall (λ a, active <= a) actives ∧
    ∀ i, 0 <= i < k → ∃ a, actives !! at_ i = Some a ∧ active < a.
Proof using Type.
  intros Hne Hc Hw n at_. assert (0 < n) as Hn by (subst n; destruct actives; cbn; [done|lia]).
  assert (is_u64 cursor) as Hu by (split; lia).
  destruct (selectWorker_best actives cursor Hne Hu) as (best & (k & Hk & H1 & H2 & Hle & Hlt) & Hs).
  assert (∀ i, 0 <= i < n → place n cursor i = (cursor + i) mod n) as Hplace.
  { intros i Hi. unfold place. rewrite u64_small by (split; lia). done. }
  assert (∀ i, 0 <= i < n → actives !! at_ i = Some (MainAccept.load actives cursor i)) as Hload.
  { intros i Hi. unfold MainAccept.load, at_. fold n. rewrite Hplace by done.
    pose proof (Z.mod_pos_bound (cursor + i) n Hn).
    destruct (lookup_lt_is_Some_2 actives (Z.to_nat ((cursor + i) mod n))) as [a Ha]; [lia|].
    by rewrite Ha, (nth_lookup_Some _ _ _ _ Ha). }
  exists k, best.2. split; [done|]. split; [by rewrite Hs, H1, Hplace|].
  split; [by rewrite H2, Hload|]. split.
  - apply Forall_lookup. intros j a Ha. pose proof (lookup_lt_Some _ _ _ Ha).
    set (i := (Z.of_nat j - cursor) mod n).
    assert (0 <= i < n) as Hi by by apply Z.mod_pos_bound.
    assert (at_ i = j) as Hj.
    { unfold at_, i. rewrite Zplus_mod_idemp_r. replace (cursor + (Z.of_nat j - cursor)) with (Z.of_nat j) by lia.
      rewrite Z.mod_small by lia. lia. }
    specialize (Hle i Hi). pose proof (Hload i Hi) as Hl. rewrite Hj in Hl. congruence.
  - intros i Hi. exists (MainAccept.load actives cursor i). split; [apply Hload; lia|by apply Hlt].
Qed.

(** C36: the configuration in force is valid.  Whatever the file, a
    configuration that [load] returns has every number in its documented range,
    at least one backend, each with a name, a host, a port and a weight in
    range, names pairwise distinct, and the probe timeout below the probe
    interval.  The text of [log_level] is only put in lower case there; the
    process goes on, whether to serve or to report a valid file, only when it
    is one of the documented levels ([warning] counting as [warn]), at that
    level, and otherwise stops before anything was opened, with an exception
    that names the text. *)
Theorem configuration_valid path file c :
  Config.load path file = Val c →
  Config.valid_config c ∧
  (∀ s u s', prepare c s = (Val u, s') →
    ∃ level, Logger.keyword level (Config.logLevel c) ∧ Logger.level (logger (mine s')) = level) ∧
  ((∀ level, ¬ Logger.keyword level (Config.logLevel c)) →
    ∀ s, prepare c s = (Exn ("unsupported log level: " +:+ Config.logLevel c), s)).
Proof using Type.
  intros Hload. pose proof (Config.load_ok _ _ _ Hload) as Hv. split; [done|].
  assert (Config.lower (Config.logLevel c) = Config.logLevel c) as Hlow
    by (destruct Hv as (Hf & _); unfold Config.fields_ok in Hf; tauto).
  destruct (Logger.parseLevel_spec (Config.logLevel c)) as [Hlevel Hnone]. change Logger.lower with Config.lower in *. rewrite Hlow in Hlevel, Hnone.
  split; [|intros Hk s; unfold prepare; by rewrite Hnone].
  intros s u s' Hp. unfold prepare in Hp.
  destruct (Logger.parseLevel (Config.logLevel c)) as [level|e|]; [|done..].
  exists level. split; [by apply Hlevel|]. bind_inv Hp. bind_inv Hp.
  rewrite lifts_pool in Hb0. injection Hb as _ <-. injection Hp as _ <-.
  unfold zoom in Hb0. case_match. by injection Hb0 as _ <-.
Qed.

(** C21: a failing [poll] ends the process the wrong way.  Once the process
    is up with its statistics thread and no signal pending, the first [poll]
    failing with anything but an interruption (no other thread having moved
    meanwhile) makes the accept loop throw; unwinding
    destroys a joinable [std::thread], so that instead of the exit code 1 the
    process is terminated, with no worker stopped or joined and no descriptor
    closed. *)
Theorem poll_failure_terminates stamp source fuel sigaction polls program args files options C errno st s s1 :
  parseOptions args = Val (Run options) → showVersion options = false → checkOnly options = false →
  Config.load (configPath options) (files (configPath options)) = Val C →
  sigaction SIGINT = Ret tt → sigaction SIGTERM = Ret tt →
  (prepare C ;; start_up stamp source fuel C) s = (Val tt, s1) →
  statsThread (mine s1) = Some st → stopRequested (mine s1) = false → schedule (mine s1) = [] →
  k_poll (log s1) (get (listenFd (mine s1))) POLLIN 500 = Fail errno → errno ≠ EINTR →
  ∃ s', main stamp source fuel sigaction (S polls) program args files s = (Val Terminated, s') ∧
    threads s' = threads s1 ∧ open_fds (log s') = open_fds (log s1) ∧
    listenFd (mine s') = listenFd (mine s1).
Proof using Type.
  intros Hopt Hv Hc Hload Hint Hterm Hup Hst Hstop Hsched Hpoll He.
  set (s2 := upd (EvPoll (get (listenFd (mine s1))) POLLIN 500 (Fail errno) :: log s1) s1).
  assert (main_loop stamp source fuel (S polls) s1 =
    (Exn ("poll failed: " +:+ k_strerror errno), s2)) as Hloop.
  { cbn [main_loop]. unfold gets, mbind, ST_bind.
    rewrite Hstop. unfold yield, gets, mbind, ST_bind. rewrite Hsched.
    unfold mret, ST_ret, sys_poll, syscall. cbn. rewrite Hpoll.
    destruct (Z.eqb_spec errno EINTR); [done|]. done. }
  assert (body stamp source fuel sigaction (S polls) program args files s =
    (Exn ("poll failed: " +:+ k_strerror errno), s2)) as Hb.
  { unfold body. rewrite Hopt, Hv, Hload, Hc. unfold installSignals. rewrite Hint, Hterm. unfold mbind, ST_bind in *.
    destruct (prepare C s) as [[[]|e|] s0]; [|done..]. unfold mret at 1, ST_ret at 1. rewrite Hup, Hloop. done. }
  exists s2. split; [|by split_and!].
  unfold main, mbind at 1, ST_bind at 1, try_catch. unfold mbind at 1, ST_bind at 1. rewrite Hb.
  cbn [mret ST_ret]. unfold leave, gets, mbind, ST_bind, mret, ST_ret. cbn. by rewrite Hst.
Qed.
End claims.

(** ** A small installation *)

Definition office_file : string := Config.unlines
  ["[server]"; "listen_port = 18080"; "workers = 1"; "buffer_size = 4096";
   "stats_interval_seconds = 10"; "[backend a]"; "host = 127.0.0.1"; "port = 19001"].

(** Every [poll] reports something; one client comes; every [epoll_wait]
    reports the eventfd; the clock advances by ten seconds a call. *)
Definition one_client (tr : trace) : sysret sockaddr :=
  if existsb is_accept tr then Fail EAGAIN
  else Ret (mkSockaddr AF_INET 0x9210 [x0a; x00; x00; x01]).

Definition office : script :=
  mkScript (λ tr, 10 ^ 10 * Z.of_nat (length tr)) (sc_recv quiet) (sc_send quiet)
    (sc_so_error quiet) (sc_socket_errno quiet) (sc_connect quiet) (sc_epoll_ctl quiet)
    (λ _, Ret [(5, EPOLLIN)]) (sc_wake_write quiet) (λ _, Ret (1, POLLIN)) (sc_addresses quiet)
    one_client.

#[local] Instance office_order : MapOrder.
Proof. exact {| Worker.visit := λ _ m, (map_to_list m).*2; Worker.visit_all := λ _ m, reflexivity _ |}. Defined.

#[local] Instance office_few : FewInterrupts (scripted office) 0.
Proof. by split. Qed.
#[local] Instance office_wake : WakeLaws (scripted office) 0.
Proof. by split. Qed.
#[local] Instance office_epoll : SteadyEpoll (scripted office).
Proof. by intros tr k e. Qed.
#[local] Instance office_clients : FewClients (scripted office) 1.
Proof.
  intros tr fd Ha. exists EAGAIN. split; [|done]. cbn. unfold one_client.
  assert (existsb is_accept tr = true) as ->; [|done].
  induction tr as [|e tr IH]; cbn in *; [lia|]. destruct e; cbn; auto.
Qed.

(** The worker serves the client, the checker probes, then SIGTERM. *)
Definition office_hours : list (list tick) :=
  [[]; [Check; Serve 0]; [Serve 0]; [Serve 0; Check; Nap]; [Serve 0; Signal]].

Definition office_main (program : string) (args : list string) : ST env status :=
  main (K := scripted office) (λ _, "now") "src/main.cpp" 4100 (λ _, Ret tt) 6 program args
    (λ path, if String.eqb path "office.conf" then Some office_file else None).

Lemma office_files path c :
  Config.load path (if String.eqb path "office.conf" then Some office_file else None) = Val c →
  Z.of_nat (length (Config.backends c)) < 2 ^ 32 ∧ Config.bufferSize c <= 4096.
Proof.
  destruct (String.eqb_spec path "office.conf") as [->|_]; [|discriminate].
  intros Hc. set (r := Config.load _ _) in Hc. vm_compute in r. subst r.
  injection Hc as <-. by split.
Qed.

(** The process serves its client, is told to stop, and leaves with code 0. *)
Lemma process_lifecycle_witness :
  let r := office_main "fluxgate" ["-c"; "office.conf"] (boot office_hours) in
  r.1 = Val (Exit 0) ∧ threads r.2 = [] ∧ open_fds (log r.2) = ∅ ∧ closes_ok (log r.2) ∧
  Metrics.active_ (metrics r.2) = 0.
Proof.
  destruct (process_lifecycle (K := scripted office) 0 0 1 4096 (λ _, "now") "src/main.cpp" 4100 (λ _, Ret tt) 6
    "fluxgate" ["-c"; "office.conf"]
    (λ path, if String.eqb path "office.conf" then Some office_file else None) office_hours)
    as (r & s' & Hm & He).
  - reflexivity.
  - reflexivity.
  - split; [unfold SessionEvents.fuel_for; lia|lia..].
  - exact office_files.
  - cbn. set_solver.
  - unfold office_main. rewrite Hm. cbn [fst snd].
    assert (Val r = Val (Exit 0)) as [= ->].
    { transitivity (office_main "fluxgate" ["-c"; "office.conf"] (boot office_hours)).1.
      - unfold office_main. by rewrite Hm.
      - vm_compute. reflexivity. }
    destruct He as (_ & Ht & _ & Ho & Hc & Ha & _). by split_and!.
Defined.

(** The same installation when there is something to relay: the client (its
    descriptor is 6, which a probe has used before it) says "hi", the backend
    (on 7) answers "ok!", and [send] takes two bytes at a time. *)
Definition unread (fd : Z) (tr : trace) : bool :=
  negb (existsb (λ e, match e with EvRecv fd' _ _ => fd =? fd' | _ => false end) tr).

Definition relay : script :=
  mkScript (λ tr, 10 ^ 6 * Z.of_nat (length tr))
    (λ tr fd, if unread fd tr then Ret (if fd =? 6 then [x68; x69] else [x6f; x6b; x21]) else Fail EAGAIN)
    (λ _ _, Ret 2) (sc_so_error quiet) (sc_socket_errno quiet) (sc_connect quiet)
    (sc_epoll_ctl quiet)
    (λ _, Ret [(5, EPOLLIN); (7, EPOLLOUT); (6, EPOLLIN); (7, EPOLLIN); (6, EPOLLOUT)])
    (sc_wake_write quiet) (λ _, Ret (1, POLLIN)) (sc_addresses quiet) one_client.

#[local] Instance relay_few : FewInterrupts (scripted relay) 0.
Proof. split; [|done..]. intros tr fd len _. cbn. by destruct (unread fd tr). Qed.
#[local] Instance relay_wake : WakeLaws (scripted relay) 0.
Proof. by split. Qed.
#[local] Instance relay_epoll : SteadyEpoll (scripted relay).
Proof. by intros tr k e. Qed.
#[local] Instance relay_clients : FewClients (scripted relay) 1.
Proof. exact office_clients. Qed.

Definition relay_main (program : string) (args : list string) : ST env status :=
  main (K := scripted relay) (λ _, "now") "src/main.cpp" 4100 (λ _, Ret tt) 6 program args
    (λ path, if String.eqb path "office.conf" then Some office_file else None).

Definition relay_log : trace :=
  log (relay_main "fluxgate" ["-c"; "office.conf"] (boot office_hours)).2.

(** The rest of the answer goes out. *)
Lemma relay_sends :
  relay_log = take 31 relay_log ++ EvSend 6 [x21] (Ret 1) :: drop 32 relay_log.
Proof. vm_compute. reflexivity. Qed.

Lemma relay_sent : sent 6 (EvSend 6 [x21] (Ret 1) :: drop 32 relay_log) = [x6f; x6b; x21].
Proof. vm_compute. reflexivity. Qed.

(** The client has been sent all of the answer. *)
Lemma process_transparent_witness :
  let now := EvSend 6 [x21] (Ret 1) :: drop 32 relay_log in
  sent 6 now = [x6f; x6b; x21] ∧
  ∃ peer, peer ≠ 6 ∧ sent 6 now `prefix_of` got peer now ∧ sent peer now `prefix_of` got 6 now.
Proof.
  destruct (process_transparent (K := scripted relay) 0 0 1 4096 (λ _, "now") "src/main.cpp" 4100 (λ _, Ret tt) 6
    "fluxgate" ["-c"; "office.conf"]
    (λ path, if String.eqb path "office.conf" then Some office_file else None) office_hours)
    as (r & s' & Hm & He).
  - reflexivity.
  - reflexivity.
  - split; [unfold SessionEvents.fuel_for; lia|lia..].
  - exact office_files.
  - cbn. set_solver.
  - assert (relay_log = log s') as Hs by (unfold relay_log, relay_main; rewrite Hm; reflexivity).
    destruct (He (take 31 relay_log) 6 [x21] 1 (drop 32 relay_log)) as (peer & Hne & _ & H1 & H2).
    + rewrite <- Hs. exact relay_sends.
    + split; [exact relay_sent|]. exists peer. split; [exact Hne|]. split; [exact H1|exact H2].
Defined.

(** A level that is none. *)
Definition chatty_file : string := Config.unlines
  ["[server]"; "log_level = Banana"; "[backend a]"; "host = 127.0.0.1"; "port = 19001"].

Lemma configuration_valid_witness : ∃ c d,
  Config.load "office.conf" (Some office_file) = Val c ∧ Config.valid_config c ∧
  Config.load "chatty.conf" (Some chatty_file) = Val d ∧ Config.logLevel d = "banana" ∧
  prepare (K := scripted office) d (boot []) = (Exn "unsupported log level: banana", boot []).
Proof.
  eexists _, _. split; [vm_compute; reflexivity|]. split.
  { apply (configuration_valid (K := scripted office) "office.conf" (Some office_file)).
    vm_compute. reflexivity. }
  split; [vm_compute; reflexivity|]. split; [reflexivity|].
  apply (configuration_valid (K := scripted office) "chatty.conf" (Some chatty_file)).
  - vm_compute. reflexivity.
  - intros [] Hk; vm_compute in Hk; [discriminate|discriminate|destruct Hk; discriminate|discriminate].
Defined.

(** The last two of three workers are idle; the cursor points at the last. *)
Lemma selectWorker_least_witness :
  selectWorker [3; 1; 1] 5 = 2%nat ∧
  ∃ k active, 0 <= k < 3 ∧ selectWorker [3; 1; 1] 5 = Z.to_nat ((5 + k) mod 3) ∧
    [3; 1; 1] !! Z.to_nat ((5 + k) mod 3) = Some active ∧ Forall (λ a, active <= a) [3; 1; 1].
Proof.
  destruct (selectWorker_least [3; 1; 1] 5) as (k & active & Hk & Hs & Ha & Hle & _).
  - discriminate.
  - discriminate.
  - discriminate.
  - split; [reflexivity|]. exists k, active. split_and!; [exact (proj1 Hk)|exact (proj2 Hk)|exact Hs|exact Ha|exact Hle].
Defined.

(** [poll] fails as soon as it is called. *)
Definition blind : script :=
  mkScript (sc_now office) (sc_recv office) (sc_send office) (sc_so_error office)
    (sc_socket_errno office) (sc_connect office) (sc_epoll_ctl office) (sc_epoll_wait office)
    (sc_wake_write office) (λ _, Fail ECONNRESET) (sc_addresses office) (sc_accept office).

Definition blind_config : Config.AppConfig :=
  match Config.load "office.conf" (Some office_file) with
  | Val c => c
  | _ => Config.AppConfig_default
  end.

Definition blind_up : env :=
  ((prepare (K := scripted blind) blind_config ;;
    start_up (K := scripted blind) (λ _, "now") "src/main.cpp" 10 blind_config) (boot [])).2.

Lemma poll_failure_terminates_witness : ∃ s',
  main (K := scripted blind) (λ _, "now") "src/main.cpp" 10 (λ _, Ret tt) 1 "fluxgate" ["-c"; "office.conf"]
    (λ _, Some office_file) (boot []) = (Val Terminated, s') ∧
  length (threads s') = 1%nat ∧ open_fds (log s') ≠ ∅.
Proof.
  destruct (poll_failure_terminates (K := scripted blind) (λ _, "now") "src/main.cpp" 10 (λ _, Ret tt) 0
    "fluxgate" ["-c"; "office.conf"] (λ _, Some office_file)
    (mkOptions "office.conf" false false) blind_config ECONNRESET (mkStats 10 0 false) (boot [])
    blind_up) as (s' & Hm & Ht & Ho & _).
  - reflexivity.
  - reflexivity.
  - reflexivity.
  - vm_compute. reflexivity.
  - reflexivity.
  - reflexivity.
  - vm_compute. reflexivity.
  - vm_compute. reflexivity.
  - vm_compute. reflexivity.
  - vm_compute. reflexivity.
  - reflexivity.
  - discriminate.
  - exists s'. split; [exact Hm|]. rewrite Ht, Ho. split; [vm_compute; reflexivity|].
    vm_compute. discriminate.
Defined.

End MainClaims.
